(* ===== verification/_CoqProject ===== *)
-Q . S2P
Prelude.v
GoLib.v
Ring.v
RingConc.v
Protocol.v
Client.v
Dedupe.v
Collector.v
Connections.v
Delivery.v
Sink.v
FileSink.v
Pool.v
PoolInv.v
PoolSafety.v
PoolAudit.v
Flusher.v
FlushInv.v
FlushSafety.v
FlushControl.v
FlushProps.v
FlushLive.v
Appender.v
AppenderSafety.v
AppenderProps.v
SharedSink.v
GoText.v
GoNet.v
Config.v
Observer.v
Telemetry.v
HttpApi.v
Runtime.v
RuntimeLeases.v
RuntimeStart.v
Pipeline.v
PipelineSinks.v
PipelineNet.v
Publishing.v
Rounding.v
Magnitude.v
Perf.v
PerfReport.v
Loadgen.v
Stream.v
DemoLeases.v
Daemon.v
Callers.v
Entry.v
SharedLog.v
ServiceLog.v
