(* ===== verification/Prelude.v ===== *)
(** * MiniLogback: a verification library

    MiniLogback is an asynchronous logging library and a service around it.  An
    event is encoded into a leased block of a byte pool and published into a bounded
    ring; one flusher goroutine drains the ring into batches and hands each to a
    sink: a writer, a rotating file, or a network client that sends it to a
    collector, which deduplicates batches and writes them to its own sink.  The
    service [minilogbackd] puts all of it into one process and adds settings,
    telemetry and a management API; two commands beside it generate load and measure
    the library.  This library models that program and proves what it promises;
    paths below are relative to src/.

    ** Files

    Foundations.  Prelude.v: record update, transition systems ([reach]), the
    tactics and hints all files share, lemmas on lists and machine integers.
    GoLib.v, GoText.v, GoNet.v: the parts of Go's standard library the program
    uses (errors, byte order, CRC-32, readers and writers; text, numbers, floats
    and durations; addresses).  They model no file of the repository.

    Ring (internal/ring).  Ring.v has the shared memory of the queue and one step
    per atomic operation of [TryPublish], [TryConsume] and [Depth] ([pub_step],
    [con_step], [depth_step]); [ring_step] interleaves any number of producers, the
    consumer and [Close]; [TryPublish] and the others run a call alone and refine a
    bounded queue.  RingConc.v proves the slot protocol for every interleaving.

    Wire protocol and network (internal/protocol, internal/collector).  Protocol.v:
    frames and acknowledgements, encoding and decoding.  Client.v: [Send] with its
    retries over an arbitrary peer (class [Net]).  Dedupe.v: the table of batch
    keys, its critical sections interleaved.  Collector.v: admission of connections
    and the request loop over an arbitrary sink.  Connections.v: any number of
    connections, [handle] cut at its shared accesses ([csys_step]); the system's view of
    the table is that of Dedupe.v, and an undisturbed turn is [handle_batch]'s.  Delivery.v: an instance of [Net]
    whose peer is that collector; client and collector composed.

    Sinks (internal/sink).  Sink.v: the resume cursor, the writer sink, the network
    adapter.  FileSink.v: vectored and sequential writes (class [WriteFn] with its
    laws), rotation, syncing, closing, over a disk that may fail at every call.

    Byte pool (internal/pool).  Pool.v: blocks, leases, classes, counters and the
    audit registry, every operation executable.  PoolInv.v: the invariant for
    arbitrary sequences of operations ([pool_step]), with the overdue scan split at
    its two critical sections.  PoolSafety.v: life cycle, ownership, isolation.
    PoolAudit.v: registry, overdue counter, pages.

    Flusher (internal/flusher).  Flusher.v: the goroutine [run] as a program of one
    access to shared state at a time ([run_step]) in a world with ring, pool and
    sink; [sys_step] interleaves it with publishers and callers of [Close].
    FlushInv.v, FlushSafety.v, FlushControl.v: its invariants.  FlushProps.v and
    FlushLive.v: delivery, retries, and that [Close] completes.

    Appender (pkg/minilogback).  Appender.v: configuration, publishing, logging,
    the handles borrowers hold, statistics, [Close], over the ring, the pool and
    the flusher's fields.  AppenderSafety.v: the invariant [appender_ok].
    AppenderProps.v: its theorems, for every interleaving of the API with the
    flusher's effects ([api_step]).  Callers.v: the paths, frames and goroutine
    numbers kept of a call (also internal/pool/audit.go).  Entry.v: loggers, fields,
    the public sink constructors, the collector's address check.  Publishing.v: what
    one borrower of the appender does to the others' handles.

    Composition.  Pipeline.v: the interface of a resuming sink ([ResumingSink], a
    class of operations with its laws) and the simulation that relates a world of
    the flusher to what such a sink holds.  PipelineSinks.v: the file sink behind
    the service's observer is an instance.  PipelineNet.v: so is the network adapter
    over the client and the collector of Delivery.v.

    Service (internal/config, internal/telemetry, internal/httpapi,
    cmd/minilogbackd).  Config.v: [Parse], [Validate], [DemoAllowed], [Effective].
    Observer.v: the window of write durations.  Telemetry.v: snapshots, the calls of
    [sample], which may overlap ([step false]) or be [Run]'s alone ([step true]), and
    the sampler's subscribers, interleaved.  HttpApi.v: routing and handlers over the
    class [Provider].  Runtime.v: [newRuntime] and the operations of the service
    state.  RuntimeStart.v, RuntimeLeases.v: starting it, paging through leases.
    SharedSink.v: the log file that flusher and collector share, in sequence;
    SharedLog.v: the same with the flusher's whole world interleaved.  ServiceLog.v: that
    world and the system of Connections.v over one sink ([service_step]).  DemoLeases.v: the
    demo calls, their traffic and [Close] interleaved ([demo_step]).  Stream.v: the
    loop of the metrics stream.  Daemon.v: [run] from the settings to the returned
    error, with its two listeners and their goroutines, requests, signals and the
    clock ([daemon_step]).  Magnitude.v: the
    size of floats, for Stream.v.

    Commands (cmd/loadgen, cmd/perfcheck).  Loadgen.v: the load generator over any
    network, and against the collector.  Perf.v: the rate-controlled producer, the
    workers of a phase interleaved ([phase_step]), percentiles and gates.  PerfReport.v:
    the machine's description, and [main] up to the exit status.
    Rounding.v: float64 rounding, for the percentiles.

    ** What is proved

    Delivery: what the sink received is, batch by batch, what the ring admitted, in
    order and once ([flush_fifo], [retry_same_batch], [close_drains],
    [close_completes]); a sink writes each byte of a batch once whatever fails in
    between ([FileSink_exactly_once]); client and collector together store a batch at
    most once, and exactly once after a nil return ([delivery_exactly_once]).  End to
    end: the log file, or the collector's sink at the other end of the network, holds
    a prefix of the stream of admitted events that contains every delivered one, and
    all of it after a clean close ([log_file_stream], [network_stream]); shared with
    the collector, the log holds the acknowledged batches of both, whole and once, and
    every batch a peer was sent [Accepted] for ([shared_log_file], [service_log]); the
    load generator's batches arrive in order and once ([loadgen_delivers]).
    Refinement: the ring is a bounded queue ([ring_refines_fifo],
    [ring_concurrent_fifo]); the deduplication table runs one attempt per batch
    ([dedupe_single_flight]), and so does a collector with any number of peers,
    which stores no batch twice and sends acknowledgements that mean what
    [connections_sound] says of each status; the iterated backoff has a closed form
    ([backoff_closed_form]).  Round trips: [batch_roundtrip], and the rejection of
    damaged frames ([batch_corruption_detected]).  Ownership: blocks and leases
    ([pool_ownership], [pool_isolation], and [mutation_detected], which says for
    each audit mode whether a late write is reported), their transfer to the ring ([publish_ownership], [log_no_leak], [handles_typed]) and the leases the
    service retains ([retained_leases]).  Counters: [ring_accounting],
    [phase_accounts].  Termination: [publish_wait_free], [close_completes],
    [drive_accounts].  The service: [parse_spec], [newRuntime_outcome],
    [sampler_fanout], [stream_lasts], [list_pages], [api_effects], [call_site_path],
    [run_shutdown].  The benchmark's percentiles and verdict: [summarize_ranks],
    [perfcheck_exit].

    Where the code does not do what it means to, a theorem shows the run:
    [close_race] (an accepted event is lost when [Close] overtakes its publisher),
    [sink_error_loses_batch] (whatever the sink, a failed batch is recorded as done
    and its retry answered as a duplicate) and [failed_batch_blocks_file] (it holds
    the shared log file), [oversized_batch_stalls] (a
    batch the network client can never send), [subscribe_stalls] (a subscription
    that blocks for ever), [list_limit_200] (a page size whose last page is
    unreachable), the two exceptions of [newRuntime_outcome],
    [failed_rotation_is_permanent], the example of [run_shutdown] (a metrics
    stream whose client stays makes every shutdown run out its time), and
    [ingest_left_open] (a shutdown that overtakes the collector's [Serve] leaves its
    listener open, and [Serve] then accepts).  [soak_grows] shows where the benchmark's
    gate is laxer than the README: a soak may end with one goroutine more.
    [samples_reorder] shows why [sampler_fanout] promises an order only when [Run]
    alone samples, as in the daemon: overlapping calls of [SampleNow] swap theirs.

    ** Conventions and bounds

    Integers are [Z] with their wrap-around written out ([u64], [u32], [i64]);
    counters that the code lets wrap do so in the model.  Pointers to shared mutable
    objects (slots, blocks, leases, handles, pending calls, channels) are indices
    into a list of the state.  An atomic operation, or a critical section of a
    mutex, is one step; time, contexts and operating system calls are arguments,
    lists of answers or a class.  Loops that are not structural take fuel and
    return [option]: [handle_loop] takes one more than the bytes to read, as every
    turn but the last consumes a frame; a write loop takes the bytes to write plus
    the number of interrupted calls [eintr_until] allows; [publish_wait_free] bounds
    the ring's own loops.  The theorems about such a function state that the fuel is
    enough.  A history of the ring is limited to 2^64 - 2^31 reservations, the span
    in which a stale cursor cannot come round; leases and snapshots to 2^64.

    ** Not modelled

    The frontend; the parsing of flags, the installation of signal handlers, the
    logging of the commands' main functions, and the exit status of those but
    perfcheck; the inside of http.Server, http.FileServer and http.ServeContent, of
    which the documented behaviour is used; the byte-level contents of JSON bodies,
    which the standard library writes, and the text of formatted errors.  What package runtime, the operating system, the
    network and the clock answer is an argument of the operations.  A sink call of
    the flusher is one step, and so is a call of the appender's API, except where a
    file above splits it.  Memory ordering is sequentially consistent, as Go's
    sync/atomic promises. *)

From stdpp Require Import gmap strings list fin_maps sorting.
From Stdlib Require Import ZArith Lia.

(** ** Scope, record update *)

#[global] Open Scope Z_scope.

(** A record declares its eta-expansion once ([Fields]); [r <| f := v |>]
    replaces one field and [r <| f ::= g |>] maps one; a field the declaration
    does not mention is an error. *)
Class Fields (R : Type) := fields_of : R → R.
Class Update {R A : Type} (f : R → A) := update_with : (A → A) → R → R.
Arguments update_with {R A} f {_} _ _ /.

#[export] Hint Opaque Fields Update : typeclass_instances.

Ltac solve_update :=
  lazymatch goal with
  | |- @Update ?R ?A ?f =>
    let inst := constr:(ltac:(typeclasses eauto) : Fields R) in
    let e := eval hnf in inst in
    let g := fresh "g" in let r := fresh "r" in intros g r;
    let body := eval cbv beta in (e r) in
    let h := eval pattern (f r) in body in
    lazymatch h with
    | ?k _ =>
        let v := eval cbv beta in (k (g (f r))) in
        lazymatch v with context [g] => exact v | _ => fail "no record declaration with this field" end
    end
  end.
#[export] Hint Extern 1 (Update _) => solve_update : typeclass_instances.

Declare Scope record_scope.
Delimit Scope record_scope with rec.
Notation "r <| f := v |>" := (update_with f (λ _, v) r)
  (at level 1, f at level 0, left associativity, format "r <| f  :=  v |>").
Notation "r <| f ::= g |>" := (update_with f g r)
  (at level 1, f at level 0, left associativity, format "r <| f  ::=  g |>").

(** ** Proof automation *)

(** The development's rewriting and resolution database. *)
Create HintDb mlb.

(** [go] simplifies, splits the conjunctions and equalities in the context and
    closes what linear arithmetic or congruence closes. *)
Ltac split_and_all :=
  repeat match goal with
  | H : _ ∧ _ |- _ => destruct H
  | H : ∃ _, _ |- _ => destruct H
  | |- _ ∧ _ => split
  end.
Ltac go := split_and_all; simplify_eq/=; try done; try lia; try congruence;
           eauto with mlb.

(** Case analysis on the boolean tests the Go conditions become. *)
Ltac destruct_ifs :=
  repeat match goal with
  | |- context [if ?b then _ else _] => destruct b eqn:?
  | H : context [if ?b then _ else _] |- _ => destruct b eqn:?
  end.

(** Turns boolean comparisons on [Z] in the context into propositions. *)
Ltac zbool :=
  repeat match goal with
  | H : (_ =? _) = true |- _ => apply Z.eqb_eq in H
  | H : (_ =? _) = false |- _ => apply Z.eqb_neq in H
  | H : (_ <? _) = true |- _ => apply Z.ltb_lt in H
  | H : (_ <? _) = false |- _ => apply Z.ltb_ge in H
  | H : (_ <=? _) = true |- _ => apply Z.leb_le in H
  | H : (_ <=? _) = false |- _ => apply Z.leb_gt in H
  | H : (_ >? _) = _ |- _ => rewrite Z.gtb_ltb in H
  | H : (_ >=? _) = _ |- _ => rewrite Z.geb_leb in H
  | H : (_ || _)%bool = false |- _ => apply orb_false_iff in H as [? ?]
  | H : (_ && _)%bool = true |- _ => apply andb_true_iff in H as [? ?]
  | H : (_ || _)%bool = true |- _ => apply orb_true_iff in H as [?|?]
  | H : (_ && _)%bool = false |- _ => apply andb_false_iff in H as [?|?]
  | H : negb _ = true |- _ => apply negb_true_iff in H
  | H : negb _ = false |- _ => apply negb_false_iff in H
  | H : bool_decide _ = true |- _ => apply bool_decide_eq_true in H
  | H : bool_decide _ = false |- _ => apply bool_decide_eq_false in H
  end.

(** Evaluates the comparisons in the goal that the context decides. *)
Ltac ztest :=
  repeat match goal with
  | |- context [?a >? ?b] => rewrite (Z.gtb_ltb a b)
  | |- context [?a >=? ?b] => rewrite (Z.geb_leb a b)
  | |- context [?a =? ?b] =>
      first [rewrite (proj2 (Z.eqb_eq a b)) by lia | rewrite (proj2 (Z.eqb_neq a b)) by lia]
  | |- context [?a <? ?b] =>
      first [rewrite (proj2 (Z.ltb_lt a b)) by lia | rewrite (proj2 (Z.ltb_ge a b)) by lia]
  | |- context [?a <=? ?b] =>
      first [rewrite (proj2 (Z.leb_le a b)) by lia | rewrite (proj2 (Z.leb_gt a b)) by lia]
  end.

(** Arithmetic stays folded under [simpl] and [cbn]. *)
#[global] Arguments Z.ltb : simpl never.
#[global] Arguments Z.leb : simpl never.
#[global] Arguments Z.eqb : simpl never.
#[global] Arguments Z.gtb : simpl never.
#[global] Arguments Z.geb : simpl never.
#[global] Arguments Z.land : simpl never.
#[global] Arguments Z.of_nat : simpl never.

(** ** Machine integers *)

(** Go's [uint64], [uint32] and [int64] arithmetic: values are [Z], every
    operation wraps explicitly. *)
Definition u64 (z : Z) : Z := z mod 2 ^ 64.
Definition u32 (z : Z) : Z := z mod 2 ^ 32.
Definition i64 (z : Z) : Z := (z + 2 ^ 63) mod 2 ^ 64 - 2 ^ 63.

#[global] Arguments u64 : simpl never.
#[global] Arguments u32 : simpl never.
#[global] Arguments i64 : simpl never.

Lemma u64_range z : 0 <= u64 z < 2 ^ 64.
Proof. apply Z.mod_pos_bound; lia. Qed.

Lemma u64_small z : 0 <= z < 2 ^ 64 → u64 z = z.
Proof. intros. by apply Z.mod_small. Qed.

Lemma u32_small z : 0 <= z < 2 ^ 32 → u32 z = z.
Proof. intros. by apply Z.mod_small. Qed.

Lemma u64_idem z : u64 (u64 z) = u64 z.
Proof. apply u64_small, u64_range. Qed.

Lemma u64_add_l a b : u64 (u64 a + b) = u64 (a + b).
Proof. apply Zplus_mod_idemp_l. Qed.

Lemma u64_sub_l a b : u64 (u64 a - b) = u64 (a - b).
Proof. apply Zminus_mod_idemp_l. Qed.

Lemma u64_sub_r a b : u64 (a - u64 b) = u64 (a - b).
Proof. apply Zminus_mod_idemp_r. Qed.

Lemma u64_eq_divide a b : u64 a = u64 b ↔ ∃ k, a = b + k * 2 ^ 64.
Proof.
  unfold u64. split.
  - intros H. exists (a / 2 ^ 64 - b / 2 ^ 64).
    pose proof (Z.div_mod a (2 ^ 64)). pose proof (Z.div_mod b (2 ^ 64)). lia.
  - intros [k ->]. apply Z_mod_plus_full.
Qed.

(** Two counters less than one full turn apart are equal when their machine
    representations are. *)
Lemma u64_inj_near a b : Z.abs (a - b) < 2 ^ 64 → u64 a = u64 b → a = b.
Proof. intros Hn [k Hk]%u64_eq_divide. assert (k = 0) by lia. lia. Qed.

(** The signed difference of two machine counters is zero exactly when they
    are the same counter. *)
Lemma i64_diff_zero a b : i64 (u64 (a - b)) = 0 ↔ u64 a = u64 b.
Proof.
  unfold i64. rewrite u64_eq_divide. unfold u64.
  rewrite Zplus_mod_idemp_l. split.
  - intros H. exists ((a - b + 2 ^ 63) / 2 ^ 64).
    pose proof (Z.div_mod (a - b + 2 ^ 63) (2 ^ 64)). lia.
  - intros [k ->].
    replace (b + k * 2 ^ 64 - b + 2 ^ 63) with (2 ^ 63 + k * 2 ^ 64) by lia.
    rewrite Z_mod_plus_full. done.
Qed.

Lemma i64_small z : - 2 ^ 63 <= z < 2 ^ 63 → i64 z = z.
Proof. intros. unfold i64. rewrite Z.mod_small; lia. Qed.

Lemma i64_range z : - 2 ^ 63 <= i64 z < 2 ^ 63.
Proof. unfold i64. pose proof (Z.mod_pos_bound (z + 2 ^ 63) (2 ^ 64)). lia. Qed.

(** [pos & mask] with [mask = 2^k - 1] is the remainder by the capacity, and
    wrapping at 64 bits does not change it. *)
Lemma land_mask p k : 0 <= k → Z.land p (2 ^ k - 1) = p mod 2 ^ k.
Proof. intros. rewrite <- Z.land_ones by done. by rewrite Z.ones_equiv. Qed.

Lemma u64_mod_pow p k : 0 <= k <= 64 → u64 p mod 2 ^ k = p mod 2 ^ k.
Proof.
  intros. unfold u64. apply Z.mod_mod_divide.
  exists (2 ^ (64 - k)). rewrite <- Z.pow_add_r by lia. f_equal. lia.
Qed.

(** [c&(c-1) = 0] is Go's power-of-two test. *)
Definition is_pow2 (c : Z) : bool := Z.land c (c - 1) =? 0.

Lemma pow2_log2 c : 0 < c → is_pow2 c = true → c = 2 ^ Z.log2 c.
Proof.
  intros Hc H. unfold is_pow2 in H. zbool.
  pose proof (Z.log2_spec c Hc) as [Hlo Hhi].
  destruct (decide (c = 2 ^ Z.log2 c)) as [|Hne]; [done|exfalso].
  assert (Hb : Z.testbit (Z.land c (c - 1)) (Z.log2 c) = true).
  { rewrite Z.land_spec, Z.bit_log2 by done. cbn [andb].
    replace (Z.log2 c) with (Z.log2 (c - 1)).
    - apply Z.bit_log2. pose proof (Z.log2_nonneg c).
      assert (0 < 2 ^ Z.log2 c) by lia. lia.
    - rewrite Z.pow_succ_r in Hhi by apply Z.log2_nonneg.
      apply (Z.log2_unique' _ _ (c - 1 - 2 ^ Z.log2 c)); [apply Z.log2_nonneg|lia..]. }
  rewrite H, Z.bits_0 in Hb. done.
Qed.

Lemma is_pow2_pow k : 0 <= k → is_pow2 (2 ^ k) = true.
Proof.
  intros. unfold is_pow2. rewrite land_mask by done.
  rewrite Z_mod_same_full. done.
Qed.

#[export] Hint Resolve u64_range : mlb.

(** ** Lists *)

(** The atomic counters of the code are incremented modulo 2^64. *)
Definition inc (z : Z) : Z := u64 (z + 1).
Definition dec (z : Z) : Z := u64 (z + (2 ^ 64 - 1)).

#[global] Arguments inc : simpl never.
#[global] Arguments dec : simpl never.

Lemma inc_small z : 0 <= z < 2 ^ 64 - 1 → inc z = z + 1.
Proof. intros. apply u64_small. lia. Qed.

(** [Add(^uint64(0))] is a decrement. *)
Lemma dec_small z : 0 < z < 2 ^ 64 → dec z = z - 1.
Proof.
  intros. unfold dec. replace (z + (2 ^ 64 - 1)) with (z - 1 + 1 * 2 ^ 64) by lia.
  unfold u64. rewrite Z_mod_plus_full. apply Z.mod_small. lia.
Qed.

Lemma dec_inc z : dec (inc z) = u64 z.
Proof.
  unfold dec, inc. rewrite u64_add_l.
  replace (z + 1 + (2 ^ 64 - 1)) with (z + 1 * 2 ^ 64) by lia.
  unfold u64. apply Z_mod_plus_full.
Qed.

Lemma inc_u64 z : inc (u64 z) = u64 (z + 1).
Proof. apply u64_add_l. Qed.

Lemma dec_u64 z : dec (u64 z) = u64 (z - 1).
Proof.
  unfold dec. rewrite u64_add_l. replace (z + (2 ^ 64 - 1)) with (z - 1 + 1 * 2 ^ 64) by lia.
  unfold u64. apply Z_mod_plus_full.
Qed.

(** ** Reachability *)

(** Reflexive-transitive closure of a step relation, extended at the end: the
    form rule induction on histories uses. *)
Inductive reach {S : Type} (init : S → Prop) (step : S → S → Prop) : S → Prop :=
| reach_init s : init s → reach init step s
| reach_step s s' : reach init step s → step s s' → reach init step s'.

(** An invariant holds in every reachable state. *)
Lemma reach_invariant {S} (init : S → Prop) (step : S → S → Prop) (I : S → Prop) :
  (∀ s, init s → I s) →
  (∀ s s', reach init step s → I s → step s s' → I s') →
  ∀ s, reach init step s → I s.
Proof. intros Hi Hs s H. induction H; eauto. Qed.
