(* ===== verification/GoLib.v ===== *)
(** * Go's standard library, as far as the program uses it

    Errors and [errors.Is], results, bytes and [encoding/binary.BigEndian],
    [hash/crc32] (IEEE), [io.Reader]/[io.ReadFull] and [io.Writer].  Nothing in
    this file models a file of the repository: the components below are
    written against it. *)

From stdpp Require Import gmap strings list fin_maps.
From Stdlib Require Import ZArith Lia.
From Stdlib.Strings Require Import Byte.
From S2P Require Import Prelude.

(** ** Errors and results *)

(** [errors.New] values are identified by their text, [fmt.Errorf("%w")] wraps
    a cause, [errors.Join] joins two errors; a pointer to a struct with one
    integer field, the program's typed errors, is [ErrCode]. *)
Inductive error :=
| ErrNew (text : string)
| ErrCode (type : string) (code : Z)
| ErrWrap (text : string) (cause : error)
| ErrJoin (left right : error).

#[export] Instance error_eq_dec : EqDecision error.
Proof. solve_decision. Defined.

(** [errors.Is(e, target)] for a sentinel target. *)
Fixpoint errors_Is (e : error) (target : string) : bool :=
  match e with
  | ErrNew t => bool_decide (t = target)
  | ErrCode _ _ => false
  | ErrWrap _ c => errors_Is c target
  | ErrJoin a b => (errors_Is a target || errors_Is b target)%bool
  end.

(** [errors.As(e, &target)] for a target of the given type. *)
Fixpoint errors_As (e : error) (type : string) : option Z :=
  match e with
  | ErrNew _ => None
  | ErrCode t code => if bool_decide (t = type) then Some code else None
  | ErrWrap _ c => errors_As c type
  | ErrJoin a b => match errors_As a type with Some c => Some c | None => errors_As b type end
  end.

(** [errors.Join]: nil operands are dropped, nil when all are nil. *)
Definition errors_Join (a b : option error) : option error :=
  match a, b with
  | Some x, Some y => Some (ErrJoin x y)
  | Some x, None | None, Some x => Some x
  | None, None => None
  end.

(** Go's [(value, error)] pairs whose value is meaningless on error. *)
Inductive result (A : Type) := Ok (a : A) | Err (e : error).
Arguments Ok {A} a.
Arguments Err {A} e.

#[export] Instance result_ret : MRet result := @Ok.
#[export] Instance result_bind : MBind result := λ A B f r,
  match r with Ok a => f a | Err e => Err e end.

(** [if cond { return err }] *)
Definition guard_err (cond : bool) (e : error) : result unit :=
  if cond then Err e else Ok ().

Definition is_Ok {A} (r : result A) : bool := match r with Ok _ => true | _ => false end.

(** Sentinels of package [io]. *)
Definition io_EOF : error := ErrNew "EOF".
Definition io_ErrUnexpectedEOF : error := ErrNew "unexpected EOF".
Definition io_ErrShortWrite : error := ErrNew "short write".
Definition io_ErrNoProgress : error := ErrNew "multiple Read calls return no data or error".

(** ** Bytes *)

Definition Z_of_byte (b : byte) : Z := Z.of_N (Byte.to_N b).
Definition byte_of_Z (z : Z) : byte := default x00 (Byte.of_N (Z.to_N (z mod 256))).

#[export] Instance byte_eq_dec : EqDecision byte := Byte.byte_eq_dec.

(** [len] of a slice. *)
Abbreviation len l := (Z.of_nat (length l)).

(** [binary.BigEndian.PutUint{16,32,64}] of the low [n] bytes. *)
Fixpoint be_put (n : nat) (z : Z) : list byte :=
  match n with
  | O => []
  | S n => be_put n (z / 256) ++ [byte_of_Z z]
  end.

(** [binary.BigEndian.Uint{16,32,64}]. *)
Definition be_get (l : list byte) : Z := foldl (λ acc b, acc * 256 + Z_of_byte b) 0 l.

(** [copy(dst[off:], src)] for a source that fits. *)
Definition blit (off : nat) (src dst : list byte) : list byte :=
  take off dst ++ src ++ drop (off + length src) dst.

(** [s[lo:hi]] *)
Definition slice (lo hi : nat) (l : list byte) : list byte := take (hi - lo) (drop lo l).

(** [time.Time], as far as it is observed. *)
Record Time := mkTime { IsZero : bool; UnixNano : Z }.

(** ** CRC-32 (IEEE polynomial, reflected) *)

Definition crc_poly : Z := 0xEDB88320.
Definition crc_mask : Z := 0xFFFFFFFF.

Definition crc_bit (c : Z) : Z :=
  if Z.odd c then Z.lxor (Z.shiftr c 1) crc_poly else Z.shiftr c 1.

Definition crc_byte (c : Z) (b : byte) : Z :=
  Nat.iter 8 crc_bit (Z.lxor c (Z_of_byte b)).

(** [crc32.Update(crc, IEEETable, p)] *)
Definition crc_update (crc : Z) (p : list byte) : Z :=
  Z.lxor (foldl crc_byte (Z.lxor crc crc_mask) p) crc_mask.

Definition ChecksumIEEE (p : list byte) : Z := crc_update 0 p.

(** ** Readers *)

(** A reader delivers [rd_data] and then answers every read with [rd_end]
    ([io.EOF] when the stream is over, another error when it broke). *)
Record reader := mkReader { rd_data : list byte; rd_end : error }.

Definition ReadFull (n : nat) (r : reader) : result (list byte) * reader :=
  let avail := length (rd_data r) in
  if (n <=? avail)%nat then
    (Ok (take n (rd_data r)), mkReader (drop n (rd_data r)) (rd_end r))
  else
    (Err (if decide (rd_end r = io_EOF)
          then (if (avail =? 0)%nat then io_EOF else io_ErrUnexpectedEOF)
          else rd_end r),
     mkReader [] (rd_end r)).

(** ** Writers *)

(** A writer answers its [i]-th call on a buffer with [w_resp i buffer], a
    count and an error; the counted prefix is what it delivered. *)
Record writer := mkWriter {
  w_out : list byte;
  w_calls : nat;
  w_resp : nat → list byte → Z * option error
}.

Definition Write (w : writer) (buf : list byte) : writer * (Z * option error) :=
  let r := w_resp w (w_calls w) buf in
  (mkWriter (w_out w ++ take (Z.to_nat r.1) buf) (S (w_calls w)) (w_resp w), r).

(** A writer that takes everything. *)
Definition sink_all : nat → list byte → Z * option error := λ _ b, (len b, None).

(** ** Facts *)

Lemma len_nonneg {A} (l : list A) : 0 <= len l.
Proof. lia. Qed.

Lemma guard_Ok b e u : guard_err b e = Ok u ↔ b = false.
Proof. unfold guard_err. destruct b, u; naive_solver. Qed.

Lemma bind_Ok {A B} (r : result A) (f : A → result B) b :
  (x ← r; f x) = Ok b ↔ ∃ a, r = Ok a ∧ f a = Ok b.
Proof. destruct r; simpl; naive_solver. Qed.

Lemma Z_of_byte_range b : 0 <= Z_of_byte b < 256.
Proof.
  unfold Z_of_byte. split; [apply N2Z.is_nonneg|].
  pose proof (Byte.to_N_bounded b). lia.
Qed.

Lemma Z_of_byte_of_Z z : Z_of_byte (byte_of_Z z) = z mod 256.
Proof.
  unfold Z_of_byte, byte_of_Z.
  pose proof (Z.mod_pos_bound z 256 ltac:(lia)) as Hr.
  destruct (Byte.of_N (Z.to_N (z mod 256))) as [b|] eqn:E; simpl.
  - apply Byte.to_of_N in E. rewrite E. lia.
  - apply Byte.of_N_None_iff in E. lia.
Qed.

Lemma Z_of_byte_inj a b : Z_of_byte a = Z_of_byte b → a = b.
Proof.
  unfold Z_of_byte. intros H%N2Z.inj.
  pose proof (Byte.of_to_N a) as Ha. pose proof (Byte.of_to_N b) as Hb. congruence.
Qed.

Lemma byte_of_Z_of_byte b z : z mod 256 = Z_of_byte b → byte_of_Z z = b.
Proof. intros H. apply Z_of_byte_inj. by rewrite Z_of_byte_of_Z. Qed.

Lemma length_be_put n z : length (be_put n z) = n.
Proof. revert z. induction n; intros; simpl; [done|]. rewrite length_app, IHn. simpl. lia. Qed.

Lemma be_get_snoc l b : be_get (l ++ [b]) = be_get l * 256 + Z_of_byte b.
Proof. unfold be_get. by rewrite foldl_app. Qed.

Lemma be_get_put n z : be_get (be_put n z) = z mod 256 ^ Z.of_nat n.
Proof.
  revert z. induction n as [|n IH]; intros z; simpl be_put.
  - by rewrite Z.mod_1_r.
  - rewrite be_get_snoc, IH, Z_of_byte_of_Z, Nat2Z.inj_succ, Z.pow_succ_r by lia.
    rewrite Z.rem_mul_r by lia. lia.
Qed.

Lemma be_get_range l : 0 <= be_get l < 256 ^ len l.
Proof.
  induction l as [|b l IH] using rev_ind; [done|].
  rewrite be_get_snoc, length_app, Nat2Z.inj_add.
  change (length [b]) with 1%nat. rewrite Z.pow_add_r by lia.
  pose proof (Z_of_byte_range b). lia.
Qed.

Lemma be_put_get l : be_put (length l) (be_get l) = l.
Proof.
  induction l as [|b l IH] using rev_ind; [done|].
  rewrite length_app, Nat.add_comm. cbn [length Nat.add be_put].
  rewrite be_get_snoc. pose proof (Z_of_byte_range b).
  rewrite Z.div_add_l, Z.div_small, Z.add_0_r, IH by lia.
  f_equal. f_equal. apply byte_of_Z_of_byte.
  rewrite Z.add_comm, Z_mod_plus_full, Z.mod_small; lia.
Qed.

Lemma be_get_put_small n z : 0 <= z < 256 ^ Z.of_nat n → be_get (be_put n z) = z.
Proof. intros. by rewrite be_get_put, Z.mod_small. Qed.


(** *** CRC facts *)

Definition w32 (c : Z) : Prop := 0 <= c < 2 ^ 32.

Lemma w32_lxor a b : w32 a → w32 b → w32 (Z.lxor a b).
Proof.
  intros [Ha1 Ha2] [Hb1 Hb2]. split; [by apply Z.lxor_nonneg|].
  destruct (decide (Z.lxor a b = 0)) as [->|]; [lia|].
  assert (0 <= Z.lxor a b) by (by apply Z.lxor_nonneg).
  apply Z.log2_lt_pow2; [lia|].
  eapply Z.le_lt_trans; [by apply Z.log2_lxor|].
  apply Z.max_lub_lt.
  - destruct (decide (a = 0)) as [->|]; [done|]. apply Z.log2_lt_pow2; lia.
  - destruct (decide (b = 0)) as [->|]; [done|]. apply Z.log2_lt_pow2; lia.
Qed.

Lemma w32_byte b : w32 (Z_of_byte b).
Proof. pose proof (Z_of_byte_range b). unfold w32. lia. Qed.

Lemma w32_shiftr c : w32 c → 0 <= Z.shiftr c 1 < 2 ^ 31.
Proof. intros [??]. rewrite Z.shiftr_div_pow2 by lia. split; [apply Z.div_pos; lia|].
  apply Z.div_lt_upper_bound; lia. Qed.

Lemma w32_crc_bit c : w32 c → w32 (crc_bit c).
Proof.
  intros Hc. pose proof (w32_shiftr c Hc). unfold crc_bit.
  destruct (Z.odd c); [apply w32_lxor|]; unfold w32, crc_poly; lia.
Qed.

Lemma crc_bit_top c : w32 c → Z.testbit (crc_bit c) 31 = Z.odd c.
Proof.
  intros Hc. pose proof (w32_shiftr c Hc) as [? ?].
  assert (Hs : Z.testbit (Z.shiftr c 1) 31 = false).
  { destruct (decide (Z.shiftr c 1 = 0)) as [->|]; [apply Z.bits_0|].
    apply Z.bits_above_log2; [done|]. apply Z.log2_lt_pow2; lia. }
  unfold crc_bit. destruct (Z.odd c); [|done].
  rewrite Z.lxor_spec, Hs. done.
Qed.

Lemma crc_bit_inj a b : w32 a → w32 b → crc_bit a = crc_bit b → a = b.
Proof.
  intros Ha Hb H. assert (Ho : Z.odd a = Z.odd b).
  { by rewrite <- !crc_bit_top, H by done. }
  assert (Hs : Z.shiftr a 1 = Z.shiftr b 1).
  { unfold crc_bit in H. rewrite <- Ho in H. destruct (Z.odd a); [|done].
    rewrite <- (Z.lxor_0_r (Z.shiftr a 1)), <- (Z.lxor_0_r (Z.shiftr b 1)).
    rewrite <- (Z.lxor_nilpotent crc_poly), <- !Z.lxor_assoc. by rewrite H. }
  rewrite <- !Z.div2_spec in Hs.
  rewrite (Z.div2_odd a), (Z.div2_odd b), Hs, Ho. done.
Qed.

Lemma crc_iter_inj n a b :
  w32 a → w32 b → Nat.iter n crc_bit a = Nat.iter n crc_bit b → a = b.
Proof.
  intros Ha Hb. assert (Hw : ∀ c m, w32 c → w32 (Nat.iter m crc_bit c)).
  { intros c m Hc. induction m; simpl; auto using w32_crc_bit. }
  induction n as [|n IH]; simpl; [done|]. intros H.
  apply IH, crc_bit_inj; auto.
Qed.

Lemma w32_crc_byte c b : w32 c → w32 (crc_byte c b).
Proof.
  intros Hc. unfold crc_byte. generalize 8%nat. intros n.
  induction n; simpl; auto using w32_crc_bit, w32_lxor, w32_byte.
Qed.

Lemma w32_foldl_crc c p : w32 c → w32 (foldl crc_byte c p).
Proof. revert c. induction p; simpl; auto using w32_crc_byte. Qed.

Lemma lxor_cancel_r a b c : Z.lxor a c = Z.lxor b c → a = b.
Proof.
  intros H. rewrite <- (Z.lxor_0_r a), <- (Z.lxor_0_r b), <- (Z.lxor_nilpotent c).
  by rewrite <- !Z.lxor_assoc, H.
Qed.

Lemma crc_byte_inj_state a b x : w32 a → w32 b → crc_byte a x = crc_byte b x → a = b.
Proof.
  intros Ha Hb H. eapply lxor_cancel_r, crc_iter_inj; [| |apply H];
    auto using w32_lxor, w32_byte.
Qed.

Lemma crc_byte_inj_byte c x y : w32 c → crc_byte c x = crc_byte c y → x = y.
Proof.
  intros Hc H. apply Z_of_byte_inj, (lxor_cancel_r _ _ c).
  rewrite (Z.lxor_comm _ c), (Z.lxor_comm (Z_of_byte y) c).
  eapply crc_iter_inj; [| |apply H]; auto using w32_lxor, w32_byte.
Qed.

Lemma foldl_crc_inj p a b :
  w32 a → w32 b → foldl crc_byte a p = foldl crc_byte b p → a = b.
Proof.
  revert a b. induction p as [|x p IH]; simpl; [done|]. intros a b Ha Hb H.
  apply (crc_byte_inj_state a b x Ha Hb), IH; auto using w32_crc_byte.
Qed.

Lemma w32_mask : w32 crc_mask.
Proof. unfold w32, crc_mask. lia. Qed.

Lemma w32_crc_update c p : w32 c → w32 (crc_update c p).
Proof. intros. apply w32_lxor, w32_mask. apply w32_foldl_crc, w32_lxor; auto using w32_mask. Qed.

(** Writing in pieces is checksumming the concatenation: [hash.Write] twice. *)
Lemma crc_update_app c p q : crc_update (crc_update c p) q = crc_update c (p ++ q).
Proof.
  unfold crc_update. rewrite foldl_app. f_equal. f_equal.
  by rewrite Z.lxor_assoc, Z.lxor_nilpotent, Z.lxor_0_r.
Qed.

Lemma w32_0 : w32 0.
Proof. unfold w32. lia. Qed.

(** Replacing one byte always changes the checksum. *)
Lemma crc_update_one_byte c p x y q :
  w32 c → crc_update c (p ++ x :: q) = crc_update c (p ++ y :: q) → x = y.
Proof.
  intros Hc. unfold crc_update. rewrite !foldl_app. cbn [foldl].
  intros H%lxor_cancel_r.
  assert (Hp : w32 (foldl crc_byte (Z.lxor c crc_mask) p)).
  { apply w32_foldl_crc, w32_lxor; auto using w32_mask. }
  apply foldl_crc_inj in H; auto using w32_crc_byte.
  by apply crc_byte_inj_byte in H.
Qed.

#[export] Hint Resolve w32_crc_update w32_0 w32_mask w32_byte w32_lxor : mlb.

(** The check value of the CRC-32/ISO-HDLC catalogue entry. *)
Example crc_check_value :
  ChecksumIEEE (map (λ n, byte_of_Z (Z.of_nat n)) (seq 49 9)) = 0xCBF43926.
Proof. vm_compute. reflexivity. Qed.

(** *** Slices, readers and writers *)

Lemma length_slice lo hi (l : list byte) :
  (lo <= hi <= length l)%nat → length (slice lo hi l) = (hi - lo)%nat.
Proof. intros. unfold slice. rewrite length_take, length_drop. lia. Qed.

Lemma ReadFull_app p q e :
  ReadFull (length p) (mkReader (p ++ q) e) = (Ok p, mkReader q e).
Proof.
  unfold ReadFull. cbn [rd_data rd_end]. rewrite length_app.
  rewrite (proj2 (Nat.leb_le _ _)) by lia. by rewrite take_app_length, drop_app_length.
Qed.

(** A full read consumes exactly the bytes it returns. *)
Lemma ReadFull_Ok n r p r' :
  ReadFull n r = (Ok p, r') → rd_data r = p ++ rd_data r' ∧ length p = n ∧ rd_end r' = rd_end r.
Proof.
  unfold ReadFull. destruct (n <=? _)%nat eqn:E; intros H; simplify_eq/=.
  apply Nat.leb_le in E. split; [symmetry; apply take_drop|].
  split; [|done]. rewrite length_take. lia.
Qed.

Lemma slice_cat (l : list byte) a b c :
  (a <= b)%nat → (b <= c)%nat → slice a b l ++ slice b c l = slice a c l.
Proof.
  intros. unfold slice.
  replace (c - a)%nat with ((b - a) + (c - b))%nat by lia.
  rewrite <- (take_take_drop (drop a l) (b - a) (c - b)), drop_drop.
  do 3 f_equal. lia.
Qed.

Lemma slice_all (l : list byte) : slice 0 (length l) l = l.
Proof. unfold slice. rewrite Nat.sub_0_r, drop_0. by apply take_ge. Qed.

Lemma slice_middle (p q r : list byte) lo hi :
  lo = length p → hi = (length p + length q)%nat → slice lo hi (p ++ q ++ r) = q.
Proof.
  intros -> ->. unfold slice. rewrite drop_app_length, Nat.add_comm, Nat.add_sub.
  apply take_app_length.
Qed.

(** Only the low [n] bytes of the argument are encoded. *)
Lemma be_put_mod n z : be_put n (z mod 256 ^ Z.of_nat n) = be_put n z.
Proof.
  rewrite <- be_get_put. rewrite <- (length_be_put n z) at 1. apply be_put_get.
Qed.

Lemma be_put_u32 z : be_put 4 (u32 z) = be_put 4 z.
Proof. apply (be_put_mod 4). Qed.

Lemma be_put_slice n lo hi (l : list byte) :
  (lo <= hi <= length l)%nat → n = (hi - lo)%nat →
  be_put n (be_get (slice lo hi l)) = slice lo hi l.
Proof. intros ? ->. rewrite <- (length_slice lo hi l) by done. apply be_put_get. Qed.

Lemma be_get_slice_range lo hi (l : list byte) :
  0 <= be_get (slice lo hi l) < 256 ^ Z.of_nat (hi - lo).
Proof.
  pose proof (be_get_range (slice lo hi l)) as Hr. split; [lia|].
  eapply Z.lt_le_trans; [apply Hr|]. apply Z.pow_le_mono_r; [lia|].
  unfold slice. rewrite length_take. lia.
Qed.

(** The contract of [io.Writer] on counts. *)
Definition writer_ok (w : writer) : Prop := ∀ i b, 0 <= (w_resp w i b).1 <= len b.

Lemma Write_resp w b : w_resp (Write w b).1 = w_resp w.
Proof. done. Qed.

(** A writer that takes all it is given. *)
Definition takes (w : writer) : Prop := ∀ i b, w_resp w i b = (len b, None).

(** What a loop run delivers: a prefix of the buffer, all of it on success. *)
Definition delivered (w w' : writer) (data : list byte) (n : Z) (err : option error) : Prop :=
  0 <= n <= len data ∧ w_out w' = w_out w ++ take (Z.to_nat n) data ∧
  w_resp w' = w_resp w ∧ (err = None → n = len data).

Lemma delivered_app w w1 w2 a b m n err :
  delivered w w1 a m None → delivered w1 w2 b n err →
  delivered w w2 (a ++ b) (m + n) err.
Proof.
  intros (Hm & Ho1 & Hr1 & Hn1) (Hn & Ho2 & Hr2 & Hn2).
  specialize (Hn1 eq_refl) as ->. unfold delivered. rewrite length_app.
  split; [lia|]. split; [|split; [congruence|intros ?; rewrite Hn2; [lia|done]]].
  rewrite Ho2, Ho1, <- app_assoc. f_equal.
  rewrite take_ge, take_app_ge by lia. do 2 f_equal. lia.
Qed.

Lemma delivered_take w w1 w2 (data : list byte) m n err :
  0 <= m <= len data →
  w_out w1 = w_out w ++ take (Z.to_nat m) data → w_resp w1 = w_resp w →
  delivered w1 w2 (drop (Z.to_nat m) data) n err → delivered w w2 data (m + n) err.
Proof.
  intros Hm Ho Hr Hd. rewrite <- (take_drop (Z.to_nat m) data) at 1.
  apply delivered_app with (w1 := w1); [|done].
  unfold delivered. rewrite length_take. split_and!; [lia..| |done|lia].
  rewrite Ho. f_equal. symmetry. apply take_ge. rewrite length_take. lia.
Qed.

(** Less may have been asked for. *)
Lemma delivered_weaken w w' a b n e :
  delivered w w' a n (Some e) → delivered w w' (a ++ b) n (Some e).
Proof.
  intros (? & Ho & ? & ?). unfold delivered. rewrite length_app.
  split_and!; [lia..| |done|done]. rewrite Ho, take_app_le by lia. done.
Qed.

#[global] Arguments be_put : simpl never.
#[global] Arguments be_get : simpl never.
#[global] Arguments slice : simpl never.
