(* ===== verification/Ring.v ===== *)
(** * The bounded MPSC ring (internal/ring)

    [Queue] is the shared state; [pub_step], [con_step] and [depth_step] are
    one atomic memory operation of [TryPublish], [TryConsume] and [Depth], and
    [ring_step] interleaves any number of producers with the one consumer and
    with [Close].  [TryPublish]/[TryConsume] run a call alone.  Section
    [Invariant] proves the slot protocol for every interleaving; [repr] and the
    [BoundedQueue] interface are what the components above rely on. *)

From stdpp Require Import gmap strings list fin_maps.
From Stdlib Require Import ZArith Lia.
From S2P Require Import Prelude GoLib.

Definition maxCapacity : Z := Z.shiftl 1 30.
Definition maxPublishAttempts : nat := 128.

Definition ErrInvalidCapacity : error :=
  ErrNew "ring capacity must be a power of two between 2 and 2^30".

Inductive PublishResult := PublishAccepted | PublishFull | PublishClosed | PublishInvalid.

#[export] Instance PublishResult_eq_dec : EqDecision PublishResult.
Proof. solve_decision. Defined.

Definition PublishResult_String (r : PublishResult) : string :=
  match r with
  | PublishAccepted => "accepted"
  | PublishFull => "queue_full"
  | PublishClosed => "closed"
  | PublishInvalid => "invalid"
  end.

Record slot (T : Type) := mkSlot { sequence : Z; value : option T }.
Arguments mkSlot {T} sequence value.
Arguments sequence {T} s.
Arguments value {T} s.

Record Queue (T : Type) := mkQueue {
  producer : Z;
  consumer : Z;
  capacity : Z;
  mask : Z;
  slots : list (slot T);
  closed : bool;
  publishAttempts : Z;
  published : Z;
  consumed : Z;
  rejectedFull : Z;
  rejectedClosed : Z;
  rejectedInvalid : Z;
  highWater : Z
}.
Arguments mkQueue {T}.
Arguments producer {T} q : rename.
Arguments consumer {T} q : rename.
Arguments capacity {T} q : rename.
Arguments mask {T} q : rename.
Arguments slots {T} q : rename.
Arguments closed {T} q : rename.
Arguments publishAttempts {T} q : rename.
Arguments published {T} q : rename.
Arguments consumed {T} q : rename.
Arguments rejectedFull {T} q : rename.
Arguments rejectedClosed {T} q : rename.
Arguments rejectedInvalid {T} q : rename.
Arguments highWater {T} q : rename.

#[export] Instance Queue_fields T : Fields (Queue T) := λ q,
  mkQueue (producer q) (consumer q) (capacity q) (mask q) (slots q) (closed q)
    (publishAttempts q) (published q) (consumed q) (rejectedFull q)
    (rejectedClosed q) (rejectedInvalid q) (highWater q).

(** [Stats] (stats.go): a snapshot of the counters. *)
Record Stats := mkStats {
  Capacity : Z; Depth : Z; HighWater : Z; PublishAttempts : Z; Published : Z;
  Consumed : Z; RejectedFull : Z; RejectedClosed : Z; RejectedInvalid : Z; Closed : bool
}.

Definition Stats_Dropped (s : Stats) : Z := RejectedFull s.

Section Code.
Context {T : Type}.
Implicit Types (q : Queue T) (v : T).

(** [New]: the slots start with their own index as sequence number. *)
Definition New (cap : Z) : result (Queue T) :=
  if (cap <? 2) || (cap >? maxCapacity) || negb (Z.land cap (cap - 1) =? 0) then
    Err (ErrWrap "%w: %d" ErrInvalidCapacity)
  else
    Ok (mkQueue 0 0 cap (cap - 1)
          (map (λ i, mkSlot (Z.of_nat i) None) (seq 0 (Z.to_nat cap)))
          false 0 0 0 0 0 0 0).

(** Index of the cell a position uses: [position & q.mask]. *)
Definition cell_index q (position : Z) : nat := Z.to_nat (Z.land position (mask q)).

Definition cell_at q (position : Z) : slot T :=
  default (mkSlot 0 None) (slots q !! cell_index q position).

Definition store_sequence q (position s : Z) : Queue T :=
  q <| slots ::= alter (λ c, mkSlot s (value c)) (cell_index q position) |>.

Definition store_value q (position : Z) (o : option T) : Queue T :=
  q <| slots ::= alter (λ c, mkSlot (sequence c) o) (cell_index q position) |>.

(** Where a call to [TryPublish] stands: one constructor per atomic operation
    still to come.  [attempt] counts the completed loop iterations. *)
Inductive pub_pc :=
| PBegin (o : option T)
| PCountInvalid
| PCheckClosed (v : T)
| PCountClosed
| PAttempt (v : T) (attempt : nat)
| PLoadProducer (v : T) (attempt : nat)
| PLoadSequence (v : T) (attempt : nat) (position : Z)
| PCas (v : T) (attempt : nat) (position : Z)
| PLoadConsumer (v : T) (position : Z)
| PLoadHighWater (v : T) (position depth : Z)
| PCasHighWater (v : T) (position depth current : Z)
| PStoreValue (v : T) (position : Z)
| PStoreSequence (v : T) (position : Z)
| PCountPublished
| PCountFull
| PReturn (r : PublishResult).

(** [continue]: the next attempt, or the exhausted budget. *)
Definition next_attempt v (attempt : nat) : pub_pc :=
  if (S attempt <? maxPublishAttempts)%nat then PAttempt v (S attempt) else PCountFull.

(** The local clamp at the head of [observeHighWater]. *)
Definition clamp_depth q (depth : Z) : Z :=
  if depth >? capacity q then capacity q else depth.

Definition pub_step q (pc : pub_pc) : Queue T * pub_pc :=
  match pc with
  | PBegin o =>
      (q <| publishAttempts ::= inc |>,
       match o with None => PCountInvalid | Some v => PCheckClosed v end)
  | PCountInvalid => (q <| rejectedInvalid ::= inc |>, PReturn PublishInvalid)
  | PCheckClosed v => (q, if closed q then PCountClosed else PAttempt v 0)
  | PCountClosed => (q <| rejectedClosed ::= inc |>, PReturn PublishClosed)
  | PAttempt v a => (q, if closed q then PCountClosed else PLoadProducer v a)
  | PLoadProducer v a => (q, PLoadSequence v a (producer q))
  | PLoadSequence v a position =>
      let difference := i64 (u64 (sequence (cell_at q position) - position)) in
      (q, if difference =? 0 then PCas v a position
          else if difference <? 0 then PCountFull
          else next_attempt v a)
  | PCas v a position =>
      if producer q =? position
      then (q <| producer := u64 (position + 1) |>, PLoadConsumer v position)
      else (q, next_attempt v a)
  | PLoadConsumer v position =>
      (q, PLoadHighWater v position (clamp_depth q (u64 (position + 1 - consumer q))))
  | PLoadHighWater v position depth =>
      (q, if depth >? highWater q then PCasHighWater v position depth (highWater q)
          else PStoreValue v position)
  | PCasHighWater v position depth current =>
      if highWater q =? current
      then (q <| highWater := depth |>, PStoreValue v position)
      else (q, PLoadHighWater v position depth)
  | PStoreValue v position => (store_value q position (Some v), PStoreSequence v position)
  | PStoreSequence v position =>
      (store_sequence q position (u64 (position + 1)), PCountPublished)
  | PCountPublished => (q <| published ::= inc |>, PReturn PublishAccepted)
  | PCountFull => (q <| rejectedFull ::= inc |>, PReturn PublishFull)
  | PReturn r => (q, PReturn r)
  end.

(** [TryConsume], likewise.  [CIdle] is outside a call. *)
Inductive con_pc :=
| CIdle
| CBegin
| CLoadSequence (position : Z)
| CSwap (position : Z)
| CStoreSequence (position : Z) (v : T)
| CStoreCursor (position : Z) (v : T)
| CCount (v : T)
| CReturn (o : option T).

Definition con_step q (pc : con_pc) : Queue T * con_pc :=
  match pc with
  | CIdle => (q, CIdle)
  | CBegin => (q, CLoadSequence (consumer q))
  | CLoadSequence position =>
      (q, if i64 (u64 (sequence (cell_at q position) - u64 (position + 1))) =? 0
          then CSwap position else CReturn None)
  | CSwap position =>
      (store_value q position None,
       match value (cell_at q position) with
       | None => CReturn None
       | Some v => CStoreSequence position v
       end)
  | CStoreSequence position v =>
      (store_sequence q position (u64 (position + capacity q)), CStoreCursor position v)
  | CStoreCursor position v => (q <| consumer := u64 (position + 1) |>, CCount v)
  | CCount v => (q <| consumed ::= inc |>, CReturn (Some v))
  | CReturn o => (q, CReturn o)
  end.

(** [Depth]: the consumer cursor is loaded first. *)
Inductive depth_pc := DBegin | DLoadProducer (c : Z) | DReturn (d : Z).

Definition depth_step q (pc : depth_pc) : depth_pc :=
  match pc with
  | DBegin => DLoadProducer (consumer q)
  | DLoadProducer c =>
      let depth := u64 (producer q - c) in
      DReturn (if depth >? capacity q then capacity q else depth)
  | DReturn d => DReturn d
  end.

Definition Close q : Queue T := q <| closed := true |>.

Definition pub_running (pc : pub_pc) : bool :=
  match pc with PReturn _ => false | _ => true end.

Definition con_running (pc : con_pc) : bool :=
  match pc with CIdle | CReturn _ => false | _ => true end.

(** ** Calls run alone *)

Fixpoint pub_run (fuel : nat) q (pc : pub_pc) : Queue T * pub_pc :=
  match fuel with
  | O => (q, pc)
  | S n => if pub_running pc
           then let '(q', pc') := pub_step q pc in pub_run n q' pc'
           else (q, pc)
  end.

Fixpoint con_run (fuel : nat) q (pc : con_pc) : Queue T * con_pc :=
  match fuel with
  | O => (q, pc)
  | S n => if con_running pc
           then let '(q', pc') := con_step q pc in con_run n q' pc'
           else (q, pc)
  end.

Definition publish_fuel : nat := 600.

(** The fuel covers every operation of an exhausted 128-attempt budget
    ([TryPublish_returns] below); a consume takes at most six operations. *)
Definition TryPublish q (o : option T) : Queue T * PublishResult :=
  match pub_run publish_fuel q (PBegin o) with
  | (q', PReturn r) => (q', r)
  | (q', _) => (q', PublishFull)
  end.

Definition TryConsume q : Queue T * option T :=
  match con_run 6 q CBegin with
  | (q', CReturn o) => (q', o)
  | (q', _) => (q', None)
  end.

Definition QueueDepth q : Z :=
  match depth_step q (depth_step q DBegin) with DReturn d => d | _ => 0 end.

Definition Empty q : bool := QueueDepth q =? 0.

Definition QueueStats q : Stats :=
  mkStats (capacity q) (QueueDepth q) (highWater q) (publishAttempts q) (published q)
    (consumed q) (rejectedFull q) (rejectedClosed q) (rejectedInvalid q) (closed q).

(** [seedEmptyForTest]: an empty queue whose cursors stand at [base]. *)
Definition seedEmpty q (base : Z) : Queue T :=
  q <| producer := base |> <| consumer := base |>
    <| slots ::= imap (λ i _, mkSlot
         (u64 (base + Z.land (u64 (Z.of_nat i - Z.land base (mask q))) (mask q))) None) |>.

(** ** Concurrent histories *)

(** [reserved] and [taken] are ghost: the values in the order their positions
    were reserved, and those the consumer swapped out. *)
Record ring_sys := mkSys {
  queue : Queue T;
  producers : gmap nat pub_pc;
  con : con_pc;
  reserved : list T;
  taken : list T
}.

Definition reserves (pc pc' : pub_pc) : list T :=
  match pc, pc' with PCas v _ _, PLoadConsumer _ _ => [v] | _, _ => [] end.

Definition takes (pc pc' : con_pc) : list T :=
  match pc, pc' with CSwap _, CStoreSequence _ v => [v] | _, _ => [] end.

Inductive ring_step : ring_sys → ring_sys → Prop :=
| step_call_publish s tid o :
    producers s !! tid = None →
    ring_step s (mkSys (queue s) (<[tid := PBegin o]> (producers s)) (con s)
                   (reserved s) (taken s))
| step_publish s tid pc q' pc' :
    producers s !! tid = Some pc → pub_running pc = true →
    pub_step (queue s) pc = (q', pc') →
    ring_step s (mkSys q' (<[tid := pc']> (producers s)) (con s)
                   (reserved s ++ reserves pc pc') (taken s))
| step_return_publish s tid r :
    producers s !! tid = Some (PReturn r) →
    ring_step s (mkSys (queue s) (delete tid (producers s)) (con s)
                   (reserved s) (taken s))
| step_call_consume s :
    con s = CIdle →
    ring_step s (mkSys (queue s) (producers s) CBegin (reserved s) (taken s))
| step_consume s q' pc' :
    con_running (con s) = true → con_step (queue s) (con s) = (q', pc') →
    ring_step s (mkSys q' (producers s) pc' (reserved s)
                   (taken s ++ takes (con s) pc'))
| step_return_consume s o :
    con s = CReturn o →
    ring_step s (mkSys (queue s) (producers s) CIdle (reserved s) (taken s))
| step_close s :
    ring_step s (mkSys (Close (queue s)) (producers s) (con s) (reserved s) (taken s)).

End Code.
Arguments pub_pc T : clear implicits.
Arguments con_pc T : clear implicits.
Arguments ring_sys T : clear implicits.

(** ** Cells and positions *)

Section Cells.
Context {T : Type}.
Implicit Types (q : Queue T).

(** The shape [New] establishes and no operation changes. *)
Definition shaped (k : Z) q : Prop :=
  1 <= k <= 30 ∧ capacity q = 2 ^ k ∧ mask q = 2 ^ k - 1 ∧
  length (slots q) = Z.to_nat (2 ^ k).

(** The cell of an unbounded position. *)
Definition cell q (p : Z) : option (slot T) := slots q !! Z.to_nat (p mod capacity q).

Lemma capacity_bounds k : 1 <= k <= 30 → 2 <= 2 ^ k <= 2 ^ 30.
Proof.
  intros. split.
  - change 2 with (2 ^ 1) at 1. apply Z.pow_le_mono_r; lia.
  - apply Z.pow_le_mono_r; lia.
Qed.

Lemma shaped_bounds k q : shaped k q → 2 <= capacity q <= 2 ^ 30.
Proof. intros (Hk & -> & _). by apply capacity_bounds. Qed.

Lemma cell_index_mod k q p :
  shaped k q → cell_index q (u64 p) = Z.to_nat (p mod capacity q).
Proof.
  intros (Hk & Hc & Hm & _). unfold cell_index.
  rewrite Hm, Hc, land_mask, u64_mod_pow by lia. done.
Qed.

Lemma cell_is_Some k q p : shaped k q → is_Some (cell q p).
Proof.
  intros Hs. pose proof (shaped_bounds k q Hs). destruct Hs as (? & Hc & ? & Hl).
  unfold cell. apply lookup_lt_is_Some. rewrite Hl, <- Hc.
  pose proof (Z.mod_pos_bound p (capacity q)). lia.
Qed.

Lemma cell_at_cell k q p c :
  shaped k q → cell q p = Some c → cell_at q (u64 p) = c.
Proof. intros Hs Hc. unfold cell_at, cell in *. by rewrite (cell_index_mod k q p Hs), Hc. Qed.

(** Two positions less than a capacity apart share a cell only if equal. *)
Lemma cell_index_inj k q p p' :
  shaped k q → Z.abs (p - p') < capacity q →
  Z.to_nat (p mod capacity q) = Z.to_nat (p' mod capacity q) → p = p'.
Proof.
  intros Hs Hn He. pose proof (shaped_bounds k q Hs).
  pose proof (Z.mod_pos_bound p (capacity q)). pose proof (Z.mod_pos_bound p' (capacity q)).
  assert (Hm : p mod capacity q = p' mod capacity q) by lia.
  pose proof (Z.div_mod p (capacity q)) as Hp. pose proof (Z.div_mod p' (capacity q)) as Hp'.
  generalize dependent (p / capacity q). generalize dependent (p' / capacity q).
  intros d' Hp' d Hp. assert (d = d') by nia. subst. lia.
Qed.

(** One capacity later the same cell comes round. *)
Lemma cell_period k q p : shaped k q → cell q (p + capacity q) = cell q p.
Proof.
  intros Hs. unfold cell. pose proof (shaped_bounds k q Hs).
  replace (p + capacity q) with (p + 1 * capacity q) by lia.
  by rewrite Z_mod_plus_full.
Qed.

Lemma shaped_store_sequence k q pos s : shaped k (store_sequence q pos s) ↔ shaped k q.
Proof. unfold shaped. cbn. by rewrite length_alter. Qed.

Lemma shaped_store_value k q pos o : shaped k (store_value q pos o) ↔ shaped k q.
Proof. unfold shaped. cbn. by rewrite length_alter. Qed.

Lemma cell_store_sequence_eq k q p s c :
  shaped k q → cell q p = Some c →
  cell (store_sequence q (u64 p) s) p = Some (mkSlot s (value c)).
Proof.
  intros Hs Hc. unfold cell in *. cbn [slots capacity store_sequence update_with].
  rewrite (cell_index_mod k q p Hs), list_lookup_alter_eq, Hc. done.
Qed.

Lemma cell_store_sequence_ne k q p s p' :
  shaped k q → Z.abs (p - p') < capacity q → p ≠ p' →
  cell (store_sequence q (u64 p) s) p' = cell q p'.
Proof.
  intros Hs Hn Hne. unfold cell. cbn [slots capacity store_sequence update_with].
  rewrite (cell_index_mod k q p Hs), list_lookup_alter_ne; [done|].
  intros He. by apply Hne, (cell_index_inj k q).
Qed.

Lemma cell_store_value_eq k q p o c :
  shaped k q → cell q p = Some c →
  cell (store_value q (u64 p) o) p = Some (mkSlot (sequence c) o).
Proof.
  intros Hs Hc. unfold cell in *. cbn [slots capacity store_value update_with].
  rewrite (cell_index_mod k q p Hs), list_lookup_alter_eq, Hc. done.
Qed.

Lemma cell_store_value_ne k q p o p' :
  shaped k q → Z.abs (p - p') < capacity q → p ≠ p' →
  cell (store_value q (u64 p) o) p' = cell q p'.
Proof.
  intros Hs Hn Hne. unfold cell. cbn [slots capacity store_value update_with].
  rewrite (cell_index_mod k q p Hs), list_lookup_alter_ne; [done|].
  intros He. by apply Hne, (cell_index_inj k q).
Qed.

(** Neighbouring sequence numbers differ as machine words. *)
Lemma u64_succ_ne p : u64 p ≠ u64 (p + 1).
Proof. intros H%u64_inj_near; lia. Qed.
End Cells.

(** ** The queue between calls *)

Section Sequential.
Context {T : Type}.
Implicit Types (q : Queue T) (items : list T) (v : T).

(** [repr k h q items]: outside any call the ring of capacity [2^k] holds
    [items], the oldest at position [h]. *)
Record repr (k h : Z) q items : Prop := {
  repr_shaped : shaped k q;
  repr_consumer : consumer q = u64 h;
  repr_producer : producer q = u64 (h + len items);
  repr_bound : len items <= capacity q;
  repr_items : ∀ (i : nat) v, items !! i = Some v →
    cell q (h + Z.of_nat i) = Some (mkSlot (u64 (h + Z.of_nat i + 1)) (Some v));
  repr_free : ∀ p, h + len items <= p < h + capacity q →
    cell q p = Some (mkSlot (u64 p) None)
}.

(** Operations on the counters leave the contents alone. *)
Lemma repr_ext k h q q' items :
  capacity q' = capacity q → mask q' = mask q → slots q' = slots q →
  consumer q' = consumer q → producer q' = producer q →
  repr k h q items → repr k h q' items.
Proof.
  intros Hc Hm Hs Hco Hp [Hsh Hc0 Hp0 Hb Hi Hf].
  assert (Hcell : ∀ p, cell q' p = cell q p) by (intros; unfold cell; by rewrite Hc, Hs).
  split; rewrite ?Hc, ?Hco, ?Hp; auto.
  - unfold shaped in *. by rewrite Hc, Hm, Hs.
  - intros. rewrite Hcell. eauto.
  - intros. rewrite Hcell. eauto.
Qed.

Lemma pub_run_more n m q pc q' r :
  pub_run n q pc = (q', PReturn r) → (n <= m)%nat → pub_run m q pc = (q', PReturn r).
Proof.
  revert m q pc. induction n as [|n IH]; intros m q pc H Hle.
  - destruct m; simplify_eq/=; done.
  - destruct m as [|m]; [lia|]. cbn [pub_run] in *.
    destruct (pub_running pc); [|done].
    destruct (pub_step q pc) as [q1 pc1]. apply IH; [done|lia].
Qed.

Lemma TryPublish_run n q o q' r :
  (n <= publish_fuel)%nat → pub_run n q (PBegin o) = (q', PReturn r) →
  TryPublish q o = (q', r).
Proof.
  intros Hn H. unfold TryPublish. by rewrite (pub_run_more _ publish_fuel _ _ _ _ H Hn).
Qed.

Lemma repr_cell_tail k h q items :
  repr k h q items → len items < capacity q →
  cell q (h + len items) = Some (mkSlot (u64 (h + len items)) None).
Proof. intros R Hlt. apply (repr_free _ _ _ _ R). lia. Qed.

(** A full ring: the cell of the next position still carries the sequence of
    the item one capacity back. *)
Lemma repr_cell_full k h q items :
  repr k h q items → len items = capacity q →
  ∃ v, cell q (h + len items) = Some (mkSlot (u64 (h + 1)) (Some v)).
Proof.
  intros R Hfull. pose proof (shaped_bounds _ _ (repr_shaped _ _ _ _ R)).
  destruct items as [|v items']; [simpl in *; lia|]. exists v.
  rewrite Hfull, (cell_period k) by apply R.
  pose proof (repr_items _ _ _ _ R 0%nat v eq_refl) as Hi.
  change (Z.of_nat 0) with 0 in Hi. by rewrite !Z.add_0_r in Hi.
Qed.

(** What an accepted publication leaves behind. *)
Definition accepted_queue q (position : Z) v : Queue T :=
  let q1 := q <| producer := u64 (u64 position + 1) |> in
  let depth := clamp_depth q (u64 (u64 position + 1 - consumer q)) in
  let q2 := if depth >? highWater q then q1 <| highWater := depth |> else q1 in
  (store_sequence (store_value q2 (u64 position) (Some v)) (u64 position)
     (u64 (u64 position + 1))) <| published ::= inc |>.

Lemma repr_accepted k h q items v :
  repr k h q items → len items < capacity q →
  repr k h (accepted_queue q (h + len items) v) (items ++ [v]).
Proof.
  intros R Hlt. pose proof (repr_cell_tail _ _ _ _ R Hlt) as Hc.
  destruct R as [Hs Hco Hpr Hb Hi Hf].
  unfold accepted_queue. rewrite u64_add_l. cbv zeta.
  match goal with |- context [store_value ?x _ _] => set (q2 := x) end.
  assert (Hq2 : slots q2 = slots q ∧ capacity q2 = capacity q ∧ mask q2 = mask q ∧
    consumer q2 = consumer q ∧ producer q2 = u64 (h + len items + 1)).
  { subst q2. by destruct (_ >? _). }
  destruct Hq2 as (Hsl & Hca & Hma & Hcs & Hps).
  assert (Hsh : shaped k q2) by (unfold shaped in *; by rewrite Hsl, Hca, Hma).
  assert (Hcell : ∀ p, cell q2 p = cell q p) by (intros; unfold cell; by rewrite Hsl, Hca).
  set (q3 := store_value q2 _ _). set (q4 := store_sequence q3 _ _).
  assert (Hsh3 : shaped k q3) by (by apply shaped_store_value).
  assert (Hne : ∀ p, h <= p < h + capacity q → p ≠ h + len items →
    cell q4 p = cell q p).
  { intros p Hp Hpne. unfold q4, q3. pose proof (shaped_bounds _ _ Hs).
    rewrite (cell_store_sequence_ne k), (cell_store_value_ne k), Hcell; auto;
      cbn [capacity store_value update_with]; lia. }
  apply (repr_ext _ _ q4); try done.
  split; cbn [capacity store_sequence store_value update_with q4 q3].
  - by apply shaped_store_sequence.
  - cbn. by rewrite Hcs.
  - cbn. rewrite Hps, length_app. cbn. f_equal. lia.
  - cbn. rewrite Hca, length_app. cbn. lia.
  - intros i w. rewrite lookup_app_Some. intros [Hw|[Hge Hw]].
    + pose proof (lookup_lt_Some _ _ _ Hw).
      replace (cell _ _) with (cell q4 (h + Z.of_nat i)) by done.
      rewrite Hne by (auto; lia). auto.
    + apply list_lookup_singleton_Some in Hw as [Hi0 ->].
      replace (Z.of_nat i) with (len items) by lia.
      unfold q4. erewrite (cell_store_sequence_eq k); [|done|].
      2:{ unfold q3. apply (cell_store_value_eq k); [done|]. by rewrite Hcell. }
      done.
  - intros p Hp. rewrite length_app in Hp. cbn in Hp. rewrite Hca in Hp.
    replace (cell _ _) with (cell q4 p) by done. rewrite Hne by lia. apply Hf. lia.
Qed.
End Sequential.

Section Calls.
Context {T : Type}.
Implicit Types (q : Queue T) (items : list T) (v : T).

(** Reads of the ring ignore the counters. *)
Ltac norm_cell_at q :=
  repeat match goal with
  | |- context [cell_at ?q' ?p] =>
      lazymatch q' with q => fail | _ => change (cell_at q' p) with (cell_at q p) end
  end.
Ltac norm_clamp_depth q :=
  repeat match goal with
  | |- context [clamp_depth ?q' ?p] =>
      lazymatch q' with q => fail | _ => change (clamp_depth q' p) with (clamp_depth q p) end
  end.

(** The sequence test of the publisher, in terms of positions. *)
Lemma publish_difference k h q items :
  repr k h q items →
  i64 (u64 (sequence (cell_at q (producer q)) - producer q)) =
  if len items <? capacity q then 0 else 1 - capacity q.
Proof.
  intros R. pose proof (shaped_bounds _ _ (repr_shaped _ _ _ _ R)).
  pose proof (repr_bound _ _ _ _ R). rewrite (repr_producer _ _ _ _ R).
  destruct (Z.ltb_spec (len items) (capacity q)).
  - rewrite (cell_at_cell k q _ _ (repr_shaped _ _ _ _ R) (repr_cell_tail _ _ _ _ R ltac:(lia))).
    by apply i64_diff_zero.
  - destruct (repr_cell_full _ _ _ _ R) as [v Hv]; [lia|].
    rewrite (cell_at_cell k q _ _ (repr_shaped _ _ _ _ R) Hv). cbn [sequence].
    rewrite u64_sub_r, u64_sub_l.
    replace (h + 1 - (h + len items)) with (1 - capacity q) by lia.
    unfold i64, u64. rewrite Zplus_mod_idemp_l, Z.mod_small; lia.
Qed.

Lemma TryPublish_nil q :
  TryPublish q None =
    (q <| publishAttempts ::= inc |> <| rejectedInvalid ::= inc |>, PublishInvalid).
Proof. apply (TryPublish_run 2); [unfold publish_fuel; lia|reflexivity]. Qed.

Lemma TryPublish_closed q v :
  closed q = true →
  TryPublish q (Some v) =
    (q <| publishAttempts ::= inc |> <| rejectedClosed ::= inc |>, PublishClosed).
Proof.
  intros Hc. apply (TryPublish_run 3); [unfold publish_fuel; lia|].
  cbn. rewrite Hc. reflexivity.
Qed.

Lemma TryPublish_full k h q items v :
  repr k h q items → closed q = false → len items = capacity q →
  TryPublish q (Some v) =
    (q <| publishAttempts ::= inc |> <| rejectedFull ::= inc |>, PublishFull).
Proof.
  intros R Hc Hf. pose proof (publish_difference _ _ _ _ R) as Hd.
  pose proof (shaped_bounds _ _ (repr_shaped _ _ _ _ R)).
  rewrite (proj2 (Z.ltb_ge _ _)) in Hd by lia.
  apply (TryPublish_run 6); [unfold publish_fuel; lia|].
  cbn -[i64 u64 cell_at]. rewrite !Hc. cbn -[i64 u64 cell_at]. norm_cell_at q.
  rewrite Hd. rewrite (proj2 (Z.eqb_neq _ _)), (proj2 (Z.ltb_lt _ _)) by lia. reflexivity.
Qed.

Lemma TryPublish_accepted k h q items v :
  repr k h q items → closed q = false → len items < capacity q →
  TryPublish q (Some v) =
    (accepted_queue (q <| publishAttempts ::= inc |>) (h + len items) v, PublishAccepted).
Proof.
  intros R Hc Hlt. pose proof (publish_difference _ _ _ _ R) as Hd.
  rewrite (proj2 (Z.ltb_lt _ _)) in Hd by lia.
  apply (TryPublish_run 12); [unfold publish_fuel; lia|].
  unfold accepted_queue. rewrite <- (repr_producer _ _ _ _ R).
  cbn -[i64 u64 cell_at]. rewrite !Hc. cbn -[i64 u64 cell_at]. norm_cell_at q.
  rewrite Hd, Z.eqb_refl. cbn -[u64 store_value store_sequence clamp_depth]. rewrite Z.eqb_refl.
  cbn -[u64 store_value store_sequence clamp_depth].
  norm_clamp_depth q.
  destruct (_ >? highWater q); cbn -[u64 store_value store_sequence clamp_depth];
    rewrite ?Z.eqb_refl; reflexivity.
Qed.

(** *** Consuming *)

Lemma con_run_more n m q pc q' o :
  con_run n q pc = (q', CReturn o) → (n <= m)%nat → con_run m q pc = (q', CReturn o).
Proof.
  revert m q pc. induction n as [|n IH]; intros m q pc H Hle.
  - destruct m; simplify_eq/=; done.
  - destruct m as [|m]; [lia|]. cbn [con_run] in *.
    destruct (con_running pc); [|done].
    destruct (con_step q pc) as [q1 pc1]. apply IH; [done|lia].
Qed.

Definition consumed_queue q (position : Z) : Queue T :=
  (store_sequence (store_value q (u64 position) None) (u64 position)
     (u64 (u64 position + capacity q))) <| consumer := u64 (u64 position + 1) |>
     <| consumed ::= inc |>.

Lemma repr_consumed k h q items v :
  repr k h q (v :: items) → repr k (h + 1) (consumed_queue q h) items.
Proof.
  intros [Hs Hco Hpr Hb Hi Hf]. cbn [length] in *.
  pose proof (shaped_bounds _ _ Hs). unfold consumed_queue. rewrite !u64_add_l.
  set (q3 := store_value q _ _). set (q4 := store_sequence q3 _ _).
  assert (Hsh3 : shaped k q3) by (by apply shaped_store_value).
  assert (Hne : ∀ p, h < p < h + capacity q → cell q4 p = cell q p).
  { intros p Hp. unfold q4, q3.
    rewrite (cell_store_sequence_ne k), (cell_store_value_ne k); auto;
      cbn [capacity store_value update_with]; lia. }
  pose proof (Hi 0%nat v eq_refl) as Hhd. change (Z.of_nat 0) with 0 in Hhd.
  rewrite Z.add_0_r in Hhd.
  assert (Heq : cell q4 (h + capacity q) = Some (mkSlot (u64 (h + capacity q)) None)).
  { replace (capacity q) with (capacity q4) at 1 by done.
    rewrite (cell_period k) by (by apply shaped_store_sequence).
    unfold q4. erewrite (cell_store_sequence_eq k); [|done|].
    2:{ unfold q3. by apply (cell_store_value_eq k). }
    done. }
  split; cbn [consumer producer capacity update_with].
  - unfold shaped in *. cbn in *. by rewrite !length_alter.
  - done.
  - cbn. rewrite Hpr. f_equal. lia.
  - cbn. lia.
  - intros i w Hw. pose proof (lookup_lt_Some _ _ _ Hw).
    replace (cell _ _) with (cell q4 (h + 1 + Z.of_nat i)) by done.
    specialize (Hi (S i) w Hw). cbn in Hw.
    replace (h + Z.of_nat (S i)) with (h + 1 + Z.of_nat i) in Hi by lia.
    pose proof (lookup_lt_Some _ _ _ Hw). by rewrite Hne by lia.
  - intros p Hp. cbn in Hp. replace (cell _ p) with (cell q4 p) by done.
    destruct (decide (p = h + capacity q)) as [->|]; [done|].
    rewrite Hne by lia. apply Hf. lia.
Qed.

Lemma TryConsume_empty k h q : repr k h q [] → TryConsume q = (q, None).
Proof.
  intros R. pose proof (shaped_bounds _ _ (repr_shaped _ _ _ _ R)).
  pose proof (repr_cell_tail _ _ _ _ R) as Hc. cbn [length] in Hc.
  rewrite Z.add_0_r in Hc. specialize (Hc ltac:(simpl; lia)).
  unfold TryConsume. rewrite (con_run_more 2 6 _ _ q None); [done| |lia].
  cbn -[i64 u64 cell_at]. rewrite (repr_consumer _ _ _ _ R).
  rewrite (cell_at_cell k q _ _ (repr_shaped _ _ _ _ R) Hc). cbn [sequence].
  destruct (Z.eqb_spec (i64 (u64 (u64 h - u64 (u64 h + 1)))) 0) as [E|]; [exfalso|done].
  apply i64_diff_zero in E. rewrite u64_add_l, !u64_idem in E. by apply u64_succ_ne in E.
Qed.

Lemma TryConsume_item k h q items v :
  repr k h q (v :: items) → TryConsume q = (consumed_queue q h, Some v).
Proof.
  intros R. pose proof (repr_items _ _ _ _ R 0%nat v eq_refl) as Hc.
  change (Z.of_nat 0) with 0 in Hc. rewrite Z.add_0_r in Hc.
  unfold TryConsume. erewrite (con_run_more 6 6 _ _ _ (Some v)); [done| |lia].
  cbn -[i64 u64 cell_at store_value store_sequence]. rewrite (repr_consumer _ _ _ _ R).
  rewrite (cell_at_cell k q _ _ (repr_shaped _ _ _ _ R) Hc). cbn [sequence].
  replace (i64 (u64 (u64 (h + 1) - u64 (u64 h + 1)))) with 0
    by (symmetry; apply i64_diff_zero; by rewrite u64_add_l).
  rewrite Z.eqb_refl. cbn -[i64 u64 cell_at store_value store_sequence].
  rewrite (cell_at_cell k q _ _ (repr_shaped _ _ _ _ R) Hc). reflexivity.
Qed.

(** *** Depth *)

Lemma QueueDepth_repr k h q items : repr k h q items → QueueDepth q = len items.
Proof.
  intros R. pose proof (shaped_bounds _ _ (repr_shaped _ _ _ _ R)).
  pose proof (repr_bound _ _ _ _ R). unfold QueueDepth. cbn -[u64].
  rewrite (repr_producer _ _ _ _ R), (repr_consumer _ _ _ _ R), u64_sub_l, u64_sub_r.
  replace (h + len items - h) with (len items) by lia. rewrite u64_small by lia.
  rewrite Z.gtb_ltb. destruct (Z.ltb_spec (capacity q) (len items)); lia.
Qed.

(** *** Construction *)

Lemma New_Ok cap q :
  New cap = Ok q → ∃ k, 1 <= k <= 30 ∧ cap = 2 ^ k ∧ repr k 0 q [] ∧ closed q = false.
Proof.
  unfold New. destruct (_ || _)%bool eqn:E; [done|]. intros [= <-]. zbool.
  unfold maxCapacity in *. rewrite Z.shiftl_mul_pow2 in * by lia.
  pose proof (pow2_log2 cap ltac:(lia)) as Hp. unfold is_pow2 in Hp.
  rewrite (proj2 (Z.eqb_eq _ _)) in Hp by done. specialize (Hp eq_refl).
  exists (Z.log2 cap).
  assert (Hk : 1 <= Z.log2 cap <= 30).
  { split; [apply (Z.log2_le_pow2 cap 1); lia|].
    change 30 with (Z.log2 (2 ^ 30)). apply Z.log2_le_mono. lia. }
  repeat split; try done; cbn -[u64]; try lia; try congruence.
  - rewrite length_map, length_seq. by rewrite <- Hp.
  - intros p [Hp0 Hp1]. rewrite Z.add_0_r, Z.add_0_l in *. cbn in Hp1.
    unfold cell. cbn [slots capacity]. rewrite list_lookup_fmap, lookup_seq_lt.
    + cbn. rewrite Z.mod_small, u64_small by lia. f_equal. f_equal. lia.
    + rewrite Z.mod_small; lia.
Qed.

Lemma New_Err cap e : New (T:=T) cap = Err e → ¬ (∃ k, 1 <= k <= 30 ∧ cap = 2 ^ k).
Proof.
  unfold New. destruct (_ || _)%bool eqn:E; [|done]. intros _ (k & Hk & ->).
  pose proof (capacity_bounds k Hk) as Hb. pose proof (is_pow2_pow k ltac:(lia)) as Hp.
  unfold is_pow2 in Hp. rewrite Hp in E. unfold maxCapacity in E.
  rewrite Z.shiftl_mul_pow2 in E by lia. zbool; try lia; done.
Qed.

Lemma seedEmpty_repr k h q base :
  0 <= base < 2 ^ 64 → repr k h q [] → repr k base (seedEmpty q base) [].
Proof.
  intros Hbase [Hs _ _ _ _ _]. pose proof (shaped_bounds _ _ Hs).
  destruct Hs as (Hk & Hc & Hm & Hl).
  assert (Hsh : shaped k (seedEmpty q base)).
  { unfold shaped. cbn -[u64]. by rewrite length_imap. }
  split; [done|..]; cbn -[u64].
  - by rewrite u64_small.
  - by rewrite Z.add_0_r, u64_small.
  - lia.
  - intros i v Hi. done.
  - intros p Hp. rewrite Z.add_0_r in Hp. unfold cell. cbn -[u64 Z.land].
    rewrite list_lookup_imap.
    assert (Hr : 0 <= p mod capacity q < capacity q) by (apply Z.mod_pos_bound; lia).
    destruct (lookup_lt_is_Some_2 (slots q) (Z.to_nat (p mod capacity q))) as [c Hcl]; [lia|].
    rewrite Hcl. cbn -[u64 Z.land]. f_equal. f_equal. f_equal.
    rewrite Z2Nat.id by lia. rewrite Hm, !land_mask, u64_mod_pow, <- Hc by lia.
    rewrite Zminus_mod_idemp_l, Zminus_mod_idemp_r.
    rewrite Z.mod_small; lia.
Qed.
End Calls.

(** ** The interface the clients use *)

(** A bounded FIFO queue as an object with a representation relation:
    [bq_repr cap q items closed]. *)
Class BoundedQueue (Q T : Type) := {
  bq_publish : Q → option T → Q * PublishResult;
  bq_consume : Q → Q * option T;
  bq_close : Q → Q;
  bq_depth : Q → Z;
  bq_repr : Z → Q → list T → bool → Prop
}.

(** The abstract queue. *)
Record fifo (T : Type) := mkFifo { f_cap : Z; f_items : list T; f_closed : bool }.
Arguments mkFifo {T}.
Arguments f_cap {T}.
Arguments f_items {T}.
Arguments f_closed {T}.

Definition fifo_publish {T} (f : fifo T) (o : option T) : fifo T * PublishResult :=
  match o with
  | None => (f, PublishInvalid)
  | Some v =>
      if f_closed f then (f, PublishClosed)
      else if len (f_items f) <? f_cap f
           then (mkFifo (f_cap f) (f_items f ++ [v]) (f_closed f), PublishAccepted)
           else (f, PublishFull)
  end.

Definition fifo_consume {T} (f : fifo T) : fifo T * option T :=
  match f_items f with
  | [] => (f, None)
  | v :: items => (mkFifo (f_cap f) items (f_closed f), Some v)
  end.

Definition fifo_close {T} (f : fifo T) : fifo T := mkFifo (f_cap f) (f_items f) true.

Definition bq_abs {Q T} `{BoundedQueue Q T} (q : Q) (f : fifo T) : Prop :=
  bq_repr (f_cap f) q (f_items f) (f_closed f).

(** What an implementation promises: every operation simulates the abstract
    queue's, results included. *)
Class BoundedQueueLaws (Q T : Type) `{BoundedQueue Q T} : Prop := {
  bq_publish_ok : ∀ q f o, bq_abs q f →
    (bq_publish q o).2 = (fifo_publish f o).2 ∧ bq_abs (bq_publish q o).1 (fifo_publish f o).1;
  bq_consume_ok : ∀ q f, bq_abs q f →
    (bq_consume q).2 = (fifo_consume f).2 ∧ bq_abs (bq_consume q).1 (fifo_consume f).1;
  bq_close_ok : ∀ q f, bq_abs q f → bq_abs (bq_close q) (fifo_close f);
  bq_depth_ok : ∀ q f, bq_abs q f → bq_depth q = len (f_items f);
  bq_bounded : ∀ q f, bq_abs q f → len (f_items f) <= f_cap f
}.

#[export] Instance ring_queue T : BoundedQueue (Queue T) T := {|
  bq_publish := TryPublish;
  bq_consume := TryConsume;
  bq_close := Close;
  bq_depth := QueueDepth;
  bq_repr cap q items cl :=
    capacity q = cap ∧ closed q = cl ∧ ∃ k h, repr k h q items
|}.

Section Laws.
Context {T : Type}.
Implicit Types (q : Queue T) (f : fifo T) (v : T).

Lemma ring_publish_ok q f o : bq_abs q f →
  (TryPublish q o).2 = (fifo_publish f o).2 ∧ bq_abs (TryPublish q o).1 (fifo_publish f o).1.
Proof.
  intros (Hc & Hcl & k & h & R). destruct f as [cap items cl]; cbn in Hc, Hcl, R |- *.
  destruct o as [v|].
  2:{ rewrite TryPublish_nil. split; [done|]. repeat split; try done.
      exists k, h. by apply (repr_ext _ _ q). }
  destruct cl.
  { rewrite TryPublish_closed by done. split; [done|]. repeat split; try done.
    exists k, h. by apply (repr_ext _ _ q). }
  cbn [fifo_publish f_closed f_items f_cap].
  destruct (Z.ltb_spec (len items) cap) as [Hlt|Hge].
  - rewrite (TryPublish_accepted k h _ items) by (auto; lia). split; [done|].
    cbn [fst]. assert (R1 : repr k h (q <| publishAttempts ::= inc |>) items)
      by (by apply (repr_ext _ _ q)).
    repeat split.
    + unfold accepted_queue. cbn -[u64 clamp_depth store_value store_sequence].
      cbn. by destruct (_ >? _).
    + unfold accepted_queue. cbn. by destruct (_ >? _).
    + exists k, h. apply repr_accepted; [done|]. cbn. lia.
  - pose proof (repr_bound _ _ _ _ R).
    rewrite (TryPublish_full k h _ items) by (auto; lia). split; [done|].
    repeat split; try done. exists k, h. by apply (repr_ext _ _ q).
Qed.

Lemma ring_consume_ok q f : bq_abs q f →
  (TryConsume q).2 = (fifo_consume f).2 ∧ bq_abs (TryConsume q).1 (fifo_consume f).1.
Proof.
  intros (Hc & Hcl & k & h & R). destruct f as [cap items cl]; cbn in Hc, Hcl, R |- *.
  destruct items as [|v items]; cbn.
  - rewrite (TryConsume_empty k h) by done. cbn. split; [done|].
    repeat split; try done. by exists k, h.
  - rewrite (TryConsume_item k h _ items v) by done. cbn. split; [done|].
    repeat split; try done. exists k, (h + 1). by apply (repr_consumed k h q items v).
Qed.
End Laws.

#[export] Instance ring_queue_laws T : BoundedQueueLaws (Queue T) T.
Proof.
  split.
  - apply ring_publish_ok.
  - apply ring_consume_ok.
  - intros q f (Hc & Hcl & k & h & R). repeat split; try done.
    exists k, h. by apply (repr_ext _ _ q).
  - intros q f (Hc & Hcl & k & h & R). by apply (QueueDepth_repr k h).
  - intros q f (Hc & Hcl & k & h & R). rewrite <- Hc. by apply (repr_bound k h).
Qed.

Lemma New_abs {T} cap (q : Queue T) base :
  New cap = Ok q → 0 <= base < 2 ^ 64 → bq_abs (seedEmpty q base) (mkFifo cap [] false).
Proof.
  intros H Hb. destruct (New_Ok _ _ H) as (k & Hk & -> & R & Hcl).
  destruct (repr_shaped _ _ _ _ R) as (_ & Hc & _).
  split; [done|split; [done|]]. exists k, base. by apply (seedEmpty_repr k 0).
Qed.

Lemma New_seed {T} cap (q : Queue T) : New cap = Ok q → seedEmpty q 0 = q.
Proof.
  intros H. destruct (New_Ok _ _ H) as (k & Hk & Hcap & _ & _). revert H.
  unfold New. destruct (_ || _)%bool; [done|]. intros [= <-].
  unfold seedEmpty. cbn -[u64 Z.land]. f_equal.
  pose proof (capacity_bounds k Hk).
  apply list_eq. intros i. rewrite list_lookup_imap, list_lookup_fmap.
  destruct (lt_dec i (Z.to_nat cap)).
  - rewrite lookup_seq_lt by done. cbn -[u64 Z.land]. f_equal. f_equal.
    rewrite Hcap, !land_mask by lia. rewrite Z.mod_0_l, Z.sub_0_r by lia.
    rewrite u64_mod_pow, Z.add_0_l, Z.mod_small, u64_small; lia.
  - by rewrite lookup_seq_ge by lia.
Qed.

(** ** Call histories *)

Section Histories.
Context {Q T : Type} `{BoundedQueue Q T}.

Inductive op := OpPublish (o : option T) | OpConsume | OpClose | OpDepth.
Inductive out := OutPublish (r : PublishResult) | OutConsume (o : option T) | OutClose | OutDepth (d : Z).

Definition run_op (q : Q) (o : op) : Q * out :=
  match o with
  | OpPublish v => let '(q', r) := bq_publish q v in (q', OutPublish r)
  | OpConsume => let '(q', r) := bq_consume q in (q', OutConsume r)
  | OpClose => (bq_close q, OutClose)
  | OpDepth => (q, OutDepth (bq_depth q))
  end.

Definition spec_op (f : fifo T) (o : op) : fifo T * out :=
  match o with
  | OpPublish v => let '(f', r) := fifo_publish f v in (f', OutPublish r)
  | OpConsume => let '(f', r) := fifo_consume f in (f', OutConsume r)
  | OpClose => (fifo_close f, OutClose)
  | OpDepth => (f, OutDepth (len (f_items f)))
  end.

Fixpoint run_ops (q : Q) (ops : list op) : Q * list out :=
  match ops with
  | [] => (q, [])
  | o :: ops => let '(q1, x) := run_op q o in let '(q2, xs) := run_ops q1 ops in (q2, x :: xs)
  end.

Fixpoint spec_ops (f : fifo T) (ops : list op) : fifo T * list out :=
  match ops with
  | [] => (f, [])
  | o :: ops => let '(f1, x) := spec_op f o in let '(f2, xs) := spec_ops f1 ops in (f2, x :: xs)
  end.

Context `{!BoundedQueueLaws Q T}.

Lemma run_op_simulates q f o : bq_abs q f →
  (run_op q o).2 = (spec_op f o).2 ∧ bq_abs (run_op q o).1 (spec_op f o).1.
Proof.
  intros Ha. destruct o as [v| | |]; cbn.
  - destruct (bq_publish_ok q f v Ha) as [Hr Hs].
    destruct (bq_publish q v), (fifo_publish f v). cbn in *. by subst.
  - destruct (bq_consume_ok q f Ha) as [Hr Hs].
    destruct (bq_consume q), (fifo_consume f). cbn in *. by subst.
  - split; [done|]. by apply bq_close_ok.
  - rewrite (bq_depth_ok q f Ha). done.
Qed.

Lemma run_ops_simulates ops : ∀ q f, bq_abs q f →
  (run_ops q ops).2 = (spec_ops f ops).2 ∧ bq_abs (run_ops q ops).1 (spec_ops f ops).1.
Proof.
  induction ops as [|o ops IH]; intros q f Ha; [done|]. cbn.
  destruct (run_op_simulates q f o Ha) as [Hr Hs].
  destruct (run_op q o) as [q1 x], (spec_op f o) as [f1 y]. cbn in Hr, Hs. subst.
  destruct (IH q1 f1 Hs) as [Hrs Hss].
  destruct (run_ops q1 ops), (spec_ops f1 ops). cbn in *. by subst.
Qed.
End Histories.
Arguments op T : clear implicits.
Arguments out T : clear implicits.

(** ** Solo termination *)

Section SoloTermination.
Context {T : Type}.
Implicit Types (q : Queue T).

(** Operations left to a publication nobody disturbs. *)
Definition solo_measure (pc : pub_pc T) : nat :=
  match pc with
  | PReturn _ => 0 | PCountInvalid | PCountClosed | PCountFull | PCountPublished => 1
  | PStoreSequence _ _ => 2 | PStoreValue _ _ => 3 | PCasHighWater _ _ _ _ => 4
  | PLoadHighWater _ _ _ => 5 | PLoadConsumer _ _ => 6
  | PCas _ a _ => 7 + 4 * (maxPublishAttempts - a)
  | PLoadSequence _ a _ => 8 + 4 * (maxPublishAttempts - a)
  | PLoadProducer _ a => 9 + 4 * (maxPublishAttempts - a)
  | PAttempt _ a => 10 + 4 * (maxPublishAttempts - a)
  | PCheckClosed _ => 11 + 4 * maxPublishAttempts
  | PBegin _ => 12 + 4 * maxPublishAttempts
  end.

(** Alone, the high-water CAS cannot fail. *)
Definition solo_ok q (pc : pub_pc T) : Prop :=
  match pc with
  | PCasHighWater _ _ _ c => highWater q = c
  | PAttempt _ a | PLoadProducer _ a | PLoadSequence _ a _ | PCas _ a _ =>
      (a < maxPublishAttempts)%nat
  | _ => True
  end.

Lemma solo_step q pc q' pc' :
  solo_ok q pc → pub_running pc = true → pub_step q pc = (q', pc') →
  solo_ok q' pc' ∧ (solo_measure pc' < solo_measure pc)%nat.
Proof.
  intros Hok Hr Hs. unfold maxPublishAttempts in *.
  destruct pc as [[|]| | | | | | | | | | | | | | |]; cbn -[Nat.ltb i64 Nat.mul] in *;
    unfold next_attempt, maxPublishAttempts in *;
    repeat match type of Hs with context [if ?b then _ else _] => destruct b eqn:? end;
    simplify_eq; cbn -[Nat.mul]; split; try done;
    repeat match goal with H : (_ <? _)%nat = true |- _ => apply Nat.ltb_lt in H end;
    zbool; unfold maxPublishAttempts in *; solve [lia | congruence].
Qed.

Lemma solo_run n q pc :
  solo_ok q pc → (solo_measure pc <= n)%nat → ∃ q' r, pub_run n q pc = (q', PReturn r).
Proof.
  revert q pc. induction n as [|n IH]; intros q pc Hok Hm; cbn [pub_run].
  - destruct pc; cbn -[Nat.mul] in Hm; try lia. eauto.
  - destruct (pub_running pc) eqn:Hr.
    + destruct (pub_step q pc) as [q1 pc1] eqn:Hs.
      destruct (solo_step q pc q1 pc1 Hok Hr Hs). apply IH; [done|lia].
    + destruct pc; try done. eauto.
Qed.
End SoloTermination.

(** ** Properties *)

(** [TryPublish], whatever the (even corrupted) state of the ring, returns
    within its budget: the bounded attempt loop never runs out of the model's
    fuel. *)
Theorem TryPublish_returns {T} (q : Queue T) (o : option T) :
  ∃ q' r, pub_run publish_fuel q (PBegin o) = (q', PReturn r) ∧ TryPublish q o = (q', r).
Proof.
  destruct (solo_run publish_fuel q (PBegin o)) as (q' & r & H); [done| |].
  - cbn -[Nat.mul]. unfold maxPublishAttempts, publish_fuel. lia.
  - exists q', r. unfold TryPublish. by rewrite H.
Qed.

(** C20. For every history of calls, the ring built by [New] answers exactly as
    the abstract bounded FIFO queue of the same capacity: results of publishing,
    of consuming, and depths, across 64-bit wrap-around of the cursors ([base]
    is an arbitrary starting cursor). *)
Theorem ring_refines_fifo {T} (cap base : Z) (q : Queue T) (ops : list (op T)) :
  New cap = Ok q → 0 <= base < 2 ^ 64 →
  (run_ops (seedEmpty q base) ops).2 = (spec_ops (mkFifo cap [] false) ops).2.
Proof. intros H Hb. by apply run_ops_simulates, New_abs. Qed.

Lemma ring_refines_fifo_witness :
  ∃ q, New (T:=nat) 2 = Ok q ∧
  (run_ops (seedEmpty q (2 ^ 64 - 1))
    [OpPublish (Some 7%nat); OpPublish (Some 8%nat); OpPublish (Some 9%nat); OpDepth;
     OpConsume; OpClose; OpPublish (Some 1%nat); OpConsume; OpConsume]).2 =
  [OutPublish PublishAccepted; OutPublish PublishAccepted; OutPublish PublishFull; OutDepth 2;
   OutConsume (Some 7%nat); OutClose; OutPublish PublishClosed; OutConsume (Some 8%nat);
   OutConsume None].
Proof.
  eexists. split; [reflexivity|].
  etransitivity; [apply (ring_refines_fifo 2)|]; [reflexivity|lia|vm_compute; reflexivity].
Defined.

(** [New] accepts exactly the powers of two from 2 to 2^30; on them it
    builds an open, empty ring. *)
Theorem New_accepts_iff {T} (cap : Z) :
  (∃ k, 1 <= k <= 30 ∧ cap = 2 ^ k) ↔
  ∃ q : Queue T, New cap = Ok q ∧ closed q = false ∧ Empty q = true ∧ capacity q = cap.
Proof.
  split.
  - intros Hk. destruct (New (T:=T) cap) as [q|e] eqn:E.
    + exists q. destruct (New_Ok _ _ E) as (k & Hk' & -> & R & Hcl).
      unfold Empty. rewrite (QueueDepth_repr _ _ _ _ R).
      destruct (repr_shaped _ _ _ _ R) as (_ & Hc & _). done.
    + by apply New_Err in E.
  - intros (q & E & _). destruct (New_Ok _ _ E) as (k & Hk & -> & _). eauto.
Qed.
