(* ===== verification/RingConc.v ===== *)
(** * The ring under interleaving

    The slot protocol of internal/ring for every interleaving of any number of
    producers, the single consumer and [Close], one atomic operation at a time
    ([Ring.ring_step]).  Positions are unbounded integers, the machine cursors
    their 64-bit images; [base] is the cursor value the history starts from, so
    wrap-around is covered, and a history is limited to fewer than 2^64 minus
    2^31 reservations, the span in which a stale cursor cannot come round. *)

From stdpp Require Import gmap strings list fin_maps.
From Stdlib Require Import ZArith Lia.
From S2P Require Import Prelude GoLib Ring.

Section Invariant.
Context {T : Type} (k base : Z).
Implicit Types (s : ring_sys T) (q : Queue T) (v : T) (pc : pub_pc T).

(** ** Ghost view of a state *)

(** A reservation in progress: its machine position, its value, and the
    content its cell has at this stage. *)
Definition holds pc : option (Z * T * option T) :=
  match pc with
  | PLoadConsumer v pos | PLoadHighWater v pos _ | PCasHighWater v pos _ _
  | PStoreValue v pos => Some (pos, v, None)
  | PStoreSequence v pos => Some (pos, v, Some v)
  | _ => None
  end.

Definition held s : gmap nat (Z * T * option T) := omap holds (producers s).

(** The consumer has emptied the head cell but not yet recycled it. *)
Definition swapped s : bool :=
  match con s with CStoreSequence _ _ => true | _ => false end.

(** The consumer has recycled the head cell but not yet moved its cursor. *)
Definition recycled s : bool :=
  match con s with CStoreCursor _ _ => true | _ => false end.

Definition tail s : Z := base + len (reserved s).
Definition head s : Z := base + len (taken s) - (if swapped s then 1 else 0).

Definition res_at s (p : Z) : option T := reserved s !! Z.to_nat (p - base).

(** What a call in progress knows about the position it loaded. *)
Definition pc_ok s pc : Prop :=
  match pc with
  | PLoadSequence _ _ pos => ∃ p, base <= p <= tail s ∧ pos = u64 p
  | PCas _ _ pos => ∃ p, base <= p <= tail s ∧ p < head s + 2 ^ k ∧ pos = u64 p
  | _ => True
  end.

Definition con_ok s : Prop :=
  match con s with
  | CLoadSequence pos => pos = u64 (head s)
  | CSwap pos => pos = u64 (head s) ∧ head s < tail s ∧ ∃ v,
      res_at s (head s) = Some v ∧
      cell (queue s) (head s) = Some (mkSlot (u64 (head s + 1)) (Some v))
  | CStoreSequence pos v => pos = u64 (head s) ∧ head s < tail s ∧
      cell (queue s) (head s) = Some (mkSlot (u64 (head s + 1)) None)
  | CStoreCursor pos v => pos = u64 (head s - 1) ∧ base < head s
  | _ => True
  end.

(** ** The invariant *)

Record Inv s : Prop := {
  inv_shaped : shaped k (queue s);
  inv_producer : producer (queue s) = u64 (tail s);
  inv_consumer : consumer (queue s) = u64 (head s - (if recycled s then 1 else 0));
  inv_order : base <= head s <= tail s ∧ tail s <= head s + 2 ^ k;
  inv_fifo : taken s = take (length (taken s)) (reserved s);
  inv_free : ∀ p, tail s <= p < head s + 2 ^ k →
    cell (queue s) p = Some (mkSlot (u64 p) None);
  inv_used : ∀ p, head s <= p < tail s →
    (∃ tid v sv, held s !! tid = Some (u64 p, v, sv)) ∨
    (∃ v, res_at s p = Some v ∧ cell (queue s) p =
       Some (mkSlot (u64 (p + 1)) (if (p =? head s) && swapped s then None else Some v)));
  inv_held : ∀ tid pos v sv, held s !! tid = Some (pos, v, sv) →
    ∃ p, head s <= p < tail s ∧ pos = u64 p ∧ res_at s p = Some v ∧
         cell (queue s) p = Some (mkSlot (u64 p) sv);
  inv_unique : ∀ t1 t2 x y, held s !! t1 = Some x → held s !! t2 = Some y →
    x.1.1 = y.1.1 → t1 = t2;
  inv_pc : ∀ tid pc, producers s !! tid = Some pc → pc_ok s pc;
  inv_con : con_ok s
}.

(** The span of a history within which positions determine their images. *)
Definition bounded s : Prop := len (reserved s) < 2 ^ 64 - 2 ^ 31.

(** Histories start from the empty ring of [New], its cursors anywhere. *)
Definition ring_start s : Prop :=
  ∃ q, New (2 ^ k) = Ok q ∧ s = mkSys (seedEmpty q base) ∅ CIdle [] [].

Definition ring_reachable : ring_sys T → Prop := reach ring_start ring_step.

(** ** Structural facts *)

Lemma held_insert s tid pc q c r t :
  held (mkSys q (<[tid := pc]> (producers s)) c r t) =
  match holds pc with Some x => <[tid := x]> (held s) | None => delete tid (held s) end.
Proof.
  apply map_eq. intros i. unfold held. cbn [producers]. rewrite lookup_omap.
  destruct (decide (tid = i)) as [<-|Hne].
  - rewrite lookup_insert_eq. cbn. destruct (holds pc); by simplify_map_eq.
  - rewrite lookup_insert_ne by done.
    destruct (holds pc); rewrite ?lookup_insert_ne, ?lookup_delete_ne, ?lookup_omap by done; done.
Qed.

Lemma held_lookup s tid pc :
  producers s !! tid = Some pc → held s !! tid = holds pc.
Proof. intros H. unfold held. by rewrite lookup_omap, H. Qed.

Lemma held_fresh s tid : producers s !! tid = None → held s !! tid = None.
Proof. intros H. unfold held. by rewrite lookup_omap, H. Qed.

Lemma inv_capacity s : Inv s → capacity (queue s) = 2 ^ k ∧ 2 <= 2 ^ k <= 2 ^ 30.
Proof.
  intros I. pose proof (shaped_bounds _ _ (inv_shaped _ I)).
  destruct (inv_shaped _ I) as (? & Hc & _). rewrite Hc in *. done.
Qed.

(** Positions of the window are less than a turn apart. *)
Lemma window_inj s p p' :
  Inv s → head s <= p <= head s + 2 ^ k → head s <= p' <= head s + 2 ^ k →
  u64 p = u64 p' → p = p'.
Proof. intros I ? ? H. destruct (inv_capacity s I). apply u64_inj_near in H; lia. Qed.

(** A held cell is not a published one. *)
Lemma held_not_published s tid p v sv o :
  Inv s → held s !! tid = Some (u64 p, v, sv) → head s <= p < tail s →
  cell (queue s) p ≠ Some (mkSlot (u64 (p + 1)) o).
Proof.
  intros I Hh Hp Hc. destruct (inv_held s I _ _ _ _ Hh) as (p' & Hp' & He & _ & Hc').
  pose proof (inv_order s I).
  apply (window_inj s) in He; [|done|lia..]. subst p'. rewrite Hc in Hc'.
  injection Hc' as Hs _. symmetry in Hs. by apply u64_succ_ne in Hs.
Qed.

(** ** Steps that leave the ring's cells, cursors and ghost lists alone *)

Lemma inv_silent s q' prods' :
  Inv s →
  slots q' = slots (queue s) → capacity q' = capacity (queue s) →
  mask q' = mask (queue s) → producer q' = producer (queue s) →
  consumer q' = consumer (queue s) →
  (let s' := mkSys q' prods' (con s) (reserved s) (taken s) in
   held s' = held s ∧ ∀ tid pc, prods' !! tid = Some pc → pc_ok s' pc) →
  Inv (mkSys q' prods' (con s) (reserved s) (taken s)).
Proof.
  intros I Hsl Hca Hma Hpr Hco [Hheld Hpc].
  assert (Hcell : ∀ p, cell q' p = cell (queue s) p) by (intros; unfold cell; by rewrite Hsl, Hca).
  destruct I as [Ish Ipr Ico Ior Ifi Ifr Ius Ihe Iun Ipc Icn].
  split; [|exact (eq_trans Hpr Ipr)|exact (eq_trans Hco Ico)|exact Ior|exact Ifi|..|exact Hpc|].
  - unfold shaped in *. cbn. by rewrite Hsl, Hca, Hma.
  - cbn. intros. rewrite Hcell. by apply Ifr.
  - intros p Hp. rewrite Hheld. cbn [queue]. rewrite Hcell. by apply Ius.
  - intros tid pos v sv. rewrite Hheld. cbn [queue]. intros Hh.
    destruct (Ihe _ _ _ _ Hh) as (p & ? & ? & ? & ?). exists p. by rewrite Hcell.
  - intros t1 t2 x y. rewrite Hheld. apply Iun.
  - unfold con_ok in *. cbn. change (head (mkSys _ _ _ _ _)) with (head s).
    destruct (con s); rewrite ?Hcell; auto.
Qed.

(** A publisher's step on which [held] does not change. *)
Lemma inv_silent_pub s tid pc pc' q' :
  Inv s → producers s !! tid = Some pc → holds pc' = holds pc →
  slots q' = slots (queue s) → capacity q' = capacity (queue s) →
  mask q' = mask (queue s) → producer q' = producer (queue s) →
  consumer q' = consumer (queue s) → pc_ok s pc' →
  Inv (mkSys q' (<[tid := pc']> (producers s)) (con s) (reserved s) (taken s)).
Proof.
  intros I Hpc Hh ?????. intros Hok. apply inv_silent; auto. cbv zeta. split.
  - rewrite held_insert, Hh. pose proof (held_lookup s tid pc Hpc) as Hl.
    destruct (holds pc); [by apply insert_id|by apply delete_id].
  - intros t pc''. rewrite lookup_insert_Some. intros [[<- <-]|[_ Ht]].
    + destruct pc'; auto.
    + pose proof (inv_pc s I t pc'' Ht). destruct pc''; auto.
Qed.

(** ** Publisher steps that move the protocol *)

(** The CAS: position [tail] is reserved. *)
Lemma inv_reserve s tid v a pos q' :
  Inv s → bounded (mkSys q' (producers s) (con s) (reserved s ++ [v]) (taken s)) →
  producers s !! tid = Some (PCas v a pos) → producer (queue s) = pos →
  q' = (queue s) <| producer := u64 (pos + 1) |> →
  Inv (mkSys q' (<[tid := PLoadConsumer v pos]> (producers s)) (con s)
         (reserved s ++ [v]) (taken s)).
Proof.
  intros I Hb Hpc Hprod ->. destruct (inv_capacity s I) as [Hcap Hkb].
  pose proof (inv_order s I) as Hord.
  assert (Htl : pos = u64 (tail s)) by (rewrite <- Hprod; apply I).
  assert (Hroom : tail s < head s + 2 ^ k).
  { destruct (inv_pc s I _ _ Hpc) as (p & Hp & Hph & He).
    rewrite Htl in He. apply u64_inj_near in He; [lia|].
    unfold bounded in Hb. cbn [reserved] in Hb. rewrite length_app in Hb. cbn in Hb.
    unfold tail in *. lia. }
  assert (Hnh : held s !! tid = None) by (by rewrite (held_lookup s tid _ Hpc)).
  set (s' := mkSys _ _ _ _ _).
  assert (Ht' : tail s' = tail s + 1).
  { unfold tail. cbn. rewrite length_app. cbn. lia. }
  assert (Hh' : head s' = head s) by done.
  assert (Hheld : held s' = <[tid := (pos, v, None)]> (held s)) by apply held_insert.
  assert (Hres : ∀ p x, res_at s p = Some x → res_at s' p = Some x).
  { unfold res_at. cbn. intros. by apply lookup_app_l_Some. }
  destruct I as [Ish Ipr Ico Ior Ifi Ifr Ius Ihe Iun Ipc Icn].
  split; rewrite ?Ht', ?Hh'; auto; try lia.
  - cbn. by rewrite Htl, u64_add_l.
  - cbn. rewrite take_app_le; [done|]. rewrite Ifi, length_take. lia.
  - intros p Hp. apply Ifr. lia.
  - intros p Hp. rewrite Hheld. destruct (decide (p = tail s)) as [->|].
    { left. exists tid, v, None. rewrite Htl. apply lookup_insert_eq. }
    destruct (Ius p) as [(t & w & sv & Hl)|(w & Hw & Hc)]; [lia| |].
    + left. exists t, w, sv. rewrite lookup_insert_ne; congruence.
    + right. exists w. auto.
  - intros t pos' w sv. rewrite Hheld, lookup_insert_Some. intros [[-> [= <- <- <-]]|[_ Hl]].
    + exists (tail s). split; [lia|]. split; [done|]. split; [|apply Ifr; lia].
      unfold res_at, tail. cbn. rewrite lookup_app_r by lia.
      by replace (_ - _)%nat with 0%nat by lia.
    + destruct (Ihe _ _ _ _ Hl) as (p & ? & ? & ? & ?). exists p. split; [lia|auto].
  - assert (Hnew : ∀ t y, held s !! t = Some y → y.1.1 = pos → False).
    { intros t [[pos' w] sv] Hl Hy. cbn in Hy. subst pos'.
      destruct (Ihe _ _ _ _ Hl) as (p & Hp & He & _). rewrite Htl in He.
      apply u64_inj_near in He; lia. }
    intros t1 t2 x y. rewrite Hheld, !lookup_insert_Some.
    intros [[-> <-]|[? H1]] [[-> <-]|[? H2]]; cbn; intros He; try done.
    + exfalso. eapply Hnew; eauto.
    + exfalso. eapply Hnew; eauto.
    + eapply Iun; eauto.
  - intros t pc. cbn [producers s']. rewrite lookup_insert_Some. intros [[<- <-]|[_ Hl]]; [done|].
    specialize (Ipc t pc Hl). destruct pc; auto; cbn in Ipc |- *; rewrite Ht', ?Hh';
      destruct Ipc as (p & ?); exists p; intuition lia.
  - unfold con_ok in *. cbn [con s']. rewrite Ht', Hh'. cbn [queue s'].
    destruct (con s); auto; try (intuition lia).
    destruct Icn as (? & ? & w & ? & ?). split; [done|]. split; [lia|]. exists w. auto.
Qed.

(** Cells other than the held one keep what the consumer knows. *)
Lemma con_ok_held s s' tid p v sv :
  Inv s → held s !! tid = Some (u64 p, v, sv) → head s <= p < tail s →
  con s' = con s → reserved s' = reserved s → taken s' = taken s →
  (∀ p', head s <= p' < head s + 2 ^ k → p' ≠ p → cell (queue s') p' = cell (queue s) p') →
  con_ok s'.
Proof.
  intros I Hh Hp Hcon Hres Htk Hcell. destruct (inv_capacity s I).
  assert (Hhead : head s' = head s) by (unfold head, swapped; by rewrite Hcon, Htk).
  assert (Htail : tail s' = tail s) by (unfold tail; by rewrite Hres).
  pose proof (inv_con s I) as Ic. unfold con_ok in *. rewrite Hcon, Hhead, Htail.
  unfold res_at in *. rewrite Hres.
  assert (Hne : ∀ o, cell (queue s) (head s) = Some (mkSlot (u64 (head s + 1)) o) → head s ≠ p).
  { intros o Ho <-. revert Ho. by eapply held_not_published. }
  destruct (con s); auto.
  - destruct Ic as (? & ? & w & ? & Hc). split; [done|]. split; [done|]. exists w. split; [done|].
    rewrite Hcell; [done|lia|by eapply Hne].
  - destruct Ic as (? & ? & Hc). split; [done|]. split; [done|].
    rewrite Hcell; [done|lia|by eapply Hne].
Qed.

(** The owner of position [p] changes its cell: [new] is the content while it
    keeps the reservation, [None] when it publishes. *)
Lemma inv_update_held s tid p v sv q' pc' (new : option (option T)) :
  Inv s → held s !! tid = Some (u64 p, v, sv) → head s <= p < tail s →
  shaped k q' → producer q' = producer (queue s) → consumer q' = consumer (queue s) →
  cell q' p = Some (match new with
                    | Some sv' => mkSlot (u64 p) sv'
                    | None => mkSlot (u64 (p + 1)) (Some v)
                    end) →
  (∀ p', head s <= p' < head s + 2 ^ k → p' ≠ p → cell q' p' = cell (queue s) p') →
  holds pc' = (λ sv', (u64 p, v, sv')) <$> new → pc_ok s pc' →
  Inv (mkSys q' (<[tid := pc']> (producers s)) (con s) (reserved s) (taken s)).
Proof.
  intros I Hme Hp Hsh Hpr Hco Heq Hne Hnew Hok.
  destruct (inv_capacity s I) as [Hcap Hkb]. pose proof (inv_order s I) as Hord.
  set (s' := mkSys _ _ _ _ _).
  pose proof (con_ok_held s s' tid p v sv I Hme Hp eq_refl eq_refl eq_refl Hne) as Hcon.
  assert (Hheld : held s' = match holds pc' with Some x => <[tid := x]> (held s)
                            | None => delete tid (held s) end) by apply held_insert.
  assert (Hother : ∀ t x, t ≠ tid → held s' !! t = Some x ↔ held s !! t = Some x).
  { intros t x Ht. rewrite Hheld. destruct (holds pc'); by simplify_map_eq. }
  assert (Hself : held s' !! tid = (λ sv', (u64 p, v, sv')) <$> new).
  { rewrite Hheld, Hnew. destruct new; by simplify_map_eq. }
  assert (Hsw : (p =? head s) && swapped s = false).
  { apply andb_false_iff. destruct (decide (p = head s)) as [->|]; [right|left; by apply Z.eqb_neq].
    unfold swapped. pose proof (inv_con s I) as Ic. unfold con_ok in Ic.
    destruct (con s); auto. destruct Ic as (_ & _ & Hc). exfalso. revert Hc.
    by eapply held_not_published. }
  assert (Huniq : ∀ t w o, held s !! t = Some (u64 p, w, o) → t = tid).
  { intros t w o Hl. by apply (inv_unique s I t tid _ _ Hl Hme). }
  destruct (inv_held s I _ _ _ _ Hme) as (p0 & Hp0 & He & Hrp & _).
  apply (window_inj s) in He; [subst p0|done|lia..].
  destruct I as [Ish Ipr Ico Ior Ifi Ifr Ius Ihe Iun Ipc Icn].
  split; auto; [exact (eq_trans Hpr Ipr)|exact (eq_trans Hco Ico)|..];
    change (tail s') with (tail s); change (head s') with (head s).
  - intros p' Hp'. cbn [queue s']. rewrite Hne by lia. by apply Ifr.
  - intros p' Hp'. cbn [queue s']. destruct (decide (p' = p)) as [->|Hn].
    + destruct new as [sv'|]; [left; by exists tid, v, sv'|].
      right. exists v. change (swapped s') with (swapped s). by rewrite Hsw.
    + rewrite Hne by lia. destruct (Ius p' Hp') as [(t & w & o & Hl)|?]; [left|by right].
      exists t, w, o. apply Hother; [|done]. intros ->. rewrite Hme in Hl.
      injection Hl as He _ _. apply u64_inj_near in He; [by subst|lia].
  - intros t pos' w o Hl. destruct (decide (t = tid)) as [->|Hn].
    + rewrite Hself in Hl. destruct new as [sv'|]; simplify_eq/=. by exists p.
    + apply Hother in Hl; [|done]. destruct (Ihe _ _ _ _ Hl) as (p' & Hp' & -> & Hr' & Hc').
      exists p'. repeat (split; [done|]). cbn [queue s']. rewrite Hne; [done|lia|].
      intros ->. by apply Hn, (Huniq t w o).
  - assert (Hpos : ∀ t x, held s' !! t = Some x → ∃ y, held s !! t = Some y ∧ x.1.1 = y.1.1).
    { intros t x Hl. destruct (decide (t = tid)) as [->|Hn].
      - rewrite Hself in Hl. destruct new; simplify_eq/=. by exists (u64 p, v, sv).
      - exists x. by apply Hother in Hl. }
    intros t1 t2 x y (x' & H1 & E1)%Hpos (y' & H2 & E2)%Hpos He. eapply Iun; eauto. congruence.
  - intros t pc. cbn [producers s']. rewrite lookup_insert_Some. intros [[<- <-]|[_ Hl]]; [done|].
    specialize (Ipc t pc Hl). by destruct pc.
Qed.

Lemma inv_store_value s tid v pos :
  Inv s → producers s !! tid = Some (PStoreValue v pos) →
  Inv (mkSys (store_value (queue s) pos (Some v))
         (<[tid := PStoreSequence v pos]> (producers s)) (con s) (reserved s) (taken s)).
Proof.
  intros I Hpc. destruct (inv_capacity s I) as [Hcap Hkb]. pose proof (inv_shaped s I).
  assert (Hme : held s !! tid = Some (pos, v, None)) by (by rewrite (held_lookup s tid _ Hpc)).
  destruct (inv_held s I _ _ _ _ Hme) as (p & Hp & -> & Hrp & Hcp). pose proof (inv_order s I).
  apply (inv_update_held s tid p v None _ _ (Some (Some v))); try done.
  - by apply shaped_store_value.
  - by rewrite (cell_store_value_eq k _ _ _ _ (inv_shaped s I) Hcp).
  - intros. apply (cell_store_value_ne k); [done|lia|done].
Qed.

(** Publishing the sequence number hands the cell to the consumer. *)
Lemma inv_store_sequence s tid v pos :
  Inv s → producers s !! tid = Some (PStoreSequence v pos) →
  Inv (mkSys (store_sequence (queue s) pos (u64 (pos + 1)))
         (<[tid := PCountPublished]> (producers s)) (con s) (reserved s) (taken s)).
Proof.
  intros I Hpc. destruct (inv_capacity s I) as [Hcap Hkb]. pose proof (inv_shaped s I).
  assert (Hme : held s !! tid = Some (pos, v, Some v)) by (by rewrite (held_lookup s tid _ Hpc)).
  destruct (inv_held s I _ _ _ _ Hme) as (p & Hp & -> & Hrp & Hcp). pose proof (inv_order s I).
  rewrite u64_add_l. apply (inv_update_held s tid p v (Some v) _ _ None); try done.
  - by apply shaped_store_sequence.
  - by rewrite (cell_store_sequence_eq k _ _ _ _ (inv_shaped s I) Hcp).
  - intros. apply (cell_store_sequence_ne k); [done|lia|done].
Qed.

(** The load of the slot sequence: equality proves there is room. *)
Lemma load_sequence_room s p :
  Inv s → base <= p <= tail s →
  i64 (u64 (sequence (cell_at (queue s) (u64 p)) - u64 p)) = 0 →
  p < head s + 2 ^ k.
Proof.
  intros I Hp Hd. destruct (inv_capacity s I) as [Hcap Hkb]. pose proof (inv_order s I) as Hord.
  pose proof (inv_shaped s I) as Hsh.
  destruct (decide (p = head s + 2 ^ k)) as [->|]; [exfalso|lia].
  rewrite <- Hcap in Hd.
  destruct (cell_is_Some k (queue s) (head s) Hsh) as [c Hc].
  rewrite (cell_at_cell k _ (head s + capacity (queue s)) c Hsh) in Hd
    by (by rewrite (cell_period k)).
  apply i64_diff_zero in Hd. rewrite u64_idem in Hd.
  destruct (inv_used s I (head s)) as [(t & w & o & Hl)|(w & _ & Hc')]; [lia| |].
  - destruct (inv_held s I _ _ _ _ Hl) as (p' & Hp' & He & _ & Hc').
    apply (window_inj s) in He; [subst p'|done|lia..]. rewrite Hc in Hc'.
    injection Hc' as ->. cbn in Hd. rewrite u64_idem in Hd. apply u64_inj_near in Hd; lia.
  - rewrite Hc in Hc'. injection Hc' as ->. cbn in Hd. rewrite u64_idem in Hd.
    apply u64_inj_near in Hd; lia.
Qed.

(** Every publisher step preserves the invariant. *)
Lemma inv_pub_step s tid pc q' pc' :
  Inv s → producers s !! tid = Some pc → pub_step (queue s) pc = (q', pc') →
  let s' := mkSys q' (<[tid := pc']> (producers s)) (con s)
              (reserved s ++ reserves pc pc') (taken s) in
  bounded s' → Inv s'.
Proof.
  intros I Hpc Hs s' Hb. subst s'. revert Hb.
  assert (Hnext : ∀ v a, holds (next_attempt v a) = None ∧ pc_ok s (next_attempt v a)).
  { intros v a. unfold next_attempt. by destruct (_ <? _)%nat. }
  destruct pc; cbn in Hs;
    repeat match type of Hs with context [producer ?q =? ?p] => destruct (producer q =? p) eqn:?
    | context [highWater ?q =? ?p] => destruct (highWater q =? p) end;
    injection Hs as <- <-; cbn [reserves]; rewrite ?app_nil_r; intros Hb;
    try (apply (inv_silent_pub s tid _ _ _ I Hpc); done).
  - destruct o; rewrite ?app_nil_r in *; by apply (inv_silent_pub s tid _ _ _ I Hpc).
  - destruct (closed _); by apply (inv_silent_pub s tid _ _ _ I Hpc).
  - destruct (closed _); by apply (inv_silent_pub s tid _ _ _ I Hpc).
  - apply (inv_silent_pub s tid _ _ _ I Hpc); try done. pose proof (inv_order s I).
    exists (tail s). split; [lia|apply I].
  - destruct (inv_pc s I _ _ Hpc) as (p & Hp & ->).
    destruct (_ =? 0) eqn:E; [|destruct (_ <? 0)].
    + zbool. apply (inv_silent_pub s tid _ _ _ I Hpc); try done. exists p.
      split; [done|]. split; [|done]. by apply load_sequence_room.
    + by apply (inv_silent_pub s tid _ _ _ I Hpc).
    + destruct (Hnext v attempt). by apply (inv_silent_pub s tid _ _ _ I Hpc).
  - zbool. apply (inv_reserve s tid v attempt position _ I Hb Hpc); done.
  - destruct (Hnext v attempt). unfold next_attempt in *.
    destruct (_ <? _)%nat; rewrite app_nil_r; by apply (inv_silent_pub s tid _ _ _ I Hpc).
  - destruct (_ >? _); by apply (inv_silent_pub s tid _ _ _ I Hpc).
  - by apply (inv_store_value s tid v).
  - by apply (inv_store_sequence s tid v).
Qed.

(** ** Consumer steps *)

(** A consumer step that touches no cell. *)
Lemma inv_con_silent s q' cpc :
  Inv s → slots q' = slots (queue s) → capacity q' = capacity (queue s) →
  mask q' = mask (queue s) → producer q' = producer (queue s) →
  let s' := mkSys q' (producers s) cpc (reserved s) (taken s) in
  swapped s = false → swapped s' = false →
  consumer q' = u64 (head s - (if recycled s' then 1 else 0)) →
  con_ok s' → Inv s'.
Proof.
  intros I Hsl Hca Hma Hpr s' Hsw Hsw' Hco Hcon.
  assert (Hcell : ∀ p, cell q' p = cell (queue s) p) by (intros; unfold cell; by rewrite Hsl, Hca).
  assert (Hhead : head s' = head s) by (unfold head; by rewrite Hsw, Hsw').
  destruct I as [Ish Ipr Ico Ior Ifi Ifr Ius Ihe Iun Ipc Icn].
  split; rewrite ?Hhead; auto; change (tail s') with (tail s); auto.
  - unfold shaped in *. cbn. by rewrite Hsl, Hca, Hma.
  - cbn. congruence.
  - intros p Hp. cbn [queue s']. rewrite Hcell. by apply Ifr.
  - intros p Hp. cbn [queue s']. rewrite Hcell, Hsw', <- Hsw. by apply Ius.
  - intros tid pos v sv Hl. destruct (Ihe _ _ _ _ Hl) as (p & ? & ? & ? & ?).
    exists p. cbn [queue s']. by rewrite Hcell.
  - intros tid pc Hl. specialize (Ipc tid pc Hl). destruct pc; auto. cbn in Ipc |- *.
    by rewrite Hhead.
Qed.

(** The sequence test succeeds exactly on a published head. *)
Lemma load_head_published s :
  Inv s → swapped s = false →
  i64 (u64 (sequence (cell_at (queue s) (u64 (head s))) - u64 (u64 (head s) + 1))) = 0 →
  head s < tail s ∧ ∃ v, res_at s (head s) = Some v ∧
    cell (queue s) (head s) = Some (mkSlot (u64 (head s + 1)) (Some v)).
Proof.
  intros I Hsw Hd. destruct (inv_capacity s I). pose proof (inv_order s I) as Hord.
  pose proof (inv_shaped s I) as Hsh. apply i64_diff_zero in Hd.
  rewrite u64_add_l, u64_idem in Hd.
  assert (Hno : ∀ o, cell (queue s) (head s) = Some (mkSlot (u64 (head s)) o) → False).
  { intros o Hc. rewrite (cell_at_cell k _ _ _ Hsh Hc) in Hd. cbn in Hd.
    rewrite u64_idem in Hd. by apply u64_succ_ne in Hd. }
  destruct (decide (head s < tail s)) as [Hlt|].
  2:{ exfalso. eapply Hno. apply (inv_free s I). lia. }
  split; [done|]. destruct (inv_used s I (head s)) as [(t & w & o & Hl)|(w & Hr & Hc)]; [lia| |].
  - destruct (inv_held s I _ _ _ _ Hl) as (p' & Hp' & He & _ & Hc').
    apply (window_inj s) in He; [subst p'|done|lia..]. by apply Hno in Hc'.
  - exists w. split; [done|]. rewrite Hsw, andb_false_r in Hc. done.
Qed.

(** Swapping the value out. *)
Lemma inv_swap s pos :
  Inv s → con s = CSwap pos → ∃ v,
  con_step (queue s) (con s) = (store_value (queue s) pos None, CStoreSequence pos v) ∧
  Inv (mkSys (store_value (queue s) pos None) (producers s) (CStoreSequence pos v)
         (reserved s) (taken s ++ [v])).
Proof.
  intros I Hcs. destruct (inv_capacity s I) as [Hcap Hkb]. pose proof (inv_order s I) as Hord.
  pose proof (inv_shaped s I) as Hsh. pose proof (inv_con s I) as Ic.
  unfold con_ok in Ic. rewrite Hcs in Ic. destruct Ic as (-> & Hlt & v & Hr & Hc).
  exists v. split. { rewrite Hcs. cbn. by rewrite (cell_at_cell k _ _ _ Hsh Hc). }
  assert (Hsw : swapped s = false) by (unfold swapped; by rewrite Hcs).
  assert (Hhd : head s = base + len (taken s)) by (unfold head; rewrite Hsw; lia).
  set (s' := mkSys _ _ _ _ _).
  assert (Hhead : head s' = head s).
  { rewrite Hhd. unfold head. cbn. rewrite length_app. cbn. lia. }
  assert (Heq : cell (queue s') (head s) = Some (mkSlot (u64 (head s + 1)) None)).
  { cbn [queue s']. by rewrite (cell_store_value_eq k _ _ _ _ Hsh Hc). }
  assert (Hne : ∀ p, head s < p < head s + 2 ^ k → cell (queue s') p = cell (queue s) p).
  { intros p Hp. cbn [queue s']. apply (cell_store_value_ne k); [done|lia..]. }
  assert (Hnh : ∀ t w o, held s !! t ≠ Some (u64 (head s), w, o)).
  { intros t w o Hl. revert Hc. eapply held_not_published; [done|exact Hl|lia]. }
  destruct I as [Ish Ipr Ico Ior Ifi Ifr Ius Ihe Iun Ipc Icn].
  split; rewrite ?Hhead; auto; change (tail s') with (tail s); auto.
  - by apply shaped_store_value.
  - cbn. unfold recycled in Ico. by rewrite Hcs in Ico.
  - cbn. rewrite length_app. cbn. rewrite Nat.add_1_r. symmetry.
    rewrite (take_S_r _ _ v); [by rewrite <- Ifi|]. rewrite <- Hr. unfold res_at. f_equal. lia.
  - intros p Hp. rewrite Hne by lia. by apply Ifr.
  - intros p Hp. cbn [swapped s' con]. destruct (decide (p = head s)) as [->|Hn].
    + right. exists v. by rewrite Z.eqb_refl.
    + rewrite Hne, (proj2 (Z.eqb_neq _ _) Hn) by lia. destruct (Ius p Hp) as [?|Hu]; [by left|right].
      by rewrite (proj2 (Z.eqb_neq _ _) Hn) in Hu.
  - intros t pos w o Hl. destruct (Ihe _ _ _ _ Hl) as (p & ? & -> & ? & ?).
    exists p. repeat (split; [done|]). rewrite Hne; [done|].
    destruct (decide (p = head s)) as [->|]; [by apply Hnh in Hl|lia].
  - intros tid pc Hl. specialize (Ipc tid pc Hl). destruct pc; auto. cbn in Ipc |- *.
    by rewrite Hhead.
  - unfold con_ok. cbn [con s']. rewrite Hhead. done.
Qed.

(** Recycling the head cell for the next lap. *)
Lemma inv_recycle s pos v :
  Inv s → con s = CStoreSequence pos v →
  Inv (mkSys (store_sequence (queue s) pos (u64 (pos + capacity (queue s)))) (producers s)
         (CStoreCursor pos v) (reserved s) (taken s)).
Proof.
  intros I Hcs. destruct (inv_capacity s I) as [Hcap Hkb]. pose proof (inv_order s I) as Hord.
  pose proof (inv_shaped s I) as Hsh. pose proof (inv_con s I) as Ic.
  unfold con_ok in Ic. rewrite Hcs in Ic. destruct Ic as (-> & Hlt & Hc).
  rewrite u64_add_l, Hcap. set (s' := mkSys _ _ _ _ _).
  assert (Hhead : head s' = head s + 1) by (unfold head, swapped; rewrite Hcs; cbn; lia).
  assert (Hne : ∀ p, head s < p < head s + 2 ^ k → cell (queue s') p = cell (queue s) p).
  { intros p Hp. cbn [queue s']. apply (cell_store_sequence_ne k); [done|lia..]. }
  assert (Heq : cell (queue s') (head s + 2 ^ k) = Some (mkSlot (u64 (head s + 2 ^ k)) None)).
  { rewrite <- Hcap at 1. replace (capacity (queue s)) with (capacity (queue s')) by done.
    rewrite (cell_period k) by (by apply shaped_store_sequence). cbn [queue s'].
    by rewrite (cell_store_sequence_eq k _ _ _ _ Hsh Hc). }
  assert (Hnh : ∀ t w o, held s !! t ≠ Some (u64 (head s), w, o)).
  { intros t w o Hl. revert Hc. eapply held_not_published; [done|exact Hl|lia]. }
  destruct I as [Ish Ipr Ico Ior Ifi Ifr Ius Ihe Iun Ipc Icn].
  split; rewrite ?Hhead; auto; change (tail s') with (tail s); auto; try lia.
  - by apply shaped_store_sequence.
  - cbn. unfold recycled in Ico. rewrite Hcs in Ico. cbn in Ico. rewrite Ico. f_equal. lia.
  - intros p Hp. destruct (decide (p = head s + 2 ^ k)) as [->|]; [done|].
    rewrite Hne by lia. apply Ifr. lia.
  - intros p Hp. cbn [swapped s' con]. rewrite andb_false_r, Hne by lia.
    destruct (Ius p) as [?|Hu]; [lia|by left|right].
    by rewrite (proj2 (Z.eqb_neq _ _)) in Hu by lia.
  - intros t pos w o Hl. destruct (Ihe _ _ _ _ Hl) as (p & Hp & -> & ? & ?).
    assert (p ≠ head s) by (intros ->; by apply Hnh in Hl).
    exists p. split; [lia|]. repeat (split; [done|]). rewrite Hne; [done|lia].
  - intros tid pc Hl. specialize (Ipc tid pc Hl). destruct pc; auto. cbn in Ipc |- *.
    rewrite Hhead. destruct Ipc as (p & ? & ? & ?). exists p. split; [done|]. split; [lia|done].
  - unfold con_ok. cbn [con s']. rewrite Hhead. split; [f_equal; lia|lia].
Qed.

(** Every consumer step preserves the invariant. *)
Lemma inv_con_step s q' cpc :
  Inv s → con_running (con s) = true → con_step (queue s) (con s) = (q', cpc) →
  Inv (mkSys q' (producers s) cpc (reserved s) (taken s ++ takes (con s) cpc)).
Proof.
  intros I Hr Hs. pose proof (inv_con s I) as Ic. pose proof (inv_consumer s I) as Ico.
  destruct (con s) as [| |pos|pos|pos v|pos v|v|o] eqn:Hcs; try done;
    unfold con_ok, recycled in Ic, Ico; rewrite Hcs in Ic, Ico.
  - injection Hs as <- <-. cbn [takes]. rewrite app_nil_r.
    apply inv_con_silent; try done; try (unfold swapped; by rewrite Hcs).
    unfold con_ok. cbn -[head]. rewrite Ico, Z.sub_0_r. unfold head, swapped. by rewrite Hcs.
  - assert (Hsw' : swapped s = false) by (unfold swapped; by rewrite Hcs).
    cbn in Hs. destruct (_ =? 0) eqn:E; injection Hs as <- <-; cbn [takes]; rewrite app_nil_r;
      apply inv_con_silent; try done.
    zbool. unfold con_ok. cbn -[head]. rewrite Ic in *.
    destruct (load_head_published s I Hsw' E) as (? & v & ? & ?).
    replace (head (mkSys _ _ _ _ _)) with (head s) by (unfold head; by rewrite Hsw'). eauto.
  - rewrite <- Hcs in Hs |- *. destruct (inv_swap s pos I Hcs) as (v & Hs' & Hi).
    rewrite Hs' in Hs. injection Hs as <- <-. by rewrite Hcs.
  - injection Hs as <- <-. cbn [takes]. rewrite app_nil_r. by apply inv_recycle.
  - injection Hs as <- <-. cbn [takes]. rewrite app_nil_r.
    apply inv_con_silent; try done; try (unfold swapped; by rewrite Hcs).
    destruct Ic as [-> _]. cbn. rewrite u64_add_l. f_equal. lia.
  - injection Hs as <- <-. cbn [takes]. rewrite app_nil_r.
    apply inv_con_silent; try done; unfold swapped; by rewrite Hcs.
Qed.

(** ** Every reachable state *)

Lemma inv_start s : 0 <= base < 2 ^ 64 → 1 <= k <= 30 → ring_start s → Inv s.
Proof.
  intros Hb Hk (q & HN & ->). destruct (New_Ok _ _ HN) as (k' & Hk' & He & R & _).
  apply (Z.pow_inj_r 2) in He; [subst k'|lia..].
  pose proof (seedEmpty_repr k 0 q base Hb R) as [Hs Hco Hpr _ _ Hf].
  pose proof (capacity_bounds k Hk). pose proof Hs as (_ & Hcap & _).
  split; unfold head, tail; cbn -[seedEmpty]; rewrite ?Z.sub_0_r, ?Z.add_0_r; try done.
  - lia.
  - intros p Hp. apply Hf. rewrite Hcap. change (len []) with 0. lia.
  - intros p Hp. lia.
Qed.

Lemma inv_step s s' : Inv s → ring_step s s' → bounded s' → Inv s'.
Proof.
  intros I Hst Hb. destruct Hst as [s tid o Hl|s tid pc q' pc' Hl Hr Hs|s tid r Hl|s Hc
                                   |s q' pc' Hr Hs|s o Hc|s].
  - apply inv_silent; try done. cbv zeta. split.
    + rewrite held_insert. cbn [holds]. apply delete_id. by apply held_fresh.
    + intros t pc. rewrite lookup_insert_Some. intros [[<- <-]|[_ Ht]]; [done|].
      pose proof (inv_pc s I t pc Ht). by destruct pc.
  - by apply (inv_pub_step s tid pc q' pc').
  - apply inv_silent; try done. cbv zeta. split.
    + apply map_eq. intros i. unfold held. cbn [producers]. rewrite !lookup_omap.
      destruct (decide (tid = i)) as [<-|]; [by rewrite lookup_delete_eq, Hl|].
      by rewrite lookup_delete_ne.
    + intros t pc [_ Ht]%lookup_delete_Some. pose proof (inv_pc s I t pc Ht). by destruct pc.
  - apply inv_con_silent; try done; try (unfold swapped; by rewrite Hc).
    pose proof (inv_consumer s I) as Ico. unfold recycled in Ico. rewrite Hc in Ico. done.
  - by apply inv_con_step.
  - apply inv_con_silent; try done; try (unfold swapped; by rewrite Hc).
    pose proof (inv_consumer s I) as Ico. unfold recycled in Ico. rewrite Hc in Ico. done.
  - apply inv_silent; try done. cbv zeta. split; [done|]. intros t pc Ht.
    pose proof (inv_pc s I t pc Ht). by destruct pc.
Qed.

(** Reservations are never undone, so a bounded state has a bounded past. *)
Lemma bounded_past s s' : ring_step s s' → bounded s' → bounded s.
Proof.
  intros Hst. unfold bounded. destruct Hst; cbn; auto. rewrite length_app. lia.
Qed.

Lemma reachable_inv s :
  0 <= base < 2 ^ 64 → 1 <= k <= 30 → ring_reachable s → bounded s → Inv s.
Proof.
  intros Hb Hk Hr. induction Hr as [s Hs|s s' Hr IH Hst]; intros Hbd.
  - by apply inv_start.
  - eapply inv_step; eauto using bounded_past.
Qed.

End Invariant.

(** ** Calls in progress end *)

Section WaitFree.
Context {T : Type}.
Implicit Types (q : Queue T) (s : ring_sys T) (pc : pub_pc T).

(** Operations a publication may still perform, whatever the others do: the
    attempts left, and for the high-water loop the distance the mark can still
    rise. *)
Definition publish_budget q pc : Z :=
  let m := 2 * capacity q + 8 in
  match pc with
  | PReturn _ => 0 | PCountInvalid | PCountClosed | PCountFull | PCountPublished => 1
  | PStoreSequence _ _ => 2 | PStoreValue _ _ => 3
  | PCasHighWater _ _ _ c => 4 + 2 * (capacity q - c)
  | PLoadHighWater _ _ _ => 5 + 2 * (capacity q - highWater q)
  | PLoadConsumer _ _ => m
  | PCas _ a _ => m + 4 * (127 - Z.of_nat a) + 1
  | PLoadSequence _ a _ => m + 4 * (127 - Z.of_nat a) + 2
  | PLoadProducer _ a => m + 4 * (127 - Z.of_nat a) + 3
  | PAttempt _ a => m + 4 * (127 - Z.of_nat a) + 4
  | PCheckClosed _ => m + 513
  | PBegin _ => m + 514
  end.

(** The high-water mark never exceeds the capacity and never falls. *)
Definition watermark_ok q pc : Prop :=
  2 <= capacity q ∧ 0 <= highWater q <= capacity q ∧
  match pc with
  | PLoadHighWater _ _ d => 0 <= d <= capacity q
  | PCasHighWater _ _ d c => 0 <= c <= highWater q ∧ c < d <= capacity q
  | PAttempt _ a | PLoadProducer _ a | PLoadSequence _ a _ | PCas _ a _ =>
      (a < maxPublishAttempts)%nat
  | _ => True
  end.

Definition watermarks s : Prop :=
  2 <= capacity (queue s) ∧ 0 <= highWater (queue s) <= capacity (queue s) ∧
  ∀ tid pc, producers s !! tid = Some pc → watermark_ok (queue s) pc.

(** [q'] is [q] after some steps of others, as far as the mark goes. *)
Definition raised q q' : Prop :=
  capacity q' = capacity q ∧ highWater q <= highWater q' <= capacity q.

Lemma clamp_depth_range q d : 2 <= capacity q → 0 <= clamp_depth q (u64 d) <= capacity q.
Proof.
  intros. unfold clamp_depth. pose proof (u64_range d).
  destruct (_ >? _) eqn:E; zbool; lia.
Qed.

(** One step of a publication: the budget shrinks, the mark stays legal. *)
Lemma publish_budget_step q pc q' pc' :
  watermark_ok q pc → pub_running pc = true → pub_step q pc = (q', pc') →
  watermark_ok q' pc' ∧ raised q q' ∧ 0 <= publish_budget q' pc' < publish_budget q pc.
Proof.
  intros (Hcap & Hhw & Hok) Hr Hs. unfold watermark_ok, raised.
  destruct pc as [[v|]| |v| |v a|v a|v a p|v a p|v p|v p d|v p d c|v p|v p| | |]; try done;
    cbn in Hs, Hok; unfold next_attempt, maxPublishAttempts in *;
    repeat match type of Hs with
    | context [if ?b then _ else _] => destruct b eqn:?
    end; injection Hs as <- <-; zbool;
    repeat match goal with
    | H : (_ <? _)%nat = true |- _ => apply Nat.ltb_lt in H
    | H : (_ <? _)%nat = false |- _ => apply Nat.ltb_ge in H
    end;
    cbn -[maxPublishAttempts clamp_depth]; try (pose proof (clamp_depth_range q (p + 1 - consumer q) Hcap));
    unfold maxPublishAttempts in *; repeat split; try lia.
Qed.

(** Steps of others never enlarge a budget. *)
Lemma publish_budget_raised q q' pc :
  raised q q' → watermark_ok q pc →
  watermark_ok q' pc ∧ 0 <= publish_budget q' pc <= publish_budget q pc.
Proof.
  intros [Hc Hr] (Hcap & Hhw & Hok). unfold watermark_ok. rewrite Hc.
  destruct pc; cbn in *; unfold maxPublishAttempts in *; rewrite ?Hc; repeat split; try lia.
Qed.

Lemma con_step_raised q cpc q' cpc' :
  0 <= highWater q <= capacity q → con_step q cpc = (q', cpc') → raised q q'.
Proof. intros Hh Hs. destruct cpc; cbn in Hs; injection Hs as <- _; unfold raised; cbn; lia. Qed.

(** [steps_of tid n s s']: a history in which call [tid] performs [n] of its
    operations without returning to its caller, interleaved with anything. *)
Inductive steps_of (tid : nat) : nat → ring_sys T → ring_sys T → Prop :=
| steps_none s : steps_of tid 0 s s
| steps_own n s s1 pc q' pc' :
    steps_of tid n s s1 → producers s1 !! tid = Some pc → pub_running pc = true →
    pub_step (queue s1) pc = (q', pc') →
    steps_of tid (S n) s (mkSys q' (<[tid := pc']> (producers s1)) (con s1)
                            (reserved s1 ++ reserves pc pc') (taken s1))
| steps_other n s s1 s2 :
    steps_of tid n s s1 → ring_step s1 s2 → producers s2 !! tid = producers s1 !! tid →
    steps_of tid n s s2.

Lemma watermarks_step s s' : watermarks s → ring_step s s' →
  watermarks s' ∧ raised (queue s) (queue s').
Proof.
  intros (Hcap & Hhw & Hpc) Hst.
  assert (Hsame : raised (queue s) (queue s)) by (unfold raised; lia).
  assert (Hup : ∀ q' (prods' : gmap nat (pub_pc T)), raised (queue s) q' →
    (∀ tid pc, prods' !! tid = Some pc → producers s !! tid = Some pc ∨ watermark_ok q' pc) →
    2 <= capacity q' ∧ 0 <= highWater q' <= capacity q' ∧
    ∀ tid pc, prods' !! tid = Some pc → watermark_ok q' pc).
  { intros q' prods' Hr Hp. pose proof Hr as [Hc Hh]. rewrite Hc. split; [lia|]. split; [lia|].
    intros tid pc Ht. destruct (Hp tid pc Ht) as [H|]; [|done].
    by apply (publish_budget_raised (queue s)); eauto. }
  destruct Hst as [s tid o Hl|s tid pc q' pc' Hl Hr Hs|s tid r Hl|s Hc|s q' pc' Hr Hs|s o Hc|s];
    unfold watermarks; cbn [queue producers].
  - split; [|done]. apply Hup; [done|]. intros t pc. rewrite lookup_insert_Some.
    intros [[<- <-]|[_ Ht]]; [right; unfold watermark_ok; auto|by left].
  - destruct (publish_budget_step _ _ _ _ (Hpc _ _ Hl) Hr Hs) as (Hw & Hra & _).
    split; [|done]. apply Hup; [done|]. intros t pc''. rewrite lookup_insert_Some.
    intros [[<- <-]|[_ Ht]]; [by right|by left].
  - split; [|done]. apply Hup; [done|]. intros t pc [_ Ht]%lookup_delete_Some. by left.
  - split; [|done]. apply Hup; [done|]. by left.
  - assert (Hra : raised (queue s) q') by (by eapply con_step_raised).
    split; [|done]. apply Hup; [done|]. by left.
  - split; [|done]. apply Hup; [done|]. by left.
  - assert (Hra : raised (queue s) (Close (queue s))) by (unfold raised; cbn; lia).
    split; [|done]. apply Hup; [done|]. by left.
Qed.

Lemma steps_of_budget tid n s s' pc :
  watermarks s → producers s !! tid = Some pc → steps_of tid n s s' →
  watermarks s' ∧ ∃ pc', producers s' !! tid = Some pc' ∧
    Z.of_nat n + publish_budget (queue s') pc' <= publish_budget (queue s) pc.
Proof.
  intros Hw Hpc Hst.
  induction Hst as [s|n s s1 pc1 q' pc1' Hst IH Hl Hr Hs|n s s1 s2 Hst IH Hs Hsame].
  - split; [done|]. exists pc. split; [done|lia].
  - destruct (IH Hw Hpc) as (Hw1 & pc2 & Hl2 & Hb). rewrite Hl in Hl2. injection Hl2 as <-.
    destruct (publish_budget_step _ _ _ _ (proj2 (proj2 Hw1) _ _ Hl) Hr Hs) as (_ & _ & Hlt).
    split; [by eapply watermarks_step; [|eapply step_publish]|].
    exists pc1'. cbn [producers queue]. rewrite lookup_insert_eq. split; [done|lia].
  - destruct (IH Hw Hpc) as (Hw1 & pc2 & Hl2 & Hb).
    destruct (watermarks_step _ _ Hw1 Hs) as [Hw2 Hra]. split; [done|].
    exists pc2. rewrite Hsame. split; [done|].
    destruct (publish_budget_raised _ _ pc2 Hra (proj2 (proj2 Hw1) _ _ Hl2)). lia.
Qed.

Lemma publish_budget_nonneg q pc : watermark_ok q pc → 0 <= publish_budget q pc.
Proof.
  intros (? & ? & Hok). destruct pc; cbn in *; unfold maxPublishAttempts in *; lia.
Qed.

End WaitFree.

(** ** Admission accounting *)

Section Accounting.
Context {T : Type}.
Implicit Types (q : Queue T) (s : ring_sys T) (pc : pub_pc T).

(** Counted as an attempt, outcome not yet counted. *)
Definition in_call pc : option unit :=
  match pc with PBegin _ | PReturn _ => None | _ => Some () end.

Definition undecided s : Z := Z.of_nat (size (omap in_call (producers s))).

(** Attempts minus outcomes. *)
Definition balance q : Z :=
  publishAttempts q - published q - rejectedFull q - rejectedClosed q - rejectedInvalid q.

Lemma inc_turns z : ∃ n, inc z = z + 1 + n * 2 ^ 64.
Proof.
  exists (- ((z + 1) / 2 ^ 64)). unfold inc, u64. pose proof (Z.div_mod (z + 1) (2 ^ 64)). lia.
Qed.

Definition in_call_Z pc : Z := match in_call pc with Some _ => 1 | None => 0 end.

Lemma pub_step_balance q pc q' pc' :
  pub_step q pc = (q', pc') →
  ∃ n, balance q' - in_call_Z pc' = balance q - in_call_Z pc + n * 2 ^ 64.
Proof.
  intros Hs. unfold balance, in_call_Z.
  assert (Hnext : ∀ v a, in_call (next_attempt (T:=T) v a) = Some ())
    by (intros; unfold next_attempt; by destruct (_ <? _)%nat).
  destruct pc as [[v|]| | | | | | | | | | | | | | |]; cbn in Hs;
    repeat match type of Hs with
    | context [if ?b then _ else _] => destruct b
    end; injection Hs as <- <-; cbn -[store_value store_sequence]; rewrite ?Hnext;
    try (exists 0; cbn; lia);
    match goal with |- context [inc ?z] => destruct (inc_turns z) as [n Hn] end;
    first [exists n; lia | exists (- n); lia].
Qed.

Lemma size_omap_insert (m : gmap nat (pub_pc T)) tid pc pc' :
  m !! tid = Some pc →
  Z.of_nat (size (omap in_call (<[tid := pc']> m))) =
  Z.of_nat (size (omap in_call m)) + in_call_Z pc' - in_call_Z pc.
Proof.
  intros Hl. unfold in_call_Z. rewrite omap_insert.
  assert (Hlo : omap in_call m !! tid = in_call pc) by (by rewrite lookup_omap, Hl).
  pose proof (map_size_delete tid (omap in_call m)) as Hd. rewrite Hlo in Hd.
  destruct (in_call pc') as [[]|].
  - rewrite map_size_insert, Hlo. destruct (in_call pc); cbn; lia.
  - rewrite Hd. destruct (in_call pc) as [[]|]; [|cbn; lia].
    assert (size (omap in_call m) ≠ 0%nat).
    { intros Hz%map_size_empty_inv. by rewrite Hz, lookup_empty in Hlo. }
    cbn. lia.
Qed.

Lemma accounting_step s s' :
  u64 (balance (queue s)) = u64 (undecided s) → ring_step s s' →
  u64 (balance (queue s')) = u64 (undecided s').
Proof.
  intros Hb Hst. destruct Hst as [s tid o Hl|s tid pc q' pc' Hl Hr Hs|s tid r Hl|s Hc
                                  |s q' pc' Hr Hs|s o Hc|s]; unfold undecided in *; cbn; auto.
  - rewrite omap_insert. cbn. rewrite delete_id; [done|]. by rewrite lookup_omap, Hl.
  - destruct (pub_step_balance _ _ _ _ Hs) as [n Hn].
    rewrite (size_omap_insert _ _ _ pc') by done.
    apply u64_eq_divide in Hb as [m Hm]. apply u64_eq_divide. exists (m + n). lia.
  - rewrite omap_delete. rewrite delete_id; [done|]. by rewrite lookup_omap, Hl.
  - rewrite <- Hb. f_equal. destruct (con s); cbn in Hs; by injection Hs as <- _.
Qed.
End Accounting.

(** ** Scheduling by hand *)

Section Scheduler.
Context {T : Type}.

(** One scheduling decision; [do_action] is [None] where it is not enabled. *)
Inductive action :=
| ACall (tid : nat) (o : option T) | AStep (tid : nat) | AReturn (tid : nat)
| AConsume | AConsumeStep | AConsumeReturn | AClose.

Definition do_action (s : ring_sys T) (a : action) : option (ring_sys T) :=
  let same prods := mkSys (queue s) prods (con s) (reserved s) (taken s) in
  match a with
  | ACall tid o => match producers s !! tid with
      | None => Some (same (<[tid := PBegin o]> (producers s))) | Some _ => None end
  | AStep tid => match producers s !! tid with
      | Some pc => if pub_running pc
          then let '(q', pc') := pub_step (queue s) pc in
               Some (mkSys q' (<[tid := pc']> (producers s)) (con s)
                       (reserved s ++ reserves pc pc') (taken s))
          else None
      | None => None end
  | AReturn tid => match producers s !! tid with
      | Some (PReturn r) => Some (same (delete tid (producers s))) | _ => None end
  | AConsume => match con s with
      | CIdle => Some (mkSys (queue s) (producers s) CBegin (reserved s) (taken s))
      | _ => None end
  | AConsumeStep => if con_running (con s)
      then let '(q', pc') := con_step (queue s) (con s) in
           Some (mkSys q' (producers s) pc' (reserved s) (taken s ++ takes (con s) pc'))
      else None
  | AConsumeReturn => match con s with
      | CReturn _ => Some (mkSys (queue s) (producers s) CIdle (reserved s) (taken s))
      | _ => None end
  | AClose => Some (mkSys (Close (queue s)) (producers s) (con s) (reserved s) (taken s))
  end.

Fixpoint do_actions (s : ring_sys T) (l : list action) : option (ring_sys T) :=
  match l with [] => Some s | a :: l => s' ← do_action s a; do_actions s' l end.

Lemma do_action_step s a s' : do_action s a = Some s' → ring_step s s'.
Proof.
  destruct a as [tid o|tid|tid| | | |]; cbn.
  - destruct (producers s !! tid) eqn:E; [done|]. intros [= <-]. by apply step_call_publish.
  - destruct (producers s !! tid) as [pc|] eqn:E; [|done].
    destruct (pub_running pc) eqn:Hr; [|done].
    destruct (pub_step (queue s) pc) as [q' pc'] eqn:Hs. intros [= <-]. by eapply step_publish.
  - destruct (producers s !! tid) as [[]|] eqn:E; try done. intros [= <-].
    by eapply step_return_publish.
  - destruct (con s) eqn:E; try done. intros [= <-]. by apply step_call_consume.
  - destruct (con_running (con s)) eqn:Hr; [|done].
    destruct (con_step (queue s) (con s)) as [q' pc'] eqn:Hs. intros [= <-]. by apply step_consume.
  - destruct (con s) eqn:E; try done. intros [= <-]. by eapply step_return_consume.
  - intros [= <-]. apply step_close.
Qed.

Lemma do_actions_reach (k base : Z) l : ∀ s s',
  ring_reachable k base s → do_actions s l = Some s' → ring_reachable k base s'.
Proof.
  induction l as [|a l IH]; cbn; intros s s' Hr H; [by injection H as <-|].
  destruct (do_action s a) as [s1|] eqn:E; [|done]. cbn in H.
  eapply IH; [|exact H]. eapply reach_step; [exact Hr|]. by eapply do_action_step.
Qed.

Lemma do_actions_later l : ∀ s s', do_actions s l = Some s' → reach (λ s0, s0 = s) ring_step s'.
Proof.
  intros s s' H. assert (Hgen : ∀ l s1, reach (λ s0, s0 = s) ring_step s1 →
    do_actions s1 l = Some s' → reach (λ s0, s0 = s) ring_step s').
  { clear. intros l. induction l as [|a l IH]; cbn; intros s1 Hr H; [by injection H as <-|].
    destruct (do_action s1 a) as [s2|] eqn:E; [|done]. cbn in H.
    eapply IH; [|exact H]. eapply reach_step; [exact Hr|]. by eapply do_action_step. }
  eapply Hgen; [|exact H]. by apply reach_init.
Qed.

(** The start state of capacity [2^k] and cursor [base]. *)
Definition start_state (k base : Z) : option (ring_sys T) :=
  match New (2 ^ k) with
  | Ok q => Some (mkSys (seedEmpty q base) ∅ CIdle [] [])
  | Err _ => None
  end.

Lemma start_state_start (k base : Z) s : start_state k base = Some s → ring_start k base s.
Proof.
  unfold start_state. destruct (New (2 ^ k)) as [q|] eqn:E; [|done]. intros [= <-]. by exists q.
Qed.

Lemma scheduled (k base : Z) l s' :
  (s ← start_state k base; do_actions s l) = Some s' → ring_reachable k base s'.
Proof.
  unfold start_state. destruct (New (2 ^ k)) as [q|] eqn:E; [|done]. cbn. intros H.
  eapply do_actions_reach; [|exact H]. apply reach_init. by exists q.
Qed.
End Scheduler.
Arguments action T : clear implicits.

(** ** Properties *)

Section Properties.
Context {T : Type}.
Implicit Types (s : ring_sys T).

Lemma pending_split k base s :
  0 <= base < 2 ^ 64 → 1 <= k <= 30 → ring_reachable k base s → bounded s →
  reserved s = taken s ++ drop (length (taken s)) (reserved s) ∧
  len (drop (length (taken s)) (reserved s)) <= 2 ^ k.
Proof.
  intros Hb Hk Hr Hbd. pose proof (reachable_inv k base s Hb Hk Hr Hbd) as I.
  split.
  - rewrite (inv_fifo k base s I) at 1. by rewrite take_drop.
  - pose proof (inv_order k base s I). unfold head, tail in *. rewrite length_drop.
    destruct (swapped s); lia.
Qed.

(** [s2] is [s1] after some steps. *)
Definition later s1 s2 : Prop := reach (λ s, s = s1) ring_step s2.

Lemma later_reachable k base s1 s2 :
  ring_reachable k base s1 → later s1 s2 → ring_reachable k base s2.
Proof. intros Hr Hl. induction Hl as [s ->|]; [done|]. by eapply reach_step. Qed.

Lemma later_bounded s1 s2 :
  later s1 s2 → bounded s2 → bounded s1 ∧ (length (reserved s1) <= length (reserved s2))%nat.
Proof.
  intros Hl. induction Hl as [s ->|s s' Hl IH Hs]; intros Hb; [done|].
  destruct (IH (bounded_past _ _ Hs Hb)) as [? Hle]. split; [done|].
  destruct Hs; cbn in *; rewrite ?length_app; lia.
Qed.

(** C7. Under every interleaving of any number of producers, the consumer and
    [Close], the values consumed so far are a prefix of the values admitted, in
    admission order (nothing is lost, duplicated, invented or reordered), and
    never more than the capacity are outstanding. *)
Theorem ring_concurrent_fifo (k base : Z) s :
  0 <= base < 2 ^ 64 → 1 <= k <= 30 → ring_reachable k base s → bounded s →
  ∃ pending, reserved s = taken s ++ pending ∧ len pending <= 2 ^ k.
Proof. intros. exists (drop (length (taken s)) (reserved s)). by eapply pending_split. Qed.

(** Whenever no call is in progress, the shared memory represents exactly
    the admitted and not yet consumed values: every concurrent history ends in a
    state from which sequential calls behave as the abstract queue. *)
Theorem ring_quiescent (k base : Z) s :
  0 <= base < 2 ^ 64 → 1 <= k <= 30 → ring_reachable k base s → bounded s →
  producers s = ∅ → con s = CIdle →
  bq_abs (queue s) (mkFifo (2 ^ k) (drop (length (taken s)) (reserved s)) (closed (queue s))).
Proof.
  intros Hb Hk Hr Hbd Hp Hc. pose proof (reachable_inv k base s Hb Hk Hr Hbd) as I.
  destruct (inv_capacity k base s I) as [Hcap _]. pose proof (inv_order k base s I) as Hord.
  destruct (pending_split k base s Hb Hk Hr Hbd) as [_ Hlen].
  split; [done|split; [done|]]. exists k, (head base s). cbn [f_items].
  assert (Hheld : held s = ∅) by (unfold held; by rewrite Hp).
  assert (Hhd : head base s = base + len (taken s)) by (unfold head, swapped; rewrite Hc; lia).
  assert (Htl : head base s + len (drop (length (taken s)) (reserved s)) = tail base s).
  { rewrite Hhd. unfold tail. rewrite length_drop. unfold tail in Hord. lia. }
  destruct I as [Ish Ipr Ico Ior Ifi Ifr Ius Ihe Iun Ipc Icn].
  split; rewrite ?Htl, ?Hcap; auto.
  - unfold recycled in Ico. rewrite Hc in Ico. by rewrite Z.sub_0_r in Ico.
  - intros i v Hi. rewrite lookup_drop in Hi. pose proof (lookup_lt_Some _ _ _ Hi).
    destruct (Ius (head base s + Z.of_nat i)) as [(t & w & o & Hl)|(w & Hw & Hcell)].
    + unfold tail in *. lia.
    + by rewrite Hheld, lookup_empty in Hl.
    + rewrite Hcell. unfold res_at in Hw. unfold swapped. rewrite Hc, andb_false_r.
      replace (Z.to_nat _) with (length (taken s) + i)%nat in Hw by lia. congruence.
Qed.

(** C31. A publication returns after at most [2 * capacity + 522] of its own
    memory operations, however the other threads are scheduled: contention is
    bounded by the CAS budget and by the range of the high-water mark. *)
Theorem publish_wait_free (k base : Z) s s' tid (o : option T) n :
  0 <= base < 2 ^ 64 → 1 <= k <= 30 → ring_reachable k base s →
  producers s !! tid = Some (PBegin o) → steps_of tid n s s' →
  Z.of_nat n <= 2 * 2 ^ k + 522.
Proof.
  intros Hb Hk Hr Hl Hst.
  assert (Hw : watermarks s ∧ capacity (queue s) = 2 ^ k).
  { clear Hl Hst. induction Hr as [s (q & HN & ->)|s1 s2 Hr [IHw IHc] Hs].
    - destruct (New_Ok _ _ HN) as (k' & Hk' & -> & R & _).
      destruct (repr_shaped _ _ _ _ R) as (_ & Hc & _). pose proof (capacity_bounds _ Hk').
      assert (Hhw : highWater q = 0) by (revert HN; unfold New; destruct (_ || _)%bool;
        [done|by intros [= <-]]).
      unfold watermarks. cbn. rewrite Hhw, Hc. split; [|done]. split; [lia|]. split; [lia|done].
    - destruct (watermarks_step _ _ IHw Hs) as [? [Hc _]]. split; [done|congruence]. }
  destruct Hw as [Hw Hcap].
  destruct (steps_of_budget _ _ _ _ _ Hw Hl Hst) as (Hw' & pc' & Hl' & Hle).
  pose proof (publish_budget_nonneg _ _ (proj2 (proj2 Hw') _ _ Hl')).
  cbn [publish_budget] in Hle. lia.
Qed.

(** C16. The admission counters balance modulo 2^64: attempts equal accepted
    plus rejected publications plus the calls still undecided. *)
Theorem ring_accounting (k base : Z) s :
  ring_reachable k base s →
  u64 (publishAttempts (queue s)) =
  u64 (published (queue s) + rejectedFull (queue s) + rejectedClosed (queue s)
       + rejectedInvalid (queue s) + undecided s).
Proof.
  intros Hr. assert (Hbal : u64 (balance (queue s)) = u64 (undecided s)).
  { induction Hr as [s (q & HN & ->)|s1 s2 Hr IH Hs]; [|by eapply accounting_step].
    revert HN. unfold New. destruct (_ || _)%bool; [done|]. intros [= <-]. reflexivity. }
  unfold balance in Hbal. apply u64_eq_divide in Hbal as [m Hm].
  apply u64_eq_divide. exists m. lia.
Qed.

(** A [Depth] call whose two loads are separated by any activity of the
    others never underflows: it reports the distance from the consumer cursor it
    saw first to the producer cursor it saw second, capped at the capacity. *)
Theorem depth_no_underflow (k base : Z) s1 s2 d :
  0 <= base < 2 ^ 64 → 1 <= k <= 30 → ring_reachable k base s1 → later s1 s2 → bounded s2 →
  depth_step (queue s2) (depth_step (queue s1) DBegin) = DReturn d →
  d = Z.min (2 ^ k) (tail base s2 - (head base s1 - (if recycled s1 then 1 else 0)))
  ∧ 0 <= d.
Proof.
  intros Hb Hk Hr1 Hl Hb2. pose proof (later_reachable k base s1 s2 Hr1 Hl) as Hr2.
  destruct (later_bounded s1 s2 Hl Hb2) as [Hb1 Hle].
  pose proof (reachable_inv k base s1 Hb Hk Hr1 Hb1) as I1.
  pose proof (reachable_inv k base s2 Hb Hk Hr2 Hb2) as I2.
  destruct (inv_capacity k base s2 I2) as [Hcap Hkb]. cbn.
  rewrite (inv_consumer k base s1 I1), (inv_producer k base s2 I2), Hcap, u64_sub_l, u64_sub_r.
  pose proof (inv_order k base s1 I1). unfold bounded in Hb2.
  set (c := head base s1 - (if recycled s1 then 1 else 0)) in *.
  assert (Hc : base <= c <= head base s1).
  { subst c. pose proof (inv_con k base s1 I1) as Ic. unfold con_ok, recycled in *.
    destruct (con s1); lia. }
  unfold tail in *. rewrite u64_small by lia.
  intros [= <-]. destruct (_ >? _) eqn:E; zbool; lia.
Qed.
End Properties.

(** ** Instances *)

(** Two producers race through the last free cell of a two-cell ring whose
    cursors wrap, while the consumer is half-way through the oldest item. *)
Definition race : list (action nat) :=
  [ACall 1 (Some 10%nat)] ++ repeat (AStep 1) 12 ++ [AReturn 1] ++
  [ACall 2 (Some 20%nat)] ++ repeat (AStep 2) 6 ++
  [AConsume] ++ repeat AConsumeStep 4 ++
  [ACall 3 (Some 30%nat)] ++ repeat (AStep 3) 11.

Definition race_state : ring_sys nat :=
  default (mkSys (mkQueue 0 0 0 0 [] false 0 0 0 0 0 0 0) ∅ CIdle [] [])
    (s ← start_state 1 (2 ^ 64 - 1); do_actions s race).

Lemma race_reachable : ring_reachable 1 (2 ^ 64 - 1) race_state.
Proof. apply (scheduled 1 (2 ^ 64 - 1) race). vm_compute. reflexivity. Qed.

Lemma ring_concurrent_fifo_witness :
  ∃ pending, reserved race_state = taken race_state ++ pending ∧ len pending <= 2 ^ 1.
Proof.
  apply (ring_concurrent_fifo 1 (2 ^ 64 - 1)); [lia|lia|apply race_reachable|].
  vm_compute. reflexivity.
Defined.

(** The same race run to completion: everybody has returned. *)
Definition settled : list (action nat) :=
  race ++ [AStep 3; AReturn 3] ++ repeat (AStep 2) 5 ++ [AReturn 2] ++
  repeat AConsumeStep 2 ++ [AConsumeReturn].

Definition settled_state : ring_sys nat :=
  default race_state (s ← start_state 1 (2 ^ 64 - 1); do_actions s settled).

Lemma settled_reachable : ring_reachable 1 (2 ^ 64 - 1) settled_state.
Proof. apply (scheduled 1 (2 ^ 64 - 1) settled). vm_compute. reflexivity. Qed.

Lemma ring_quiescent_witness :
  bq_abs (queue settled_state) (mkFifo 2 [20%nat; 30%nat] false).
Proof.
  apply (ring_quiescent 1 (2 ^ 64 - 1)); [lia|lia|apply settled_reachable|..];
    vm_compute; reflexivity.
Defined.


(** A publication about to perform its first operation. *)
Definition called_state : ring_sys nat :=
  default race_state (s ← start_state 1 7; do_actions s [ACall 1%nat (Some 10%nat)]).

Lemma called_reachable : ring_reachable 1 7 called_state.
Proof. apply (scheduled 1 7 [ACall 1%nat (Some 10%nat)]). vm_compute. reflexivity. Qed.

Lemma publish_wait_free_witness :
  ∃ s', steps_of 1 1 called_state s' ∧ Z.of_nat 1 <= 2 * 2 ^ 1 + 522.
Proof.
  eexists. split.
  - eapply steps_own; [apply steps_none|vm_compute; reflexivity|reflexivity|reflexivity].
  - eapply (publish_wait_free 1 7 called_state _ 1%nat (Some 10%nat));
      [lia|lia|apply called_reachable|vm_compute; reflexivity|].
    eapply steps_own; [apply steps_none|vm_compute; reflexivity|reflexivity|reflexivity].
Defined.

Lemma ring_accounting_witness :
  undecided race_state = 2 ∧
  u64 (publishAttempts (queue race_state)) =
  u64 (published (queue race_state) + rejectedFull (queue race_state)
       + rejectedClosed (queue race_state) + rejectedInvalid (queue race_state)
       + undecided race_state).
Proof.
  split; [vm_compute; reflexivity|].
  apply (ring_accounting 1 (2 ^ 64 - 1)), race_reachable.
Defined.

(** The two loads of [Depth], the first in the race and the second after it. *)
Lemma depth_no_underflow_witness :
  ∃ d, depth_step (queue settled_state) (depth_step (queue race_state) DBegin) = DReturn d ∧
  d = 2 ∧ 0 <= d.
Proof.
  exists 2. split; [vm_compute; reflexivity|]. split; [reflexivity|].
  refine (proj2 (depth_no_underflow 1 (2 ^ 64 - 1) race_state settled_state 2 _ _
    race_reachable _ _ _)); [lia|lia| |vm_compute; reflexivity|vm_compute; reflexivity].
  apply (do_actions_later ([AStep 3%nat; AReturn 3%nat] ++ repeat (AStep 2%nat) 5
    ++ [AReturn 2%nat] ++ repeat AConsumeStep 2 ++ [AConsumeReturn])).
  vm_compute. reflexivity.
Defined.
