(* ===== verification/Protocol.v ===== *)
(** * The wire protocol (internal/protocol/protocol.go)

    Batch frames and acknowledgements: [NewEncodedBatch] and [ReadBatch],
    [Ack.MarshalBinary] and [ReadAck], writing over short-writing connections,
    and [Matches], the test an outer retry is checked with.  The payload
    checksum is the CRC-32 of [GoLib]. *)

From stdpp Require Import gmap strings list fin_maps.
From Stdlib Require Import ZArith Lia.
From Stdlib.Strings Require Import Byte.
From S2P Require Import Prelude GoLib.

Definition Version : Z := 1.
Definition BatchHeaderSize : Z := 48.
Definition AckSize : Z := 24.

Definition batchMagic : list byte := [x4d; x4c; x42; x4b].
Definition ackMagic : list byte := [x4d; x4c; x41; x4b].

Definition ErrInvalidFrame : error := ErrNew "invalid protocol frame".
Definition ErrTruncated : error := ErrNew "truncated protocol frame".

(** [fmt.Errorf("%w: ...", ErrInvalidFrame)] *)
Definition invalid_frame (text : string) : error := ErrWrap text ErrInvalidFrame.
Definition truncated (text : string) : error := ErrWrap text ErrTruncated.

(** ** Acknowledgement status *)

(** [AckStatus] is a byte; the named values are 0 to 4. *)
Definition StatusAccepted : Z := 0.
Definition StatusDuplicate : Z := 1.
Definition StatusInvalid : Z := 2.
Definition StatusOverloaded : Z := 3.
Definition StatusSinkError : Z := 4.

Definition AckStatus_Valid (s : Z) : bool := s <=? StatusSinkError.

(** ** Limits *)

Record Limits := mkLimits { MaxRecords : Z; MaxPayload : Z; MaxEventBytes : Z }.

#[export] Instance Limits_eq_dec : EqDecision Limits.
Proof. solve_decision. Defined.

Definition DefaultLimits : Limits := mkLimits 1024 (Z.shiftl 16 20) (Z.shiftl 1 20).

Definition Limits_Validate (l : Limits) : result unit :=
  if (MaxRecords l =? 0) || (MaxPayload l =? 0) || (MaxEventBytes l =? 0) then
    Err (invalid_frame "protocol limits must be positive")
  else if (MaxRecords l >? Z.shiftl 1 16) || (MaxPayload l >? Z.shiftl 64 20)
       || (MaxEventBytes l >? Z.shiftl 16 20) || (MaxEventBytes l >? MaxPayload l) then
    Err (invalid_frame "protocol limits exceed safe implementation bounds")
  else Ok ().

(** ** Batches *)

Record BatchHeader := mkBatchHeader {
  ClientID : Z; BatchID : Z; RecordCount : Z; PayloadBytes : Z; PayloadCRC32 : Z;
  SentUnixNano : Z
}.

Record Batch := mkBatch {
  Batch_Header : BatchHeader; Batch_Records : list (list byte); payload : list byte
}.

Record EncodedBatch := mkEncodedBatch {
  Header : list byte; Prefixes : list (list byte); Records : list (list byte)
}.

Definition EncodedBatch_ClientID (b : EncodedBatch) : Z := be_get (slice 8 16 (Header b)).
Definition EncodedBatch_BatchID (b : EncodedBatch) : Z := be_get (slice 16 24 (Header b)).

(** The loop of [Matches]: equal lengths, running payload size and checksum. *)
Fixpoint matches_loop (kept records : list (list byte)) (payloadBytes hash : Z) : option (Z * Z) :=
  match kept, records with
  | k :: kept, record :: records =>
      if negb (len record =? len k) then None
      else matches_loop kept records (u64 (payloadBytes + (4 + len record)))
             (crc_update (crc_update hash (be_put 4 (u32 (len record)))) record)
  | _, _ => Some (payloadBytes, hash)
  end.

Definition Matches (b : EncodedBatch) (records : list (list byte)) : bool :=
  if negb (len records =? len (Records b)) then false
  else match matches_loop (Records b) records 0 0 with
       | None => false
       | Some (payloadBytes, hash) =>
           (payloadBytes =? be_get (slice 28 32 (Header b))) &&
           (hash =? be_get (slice 32 36 (Header b)))
       end.

(** The record loop of [NewEncodedBatch]. *)
Fixpoint encode_loop (limits : Limits) (records : list (list byte)) (payloadBytes hash : Z)
  : result (list (list byte) * Z * Z) :=
  match records with
  | [] => Ok ([], payloadBytes, hash)
  | record :: records =>
      if (len record =? 0) || (len record >? MaxEventBytes limits) then
        Err (invalid_frame "%w: record %d length out of range")
      else
        let payloadBytes := u64 (payloadBytes + (4 + len record)) in
        if payloadBytes >? MaxPayload limits then
          Err (invalid_frame "%w: payload exceeds configured maximum")
        else
          let prefix := be_put 4 (u32 (len record)) in
          '(prefixes, total, crc) ← encode_loop limits records payloadBytes
             (crc_update (crc_update hash prefix) record);
          Ok (prefix :: prefixes, total, crc)
  end.

(** The header array, field by field. *)
Definition encode_header (clientID batchID count payloadBytes crc sent : Z) : list byte :=
  let h := replicate 48 x00 in
  let h := blit 0 batchMagic h in
  let h := blit 4 [byte_of_Z Version] h in
  let h := blit 5 [x00] h in
  let h := blit 6 (be_put 2 BatchHeaderSize) h in
  let h := blit 8 (be_put 8 clientID) h in
  let h := blit 16 (be_put 8 batchID) h in
  let h := blit 24 (be_put 4 (u32 count)) h in
  let h := blit 28 (be_put 4 (u32 payloadBytes)) h in
  let h := blit 32 (be_put 4 crc) h in
  let h := blit 36 (be_put 4 0) h in
  blit 40 (be_put 8 (u64 sent)) h.

Definition NewEncodedBatch (clientID batchID : Z) (sentAt : Time) (records : list (list byte))
  (limits : Limits) : result EncodedBatch :=
  _ ← Limits_Validate limits;
  _ ← guard_err ((clientID =? 0) || (batchID =? 0))
        (invalid_frame "%w: client_id and batch_id must be non-zero");
  _ ← guard_err ((len records =? 0) || (len records >? MaxRecords limits))
        (invalid_frame "%w: record_count out of range");
  _ ← guard_err (IsZero sentAt || (UnixNano sentAt <=? 0))
        (invalid_frame "%w: sent_at must be positive");
  '(prefixes, payloadBytes, hash) ← encode_loop limits records 0 0;
  Ok (mkEncodedBatch
        (encode_header clientID batchID (len records) payloadBytes hash (UnixNano sentAt))
        prefixes records).

Definition Buffers (b : EncodedBatch) : list (list byte) :=
  Header b :: concat (zip_with (λ p r, [p; r]) (Prefixes b) (Records b)).

Definition Size (b : EncodedBatch) : Z :=
  foldl (λ size record, size + (4 + len record)) BatchHeaderSize (Records b).

(** ** Writing *)

(** [for len(buffer) > 0 { n, err := w.Write(buffer) ... }], the loop of
    [WriteTo] and of [WriteAck].  Every iteration that goes on consumes at least
    one byte, so [length buffer] iterations are enough ([write_loop_total]). *)
Fixpoint write_loop (fuel : nat) (w : writer) (buffer : list byte) (total : Z)
  : option (writer * Z * option error) :=
  match buffer with
  | [] => Some (w, total, None)
  | _ =>
    match fuel with
    | O => None
    | S fuel =>
      let '(w, (n, err)) := Write w buffer in
      if (n <? 0) || (n >? len buffer) then Some (w, total, Some (ErrNew "invalid writer count %d"))
      else
        let total := total + n in
        let buffer := drop (Z.to_nat n) buffer in
        match err with
        | Some e => Some (w, total, Some e)
        | None => if n =? 0 then Some (w, total, Some io_ErrShortWrite)
                  else write_loop fuel w buffer total
        end
    end
  end.

Fixpoint write_buffers (w : writer) (buffers : list (list byte)) (total : Z)
  : option (writer * Z * option error) :=
  match buffers with
  | [] => Some (w, total, None)
  | buffer :: buffers =>
      '(w, total, err) ← write_loop (length buffer) w buffer total;
      match err with
      | Some e => Some (w, total, Some e)
      | None => write_buffers w buffers total
      end
  end.

Definition WriteTo (b : EncodedBatch) (w : writer) : option (writer * Z * option error) :=
  write_buffers w (Buffers b) 0.

(** [net.Buffers.WriteTo] on a plain writer: one call per buffer, the first
    error ends it. *)
Fixpoint Buffers_WriteTo (w : writer) (buffers : list (list byte)) (total : Z)
  : writer * Z * option error :=
  match buffers with
  | [] => (w, total, None)
  | buffer :: buffers =>
      let '(w, (n, err)) := Write w buffer in
      match err with
      | Some e => (w, total + n, Some e)
      | None => Buffers_WriteTo w buffers (total + n)
      end
  end.

Definition WriteVectoredTo (b : EncodedBatch) (w : writer) : writer * Z * option error :=
  let '(w, written, err) := Buffers_WriteTo w (Buffers b) 0 in
  match err with
  | None => if written =? Size b then (w, written, None) else (w, written, Some io_ErrShortWrite)
  | Some e => (w, written, Some e)
  end.

(** ** Reading *)

Definition parseBatchHeader (raw : list byte) (limits : Limits) : result BatchHeader :=
  _ ← guard_err (negb (len raw =? BatchHeaderSize) || negb (bool_decide (slice 0 4 raw = batchMagic)))
        (invalid_frame "%w: bad batch magic");
  _ ← guard_err (negb (be_get (slice 4 5 raw) =? Version) || negb (be_get (slice 5 6 raw) =? 0)
                 || negb (be_get (slice 6 8 raw) =? BatchHeaderSize))
        (invalid_frame "%w: unsupported batch header");
  let header := mkBatchHeader
    (be_get (slice 8 16 raw)) (be_get (slice 16 24 raw)) (be_get (slice 24 28 raw))
    (be_get (slice 28 32 raw)) (be_get (slice 32 36 raw)) (be_get (slice 40 48 raw)) in
  _ ← guard_err ((ClientID header =? 0) || (BatchID header =? 0) || (SentUnixNano header =? 0)
                 || negb (be_get (slice 36 40 raw) =? 0))
        (invalid_frame "%w: invalid required or reserved header field");
  _ ← guard_err ((RecordCount header =? 0) || (RecordCount header >? MaxRecords limits))
        (invalid_frame "%w: record_count out of range");
  _ ← guard_err ((PayloadBytes header >? MaxPayload limits)
                 || (PayloadBytes header <? u64 (RecordCount header * 4)))
        (invalid_frame "%w: payload_bytes out of range");
  Ok header.

(** The record loop of [ReadBatch]: the records and the final offset. *)
Fixpoint record_loop (n : nat) (payload : list byte) (offset : nat) (limits : Limits)
  : result (list (list byte) * nat) :=
  match n with
  | O => Ok ([], offset)
  | S n =>
      if len payload - Z.of_nat offset <? 4 then
        Err (invalid_frame "%w: missing record %d length")
      else
        let length_ := be_get (slice offset (offset + 4) payload) in
        let offset := (offset + 4)%nat in
        if (length_ =? 0) || (length_ >? MaxEventBytes limits)
           || (length_ >? len payload - Z.of_nat offset) then
          Err (invalid_frame "%w: record %d length out of range")
        else
          let next := (offset + Z.to_nat length_)%nat in
          '(records, final) ← record_loop n payload next limits;
          Ok (slice offset next payload :: records, final)
  end.

Definition decode_payload (header : BatchHeader) (payload : list byte) (limits : Limits)
  : result Batch :=
  _ ← guard_err (negb (ChecksumIEEE payload =? PayloadCRC32 header))
        (invalid_frame "%w: payload crc mismatch");
  '(records, offset) ← record_loop (Z.to_nat (RecordCount header)) payload 0 limits;
  _ ← guard_err (negb (offset =? length payload)%nat)
        (invalid_frame "%w: record count and payload length disagree");
  Ok (mkBatch header records payload).

Definition ReadBatch (r : reader) (limits : Limits) : result Batch * reader :=
  match Limits_Validate limits with
  | Err e => (Err e, r)
  | Ok _ =>
    match ReadFull 48 r with
    | (Err e, r) =>
        (Err (if errors_Is e "EOF" then io_EOF else truncated "%w: batch header: %v"), r)
    | (Ok raw, r) =>
      match parseBatchHeader raw limits with
      | Err e => (Err e, r)
      | Ok header =>
        match ReadFull (Z.to_nat (PayloadBytes header)) r with
        | (Err _, r) => (Err (truncated "%w: batch payload: %v"), r)
        | (Ok payload, r) => (decode_payload header payload limits, r)
        end
      end
    end
  end.

(** ** Acknowledgements *)

Record Ack := mkAck { Status : Z; Ack_ClientID : Z; Ack_BatchID : Z }.

Definition MarshalBinary (a : Ack) : result (list byte) :=
  _ ← guard_err (negb (AckStatus_Valid (Status a)) || (Ack_ClientID a =? 0) || (Ack_BatchID a =? 0))
        (invalid_frame "%w: invalid ack fields");
  let raw := replicate 24 x00 in
  let raw := blit 0 ackMagic raw in
  let raw := blit 4 [byte_of_Z Version] raw in
  let raw := blit 5 [byte_of_Z (Status a)] raw in
  let raw := blit 6 (be_put 2 AckSize) raw in
  let raw := blit 8 (be_put 8 (Ack_ClientID a)) raw in
  Ok (blit 16 (be_put 8 (Ack_BatchID a)) raw).

Definition ReadAck (r : reader) : result Ack * reader :=
  match ReadFull 24 r with
  | (Err _, r) => (Err (truncated "%w: ack: %v"), r)
  | (Ok raw, r) =>
      (_ ← guard_err (negb (bool_decide (slice 0 4 raw = ackMagic))
                      || negb (be_get (slice 4 5 raw) =? Version)
                      || negb (be_get (slice 6 8 raw) =? AckSize))
             (invalid_frame "%w: unsupported ack header");
       let ack := mkAck (be_get (slice 5 6 raw)) (be_get (slice 8 16 raw))
                    (be_get (slice 16 24 raw)) in
       _ ← guard_err (negb (AckStatus_Valid (Status ack)) || (Ack_ClientID ack =? 0)
                      || (Ack_BatchID ack =? 0))
             (invalid_frame "%w: invalid ack fields");
       Ok ack, r)
  end.

Definition WriteAck (w : writer) (ack : Ack) : option (writer * option error) :=
  match MarshalBinary ack with
  | Err e => Some (w, Some e)
  | Ok raw => '(w, _, err) ← write_loop (length raw) w raw 0; Some (w, err)
  end.

(** ** The frame layout *)

(** One length-prefixed record, and the payload of a batch. *)
Definition frame (record : list byte) : list byte := be_put 4 (len record) ++ record.
Definition frames (records : list (list byte)) : list byte := concat (map frame records).

(** The header as the concatenation of its fields. *)
Definition header_bytes (clientID batchID count payloadBytes crc sent : Z) : list byte :=
  batchMagic ++ [byte_of_Z Version] ++ [x00] ++ be_put 2 BatchHeaderSize ++ be_put 8 clientID ++
  be_put 8 batchID ++ be_put 4 count ++ be_put 4 payloadBytes ++ be_put 4 crc ++ be_put 4 0 ++
  be_put 8 sent.

(** A record a limit admits. *)
Definition record_ok (limits : Limits) (record : list byte) : Prop :=
  0 < len record <= MaxEventBytes limits.

#[export] Instance record_ok_dec limits record : Decision (record_ok limits record).
Proof. unfold record_ok. apply _. Defined.

Lemma encode_header_bytes c b n p k s :
  encode_header c b n p k s = header_bytes c b n p k s.
Proof.
  unfold header_bytes. rewrite <- (be_put_u32 n), <- (be_put_u32 p).
  rewrite <- (be_put_mod 8 s). unfold encode_header.
  cbv -[byte_of_Z Z.div u32 u64 Z.modulo Version BatchHeaderSize]. done.
Qed.

Lemma length_header_bytes c b n p k s : length (header_bytes c b n p k s) = 48%nat.
Proof. unfold header_bytes. rewrite !length_app, !length_be_put. done. Qed.

Lemma frame_length record : len (frame record) = 4 + len record.
Proof. unfold frame. rewrite length_app, length_be_put. lia. Qed.

Lemma frames_cons record records : frames (record :: records) = frame record ++ frames records.
Proof. done. Qed.

Lemma frames_length_cons record records :
  len (frames (record :: records)) = 4 + len record + len (frames records).
Proof. rewrite frames_cons, length_app. pose proof (frame_length record). lia. Qed.

Lemma frames_min records : 4 * len records <= len (frames records).
Proof.
  induction records as [|r records IH]; [done|].
  rewrite frames_length_cons. cbn [length]. lia.
Qed.

Lemma Limits_Validate_bounds limits u :
  Limits_Validate limits = Ok u →
  MaxRecords limits <= 2 ^ 16 ∧ MaxPayload limits <= 2 ^ 26 ∧ MaxEventBytes limits <= 2 ^ 24.
Proof. unfold Limits_Validate. intros H. destruct_ifs; [done..|]. zbool.
  change (Z.shiftl 1 16) with (2 ^ 16) in *. change (Z.shiftl 64 20) with (2 ^ 26) in *.
  change (Z.shiftl 16 20) with (2 ^ 24) in *. done. Qed.

(** What the record loop of [NewEncodedBatch] computes. *)
Lemma encode_loop_Ok limits records u : ∀ p0 h0 out,
  Limits_Validate limits = Ok u → 0 <= p0 <= 2 ^ 26 → (records = [] → p0 <= MaxPayload limits) →
  encode_loop limits records p0 h0 = Ok out ↔
  Forall (record_ok limits) records ∧ p0 + len (frames records) <= MaxPayload limits ∧
  out = (map (λ r, be_put 4 (len r)) records, p0 + len (frames records),
         crc_update h0 (frames records)).
Proof.
  induction records as [|r records IH]; intros p0 h0 out Hl Hp Hn; cbn [encode_loop].
  - change (len (frames [])) with 0. rewrite Z.add_0_r.
    assert (Hc : crc_update h0 (frames []) = h0).
    { unfold crc_update. simpl. by rewrite Z.lxor_assoc, Z.lxor_nilpotent, Z.lxor_0_r. }
    rewrite Hc. split; [intros [= <-]; auto|by intros (_ & _ & ->)].
  - pose proof (Limits_Validate_bounds _ _ Hl) as (? & ? & ?).
    rewrite Forall_cons, frames_length_cons. unfold record_ok at 1.
    destruct (_ || _) eqn:E; [split; [done|]; intros ([? _] & _); zbool; lia|].
    zbool. rewrite (u64_small (p0 + _)) by lia.
    destruct (_ >? _) eqn:E2; zbool; [split; [done|]; lia|].
    rewrite crc_update_app, be_put_u32. fold (frame r). rewrite bind_Ok.
    setoid_rewrite IH; [|done|lia..]. rewrite crc_update_app, <- frames_cons.
    replace (p0 + (4 + len r + len (frames records)))
      with (p0 + (4 + len r) + len (frames records)) by lia.
    split; [intros (? & (? & ? & ->) & [= <-])|intros ((? & ?) & ? & ->)].
    + pose proof (len_nonneg r). split; [split; [lia|done]|done].
    + eexists (_, _, _). by split.
Qed.

(** When [NewEncodedBatch] succeeds, and with what. *)
Definition encodable (c b : Z) (t : Time) (records : list (list byte)) (limits : Limits) : Prop :=
  Limits_Validate limits = Ok () ∧ c ≠ 0 ∧ b ≠ 0 ∧ 0 < len records <= MaxRecords limits ∧
  IsZero t = false ∧ 0 < UnixNano t ∧
  Forall (record_ok limits) records ∧ len (frames records) <= MaxPayload limits.

Definition encoding (c b : Z) (t : Time) (records : list (list byte)) : EncodedBatch :=
  mkEncodedBatch
    (header_bytes c b (len records) (len (frames records)) (ChecksumIEEE (frames records))
       (UnixNano t))
    (map (λ r, be_put 4 (len r)) records) records.

Lemma NewEncodedBatch_spec c b t records limits e :
  NewEncodedBatch c b t records limits = Ok e ↔
  encodable c b t records limits ∧ e = encoding c b t records.
Proof.
  unfold NewEncodedBatch, encodable. rewrite bind_Ok. setoid_rewrite bind_Ok.
  setoid_rewrite bind_Ok. setoid_rewrite bind_Ok. setoid_rewrite bind_Ok.
  setoid_rewrite guard_Ok. split.
  - intros (u & Hl & _ & H1 & _ & H2 & _ & H3 & [[pre p] h] & H4 & [= <-]). zbool.
    assert (records ≠ []) by (intros ->; simpl in *; lia).
    apply (encode_loop_Ok _ _ u) in H4 as (? & ? & [= -> -> ->]); [|done..].
    destruct u. rewrite encode_header_bytes. repeat split; try done; lia.
  - intros ((Hl & ? & ? & ? & Ht & ? & ? & ?) & ->).
    assert (records ≠ []) by (intros ->; simpl in *; lia).
    exists (). split; [done|]. exists (). split; [by rewrite !(proj2 (Z.eqb_neq _ _))|].
    exists (). split; [rewrite (proj2 (Z.eqb_neq _ _)), Z.gtb_ltb, (proj2 (Z.ltb_ge _ _)) by lia; done|].
    exists (). split; [rewrite Ht, (proj2 (Z.leb_gt _ _)) by lia; done|].
    eexists (_, _, _). split; [apply (encode_loop_Ok _ _ () 0 0); done|].
    simpl. by rewrite encode_header_bytes.
Qed.

(** ** Reading back *)

Lemma record_loop_frames limits records : ∀ pre post,
  MaxEventBytes limits <= 2 ^ 24 → Forall (record_ok limits) records →
  record_loop (length records) (pre ++ frames records ++ post) (length pre) limits =
  Ok (records, (length pre + length (frames records))%nat).
Proof.
  induction records as [|r records IH]; intros pre post Hm Hall; cbn [length record_loop].
  - f_equal. f_equal. change (length (frames [])) with 0%nat. lia.
  - apply Forall_cons in Hall as [[Hr1 Hr2] Hall].
    rewrite frames_cons. unfold frame. rewrite <- !app_assoc.
    rewrite (slice_middle pre (be_put 4 (len r)) _ _ _ eq_refl) by (by rewrite length_be_put).
    rewrite be_get_put_small by lia. rewrite (proj2 (Z.ltb_ge _ 4)).
    2: { rewrite !length_app, length_be_put. lia. }
    rewrite (proj2 (Z.eqb_neq _ _)), Z.gtb_ltb, (proj2 (Z.ltb_ge _ _)) by lia.
    cbn [orb]. rewrite Z.gtb_ltb, (proj2 (Z.ltb_ge _ _)).
    2: { rewrite !length_app, length_be_put. lia. }
    rewrite Nat2Z.id, (app_assoc pre).
    rewrite (slice_middle (pre ++ be_put 4 (len r)) r) by (rewrite length_app, length_be_put; lia).
    rewrite (app_assoc _ r).
    replace (length pre + 4 + length r)%nat with (length ((pre ++ be_put 4 (len r)) ++ r))
      by (rewrite !length_app, length_be_put; lia).
    rewrite IH by done. simpl. do 2 f_equal.
    rewrite !length_app, length_be_put. lia.
Qed.

Lemma record_loop_Ok limits n payload : ∀ off records final,
  record_loop n payload off limits = Ok (records, final) → (off <= length payload)%nat →
  length records = n ∧ Forall (record_ok limits) records ∧ (off <= final <= length payload)%nat ∧
  slice off final payload = frames records.
Proof.
  induction n as [|n IH]; intros off records final; cbn [record_loop].
  - intros [= <- <-] ?. split_and!; [done..|lia|lia|]. unfold slice. by rewrite Nat.sub_diag.
  - destruct (_ <? 4) eqn:E1; [done|]. destruct (_ || _) eqn:E2; [done|].
    set (L := be_get (slice off (off + 4) payload)) in *. zbool.
    pose proof (be_get_slice_range off (off + 4) payload) as HL. fold L in HL.
    rewrite bind_Ok. intros ([records' final'] & Hloop & [= <- <-]) Hoff.
    set (next := (off + 4 + Z.to_nat L)%nat) in *.
    apply IH in Hloop as (<- & Hall & Hfin & Hs); [|lia].
    assert (Hlen : len (slice (off + 4) next payload) = L) by (rewrite length_slice; lia).
    split_and!; [done| |lia|lia|].
    + constructor; [|done]. unfold record_ok. lia.
    + rewrite frames_cons, <- Hs. unfold frame. rewrite Hlen. unfold L.
      rewrite be_put_slice by lia. rewrite !slice_cat by lia. done.
Qed.

(** The header parses to its fields, for fields of their machine width. *)
Lemma parse_header_bytes c b n p k s limits :
  0 < c < 2 ^ 64 → 0 < b < 2 ^ 64 → 0 < n <= MaxRecords limits → n < 2 ^ 32 →
  n * 4 <= p <= MaxPayload limits → p < 2 ^ 32 → w32 k → 0 < s < 2 ^ 64 →
  parseBatchHeader (header_bytes c b n p k s) limits = Ok (mkBatchHeader c b n p k s).
Proof.
  intros Hc Hb Hn Hn' Hp Hp' Hk Hs. unfold parseBatchHeader.
  rewrite length_header_bytes.
  change (slice 0 4 _) with batchMagic. change (slice 4 5 _) with [x01].
  change (slice 5 6 _) with [x00]. change (slice 6 8 _) with (be_put 2 48).
  change (slice 8 16 _) with (be_put 8 c). change (slice 16 24 _) with (be_put 8 b).
  change (slice 24 28 _) with (be_put 4 n). change (slice 28 32 _) with (be_put 4 p).
  change (slice 32 36 _) with (be_put 4 k). change (slice 36 40 _) with (be_put 4 0).
  change (slice 40 48 _) with (be_put 8 s).
  rewrite !be_get_put_small by (unfold w32 in *; simpl; lia).
  change (negb (len (repeat x00 48) =? BatchHeaderSize)) with false.
  rewrite bool_decide_eq_true_2 by done. simpl.
  rewrite !(proj2 (Z.eqb_neq _ 0)) by lia. simpl.
  rewrite (u64_small (n * 4)) by lia. ztest. done.
Qed.

Lemma parse_header_Ok raw limits h :
  parseBatchHeader raw limits = Ok h →
  raw = header_bytes (ClientID h) (BatchID h) (RecordCount h) (PayloadBytes h) (PayloadCRC32 h)
          (SentUnixNano h) ∧
  0 < ClientID h < 2 ^ 64 ∧ 0 < BatchID h < 2 ^ 64 ∧ 0 < SentUnixNano h ∧
  0 < RecordCount h <= MaxRecords limits ∧ 0 <= PayloadBytes h <= MaxPayload limits.
Proof.
  unfold parseBatchHeader. rewrite bind_Ok. setoid_rewrite bind_Ok.
  intros (_ & H1%guard_Ok & _ & H2%guard_Ok & H3).
  apply bind_Ok in H3 as (_ & H3%guard_Ok & H4).
  apply bind_Ok in H4 as (_ & H4%guard_Ok & H5).
  apply bind_Ok in H5 as (_ & H5%guard_Ok & [= <-]). cbn in *. zbool.
  pose proof (be_get_slice_range 40 48 raw). pose proof (be_get_slice_range 24 28 raw).
  pose proof (be_get_slice_range 8 16 raw). pose proof (be_get_slice_range 16 24 raw).
  pose proof (be_get_slice_range 28 32 raw).
  change (256 ^ Z.of_nat (16 - 8)) with (2 ^ 64) in *.
  change (256 ^ Z.of_nat (24 - 16)) with (2 ^ 64) in *.
  assert (Hlen : length raw = 48%nat) by (unfold BatchHeaderSize in *; lia).
  split; [|repeat split; try done; lia]. unfold header_bytes.
  assert (Hf : ∀ i j x, (i <= j <= 48)%nat → be_get (slice i j raw) = x →
    be_put (j - i) x = slice i j raw).
  { intros i j x ? <-. apply be_put_slice; lia. }
  assert (Hm : slice 0 4 raw = batchMagic) by done.
  assert (Hr : raw = slice 0 4 raw ++ slice 4 5 raw ++ slice 5 6 raw ++ slice 6 8 raw ++
    slice 8 16 raw ++ slice 16 24 raw ++ slice 24 28 raw ++ slice 28 32 raw ++ slice 32 36 raw ++
    slice 36 40 raw ++ slice 40 48 raw).
  { rewrite !slice_cat by lia. by rewrite <- Hlen, slice_all. }
  rewrite Hr at 1. rewrite !be_put_slice by lia. rewrite Hm.
  rewrite <- (Hf 4%nat 5%nat Version), <- (Hf 5%nat 6%nat 0), <- (Hf 6%nat 8%nat BatchHeaderSize),
    <- (Hf 36%nat 40%nat 0) by (done || lia).
  done.
Qed.

Lemma Buffers_encoding c b t records :
  concat (Buffers (encoding c b t records)) =
  Header (encoding c b t records) ++ frames records.
Proof.
  unfold Buffers. cbn [concat]. f_equal. simpl.
  induction records as [|r records IH]; [done|]. simpl. rewrite IH.
  rewrite frames_cons. unfold frame. by rewrite <- app_assoc.
Qed.

Lemma ReadBatch_frame limits raw h p rest e :
  Limits_Validate limits = Ok () → length raw = 48%nat → parseBatchHeader raw limits = Ok h →
  PayloadBytes h = len p →
  ReadBatch (mkReader (raw ++ p ++ rest) e) limits = (decode_payload h p limits, mkReader rest e).
Proof.
  intros Hl Hr Hh Hp. unfold ReadBatch. rewrite Hl, <- Hr, ReadFull_app, Hh, Hp, Nat2Z.id.
  by rewrite ReadFull_app.
Qed.

Lemma ReadBatch_Ok r limits b r' :
  ReadBatch r limits = (Ok b, r') →
  ∃ raw p, Limits_Validate limits = Ok () ∧ length raw = 48%nat ∧
    parseBatchHeader raw limits = Ok (Batch_Header b) ∧ PayloadBytes (Batch_Header b) = len p ∧
    decode_payload (Batch_Header b) p limits = Ok b ∧
    rd_data r = raw ++ p ++ rd_data r' ∧ rd_end r' = rd_end r.
Proof.
  unfold ReadBatch. destruct (Limits_Validate limits) as [[]|] eqn:Hl; [|done].
  destruct (ReadFull 48 r) as [[raw|] r1] eqn:H1; [|done].
  destruct (parseBatchHeader raw limits) as [h|] eqn:Hh; [|done].
  destruct (ReadFull _ r1) as [[p|] r2] eqn:H2; [|done]. intros [= Hd <-].
  apply ReadFull_Ok in H1 as (H1 & ? & ?). apply ReadFull_Ok in H2 as (H2 & Hp & ?).
  assert (Hb : Batch_Header b = h).
  { revert Hd. unfold decode_payload. rewrite bind_Ok. intros (_ & _ & Hd).
    apply bind_Ok in Hd as ([] & _ & Hd). by apply bind_Ok in Hd as (_ & _ & [= <-]). }
  exists raw, p. rewrite Hb, H1, H2. repeat split; try congruence.
  apply parse_header_Ok in Hh as (_ & _ & _ & _ & _ & ? & _). lia.
Qed.

Lemma decode_encoding limits c b t records :
  encodable c b t records limits →
  decode_payload
    (mkBatchHeader c b (len records) (len (frames records)) (ChecksumIEEE (frames records))
       (UnixNano t)) (frames records) limits =
  Ok (mkBatch
    (mkBatchHeader c b (len records) (len (frames records)) (ChecksumIEEE (frames records))
       (UnixNano t)) records (frames records)).
Proof.
  intros (Hl & _ & _ & _ & _ & _ & Hall & _). apply Limits_Validate_bounds in Hl as (_ & _ & Hm).
  unfold decode_payload. cbn [PayloadCRC32 RecordCount].
  rewrite Z.eqb_refl. cbn [negb guard_err mbind result_bind]. rewrite Nat2Z.id.
  pose proof (record_loop_frames limits records [] [] Hm Hall) as Hloop.
  rewrite app_nil_r in Hloop. cbn in Hloop. cbn. rewrite Hloop. cbn.
  by rewrite Nat.eqb_refl.
Qed.

Lemma parse_encoding limits c b t records :
  encodable c b t records limits → 0 < c < 2 ^ 64 → 0 < b < 2 ^ 64 → UnixNano t < 2 ^ 63 →
  parseBatchHeader (Header (encoding c b t records)) limits =
  Ok (mkBatchHeader c b (len records) (len (frames records)) (ChecksumIEEE (frames records))
       (UnixNano t)).
Proof.
  intros (Hl & _ & _ & Hn & _ & Ht & Hall & Hp) ? ? ?.
  apply Limits_Validate_bounds in Hl as (? & ? & ?).
  pose proof (frames_min records).
  apply parse_header_bytes; try lia. apply w32_crc_update, w32_0.
Qed.

Lemma decode_payload_Ok h p limits b :
  decode_payload h p limits = Ok b → 0 <= RecordCount h →
  len (Batch_Records b) = RecordCount h ∧ Forall (record_ok limits) (Batch_Records b) ∧
  p = frames (Batch_Records b) ∧ PayloadCRC32 h = ChecksumIEEE (frames (Batch_Records b)).
Proof.
  unfold decode_payload. rewrite bind_Ok. intros (_ & H1%guard_Ok & H2) ?.
  apply bind_Ok in H2 as ([records off] & H2 & H3).
  apply bind_Ok in H3 as (_ & H3%guard_Ok & [= <-]). zbool. apply Nat.eqb_eq in H3.
  apply record_loop_Ok in H2 as (? & ? & ? & Hs); [|lia]. simpl.
  rewrite H3, slice_all in Hs. subst p. repeat split; [lia|done|done].
Qed.

Lemma foldl_size records : ∀ z,
  foldl (λ (size : Z) (record : list byte), size + (4 + len record)) z records =
  z + len (frames records).
Proof.
  induction records as [|r records IH]; intros z; cbn [foldl]; [change (len _) with 0; lia|].
  rewrite IH, frames_length_cons. lia.
Qed.

Lemma Size_encoding c b t records :
  Size (encoding c b t records) = 48 + len (frames records).
Proof. apply foldl_size. Qed.

(** ** Properties of the batch frame *)

(** C13. Round trip: whatever [NewEncodedBatch] accepts, [ReadBatch] with the
    same limits reads back from the bytes [Buffers] puts on the wire: the same
    identity, time and records, leaving the following bytes unread. *)
Theorem batch_roundtrip c b t records limits e rest fin :
  0 <= c < 2 ^ 64 → 0 <= b < 2 ^ 64 → UnixNano t < 2 ^ 63 →
  NewEncodedBatch c b t records limits = Ok e →
  ReadBatch (mkReader (concat (Buffers e) ++ rest) fin) limits =
  (Ok (mkBatch
     (mkBatchHeader c b (len records) (Size e - BatchHeaderSize) (ChecksumIEEE (frames records))
        (UnixNano t)) records (frames records)),
   mkReader rest fin).
Proof.
  intros Hc Hb Ht [He ->]%NewEncodedBatch_spec.
  assert (0 < c ∧ 0 < b) as [? ?] by (destruct He as (_ & ? & ? & _); lia).
  rewrite Size_encoding. unfold BatchHeaderSize. rewrite Z.add_simpl_l.
  rewrite Buffers_encoding, <- app_assoc.
  erewrite ReadBatch_frame; [|apply He|apply length_header_bytes|eapply parse_encoding; (done || lia)|done].
  by rewrite decode_encoding.
Qed.

Definition sample_limits : Limits := mkLimits 4 64 16.
Definition sample_time : Time := mkTime false 1700000000000000000.
Definition sample_records : list (list byte) := [[x68; x69]; [x79; x6f; x0a]].

Lemma batch_roundtrip_witness :
  match NewEncodedBatch 7 1 sample_time sample_records sample_limits with
  | Ok e => (ReadBatch (mkReader (concat (Buffers e) ++ [x01; x02]) io_EOF) sample_limits).2 =
            mkReader [x01; x02] io_EOF
  | Err _ => False
  end.
Proof.
  destruct (NewEncodedBatch 7 1 sample_time sample_records sample_limits) as [e|] eqn:E;
    [|vm_compute in E; discriminate].
  assert (Ht : UnixNano sample_time < 2 ^ 63) by (vm_compute; reflexivity).
  rewrite (batch_roundtrip 7 1 sample_time sample_records sample_limits e [x01; x02] io_EOF
             ltac:(lia) ltac:(lia) Ht E). reflexivity.
Defined.

(** The frame format is canonical: the bytes [ReadBatch] consumes for an
    accepted batch are exactly the ones [NewEncodedBatch] produces for the batch
    it returns, so no two byte sequences decode to the same batch and no
    trailing or reserved byte is ignored. *)
Theorem batch_canonical r limits b r' :
  ReadBatch r limits = (Ok b, r') →
  ∃ e, NewEncodedBatch (ClientID (Batch_Header b)) (BatchID (Batch_Header b))
         (mkTime false (SentUnixNano (Batch_Header b))) (Batch_Records b) limits = Ok e ∧
       rd_data r = concat (Buffers e) ++ rd_data r' ∧ rd_end r' = rd_end r.
Proof.
  intros (raw & p & Hl & Hlen & Hh & Hp & Hd & Hr & Hend)%ReadBatch_Ok.
  apply parse_header_Ok in Hh as (Hraw & Hc & Hb & Hs & Hn & Hpay).
  apply decode_payload_Ok in Hd as (Hn' & Hall & Hfr & Hcrc); [|lia].
  subst p. exists (encoding (ClientID (Batch_Header b)) (BatchID (Batch_Header b))
    (mkTime false (SentUnixNano (Batch_Header b))) (Batch_Records b)).
  split; [|split; [|done]].
  - apply NewEncodedBatch_spec. split; [|done].
    unfold encodable. rewrite <- Hp. split_and!; cbn [IsZero UnixNano]; (done || lia).
  - rewrite Buffers_encoding, Hr, <- app_assoc. f_equal. rewrite Hraw. simpl.
    by rewrite <- Hcrc, <- Hp, Hn'.
Qed.

Lemma batch_canonical_witness :
  ∃ r b r', ReadBatch r sample_limits = (Ok b, r') ∧ length (rd_data r) = 62%nat ∧
  ∃ e, NewEncodedBatch (ClientID (Batch_Header b)) (BatchID (Batch_Header b))
         (mkTime false (SentUnixNano (Batch_Header b))) (Batch_Records b) sample_limits = Ok e ∧
       rd_data r = concat (Buffers e) ++ rd_data r' ∧ rd_end r' = rd_end r.
Proof.
  set (e := encoding 7 1 sample_time sample_records).
  set (r := mkReader (concat (Buffers e) ++ [x07]) io_EOF).
  assert (E : ∃ b r', ReadBatch r sample_limits = (Ok b, r')) by (vm_compute; eauto).
  destruct E as (b & r' & E). exists r, b, r'. split; [exact E|]. split; [reflexivity|].
  exact (batch_canonical r sample_limits b r' E).
Defined.

(** C18. A frame whose payload differs from the encoded one in a single byte,
    length prefixes included, is never accepted. *)
Theorem batch_corruption_detected c b t records limits e p x y q rest fin :
  0 <= c < 2 ^ 64 → 0 <= b < 2 ^ 64 → UnixNano t < 2 ^ 63 →
  NewEncodedBatch c b t records limits = Ok e →
  concat (Buffers e) = Header e ++ p ++ x :: q → x ≠ y →
  ReadBatch (mkReader (Header e ++ p ++ y :: q ++ rest) fin) limits =
  (Err (invalid_frame "%w: payload crc mismatch"), mkReader rest fin).
Proof.
  intros Hc Hb Ht [He ->]%NewEncodedBatch_spec Hcat Hxy.
  assert (0 < c ∧ 0 < b) as [? ?] by (destruct He as (_ & ? & ? & _); lia).
  rewrite Buffers_encoding in Hcat. apply app_inv_head in Hcat.
  rewrite (app_comm_cons q), (app_assoc p).
  erewrite ReadBatch_frame; [|apply He|apply length_header_bytes|eapply parse_encoding; (done || lia)|].
  2: { simpl. rewrite Hcat, !length_app. done. }
  unfold decode_payload. simpl. rewrite (proj2 (Z.eqb_neq _ _)); [done|].
  unfold ChecksumIEEE. rewrite Hcat. intros Heq%crc_update_one_byte; auto using w32_0.
Qed.

Lemma batch_corruption_detected_witness :
  let e := encoding 7 1 sample_time sample_records in
  ReadBatch (mkReader (Header e ++ be_put 4 2 ++ x68 :: x70 :: frame [x79; x6f; x0a] ++ []) io_EOF)
    sample_limits = (Err (invalid_frame "%w: payload crc mismatch"), mkReader [] io_EOF).
Proof.
  apply (batch_corruption_detected 7 1 sample_time sample_records sample_limits
           (encoding 7 1 sample_time sample_records) (be_put 4 2 ++ [x68]) x69 x70
           (frame [x79; x6f; x0a]) [] io_EOF);
    try (vm_compute; split; congruence || reflexivity); try discriminate; vm_compute; reflexivity.
Defined.

(** ** Writing over a short-writing connection *)

Lemma write_loop_total : ∀ fuel w buffer total,
  (length buffer <= fuel)%nat → is_Some (write_loop fuel w buffer total).
Proof.
  induction fuel as [|fuel IH]; intros w [|x buffer] total Hf; cbn [write_loop]; try done.
  - simpl in Hf. lia.
  - destruct (Write w (x :: buffer)) as [w1 [n err]]. destruct (_ || _) eqn:E1; [done|].
    destruct err; [done|]. destruct (n =? 0) eqn:E2; [done|].
    apply IH. zbool. rewrite length_drop. simpl in *. lia.
Qed.

Lemma write_loop_delivers : ∀ fuel w buffer total w' total' err,
  writer_ok w → write_loop fuel w buffer total = Some (w', total', err) →
  delivered w w' buffer (total' - total) err.
Proof.
  induction fuel as [|fuel IH]; intros w [|x buffer] total w' total' err Hw;
    cbn [write_loop]; try done; try (by intros [= <- <- <-]; unfold delivered;
      rewrite Z.sub_diag, app_nil_r).
  specialize (Hw (w_calls w) (x :: buffer)) as Hn.
  unfold Write. destruct (w_resp w (w_calls w) (x :: buffer)) as [n werr]. cbn [fst] in Hn.
  cbn [fst]. ztest. cbn [orb]. set (w1 := mkWriter _ _ _).
  assert (Hd : ∀ e, delivered w w1 (x :: buffer) n (Some e)) by done.
  destruct werr as [e|]; [intros [= <- <- <-]; rewrite Z.add_simpl_l; done|].
  destruct (n =? 0); [intros [= <- <- <-]; rewrite Z.add_simpl_l; done|].
  intros Hl%IH; [|done]. replace (total' - total) with (n + (total' - (total + n))) by lia.
  by apply delivered_take with (w1 := w1).
Qed.

Lemma write_loop_takes fuel w buffer total :
  takes w → (length buffer <= fuel)%nat →
  ∃ w', write_loop fuel w buffer total = Some (w', total + len buffer, None) ∧
    w_out w' = w_out w ++ buffer ∧ w_resp w' = w_resp w.
Proof.
  intros Hw Hf. destruct buffer as [|x buffer].
  - exists w. change (len []) with 0. rewrite Z.add_0_r, app_nil_r. by destruct fuel.
  - destruct fuel as [|fuel]; [cbn in Hf; lia|]. cbn [write_loop]. unfold Write. rewrite (Hw _ _).
    pose proof (length_cons x buffer). ztest. cbn [orb]. rewrite Nat2Z.id, drop_all. ztest.
    eexists. split; [by destruct fuel|]. cbn [w_out w_resp fst]. by rewrite Nat2Z.id, firstn_all.
Qed.

Lemma write_buffers_total buffers : ∀ w total, is_Some (write_buffers w buffers total).
Proof.
  induction buffers as [|b buffers IH]; intros w total; cbn [write_buffers]; [done|].
  destruct (write_loop_total (length b) w b total (le_n _)) as [[[w1 t1] [e|]] ->]; simpl; eauto.
Qed.

Lemma write_buffers_delivers buffers : ∀ w total w' total' err,
  writer_ok w → write_buffers w buffers total = Some (w', total', err) →
  delivered w w' (concat buffers) (total' - total) err.
Proof.
  induction buffers as [|b buffers IH]; intros w total w' total' err Hw; cbn [write_buffers].
  - intros [= <- <- <-]. unfold delivered. by rewrite Z.sub_diag, app_nil_r.
  - destruct (write_loop (length b) w b total) as [[[w1 t1] e1]|] eqn:E; [|done]. simpl.
    apply write_loop_delivers in E; [|done].
    replace (total' - total) with ((t1 - total) + (total' - t1)) by lia.
    destruct e1 as [e|].
    + intros [= <- <- <-]. rewrite Z.sub_diag, Z.add_0_r.
      destruct E as (? & Ho & ? & ?). unfold delivered. rewrite length_app.
      split_and!; [lia..| |done|done]. rewrite Ho, take_app_le by lia. done.
    + intros Hb%IH; [by eapply delivered_app|].
      intros i b'. destruct E as (_ & _ & -> & _). apply Hw.
Qed.

(** [WriteTo] terminates on every connection, and on one that respects the
    [io.Writer] contract (short writes and errors included) it delivers exactly
    the first [n] bytes of the frame, where [n] is the count it returns; without
    an error it has delivered the whole frame. *)
Theorem WriteTo_delivers c b t records limits e w :
  NewEncodedBatch c b t records limits = Ok e →
  ∃ w' n err, WriteTo e w = Some (w', n, err) ∧
    (writer_ok w →
       0 <= n <= Size e ∧ w_out w' = w_out w ++ take (Z.to_nat n) (concat (Buffers e)) ∧
       (err = None → n = Size e ∧ w_out w' = w_out w ++ concat (Buffers e))).
Proof.
  intros [He ->]%NewEncodedBatch_spec. unfold WriteTo.
  destruct (write_buffers_total (Buffers (encoding c b t records)) w 0) as [[[w' n] err] E].
  exists w', n, err. split; [done|]. intros Hw.
  apply write_buffers_delivers in E as (Hn & Ho & _ & Herr); [|done].
  rewrite Z.sub_0_r in *.
  assert (Hs : len (concat (Buffers (encoding c b t records))) = Size (encoding c b t records)).
  { rewrite Buffers_encoding, length_app, Size_encoding. cbn [Header encoding].
    rewrite length_header_bytes. lia. }
  rewrite <- Hs. split; [done|]. split; [done|]. intros Hnone. split; [auto|].
  rewrite Ho, (Herr Hnone), Nat2Z.id, firstn_all. done.
Qed.

(** A connection that takes at most five bytes per call. *)
Definition five_at_a_time : writer := mkWriter [] 0 (λ _ b, (Z.min 5 (len b), None)).

Lemma WriteTo_delivers_witness :
  ∃ w' n err, WriteTo (encoding 7 1 sample_time sample_records) five_at_a_time = Some (w', n, err) ∧
    (writer_ok five_at_a_time →
       0 <= n <= Size (encoding 7 1 sample_time sample_records) ∧
       w_out w' = [] ++ take (Z.to_nat n) (concat (Buffers (encoding 7 1 sample_time sample_records))) ∧
       (err = None → n = Size (encoding 7 1 sample_time sample_records) ∧
          w_out w' = [] ++ concat (Buffers (encoding 7 1 sample_time sample_records)))).
Proof.
  apply (WriteTo_delivers 7 1 sample_time sample_records sample_limits
           (encoding 7 1 sample_time sample_records) five_at_a_time).
  vm_compute. reflexivity.
Defined.

(** ** Acknowledgements *)

Definition ack_bytes (a : Ack) : list byte :=
  ackMagic ++ [byte_of_Z Version] ++ [byte_of_Z (Status a)] ++ be_put 2 AckSize ++
  be_put 8 (Ack_ClientID a) ++ be_put 8 (Ack_BatchID a).

(** The fields in their machine types. *)
Definition ack_typed (a : Ack) : Prop :=
  0 <= Status a < 2 ^ 8 ∧ 0 <= Ack_ClientID a < 2 ^ 64 ∧ 0 <= Ack_BatchID a < 2 ^ 64.

Lemma MarshalBinary_Ok a raw :
  MarshalBinary a = Ok raw ↔
  AckStatus_Valid (Status a) = true ∧ Ack_ClientID a ≠ 0 ∧ Ack_BatchID a ≠ 0 ∧ raw = ack_bytes a.
Proof.
  unfold MarshalBinary. rewrite bind_Ok. setoid_rewrite guard_Ok.
  change (Ok (blit _ _ _)) with (Ok (ack_bytes a)). split.
  - intros (_ & H & [= <-]). zbool. done.
  - intros (H1 & H2 & H3 & ->). exists (). rewrite H1. ztest. done.
Qed.

Lemma length_ack_bytes a : length (ack_bytes a) = 24%nat.
Proof. done. Qed.

Lemma ack_bytes_slices raw :
  length raw = 24%nat → slice 0 4 raw = ackMagic → be_get (slice 4 5 raw) = Version →
  be_get (slice 6 8 raw) = AckSize →
  ack_bytes (mkAck (be_get (slice 5 6 raw)) (be_get (slice 8 16 raw)) (be_get (slice 16 24 raw))) = raw.
Proof.
  intros Hlen H1 H2 H3.
  assert (Hr : raw = slice 0 4 raw ++ slice 4 5 raw ++ slice 5 6 raw ++ slice 6 8 raw ++
    slice 8 16 raw ++ slice 16 24 raw).
  { rewrite !slice_cat by lia. by rewrite <- Hlen, slice_all. }
  rewrite Hr at 4. rewrite H1. unfold ack_bytes. cbn [Status Ack_ClientID Ack_BatchID].
  change [byte_of_Z Version] with (be_put 1 Version).
  change [byte_of_Z ?x] with (be_put 1 x). rewrite <- H2, <- H3.
  rewrite !be_put_slice by lia. done.
Qed.

(** Acknowledgements round-trip and are canonical: [ReadAck] answers [a]
    exactly when the stream starts with the 24 bytes [MarshalBinary] gives
    for [a], and consumes just those. *)
Theorem ReadAck_iff r a r' :
  ReadAck r = (Ok a, r') ↔
  ack_typed a ∧ ∃ raw, MarshalBinary a = Ok raw ∧ rd_data r = raw ++ rd_data r' ∧ rd_end r' = rd_end r.
Proof.
  split.
  - unfold ReadAck. destruct (ReadFull 24 r) as [[raw|] r1] eqn:E; [|done].
    apply ReadFull_Ok in E as (Hd & Hlen & Hend). intros [= H <-].
    apply bind_Ok in H as (_ & H1%guard_Ok & H).
    apply bind_Ok in H as (_ & H2%guard_Ok & [= <-]). zbool.
    pose proof (be_get_slice_range 5 6 raw). pose proof (be_get_slice_range 8 16 raw).
    pose proof (be_get_slice_range 16 24 raw).
    split; [done|]. exists raw. split_and!; [|done|done].
    apply MarshalBinary_Ok. split_and!; try done. by rewrite ack_bytes_slices.
  - intros ((? & ? & ?) & raw & (Hv & ? & ? & ->)%MarshalBinary_Ok & Hd & He).
    unfold ReadAck. destruct r as [d fin]. cbn [rd_data rd_end] in *. subst d fin.
    rewrite <- (length_ack_bytes a) at 1. rewrite ReadFull_app.
    change (slice 0 4 _) with ackMagic. change (slice 4 5 _) with (be_put 1 Version).
    change (slice 5 6 _) with (be_put 1 (Status a)). change (slice 6 8 _) with (be_put 2 AckSize).
    change (slice 8 16 _) with (be_put 8 (Ack_ClientID a)).
    change (slice 16 24 _) with (be_put 8 (Ack_BatchID a)).
    rewrite !be_get_put_small by (simpl; unfold Version, AckSize; lia).
    rewrite bool_decide_eq_true_2 by done. cbn. rewrite Hv. ztest.
    by destruct a, r'.
Qed.

Lemma WriteAck_delivers w a :
  AckStatus_Valid (Status a) = true → Ack_ClientID a ≠ 0 → Ack_BatchID a ≠ 0 →
  ∃ w' err, WriteAck w a = Some (w', err) ∧
    (writer_ok w → ∃ n, delivered w w' (ack_bytes a) n err) ∧
    (takes w → w_out w' = w_out w ++ ack_bytes a ∧ err = None).
Proof.
  intros H1 H2 H3. unfold WriteAck.
  rewrite (proj2 (MarshalBinary_Ok a (ack_bytes a))) by done.
  destruct (write_loop_total (length (ack_bytes a)) w (ack_bytes a) 0 (le_n _)) as [[[w' n] err] E].
  rewrite E. exists w', err. split_and!; [done| |].
  - intros Hw. apply write_loop_delivers in E; [|done]. eauto.
  - intros Hw. destruct (write_loop_takes _ w (ack_bytes a) 0 Hw (le_n _)) as (w1 & E1 & Ho & _).
    rewrite E1 in E. by simplify_eq.
Qed.

(** A stream with an acknowledgement followed by one more byte. *)
Lemma ReadAck_iff_witness :
  ∃ r r', ReadAck r = (Ok (mkAck StatusDuplicate 7 1), r') ∧ rd_data r' = [x09].
Proof.
  exists (mkReader (ack_bytes (mkAck StatusDuplicate 7 1) ++ [x09]) io_EOF), (mkReader [x09] io_EOF).
  split; [|reflexivity]. apply (proj2 (ReadAck_iff _ _ _)).
  split; [vm_compute; repeat split; congruence || reflexivity|].
  exists (ack_bytes (mkAck StatusDuplicate 7 1)). repeat split.
Defined.

(** ** Retries *)

Lemma frames_length_eq l : ∀ k : list (list byte),
  map length k = map length l → length (frames k) = length (frames l).
Proof.
  induction l as [|r l IH]; intros [|r' k] H; try done. injection H as Hr Hk.
  rewrite !frames_cons, !length_app, (IH _ Hk). unfold frame.
  rewrite !length_app, !length_be_put. lia.
Qed.

(** The loop of [Matches] compares lengths and checksums the frames. *)
Lemma matches_loop_eq records : ∀ kept p h,
  map length kept = map length records → 0 <= p → p + len (frames records) < 2 ^ 64 →
  matches_loop kept records p h = Some (p + len (frames records), crc_update h (frames records)).
Proof.
  induction records as [|r records IH]; intros [|k kept] p h H Hp Hb; try done.
  - change (frames []) with (@nil byte). unfold crc_update. cbn [foldl length].
    rewrite Z.lxor_assoc, Z.lxor_nilpotent, Z.lxor_0_r, Z.add_0_r. done.
  - rewrite frames_length_cons in Hb.
    injection H as Hk Hr. cbn [matches_loop].
    rewrite Hk, Z.eqb_refl, u64_small, IH, crc_update_app, be_put_u32 by (done || lia). cbn [negb].
    rewrite crc_update_app, frames_length_cons, frames_cons. do 2 f_equal. lia.
Qed.

Lemma matches_loop_None records : ∀ kept p h,
  length kept = length records → map length kept ≠ map length records →
  matches_loop kept records p h = None.
Proof.
  induction records as [|r records IH]; intros [|k kept] p h Hl Hne; simplify_eq/=.
  destruct (len r =? len k) eqn:E; [|done]. zbool. cbn [negb]. apply IH; [done|].
  intros Heq. apply Hne. f_equal; [lia|done].
Qed.

Lemma Matches_spec c b t records limits kept records' :
  encodable c b t records limits → map length kept = map length records →
  Matches (mkEncodedBatch (Header (encoding c b t records))
             (Prefixes (encoding c b t records)) kept) records' = true ↔
  map length records' = map length records ∧
  ChecksumIEEE (frames records') = ChecksumIEEE (frames records).
Proof.
  intros (Hl & _ & _ & _ & _ & _ & _ & Hp) Hk.
  apply Limits_Validate_bounds in Hl as (_ & ? & _).
  assert (Hkl : length kept = length records) by (by rewrite <- (length_map length), Hk, length_map).
  unfold Matches. cbn [Protocol.Records Header encoding].
  change (slice 28 32 _) with (be_put 4 (len (frames records))).
  change (slice 32 36 _) with (be_put 4 (ChecksumIEEE (frames records))).
  pose proof (w32_crc_update 0 (frames records) w32_0) as Hw. unfold w32 in Hw.
  rewrite !be_get_put_small by (unfold ChecksumIEEE; simpl; lia).
  destruct (decide (map length records' = map length records)) as [He|He].
  - assert (length records' = length records) by (by rewrite <- (length_map length), He, length_map).
    pose proof (frames_length_eq _ _ He).
    rewrite matches_loop_eq by (congruence || lia). fold (ChecksumIEEE (frames records')).
    ztest. cbn [negb]. rewrite andb_true_l, Z.eqb_eq. tauto.
  - split; [|tauto]. destruct (negb _) eqn:E; [done|]. zbool.
    rewrite matches_loop_None; [done|lia|congruence].
Qed.

Lemma frames_one_byte rs1 p (x y : byte) q rs2 :
  frames (rs1 ++ (p ++ x :: q) :: rs2) =
    (frames rs1 ++ be_put 4 (len (p ++ y :: q)) ++ p) ++ x :: (q ++ frames rs2).
Proof.
  unfold frames. rewrite map_app, concat_app. cbn [map concat]. unfold frame at 2.
  rewrite !length_app. cbn [length]. rewrite <- !app_assoc. done.
Qed.

(** [Matches] protects an outer retry.  After [NewEncodedBatch] captured
    [records], and whatever bytes the retained slices hold by then ([kept]), the
    retry is accepted exactly when the presented records have the captured
    lengths and checksum; so the unchanged records pass and records that differ
    in one byte, the retained slices changed with them or not, are refused. *)
Theorem Matches_retry c b t records limits e kept :
  NewEncodedBatch c b t records limits = Ok e → map length kept = map length records →
  let retained := mkEncodedBatch (Header e) (Prefixes e) kept in
  (∀ records', Matches retained records' = true ↔
     map length records' = map length records ∧
     ChecksumIEEE (frames records') = ChecksumIEEE (frames records)) ∧
  Matches retained records = true ∧
  (∀ rs1 p x y q rs2, records = rs1 ++ (p ++ x :: q) :: rs2 → x ≠ y →
     Matches retained (rs1 ++ (p ++ y :: q) :: rs2) = false).
Proof.
  intros [He ->]%NewEncodedBatch_spec Hk retained.
  pose proof (λ rs, Matches_spec c b t records limits kept rs He Hk) as HM. fold retained in HM.
  split; [exact HM|]. split; [by apply HM|]. intros rs1 p x y q rs2 Hr Hxy.
  apply not_true_is_false. rewrite HM. intros [_ Hc]. rewrite Hr in Hc. unfold ChecksumIEEE in Hc.
  rewrite (frames_one_byte rs1 p y x), (frames_one_byte rs1 p x x) in Hc.
  apply crc_update_one_byte in Hc; auto using w32_0.
Qed.

(** The captured record changed in place before the retry. *)
Lemma Matches_retry_witness :
  Matches (mkEncodedBatch (Header (encoding 7 1 sample_time sample_records))
             (Prefixes (encoding 7 1 sample_time sample_records)) [[x68; x70]; [x79; x6f; x0a]])
    [[x68; x70]; [x79; x6f; x0a]] = false.
Proof.
  refine (proj2 (proj2 (Matches_retry 7 1 sample_time sample_records sample_limits
    (encoding 7 1 sample_time sample_records) [[x68; x70]; [x79; x6f; x0a]] _ _))
    [] [x68] x69 x70 [] [[x79; x6f; x0a]] _ _).
  - vm_compute. reflexivity.
  - reflexivity.
  - reflexivity.
  - discriminate.
Defined.
