(* ===== verification/Client.v ===== *)
(** * The network client (internal/protocol/client.go)

    [NewClient], [Send] with its retry loop, [exchange] and [Close].  The world
    the client talks to (the dialer, the connection, the context and the clock)
    is an interface, [Net]: the client is verified against every
    implementation of it. *)

From stdpp Require Import gmap strings list fin_maps.
From Stdlib Require Import ZArith Lia.
From Stdlib.Strings Require Import Byte.
From S2P Require Import Prelude GoLib Protocol.

(** ** The world of the client *)

(** Every operation may observe and change the world; a connection's outgoing
    side is a [writer] and its incoming side a [reader] of [GoLib]. *)
Class Net (W Conn : Type) := {
  net_now : W → Time * W;
  net_ctx_err : W → option error * W;
  net_wait : Z → W → option error * W;
  net_dial : string → W → result Conn * W;
  net_set_deadline : Conn → W → option error * W;
  net_out : Conn → W → writer;
  net_sent : Conn → writer → W → W;
  net_in : Conn → W → reader;
  net_received : Conn → reader → W → W;
  net_close : Conn → W → option error * W
}.

Definition net_ErrClosed : error := ErrNew "use of closed network connection".

(** ** Configuration *)

Definition Millisecond : Z := 1000000.
Definition Second : Z := 1000000000.

(** Durations are [int64] nanoseconds. *)
Record ClientConfig := mkClientConfig {
  cc_Address : string; cc_ClientID : Z; DialTimeout : Z; IOTimeout : Z;
  RetryInitial : Z; RetryMaximum : Z; MaxAttempts : Z; cc_Limits : Limits
}.

#[export] Instance ClientConfig_fields : Fields ClientConfig := λ r,
  mkClientConfig (cc_Address r) (cc_ClientID r) (DialTimeout r) (IOTimeout r)
    (RetryInitial r) (RetryMaximum r) (MaxAttempts r) (cc_Limits r).

(** [secureID] over the outcome of [rand.Read] on eight bytes. *)
Definition secureID (random : result (list byte)) : result Z :=
  match random with
  | Err e => Err (ErrWrap "generate client id: %w" e)
  | Ok raw => let id := be_get raw in Ok (if id =? 0 then 1 else id)
  end.

(** [if field <= 0 { field = value }] *)
Definition default_to (value field : Z) : Z := if field <=? 0 then value else field.

Record Client (Conn : Type) := mkClient {
  config : ClientConfig; conn : option Conn; batchID : Z;
  pending : option EncodedBatch; closed : bool
}.
Arguments mkClient {Conn}.
Arguments config {Conn}. Arguments conn {Conn}. Arguments batchID {Conn}.
Arguments pending {Conn}. Arguments closed {Conn}.

#[export] Instance Client_fields Conn : Fields (Client Conn) := λ r,
  mkClient (config r) (conn r) (batchID r) (pending r) (closed r).

Definition NewClient {Conn} (random : result (list byte)) (config : ClientConfig)
  : result (Client Conn) :=
  if bool_decide (cc_Address config = "") then Err (ErrNew "collector address is required") else
  config ← (if cc_ClientID config =? 0
            then (id ← secureID random; Ok (config <| cc_ClientID := id |>))
            else Ok config);
  let config := config <| DialTimeout ::= default_to (2 * Second) |>
                       <| IOTimeout ::= default_to (5 * Second) |>
                       <| RetryInitial ::= default_to (50 * Millisecond) |>
                       <| RetryMaximum ::= default_to (2 * Second) |>
                       <| MaxAttempts ::= default_to 8 |> in
  if RetryMaximum config <? RetryInitial config then
    Err (ErrNew "retry maximum must be at least retry initial")
  else
    let config := if bool_decide (cc_Limits config = mkLimits 0 0 0)
                  then config <| cc_Limits := DefaultLimits |> else config in
    _ ← Limits_Validate (cc_Limits config);
    Ok (mkClient config None 0 None false).

(** ** Sending *)

Definition jitter (base attempt : Z) : Z :=
  let percent := i64 (90 + Z.rem (i64 (attempt * 17)) 21) in
  Z.quot (i64 (base * percent)) 100.

Definition RemoteError (status : Z) : error := ErrCode "RemoteError" status.

Section Client.
Context {W Conn : Type} `{!Net W Conn}.

Definition dropConnection (c : Client Conn) (w : W) : Client Conn * W :=
  match conn c with
  | Some k => let '(_, w) := net_close k w in (c <| conn := None |>, w)
  | None => (c, w)
  end.

(** The connection it leaves in [c.conn] is returned with it. *)
Definition ensureConnection (c : Client Conn) (w : W) : result Conn * Client Conn * W :=
  match conn c with
  | Some k => (Ok k, c, w)
  | None =>
    match net_dial (cc_Address (config c)) w with
    | (Err e, w) => (Err (ErrWrap "dial collector: %w" e), c, w)
    | (Ok connection, w) => (Ok connection, c <| conn := Some connection |>, w)
    end
  end.

(** [exchange] on the open connection [k]. *)
Definition exchange (k : Conn) (batch : EncodedBatch) (w : W) : option error * W :=
  match net_set_deadline k w with
  | (Some e, w) => (Some e, w)
  | (None, w) =>
    let '(out, _, err) := WriteVectoredTo batch (net_out k w) in
    let w := net_sent k out w in
    match err with
    | Some e => (Some e, w)
    | None =>
      match ReadAck (net_in k w) with
      | (Err e, input) => (Some e, net_received k input w)
      | (Ok ack, input) =>
        let w := net_received k input w in
        (if negb (Ack_ClientID ack =? EncodedBatch_ClientID batch)
            || negb (Ack_BatchID ack =? EncodedBatch_BatchID batch)
         then Some (invalid_frame "%w: ACK identity mismatch")
         else if (Status ack =? StatusAccepted) || (Status ack =? StatusDuplicate) then None
         else if (Status ack =? StatusInvalid) || (Status ack =? StatusOverloaded)
                 || (Status ack =? StatusSinkError) then Some (RemoteError (Status ack))
         else Some (invalid_frame "%w: unknown ACK status"), w)
      end
    end
  end.

(** [for attempt := ...; attempt <= MaxAttempts; attempt++]: [n] iterations are
    left, [attempt = MaxAttempts - n + 1]. *)
Fixpoint send_loop (n : nat) (attempt backoff : Z) (lastErr : option error)
  (batch : EncodedBatch) (c : Client Conn) (w : W) : option error * Client Conn * W :=
  match n with
  | O => (Some (ErrWrap "send batch after %d attempts: %w"
                  (default (ErrNew "%!w(<nil>)") lastErr)), c, w)
  | S n =>
    let backing_off lastErr c w :=
      if attempt <? MaxAttempts (config c) then
        match net_wait (jitter backoff attempt) w with
        | (Some e, w) => (Some e, c, w)
        | (None, w) =>
          let backoff := i64 (backoff * 2) in
          let backoff := if backoff >? RetryMaximum (config c)
                         then RetryMaximum (config c) else backoff in
          send_loop n (attempt + 1) backoff lastErr batch c w
        end
      else send_loop n (attempt + 1) backoff lastErr batch c w in
    match net_ctx_err w with
    | (Some e, w) => (Some e, c, w)
    | (None, w) =>
      match ensureConnection c w with
      | (Err e, c, w) => backing_off (Some e) c w
      | (Ok k, c, w) =>
        match exchange k batch w with
        | (None, w) => (None, c <| pending := None |>, w)
        | (Some e, w) =>
          if bool_decide (errors_As e "RemoteError" = Some StatusInvalid) then (Some e, c, w)
          else let '(c, w) := dropConnection c w in backing_off (Some e) c w
        end
      end
    end
  end.

Definition next_id (id : Z) : Z := if u64 (id + 1) =? 0 then 1 else u64 (id + 1).

Definition Send (records : list (list byte)) (c : Client Conn) (w : W)
  : option error * Client Conn * W :=
  if closed c then (Some net_ErrClosed, c, w) else
  let retry batch c w :=
    send_loop (Z.to_nat (MaxAttempts (config c))) 1 (RetryInitial (config c)) None batch c w in
  match pending c with
  | Some batch =>
      if Matches batch records then retry batch c w
      else (Some (ErrNew "network retry payload changed while a batch is unacknowledged"), c, w)
  | None =>
      let c := c <| batchID ::= next_id |> in
      let '(now, w) := net_now w in
      match NewEncodedBatch (cc_ClientID (config c)) (batchID c) now records
              (cc_Limits (config c)) with
      | Err e => (Some e, c, w)
      | Ok batch => retry batch (c <| pending := Some batch |>) w
      end
  end.

Definition Client_Close (c : Client Conn) (w : W) : option error * Client Conn * W :=
  let c := c <| closed := true |> <| pending := None |> in
  match conn c with
  | None => (None, c, w)
  | Some k => let '(err, w) := net_close k w in (err, c <| conn := None |>, w)
  end.

(** ** Facts *)

(** The peer answered [batch]: the whole frame was written and an
    acknowledgement of that very batch, accepted or duplicate, was read. *)
Definition acknowledged (batch : EncodedBatch) (k : Conn) (w w' : W) : Prop :=
  ∃ w1 out ack input,
    net_set_deadline k w = (None, w1) ∧
    WriteVectoredTo batch (net_out k w1) = (out, Size batch, None) ∧
    ReadAck (net_in k (net_sent k out w1)) = (Ok ack, input) ∧
    Ack_ClientID ack = EncodedBatch_ClientID batch ∧ Ack_BatchID ack = EncodedBatch_BatchID batch ∧
    (Status ack = StatusAccepted ∨ Status ack = StatusDuplicate) ∧
    w' = net_received k input (net_sent k out w1).

Lemma exchange_nil k batch w w' :
  exchange k batch w = (None, w') → acknowledged batch k w w'.
Proof.
  unfold exchange, acknowledged. destruct (net_set_deadline k w) as [[?|] w1]; [done|].
  destruct (WriteVectoredTo batch (net_out k w1)) as [[out n] err] eqn:Ew.
  destruct err; [done|]. destruct (ReadAck _) as [[ack|] input] eqn:Er; [|done].
  destruct_ifs; try done.
  intros [= <-]. exists w1, out, ack, input. zbool; split_and!; auto.
  all: assert (n = Size batch) as ->; [|done].
  all: unfold WriteVectoredTo in Ew; destruct (Buffers_WriteTo _ _ _) as [[? ?] [?|]]; [done|].
  all: destruct (_ =? _) eqn:E; simplify_eq; by zbool.
Qed.

(** What the loop leaves of the client, whatever the world does. *)
Definition loop_keeps (c c' : Client Conn) : Prop :=
  config c' = config c ∧ batchID c' = batchID c ∧ closed c' = closed c ∧ pending c' = pending c.

Lemma dropConnection_keeps c w : loop_keeps c (dropConnection c w).1.
Proof. unfold dropConnection. destruct (conn c); [destruct (net_close _ _)|]; done. Qed.

Lemma ensureConnection_keeps c w : loop_keeps c (ensureConnection c w).1.2.
Proof. unfold ensureConnection. destruct (conn c); [|destruct (net_dial _ _) as [[]]]; done. Qed.

Lemma ensureConnection_Ok c w k c' w' :
  ensureConnection c w = (Ok k, c', w') → conn c' = Some k.
Proof.
  unfold ensureConnection. destruct (conn c) eqn:E; [by intros [= <- <- <-]|].
  destruct (net_dial _ _) as [[]]; by intros [= <- <- <-].
Qed.

Lemma loop_keeps_trans c1 c2 c3 : loop_keeps c1 c2 → loop_keeps c2 c3 → loop_keeps c1 c3.
Proof. unfold loop_keeps. intuition congruence. Qed.

(** A nil return of the loop is an acknowledgement; an error keeps the batch. *)
Definition loop_outcome (batch : EncodedBatch) (c c' : Client Conn) (w' : W)
  (err : option error) : Prop :=
  match err with
  | None => ∃ k w0, acknowledged batch k w0 w' ∧ loop_keeps (c <| pending := None |>) c' ∧
              conn c' = Some k
  | Some _ => loop_keeps c c'
  end.

Lemma loop_outcome_trans batch c1 c2 c3 w err :
  loop_keeps c1 c2 → loop_outcome batch c2 c3 w err → loop_outcome batch c1 c3 w err.
Proof.
  destruct err; simpl; [apply loop_keeps_trans|]. unfold loop_keeps.
  intros (? & ? & ? & ?) (k & w0 & ? & (? & ? & ? & ?) & ?). exists k, w0. cbn in *.
  repeat split; congruence || done.
Qed.

Lemma send_loop_outcome batch n : ∀ attempt backoff lastErr c w err c' w',
  send_loop n attempt backoff lastErr batch c w = (err, c', w') →
  loop_outcome batch c c' w' err.
Proof.
  induction n as [|n IH]; intros attempt backoff lastErr c w err c' w'; cbn [send_loop].
  - intros [= <- <- <-]. done.
  - destruct (net_ctx_err w) as [[e|] w1]; [intros [= <- <- <-]; done|].
    pose proof (ensureConnection_keeps c w1) as Hk.
    destruct (ensureConnection c w1) as [[[k|e] c1] w2] eqn:Ec; cbn [fst snd] in Hk.
    + destruct (exchange k batch w2) as [[e|] w3] eqn:Ex.
      * case_bool_decide; [intros [= <- <- <-]; done|].
        pose proof (dropConnection_keeps c1 w3) as Hd.
        destruct (dropConnection c1 w3) as [c2 w4]. cbn [fst] in Hd.
        assert (Hk2 : loop_keeps c c2) by (by eapply loop_keeps_trans).
        destruct (_ <? _); [destruct (net_wait _ _) as [[]]; [by intros [= <- <- <-]|]|];
          intros ?%IH; by eapply loop_outcome_trans.
      * intros [= <- <- <-]. apply exchange_nil in Ex. exists k, w2.
        split; [done|]. split; [|by apply ensureConnection_Ok in Ec].
        destruct Hk as (? & ? & ? & ?). done.
    + destruct (_ <? _); [destruct (net_wait _ _) as [[]]; [by intros [= <- <- <-]|]|];
        intros ?%IH; by eapply loop_outcome_trans.
Qed.

(** The invariant of a client: its identity is valid and a pending batch
    carries it together with the current batch number. *)
Definition client_wf (c : Client Conn) : Prop :=
  0 < cc_ClientID (config c) < 2 ^ 64 ∧ 0 <= batchID c < 2 ^ 64 ∧
  Limits_Validate (cc_Limits (config c)) = Ok () ∧
  0 < MaxAttempts (config c) ∧ 0 < RetryInitial (config c) <= RetryMaximum (config c) ∧
  ∀ b, pending c = Some b →
    EncodedBatch_ClientID b = cc_ClientID (config c) ∧ EncodedBatch_BatchID b = batchID c.

Lemma next_id_range id : 0 < next_id id < 2 ^ 64.
Proof. unfold next_id. pose proof (u64_range (id + 1)). destruct (_ =? _) eqn:E; zbool; lia. Qed.

Lemma next_id_fresh id : 0 <= id < 2 ^ 64 → next_id id ≠ id.
Proof.
  intros. unfold next_id. destruct (decide (id = 2 ^ 64 - 1)) as [->|]; [done|].
  rewrite u64_small by lia. ztest. lia.
Qed.

Lemma encoding_ids c b t records :
  0 <= c < 2 ^ 64 → 0 <= b < 2 ^ 64 →
  EncodedBatch_ClientID (encoding c b t records) = c ∧
  EncodedBatch_BatchID (encoding c b t records) = b.
Proof.
  intros. unfold EncodedBatch_ClientID, EncodedBatch_BatchID. cbn [Header encoding].
  change (slice 8 16 _) with (be_put 8 c). change (slice 16 24 _) with (be_put 8 b).
  by rewrite !be_get_put_small by (simpl; lia).
Qed.

(** The batch a call of [Send] works on. *)
Definition batch_of (c : Client Conn) (records : list (list byte)) (w : W) : result EncodedBatch :=
  match pending c with
  | Some b => if Matches b records then Ok b else Err (ErrNew "payload changed")
  | None => NewEncodedBatch (cc_ClientID (config c)) (next_id (batchID c)) (net_now w).1 records
              (cc_Limits (config c))
  end.

(** The client as [send_loop] finds it. *)
Definition armed (c : Client Conn) (b : EncodedBatch) : Client Conn :=
  match pending c with
  | Some _ => c
  | None => c <| batchID ::= next_id |> <| pending := Some b |>
  end.

Lemma Send_cases records c w err c' w' :
  Send records c w = (err, c', w') → closed c = false →
  match batch_of c records w with
  | Ok b => ∃ w1, (w1 = w ∨ w1 = (net_now w).2) ∧
      send_loop (Z.to_nat (MaxAttempts (config c))) 1 (RetryInitial (config c)) None b (armed c b) w1
      = (err, c', w')
  | Err _ => err ≠ None ∧ pending c' = pending c ∧ config c' = config c ∧ conn c' = conn c ∧
      closed c' = false ∧
      (batchID c' = batchID c ∨ batchID c' = next_id (batchID c)) ∧ (w' = w ∨ w' = (net_now w).2) ∧
      (pending c ≠ None → c' = c ∧ w' = w)
  end.
Proof.
  intros HS Hcl. unfold Send, batch_of, armed in *. rewrite Hcl in HS.
  destruct (pending c) as [b|] eqn:Hp.
  - destruct (Matches b records); [eauto|]. simplify_eq. split_and!; auto.
  - destruct (net_now w) as [now w1]. cbn in HS |- *.
    destruct (NewEncodedBatch _ _ _ _ _) as [b|e]; cbn in *; [eauto|].
    simplify_eq. cbn. split_and!; auto; done.
Qed.

(** [Send] reports success only for a delivered batch: the call then worked
    on the pending batch these records match, or on a fresh encoding of them;
    its whole frame was written to a connection and an acknowledgement naming
    that client and batch, accepted or duplicate, was read from it; and the
    batch is no longer pending. *)
Theorem Send_success_acknowledged records c w c' w' :
  Send records c w = (None, c', w') →
  closed c = false ∧ pending c' = None ∧
  ∃ b k w0, batch_of c records w = Ok b ∧ acknowledged b k w0 w' ∧ conn c' = Some k.
Proof.
  intros HS. destruct (closed c) eqn:Hc; [by unfold Send in HS; rewrite Hc in HS|].
  split; [done|]. apply Send_cases in HS; [|done].
  destruct (batch_of c records w) as [b|]; [|tauto].
  destruct HS as (w1 & _ & (k & w0 & Ha & (_ & _ & _ & Hp) & Hk)%send_loop_outcome).
  split; [done|]. by exists b, k, w0.
Qed.

Lemma batch_of_ids c records w b :
  client_wf c → batch_of c records w = Ok b →
  EncodedBatch_ClientID b = cc_ClientID (config c) ∧ EncodedBatch_BatchID b = batchID (armed c b).
Proof.
  intros (? & ? & _ & _ & _ & Hpend). unfold batch_of, armed. destruct (pending c) as [b0|] eqn:Hp.
  - destruct (Matches b0 records); [intros [= <-]|done]. by apply Hpend.
  - intros [_ ->]%NewEncodedBatch_spec. pose proof (next_id_range (batchID c)).
    apply (encoding_ids (cc_ClientID (config c)) (next_id (batchID c))); lia.
Qed.

Lemma armed_pending c b records w : batch_of c records w = Ok b → pending (armed c b) = Some b.
Proof.
  unfold batch_of, armed. destruct (pending c) eqn:Hp; [|done].
  destruct (Matches _ _); by intros [= <-].
Qed.

(** Batch identity across retries.  [Send] keeps the client's invariant;
    an error leaves the batch pending under the number it was first sent with,
    so the next call retries that very frame, and a call with other records is
    then refused without touching client or network; only a call that starts
    without a pending batch takes a new, different number. *)
Theorem Send_batch_identity records c w err c' w' :
  client_wf c → Send records c w = (err, c', w') →
  client_wf c' ∧ config c' = config c ∧
  (∀ b, pending c = Some b →
     batchID c' = batchID c ∧ (err ≠ None → pending c' = Some b) ∧
     (Matches b records = false → closed c = false → err ≠ None ∧ c' = c ∧ w' = w)) ∧
  (pending c = None → ∀ b, pending c' = Some b →
     EncodedBatch_BatchID b = next_id (batchID c) ∧ next_id (batchID c) ≠ batchID c ∧
     err ≠ None ∧ batch_of c records w = Ok b).
Proof.
  intros Hwf HS. destruct (closed c) eqn:Hc.
  { unfold Send in HS. rewrite Hc in HS. simplify_eq. split_and!; try done.
    by intros -> b. }
  pose proof Hwf as (Hcl & Hid & Hl & Hm & Hr & Hpend).
  pose proof (next_id_range (batchID c)) as Hn. pose proof (next_id_fresh _ Hid) as Hf.
  apply Send_cases in HS; [|done]. destruct (batch_of c records w) as [b|] eqn:Hb.
  - destruct HS as (w1 & _ & HL%send_loop_outcome).
    pose proof (batch_of_ids _ _ _ _ Hwf Hb) as [Hi1 Hi2]. pose proof (armed_pending _ _ _ _ Hb) as Hap.
    assert (Hk : config c' = config c ∧ batchID c' = batchID (armed c b) ∧
      (pending c' = match err with None => None | Some _ => Some b end)).
    { assert (Hac : config (armed c b) = config c) by (unfold armed; by destruct (pending c)).
      destruct err; simpl in HL; [destruct HL as (? & ? & ? & ?)|
        destruct HL as (? & ? & ? & (? & ? & ? & ?) & ?)]; cbn in *; split_and!; congruence. }
    destruct Hk as (Hk1 & Hk2 & Hk3).
    assert (Hids : batchID (armed c b) = batchID c ∧ pending c = Some b ∧ Matches b records = true ∨
      batchID (armed c b) = next_id (batchID c) ∧ pending c = None).
    { revert Hb. unfold batch_of, armed. destruct (pending c) as [b0|]; [|by right].
      destruct (Matches b0 records) eqn:E; [intros [= <-]; by left|done]. }
    split_and!; [|done|..].
    + unfold client_wf. rewrite Hk1, Hk2, Hk3. split_and!; try done; try (destruct Hids as [[Hi _]|[Hi _]]; lia).
      destruct err; [|done]. intros ? [= <-]. done.
    + intros b' Hb'. destruct Hids as [(Hi & Hp & HM)|[_ Hp]]; [|congruence].
      split_and!; [congruence|intros; destruct err; congruence|congruence].
    + intros Hp b' Hb'. destruct err; [|congruence]. destruct Hids as [(_ & ? & _)|[Hi _]]; [congruence|].
      rewrite Hk3 in Hb'. simplify_eq. split_and!; congruence.
  - destruct HS as (He & Hp' & Hcf & _ & _ & Hid' & _ & Hnp). split_and!; try done.
    + unfold client_wf. rewrite Hcf, Hp'. split_and!; try done; try (destruct Hid'; lia).
      intros b Hb'. destruct (Hnp ltac:(congruence)) as [-> _]. by apply Hpend.
    + intros b Hb'. destruct (Hnp ltac:(congruence)) as [-> ->]. done.
    + intros Hp b Hb'. congruence.
Qed.

(** ** What the client does to the world *)

(** [P] survives everything a retry loop may do for [b]: observing the context,
    dialling, closing, writing this one frame, reading an acknowledgement, and
    waiting between [lo] and [hi] nanoseconds. *)
Record preserved (b : EncodedBatch) (lo hi : Z) (P : W → Prop) : Prop := mkPreserved {
  p_ctx w : P w → P (net_ctx_err w).2;
  p_wait d w : lo <= d <= hi → P w → P (net_wait d w).2;
  p_dial a w : P w → P (net_dial a w).2;
  p_deadline k w : P w → P (net_set_deadline k w).2;
  p_sent k w : P w → P (net_sent k (WriteVectoredTo b (net_out k w)).1.1 w);
  p_received k w : P w → P (net_received k (ReadAck (net_in k w)).2 w);
  p_close k w : P w → P (net_close k w).2
}.

(** The least and the greatest pause of a configuration. *)
Definition min_pause (config : ClientConfig) : Z := RetryInitial config * 90 / 100.
Definition max_pause (config : ClientConfig) : Z := RetryMaximum config * 110 / 100.

Lemma jitter_bounds base attempt :
  0 < base < 2 ^ 56 → 0 < attempt < 2 ^ 58 →
  base * 90 / 100 <= jitter base attempt <= base * 110 / 100.
Proof.
  intros Hb Ha. unfold jitter. rewrite (i64_small (attempt * 17)) by lia.
  rewrite Z.rem_mod_nonneg by lia. pose proof (Z.mod_pos_bound (attempt * 17) 21).
  rewrite (i64_small (90 + _)) by lia. rewrite i64_small by nia.
  rewrite Z.quot_div_nonneg by nia. split; apply Z.div_le_mono; nia.
Qed.

Lemma exchange_preserved b lo hi P k w :
  preserved b lo hi P → P w → P (exchange k b w).2.
Proof.
  intros HP Hw. unfold exchange. pose proof (p_deadline _ _ _ _ HP k w Hw) as H1.
  destruct (net_set_deadline k w) as [[?|] w1]; [done|]. cbn [snd] in H1.
  pose proof (p_sent _ _ _ _ HP k w1 H1) as H2.
  destruct (WriteVectoredTo b (net_out k w1)) as [[out n] err]. cbn [fst] in H2.
  destruct err; [done|]. pose proof (p_received _ _ _ _ HP k _ H2) as H3.
  by destruct (ReadAck _) as [[] ?].
Qed.

Lemma ensureConnection_preserved b lo hi P c w :
  preserved b lo hi P → P w → P (ensureConnection c w).2.
Proof.
  intros HP Hw. unfold ensureConnection. destruct (conn c); [done|].
  pose proof (p_dial _ _ _ _ HP (cc_Address (config c)) w Hw). by destruct (net_dial _ w) as [[] ?].
Qed.

Lemma dropConnection_preserved b lo hi P c w :
  preserved b lo hi P → P w → P (dropConnection c w).2.
Proof.
  intros HP Hw. unfold dropConnection. destruct (conn c) as [k|]; [|done].
  pose proof (p_close _ _ _ _ HP k w Hw). by destruct (net_close k w) as [[] ?].
Qed.

(** What a call leaves behind: [P] holds, and a nil return was acknowledged in a
    world where it held. *)
Definition loop_post (b : EncodedBatch) (P : W → Prop)
  (r : option error * Client Conn * W) : Prop :=
  P r.2 ∧ (r.1.1 = None → ∃ k w0, P w0 ∧ acknowledged b k w0 r.2).

(** The pause after a failed attempt, and the rest of the loop. *)
Lemma backing_off_post b P n attempt backoff lastErr c w :
  (∀ backoff lastErr w, 0 < RetryInitial (config c) <= backoff →
     backoff <= RetryMaximum (config c) → P w →
     loop_post b P (send_loop n (attempt + 1) backoff lastErr b c w)) →
  preserved b (min_pause (config c)) (max_pause (config c)) P →
  0 < RetryInitial (config c) <= backoff → backoff <= RetryMaximum (config c) < 2 ^ 56 →
  0 < attempt < 2 ^ 58 → P w →
  loop_post b P (if attempt <? MaxAttempts (config c) then
      match net_wait (jitter backoff attempt) w with
      | (Some e, w) => (Some e, c, w)
      | (None, w) =>
        send_loop n (attempt + 1)
          (if i64 (backoff * 2) >? RetryMaximum (config c) then RetryMaximum (config c)
           else i64 (backoff * 2)) lastErr b c w
      end
    else send_loop n (attempt + 1) backoff lastErr b c w).
Proof.
  intros IH HP Hb1 Hb2 Ha Hw. destruct (_ <? _); [|apply IH; (done || lia)].
  pose proof (jitter_bounds backoff attempt ltac:(lia) ltac:(lia)) as Hj.
  pose proof (p_wait _ _ _ _ HP (jitter backoff attempt) w) as Hwt.
  rewrite (i64_small (backoff * 2)) by lia.
  destruct (net_wait _ w) as [[?|] w2]; cbn [snd] in *.
  all: assert (P w2) by (apply Hwt; [|done]; unfold min_pause, max_pause;
    pose proof (Z.div_le_mono (RetryInitial (config c) * 90) (backoff * 90) 100);
    pose proof (Z.div_le_mono (backoff * 110) (RetryMaximum (config c) * 110) 100); lia).
  - by split.
  - destruct (_ >? _) eqn:E; zbool; apply IH; (done || lia).
Qed.

Lemma send_loop_post b P n : ∀ attempt backoff lastErr c w,
  preserved b (min_pause (config c)) (max_pause (config c)) P →
  0 < RetryInitial (config c) <= backoff → backoff <= RetryMaximum (config c) < 2 ^ 56 →
  0 < attempt → attempt + Z.of_nat n < 2 ^ 58 →
  P w → loop_post b P (send_loop n attempt backoff lastErr b c w).
Proof.
  induction n as [|n IH]; intros attempt backoff lastErr c w HP Hb1 Hb2 Ha1 Ha2 Hw; [by split|].
  assert (Hoff : ∀ lastErr c1 w1, config c1 = config c → P w1 → loop_post b P
    (if attempt <? MaxAttempts (config c1) then
      match net_wait (jitter backoff attempt) w1 with
      | (Some e, w) => (Some e, c1, w)
      | (None, w) =>
        send_loop n (attempt + 1)
          (if i64 (backoff * 2) >? RetryMaximum (config c1) then RetryMaximum (config c1)
           else i64 (backoff * 2)) lastErr b c1 w
      end
    else send_loop n (attempt + 1) backoff lastErr b c1 w1)).
  { intros le c1 w1 Hc1 Hw1. rewrite <- Hc1 in HP, Hb1, Hb2.
    apply backing_off_post; try done; [|lia]. intros. apply IH; try done; lia. }
  cbn [send_loop]. pose proof (p_ctx _ _ _ _ HP w Hw) as H1.
  destruct (net_ctx_err w) as [[?|] w1]; [by split|]. cbn [snd] in H1.
  pose proof (ensureConnection_preserved _ _ _ _ c w1 HP H1) as H2.
  pose proof (ensureConnection_keeps c w1) as [Hc _].
  destruct (ensureConnection c w1) as [[[k|e] c1] w2]; cbn [fst snd] in *; [|by apply Hoff].
  pose proof (exchange_preserved _ _ _ _ k w2 HP H2) as H3.
  destruct (exchange k b w2) as [[e|] w3] eqn:Ex.
  2: { split; [done|]. intros _. exists k, w2. split; [done|]. by apply exchange_nil. }
  case_bool_decide; [by split|].
  pose proof (dropConnection_preserved _ _ _ _ c1 w3 HP H3) as H4.
  pose proof (dropConnection_keeps c1 w3) as [Hc' _].
  destruct (dropConnection c1 w3) as [c2 w4]. apply Hoff; [|done]. cbn [fst] in *. congruence.
Qed.

Lemma Send_post records c w b P :
  client_wf c → RetryMaximum (config c) < 2 ^ 56 → MaxAttempts (config c) < 2 ^ 57 →
  closed c = false → batch_of c records w = Ok b →
  preserved b (min_pause (config c)) (max_pause (config c)) P → (∀ w, P w → P (net_now w).2) →
  P w → loop_post b P (Send records c w).
Proof.
  intros (_ & _ & _ & Hm & Hr & _) HM HA Hc Hb HP Hnow Hw.
  destruct (Send records c w) as [[err c'] w'] eqn:HS.
  apply Send_cases in HS; [|done]. rewrite Hb in HS. destruct HS as (w1 & Hw1 & <-).
  assert (Hac : config (armed c b) = config c) by (unfold armed; by destruct (pending c)).
  apply send_loop_post; rewrite ?Hac; try done; try lia. destruct Hw1 as [->| ->]; auto.
Qed.

(** What [Send] does to the world: any fact about it that survives reading
    the clock and what [preserved] lists survives the call.  So within one call
    only frames of the one batch are written, whole or cut short, and every pause
    lies between nine tenths of the initial and eleven tenths of the maximal
    backoff, jitter and doubling included, without overflow. *)
Theorem Send_only records c w err c' w' b P :
  client_wf c → RetryMaximum (config c) < 2 ^ 56 → MaxAttempts (config c) < 2 ^ 57 →
  batch_of c records w = Ok b →
  preserved b (min_pause (config c)) (max_pause (config c)) P → (∀ w, P w → P (net_now w).2) →
  P w → Send records c w = (err, c', w') → P w'.
Proof.
  intros Hwf HM HA Hb HP Hnow Hw HS.
  destruct (closed c) eqn:Hc; [unfold Send in HS; rewrite Hc in HS; by simplify_eq|].
  pose proof (Send_post records c w b P Hwf HM HA Hc Hb HP Hnow Hw) as [H _]. by rewrite HS in H.
Qed.

End Client.

Lemma surjective_pairing_3 {A B C} (p : A * B * C) : p = (p.1.1, p.1.2, p.2).
Proof. by destruct p as [[??]?]. Qed.

(** A new client satisfies the invariant. *)
Lemma NewClient_wf {Conn} random cfg (c : Client Conn) :
  (∀ raw, random = Ok raw → length raw = 8%nat) → 0 <= cc_ClientID cfg < 2 ^ 64 →
  NewClient random cfg = Ok c → client_wf c ∧ pending c = None ∧ closed c = false.
Proof.
  intros Hr Hid. unfold NewClient. case_bool_decide; [done|]. rewrite bind_Ok.
  intros (cfg1 & Hc1 & Hn).
  assert (Hid1 : 0 < cc_ClientID cfg1 < 2 ^ 64).
  { destruct (_ =? 0) eqn:E; zbool; [|simplify_eq; lia].
    apply bind_Ok in Hc1 as (id & Hs & [= <-]). unfold secureID in Hs.
    destruct random as [raw|]; [|done]. injection Hs as <-. simpl.
    pose proof (be_get_range raw) as Hb. rewrite (Hr raw eq_refl) in Hb.
    change (256 ^ _) with (2 ^ 64) in Hb. destruct (_ =? 0) eqn:E0; zbool; lia. }
  clear Hc1 Hid. revert Hn. set (cfg2 := cfg1 <| DialTimeout ::= _ |> <| IOTimeout ::= _ |>
    <| RetryInitial ::= _ |> <| RetryMaximum ::= _ |> <| MaxAttempts ::= _ |>).
  assert (Hd : ∀ v x, 0 < v → 0 < default_to v x).
  { intros v x Hv. unfold default_to. destruct (_ <=? _) eqn:E; zbool; lia. }
  destruct (_ <? _) eqn:Hlt; [done|]. rewrite bind_Ok. intros ([] & Hl & [= <-]).
  set (cfg3 := if bool_decide _ then _ else _) in *.
  assert (H3 : cc_ClientID cfg3 = cc_ClientID cfg1 ∧ MaxAttempts cfg3 = MaxAttempts cfg2 ∧
    RetryInitial cfg3 = RetryInitial cfg2 ∧ RetryMaximum cfg3 = RetryMaximum cfg2).
  { unfold cfg3. by case_bool_decide. }
  destruct H3 as (E1 & E2 & E3 & E4). zbool.
  split; [|done]. unfold client_wf. cbn [config batchID pending]. rewrite E1, E2, E3, E4.
  split_and!; try done; try lia.
  - apply Hd. done.
  - apply Hd. done.
Qed.

(** ** A scripted world, for the examples *)

(** The bytes each successive connection answers with, the traffic of the open
    one, and the pauses taken; dialling fails when the list has no entry. *)
Record script := mkScript {
  s_replies : list (option (list byte)); s_reply : list byte; s_out : list byte; s_waits : list Z
}.

#[export] Instance script_net : Net script () := {
  net_now w := (sample_time, w);
  net_ctx_err w := (None, w);
  net_wait d w := (None, mkScript (s_replies w) (s_reply w) (s_out w) (s_waits w ++ [d]));
  net_dial _ w := match s_replies w with
    | Some reply :: rest => (Ok (), mkScript rest reply [] (s_waits w))
    | None :: rest => (Err (ErrNew "connection refused"), mkScript rest [] [] (s_waits w))
    | [] => (Err (ErrNew "connection refused"), w)
    end;
  net_set_deadline _ w := (None, w);
  net_out _ w := mkWriter (s_out w) 0 sink_all;
  net_sent _ out w := mkScript (s_replies w) (s_reply w) (w_out out) (s_waits w);
  net_in _ w := mkReader (s_reply w) io_EOF;
  net_received _ input w := mkScript (s_replies w) (rd_data input) (s_out w) (s_waits w);
  net_close _ w := (None, mkScript (s_replies w) [] [] (s_waits w))
}.

Definition sample_config : ClientConfig :=
  mkClientConfig "collector:9000" 7 Second Second (50 * Millisecond) (80 * Millisecond) 4 sample_limits.
Definition sample_client : Client () := mkClient sample_config None 0 None false.

(** Refused, then an overloaded collector, then accepted. *)
Definition sample_script : script :=
  mkScript [None; Some (ack_bytes (mkAck StatusOverloaded 7 1));
            Some (ack_bytes (mkAck StatusAccepted 7 1))] [] [] [].

Lemma sample_client_wf : client_wf sample_client.
Proof. unfold client_wf. split_and!; try done. Qed.

Example sample_send :
  let '(err, c, w) := Send sample_records sample_client sample_script in
  (err, pending c, s_waits w) = (None, None, [53500000; 82400000]).
Proof. vm_compute. reflexivity. Qed.

Lemma Send_success_acknowledged_witness :
  let r := Send sample_records sample_client sample_script in
  closed sample_client = false ∧ pending r.1.2 = None ∧
  ∃ b k w0, batch_of sample_client sample_records sample_script = Ok b ∧
    acknowledged b k w0 r.2 ∧ conn r.1.2 = Some k.
Proof.
  intros r. apply (Send_success_acknowledged sample_records sample_client sample_script r.1.2 r.2).
  vm_compute. reflexivity.
Defined.

(** The batch survives a call whose four attempts all fail. *)
Lemma Send_batch_identity_witness :
  ∃ c' w', (Send sample_records sample_client (mkScript [] [] [] [])).1.2 = c' ∧
  client_wf c' ∧ pending c' ≠ None ∧ (∀ b, pending c' = Some b → EncodedBatch_BatchID b = 1) ∧
  length (s_waits w') = 3%nat.
Proof.
  assert (Hp : pending (Send sample_records sample_client (mkScript [] [] [] [])).1.2 ≠ None)
    by (vm_compute; discriminate).
  assert (Hl : length (s_waits (Send sample_records sample_client (mkScript [] [] [] [])).2) = 3%nat)
    by (vm_compute; reflexivity).
  destruct (Send sample_records sample_client (mkScript [] [] [] [])) as [[err c'] w'] eqn:HS.
  pose proof (Send_batch_identity sample_records sample_client _ err c' w' sample_client_wf HS)
    as (H1 & _ & _ & H2).
  exists c', w'. split; [reflexivity|]. split; [exact H1|]. split; [exact Hp|].
  split; [|exact Hl]. intros b Hb. exact (proj1 (H2 eq_refl b Hb)).
Defined.

Lemma Send_only_witness :
  Forall (λ d, 45000000 <= d <= 88000000)
    (s_waits (Send sample_records sample_client sample_script).2).
Proof.
  destruct (batch_of sample_client sample_records sample_script) as [b|] eqn:Hb;
    [|vm_compute in Hb; discriminate].
  destruct (Send sample_records sample_client sample_script) as [[err c'] w'] eqn:HS.
  apply (Send_only sample_records sample_client sample_script err c' w' b
    (λ w, Forall (λ d, 45000000 <= d <= 88000000) (s_waits w))); try assumption.
  - exact sample_client_wf.
  - reflexivity.
  - reflexivity.
  - split; intros; cbn in *; try assumption.
    + apply Forall_app. split; [assumption|]. constructor; [assumption|constructor].
    + by destruct (s_replies w) as [|[]].
  - intros w Hw. exact Hw.
  - constructor.
Defined.
