(* ===== verification/Dedupe.v ===== *)
(** * In-memory deduplication (internal/collector/dedupe.go)

    [Dedupe.Do] as the critical sections it consists of, the goroutines that run
    them interleaved, and the least-recently-used list as an abstract list of
    keys. *)

From stdpp Require Import gmap strings list fin_maps.
From Stdlib Require Import ZArith Lia.
From S2P Require Import Prelude GoLib.

Record BatchKey := mkBatchKey { key_ClientID : Z; key_BatchID : Z }.

#[export] Instance BatchKey_eq_dec : EqDecision BatchKey.
Proof. solve_decision. Defined.
#[export] Instance BatchKey_countable : Countable BatchKey.
Proof.
  apply (inj_countable' (λ k, (key_ClientID k, key_BatchID k)) (λ p, mkBatchKey p.1 p.2)).
  by intros [].
Defined.

(** [pendingCall]: whether [done] is closed, and the error. *)
Record pendingCall := mkPendingCall { call_done : bool; call_err : option error }.

(** List elements and pending calls are pointers in the code; here they are
    numbers: [elems] is the next element, a call is its index in [calls].  The
    [lru] list is front first. *)
Record Dedupe := mkDedupe {
  capacity : Z; completed : gmap BatchKey nat; lru : list (nat * BatchKey);
  d_pending : gmap BatchKey nat; calls : list pendingCall; elems : nat
}.

#[export] Instance Dedupe_fields : Fields Dedupe := λ r,
  mkDedupe (capacity r) (completed r) (lru r) (d_pending r) (calls r) (elems r).

Definition NewDedupe (capacity : Z) : Dedupe :=
  mkDedupe (if capacity <? 1 then 1 else capacity) ∅ [] ∅ [] 0.

Definition Dedupe_Len (d : Dedupe) : nat := size (completed d).

(** [list.List] operations. *)
Definition MoveToFront (element : nat) (l : list (nat * BatchKey)) : list (nat * BatchKey) :=
  filter (λ p, p.1 = element) l ++ filter (λ p, p.1 ≠ element) l.

Definition Remove (element : nat) (l : list (nat * BatchKey)) : list (nat * BatchKey) :=
  filter (λ p, p.1 ≠ element) l.

(** ** [Do], one critical section at a time *)

(** Where a goroutine is in [Do]: before the first lock, waiting for another
    attempt, running [fn], about to record its result, or back. *)
Inductive do_pc :=
| DoStart
| DoWait (call : nat)
| DoRun (call : nat)
| DoFinish (call : nat) (err : option error)
| DoReturn (duplicate : bool) (err : option error).

(** From the first [Lock] to the matching [Unlock]. *)
Definition do_enter (key : BatchKey) (d : Dedupe) : Dedupe * do_pc :=
  match completed d !! key with
  | Some element => (d <| lru ::= MoveToFront element |>, DoReturn true None)
  | None =>
    match d_pending d !! key with
    | Some call => (d, DoWait call)
    | None =>
      let call := length (calls d) in
      (d <| calls ::= λ l, l ++ [mkPendingCall false None] |>
         <| d_pending ::= <[key := call]> |>, DoRun call)
    end
  end.

(** The [select]: [ctx_err] is the context's error when that case is taken. *)
Definition do_wait (call : nat) (ctx_err : option error) (d : Dedupe) : option do_pc :=
  match ctx_err with
  | Some e => Some (DoReturn false (Some e))
  | None =>
    match calls d !! call with
    | Some c => if call_done c then Some (DoReturn (bool_decide (call_err c = None)) (call_err c))
                else None
    | None => None
    end
  end.

(** Eviction of the oldest entry when the list is over capacity. *)
Definition evict (d : Dedupe) : Dedupe :=
  if len (lru d) >? capacity d then
    match last (lru d) with
    | Some oldest => d <| completed ::= delete oldest.2 |> <| lru ::= Remove oldest.1 |>
    | None => d
    end
  else d.

(** From the second [Lock] to the end. *)
Definition do_finish (key : BatchKey) (call : nat) (err : option error) (d : Dedupe)
  : Dedupe * do_pc :=
  let d := d <| d_pending ::= delete key |>
             <| calls ::= alter (λ c, mkPendingCall (call_done c) err) call |> in
  let element := elems d in
  let d := d <| lru ::= cons (element, key) |> <| elems := S element |>
             <| completed ::= <[key := element]> |> in
  let d := evict d in
  (d <| calls ::= alter (λ c, mkPendingCall true (call_err c)) call |>, DoReturn false err).

(** [Do] run alone, [fn] acting on a state of its own.  [None]: it would wait
    for another goroutine for ever. *)
Definition Do {S} (ctx_err : option error) (key : BatchKey) (fn : S → S * option error)
  (d : Dedupe) (s : S) : option (Dedupe * S * (bool * option error)) :=
  match do_enter key d with
  | (d, DoRun call) =>
      let '(s, err) := fn s in
      match do_finish key call err d with
      | (d, DoReturn duplicate err) => Some (d, s, (duplicate, err))
      | _ => None
      end
  | (d, DoWait call) =>
      match do_wait call ctx_err d with
      | Some (DoReturn duplicate err) => Some (d, s, (duplicate, err))
      | _ => None
      end
  | (d, DoReturn duplicate err) => Some (d, s, (duplicate, err))
  | _ => None
  end.

(** ** Goroutines calling [Do] concurrently *)

(** [runs] records the executions of [fn] that returned, with their results. *)
Record dsys := mkDsys {
  ds_dedupe : Dedupe; ds_threads : gmap nat (BatchKey * do_pc);
  ds_runs : list (BatchKey * option error)
}.

#[export] Instance dsys_fields : Fields dsys := λ r,
  mkDsys (ds_dedupe r) (ds_threads r) (ds_runs r).

Inductive ds_step : dsys → dsys → Prop :=
| ds_call t key s :
    ds_threads s !! t = None →
    ds_step s (s <| ds_threads ::= <[t := (key, DoStart)]> |>)
| ds_enter t key s d pc :
    ds_threads s !! t = Some (key, DoStart) → do_enter key (ds_dedupe s) = (d, pc) →
    ds_step s (s <| ds_dedupe := d |> <| ds_threads ::= <[t := (key, pc)]> |>)
| ds_wait t key call ctx_err s pc :
    ds_threads s !! t = Some (key, DoWait call) →
    do_wait call ctx_err (ds_dedupe s) = Some pc →
    ds_step s (s <| ds_threads ::= <[t := (key, pc)]> |>)
| ds_fn t key call err s :
    ds_threads s !! t = Some (key, DoRun call) →
    ds_step s (s <| ds_threads ::= <[t := (key, DoFinish call err)]> |>
                 <| ds_runs ::= λ l, l ++ [(key, err)] |>)
| ds_finish t key call err s d pc :
    ds_threads s !! t = Some (key, DoFinish call err) →
    do_finish key call err (ds_dedupe s) = (d, pc) →
    ds_step s (s <| ds_dedupe := d |> <| ds_threads ::= <[t := (key, pc)]> |>)
| ds_leave t key duplicate err s :
    ds_threads s !! t = Some (key, DoReturn duplicate err) →
    ds_step s (s <| ds_threads ::= delete t |>).

Definition ds_init (cap : Z) (s : dsys) : Prop := s = mkDsys (NewDedupe cap) ∅ [].

(** A goroutine that owns the pending call of its key. *)
Definition owns (pc : do_pc) : option nat :=
  match pc with DoRun c => Some c | DoFinish c _ => Some c | _ => None end.

(** ** The structure of the table *)

Definition keys (d : Dedupe) : list BatchKey := (lru d).*2.

(** The map and the list agree, element for element. *)
Record dedupe_wf (d : Dedupe) : Prop := mkDedupe_wf {
  wf_cap : 1 <= capacity d;
  wf_size : len (lru d) <= capacity d;
  wf_ids : NoDup (lru d).*1;
  wf_fresh : ∀ p, p ∈ lru d → (p.1 < elems d)%nat;
  wf_map : ∀ k i, completed d !! k = Some i ↔ (i, k) ∈ lru d;
  wf_pending : ∀ k c, d_pending d !! k = Some c →
    completed d !! k = None ∧ calls d !! c = Some (mkPendingCall false None);
  wf_inj : ∀ k1 k2 c, d_pending d !! k1 = Some c → d_pending d !! k2 = Some c → k1 = k2
}.

Lemma wf_keys d : dedupe_wf d → NoDup (keys d).
Proof.
  intros Hd. unfold keys. pose proof (wf_ids d Hd) as Hi. pose proof (wf_map d Hd) as Hm.
  apply NoDup_fmap_2_strong; [|by eapply NoDup_fmap_1].
  intros [i k] [j k'] Hx Hy Heq. simpl in Heq. subst k'.
  apply Hm in Hx, Hy. congruence.
Qed.

Lemma elem_of_keys d k : dedupe_wf d → k ∈ keys d ↔ is_Some (completed d !! k).
Proof.
  intros Hd. unfold keys. rewrite list_elem_of_fmap. split.
  - intros ([i k'] & -> & Hin). exists i. by apply (wf_map d Hd).
  - intros [i Hi]. exists (i, k). split; [done|]. by apply (wf_map d Hd).
Qed.

Lemma NewDedupe_wf cap : dedupe_wf (NewDedupe cap).
Proof.
  split; cbn.
  - destruct (_ <? _) eqn:E; zbool; lia.
  - destruct (_ <? _) eqn:E; zbool; change (len []) with 0; lia.
  - constructor.
  - by intros p ?%elem_of_nil.
  - intros k i. rewrite lookup_empty, elem_of_nil. by split.
  - intros k c. by rewrite lookup_empty.
  - intros k1 k2 c. by rewrite lookup_empty.
Qed.

Lemma elem_of_MoveToFront el l p : p ∈ MoveToFront el l ↔ p ∈ l.
Proof.
  unfold MoveToFront. rewrite elem_of_app, !list_elem_of_filter.
  destruct (decide (p.1 = el)); naive_solver.
Qed.

(** Filtering on one component of a list of pairs. *)
Lemma filter_fst_none (i : nat) (l : list (nat * BatchKey)) :
  i ∉ l.*1 → filter (λ p, p.1 = i) l = [] ∧ filter (λ p, p.1 ≠ i) l = l.
Proof.
  induction l as [|[j k] l IH]; [done|]. cbn [fmap list_fmap].
  intros [Hj Hl]%not_elem_of_cons. destruct (IH Hl) as [IH1 IH2]. cbn in Hj.
  rewrite !filter_cons. rewrite (decide_False (P := j = i)) by congruence.
  rewrite (decide_True (P := j ≠ i)) by congruence. by rewrite IH1, IH2.
Qed.

Lemma filter_keys (l : list (nat * BatchKey)) i k :
  NoDup l.*1 → NoDup l.*2 → (i, k) ∈ l →
  filter (λ p, p.1 = i) l = [(i, k)] ∧ (filter (λ p, p.1 ≠ i) l).*2 = filter (.≠ k) l.*2.
Proof.
  induction l as [|[j k'] l IH]; [by intros _ _ ?%elem_of_nil|].
  cbn [fmap list_fmap fst snd]. intros [Hj H1]%NoDup_cons [Hk H2]%NoDup_cons Hin.
  rewrite !filter_cons. cbn [fst]. apply elem_of_cons in Hin as [[= <- <-]|Hin].
  - destruct (filter_fst_none i l Hj) as [E1 E2].
    rewrite decide_True, (decide_False (P := i ≠ i)), (decide_False (P := k ≠ k)), E1, E2 by naive_solver.
    split; [done|]. clear -Hk. induction (l.*2) as [|x ks IH]; [done|].
    apply not_elem_of_cons in Hk as [??]. rewrite filter_cons, decide_True by congruence.
    f_equal. auto.
  - assert (j ≠ i).
    { intros ->. apply Hj. apply list_elem_of_fmap. by exists (i, k). }
    assert (k' ≠ k).
    { intros ->. apply Hk. apply list_elem_of_fmap. by exists (i, k). }
    destruct (IH H1 H2 Hin) as [E1 E2].
    rewrite decide_False, (decide_True (P := j ≠ i)), (decide_True (P := k' ≠ k)) by done.
    cbn. rewrite E1. split; [done|]. f_equal. apply E2.
Qed.

(** ** The least-recently-used order *)

(** The abstract table: a list of keys, most recent first. *)
Definition lru_touch (k : BatchKey) (ks : list BatchKey) : list BatchKey := k :: filter (.≠ k) ks.
Definition lru_push (cap : Z) (k : BatchKey) (ks : list BatchKey) : list BatchKey :=
  take (Z.to_nat cap) (k :: ks).

Lemma keys_MoveToFront d k i :
  dedupe_wf d → completed d !! k = Some i → (MoveToFront i (lru d)).*2 = lru_touch k (keys d).
Proof.
  intros Hd Hi%(wf_map d Hd). unfold MoveToFront, lru_touch, keys.
  destruct (filter_keys _ _ _ (wf_ids d Hd) (wf_keys d Hd) Hi) as [E1 E2].
  by rewrite E1, fmap_app, E2.
Qed.

Lemma do_enter_hit d k d' :
  dedupe_wf d → do_enter k d = (d', DoReturn true None) →
  k ∈ keys d ∧ keys d' = lru_touch k (keys d).
Proof.
  intros Hd. unfold do_enter. destruct (completed d !! k) as [i|] eqn:E.
  - intros [= <-]. rewrite elem_of_keys, E by done. split; [eauto|]. by apply keys_MoveToFront.
  - by destruct (d_pending d !! k).
Qed.

Lemma do_enter_wf key d d' pc : dedupe_wf d → do_enter key d = (d', pc) → dedupe_wf d'.
Proof.
  intros Hd. unfold do_enter. destruct (completed d !! key) as [i|] eqn:E.
  - intros [= <- <-]. pose proof (keys_MoveToFront d key i Hd E) as Hk.
    destruct Hd as [H1 H2 H3 H4 H5 H6 H7]. pose proof (proj1 (H5 key i) E) as Hin.
    assert (Hkeys : NoDup (lru d).*2) by (by apply wf_keys).
    destruct (filter_keys _ _ _ H3 Hkeys Hin) as [E1 _].
    assert (Hperm : MoveToFront i (lru d) ≡ₚ lru d).
    { apply NoDup_Permutation; [|by eapply NoDup_fmap_1|intros; apply elem_of_MoveToFront].
      unfold MoveToFront. rewrite E1. apply NoDup_app. split_and!.
      - apply NoDup_singleton.
      - intros p ->%list_elem_of_singleton [? _]%list_elem_of_filter. done.
      - apply NoDup_filter. by eapply NoDup_fmap_1. }
    split; cbn; try done.
    + by rewrite Hperm.
    + by rewrite Hperm.
    + intros p. rewrite elem_of_MoveToFront. apply H4.
    + intros k j. rewrite elem_of_MoveToFront. apply H5.
  - destruct (d_pending d !! key) as [c|] eqn:Ep; intros [= <- <-]; [done|].
    destruct Hd as [H1 H2 H3 H4 H5 H6 H7]. split; cbn; try done.
    + intros k c. rewrite lookup_insert. case_decide as Hk.
      * intros [= <-]. subst k. split; [done|]. by rewrite lookup_app_r, Nat.sub_diag by lia.
      * intros [? Hc]%H6. split; [done|]. by apply lookup_app_l_Some.
    + assert (Hfresh : ∀ k, d_pending d !! k = Some (length (calls d)) → False).
      { intros k [_ Hc%lookup_lt_Some]%H6. lia. }
      intros k1 k2 c. rewrite !lookup_insert.
      do 2 case_decide; intros; simplify_eq; try done; [naive_solver..|by eapply H7].
Qed.

Lemma evict_full d i k l o :
  lru d = l ++ [o] → NoDup (lru d).*1 → len (lru d) = capacity d + 1 → (i, k) = o →
  evict d = d <| completed ::= delete k |> <| lru := l |>.
Proof.
  intros Hl Hn Hlen <-. unfold evict. ztest. rewrite Hl, last_snoc. cbn [fst snd].
  unfold Remove. rewrite Hl in Hn. rewrite fmap_app in Hn. apply NoDup_app in Hn as (_ & Hn & _).
  destruct d as [cap comp lr pend cs el]. cbn in *. subst lr. f_equal.
  rewrite filter_app, filter_cons, decide_False by (cbn; congruence). cbn. rewrite app_nil_r.
  apply filter_fst_none. intros Hin. apply (Hn i Hin). by apply list_elem_of_singleton.
Qed.

(** Agreement of a map and a list of numbered keys, across a push and a drop. *)
Definition agree (m : gmap BatchKey nat) (l : list (nat * BatchKey)) : Prop :=
  ∀ k i, m !! k = Some i ↔ (i, k) ∈ l.

Lemma agree_push m l k i : agree m l → m !! k = None → agree (<[k := i]> m) ((i, k) :: l).
Proof.
  intros Hm Hk k' i'. rewrite lookup_insert, elem_of_cons. case_decide as E.
  - subst k'. split; [intros [= <-]; by left|]. intros [[= ->]|Hin%Hm]; [done|congruence].
  - rewrite (Hm k' i'). split; [by right|]. intros [[= -> ->]|?]; done.
Qed.

Lemma agree_drop m l o :
  agree m (l ++ [o]) → NoDup (l ++ [o]).*1 → agree (delete o.2 m) l.
Proof.
  intros Hm Hn k i. destruct o as [io ko]. cbn [snd]. rewrite fmap_app in Hn.
  apply NoDup_app in Hn as (_ & Hn & _).
  assert (Ho : m !! ko = Some io) by (apply Hm; set_solver).
  rewrite lookup_delete. case_decide as E.
  - subst k. split; [done|]. intros Hin. exfalso.
    assert (m !! ko = Some i) by (apply Hm; set_solver). simplify_eq.
    apply (Hn io); [apply list_elem_of_fmap; by exists (io, ko)|]. by apply list_elem_of_singleton.
  - rewrite (Hm k i). set_solver.
Qed.

(** Recording a result: the key becomes the most recent one, the oldest one goes
    when the table is over capacity, and the waiters are released. *)
Lemma do_finish_wf key call err d d' pc :
  dedupe_wf d → d_pending d !! key = Some call → do_finish key call err d = (d', pc) →
  dedupe_wf d' ∧ pc = DoReturn false err ∧ keys d' = lru_push (capacity d) key (keys d) ∧
  d_pending d' = delete key (d_pending d) ∧
  calls d' = alter (λ _, mkPendingCall true err) call (calls d) ∧ capacity d' = capacity d.
Proof.
  intros Hd Hp. pose proof (wf_pending d Hd _ _ Hp) as [Hnone Hcall].
  set (d1 := mkDedupe (capacity d) (<[key := elems d]> (completed d)) ((elems d, key) :: lru d)
    (delete key (d_pending d)) (alter (λ c, mkPendingCall (call_done c) err) call (calls d))
    (S (elems d))).
  change (do_finish key call err d) with
    ((evict d1) <| calls ::= alter (λ c, mkPendingCall true (call_err c)) call |>, DoReturn false err).
  intros [= <- <-].
  assert (Hids : NoDup (lru d1).*1).
  { cbn. constructor; [|exact (wf_ids d Hd)]. intros (q & Hq & Hin)%list_elem_of_fmap.
    pose proof (wf_fresh d Hd q Hin). lia. }
  assert (Hag : agree (completed d1) (lru d1)) by (apply agree_push; [exact (wf_map d Hd)|done]).
  assert (Hfr : ∀ q, q ∈ lru d1 → (q.1 < elems d1)%nat).
  { intros q [->|Hq%(wf_fresh d Hd)]%elem_of_cons; cbn; lia. }
  assert (Hpd : ∀ k c, d_pending d1 !! k = Some c →
    k ≠ key ∧ completed d1 !! k = None ∧ c ≠ call ∧ calls d1 !! c = Some (mkPendingCall false None)).
  { cbn. intros k c [Hk Hc]%lookup_delete_Some. destruct (wf_pending d Hd _ _ Hc) as [Hk1 Hk2].
    assert (c ≠ call) by (intros ->; pose proof (wf_inj d Hd key k call); naive_solver).
    rewrite lookup_insert_ne, list_lookup_alter_ne by done. done. }
  assert (Hinj : ∀ k1 k2 c, d_pending d1 !! k1 = Some c → d_pending d1 !! k2 = Some c → k1 = k2).
  { cbn. intros k1 k2 c [_ ?]%lookup_delete_Some [_ ?]%lookup_delete_Some. by eapply wf_inj. }
  assert (Hcalls : alter (λ c, mkPendingCall true (call_err c)) call (calls d1) =
    alter (λ _, mkPendingCall true err) call (calls d)).
  { apply list_eq. intros j. cbn. destruct (decide (call = j)) as [->|].
    - rewrite !list_lookup_alter_eq. by destruct (calls d !! j).
    - by rewrite !list_lookup_alter_ne. }
  assert (Hlen : len (lru d1) = len (lru d) + 1) by (cbn; lia).
  pose proof (wf_size d Hd) as Hsz. pose proof (wf_cap d Hd) as Hcap.
  assert (Hkeys : keys d1 = key :: keys d) by done.
  destruct (decide (len (lru d1) <= capacity d)) as [Hle|Hgt].
  - assert (Hev : evict d1 = d1).
    { unfold evict. change (capacity d1) with (capacity d). ztest. done. }
    rewrite Hev. split_and!; try done.
    + split; try done. intros k c (_ & ? & ? & ?)%Hpd. cbn. by rewrite list_lookup_alter_ne.
    + unfold lru_push. rewrite take_ge; [done|]. rewrite <- Hkeys. unfold keys.
      rewrite length_fmap. lia.
  - assert (Hne : lru d1 ≠ []) by done.
    destruct (exists_last Hne) as (l & [io ko] & Hl).
    rewrite (evict_full d1 io ko l (io, ko)) by (done || cbn in *; lia). rewrite Hl in *.
    pose proof (agree_drop _ _ _ Hag Hids) as Hag'. rewrite length_app in Hlen, Hgt. cbn in Hlen, Hgt.
    split_and!; try done.
    + split; try done; cbn.
      * lia.
      * rewrite fmap_app in Hids. by apply NoDup_app in Hids as (? & _).
      * intros q Hq. apply Hfr. set_solver.
      * intros k c (_ & ? & ? & ?)%Hpd. rewrite list_lookup_alter_ne by done.
        split; [|done]. by apply lookup_delete_None; right.
    + unfold lru_push. rewrite <- Hkeys. unfold keys. rewrite Hl, fmap_app.
      rewrite take_app_le, take_ge; [done|rewrite length_fmap; lia..].
Qed.

(** ** The concurrent invariant *)

Record ds_inv (s : dsys) : Prop := mkDsInv {
  i_wf : dedupe_wf (ds_dedupe s);
  i_own t k pc c : ds_threads s !! t = Some (k, pc) → owns pc = Some c →
    d_pending (ds_dedupe s) !! k = Some c;
  i_unique t1 t2 k1 k2 pc1 pc2 c :
    ds_threads s !! t1 = Some (k1, pc1) → ds_threads s !! t2 = Some (k2, pc2) →
    owns pc1 = Some c → owns pc2 = Some c → t1 = t2;
  i_owner k c : d_pending (ds_dedupe s) !! k = Some c →
    ∃ t pc, ds_threads s !! t = Some (k, pc) ∧ owns pc = Some c;
  i_finish t k c e : ds_threads s !! t = Some (k, DoFinish c e) → (k, e) ∈ ds_runs s;
  i_wait t k c : ds_threads s !! t = Some (k, DoWait c) →
    d_pending (ds_dedupe s) !! k = Some c ∨
    ∃ e, calls (ds_dedupe s) !! c = Some (mkPendingCall true e) ∧ (k, e) ∈ ds_runs s;
  i_keys k : k ∈ keys (ds_dedupe s) → ∃ e, (k, e) ∈ ds_runs s;
  i_dup t k e : ds_threads s !! t = Some (k, DoReturn true e) → e = None ∧ ∃ e', (k, e') ∈ ds_runs s;
  i_ok t k : ds_threads s !! t = Some (k, DoReturn false None) → (k, None) ∈ ds_runs s
}.

Lemma ds_init_inv cap s : ds_init cap s → ds_inv s.
Proof.
  intros ->. split; cbn; try (intros *; rewrite !lookup_empty; done).
  - apply NewDedupe_wf.
  - by intros k ?%elem_of_nil.
Qed.

(** A goroutine that moves to a point where it owns nothing and claims only
    what is recorded leaves the rest of the invariant alone. *)
Lemma thread_step_inv s t k0 pc0 k pc :
  ds_inv s → ds_threads s !! t = pc0 → (∀ p, pc0 = Some p → p.1 = k0 ∧ owns p.2 = None) →
  owns pc = None → (∀ c, pc ≠ DoWait c) →
  (∀ e, pc = DoReturn true e → e = None ∧ ∃ e', (k, e') ∈ ds_runs s) →
  (pc = DoReturn false None → (k, None) ∈ ds_runs s) →
  ds_inv (s <| ds_threads ::= <[t := (k, pc)]> |>).
Proof.
  intros [H1 H2 H3 H4 H5 H6 H7 H8 H9] Hpc0 Ho Hpc Hw Hdup Hok. split; cbn; try done.
  - intros t' k' pc' c. rewrite lookup_insert. case_decide; [intros; simplify_eq|]. apply H2.
  - intros t1 t2 k1 k2 pc1 pc2 c. rewrite !lookup_insert.
    do 2 case_decide; intros; simplify_eq; try done; by eapply H3.
  - intros k' c (t' & pc' & Ht & Hc)%H4. exists t', pc'. rewrite lookup_insert_ne; [done|].
    intros <-. simplify_eq. destruct (Ho _ Ht) as [_ Hn]. cbn in Hn. congruence.
  - intros t' k' c e. rewrite lookup_insert. case_decide; [intros; simplify_eq|]. apply H5.
  - intros t' k' c. rewrite lookup_insert. case_decide; [intros [= <- ->]; by destruct (Hw c)|]. apply H6.
  - intros t' k' e. rewrite lookup_insert. case_decide; [intros [= <- ->]; by apply Hdup|]. apply H8.
  - intros t' k'. rewrite lookup_insert. case_decide; [intros [= <- ->]; by apply Hok|]. apply H9.
Qed.

Lemma enter_inv s t k d pc :
  ds_inv s → ds_threads s !! t = Some (k, DoStart) → do_enter k (ds_dedupe s) = (d, pc) →
  ds_inv (s <| ds_dedupe := d |> <| ds_threads ::= <[t := (k, pc)]> |>).
Proof.
  intros Hinv Ht He. pose proof (do_enter_wf _ _ _ _ (i_wf s Hinv) He) as Hwf.
  pose proof He as He'. unfold do_enter in He.
  destruct (completed (ds_dedupe s) !! k) as [i|] eqn:Ec.
  { injection He as <- <-. pose proof (do_enter_hit _ _ _ (i_wf s Hinv) He') as [Hk Hks].
    apply (thread_step_inv (s <| ds_dedupe := _ |>) t k (Some (k, DoStart))); try done.
    - destruct Hinv as [H1 H2 H3 H4 H5 H6 H7 H8 H9]. split; try done.
      intros k' Hk'. assert (Hk2 : k' ∈ lru_touch k (keys (ds_dedupe s))) by (by rewrite <- Hks).
      apply elem_of_cons in Hk2 as [->|[_ Hk2]%list_elem_of_filter]; by apply H7.
    - by intros ? [= <-].
    - intros e [= <-]. split; [done|]. cbn. by apply (i_keys s Hinv). }
  destruct (d_pending (ds_dedupe s) !! k) as [c|] eqn:Ep; injection He as <- <-.
  - destruct Hinv as [H1 H2 H3 H4 H5 H6 H7 H8 H9]. split; cbn; try done.
    + intros t' k' pc' c'. rewrite lookup_insert. case_decide; [by intros [= <- <-]|]. apply H2.
    + intros t1 t2 k1 k2 pc1 pc2 c'. rewrite !lookup_insert.
      do 2 case_decide; intros; simplify_eq; try done; by eapply H3.
    + intros k' c' (t' & pc' & Ht' & Hc)%H4. exists t', pc'. rewrite lookup_insert_ne; [done|].
      intros <-. by simplify_eq.
    + intros t' k' c' e. rewrite lookup_insert. case_decide; [done|]. apply H5.
    + intros t' k' c'. rewrite lookup_insert. case_decide; [intros [= <- <-]; by left|]. apply H6.
    + intros t' k' e. rewrite lookup_insert. case_decide; [done|]. apply H8.
    + intros t' k'. rewrite lookup_insert. case_decide; [done|]. apply H9.
  - assert (Hfresh : ∀ k', d_pending (ds_dedupe s) !! k' ≠ Some (length (calls (ds_dedupe s)))).
    { intros k' Hk'. destruct (wf_pending _ (i_wf s Hinv) _ _ Hk') as [_ Hl%lookup_lt_Some]. lia. }
    destruct Hinv as [H1 H2 H3 H4 H5 H6 H7 H8 H9]. split; cbn; try done.
    + intros t' k' pc' c'. rewrite lookup_insert. case_decide.
      * intros [= <- <-] [= <-]. by rewrite lookup_insert_eq.
      * intros Ht' Ho. pose proof (H2 _ _ _ _ Ht' Ho). by rewrite lookup_insert_ne by congruence.
    + intros t1 t2 k1 k2 pc1 pc2 c'. rewrite !lookup_insert.
      do 2 case_decide; intros Ht1 Ht2 Ho1 Ho2; simplify_eq/=; [done|..].
      * by destruct (Hfresh k2); eapply H2.
      * by destruct (Hfresh k1); eapply H2.
      * by eapply H3.
    + intros k' c'. rewrite lookup_insert. case_decide.
      * intros [= <-]. subst k'. eexists t, _. rewrite lookup_insert_eq. by split.
      * intros (t' & pc' & Ht' & Hc)%H4. exists t', pc'. rewrite lookup_insert_ne; [done|].
        intros <-. by simplify_eq.
    + intros t' k' c' e. rewrite lookup_insert. case_decide; [done|]. apply H5.
    + intros t' k' c'. rewrite lookup_insert. case_decide; [done|].
      intros [Hp|(e & Hc & Hr)]%H6.
      * left. rewrite lookup_insert_ne by congruence. done.
      * right. exists e. split; [|done]. by apply lookup_app_l_Some.
    + intros t' k' e. rewrite lookup_insert. case_decide; [done|]. apply H8.
    + intros t' k'. rewrite lookup_insert. case_decide; [done|]. apply H9.
Qed.

Lemma fn_inv s t k c e :
  ds_inv s → ds_threads s !! t = Some (k, DoRun c) →
  ds_inv (s <| ds_threads ::= <[t := (k, DoFinish c e)]> |> <| ds_runs ::= λ l, l ++ [(k, e)] |>).
Proof.
  intros [H1 H2 H3 H4 H5 H6 H7 H8 H9] Ht. split; cbn; try done.
  - intros t' k' pc' c'. rewrite lookup_insert. case_decide; [|apply H2].
    intros [= <- <-] [= <-]. by eapply H2.
  - intros t1 t2 k1 k2 pc1 pc2 c'. rewrite !lookup_insert.
    do 2 case_decide; intros; simplify_eq/=; [done|by eapply (H3 t1 t2)..].
  - intros k' c' (t' & pc' & Ht' & Hc)%H4. destruct (decide (t' = t)) as [->|].
    + simplify_eq/=. eexists t, _. rewrite lookup_insert_eq. by split.
    + exists t', pc'. by rewrite lookup_insert_ne.
  - intros t' k' c' e'. rewrite lookup_insert, elem_of_app. case_decide.
    + intros [= <- <- <-]. right. by apply list_elem_of_singleton.
    + intros ?%H5. by left.
  - intros t' k' c'. rewrite lookup_insert. case_decide; [done|].
    intros [?|(e' & ? & ?)]%H6; [by left|right]. exists e'. rewrite elem_of_app. auto.
  - intros k' [e' ?]%H7. exists e'. rewrite elem_of_app. auto.
  - intros t' k' e'. rewrite lookup_insert. case_decide; [done|].
    intros (? & e2 & ?)%H8. split; [done|]. exists e2. rewrite elem_of_app. auto.
  - intros t' k'. rewrite lookup_insert. case_decide; [done|]. intros ?%H9. rewrite elem_of_app. auto.
Qed.

Lemma elem_of_lru_push cap k ks k' : k' ∈ lru_push cap k ks → k' = k ∨ k' ∈ ks.
Proof. unfold lru_push. intros H. apply elem_of_take in H as (i & H & _).
  apply list_elem_of_lookup_2, elem_of_cons in H. done. Qed.

Lemma finish_inv s t k c e d pc :
  ds_inv s → ds_threads s !! t = Some (k, DoFinish c e) → do_finish k c e (ds_dedupe s) = (d, pc) →
  ds_inv (s <| ds_dedupe := d |> <| ds_threads ::= <[t := (k, pc)]> |>).
Proof.
  intros [H1 H2 H3 H4 H5 H6 H7 H8 H9] Ht Hf.
  pose proof (H2 _ _ _ _ Ht eq_refl) as Hp. pose proof (H5 _ _ _ _ Ht) as Hrun.
  destruct (do_finish_wf _ _ _ _ _ _ H1 Hp Hf) as (Hwf & -> & Hk & Hpend & Hcalls & _).
  split; cbn; try done; rewrite ?Hpend, ?Hcalls.
  - intros t' k' pc' c'. rewrite lookup_insert. case_decide; [by intros [= <- <-]|].
    intros Ht' Ho. pose proof (H2 _ _ _ _ Ht' Ho) as Hp'.
    rewrite lookup_delete_ne; [done|]. intros ->. simplify_eq.
    assert (t = t') by (by eapply H3). done.
  - intros t1 t2 k1 k2 pc1 pc2 c'. rewrite !lookup_insert.
    do 2 case_decide; intros; simplify_eq; try done; by eapply H3.
  - intros k' c' [Hne Hp']%lookup_delete_Some. apply H4 in Hp' as (t' & pc' & Ht' & Hc).
    exists t', pc'. rewrite lookup_insert_ne; [done|]. intros <-. simplify_eq.
  - intros t' k' c' e'. rewrite lookup_insert. case_decide; [done|]. apply H5.
  - intros t' k' c'. rewrite lookup_insert. case_decide; [done|].
    intros [Hp'|(e' & Hc & Hr)]%H6.
    + destruct (decide (k' = k)) as [->|Hne]; [|left; by rewrite lookup_delete_ne].
      right. simplify_eq. exists e. split; [|done].
      destruct (wf_pending _ H1 _ _ Hp) as [_ Hc]. by rewrite list_lookup_alter_eq, Hc.
    + right. exists e'. split; [|done]. rewrite list_lookup_alter_ne; [done|].
      intros <-. destruct (wf_pending _ H1 _ _ Hp) as [_ Hc']. by simplify_eq.
  - intros k'. rewrite Hk. intros [->|?]%elem_of_lru_push; [eauto|by apply H7].
  - intros t' k' e'. rewrite lookup_insert. case_decide; [done|]. apply H8.
  - intros t' k'. rewrite lookup_insert. case_decide; [by intros [= <- ->]|]. apply H9.
Qed.

Lemma leave_inv s t k b e :
  ds_inv s → ds_threads s !! t = Some (k, DoReturn b e) → ds_inv (s <| ds_threads ::= delete t |>).
Proof.
  intros [H1 H2 H3 H4 H5 H6 H7 H8 H9] Ht. split; cbn; try done.
  - intros t' k' pc c [_ E]%lookup_delete_Some. by apply (H2 t').
  - intros t1 t2 k1 k2 pc1 pc2 c [_ E1]%lookup_delete_Some [_ E2]%lookup_delete_Some. by eapply H3.
  - intros k' c (t' & pc & E & Hc)%H4. exists t', pc. rewrite lookup_delete_ne; [done|]. intros <-. by simplify_eq.
  - intros t' k' c e' [_ E]%lookup_delete_Some. by eapply H5.
  - intros t' k' c [_ E]%lookup_delete_Some. by eapply H6.
  - intros t' k' e' [_ E]%lookup_delete_Some. by eapply H8.
  - intros t' k' [_ E]%lookup_delete_Some. by eapply H9.
Qed.

Lemma ds_step_inv s s' : ds_inv s → ds_step s s' → ds_inv s'.
Proof.
  intros Hinv Hs. destruct Hs as [t k s Ht|t k s d pc Ht He|t k c ctx s pc Ht Hw|t k c e s Ht
    |t k c e s d pc Ht Hf|t k b e s Ht].
  - by apply (thread_step_inv s t k None).
  - by eapply enter_inv.
  - unfold do_wait in Hw. destruct ctx as [e|].
    + injection Hw as <-. apply (thread_step_inv s t k (Some (k, DoWait c))); try done.
      by intros ? [= <-].
    + destruct (calls (ds_dedupe s) !! c) as [[[] e]|] eqn:Ec; cbn in Hw; simplify_eq.
      assert (Hr : (k, e) ∈ ds_runs s).
      { destruct (i_wait s Hinv _ _ _ Ht) as [Hp|(e' & ? & ?)]; [|by simplify_eq].
        destruct (wf_pending _ (i_wf s Hinv) _ _ Hp) as [_ ?]. by simplify_eq. }
      apply (thread_step_inv s t k (Some (k, DoWait c))); try done.
      * by intros ? [= <-].
      * intros e' [= Hb ->]. apply bool_decide_eq_true in Hb. eauto.
      * intros [= Hb ->]. by apply bool_decide_eq_false in Hb.
  - by eapply fn_inv.
  - by eapply finish_inv.
  - by eapply leave_inv.
Qed.

Lemma ds_reach_inv cap s : reach (ds_init cap) ds_step s → ds_inv s.
Proof.
  apply reach_invariant; [apply ds_init_inv|]. intros s1 s2 _. apply ds_step_inv.
Qed.

Lemma Dedupe_Len_keys d : dedupe_wf d → Dedupe_Len d = length (keys d).
Proof.
  intros Hd. unfold Dedupe_Len. rewrite <- size_dom.
  rewrite <- (size_list_to_set (C := gset BatchKey) (keys d)) by (by apply wf_keys).
  f_equal. apply set_eq. intros k.
  rewrite elem_of_dom, elem_of_list_to_set, elem_of_keys by done. done.
Qed.

Lemma ds_reach_capacity cap s : reach (ds_init cap) ds_step s → capacity (ds_dedupe s) = Z.max 1 cap.
Proof.
  apply (reach_invariant (ds_init cap) ds_step (λ s, capacity (ds_dedupe s) = Z.max 1 cap)).
  - intros s0 ->. cbn. destruct (_ <? _) eqn:E; zbool; lia.
  - intros s1 s2 Hr Hc Hs. pose proof (ds_reach_inv _ _ Hr) as Hinv.
    destruct Hs as [| t k s' d pc Ht He | | |t k c e s' d pc Ht Hf|]; try done; cbn.
    + unfold do_enter in He. destruct (completed _ !! k); [by simplify_eq|].
      by destruct (d_pending _ !! k); simplify_eq.
    + eapply do_finish_wf in Hf as (_ & _ & _ & _ & _ & ->); [done|apply Hinv|by eapply i_own].
Qed.

(** C15. In every state that concurrent calls of [Do] can reach: the table
    holds at most [capacity] keys, each once, and [Len] counts them; a key is
    either recorded or in flight, never both; at most one goroutine is running
    the work of a key; and whoever waits has its call already closed or waits
    for one that some goroutine is executing, so no wait is left behind. *)
Theorem dedupe_single_flight cap s :
  reach (ds_init cap) ds_step s →
  NoDup (keys (ds_dedupe s)) ∧ Z.of_nat (Dedupe_Len (ds_dedupe s)) <= Z.max 1 cap ∧
  Dedupe_Len (ds_dedupe s) = length (keys (ds_dedupe s)) ∧
  (∀ t1 t2 k pc1 pc2, ds_threads s !! t1 = Some (k, pc1) → ds_threads s !! t2 = Some (k, pc2) →
     owns pc1 ≠ None → owns pc2 ≠ None → t1 = t2) ∧
  (∀ t k pc, ds_threads s !! t = Some (k, pc) → owns pc ≠ None → k ∉ keys (ds_dedupe s)) ∧
  (∀ t k c, ds_threads s !! t = Some (k, DoWait c) →
     (∃ pc, do_wait c None (ds_dedupe s) = Some pc) ∨
     ∃ t' pc, t' ≠ t ∧ ds_threads s !! t' = Some (k, pc) ∧ owns pc = Some c).
Proof.
  intros Hr. pose proof (ds_reach_inv _ _ Hr) as Hinv. pose proof (ds_reach_capacity _ _ Hr) as Hc.
  pose proof (i_wf s Hinv) as Hwf. pose proof (Dedupe_Len_keys _ Hwf) as Hlen.
  split; [by apply wf_keys|]. split.
  { rewrite Hlen, <- Hc. unfold keys. rewrite length_fmap. apply Hwf. }
  split; [done|]. split_and!.
  - intros t1 t2 k pc1 pc2 H1 H2 Ho1 Ho2.
    destruct (owns pc1) as [c1|] eqn:E1, (owns pc2) as [c2|] eqn:E2; try done.
    pose proof (i_own s Hinv _ _ _ _ H1 E1). pose proof (i_own s Hinv _ _ _ _ H2 E2).
    simplify_eq. by eapply (i_unique s Hinv).
  - intros t k pc Ht Ho. destruct (owns pc) as [c|] eqn:E; [|done].
    rewrite elem_of_keys by done. pose proof (i_own s Hinv _ _ _ _ Ht E) as Hp.
    destruct (wf_pending _ Hwf _ _ Hp) as [-> _]. by intros [? ?].
  - intros t k c Ht. destruct (i_wait s Hinv _ _ _ Ht) as [Hp|(e & He & _)].
    + right. destruct (i_owner s Hinv _ _ Hp) as (t' & pc & Ht' & Ho). exists t', pc.
      split; [|done]. intros ->. simplify_eq.
    + left. unfold do_wait. rewrite He. cbn. eauto.
Qed.

(** Two goroutines with the same key: the second waits for the first. *)
Definition sample_key : BatchKey := mkBatchKey 7 1.
Definition two_callers : dsys :=
  mkDsys (do_enter sample_key (NewDedupe 2)).1
    {[1%nat := (sample_key, DoRun 0); 2%nat := (sample_key, DoWait 0)]} [].

Ltac ds_run t H :=
  let H' := fresh in
  match type of H with reach _ _ ?s =>
    eassert (H' : ds_step s _) by
      first [solve [eapply (ds_call t sample_key); vm_compute; reflexivity]
            |solve [eapply (ds_enter t); vm_compute; reflexivity]
            |solve [eapply (ds_fn t _ _ None); vm_compute; reflexivity]
            |solve [eapply (ds_finish t); vm_compute; reflexivity]]
  end; apply (reach_step _ _ _ _ H) in H'; clear H; rename H' into H.

Lemma two_callers_reach : reach (ds_init 2) ds_step two_callers.
Proof.
  assert (H : reach (ds_init 2) ds_step (mkDsys (NewDedupe 2) ∅ [])) by (by apply reach_init).
  ds_run 1%nat H. ds_run 1%nat H. ds_run 2%nat H. ds_run 2%nat H. exact H.
Qed.

Lemma dedupe_single_flight_witness :
  Z.of_nat (Dedupe_Len (ds_dedupe two_callers)) <= 2 ∧ sample_key ∉ keys (ds_dedupe two_callers).
Proof.
  pose proof (dedupe_single_flight 2 two_callers two_callers_reach) as (_ & H & _ & _ & Hk & _).
  split; [exact H|]. apply (Hk 1%nat sample_key (DoRun 0)); [reflexivity|discriminate].
Defined.

(** What the answers of concurrent calls mean: [(false, nil)] is only
    returned when the work of that key ran and succeeded, and [(true, _)] carries
    no error and is only returned when the work of that key ran before. *)
Theorem dedupe_answers cap s t k duplicate err :
  reach (ds_init cap) ds_step s → ds_threads s !! t = Some (k, DoReturn duplicate err) →
  (duplicate = false → err = None → (k, None) ∈ ds_runs s) ∧
  (duplicate = true → err = None ∧ ∃ e, (k, e) ∈ ds_runs s).
Proof.
  intros Hinv%ds_reach_inv Ht. split; [intros -> ->; by eapply i_ok|intros ->; by eapply i_dup].
Qed.

(** The first goroutine runs to its answer, then the second wakes up. *)
Lemma dedupe_answers_witness :
  ∃ s, ds_threads s !! 1%nat = Some (sample_key, DoReturn false None) ∧
       (sample_key, None) ∈ ds_runs s.
Proof.
  pose proof two_callers_reach as H. ds_run 1%nat H. ds_run 1%nat H.
  match type of H with reach _ _ ?x => exists x end. split; [vm_compute; reflexivity|].
  refine (proj1 (dedupe_answers 2 _ 1 sample_key false None H _) eq_refl eq_refl).
  vm_compute. reflexivity.
Defined.

(** ** [Do] run alone *)

Lemma Do_spec {S} ctx_err k (fn : S → S * option error) d s :
  dedupe_wf d → d_pending d = ∅ →
  ∃ d', dedupe_wf d' ∧ d_pending d' = ∅ ∧ capacity d' = capacity d ∧
    (k ∈ keys d → Do ctx_err k fn d s = Some (d', s, (true, None)) ∧
                  keys d' = lru_touch k (keys d)) ∧
    (k ∉ keys d → Do ctx_err k fn d s = Some (d', (fn s).1, (false, (fn s).2)) ∧
                  keys d' = lru_push (capacity d) k (keys d)).
Proof.
  intros Hd Hp. unfold Do. destruct (do_enter k d) as [d1 pc] eqn:E.
  pose proof (do_enter_wf _ _ _ _ Hd E) as Hd1. pose proof E as E'. unfold do_enter in E.
  pose proof (elem_of_keys d k Hd) as Hel. destruct (completed d !! k) as [i|] eqn:Ec.
  - injection E as <- <-. apply do_enter_hit in E' as [_ Hk]; [|done].
    eexists. split_and!; [exact Hd1|done|done|intros _; by split|intros []; apply Hel; eauto].
  - rewrite Hp, lookup_empty in E. injection E as <- <-. destruct (fn s) as [s1 err].
    destruct (do_finish k _ err _) as [d2 pc2] eqn:Ef.
    eapply do_finish_wf in Ef as (Hd2 & -> & Hk & Hp2 & _ & Hcap); [|done|cbn; by rewrite lookup_insert_eq].
    exists d2. split_and!; [done| |by rewrite Hcap|by intros []%Hel|intros _; split; [done|]].
    + rewrite Hp2. cbn. rewrite Hp. by rewrite insert_empty, delete_singleton_eq.
    + by rewrite Hk.
Qed.

(** The contract: a list of keys, most recent first.  A request names a key and
    the outcome its work has if it is run. *)
Definition spec_do (cap : Z) (ks : list BatchKey) (k : BatchKey) (outcome : option error)
  : list BatchKey * bool * option error :=
  if decide (k ∈ ks) then (lru_touch k ks, true, None) else (lru_push cap k ks, false, outcome).

Fixpoint spec_requests (cap : Z) (ks : list BatchKey) (rs : list (BatchKey * option error))
  : list (bool * option error) * list BatchKey :=
  match rs with
  | [] => ([], ks)
  | (k, outcome) :: rs =>
      let '(ks, duplicate, err) := spec_do cap ks k outcome in
      let '(answers, ks) := spec_requests cap ks rs in ((duplicate, err) :: answers, ks)
  end.

(** The calls of [Do], one after the other; the state is the list of keys whose
    work was run. *)
Fixpoint do_requests (d : Dedupe) (ran : list BatchKey) (rs : list (BatchKey * option error))
  : option (list (bool * option error) * list BatchKey * Dedupe) :=
  match rs with
  | [] => Some ([], ran, d)
  | (k, outcome) :: rs =>
      '(d, ran, answer) ← Do None k (λ ran, (ran ++ [k], outcome)) d ran;
      '(answers, ran, d) ← do_requests d ran rs;
      Some (answer :: answers, ran, d)
  end.

(** The keys whose work a list of answers says was run. *)
Definition ran_keys (rs : list (BatchKey * option error)) (answers : list (bool * option error))
  : list BatchKey :=
  (filter (λ p, p.2.1 = false) (zip rs answers)).*1.*1.

Lemma do_requests_spec rs : ∀ d ran,
  dedupe_wf d → d_pending d = ∅ →
  ∃ d', do_requests d ran rs =
    Some ((spec_requests (capacity d) (keys d) rs).1,
          ran ++ ran_keys rs (spec_requests (capacity d) (keys d) rs).1, d') ∧
    keys d' = (spec_requests (capacity d) (keys d) rs).2.
Proof.
  induction rs as [|[k o] rs IH]; intros d ran Hd Hp.
  - exists d. by rewrite app_nil_r.
  - cbn [do_requests spec_requests]. unfold spec_do.
    destruct (Do_spec None k (λ ran, (ran ++ [k], o)) d ran Hd Hp) as (d1 & Hd1 & Hp1 & Hc1 & Hin & Hout).
    case_decide as Hk; [destruct (Hin Hk) as [-> Hk1]|destruct (Hout Hk) as [-> Hk1]];
      cbn [mbind option_bind fst snd].
    + destruct (IH d1 ran Hd1 Hp1) as (d2 & -> & Hk2). rewrite Hc1, Hk1 in *.
      destruct (spec_requests _ _ rs) as [answers ks]. by exists d2.
    + destruct (IH d1 (ran ++ [k]) Hd1 Hp1) as (d2 & -> & Hk2). rewrite Hc1, Hk1 in *.
      destruct (spec_requests _ _ rs) as [answers ks]. exists d2. split; [|done].
      cbn. by rewrite <- app_assoc.
Qed.

(** Refinement: any sequence of calls on a new table is answered, and runs
    exactly the work, that the abstract least-recently-used list prescribes: a
    recorded key is a duplicate, runs nothing and becomes the most recent one;
    any other key is run once, answered with its outcome and put in front, the
    least recent key leaving when the capacity is exceeded. *)
Theorem Do_refines_lru cap rs :
  let spec := spec_requests (Z.max 1 cap) [] rs in
  ∃ d, do_requests (NewDedupe cap) [] rs = Some (spec.1, ran_keys rs spec.1, d) ∧ keys d = spec.2.
Proof.
  pose proof (do_requests_spec rs (NewDedupe cap) [] (NewDedupe_wf cap) eq_refl) as H.
  assert (Hc : capacity (NewDedupe cap) = Z.max 1 cap).
  { cbn. destruct (_ <? _) eqn:E; zbool; lia. }
  by rewrite Hc in H.
Qed.

(** Failed work is recorded like successful work: after an attempt whose
    work failed, a retry of the same key is answered [(true, nil)] and its work
    is not run, in whatever state it is offered. *)
Theorem Do_failure_not_retried {S} ctx_err k (fn fn' : S → S * option error) d s s' e :
  dedupe_wf d → d_pending d = ∅ → k ∉ keys d → (fn s).2 = Some e →
  ∃ d1 d2, Do ctx_err k fn d s = Some (d1, (fn s).1, (false, Some e)) ∧
    Do ctx_err k fn' d1 s' = Some (d2, s', (true, None)).
Proof.
  intros Hd Hp Hk Hfn. destruct (Do_spec ctx_err k fn d s Hd Hp) as (d1 & Hd1 & Hp1 & Hc1 & _ & H1).
  destruct (H1 Hk) as [E1 Hk1].
  destruct (Do_spec ctx_err k fn' d1 s' Hd1 Hp1) as (d2 & _ & _ & _ & H2 & _).
  exists d1, d2. split; [by rewrite E1, Hfn|]. apply H2. rewrite Hk1. unfold lru_push.
  pose proof (wf_cap d Hd). destruct (Z.to_nat (capacity d)) eqn:E; [lia|]. cbn. by left.
Qed.

Lemma Do_failure_not_retried_witness :
  ∃ d1 d2, Do None (mkBatchKey 7 1) (λ n : nat, (n, Some io_ErrShortWrite)) (NewDedupe 2) 0%nat =
      Some (d1, 0%nat, (false, Some io_ErrShortWrite)) ∧
    Do None (mkBatchKey 7 1) (λ n : nat, (S n, None)) d1 0%nat = Some (d2, 0%nat, (true, None)).
Proof.
  apply (Do_failure_not_retried None (mkBatchKey 7 1) (λ n : nat, (n, Some io_ErrShortWrite))
    (λ n : nat, (S n, None)) (NewDedupe 2) 0%nat 0%nat io_ErrShortWrite);
    [apply NewDedupe_wf|reflexivity|apply not_elem_of_nil|reflexivity].
Defined.
