(* ===== verification/Collector.v ===== *)
(** * The collector server (internal/collector/server.go)

    Configuration, admission of connections in [Serve], the request loop of
    [handle] on top of [ReadBatch], [Dedupe.Do] and [WriteAck], [Close] and
    [Stats].  The batch sink is the code's interface: any function on a state of
    its own. *)

From stdpp Require Import gmap strings list fin_maps.
From Stdlib Require Import ZArith Lia.
From Stdlib.Strings Require Import Byte Ascii.
From S2P Require Import Prelude GoLib Protocol Dedupe.

Definition Second : Z := 1000000000.

Record Config := mkConfig {
  Address : string; MaxConnections : Z; ReadTimeout : Z; WriteTimeout : Z; SinkTimeout : Z;
  DedupeEntries : Z; Config_Limits : Limits
}.

Definition DefaultConfig : Config :=
  mkConfig "127.0.0.1:28641" 256 (10 * Second) (5 * Second) (10 * Second) 100000 DefaultLimits.

Definition Config_validate (c : Config) : result unit :=
  if bool_decide (Address c = "") || (MaxConnections c <=? 0) || (ReadTimeout c <=? 0)
     || (WriteTimeout c <=? 0) || (SinkTimeout c <=? 0) || (DedupeEntries c <=? 0)
  then Err (ErrNew "collector address, positive limits, and timeouts are required")
  else Limits_Validate (Config_Limits c).

Record Stats := mkStats {
  Connections : Z; AcceptedBatches : Z; DuplicateBatches : Z; InvalidFrames : Z;
  Overloaded : Z; SinkErrors : Z
}.

#[export] Instance Stats_fields : Fields Stats := λ r,
  mkStats (Connections r) (AcceptedBatches r) (DuplicateBatches r) (InvalidFrames r)
    (Overloaded r) (SinkErrors r).

(** [sema] is the number of tokens in the semaphore channel, [active] the set
    of open connections, [cancelled] the state of [ctx]. *)
Record Server := mkServer {
  config : Config; dedupe : Dedupe; stats : Stats; sema : Z; active : gset nat;
  listening : bool; cancelled : bool
}.

#[export] Instance Server_fields : Fields Server := λ r,
  mkServer (config r) (dedupe r) (stats r) (sema r) (active r) (listening r) (cancelled r).

(** [New]; [has_sink] is [sink != nil]. *)
Definition New (config : Config) (has_sink : bool) : result Server :=
  _ ← Config_validate config;
  _ ← guard_err (negb has_sink) (ErrNew "collector sink is required");
  Ok (mkServer config (NewDedupe (DedupeEntries config)) (mkStats 0 0 0 0 0 0) 0 ∅ false false).

(** ** One connection *)

(** The peer's bytes, what is written to it, and the errors of the
    [SetReadDeadline]/[SetWriteDeadline] calls in order. *)
Record connection := mkConnection { c_in : reader; c_out : writer; c_deadlines : list (option error) }.

#[export] Instance connection_fields : Fields connection := λ r,
  mkConnection (c_in r) (c_out r) (c_deadlines r).

Definition SetDeadline (c : connection) : option error * connection :=
  match c_deadlines c with
  | [] => (None, c)
  | e :: rest => (e, c <| c_deadlines := rest |>)
  end.

Definition context_Canceled : error := ErrNew "context canceled".

Section Server.
Context {Sink : Type} (WriteBatch : list (list byte) → Sink → Sink * option error).

(** The switch on the outcome of [Do]: the status and the counter. *)
Definition ack_status (duplicate : bool) (sinkErr : option error) : Z :=
  match sinkErr with
  | Some _ => StatusSinkError
  | None => if duplicate then StatusDuplicate else StatusAccepted
  end.

Definition count_outcome (duplicate : bool) (sinkErr : option error) (st : Stats) : Stats :=
  match sinkErr with
  | Some _ => st <| SinkErrors ::= inc |>
  | None => if duplicate then st <| DuplicateBatches ::= inc |> else st <| AcceptedBatches ::= inc |>
  end.

(** One turn of the loop of [handle]; the flag says whether the loop goes on.
    [None]: the turn waits for another connection's attempt at the same batch. *)
Definition handle_batch (s : Server) (sk : Sink) (c : connection)
  : option (Server * Sink * connection * bool) :=
  match SetDeadline c with
  | (Some _, c) => Some (s, sk, c, false)
  | (None, c) =>
    match ReadBatch (c_in c) (Config_Limits (config s)) with
    | (Err e, input) =>
        let s := if negb (errors_Is e "EOF") then s <| stats ::= update_with InvalidFrames inc |>
                 else s in
        Some (s, sk, c <| c_in := input |>, false)
    | (Ok batch, input) =>
        let c := c <| c_in := input |> in
        let key := mkBatchKey (ClientID (Batch_Header batch)) (BatchID (Batch_Header batch)) in
        let ctx_err := if cancelled s then Some context_Canceled else None in
        '(d, sk, (duplicate, sinkErr)) ← Do ctx_err key (WriteBatch (Batch_Records batch)) (dedupe s) sk;
        let s := s <| dedupe := d |> <| stats ::= count_outcome duplicate sinkErr |> in
        match SetDeadline c with
        | (Some _, c) => Some (s, sk, c, false)
        | (None, c) =>
          '(out, err) ← WriteAck (c_out c)
             (mkAck (ack_status duplicate sinkErr) (key_ClientID key) (key_BatchID key));
          let c := c <| c_out := out |> in
          Some (s, sk, c, bool_decide (err = None) && bool_decide (sinkErr = None))
        end
    end
  end.

(** [for { ... }]; every turn but the last consumes a whole frame, so
    [handle_fuel] turns are enough. *)
Fixpoint handle_loop (fuel : nat) (s : Server) (sk : Sink) (c : connection)
  : option (Server * Sink * connection) :=
  match fuel with
  | O => None
  | S fuel =>
      '(s, sk, c, continue) ← handle_batch s sk c;
      if (continue : bool) then handle_loop fuel s sk c else Some (s, sk, c)
  end.

Definition handle_fuel (c : connection) : nat := S (length (rd_data (c_in c))).

(** The deferred clean-up. *)
Definition finish_connection (id : nat) (s : Server) : Server :=
  s <| active ::= λ a, a ∖ {[id]} |> <| sema ::= λ n, n - 1 |>
    <| stats ::= update_with Connections dec |>.

Definition handle (id : nat) (s : Server) (sk : Sink) (c : connection)
  : option (Server * Sink * connection) :=
  '(s, sk, c) ← handle_loop (handle_fuel c) s sk c;
  Some (finish_connection id s, sk, c).

End Server.

(** ** Accepting and closing *)

(** What [listener.Accept] answers. *)
Inductive accept_result := Accepted (id : nat) | AcceptErr (e : error) (temporary : bool).

Inductive serve_outcome := Handle (id : nat) | Refuse (id : nat) | Again | Stop (err : option error).

(** One turn of the loop of [Serve]: the select on the semaphore. *)
Definition serve_accept (a : accept_result) (s : Server) : Server * serve_outcome :=
  match a with
  | Accepted id =>
      if sema s <? MaxConnections (config s) then
        (s <| sema ::= Z.add 1 |> <| active ::= union {[id]} |>
           <| stats ::= update_with Connections inc |>, Handle id)
      else (s <| stats ::= update_with Overloaded inc |>, Refuse id)
  | AcceptErr e temporary =>
      if errors_Is e "use of closed network connection" || cancelled s then (s, Stop None)
      else if temporary then (s, Again)
      else (s, Stop (Some (ErrWrap "accept collector connection: %w" e)))
  end.

Definition Serve_start (s : Server) : option error * Server :=
  if listening s then (Some (ErrNew "collector already serving"), s)
  else (None, s <| listening := true |>).

(** [Close] up to [wg.Wait]: the connections it closes, and its error. *)
Definition Server_Close (listener_err : option error) (s : Server)
  : Server * list nat * option error :=
  let s := s <| cancelled := true |> in
  let err := if listening s then
      match listener_err with
      | Some e => if errors_Is e "use of closed network connection" then None else Some e
      | None => None
      end else None in
  (s, elements (active s), err).

Definition Server_Stats (s : Server) : Stats := stats s.

(** [stringsTrimBrackets] *)
Definition stringsTrimBrackets (value : string) : string :=
  if (2 <=? String.length value)%nat
     && bool_decide (String.get 0 value = Some "["%char)
     && bool_decide (String.get (String.length value - 1) value = Some "]"%char)
  then String.substring 1 (String.length value - 2) value else value.

(** ** Properties of a connection *)

(** No attempt is in flight: the state between two turns of a server whose
    connections take turns. *)
Definition quiet (d : Dedupe) : Prop := dedupe_wf d ∧ d_pending d = ∅.

Lemma NewDedupe_quiet cap : quiet (NewDedupe cap).
Proof. split; [apply NewDedupe_wf|done]. Qed.

Definition batch_key (b : Batch) : BatchKey :=
  mkBatchKey (ClientID (Batch_Header b)) (BatchID (Batch_Header b)).

Lemma ReadBatch_ids r limits b r' :
  ReadBatch r limits = (Ok b, r') →
  ClientID (Batch_Header b) ≠ 0 ∧ BatchID (Batch_Header b) ≠ 0 ∧
  (length (rd_data r') < length (rd_data r))%nat.
Proof.
  intros (raw & p & _ & Hlen & Hh & _ & _ & Hd & _)%ReadBatch_Ok.
  apply parse_header_Ok in Hh as (_ & ? & ? & _). rewrite Hd, !length_app. lia.
Qed.

Section Turns.
Context {Sink : Type} (WriteBatch : list (list byte) → Sink → Sink * option error).

Lemma ack_status_valid dup err : AckStatus_Valid (ack_status dup err) = true.
Proof. by destruct err, dup. Qed.

(** What the sink is asked to do for a batch, and what it answers. *)
Definition sink_turn (d : Dedupe) (b : Batch) (sk : Sink) : Sink * option error :=
  if decide (batch_key b ∈ keys d) then (sk, None) else WriteBatch (Batch_Records b) sk.

Definition keys_turn (d : Dedupe) (k : BatchKey) : list BatchKey :=
  if decide (k ∈ keys d) then lru_touch k (keys d) else lru_push (capacity d) k (keys d).

Lemma elem_of_keys_turn d k : dedupe_wf d → k ∈ keys_turn d k.
Proof.
  intros Hd. unfold keys_turn, lru_touch, lru_push. case_decide; [by apply elem_of_cons; left|].
  pose proof (wf_cap d Hd). destruct (Z.to_nat (capacity d)) eqn:E; [lia|].
  cbn. by apply elem_of_cons; left.
Qed.

Lemma handle_batch_spec s sk c b input sk' err :
  quiet (dedupe s) → c_deadlines c = [] →
  ReadBatch (c_in c) (Config_Limits (config s)) = (Ok b, input) →
  sink_turn (dedupe s) b sk = (sk', err) →
  let duplicate := bool_decide (batch_key b ∈ keys (dedupe s)) in
  let ack := mkAck (ack_status duplicate err) (ClientID (Batch_Header b)) (BatchID (Batch_Header b)) in
  ∃ d' out werr,
    handle_batch WriteBatch s sk c =
      Some (s <| dedupe := d' |> <| stats ::= count_outcome duplicate err |>, sk',
            c <| c_in := input |> <| c_out := out |>,
            bool_decide (werr = None) && bool_decide (err = None)) ∧
    quiet d' ∧ capacity d' = capacity (dedupe s) ∧ keys d' = keys_turn (dedupe s) (batch_key b) ∧
    (writer_ok (c_out c) → ∃ n, delivered (c_out c) out (ack_bytes ack) n werr) ∧
    (takes (c_out c) → w_out out = w_out (c_out c) ++ ack_bytes ack ∧ werr = None).
Proof.
  intros [Hwf Hp] Hdl Hr Hsk duplicate ack. pose proof (ReadBatch_ids _ _ _ _ Hr) as (Hc & Hb & _).
  destruct (WriteAck_delivers (c_out c) ack (ack_status_valid _ _) Hc Hb) as (out & werr & Hwa & Hdel).
  unfold handle_batch, SetDeadline. rewrite Hdl, Hr. fold (batch_key b).
  set (ctx := if cancelled s then _ else _).
  destruct (Do_spec ctx (batch_key b) (WriteBatch (Batch_Records b)) (dedupe s) sk Hwf Hp)
    as (d' & Hwf' & Hp' & Hcap & Hin & Hout).
  exists d', out, werr. unfold sink_turn, keys_turn in *.
  destruct (decide (batch_key b ∈ keys (dedupe s))) as [Hk|Hk].
  - destruct (Hin Hk) as [HDo Hkeys]. simplify_eq. rewrite HDo.
    assert (duplicate = true) as E by (by apply bool_decide_eq_true). subst ack. rewrite E in *.
    cbn -[WriteAck]. rewrite Hdl. cbn -[WriteAck] in Hwa |- *. rewrite Hwa. done.
  - destruct (Hout Hk) as [HDo Hkeys]. rewrite Hsk in HDo. rewrite HDo.
    assert (duplicate = false) as E by (by apply bool_decide_eq_false). subst ack. rewrite E in *.
    cbn -[WriteAck]. rewrite Hdl. cbn -[WriteAck] in Hwa |- *. rewrite Hwa. done.
Qed.

(** A turn in general: what it leaves alone, and that it makes progress. *)
Definition turn_frame (s s' : Server) : Prop :=
  config s' = config s ∧ active s' = active s ∧ sema s' = sema s ∧
  Connections (stats s') = Connections (stats s) ∧ Overloaded (stats s') = Overloaded (stats s) ∧
  listening s' = listening s ∧ cancelled s' = cancelled s.

Lemma turn_frame_trans a b c : turn_frame a b → turn_frame b c → turn_frame a c.
Proof. unfold turn_frame. intuition congruence. Qed.

Lemma count_outcome_frame dup err st :
  Connections (count_outcome dup err st) = Connections st ∧
  Overloaded (count_outcome dup err st) = Overloaded st.
Proof. by destruct err, dup. Qed.

Lemma handle_batch_total s sk c :
  quiet (dedupe s) →
  ∃ s' sk' c' continue, handle_batch WriteBatch s sk c = Some (s', sk', c', continue) ∧
    quiet (dedupe s') ∧ turn_frame s s' ∧
    (continue = true → (length (rd_data (c_in c')) < length (rd_data (c_in c)))%nat).
Proof.
  intros Hq. unfold handle_batch.
  assert (Hset : ∀ c, c_in (SetDeadline c).2 = c_in c) by (intros []; unfold SetDeadline; by destruct c_deadlines0).
  pose proof (Hset c) as Hs1. destruct (SetDeadline c) as [[e|] c1]; cbn [snd] in Hs1;
    [by eexists _, _, _, _|].
  destruct (ReadBatch (c_in c1) _) as [[b|e] input] eqn:Hr;
    [|by destruct (negb _); eexists _, _, _, _].
  pose proof (ReadBatch_ids _ _ _ _ Hr) as (Hc & Hb & Hlt).
  set (ctx := if cancelled s then _ else _). fold (batch_key b). destruct Hq as [Hwf Hp].
  destruct (Do_spec ctx (batch_key b) (WriteBatch (Batch_Records b)) (dedupe s) sk Hwf Hp)
    as (d' & Hwf' & Hp' & Hcap & Hin & Hout).
  assert (∃ sk' dup err, Do ctx (batch_key b) (WriteBatch (Batch_Records b)) (dedupe s) sk =
    Some (d', sk', (dup, err))) as (sk' & dup & err & ->).
  { destruct (decide (batch_key b ∈ keys (dedupe s))) as [Hk|Hk];
      [destruct (Hin Hk) as [-> _]|destruct (Hout Hk) as [-> _]]; eauto. }
  cbn [mbind option_bind]. pose proof (count_outcome_frame dup err (stats s)) as [Hf1 Hf2].
  pose proof (Hset (c1 <| c_in := input |>)) as Hs2.
  destruct (SetDeadline _) as [[e|] c2]; cbn [snd] in Hs2.
  - by eexists _, _, _, _.
  - destruct (WriteAck_delivers (c_out c2) (mkAck (ack_status dup err) (ClientID (Batch_Header b))
      (BatchID (Batch_Header b))) (ack_status_valid _ _) Hc Hb) as (out & werr & Hwa & _).
    cbn -[WriteAck]. rewrite Hwa. eexists _, _, _, _. split; [done|]. split; [done|].
    split; [done|]. intros _. cbn. rewrite Hs2. cbn. by rewrite <- Hs1.
Qed.

Lemma handle_loop_total fuel : ∀ s sk c,
  quiet (dedupe s) → (length (rd_data (c_in c)) < fuel)%nat →
  ∃ s' sk' c', handle_loop WriteBatch fuel s sk c = Some (s', sk', c') ∧
    quiet (dedupe s') ∧ turn_frame s s'.
Proof.
  induction fuel as [|fuel IH]; intros s sk c Hq Hf; [lia|]. cbn [handle_loop].
  destruct (handle_batch_total s sk c Hq) as (s1 & sk1 & c1 & cont & -> & Hq1 & Ht1 & Hlt).
  cbn [mbind option_bind]. destruct cont; [|by eauto 10].
  destruct (IH s1 sk1 c1 Hq1) as (s2 & sk2 & c2 & -> & Hq2 & Ht2); [specialize (Hlt eq_refl); lia|].
  eexists _, _, _. split; [done|]. split; [done|]. by eapply turn_frame_trans.
Qed.

(** ACK after sink.  A turn on a complete frame always comes to an end; it
    writes (as far as the peer takes it) one acknowledgement of that very batch,
    [Accepted] only when the sink was given its records in this turn and answered
    nil, [SinkError] only when it answered an error, and [Duplicate] only when the
    batch was recorded before, in which case the sink is not touched; the loop goes
    on exactly after a fully written acknowledgement without a sink error. *)
Theorem handle_ack_after_sink s sk c b input :
  quiet (dedupe s) → c_deadlines c = [] → writer_ok (c_out c) →
  ReadBatch (c_in c) (Config_Limits (config s)) = (Ok b, input) →
  ∃ s' sk' c' continue ack n werr,
    handle_batch WriteBatch s sk c = Some (s', sk', c', continue) ∧ quiet (dedupe s') ∧
    c_in c' = input ∧ delivered (c_out c) (c_out c') (ack_bytes ack) n werr ∧
    Ack_ClientID ack = ClientID (Batch_Header b) ∧ Ack_BatchID ack = BatchID (Batch_Header b) ∧
    (Status ack = StatusAccepted ∧ WriteBatch (Batch_Records b) sk = (sk', None) ∧
       batch_key b ∉ keys (dedupe s)
     ∨ Status ack = StatusSinkError ∧ (∃ e, WriteBatch (Batch_Records b) sk = (sk', Some e)) ∧
       batch_key b ∉ keys (dedupe s)
     ∨ Status ack = StatusDuplicate ∧ sk' = sk ∧ batch_key b ∈ keys (dedupe s)) ∧
    (continue = true ↔ n = AckSize ∧ werr = None ∧ Status ack ≠ StatusSinkError).
Proof.
  intros Hq Hdl Hw Hr. destruct (sink_turn (dedupe s) b sk) as [sk' err] eqn:Hsk.
  destruct (handle_batch_spec s sk c b input sk' err Hq Hdl Hr Hsk)
    as (d' & out & werr & Hh & Hq' & _ & _ & Hdel & _).
  destruct (Hdel Hw) as (n & Hd). eexists _, _, _, _, _, n, werr.
  split; [exact Hh|]. split; [done|]. split; [done|]. split; [exact Hd|]. split; [done|]. split; [done|].
  destruct Hd as (_ & _ & _ & Hn). rewrite andb_true_iff, !bool_decide_eq_true. split.
  - unfold sink_turn in Hsk. destruct (decide _) as [Hk|Hk].
    + rewrite bool_decide_eq_true_2 by done. simplify_eq. by do 2 right.
    + rewrite bool_decide_eq_false_2 by done. destruct err as [e|]; [|by left].
      right; left. split; [done|]. split; [by exists e|done].
  - destruct err as [e|]; cbn [ack_status]; [naive_solver|].
    assert (Hs : Status (mkAck (ack_status (bool_decide (batch_key b ∈ keys (dedupe s))) None)
      (ClientID (Batch_Header b)) (BatchID (Batch_Header b))) ≠ StatusSinkError)
      by (cbn; by destruct (bool_decide _)).
    cbn [ack_status Status] in *. split; [|tauto]. intros [-> _]. split; [by apply Hn|done].
Qed.

(** [handle] returns for every peer and every sink: the turns are bounded by
    the bytes the peer sends.  It leaves no attempt pending and gives back its
    semaphore token, its entry in [active] and its connection count. *)
Theorem handle_returns id s sk c :
  quiet (dedupe s) →
  ∃ s' sk' c', handle WriteBatch id s sk c = Some (s', sk', c') ∧ quiet (dedupe s') ∧
    active s' = active s ∖ {[id]} ∧ sema s' = sema s - 1 ∧
    Connections (stats s') = dec (Connections (stats s)).
Proof.
  intros Hq. unfold handle, handle_fuel.
  destruct (handle_loop_total (S (length (rd_data (c_in c)))) s sk c Hq ltac:(lia))
    as (s' & sk' & c' & -> & Hq' & Hf & Ha & Hse & Hcn & _).
  eexists _, _, _. split; [done|]. cbn. rewrite Ha, Hse, Hcn. done.
Qed.
End Turns.

(** ** Admission *)

(** The steps of a serving collector, as the bookkeeping sees them: the accept
    loop, a turn of some connection (any change that [handle_batch_total] allows),
    a connection's clean-up, and [Close]. *)
Inductive serve_step : Server → Server → Prop :=
| sv_start s : serve_step s (Serve_start s).2
| sv_accept a s :
    (∀ id, a = Accepted id → id ∉ active s) → serve_step s (serve_accept a s).1
| sv_turn s s' : turn_frame s s' → serve_step s s'
| sv_finish id s : id ∈ active s → serve_step s (finish_connection id s)
| sv_close e s : serve_step s (Server_Close e s).1.1.

Definition serve_init (cfg : Config) (s : Server) : Prop := New cfg true = Ok s.

Definition admission (cfg : Config) (s : Server) : Prop :=
  config s = cfg ∧ sema s = Z.of_nat (size (active s)) ∧ Connections (stats s) = sema s ∧
  sema s <= MaxConnections cfg.

Lemma Server_New_Ok cfg b s :
  New cfg b = Ok s →
  s = mkServer cfg (NewDedupe (DedupeEntries cfg)) (mkStats 0 0 0 0 0 0) 0 ∅ false false ∧
  0 < MaxConnections cfg ∧ Limits_Validate (Config_Limits cfg) = Ok ().
Proof.
  unfold New, Config_validate. intros ([] & H1 & H2)%bind_Ok. apply bind_Ok in H2 as (_ & _ & [= <-]).
  destruct_ifs; [done|]. zbool. by split_and!.
Qed.

Lemma serve_accept_admission cfg a s :
  0 < MaxConnections cfg < 2 ^ 63 → admission cfg s →
  (∀ id, a = Accepted id → id ∉ active s) → admission cfg (serve_accept a s).1.
Proof.
  intros Hm (Hc & Hse & Hcn & Hle) Ha. unfold serve_accept. destruct a as [id|e t].
  - rewrite Hc. destruct (_ <? _) eqn:E; zbool; cbn.
    + unfold admission; cbn. rewrite size_union by (specialize (Ha id eq_refl); set_solver).
      rewrite size_singleton, inc_small by lia. split_and!; [done|lia..].
    + done.
  - by destruct (_ || _); [|destruct t].
Qed.

Lemma serve_step_admission cfg s s' :
  0 < MaxConnections cfg < 2 ^ 63 → admission cfg s → serve_step s s' → admission cfg s'.
Proof.
  intros Hm Hinv Hs. destruct Hs as [s|a s Ha|s s' Hf|id s Hid|e s].
  - unfold Serve_start. by destruct (listening s).
  - by apply serve_accept_admission.
  - destruct Hf as (E1 & E2 & E3 & E4 & _). unfold admission. by rewrite E1, E2, E3, E4.
  - destruct Hinv as (Hc & Hse & Hcn & Hle). unfold finish_connection, admission; cbn.
    assert (Hsz : size (active s) = S (size (active s ∖ {[id]}))).
    { pose proof (size_union_alt {[id]} (active s)) as Hu. rewrite size_singleton in Hu.
      rewrite (subseteq_union_1_L {[id]} (active s)) in Hu by set_solver. lia. }
    rewrite dec_small by lia. split_and!; [done|lia..].
  - done.
Qed.

(** Admission control: in every reachable state of a collector the
    semaphore, the set of open connections and the connection counter agree, and
    never exceed [MaxConnections]. *)
Theorem serve_admission cfg s :
  MaxConnections cfg < 2 ^ 63 → reach (serve_init cfg) serve_step s →
  sema s = Z.of_nat (size (active s)) ∧ Connections (stats s) = Z.of_nat (size (active s)) ∧
  Z.of_nat (size (active s)) <= MaxConnections cfg.
Proof.
  intros Hm Hr. destruct (reach_invariant (serve_init cfg) serve_step
    (λ s, 0 < MaxConnections cfg ∧ admission cfg s)) with (s := s) as [_ (? & ? & ? & ?)]; [..|done|lia].
  - intros s0 [-> [? _]]%Server_New_Ok. split; [done|]. unfold admission; cbn. split_and!; [done..|lia].
  - clear s Hr. intros s s' _ [Hpos Hinv] Hs. split; [done|]. by eapply serve_step_admission.
Qed.

(** Two connections are offered to a collector for one. *)
Definition sample_cfg : Config := mkConfig "127.0.0.1:0" 1 Second Second Second 2 sample_limits.
Definition sample_server : Server :=
  mkServer sample_cfg (NewDedupe 2) (mkStats 0 0 0 0 0 0) 0 ∅ false false.

Lemma serve_admission_witness :
  let s := (serve_accept (Accepted 5) (serve_accept (Accepted 4) sample_server).1).1 in
  sema s = Z.of_nat (size (active s)) ∧ Z.of_nat (size (active s)) <= 1 ∧ Overloaded (stats s) = 1.
Proof.
  intros s. assert (Hr : reach (serve_init sample_cfg) serve_step s).
  { eapply reach_step; [eapply reach_step; [apply reach_init; vm_compute; reflexivity|]|];
      apply sv_accept; intros id [= <-]; apply (bool_decide_unpack _); vm_compute; exact I. }
  destruct (serve_admission sample_cfg s eq_refl Hr) as (H1 & _ & H3).
  split; [exact H1|]. split; [exact H3|]. vm_compute. reflexivity.
Defined.

(** A sink that stores what it is given. *)
Definition storing (records : list (list byte)) (log : list (list (list byte)))
  : list (list (list byte)) * option error := (log ++ [records], None).

Definition sample_stream : list byte := concat (Buffers (encoding 7 1 sample_time sample_records)).
Definition sample_connection : connection :=
  mkConnection (mkReader (sample_stream ++ sample_stream) io_EOF) (mkWriter [] 0 sink_all) [].

(** The same frame twice on one connection: stored once. *)
Example handle_twice :
  ('(s, log, c) ← handle storing 0 sample_server [] sample_connection;
   Some (log, w_out (c_out c), AcceptedBatches (stats s), DuplicateBatches (stats s))) =
  Some ([sample_records],
        ack_bytes (mkAck StatusAccepted 7 1) ++ ack_bytes (mkAck StatusDuplicate 7 1), 1, 1).
Proof. vm_compute. reflexivity. Qed.

Lemma sink_all_ok out n : writer_ok (mkWriter out n sink_all).
Proof. intros i b. cbn. lia. Qed.

Lemma handle_ack_after_sink_witness :
  ∃ b input s' sk' c' continue ack n werr,
    handle_batch storing sample_server [] sample_connection = Some (s', sk', c', continue) ∧
    delivered (c_out sample_connection) (c_out c') (ack_bytes ack) n werr ∧
    ReadBatch (c_in sample_connection) sample_limits = (Ok b, input).
Proof.
  assert (E : ∃ b input, ReadBatch (c_in sample_connection) sample_limits = (Ok b, input))
    by (vm_compute; eauto).
  destruct E as (b & input & E).
  destruct (handle_ack_after_sink storing sample_server [] sample_connection b input
    (NewDedupe_quiet 2) eq_refl (sink_all_ok _ _) E) as (s' & sk' & c' & k & ack & n & we & H1 & _ & _ & H2 & _).
  exists b, input, s', sk', c', k, ack, n, we. split; [exact H1|]. split; [exact H2|exact E].
Defined.

Definition busy_server : Server :=
  mkServer sample_cfg (NewDedupe 2) (mkStats 1 0 0 0 0 0) 1 {[3%nat]} true false.

Lemma handle_returns_witness :
  ∃ s' sk' c', handle storing 3 busy_server [] sample_connection = Some (s', sk', c') ∧ sema s' = 0.
Proof.
  destruct (handle_returns storing 3 busy_server [] sample_connection (NewDedupe_quiet 2))
    as (s' & sk' & c' & H1 & _ & _ & H2 & _).
  exists s', sk', c'. split; [exact H1|exact H2].
Defined.
