(* ===== verification/Connections.v ===== *)
(** * Concurrent connections (internal/collector/server.go)

    Every accepted connection is a goroutine that runs [handle]; they share the
    server's counters, the deduplication table and the sink.  Here [handle] is cut at
    its shared accesses (the critical sections of [Do], the sink call, the counters)
    and at its reads and writes of the connection, and any number of connections run
    interleaved with the accept loop, [Close], their peers and other users of the
    sink.  The system refines the table's own system of Dedupe.v. *)

From stdpp Require Import gmap strings list fin_maps.
From Stdlib Require Import ZArith Lia.
From Stdlib.Strings Require Import Byte.
From S2P Require Import Prelude GoLib Protocol Client Dedupe Collector.

(** ** The goroutine of a connection *)

(** Where [handle] is: before the next frame, in [Do] with a batch, before the
    acknowledgement, past the loop. *)
Inductive conn_pc :=
| CRead
| CDo (b : Batch) (pc : do_pc)
| CAck (b : Batch) (duplicate : bool) (sinkErr : option error)
| CEnd.

(** [read_batches] and [acks] record the frames read and the acknowledgements
    written whole. *)
Record conn := mkConn {
  cn_io : connection; cn_pc : conn_pc; read_batches : list Batch; acks : list (Batch * Z)
}.

#[export] Instance conn_fields : Fields conn := λ r,
  mkConn (cn_io r) (cn_pc r) (read_batches r) (acks r).

(** From the loop's head to [Do]. *)
Definition conn_read (s : Server) (c : conn) : Server * conn :=
  match SetDeadline (cn_io c) with
  | (Some _, io) => (s, c <| cn_io := io |> <| cn_pc := CEnd |>)
  | (None, io) =>
      match ReadBatch (c_in io) (Config_Limits (config s)) with
      | (Err e, input) =>
          (if negb (errors_Is e "EOF") then s <| stats ::= update_with InvalidFrames inc |> else s,
           c <| cn_io := io <| c_in := input |> |> <| cn_pc := CEnd |>)
      | (Ok b, input) =>
          (s, c <| cn_io := io <| c_in := input |> |> <| cn_pc := CDo b DoStart |>
                <| read_batches ::= λ l, l ++ [b] |>)
      end
  end.

(** The acknowledgement of a batch. *)
Definition ack_of (b : Batch) (duplicate : bool) (sinkErr : option error) : Ack :=
  mkAck (ack_status duplicate sinkErr) (key_ClientID (batch_key b)) (key_BatchID (batch_key b)).

(** [None]: out of the fuel of [WriteAck]. *)
Definition conn_ack (b : Batch) (duplicate : bool) (sinkErr : option error) (c : conn) : option conn :=
  match SetDeadline (cn_io c) with
  | (Some _, io) => Some (c <| cn_io := io |> <| cn_pc := CEnd |>)
  | (None, io) =>
      '(out, err) ← WriteAck (c_out io) (ack_of b duplicate sinkErr);
      let c := c <| cn_io := io <| c_out := out |> |> in
      Some (match err with
            | Some _ => c <| cn_pc := CEnd |>
            | None => c <| acks ::= λ l, l ++ [(b, ack_status duplicate sinkErr)] |>
                        <| cn_pc := if decide (sinkErr = None) then CRead else CEnd |>
            end)
  end.

(** ** One run per batch *)

Definition run_keys (s : dsys) : list BatchKey := (ds_runs s).*1.

(** The key was run: it is in the table or its result is about to be recorded. *)
Definition recorded (s : dsys) (k : BatchKey) : Prop :=
  k ∈ keys (ds_dedupe s) ∨ ∃ t c e, ds_threads s !! t = Some (k, DoFinish c e).

Definition runs_once (s : dsys) : Prop := NoDup (run_keys s) ∧ ∀ k, k ∈ run_keys s → recorded s k.

Definition finishing (p : BatchKey * do_pc) : Prop :=
  match p.2 with DoFinish _ _ => True | _ => False end.

(** A goroutine moves that was not about to record anything. *)
Lemma runs_once_move s s' t :
  runs_once s → ds_runs s' = ds_runs s → (∀ k, k ∈ keys (ds_dedupe s) → k ∈ keys (ds_dedupe s')) →
  (∀ p, ds_threads s !! t = Some p → ¬ finishing p) →
  (∀ t', t' ≠ t → ds_threads s' !! t' = ds_threads s !! t') → runs_once s'.
Proof.
  intros [Hn Hr] Hk Hkeys Ht Hth. split; [by unfold run_keys; rewrite Hk|]. intros k. unfold run_keys.
  rewrite Hk. intros [Hin|(t' & c & e & Ht')]%Hr; [left; by apply Hkeys|right]. exists t', c, e.
  rewrite Hth; [done|]. intros ->. by apply (Ht _ Ht').
Qed.

(** While the distinct batches fit, recording one evicts nothing. *)
Lemma finish_keeps s t k c e d pc :
  ds_inv s → (size (list_to_set (run_keys s) : gset BatchKey) <= Z.to_nat (capacity (ds_dedupe s)))%nat →
  ds_threads s !! t = Some (k, DoFinish c e) → do_finish k c e (ds_dedupe s) = (d, pc) →
  keys d = k :: keys (ds_dedupe s).
Proof.
  intros Hi Hsz Ht Hf. pose proof (i_own s Hi _ _ _ _ Ht eq_refl) as Hp.
  destruct (do_finish_wf _ _ _ _ _ _ (i_wf s Hi) Hp Hf) as (_ & _ & -> & _).
  unfold lru_push. apply take_ge. etrans; [|exact Hsz].
  assert (Hn : NoDup (k :: keys (ds_dedupe s))).
  { constructor; [|by apply wf_keys, i_wf]. rewrite elem_of_keys by apply Hi.
    destruct (wf_pending _ (i_wf s Hi) _ _ Hp) as [-> _]. by intros [? ?]. }
  rewrite <- (size_list_to_set (C := gset BatchKey) _ Hn). apply subseteq_size.
  intros k'. rewrite !elem_of_list_to_set. intros [->|[e' Hk']%(i_keys s Hi)]%elem_of_cons.
  - apply (i_finish s Hi) in Ht. apply list_elem_of_fmap. by exists (k, e).
  - apply list_elem_of_fmap. by exists (k', e').
Qed.

(** Running the work of a key that was not run before. *)
Lemma fn_fresh s t k c : ds_inv s → runs_once s → ds_threads s !! t = Some (k, DoRun c) → k ∉ run_keys s.
Proof.
  intros Hi [_ Hr] Ht Hin. pose proof (i_own s Hi _ _ _ _ Ht eq_refl) as Hp.
  destruct (Hr k Hin) as [Hk|(t' & c' & e & Ht')].
  - rewrite elem_of_keys in Hk by apply Hi. destruct (wf_pending _ (i_wf s Hi) _ _ Hp) as [Hn _].
    rewrite Hn in Hk. by destruct Hk.
  - pose proof (i_own s Hi _ _ _ _ Ht' eq_refl) as Hp'. simplify_eq.
    assert (t = t') as -> by (by eapply (i_unique s Hi)). by simplify_eq.
Qed.

Lemma runs_once_step s s' :
  ds_inv s → (size (list_to_set (run_keys s) : gset BatchKey) <= Z.to_nat (capacity (ds_dedupe s)))%nat →
  runs_once s → ds_step s s' → runs_once s'.
Proof.
  intros Hi Hsz Ho Hs. destruct Hs as [t k s Ht|t k s d pc Ht He|t k c ctx s pc Ht Hw|t k c e s Ht
    |t k c e s d pc Ht Hf|t k b e s Ht].
  - apply (runs_once_move s _ t Ho); [done..|intros p Hp; congruence|]. intros t' Hne. by apply lookup_insert_ne.
  - apply (runs_once_move s _ t Ho); [done| |rewrite Ht; intros ? [= <-] []|].
    + intros k' Hk. unfold do_enter in He. destruct (completed _ !! k) as [i|] eqn:Ec.
      * simplify_eq. cbn. unfold keys in *. cbn. rewrite (keys_MoveToFront _ k); [|apply Hi|done].
        unfold lru_touch. rewrite elem_of_cons, list_elem_of_filter. destruct (decide (k' = k)); auto.
      * destruct (d_pending _ !! k); by simplify_eq.
    + intros t' Hne. by apply lookup_insert_ne.
  - apply (runs_once_move s _ t Ho); [done..|rewrite Ht; intros ? [= <-] []|].
    intros t' Hne. by apply lookup_insert_ne.
  - pose proof (fn_fresh _ _ _ _ Hi Ho Ht) as Hk. destruct Ho as [Hn Hr].
    unfold runs_once, run_keys; cbn. rewrite fmap_app. split.
    + apply NoDup_app. split_and!; [done| |apply NoDup_singleton].
      intros k' Hk' ->%list_elem_of_singleton. done.
    + intros k' [Hk'|Hk']%elem_of_app.
      * destruct (Hr k' Hk') as [?|(t' & c' & e' & Ht')]; [by left|right]. exists t', c', e'.
        cbn. rewrite lookup_insert_ne; [done|]. intros <-. by simplify_eq.
      * apply list_elem_of_singleton in Hk' as ->. right. exists t, c, e. apply lookup_insert_eq.
  - destruct Ho as [Hn Hr]. pose proof (finish_keeps _ _ _ _ _ _ _ Hi Hsz Ht Hf) as Hk. split; [done|].
    intros k' [Hk'|(t' & c' & e' & Ht')]%Hr.
    + left. cbn. rewrite Hk. by apply elem_of_cons; right.
    + destruct (decide (t' = t)) as [->|Hne].
      * simplify_eq. left. cbn. rewrite Hk. by apply elem_of_cons; left.
      * right. exists t', c', e'. cbn. by rewrite lookup_insert_ne.
  - apply (runs_once_move s _ t Ho); [done..|rewrite Ht; intros ? [= <-] []|].
    intros t' Hne. by apply lookup_delete_ne.
Qed.

(** No more distinct batches than the table holds: none is run twice. *)
Lemma ds_runs_once cap s :
  reach (ds_init cap) ds_step s →
  Z.of_nat (size (list_to_set (run_keys s) : gset BatchKey)) <= Z.max 1 cap → runs_once s.
Proof.
  induction 1 as [s ->|s s' Hr IH Hs]; intros Hsz.
  - split; [constructor|]. by intros k ?%elem_of_nil.
  - assert (Hle : (size (list_to_set (run_keys s) : gset BatchKey) <=
      size (list_to_set (run_keys s') : gset BatchKey))%nat).
    { apply subseteq_size. destruct Hs; try done. unfold run_keys. cbn. rewrite fmap_app. set_solver. }
    apply (runs_once_step s); [by eapply ds_reach_inv| |apply IH; lia|done].
    rewrite (ds_reach_capacity _ _ Hr). lia.
Qed.

(** ** The system *)

Section System.
(** [write e b k]: a sink call in circumstances [e]; [other]: what the sink's other
    users do to it. *)
Context {K E : Type} (write : E → list (list byte) → K → K * option error) (other : K → K → Prop).

(** [cs_runs]: the sink calls that returned, with connection, batch and answer;
    [cs_expired]: the waits for another connection's call that ended with the
    context of [handle], the sink timeout or [Close], and its error. *)
Record csys := mkCsys {
  cs_server : Server; cs_conns : gmap nat conn; cs_sink : K; cs_runs : list (nat * Batch * option error);
  cs_expired : list (nat * Batch * error)
}.

#[export] Instance csys_fields : Fields csys := λ r,
  mkCsys (cs_server r) (cs_conns r) (cs_sink r) (cs_runs r) (cs_expired r).

Definition set_pc (id : nat) (c : conn) (pc : conn_pc) (s : csys) : csys :=
  s <| cs_conns ::= <[id := c <| cn_pc := pc |>]> |>.

(** The fields of [Do]'s table. *)
Definition set_dedupe (d : Dedupe) (s : csys) : csys := s <| cs_server ::= λ v, v <| dedupe := d |> |>.

Inductive csys_step : csys → csys → Prop :=
| cs_accept id io s v :
    id ∉ active (cs_server s) → cs_conns s !! id = None → w_out (c_out io) = [] → writer_ok (c_out io) →
    serve_accept (Accepted id) (cs_server s) = (v, Handle id) →
    csys_step s (s <| cs_server := v |> <| cs_conns ::= <[id := mkConn io CRead [] []]> |>)
| cs_serve s : csys_step s (s <| cs_server ::= λ v, (Serve_start v).2 |>)
| cs_turned_away a s v o :
    (∀ id, a = Accepted id → id ∉ active (cs_server s)) → serve_accept a (cs_server s) = (v, o) → (∀ id, o ≠ Handle id) → csys_step s (s <| cs_server := v |>)
| cs_peer id c io s :
    cs_conns s !! id = Some c → c_out io = c_out (cn_io c) →
    csys_step s (s <| cs_conns ::= <[id := c <| cn_io := io |>]> |>)
| cs_read id c s v c' :
    cs_conns s !! id = Some c → cn_pc c = CRead → conn_read (cs_server s) c = (v, c') →
    csys_step s (s <| cs_server := v |> <| cs_conns ::= <[id := c']> |>)
| cs_enter id c b s d pc :
    cs_conns s !! id = Some c → cn_pc c = CDo b DoStart →
    do_enter (batch_key b) (dedupe (cs_server s)) = (d, pc) →
    csys_step s (set_pc id c (CDo b pc) (set_dedupe d s))
| cs_wait id c b call ctx_err s pc :
    cs_conns s !! id = Some c → cn_pc c = CDo b (DoWait call) →
    do_wait call ctx_err (dedupe (cs_server s)) = Some pc →
    csys_step s (set_pc id c (CDo b pc) s
                   <| cs_expired ::= λ l, l ++ match ctx_err with Some e => [(id, b, e)] | None => [] end |>)
| cs_write id c b call e s k err :
    cs_conns s !! id = Some c → cn_pc c = CDo b (DoRun call) →
    write e (Batch_Records b) (cs_sink s) = (k, err) →
    csys_step s (set_pc id c (CDo b (DoFinish call err)) s <| cs_sink := k |> <| cs_runs ::= λ l, l ++ [(id, b, err)] |>)
| cs_done id c b call err s d pc :
    cs_conns s !! id = Some c → cn_pc c = CDo b (DoFinish call err) →
    do_finish (batch_key b) call err (dedupe (cs_server s)) = (d, pc) →
    csys_step s (set_pc id c (CDo b pc) (set_dedupe d s))
| cs_count id c b duplicate err s :
    cs_conns s !! id = Some c → cn_pc c = CDo b (DoReturn duplicate err) →
    csys_step s (set_pc id c (CAck b duplicate err) s <| cs_server ::= λ v, v <| stats ::= count_outcome duplicate err |> |>)
| cs_ack id c b duplicate err s c' :
    cs_conns s !! id = Some c → cn_pc c = CAck b duplicate err → conn_ack b duplicate err c = Some c' →
    csys_step s (s <| cs_conns ::= <[id := c']> |>)
| cs_end id c s :
    cs_conns s !! id = Some c → cn_pc c = CEnd →
    csys_step s (s <| cs_server ::= finish_connection id |> <| cs_conns ::= delete id |>)
| cs_close e s : csys_step s (s <| cs_server ::= λ v, (Server_Close e v).1.1 |>)
| cs_other k s : other (cs_sink s) k → csys_step s (s <| cs_sink := k |>).

(** A server that has just been made. *)
Definition csys_init (cfg : Config) (s : csys) : Prop :=
  New cfg true = Ok (cs_server s) ∧ cs_conns s = ∅ ∧ cs_runs s = [] ∧ cs_expired s = [].

Definition csys_reach (cfg : Config) : csys → Prop := reach (csys_init cfg) csys_step.

(** ** The table's view *)

Definition in_do (c : conn) : option (BatchKey * do_pc) :=
  match cn_pc c with CDo b pc => Some (batch_key b, pc) | _ => None end.

Definition table_of (s : csys) : dsys :=
  mkDsys (dedupe (cs_server s)) (omap in_do (cs_conns s))
    (map (λ r, (batch_key r.1.2, r.2)) (cs_runs s)).

Lemma omap_insert_in (m : gmap nat conn) id c k pc :
  in_do c = Some (k, pc) → omap in_do (<[id := c]> m) = <[id := (k, pc)]> (omap in_do m).
Proof. intros Hc. by apply omap_insert_Some. Qed.

Lemma omap_insert_out (m : gmap nat conn) id c :
  in_do c = None → omap in_do (<[id := c]> m) = delete id (omap in_do m).
Proof. intros Hc. by apply omap_insert_None. Qed.

Lemma omap_set_do (m : gmap nat conn) id c b pc :
  omap in_do (<[id := mkConn (cn_io c) (CDo b pc) (read_batches c) (acks c)]> m) =
    <[id := (batch_key b, pc)]> (omap in_do m).
Proof. by apply omap_insert_in. Qed.

Lemma conn_read_in_do s c v c' :
  conn_read s c = (v, c') → dedupe v = dedupe s ∧
  (in_do c' = None ∨ ∃ b, in_do c' = Some (batch_key b, DoStart)).
Proof.
  unfold conn_read. destruct (SetDeadline _) as [[e|] io]; [intros [= <- <-]; auto|].
  destruct (ReadBatch _ _) as [[b|e] input]; intros [= <- <-]; [by eauto|]. split; [by destruct (negb _)|by left].
Qed.

Lemma conn_ack_in_do b dup e c c' : conn_ack b dup e c = Some c' → in_do c' = None.
Proof.
  unfold conn_ack. destruct (SetDeadline _) as [[e'|] io]; [by intros [= <-]|].
  destruct (WriteAck _ _) as [[out [e'|]]|]; cbn; intros [= <-]; try done. unfold in_do. cbn. by case_decide.
Qed.

(** The table alone cannot tell the system's steps from those of goroutines in [Do]. *)
Lemma table_step s s' : csys_step s s' → table_of s' = table_of s ∨ ds_step (table_of s) (table_of s').
Proof.
  assert (Hacc : ∀ a s v o, serve_accept a s = (v, o) → dedupe v = dedupe s).
  { intros a s0 v o. unfold serve_accept. destruct a as [id|e t]; destruct_ifs; by intros [= <- <-]. }
  assert (Hin : ∀ s id c b pc, cs_conns s !! id = Some c → cn_pc c = CDo b pc →
    ds_threads (table_of s) !! id = Some (batch_key b, pc)).
  { intros s0 id c b pc Hc Hp. cbn. rewrite lookup_omap, Hc. cbn. unfold in_do. by rewrite Hp. }
  assert (Hout : ∀ s id c, cs_conns s !! id = Some c → in_do c = None → ds_threads (table_of s) !! id = None).
  { intros s0 id c Hc Hn. cbn. by rewrite lookup_omap, Hc. }
  intros Hs. destruct Hs as [id io s v Ha Hn _ _ Hv|s|a s v o _ Hv _|id c io s Hc _|id c s v c' Hc Hp Hv|id c b s d pc Hc Hp He
    |id c b call ctx s pc Hc Hp Hw|id c b call e s k err Hc Hp _|id c b call err s d pc Hc Hp Hf|id c b dup err s Hc Hp
    |id c b dup err s c' Hc Hp Hack|id c s Hc Hp|e s|k s _].
  - left. unfold table_of. cbn. rewrite (Hacc _ _ _ _ Hv), omap_insert_out by done.
    by rewrite delete_id by (by rewrite lookup_omap, Hn).
  - left. unfold table_of, Serve_start. cbn. by destruct (listening _).
  - left. unfold table_of. cbn. by rewrite (Hacc _ _ _ _ Hv).
  - left. unfold table_of. cbn. f_equal. destruct (in_do c) as [[k pc]|] eqn:Ei.
    + rewrite (omap_insert_in _ _ _ k pc) by done. apply insert_id. by rewrite lookup_omap, Hc.
    + rewrite omap_insert_out by done. apply delete_id. by rewrite lookup_omap, Hc.
  - destruct (conn_read_in_do _ _ _ _ Hv) as [Hd Hi]. pose proof (Hout s id c Hc) as Ho.
    assert (in_do c = None) as Hn by (unfold in_do; by rewrite Hp). specialize (Ho Hn).
    destruct Hi as [Hi|[b Hi]]; [left|right]; unfold table_of; cbn; rewrite Hd.
    + rewrite omap_insert_out by done. by rewrite delete_id.
    + rewrite (omap_insert_in _ _ _ _ _ Hi). by apply (ds_call id (batch_key b) (table_of s)).
  - right. unfold table_of, set_pc, set_dedupe; cbn. rewrite omap_set_do.
    apply (ds_enter id _ (table_of s)); [by eapply Hin|done].
  - right. unfold table_of, set_pc; cbn. rewrite omap_set_do.
    eapply (ds_wait id _ _ _ (table_of s)); [by eapply Hin|done].
  - right. unfold table_of, set_pc; cbn. rewrite omap_set_do, map_app.
    eapply (ds_fn id _ _ _ (table_of s)); by eapply Hin.
  - right. unfold table_of, set_pc, set_dedupe; cbn. rewrite omap_set_do.
    eapply (ds_finish id _ _ _ (table_of s)); [by eapply Hin|done].
  - right. unfold table_of, set_pc; cbn. rewrite omap_insert_out by done.
    eapply (ds_leave id _ _ _ (table_of s)); by eapply Hin.
  - left. unfold table_of. cbn. rewrite omap_insert_out by (by eapply conn_ack_in_do).
    rewrite delete_id; [done|]. apply Hout with (c := c); [done|]. unfold in_do; by rewrite Hp.
  - left. unfold table_of. cbn. rewrite omap_delete, delete_id; [done|].
    apply Hout with (c := c); [done|]. unfold in_do; by rewrite Hp.
  - by left.
  - by left.
Qed.

Lemma table_reach cfg s :
  csys_reach cfg s → reach (ds_init (DedupeEntries cfg)) ds_step (table_of s).
Proof.
  induction 1 as [s (Hn & Hc & Hr)|s s' _ IH Hs].
  - destruct Hr as [Hr _]. apply reach_init. apply Server_New_Ok in Hn as [Hs _]. unfold ds_init, table_of.
    by rewrite Hc, Hr, Hs, omap_empty.
  - destruct (table_step _ _ Hs) as [->|Ht]; [done|by eapply reach_step].
Qed.

(** ** What a connection has answered *)

Definition acks_bytes (l : list (Batch * Z)) : list byte :=
  concat (map (λ a, ack_bytes (mkAck a.2 (key_ClientID (batch_key a.1)) (key_BatchID (batch_key a.1)))) l).

#[local] Arguments acks_bytes : simpl never.

(** The sink calls that returned and the waits that expired. *)
Definition history : Type := list (nat * Batch * option error) * list (nat * Batch * error).

Definition later (h h' : history) : Prop := (∀ r, r ∈ h.1 → r ∈ h'.1) ∧ (∀ r, r ∈ h.2 → r ∈ h'.2).

(** [e] was the sink's answer to [b] on this connection; a batch with the key of [b]
    was answered [e] on some connection. *)
Definition ran (h : history) (id : nat) (b : Batch) (e : option error) : Prop := (id, b, e) ∈ h.1.
Definition answered (h : history) (b : Batch) (e : option error) : Prop :=
  ∃ id b', (id, b', e) ∈ h.1 ∧ batch_key b' = batch_key b.

(** A batch whose sink call failed, on this connection or another, or whose wait for
    such a call expired. *)
Definition failed (h : history) (id : nat) (b : Batch) : Prop :=
  ∃ e, answered h b (Some e) ∨ (id, b, e) ∈ h.2.

Definition ack_true (h : history) (id : nat) (a : Batch * Z) : Prop :=
  a.2 = StatusAccepted ∧ ran h id a.1 None ∨
  a.2 = StatusDuplicate ∧ (∃ e, answered h a.1 e) ∨
  a.2 = StatusSinkError ∧ failed h id a.1.

(** The answer a connection is about to give. *)
Definition answer_true (h : history) (id : nat) (b : Batch) (dup : bool) (e : option error) : Prop :=
  match dup, e with
  | false, None => ran h id b None
  | true, None => ∃ e, answered h b e
  | _, Some _ => failed h id b
  end.

Definition pc_true (h : history) (id : nat) (pc : conn_pc) : Prop :=
  match pc with
  | CDo b (DoFinish _ e) => ran h id b e
  | CDo b (DoReturn dup e) => answer_true h id b dup e
  | CAck b dup e => answer_true h id b dup e
  | _ => True
  end.

(** The frames read are the ones answered and the one being handled. *)
Definition in_order (c : conn) : Prop :=
  match cn_pc c with
  | CRead => read_batches c = (acks c).*1
  | CDo b _ | CAck b _ _ => read_batches c = (acks c).*1 ++ [b]
  | CEnd => ∃ l, read_batches c = (acks c).*1 ++ l ∧ (length l <= 1)%nat
  end.

(** The frames' identifiers are not zero: [ReadBatch] checks them. *)
Definition numbered (b : Batch) : Prop :=
  ClientID (Batch_Header b) ≠ 0 ∧ BatchID (Batch_Header b) ≠ 0.

(** The bytes written are those of the acknowledgements, with part of one more on a
    connection about to end. *)
Definition wire (c : conn) : Prop :=
  writer_ok (c_out (cn_io c)) ∧
  ∃ part, w_out (c_out (cn_io c)) = acks_bytes (acks c) ++ part ∧
    (cn_pc c ≠ CEnd → part = []) ∧ len part <= AckSize.

Record conn_inv (h : history) (id : nat) (c : conn) : Prop := mkConnInv {
  ci_pc : pc_true h id (cn_pc c);
  ci_acks : ∀ a, a ∈ acks c → ack_true h id a;
  ci_order : in_order c;
  ci_numbered : ∀ b, b ∈ read_batches c → numbered b;
  ci_wire : wire c
}.

(** More runs invalidate nothing. *)
Lemma answered_mono h h' b e : later h h' → answered h b e → answered h' b e.
Proof. intros [L _] (id & b' & Hin & Hk). exists id, b'. auto. Qed.

Lemma failed_mono h h' id b : later h h' → failed h id b → failed h' id b.
Proof.
  intros L (e & [Ha|He]); exists e; [left; by eapply answered_mono|right; by apply L].
Qed.

Lemma answer_mono h h' id b dup e : later h h' → answer_true h id b dup e → answer_true h' id b dup e.
Proof.
  intros L. destruct dup, e as [e|]; cbn; try by apply failed_mono.
  - intros [e Ha]. exists e. by eapply answered_mono.
  - by apply L.
Qed.

Lemma conn_inv_mono h h' id c : later h h' → conn_inv h id c → conn_inv h' id c.
Proof.
  intros L [H1 H2 H3 H4 H5]. split; try done.
  - destruct (cn_pc c) as [|b [| | |? e|dup e]|b dup e|]; cbn in *; try done.
    + by apply L.
    + by eapply answer_mono.
    + by eapply answer_mono.
  - intros a [[? ?]|[[? [e ?]]|[? ?]]]%H2.
    + left. split; [done|by apply L].
    + right; left. split; [done|]. exists e. by eapply answered_mono.
    + right; right. split; [done|by eapply failed_mono].
Qed.

Lemma conn_inv_pc l id c pc :
  conn_inv l id c → cn_pc c ≠ CEnd → pc_true l id pc → in_order (c <| cn_pc := pc |>) →
  conn_inv l id (c <| cn_pc := pc |>).
Proof.
  intros [H1 H2 H3 H4 (Hw & part & Ho & Hp & Hl)] Hne Hpc Hord. specialize (Hp Hne) as ->.
  split; try done. split; cbn; [done|]. by exists [].
Qed.

(** The next frame. *)
Lemma conn_read_inv l id c v0 v c' :
  conn_inv l id c → cn_pc c = CRead → conn_read v0 c = (v, c') → conn_inv l id c'.
Proof.
  intros [H1 H2 H3 H4 (Hw & part & Ho & Hp & Hl)] Hpc. unfold in_order in H3. rewrite Hpc in *.
  specialize (Hp ltac:(done)) as ->. unfold conn_read. destruct (SetDeadline (cn_io c)) as [dl io] eqn:Ed.
  assert (Hio : c_out io = c_out (cn_io c)).
  { unfold SetDeadline in Ed. by destruct (c_deadlines _); simplify_eq/=. }
  assert (Hend : conn_inv l id (mkConn io CEnd (read_batches c) (acks c))).
  { split; try done; cbn.
    - exists []. rewrite app_nil_r. split; [done|cbn; lia].
    - split; cbn; rewrite Hio; [done|]. by exists []. }
  destruct dl as [e|]; [by intros [= <- <-]|].
  destruct (ReadBatch (c_in io) _) as [[b|e] input] eqn:Er; intros [= <- <-].
  - pose proof (ReadBatch_ids _ _ _ _ Er) as (Hc & Hb & _). split; try done; cbn.
    + by rewrite H3.
    + intros b' [Hb'| ->%list_elem_of_singleton]%elem_of_app; [by apply H4|done].
    + split; cbn; rewrite Hio; [done|]. by exists [].
  - destruct Hend as [E1 E2 E3 E4 E5]. split; done.
Qed.

Lemma acks_bytes_snoc l b st :
  acks_bytes (l ++ [(b, st)]) =
  acks_bytes l ++ ack_bytes (mkAck st (key_ClientID (batch_key b)) (key_BatchID (batch_key b))).
Proof. unfold acks_bytes. by rewrite map_app, concat_app; cbn; rewrite app_nil_r. Qed.

(** The acknowledgement. *)
Lemma conn_ack_inv l id c b dup e c' :
  conn_inv l id c → cn_pc c = CAck b dup e → conn_ack b dup e c = Some c' → conn_inv l id c'.
Proof.
  intros [H1 H2 H3 H4 (Hw & part & Ho & Hp & Hl)] Hpc. unfold in_order in H3. rewrite Hpc in *.
  specialize (Hp ltac:(done)) as ->. rewrite app_nil_r in *. unfold conn_ack. destruct (SetDeadline (cn_io c)) as [dl io] eqn:Ed.
  assert (Hio : c_out io = c_out (cn_io c)).
  { unfold SetDeadline in Ed. by destruct (c_deadlines _); simplify_eq/=. }
  destruct dl as [e'|].
  { intros [= <-]. split; try done; cbn; [by exists [b]|]. split; cbn; rewrite Hio; [done|].
    exists []. by rewrite app_nil_r. }
  assert (Hb : numbered b) by (apply H4; rewrite H3; set_solver).
  destruct (WriteAck_delivers (c_out io) (ack_of b dup e) (ack_status_valid _ _)) as (out & err & Hwa & Hd & _);
    [apply Hb..|].
  rewrite Hwa. cbn [mbind option_bind]. rewrite Hio in Hd. destruct (Hd Hw) as (n & Hn & Hout & Hresp & Herr).
  assert (Hlen : len (ack_bytes (ack_of b dup e)) = AckSize) by (by rewrite length_ack_bytes).
  assert (Hw' : writer_ok out) by (intros i x; rewrite Hresp; apply Hw).
  destruct err as [e'|]; intros [= <-].
  - split; try done; cbn; [by exists [b]|]. split; cbn; [done|].
    exists (take (Z.to_nat n) (ack_bytes (ack_of b dup e))). rewrite Hout, Ho, length_take.
    split_and!; [done..|lia].
  - rewrite (Herr eq_refl), Nat2Z.id, firstn_all in Hout.
    assert (Ha : ack_true l id (b, ack_status dup e)).
    { unfold ack_true. destruct e as [e|], dup; cbn in *; eauto 10. }
    assert (Hpc' : (if decide (e = None) then CRead else CEnd) = CRead ∨
      (if decide (e = None) then CRead else CEnd) = CEnd) by (case_decide; auto).
    split; cbn.
    + by destruct Hpc' as [-> | ->].
    + intros a [Hin|Hin]%elem_of_app; [by apply H2|]. apply list_elem_of_singleton in Hin as ->. done.
    + unfold in_order; cbn. rewrite fmap_app, H3. destruct Hpc' as [-> | ->]; [done|].
      exists []. rewrite app_nil_r. split; [done|cbn; lia].
    + by rewrite H3 in *.
    + split; cbn; [done|]. exists []. by rewrite acks_bytes_snoc, app_nil_r, Hout, Ho.
Qed.

Definition heard (s : csys) : history := (cs_runs s, cs_expired s).
Definition conns_inv (s : csys) : Prop := ∀ id c, cs_conns s !! id = Some c → conn_inv (heard s) id c.

Lemma conns_set s s' id c' :
  conns_inv s → later (heard s) (heard s') → cs_conns s' = <[id := c']> (cs_conns s) →
  conn_inv (heard s') id c' → conns_inv s'.
Proof.
  intros Hs Hr Hc Hi id' c. rewrite Hc, lookup_insert. case_decide; [by intros [= <-]; subst|].
  intros Hid. eapply conn_inv_mono; [exact Hr|by apply Hs].
Qed.

(** The frame a connection has in hand. *)
Definition in_hand (pc : conn_pc) : option Batch :=
  match pc with CDo b _ | CAck b _ _ => Some b | _ => None end.

Lemma conns_pc s s' id c pc b :
  conns_inv s → cs_conns s !! id = Some c → in_hand (cn_pc c) = Some b → in_hand pc = Some b →
  later (heard s) (heard s') → cs_conns s' = <[id := c <| cn_pc := pc |>]> (cs_conns s) →
  pc_true (heard s') id pc → conns_inv s'.
Proof.
  intros Hi Hc Hh Hh' Hr Hs' Hpc. pose proof (Hi id c Hc) as Hci.
  apply (conns_set s s' id (c <| cn_pc := pc |>)); [done..|].
  apply (conn_inv_mono (heard s) (heard s')) in Hci; [|done].
  apply conn_inv_pc; [done|by destruct (cn_pc c)|done|]. pose proof (ci_order _ _ _ Hci) as Ho.
  unfold in_order in *. cbn in *. destruct (cn_pc c), pc; cbn in *; by simplify_eq.
Qed.

(** The table's view of a connection in [Do]. *)
Lemma table_thread s id c b pc :
  cs_conns s !! id = Some c → cn_pc c = CDo b pc → ds_threads (table_of s) !! id = Some (batch_key b, pc).
Proof. intros Hc Hp. cbn. rewrite lookup_omap, Hc. cbn. unfold in_do. by rewrite Hp. Qed.

Lemma table_answered s b e : (batch_key b, e) ∈ ds_runs (table_of s) → answered (heard s) b e.
Proof.
  cbn [ds_runs table_of]. intros ([[id b'] e'] & Hk & Hr)%list_elem_of_fmap. cbn [fst snd] in Hk.
  exists id, b'. split; [|congruence]. replace e with e' by congruence. exact Hr.
Qed.

(** Whoever waited returns: as a duplicate when the call it waited for succeeded, with
    the call's error when it failed, with the context's when that ended. *)
Lemma wait_answer s id c b call ctx pc :
  ds_inv (table_of s) → cs_conns s !! id = Some c → cn_pc c = CDo b (DoWait call) →
  do_wait call ctx (dedupe (cs_server s)) = Some pc →
  ∃ dup e, pc = DoReturn dup e ∧
    match e with
    | None => dup = true ∧ answered (heard s) b None
    | Some e' => ctx = Some e' ∨ answered (heard s) b (Some e')
    end.
Proof.
  intros Hds Hc Hp. unfold do_wait. destruct ctx as [e|]; [intros [= <-]; exists false, (Some e); auto|].
  destruct (i_wait _ Hds _ _ _ (table_thread _ _ _ _ _ Hc Hp)) as [Hw|(er & Hcall & Hrun)].
  - destruct (wf_pending _ (i_wf _ Hds) _ _ Hw) as [_ Hcall].
    by rewrite (Hcall : calls (dedupe (cs_server s)) !! call = _).
  - rewrite (Hcall : calls (dedupe (cs_server s)) !! call = _). cbn. intros [= <-]. eexists _, _. split; [done|].
    apply table_answered in Hrun. destruct er as [er|]; [by right|]. by rewrite bool_decide_eq_true_2.
Qed.

(** Whoever entered goes on, or is a duplicate of a batch that was run. *)
Lemma enter_answer s id c b pc :
  ds_inv (table_of s) → cs_conns s !! id = Some c → cn_pc c = CDo b pc →
  match pc with DoReturn dup e => dup = true ∧ e = None | DoFinish _ _ => False | _ => True end →
  pc_true (heard s) id (CDo b pc).
Proof.
  intros Hds Hc Hp Hpc. pose proof (table_thread _ _ _ _ _ Hc Hp) as Ht.
  destruct pc as [|call|call|call e|dup e]; cbn in *; try done. destruct Hpc as [-> ->].
  destruct (i_dup _ Hds _ _ _ Ht) as (_ & e & Hin). exists e. by apply table_answered.
Qed.

Lemma same_stage_later h : later h h.
Proof. by split. Qed.

Lemma conns_inv_init cfg s : csys_init cfg s → conns_inv s.
Proof. intros (_ & Hc & _) id c. by rewrite Hc, lookup_empty. Qed.

(** A step keeps it, the table's invariant given. *)
Lemma conns_inv_step s s' :
  ds_inv (table_of s) → ds_inv (table_of s') → csys_step s s' → conns_inv s → conns_inv s'.
Proof.
  intros Hds0 Hds Hs Hi. destruct Hs as [id io s v Ha Hn Ho Hw Hv|s|a s v o _ Hv _|id c io s Hc Hio|id c s v c' Hc Hp Hv|id c b s d pc Hc Hp He
    |id c b call ctx s pc Hc Hp Hw|id c b call e s k err Hc Hp _|id c b call err s d pc Hc Hp Hf|id c b dup err s Hc Hp
    |id c b dup err s c' Hc Hp Hack|id c s Hc Hp|e s|k s _].
  all: try (intros id' c'; apply Hi).
  - apply (conns_set s _ id (mkConn io CRead [] [])); [done..|].
    split; cbn; [done|by intros a ?%elem_of_nil|done|by intros a ?%elem_of_nil|].
    split; [done|]. exists []. split_and!; done.
  - apply (conns_set s _ id (c <| cn_io := io |>)); [done..|].
    destruct (Hi id c Hc) as [H1 H2 H3 H4 H5]. split; try done.
    destruct H5 as [Hw Hp]. split; cbn; by rewrite Hio.
  - apply (conns_set s _ id c'); [done..|]. eapply conn_read_inv; [by apply Hi|done|done].
  - apply (conns_pc s _ id c (CDo b pc) b); [done|done|by rewrite Hp|done..|].
    eapply enter_answer; [done|cbn; apply lookup_insert_eq|done|].
    unfold do_enter in He. destruct (completed _ !! _); [|destruct (d_pending _ !! _)]; by simplify_eq.
  - destruct (wait_answer _ _ _ _ _ _ _ Hds0 Hc Hp Hw) as (dup & e & -> & He).
    apply (conns_pc s _ id c (CDo b (DoReturn dup e)) b); [done|done|by rewrite Hp|done| |done|]; cbn.
    { split; [done|]. intros r Hr. apply elem_of_app; by left. }
    destruct e as [e|]; [|destruct He as [-> He]; by exists None].
    assert (failed (heard (set_pc id c (CDo b (DoReturn dup (Some e))) s
      <| cs_expired ::= λ l, l ++ match ctx with Some e => [(id, b, e)] | None => [] end |>)) id b).
    { exists e. destruct He as [-> |He]; [right|by left]. cbn. apply elem_of_app; right. by apply list_elem_of_singleton. }
    by destruct dup.
  - apply (conns_pc s _ id c (CDo b (DoFinish call err)) b); [done|done|by rewrite Hp|done| |done|]; cbn.
    + split; [|done]. intros r Hr. apply elem_of_app; by left.
    + apply elem_of_app; right. by apply list_elem_of_singleton.
  - pose proof (ci_pc _ _ _ (Hi id c Hc)) as Hran. rewrite Hp in Hran. cbn in Hran.
    assert (pc = DoReturn false err) as -> by (unfold do_finish in Hf; by simplify_eq).
    apply (conns_pc s _ id c (CDo b (DoReturn false err)) b); [done|done|by rewrite Hp|done..|].
    destruct err as [e|]; [|done]. exists e. left. by exists id, b.
  - pose proof (ci_pc _ _ _ (Hi id c Hc)) as Hran. rewrite Hp in Hran.
    apply (conns_pc s _ id c (CAck b dup err) b); [done|done|by rewrite Hp|done..].
  - apply (conns_set s _ id c'); [done..|]. eapply conn_ack_inv; [by apply Hi|done|done].
  - intros id' c' Hc'. cbn in Hc'. apply lookup_delete_Some in Hc' as [_ Hc']. by apply (Hi id').
Qed.

Lemma conns_reach_inv cfg s : csys_reach cfg s → ds_inv (table_of s) ∧ conns_inv s.
Proof.
  assert (T : ∀ s, csys_reach cfg s → ds_inv (table_of s)) by (intros; by eapply ds_reach_inv, table_reach).
  intros Hr. split; [by apply T|]. induction Hr as [s Hs|s s' Hr IH Hs]; [by eapply conns_inv_init|].
  eapply conns_inv_step; [by apply T|apply T; by eapply reach_step|done|done].
Qed.

(** ** Admission *)

Definition same_conns (s : csys) : Prop := ∀ id, id ∈ active (cs_server s) ↔ is_Some (cs_conns s !! id).

Lemma same_conns_set s s' id c' :
  same_conns s → is_Some (cs_conns s !! id) → active (cs_server s') = active (cs_server s) →
  cs_conns s' = <[id := c']> (cs_conns s) → same_conns s'.
Proof.
  intros Hs Hid Ha Hc id'. rewrite Ha, Hc, (Hs id'), lookup_insert. case_decide; [by subst|done].
Qed.

Lemma conn_read_frame s c v c' : conn_read s c = (v, c') → turn_frame s v.
Proof.
  unfold conn_read. destruct (SetDeadline _) as [[e|] io]; [by intros [= <- <-]|].
  destruct (ReadBatch _ _) as [[b|e] input]; intros [= <- <-]; [done|]. by destruct (negb _).
Qed.

(** A step of the system is one of the bookkeeping's. *)
Lemma csys_serve s s' :
  csys_step s s' → same_conns s →
  (cs_server s' = cs_server s ∨ serve_step (cs_server s) (cs_server s')) ∧ same_conns s'.
Proof.
  intros Hs Hc. destruct Hs as [id io s v Ha Hn _ _ Hv|s|a s v o Ha Hv Ho|id c io s Hl _|id c s v c' Hl Hp Hv|id c b s d pc Hl Hp He
    |id c b call ctx s pc Hl Hp Hw|id c b call e s k err Hl Hp _|id c b call err s d pc Hl Hp Hf|id c b dup err s Hl Hp
    |id c b dup err s c' Hl Hp Hack|id c s Hl Hp|e s|k s _].
  - split.
    + right. replace v with (serve_accept (Accepted id) (cs_server s)).1 by (by rewrite Hv).
      apply sv_accept. by intros ? [= <-].
    + intros id'. cbn. rewrite lookup_insert. unfold serve_accept in Hv. destruct (_ <? _); [|done].
      injection Hv as <-. cbn. rewrite elem_of_union, elem_of_singleton, (Hc id'). case_decide; naive_solver.
  - split; [right; apply sv_start|]. intros id. rewrite <- (Hc id). unfold Serve_start. cbn. by destruct (listening _).
  - split.
    + right. replace v with (serve_accept a (cs_server s)).1 by (by rewrite Hv). by apply sv_accept.
    + intros id. rewrite <- (Hc id). cbn. unfold serve_accept in Hv.
      destruct a as [id'|e t]; destruct_ifs; simplify_eq; try done. by destruct (Ho id').
  - split; [by left|]. by eapply same_conns_set.
  - pose proof (conn_read_frame _ _ _ _ Hv) as Hf. split; [right; by apply sv_turn|].
    eapply (same_conns_set s _ id c'); [done|done|apply Hf|done].
  - split; [right; by apply sv_turn|]. by eapply same_conns_set.
  - split; [by left|]. by eapply same_conns_set.
  - split; [by left|]. by eapply same_conns_set.
  - split; [right; by apply sv_turn|]. by eapply same_conns_set.
  - split; [right; apply sv_turn|by eapply same_conns_set].
    pose proof (count_outcome_frame dup err (stats (cs_server s))) as [??]. done.
  - split; [by left|]. by eapply same_conns_set.
  - split; [right; apply sv_finish, Hc; eauto|]. intros id'. cbn. rewrite lookup_delete, elem_of_difference, (Hc id').
    rewrite elem_of_singleton. case_decide; split; naive_solver.
  - split; [right; apply sv_close|done].
  - split; [by left|done].
Qed.

Lemma csys_admission cfg s :
  MaxConnections cfg < 2 ^ 63 → csys_reach cfg s → admission cfg (cs_server s) ∧ same_conns s.
Proof.
  intros Hm Hr. apply (reach_invariant (csys_init cfg) csys_step
    (λ s, 0 < MaxConnections cfg ∧ admission cfg (cs_server s) ∧ same_conns s)) in Hr; [tauto|..].
  - intros s0 ([Hs [Hp _]]%Server_New_Ok & Hc & _). rewrite Hs. split_and!; [done..| |].
    + unfold admission; cbn. split_and!; [done..|lia].
    + intros id. rewrite Hs, Hc, lookup_empty. cbn. split; [set_solver|by intros [? ?]].
  - intros s1 s2 _ (Hp & Ha & Hc) Hs. destruct (csys_serve _ _ Hs Hc) as [[->|Hst] Hc']; [done|].
    split_and!; [done| |done]. by eapply serve_step_admission.
Qed.

(** ** A connection that is not disturbed *)

(** The goroutine of [id] brought the system from [s] to server [v], sink [k] and
    stream [io], and goes on or not. *)
Definition turned (s : csys) (id : nat) (v : Server) (k : K) (io : connection) (continue : bool) : Prop :=
  ∃ s' c', rtc csys_step s s' ∧ cs_server s' = v ∧ cs_sink s' = k ∧
    cs_conns s' = <[id := c']> (cs_conns s) ∧ cn_io c' = io ∧ cn_pc c' = if continue then CRead else CEnd.

Lemma turned_step s s1 id c v k io continue :
  csys_step s s1 → cs_conns s1 = <[id := c]> (cs_conns s) → turned s1 id v k io continue →
  turned s id v k io continue.
Proof.
  intros Hs Hc (s' & c' & Hr & H1 & H2 & H3 & H4). exists s', c'. split; [by eapply rtc_l|].
  by rewrite H3, Hc, insert_insert_eq.
Qed.

(** From [Do]'s return to the loop's head. *)
Lemma answer_steps s id c b dup err io continue :
  cs_conns s !! id = Some c → cn_pc c = CDo b (DoReturn dup err) →
  match SetDeadline (cn_io c) with
  | (Some _, io) => Some (io, false)
  | (None, io) =>
      '(out, werr) ← WriteAck (c_out io) (ack_of b dup err);
      Some (io <| c_out := out |>, bool_decide (werr = None) && bool_decide (err = None))
  end = Some (io, continue) →
  turned s id ((cs_server s) <| stats ::= count_outcome dup err |>) (cs_sink s) io continue.
Proof.
  intros Hc Hp Ha. eapply turned_step; [by eapply cs_count|done|]. set (c1 := c <| cn_pc := CAck b dup err |>).
  assert (∃ c2, conn_ack b dup err c1 = Some c2 ∧ cn_io c2 = io ∧ cn_pc c2 = if continue then CRead else CEnd)
    as (c2 & Hack & Hio & Hpc).
  { unfold conn_ack. change (cn_io c1) with (cn_io c). destruct (SetDeadline (cn_io c)) as [[e|] io1].
    - injection Ha as <- <-. by eexists.
    - destruct (WriteAck _ _) as [[out werr]|]; [|done]. cbn in Ha |- *. injection Ha as <- <-. eexists.
      split; [done|]. destruct werr, err; by split. }
  eexists _, c2. split; [apply rtc_once; eapply cs_ack; [cbn; apply lookup_insert_eq|done|exact Hack]|].
  done.
Qed.

(** [answer_steps] behind a [Do] that came back. *)
Lemma answer_after (s : csys) id c b d k dup err v k' io continue :
  cs_conns s !! id = Some c → cn_pc c = CDo b (DoReturn dup err) →
  dedupe (cs_server s) = d → cs_sink s = k →
  (let s0 := (cs_server s) <| dedupe := d |> <| stats ::= count_outcome dup err |> in
   match SetDeadline (cn_io c) with
   | (Some _, io) => Some (s0, k, io, false)
   | (None, io) =>
       '(out, werr) ← WriteAck (c_out io)
          (mkAck (ack_status dup err) (key_ClientID (batch_key b)) (key_BatchID (batch_key b)));
       Some (s0, k, io <| c_out := out |>, bool_decide (werr = None) && bool_decide (err = None))
   end) = Some (v, k', io, continue) →
  turned s id v k' io continue.
Proof.
  intros Hc Hp <- <- Ha.
  assert (v = (cs_server s) <| stats ::= count_outcome dup err |> ∧ k' = cs_sink s) as [-> ->].
  { destruct (cs_server s) eqn:Es. cbn in Ha. destruct (SetDeadline _) as [[e|] io1]; [by simplify_eq|].
    destruct (WriteAck _ _) as [[out werr]|]; [|done]. cbn in Ha. by simplify_eq. }
  eapply answer_steps; [done|done|]. unfold ack_of. cbn zeta in Ha.
  destruct (SetDeadline _) as [[e|] io1]; [by simplify_eq|].
  destruct (WriteAck _ _) as [[out werr]|]; [|done]. cbn in Ha |- *. by simplify_eq.
Qed.

(** One turn of [handle] is a sequence of steps of its goroutine. *)
Lemma turn_steps (s : csys) id c e v k io continue :
  cs_conns s !! id = Some c → cn_pc c = CRead →
  handle_batch (write e) (cs_server s) (cs_sink s) (cn_io c) = Some (v, k, io, continue) →
  turned s id v k io continue.
Proof.
  intros Hc Hp Hh. destruct (conn_read (cs_server s) c) as [v1 c1] eqn:Hrd.
  pose proof (cs_read id c s v1 c1 Hc Hp Hrd) as Hread. unfold conn_read in Hrd. unfold handle_batch in Hh.
  destruct (SetDeadline (cn_io c)) as [[dl|] io1].
  { simplify_eq. eexists _, _. split; [by apply rtc_once|]. done. }
  destruct (ReadBatch (c_in io1) _) as [[b|re] input].
  2: { simplify_eq. eexists _, _. split; [by apply rtc_once|]. done. }
  injection Hrd as <- <-. eapply turned_step; [exact Hread|done|]. clear Hread.
  set (c1 := mkConn _ _ _ _) in *. fold (batch_key b) in Hh.
  set (s1 := s <| cs_server := cs_server s |> <| cs_conns ::= <[id := c1]> |>).
  assert (Hc1 : cs_conns s1 !! id = Some c1) by apply lookup_insert_eq.
  unfold Do in Hh. destruct (do_enter (batch_key b) (dedupe (cs_server s))) as [d pc] eqn:He.
  eapply turned_step; [exact (cs_enter id c1 b s1 d pc Hc1 eq_refl He)|done|].
  set (s2 := set_pc id c1 (CDo b pc) (set_dedupe d s1)).
  assert (Hc2 : cs_conns s2 !! id = Some (c1 <| cn_pc := CDo b pc |>)) by apply lookup_insert_eq.
  destruct pc as [|call|call|call er|dup err]; [done| | |done|].
  - destruct (do_wait call _ d) as [[| | | |dup err]|] eqn:Hw; try done.
    eapply turned_step; [exact (cs_wait id _ b call _ s2 _ Hc2 eq_refl Hw)|done|].
    eapply answer_after; [apply lookup_insert_eq|done|done|done|exact Hh].
  - destruct (write e (Batch_Records b) (cs_sink s)) as [k1 err] eqn:Hwr.
    eapply turned_step; [exact (cs_write id _ b call e s2 k1 err Hc2 eq_refl Hwr)|done|].
    destruct (do_finish (batch_key b) call err d) as [d2 pc2] eqn:Hf.
    eapply turned_step; [eapply (cs_done id _ b call err _ d2 pc2); [apply lookup_insert_eq|done|exact Hf]|done|].
    destruct pc2 as [| | | |dup err']; try done.
    eapply answer_after; [apply lookup_insert_eq|done|done|done|exact Hh].
  - eapply answer_after; [exact Hc2|done|done|done|exact Hh].
Qed.

(** ** What the collector promises to all its peers at once *)

Definition sink_keys (s : csys) : list BatchKey := (λ r, batch_key r.1.2) <$> cs_runs s.

Lemma run_keys_table s : run_keys (table_of s) = sink_keys s.
Proof. unfold run_keys, sink_keys. cbn. by rewrite <- list_fmap_compose. Qed.

Lemma csys_once cfg s :
  csys_reach cfg s → Z.of_nat (size (list_to_set (sink_keys s) : gset BatchKey)) <= DedupeEntries cfg →
  NoDup (sink_keys s).
Proof.
  intros Hr Hsz. rewrite <- run_keys_table in *. eapply ds_runs_once; [by apply table_reach|lia].
Qed.

Lemma csys_exclusive cfg s id1 id2 c1 c2 b1 b2 call1 call2 :
  csys_reach cfg s → cs_conns s !! id1 = Some c1 → cs_conns s !! id2 = Some c2 →
  cn_pc c1 = CDo b1 (DoRun call1) → cn_pc c2 = CDo b2 (DoRun call2) → batch_key b1 = batch_key b2 → id1 = id2.
Proof.
  intros Hr H1 H2 Hp1 Hp2 Hk. destruct (conns_reach_inv _ _ Hr) as [Hi _].
  assert (Ht1 : ds_threads (table_of s) !! id1 = Some (batch_key b1, DoRun call1)).
  { cbn. rewrite lookup_omap, H1. cbn. unfold in_do. by rewrite Hp1. }
  assert (Ht2 : ds_threads (table_of s) !! id2 = Some (batch_key b2, DoRun call2)).
  { cbn. rewrite lookup_omap, H2. cbn. unfold in_do. by rewrite Hp2. }
  pose proof (i_own _ Hi _ _ _ _ Ht1 eq_refl) as E1. pose proof (i_own _ Hi _ _ _ _ Ht2 eq_refl) as E2.
  rewrite Hk in E1. rewrite E1 in E2. simplify_eq. by eapply (i_unique _ Hi).
Qed.

Lemma csys_size cfg s :
  MaxConnections cfg < 2 ^ 63 → csys_reach cfg s → Z.of_nat (size (cs_conns s)) <= MaxConnections cfg.
Proof.
  intros Hm Hr. destruct (csys_admission cfg s Hm Hr) as [(_ & Hse & _ & Hle) Hc].
  assert (Hd : dom (cs_conns s) = active (cs_server s)).
  { apply set_eq. intros id. by rewrite elem_of_dom, (Hc id). }
  rewrite <- size_dom, Hd. lia.
Qed.

(** The keys of the batches the sink stored: those it answered nil for. *)
Definition stored_keys (s : csys) : list BatchKey :=
  (λ r, batch_key r.1.2) <$> filter (λ r, r.2 = None) (cs_runs s).

Lemma csys_stored_once cfg s :
  csys_reach cfg s → Z.of_nat (size (list_to_set (sink_keys s) : gset BatchKey)) <= DedupeEntries cfg →
  NoDup (stored_keys s).
Proof.
  intros Hr Hsz. eapply sublist_NoDup; [by eapply csys_once|]. unfold stored_keys, sink_keys.
  apply fmap_sublist, sublist_filter.
Qed.

(** C6. A collector with any number of peers, whatever they send, however their
    connections, the sink's other users, the accept loop and [Close] interleave.
    At most [MaxConnections] connections are open.  No two of them are in the sink
    with the same batch at a time, and while the distinct batches that reached the
    sink fit the table, the sink stores (answers nil for) no batch twice, over all
    connections and retransmissions.  What a connection is sent is one
    acknowledgement per frame it sent, in order, all but perhaps the last frame (and
    part of that one's acknowledgement when the connection ends).  Each status says
    exactly this: [Accepted], the sink answered nil to that frame on this
    connection; [SinkError], the sink answered an error to a batch of that key, here
    or on the connection this one waited for, or the wait ended with its context (the
    sink timeout or [Close]); [Duplicate], the sink was given a batch of that key
    before, and answered nil or an error.  In the last case nothing was stored: [Do]
    records failed work too, against its comment (dedupe.go:36), which is the defect
    [sink_error_loses_batch] follows to its end. *)
Theorem connections_sound cfg s :
  MaxConnections cfg < 2 ^ 63 → csys_reach cfg s →
  Z.of_nat (size (cs_conns s)) <= MaxConnections cfg ∧
  (∀ id1 id2 c1 c2 b1 b2 call1 call2,
     cs_conns s !! id1 = Some c1 → cs_conns s !! id2 = Some c2 →
     cn_pc c1 = CDo b1 (DoRun call1) → cn_pc c2 = CDo b2 (DoRun call2) → batch_key b1 = batch_key b2 →
     id1 = id2) ∧
  (Z.of_nat (size (list_to_set (sink_keys s) : gset BatchKey)) <= DedupeEntries cfg → NoDup (stored_keys s)) ∧
  ∀ id c, cs_conns s !! id = Some c →
    (∀ b, (b, StatusAccepted) ∈ acks c → (id, b, None) ∈ cs_runs s) ∧
    (∀ b, (b, StatusSinkError) ∈ acks c → ∃ e,
       (∃ id' b', (id', b', Some e) ∈ cs_runs s ∧ batch_key b' = batch_key b) ∨ (id, b, e) ∈ cs_expired s) ∧
    (∀ b, (b, StatusDuplicate) ∈ acks c →
       (∃ id' b', (id', b', None) ∈ cs_runs s ∧ batch_key b' = batch_key b) ∨
       (∃ id' b' e, (id', b', Some e) ∈ cs_runs s ∧ batch_key b' = batch_key b)) ∧
    (∀ b st, (b, st) ∈ acks c → st = StatusAccepted ∨ st = StatusDuplicate ∨ st = StatusSinkError) ∧
    (∃ l, read_batches c = (acks c).*1 ++ l ∧ (length l <= 1)%nat) ∧
    ∃ part, w_out (c_out (cn_io c)) = acks_bytes (acks c) ++ part ∧ len part <= AckSize ∧
      (cn_pc c ≠ CEnd → part = []).
Proof.
  intros Hm Hr. split; [by apply csys_size|]. split; [intros *; by eapply csys_exclusive|].
  split; [by apply csys_stored_once|]. intros id c Hc. destruct (conns_reach_inv _ _ Hr) as [_ Hi].
  destruct (Hi id c Hc) as [_ Ha Ho _ (_ & part & Hw & Hp & Hl)].
  split_and!; [..|by exists part].
  - intros b Hb. destruct (Ha _ Hb) as [[_ ?]|[[? _]|[? _]]]; done.
  - intros b Hb. destruct (Ha _ Hb) as [[? _]|[[? _]|[_ Hf]]]; done.
  - intros b Hb. destruct (Ha _ Hb) as [[? _]|[[_ ([e|] & id' & b' & Hin & Hk)]|[? _]]]; [done|right|left|done].
    + by exists id', b', e.
    + by exists id', b'.
  - intros b st Hb. destruct (Ha _ Hb) as [[? _]|[[? _]|[? _]]]; auto.
  - unfold in_order in Ho. destruct (cn_pc c) as [|b pc|b dup e|]; [exists []|exists [b]|exists [b]|exact Ho].
    + rewrite app_nil_r. split; [done|cbn; lia].
    + split; [done|cbn; lia].
    + split; [done|cbn; lia].
Qed.

Lemma turned_reach (init : csys → Prop) s id v k io continue :
  reach init csys_step s → turned s id v k io continue →
  ∃ s' c', reach init csys_step s' ∧ cs_server s' = v ∧ cs_sink s' = k ∧ cs_conns s' !! id = Some c' ∧
    cn_io c' = io ∧ cn_pc c' = if continue then CRead else CEnd.
Proof.
  intros Hr (s' & c' & Hs & H1 & H2 & H3 & H4). exists s', c'. split.
  - clear -Hr Hs. induction Hs; [done|]. apply IHHs. by eapply reach_step.
  - by rewrite H3, lookup_insert_eq.
Qed.
End System.

(** One peer sends the same frame twice. *)
Definition sample_start : csys (K := list (list (list byte))) := mkCsys sample_server ∅ [] [] [].

Definition sample_accepted : Server := (serve_accept (Accepted 4) sample_server).1.
Definition sample_open : csys (K := list (list (list byte))) :=
  sample_start <| cs_server := sample_accepted |> <| cs_conns ::= <[4%nat := mkConn sample_connection CRead [] []]> |>.

Lemma sample_turns :
  ∃ v1 k1 io1 v2 io2,
    handle_batch storing sample_accepted [] sample_connection = Some (v1, k1, io1, true) ∧
    handle_batch storing v1 k1 io1 = Some (v2, [sample_records], io2, true) ∧
    w_out (c_out io2) = ack_bytes (mkAck StatusAccepted 7 1) ++ ack_bytes (mkAck StatusDuplicate 7 1).
Proof.
  eexists _, _, _, _, _. split; [vm_compute; reflexivity|]. split; vm_compute; reflexivity.
Qed.

Lemma connections_sound_witness :
  ∃ s c, csys_reach (λ _ : unit, storing) (λ _ _, False) sample_cfg s ∧ cs_conns s !! 4%nat = Some c ∧
    Z.of_nat (size (cs_conns s)) <= 1 ∧ cs_sink s = [sample_records] ∧
    acks_bytes (acks c) =
      ack_bytes (mkAck StatusAccepted 7 1) ++ ack_bytes (mkAck StatusDuplicate 7 1).
Proof.
  set (W := λ _ : unit, storing). set (O := λ _ _ : list (list (list byte)), False).
  assert (H0 : csys_reach W O sample_cfg sample_start) by (apply reach_init; split; [vm_compute; reflexivity|done]).
  assert (H1 : csys_reach W O sample_cfg sample_open).
  { eapply reach_step; [exact H0|].
    apply (cs_accept W O 4 sample_connection sample_start sample_accepted);
      [cbn; set_solver|done|done|apply sink_all_ok|reflexivity]. }
  destruct sample_turns as (v1 & k1 & io1 & v2 & io2 & E1 & E2 & Hout).
  destruct (turned_reach W O (csys_init sample_cfg) sample_open 4 v1 k1 io1 true H1) as (s1 & c1 & H2 & Hv1 & Hk1 & Hc1 & Hio1 & Hp1).
  { by eapply (turn_steps W O sample_open 4 _ tt); [apply lookup_insert_eq|..]. }
  destruct (turned_reach W O (csys_init sample_cfg) s1 4 v2 [sample_records] io2 true H2) as (s2 & c2 & H3 & _ & Hk2 & Hc2 & Hio2 & Hp2).
  { eapply (turn_steps W O s1 4 c1 tt); [done|done|]. by rewrite Hv1, Hk1, Hio1. }
  destruct (connections_sound W O sample_cfg s2 eq_refl H3) as (Hsz & _ & _ & Hall).
  destruct (Hall 4%nat c2 Hc2) as (_ & _ & _ & _ & _ & part & Hw & _ & Hpart).
  exists s2, c2. split; [exact H3|]. split; [exact Hc2|]. split; [exact Hsz|]. split; [exact Hk2|].
  rewrite Hpart, app_nil_r in Hw by (by rewrite Hp2). rewrite <- Hw, Hio2. exact Hout.
Defined.
