(* ===== verification/Delivery.v ===== *)
(** * Delivery: the client against the collector

    An instance of the client's [Net] whose peer is the collector of
    [Collector]: every frame the client's connection carries is handled by
    [handle_batch].  Connections may be refused, break inside a frame, or lose the
    acknowledgement; the context may end at any time. *)

From stdpp Require Import gmap strings list fin_maps.
From Stdlib Require Import ZArith Lia.
From Stdlib.Strings Require Import Byte.
From S2P Require Import Prelude GoLib Protocol Client Dedupe Collector.

(** What happens to one connection: refused at once, how its writes and the
    collector's are answered, and how many acknowledgement bytes arrive. *)
Record fault := mkFault {
  f_refused : bool; f_write : nat → list byte → Z * option error;
  f_reply : nat → list byte → Z * option error; f_cut : nat
}.

(** A connection's writer obeys the contract of [io.Writer]: it takes everything,
    or takes less and reports an error. *)
Definition obeying (f : nat → list byte → Z * option error) (i : nat) (b : list byte)
  : Z * option error :=
  let '(n, e) := f i b in
  if n >=? len b then (len b, e) else (Z.max 0 n, Some (default (ErrNew "broken pipe") e)).

Lemma obeying_ok f i b :
  0 <= (obeying f i b).1 <= len b ∧ ((obeying f i b).2 = None → (obeying f i b).1 = len b).
Proof. unfold obeying. destruct (f i b) as [n e]. destruct (_ >=? _) eqn:E; zbool; cbn; [|split; [lia|done]].
  split; [lia|done]. Qed.

Section Wire.
Context {Sink : Type} (WriteBatch : list (list byte) → Sink → Sink * option error).

(** The collector, its sink, the open connection (the client's outgoing bytes,
    the acknowledgement bytes to read, whether the collector still serves it) and
    what is still to come: the fate of the next connections, the context's
    answers, and the clock. *)
Record wire := mkWire {
  w_srv : Server; w_sink : Sink; w_line : writer; w_acks : reader; w_serving : bool;
  w_fate : fault; w_faults : list fault; w_ctx : list (option error); w_now : Time
}.

#[export] Instance wire_fields : Fields wire := λ r,
  mkWire (w_srv r) (w_sink r) (w_line r) (w_acks r) (w_serving r) (w_fate r) (w_faults r)
    (w_ctx r) (w_now r).

Definition next_ctx (w : wire) : option error * wire :=
  match w_ctx w with [] => (None, w) | e :: rest => (e, w <| w_ctx := rest |>) end.

(** The collector's side of one frame: one turn of the loop of [handle] on the
    bytes that arrived. *)
Definition serve_bytes (bytes : list byte) (w : wire) : wire :=
  if w_serving w then
    match handle_batch WriteBatch (w_srv w) (w_sink w)
            (mkConnection (mkReader bytes io_EOF) (mkWriter [] 0 (obeying (f_reply (w_fate w)))) []) with
    | Some (srv, sk, c, continue) =>
        w <| w_srv := srv |> <| w_sink := sk |> <| w_serving := continue |>
          <| w_acks := mkReader (take (f_cut (w_fate w)) (w_out (c_out c))) io_EOF |>
    | None => w
    end
  else w <| w_acks := mkReader [] io_EOF |>.

#[export] Instance wire_net : Net wire () := {
  net_now w := (w_now w, w);
  net_ctx_err := next_ctx;
  net_wait _ := next_ctx;
  net_dial _ w :=
    match w_faults w with
    | [] => (Err (ErrNew "connection refused"), w)
    | f :: rest =>
        if f_refused f then (Err (ErrNew "connection refused"), w <| w_faults := rest |>)
        else (Ok (), w <| w_faults := rest |> <| w_fate := f |> <| w_serving := true |>
                       <| w_line := mkWriter [] 0 (obeying (f_write f)) |>
                       <| w_acks := mkReader [] io_EOF |>)
    end;
  net_set_deadline _ w := (None, w);
  net_out _ w := w_line w;
  net_sent _ out w :=
    serve_bytes (drop (length (w_out (w_line w))) (w_out out)) (w <| w_line := out |>);
  net_in _ w := w_acks w;
  net_received _ input w := w <| w_acks := input |>;
  net_close _ w := (None, w <| w_acks := mkReader [] io_EOF |> <| w_serving := false |>)
}.

End Wire.
Arguments wire : clear implicits.

(** ** What arrives *)

Lemma Buffers_WriteTo_obeying f buffers : ∀ w total w' total' err,
  w_resp w = obeying f → Buffers_WriteTo w buffers total = (w', total', err) →
  w_resp w' = obeying f ∧ ∃ n, w_out w' = w_out w ++ take n (concat buffers).
Proof.
  induction buffers as [|b buffers IH]; intros w total w' total' err Hw; cbn [Buffers_WriteTo].
  - intros [= <- <- <-]. split; [done|]. exists 0%nat. by rewrite app_nil_r.
  - unfold Write. rewrite Hw. pose proof (obeying_ok f (w_calls w) b) as [Hn He].
    destruct (obeying f (w_calls w) b) as [n e]. cbn [fst snd] in *. destruct e as [e|].
    + intros [= <- <- <-]. cbn. split; [done|]. exists (Z.to_nat n). cbn.
      by rewrite take_app_le by lia.
    + intros (Hr & m & Ho)%IH; [|done]. split; [done|]. exists (length b + m)%nat.
      cbn in Ho. rewrite Ho, (He eq_refl), Nat2Z.id, firstn_all, <- app_assoc. f_equal. cbn.
      by rewrite take_app_add.
Qed.

(** A cut frame is no frame. *)
Lemma ReadBatch_prefix c b t records limits n fin batch r' :
  encodable c b t records limits → 0 < c < 2 ^ 64 → 0 < b < 2 ^ 64 → UnixNano t < 2 ^ 63 →
  ReadBatch (mkReader (take n (concat (Buffers (encoding c b t records)))) fin) limits = (Ok batch, r') →
  Batch_Records batch = records ∧ batch_key batch = mkBatchKey c b.
Proof.
  intros He Hc Hb Ht Hr. pose proof (parse_encoding _ _ _ _ _ He Hc Hb Ht) as Hparse.
  pose proof Hr as Hr'.
  apply ReadBatch_Ok in Hr as (raw & p & Hl & Hlen & Hh & Hp & Hd & Hdata & _).
  rewrite Buffers_encoding in Hdata, Hr'. cbn [rd_data] in Hdata.
  set (hdr := Header (encoding c b t records)) in *.
  assert (Hhl : length hdr = 48%nat) by apply length_header_bytes.
  assert (Hraw : raw = hdr).
  { assert (Htk : take 48 (take n (hdr ++ frames records)) = raw).
    { rewrite Hdata, <- Hlen. apply take_app_length. }
    assert (Hn : (48 <= n)%nat).
    { assert (length (take 48 (take n (hdr ++ frames records))) = 48%nat) by (by rewrite Htk).
      rewrite !length_take in *. lia. }
    rewrite take_take, Nat.min_l in Htk by lia. rewrite <- Htk, <- Hhl. apply take_app_length. }
  subst raw. rewrite Hparse in Hh. injection Hh as Hh.
  rewrite <- Hh in Hp. cbn in Hp.
  assert (Hlen2 : length (take n (hdr ++ frames records)) =
    (48 + length (frames records) + length (rd_data r'))%nat).
  { rewrite Hdata, !length_app. lia. }
  rewrite take_ge in Hr' by (rewrite length_take, length_app in *; lia).
  rewrite <- (app_nil_r (frames records)) in Hr'.
  erewrite ReadBatch_frame in Hr' by (done || apply He).
  rewrite decode_encoding in Hr' by done. by injection Hr' as <- _.
Qed.

(** An acknowledgement is 24 bytes. *)
Lemma ReadAck_rest r :
  (length (rd_data (ReadAck r).2) <= length (rd_data r))%nat ∧
  ∀ a, (ReadAck r).1 = Ok a → length (rd_data r) = (24 + length (rd_data (ReadAck r).2))%nat.
Proof.
  unfold ReadAck. destruct (ReadFull 24 r) as [[raw|e] r1] eqn:E; cbn [fst snd].
  - apply ReadFull_Ok in E as (-> & Hl & _). rewrite length_app. split; [lia|]. intros _ _. lia.
  - unfold ReadFull in E. destruct (_ <=? _)%nat; [done|]. injection E as _ <-. cbn. by split; [lia|].
Qed.

(** ** Exactly once, with a sink that stores *)

Section Delivery.
Context (records : list (list byte)) (limits : Limits) (cid bid : Z) (t : Time).
Context (before : list (list (list byte))) (known : list BatchKey).

Let key : BatchKey := mkBatchKey cid bid.
Let batch : EncodedBatch := encoding cid bid t records.

Definition is_stored (w : wire (list (list (list byte)))) : Prop :=
  key ∈ keys (dedupe (w_srv w)) ∧ w_sink w = before ++ [records].

(** The batch is stored once and recorded, or not at all; acknowledgement bytes
    are only on their way in the first case, no more than one acknowledgement; no
    other batch is recorded. *)
Definition once (w : wire (list (list (list byte)))) : Prop :=
  quiet (dedupe (w_srv w)) ∧ Config_Limits (config (w_srv w)) = limits ∧
  (∃ f, w_resp (w_line w) = obeying f) ∧
  ((length (rd_data (w_acks w)) <= 24)%nat ∧ ∀ k, k ∈ keys (dedupe (w_srv w)) → k = key ∨ k ∈ known) ∧
  (is_stored w ∨
   key ∉ keys (dedupe (w_srv w)) ∧ w_sink w = before ∧ rd_data (w_acks w) = []).

Hypothesis Henc : encodable cid bid t records limits.
Hypothesis Hcid : 0 < cid < 2 ^ 64.
Hypothesis Hbid : 0 < bid < 2 ^ 64.
Hypothesis Ht : UnixNano t < 2 ^ 63.

Lemma once_acks w input :
  once w → (length (rd_data input) <= length (rd_data (w_acks w)))%nat → once (w <| w_acks := input |>).
Proof.
  intros (H1 & H2 & H3 & (Ha & Hk) & H4) Hi. split_and!; [done..|cbn; lia|done|].
  destruct H4 as [H4|(H4 & H5 & H6)]; [by left|right]. split_and!; [done..|]. cbn. rewrite H6 in Hi.
  by destruct (rd_data input); [|cbn in Hi; lia].
Qed.

Lemma turn_keys d k : k ∈ keys_turn d key → k = key ∨ k ∈ keys d.
Proof.
  unfold keys_turn, lru_touch, lru_push. case_decide; [|intros Hk%subseteq_take; revert Hk];
    rewrite elem_of_cons; rewrite ?list_elem_of_filter; naive_solver.
Qed.

(** What a turn sends back is a part of one acknowledgement. *)
Lemma reply_length f ack out n werr :
  GoLib.delivered (mkWriter [] 0 f) out (ack_bytes ack) n werr → (length (w_out out) <= 24)%nat.
Proof.
  intros (_ & -> & _). cbn [w_out app]. rewrite length_take. pose proof (length_ack_bytes ack). lia.
Qed.

Lemma serve_bytes_once n w :
  once w → once (serve_bytes storing (take n (concat (Buffers batch))) w).
Proof.
  intros Hw. unfold serve_bytes. destruct (w_serving w); [|apply once_acks; [done|cbn; lia]].
  pose proof Hw as ([Hwf Hp] & Hlim & Hf & [Ha Hk0] & Hst).
  set (c := mkConnection _ _ []). destruct (ReadBatch (c_in c) limits) as [[b|e] input] eqn:Hr.
  - assert (Hb : Batch_Records b = records ∧ batch_key b = key) 
      by exact (ReadBatch_prefix cid bid t records limits n io_EOF b input Henc Hcid Hbid Ht Hr).
    destruct Hb as [Hb1 Hb2].
    destruct (sink_turn storing (dedupe (w_srv w)) b (w_sink w)) as [sk' err] eqn:Hsk.
    destruct (handle_batch_spec storing (w_srv w) (w_sink w) c b input sk' err)
      as (d' & out & werr & Hhb & Hq' & Hcap & Hk & Hd & _); [by split|done|by rewrite Hlim|done|].
    rewrite Hhb. destruct Hd as [n' Hd%reply_length]; [intros i x; apply obeying_ok|].
    assert (Hin : key ∈ keys d').
    { rewrite Hk, Hb2. by apply elem_of_keys_turn. }
    split_and!; [done..| |intros k Hk'|]; cbn in *.
    { rewrite length_take. lia. }
    { rewrite Hk, Hb2 in Hk'. apply turn_keys in Hk' as [->|Hk']; [by left|by apply Hk0]. }
    left. split; [done|]. cbn.
    unfold sink_turn in Hsk. rewrite Hb1, Hb2 in Hsk.
    destruct Hst as [[Hin' Hs]|(Hn & Hs & _)].
    + rewrite decide_True in Hsk by done. by simplify_eq.
    + rewrite decide_False in Hsk by done. injection Hsk as <- <-. by rewrite Hs.
  - unfold handle_batch, SetDeadline. cbn [c_deadlines c]. rewrite Hlim, Hr.
    destruct (negb _).
    all: split_and!; [done..|cbn; rewrite length_take; cbn; lia|done|]; destruct Hst as [Hs|(Hn & Hs & _)]; [by left|right].
    all: split_and!; [done..|]; cbn; apply take_nil.
Qed.

(** The bytes of a writer that took a part of the frame. *)
Lemma sent_once out m f w :
  once w → w_out out = w_out (w_line w) ++ take m (concat (Buffers batch)) → w_resp out = obeying f →
  once (serve_bytes storing (drop (length (w_out (w_line w))) (w_out out)) (w <| w_line := out |>)).
Proof.
  intros (H1 & H2 & _ & [H0 H0'] & H4) -> Hr. rewrite drop_app_length. apply serve_bytes_once.
  split_and!; try done. by exists f.
Qed.

Lemma next_ctx_once w : once w → once (next_ctx w).2.
Proof. unfold next_ctx. by destruct (w_ctx w). Qed.

Lemma once_preserved lo hi : preserved (W := wire _) (Net0 := wire_net storing) batch lo hi once.
Proof.
  split; cbn.
  - apply next_ctx_once.
  - intros d w _. apply next_ctx_once.
  - intros _ w (H1 & H2 & H3 & H0 & H4). destruct (w_faults w) as [|f rest]; [done|].
    destruct (f_refused f); [done|]. split_and!; [done..|by eexists|cbn; lia|apply H0|].
    destruct H4 as [?|(? & ? & ?)]; [by left|by right].
  - done.
  - intros _ w Hw. destruct (Buffers_WriteTo (w_line w) (Buffers batch) 0) as [[out n] err] eqn:E.
    assert (Hout : (WriteVectoredTo batch (w_line w)).1.1 = out).
    { unfold WriteVectoredTo. rewrite E. destruct err; [done|]. by destruct (_ =? _). }
    rewrite Hout. pose proof Hw as (_ & _ & (f & Hf) & _).
    apply (Buffers_WriteTo_obeying f) in E as (Hr & m & Ho); [|done]. by eapply sent_once.
  - intros _ w Hw. apply once_acks; [done|]. apply ReadAck_rest.
  - intros _ w Hw. exact (once_acks (w <| w_serving := false |>) (mkReader [] io_EOF) Hw ltac:(cbn; lia)).
Qed.

(** An acknowledgement that can be read says that the batch is stored. *)
Lemma acked_stored w ack input :
  once w → ReadAck (w_acks w) = (Ok ack, input) → is_stored w ∧ rd_data input = [].
Proof.
  intros (_ & _ & _ & [Ha _] & Hst) HR. pose proof (ReadAck_rest (w_acks w)) as [_ Hl]. rewrite HR in Hl.
  specialize (Hl ack eq_refl). cbn in Hl. split; [|by apply length_zero_iff_nil; lia].
  destruct Hst as [Hst|(_ & _ & Hn)]; [exact Hst|]. rewrite Hn in Hl. cbn in Hl. lia.
Qed.

Lemma acknowledged_stored k w w' :
  once w → acknowledged (W := wire _) (Net0 := wire_net storing) batch k w w' →
  is_stored w' ∧ rd_data (w_acks w') = [].
Proof.
  intros Hw (w1 & out & ack & input & [= <-] & HW & HR & _ & _ & _ & ->).
  pose proof (p_sent _ _ _ _ (once_preserved 0 0) k w Hw) as Hs. cbn in Hs.
  change (WriteVectoredTo batch (net_out k w)) with (WriteVectoredTo batch (w_line w)) in HW.
  rewrite HW in Hs. exact (acked_stored _ ack input Hs HR).
Qed.

End Delivery.

(** A caller that repeats a failed [Send], as the flusher does. *)
Fixpoint resend {Sink} (WriteBatch : list (list byte) → Sink → Sink * option error) (n : nat)
  (records : list (list byte)) (c : Client ()) (w : wire Sink) : option error * Client () * wire Sink :=
  let '(err, c, w) := Send (Net0 := wire_net WriteBatch) records c w in
  match err, n with
  | Some _, S n => resend WriteBatch n records c w
  | _, _ => (err, c, w)
  end.

(** A client without a pending batch and an idle line to a collector with the
    client's limits, none of whose recorded batches has the number to come. *)
Record ready {Sink} (c : Client ()) (w : wire Sink) : Prop := mkReady {
  r_client : client_wf c;
  r_backoff : RetryMaximum (Client.config c) < 2 ^ 56 ∧ MaxAttempts (Client.config c) < 2 ^ 57;
  r_open : closed c = false ∧ pending c = None;
  r_clock : UnixNano (w_now w) < 2 ^ 63;
  r_quiet : quiet (dedupe (w_srv w));
  r_limits : Config_Limits (Collector.config (w_srv w)) = cc_Limits (Client.config c);
  r_line : (∃ f, w_resp (w_line w) = obeying f) ∧ rd_data (w_acks w) = [];
  r_new : mkBatchKey (cc_ClientID (Client.config c)) (next_id (batchID c)) ∉ keys (dedupe (w_srv w))
}.

Lemma ready_once records c w :
  ready c w → once records (cc_Limits (Client.config c)) (cc_ClientID (Client.config c)) (next_id (batchID c))
                (w_sink w) (keys (dedupe (w_srv w))) w.
Proof.
  intros [_ _ _ _ Hq Hl [Hf Ha] Hn]. split_and!; [done..|rewrite Ha; cbn; lia|auto|]. by right.
Qed.

Section Resend.
Context (records : list (list byte)) (c0 : Client ()) (w0 : wire (list (list (list byte)))).
Hypothesis Hready : ready c0 w0.

Let cid := cc_ClientID (Client.config c0).
Let bid := next_id (batchID c0).
Let t := w_now w0.
Let limits := cc_Limits (Client.config c0).
Let once' := once records limits cid bid (w_sink w0) (keys (dedupe (w_srv w0))).
Let stored' := is_stored records cid bid (w_sink w0).

(** The client between two attempts at the batch, and after it. *)
Definition resending (p : option EncodedBatch) (c : Client ()) : Prop :=
  client_wf c ∧ Client.config c = Client.config c0 ∧ closed c = false ∧ batchID c = bid ∧ pending c = p.
Definition retrying : Client () → Prop := resending (Some (encoding cid bid t records)).

Lemma ids_ok : 0 < cid < 2 ^ 64 ∧ 0 < bid < 2 ^ 64 ∧ UnixNano t < 2 ^ 63.
Proof.
  destruct (r_client _ _ Hready) as (? & _). split_and!; try lia;
    [apply next_id_range..|apply (r_clock _ _ Hready)].
Qed.

(** One call of [Send] for this batch. *)
Lemma Send_once c w err c' w' :
  encodable cid bid t records limits → client_wf c → Client.config c = Client.config c0 → closed c = false →
  batch_of (Net0 := wire_net storing) c records w = Ok (encoding cid bid t records) →
  once' w → Send (Net0 := wire_net storing) records c w = (err, c', w') →
  once' w' ∧
  match err with
  | None => stored' w' ∧ rd_data (w_acks w') = [] ∧ resending None c'
  | Some _ => retrying c'
  end.
Proof.
  intros He Hwf Hcfg Hcl Hb Hw HS. destruct ids_ok as (Hc & Hbd & Ht).
  destruct (r_backoff _ _ Hready) as [Hr1 Hr2]. rewrite <- Hcfg in Hr1, Hr2.
  pose proof (Send_post (Net0 := wire_net storing) records c w _ once' Hwf Hr1 Hr2 Hcl Hb
    (once_preserved _ _ _ _ _ _ _ He Hc Hbd Ht _ _) (λ w Hw, Hw) Hw) as [Hp Hack].
  rewrite HS in Hp, Hack. split; [done|]. apply Send_cases in HS; [|done]. rewrite Hb in HS.
  destruct HS as (w1 & _ & Hlo%send_loop_outcome).
  pose proof (armed_pending _ _ _ _ Hb) as Hap. pose proof (batch_of_ids _ _ _ _ Hwf Hb) as [Hi1 Hi2].
  assert (Hac : Client.config (armed c (encoding cid bid t records)) = Client.config c ∧
    closed (armed c (encoding cid bid t records)) = closed c) by (unfold armed; by destruct (pending c)).
  destruct Hac as [Ha1 Ha2]. pose proof (encoding_ids cid bid t records) as [_ Hib]; [lia..|].
  change (mkEncodedBatch _ _ _) with (encoding cid bid t records) in Hib. rewrite Hib in Hi2.
  assert (Hwf' : ∀ c1, loop_keeps (armed c (encoding cid bid t records)) c1 ∨ 
    loop_keeps ((armed c (encoding cid bid t records)) <| pending := None |>) c1 → client_wf c1).
  { destruct Hwf as (? & ? & ? & ? & ? & ?). intros c1 [(E1 & E2 & E3 & E4)|(E1 & E2 & E3 & E4)]; cbn in *.
    all: unfold client_wf; rewrite E1, E2, E4, ?Hap, Ha1; split_and!; try done; try lia.
    intros ? [= <-]. by rewrite Hib. }
  destruct err as [e|].
  - pose proof Hlo as (E1 & E2 & E3 & E4). split_and!; [apply Hwf'; by left|congruence..].
  - destruct (Hack eq_refl) as (k & w2 & Hw2 & Ha).
    destruct (acknowledged_stored records limits cid bid t (w_sink w0) _ He Hc Hbd Ht k w2 w' Hw2 Ha) as [Hst Hn].
    split; [exact Hst|]. split; [done|]. destruct Hlo as (? & ? & _ & Hk & _).
    pose proof Hk as (E1 & E2 & E3 & E4). cbn in *. split_and!; [apply Hwf'; by right|congruence..].
Qed.

Lemma resend_once n : ∀ c w err c' w',
  encodable cid bid t records limits → client_wf c → Client.config c = Client.config c0 → closed c = false →
  batch_of (Net0 := wire_net storing) c records w = Ok (encoding cid bid t records) →
  once' w → resend storing n records c w = (err, c', w') →
  once' w' ∧ (err = None → stored' w').
Proof.
  induction n as [|n IH]; intros c w err c' w' He Hwf Hcfg Hcl Hb Hw; cbn [resend];
    destruct (Send _ c w) as [[err1 c1] w1] eqn:HS;
    pose proof (Send_once c w err1 c1 w1 He Hwf Hcfg Hcl Hb Hw HS) as (Hw1 & Hre).
  - destruct err1; intros [= <- <- <-]; [by split|]. by destruct Hre.
  - destruct err1 as [e|]; [|intros [= <- <- <-]; by destruct Hre].
    destruct Hre as (Hwf1 & Hcfg1 & Hcl1 & _ & Hp1). apply IH; try done.
    unfold batch_of. rewrite Hp1.
    pose proof (Matches_spec cid bid t records limits records records He eq_refl) as HM.
    change (mkEncodedBatch _ _ records) with (encoding cid bid t records) in HM.
    by rewrite (proj2 HM).
Qed.

End Resend.

(** Records that cannot be encoded never reach the network. *)
Lemma resend_invalid records n : ∀ c (w : wire (list (list (list byte)))) err c' w',
  closed c = false → pending c = None →
  (∀ b, b ≠ 0 → ¬ encodable (cc_ClientID (Client.config c)) b (w_now w) records
                    (cc_Limits (Client.config c))) →
  resend storing n records c w = (err, c', w') → w' = w ∧ err ≠ None.
Proof.
  induction n as [|n IH]; intros c w err c' w' Hcl Hp Hbad; cbn [resend];
    destruct (Send _ c w) as [[err1 c1] w1] eqn:HS; apply Send_cases in HS; try done.
  all: unfold batch_of in HS; rewrite Hp in HS.
  all: destruct (NewEncodedBatch _ _ _ _ _) as [b|e] eqn:Hb;
    [apply NewEncodedBatch_spec in Hb as [Hen _]; destruct (Hbad (next_id (batchID c)));
     [pose proof (next_id_range (batchID c)); lia|done]|].
  all: destruct HS as (Hne & Hp1 & Hcf & _ & Hc1 & _ & Hw1 & _); destruct err1 as [e1|]; [|done].
  - intros [= <- <- <-]. split; [by destruct Hw1|done].
  - assert (w1 = w) as -> by (by destruct Hw1). rewrite <- Hcf in Hbad. intros HS. by eapply IH.
Qed.

(** C5. Exactly once, end to end.  However often a caller repeats [Send] for one
    batch, and whatever happens to the connections (refusals, frames cut short,
    acknowledgements lost or cut) and to the context, a collector whose sink
    stores what it is given has the records at most once, and exactly once as
    soon as a call reported success. *)
Theorem delivery_exactly_once n records c w err c' w' :
  ready c w → resend storing n records c w = (err, c', w') →
  (w_sink w' = w_sink w ∨ w_sink w' = w_sink w ++ [records]) ∧
  (err = None → w_sink w' = w_sink w ++ [records]).
Proof.
  intros Hr HS. pose proof (r_open _ _ Hr) as [Hcl Hp].
  set (cid := cc_ClientID (Client.config c)). set (bid := next_id (batchID c)).
  destruct (batch_of (Net0 := wire_net storing) c records w) as [b|e] eqn:Hb.
  - pose proof Hb as Hb'. unfold batch_of in Hb'. rewrite Hp in Hb'.
    apply NewEncodedBatch_spec in Hb' as [He ->].
    assert (Hw := ready_once records c w Hr).
    apply (resend_once records c w Hr n c w) in HS as [Hw' Hst]; try done; [|by apply Hr].
    split; [destruct Hw' as (_ & _ & _ & _ & [[_ ?]|(_ & ? & _)]); auto|]. intros ->. by apply Hst.
  - destruct (resend_invalid records n c w err c' w' Hcl Hp) as [-> Hne]; [|done|split; [by left|done]].
    intros b Hbn Hen. unfold batch_of in Hb. rewrite Hp in Hb.
    assert (He : encodable cid bid (w_now w) records (cc_Limits (Client.config c))).
    { destruct Hen as (? & ? & _ & ?). pose proof (next_id_range (batchID c)).
      split_and!; [done|done|unfold bid; lia|tauto..]. }
    pose proof (proj2 (NewEncodedBatch_spec _ _ _ _ _ _) (conj He eq_refl)) as Hok.
    unfold cid, bid in Hok. cbn in Hb. by rewrite Hok in Hb.
Qed.

(** ** A sink that fails *)

(** A connection nothing goes wrong with: it is accepted, takes what it is given
    and brings back whole acknowledgements. *)
Record healthy (f : fault) : Prop := mkHealthy {
  h_accepted : f_refused f = false;
  h_write : ∀ i b, obeying (f_write f) i b = (len b, None);
  h_reply : ∀ i b, obeying (f_reply f) i b = (len b, None);
  h_whole : (24 <= f_cut f)%nat
}.

Lemma Buffers_WriteTo_takes buffers : ∀ w total,
  takes w →
  ∃ w', Buffers_WriteTo w buffers total = (w', total + len (concat buffers), None) ∧
    w_out w' = w_out w ++ concat buffers.
Proof.
  induction buffers as [|b buffers IH]; intros w total Hw; cbn [Buffers_WriteTo concat].
  - exists w. rewrite app_nil_r. change (len []) with 0. by rewrite Z.add_0_r.
  - unfold Write. rewrite (Hw _ _). cbn [fst snd].
    destruct (IH (mkWriter (w_out w ++ take (Z.to_nat (len b)) b) (S (w_calls w)) (w_resp w))
      (total + len b) Hw) as (w' & -> & Ho).
    exists w'. cbn [w_out] in Ho. rewrite Ho, Nat2Z.id, firstn_all, length_app, <- app_assoc.
    split; [do 2 f_equal; lia|done].
Qed.

Section Failing.
Context {Sink : Type} (WriteBatch : list (list byte) → Sink → Sink * option error).
Context (records : list (list byte)) (limits : Limits) (cid bid : Z) (t : Time).

Let key : BatchKey := mkBatchKey cid bid.
Let batch : EncodedBatch := encoding cid bid t records.

Hypothesis Henc : encodable cid bid t records limits.
Hypothesis Hcid : 0 < cid < 2 ^ 64.
Hypothesis Hbid : 0 < bid < 2 ^ 64.
Hypothesis Ht : UnixNano t < 2 ^ 63.

Lemma read_whole fin : ∃ b,
  ReadBatch (mkReader (concat (Buffers batch)) fin) limits = (Ok b, mkReader [] fin) ∧
  Batch_Records b = records ∧ ClientID (Batch_Header b) = cid ∧ BatchID (Batch_Header b) = bid.
Proof.
  unfold batch. rewrite Buffers_encoding, <- (app_nil_r (frames records)).
  erewrite ReadBatch_frame; [|apply Henc|apply length_header_bytes|by apply parse_encoding|done].
  rewrite decode_encoding by done. by eexists.
Qed.

(** The server and the sink before and after a batch that arrived whole. *)
Record served (dup : bool) (err : option error) (sk' : Sink) (w w' : wire Sink) : Prop := mkServed {
  sv_sink : w_sink w' = sk';
  sv_quiet : quiet (dedupe (w_srv w'));
  sv_limits : Config_Limits (Collector.config (w_srv w')) = Config_Limits (Collector.config (w_srv w));
  sv_keys : key ∈ keys (dedupe (w_srv w'));
  sv_stats : stats (w_srv w') = count_outcome dup err (stats (w_srv w))
}.

Lemma serve_whole (w : wire Sink) sk' err :
  healthy (w_fate w) → w_serving w = true → quiet (dedupe (w_srv w)) →
  Config_Limits (Collector.config (w_srv w)) = limits →
  (if decide (key ∈ keys (dedupe (w_srv w))) then (w_sink w, None) else WriteBatch records (w_sink w))
    = (sk', err) →
  let dup := bool_decide (key ∈ keys (dedupe (w_srv w))) in
  let w' := serve_bytes WriteBatch (concat (Buffers batch)) w in
  served dup err sk' w w' ∧ (w_faults w' = w_faults w ∧ w_ctx w' = w_ctx w) ∧
  w_acks w' = mkReader (ack_bytes (mkAck (ack_status dup err) cid bid)) io_EOF.
Proof.
  intros Hf Hs Hq Hl Hsk dup w'. destruct (read_whole io_EOF) as (b & Hr & Eb & Ec & Ei).
  assert (Ek : batch_key b = key) by (unfold batch_key, key; congruence).
  destruct (handle_batch_spec WriteBatch (w_srv w) (w_sink w)
    (mkConnection (mkReader (concat (Buffers batch)) io_EOF) (mkWriter [] 0 (obeying (f_reply (w_fate w)))) [])
    b (mkReader [] io_EOF) sk' err) as (d' & out & werr & Hh & Hq' & _ & Hk & _ & Ht'); [done|done|by rewrite Hl| |].
  { unfold sink_turn. by rewrite Ek, Eb. }
  destruct Ht' as [Ho _]; [intros i x; apply (h_reply _ Hf)|].
  unfold w', serve_bytes. rewrite Hs, Hh. split; [|split; [done|]].
  - split; try done; cbn.
    + rewrite Hk, Ek. apply elem_of_keys_turn, Hq.
    + by rewrite Ek.
  - cbn [w_acks update_with wire_fields]. cbn in Ho |- *. rewrite Ho, Ek, Ec, Ei.
    rewrite take_ge; [done|]. exact (h_whole _ Hf).
Qed.
(** One [exchange] of the batch over such a connection. *)
Lemma healthy_exchange (w : wire Sink) sk' err :
  healthy (w_fate w) → w_serving w = true → w_line w = mkWriter [] 0 (obeying (f_write (w_fate w))) →
  quiet (dedupe (w_srv w)) → Config_Limits (Collector.config (w_srv w)) = limits →
  (if decide (key ∈ keys (dedupe (w_srv w))) then (w_sink w, None) else WriteBatch records (w_sink w))
    = (sk', err) →
  ∃ w', exchange (Net0 := wire_net WriteBatch) () batch w =
    (if err then Some (RemoteError StatusSinkError) else None, w') ∧
    served (bool_decide (key ∈ keys (dedupe (w_srv w)))) err sk' w w' ∧
    w_faults w' = w_faults w ∧ w_ctx w' = w_ctx w.
Proof.
  intros Hf Hs Hw Hq Hl Hsk. unfold exchange. cbn [net_set_deadline net_out net_sent net_in net_received wire_net].
  assert (E : ∃ out, WriteVectoredTo batch (w_line w) = (out, Size batch, None) ∧
    w_out out = concat (Buffers batch)).
  { unfold WriteVectoredTo. destruct (Buffers_WriteTo_takes (Buffers batch) (w_line w) 0) as (out & -> & Ho).
    { rewrite Hw. intros i x. apply (h_write _ Hf). }
    exists out. rewrite Ho, Hw. split; [|done].
    unfold batch. rewrite Size_encoding, Buffers_encoding, length_app. cbn [Header encoding].
    rewrite length_header_bytes. replace (0 + Z.of_nat (48 + length (frames records))) with (48 + len (frames records)) by lia.
    by rewrite Z.eqb_refl. }
  destruct E as (out & -> & ->). rewrite Hw. cbn [w_out length]. rewrite drop_0.
  set (w1 := w <| w_line := out |>). destruct (serve_whole w1 sk' err Hf Hs Hq Hl Hsk) as (Hv & Hrest & Ha).
  cbn zeta in Hv, Ha. set (r := ReadAck _).
  set (ack := mkAck (ack_status _ err) cid bid) in *.
  destruct (encoding_ids cid bid t records) as [I1 I2]; [lia..|].
  assert (R : r = (Ok ack, mkReader [] io_EOF)).
  { unfold r. apply ReadAck_iff. split; [|].
    - split; [|split; cbn; lia]. unfold ack. destruct err; [done|]. by case_bool_decide.
    - exists (ack_bytes ack). split; [|split; [|exact (f_equal rd_end (eq_sym Ha))]].
      + apply MarshalBinary_Ok. split_and!; [apply ack_status_valid|cbn; lia..|done].
      + etransitivity; [exact (f_equal rd_data Ha)|]. by rewrite app_nil_r. }
  rewrite R. unfold batch. rewrite I1, I2. cbn [Ack_ClientID Ack_BatchID ack]. rewrite !Z.eqb_refl. cbn [negb orb].
  eexists. split; [f_equal|split; [by destruct Hv|exact Hrest]].
  destruct err as [e|]; [done|]. cbn [Status ack ack_status]. by case_bool_decide.
Qed.
(** The world as the loop finds it at the start of a turn: the context answers nil
    throughout, and the next connection is healthy. *)
Definition calm (f : fault) (rest : list fault) (w : wire Sink) : Prop :=
  w_faults w = f :: rest ∧ healthy f ∧ Forall (λ e, e = None) (w_ctx w) ∧
  quiet (dedupe (w_srv w)) ∧ Config_Limits (Collector.config (w_srv w)) = limits.

Lemma next_ctx_calm (w : wire Sink) :
  Forall (λ e, e = None) (w_ctx w) →
  ∃ rest, next_ctx w = (None, w <| w_ctx := rest |>) ∧ Forall (λ e, e = None) rest.
Proof.
  unfold next_ctx. destruct w as [srv sk line acks serving fate faults [|e ctx] now]; cbn.
  - intros _. by exists [].
  - intros [-> H]%Forall_cons. by exists ctx.
Qed.

(** One turn of the loop up to what [exchange] answers. *)
Lemma calm_turn f rest (c : Client ()) (w : wire Sink) sk' err :
  calm f rest w → conn c = None →
  (if decide (key ∈ keys (dedupe (w_srv w))) then (w_sink w, None) else WriteBatch records (w_sink w))
    = (sk', err) →
  ∃ w1 w2 w3, next_ctx w = (None, w1) ∧
    ensureConnection (Net0 := wire_net WriteBatch) c w1 = (Ok (), c <| conn := Some () |>, w2) ∧
    exchange (Net0 := wire_net WriteBatch) () batch w2 =
      (if err then Some (RemoteError StatusSinkError) else None, w3) ∧
    served (bool_decide (key ∈ keys (dedupe (w_srv w)))) err sk' w w3 ∧
    w_faults w3 = rest ∧ Forall (λ e, e = None) (w_ctx w3).
Proof.
  intros (Hfs & Hf & Hctx & Hq & Hl) Hc Hsk. destruct (next_ctx_calm w Hctx) as (ctx & En & Hctx1).
  set (w1 := w <| w_ctx := ctx |>) in *.
  set (w2 := w1 <| w_faults := rest |> <| w_fate := f |> <| w_serving := true |>
               <| w_line := mkWriter [] 0 (obeying (f_write f)) |> <| w_acks := mkReader [] io_EOF |>).
  destruct (healthy_exchange w2 sk' err Hf eq_refl eq_refl Hq Hl Hsk) as (w3 & Ex & Hv & Hfs3 & Hctx3).
  exists w1, w2, w3. split; [done|]. split.
  { unfold ensureConnection. rewrite Hc. cbn [net_dial wire_net].
    change (w_faults w1) with (w_faults w). by rewrite Hfs, (h_accepted _ Hf). }
  split; [exact Ex|]. split; [by destruct Hv|]. split; [exact Hfs3|]. by rewrite Hctx3.
Qed.

(** The sink fails: the client hears [SinkError] and comes round again. *)
Lemma calm_fails f rest k attempt backoff lastErr (c : Client ()) (w : wire Sink) sk' e :
  calm f rest w → conn c = None → attempt < MaxAttempts (Client.config c) →
  key ∉ keys (dedupe (w_srv w)) → WriteBatch records (w_sink w) = (sk', Some e) →
  ∃ w' backoff' lastErr',
    served false (Some e) sk' w w' ∧ w_faults w' = rest ∧ Forall (λ e, e = None) (w_ctx w') ∧
    send_loop (Net0 := wire_net WriteBatch) (S k) attempt backoff lastErr batch c w =
    send_loop (Net0 := wire_net WriteBatch) k (attempt + 1) backoff' lastErr' batch c w'.
Proof.
  intros Hcalm Hc Ha Hk Hsk.
  destruct (calm_turn f rest c w sk' (Some e) Hcalm Hc) as (w1 & w2 & w3 & En & Ec & Ex & Hv & Hfs & Hctx).
  { by rewrite decide_False. }
  rewrite bool_decide_eq_false_2 in Hv by done.
  set (w4 := w3 <| w_acks := mkReader [] io_EOF |> <| w_serving := false |>).
  destruct (next_ctx_calm w4 Hctx) as (ctx & Ew & Hctx4).
  exists (w4 <| w_ctx := ctx |>). eexists _, _. split; [by destruct Hv|]. split; [exact Hfs|]. split; [exact Hctx4|].
  assert (Hd : dropConnection (Net0 := wire_net WriteBatch) (c <| conn := Some () |>) w3 = (c, w4)).
  { destruct c. cbn in Hc. by subst. }
  cbn [send_loop]. cbn [net_ctx_err wire_net]. rewrite En, Ec, Ex.
  rewrite bool_decide_eq_false_2, Hd by done. cbn [net_wait wire_net]. ztest. rewrite Ew. reflexivity.
Qed.

(** The batch is recorded: the client hears [Duplicate] and returns nil. *)
Lemma calm_duplicate f rest k attempt backoff lastErr (c : Client ()) (w : wire Sink) :
  calm f rest w → conn c = None → key ∈ keys (dedupe (w_srv w)) →
  ∃ w', served true None (w_sink w) w w' ∧
    send_loop (Net0 := wire_net WriteBatch) (S k) attempt backoff lastErr batch c w =
    (None, c <| conn := Some () |> <| pending := None |>, w').
Proof.
  intros Hcalm Hc Hk.
  destruct (calm_turn f rest c w (w_sink w) None Hcalm Hc) as (w1 & w2 & w3 & En & Ec & Ex & Hv & _ & _).
  { by rewrite decide_True. }
  rewrite bool_decide_eq_true_2 in Hv by done. exists w3. split; [done|].
  cbn [send_loop]. cbn [net_ctx_err wire_net]. by rewrite En, Ec, Ex.
Qed.
End Failing.

(** ** Examples *)

Definition takes_all : nat → list byte → Z * option error := λ _ b, (len b, None).
Definition good : fault := mkFault false takes_all takes_all 24.

(** Refused; cut inside the header; the acknowledgement lost; then fine. *)
Definition rough : list fault :=
  [mkFault true takes_all takes_all 24; mkFault false (λ _ _, (30, None)) takes_all 24;
   mkFault false takes_all takes_all 3; good].

Definition sample_wire {Sink} (sk : Sink) (faults : list fault) : wire Sink :=
  mkWire sample_server sk (mkWriter [] 0 (obeying takes_all)) (mkReader [] io_EOF) false good
    faults [] sample_time.

Lemma sample_ready {Sink} (sk : Sink) faults : ready sample_client (sample_wire sk faults).
Proof.
  split; [apply sample_client_wf|done|done|done|apply NewDedupe_quiet|done|
    split; [by exists takes_all|done]|apply not_elem_of_nil].
Qed.

Lemma delivery_exactly_once_witness :
  ∃ c' w', resend storing 0 sample_records sample_client (sample_wire [] rough) = (None, c', w') ∧
    w_sink w' = [sample_records].
Proof.
  destruct (resend storing 0 sample_records sample_client (sample_wire [] rough))
    as [[err c'] w'] eqn:E.
  assert (err = None) as -> by (vm_compute in E; congruence).
  exists c', w'. split; [reflexivity|].
  exact (proj2 (delivery_exactly_once 0 sample_records sample_client (sample_wire [] rough)
    None c' w' (sample_ready _ _) E) eq_refl).
Defined.

(** C32. A batch can be lost with a success report.  A client without a
    connection and with two attempts or more sends an encodable batch; its next
    two connections are healthy and the context does not end.  If the sink fails
    the batch, whatever the sink and its error, the client is told [SinkError],
    retries, is told [Duplicate], because the collector has recorded the batch,
    and returns nil with nothing pending; the sink was given the batch that once
    and is left as the failed call left it, and the collector counts one sink
    error, one duplicate and no batch accepted. *)
Theorem sink_error_loses_batch {Sink} (WriteBatch : list (list byte) → Sink → Sink * option error) n
  records c (w : wire Sink) f1 f2 rest sk' e :
  ready c w → conn c = None → 2 <= MaxAttempts (Client.config c) →
  encodable (cc_ClientID (Client.config c)) (next_id (batchID c)) (w_now w) records
    (cc_Limits (Client.config c)) →
  w_faults w = f1 :: f2 :: rest → healthy f1 → healthy f2 → Forall (λ e, e = None) (w_ctx w) →
  WriteBatch records (w_sink w) = (sk', Some e) →
  ∃ c' w', resend WriteBatch n records c w = (None, c', w') ∧ pending c' = None ∧ w_sink w' = sk' ∧
    SinkErrors (stats (w_srv w')) = inc (SinkErrors (stats (w_srv w))) ∧
    DuplicateBatches (stats (w_srv w')) = inc (DuplicateBatches (stats (w_srv w))) ∧
    AcceptedBatches (stats (w_srv w')) = AcceptedBatches (stats (w_srv w)).
Proof.
  intros Hr Hc Hm He Hfs H1 H2 Hctx Hsk. pose proof Hr as [[Hid _] _ [Hcl Hp] Ht Hq Hl _ Hn].
  set (cid := cc_ClientID (Client.config c)) in *. set (bid := next_id (batchID c)) in *.
  pose proof (next_id_range (batchID c)) as Hbid. fold bid in Hbid.
  set (b := encoding cid bid (w_now w) records).
  set (c1 := c <| batchID ::= next_id |> <| pending := Some b |>).
  destruct (Z.to_nat (MaxAttempts (Client.config c))) as [|[|k]] eqn:Ek; [lia..|].
  destruct (calm_fails WriteBatch records (cc_Limits (Client.config c)) cid bid (w_now w) He Hid Hbid Ht
    f1 (f2 :: rest) (S k) 1 (RetryInitial (Client.config c)) None c1 w sk' e)
    as (w1 & backoff & lastErr & Hv & Hfs1 & Hctx1 & E1); [by split_and!|done|cbn; lia|done|done|].
  destruct Hv as [Vs Vq Vl Vk Vst].
  destruct (calm_duplicate WriteBatch records (cc_Limits (Client.config c)) cid bid (w_now w) He Hid Hbid Ht
    f2 rest k (1 + 1) backoff lastErr c1 w1) as (w2 & Hv2 & E2); [|done|done|].
  { split_and!; [done..|congruence]. }
  assert (HS : Send (Net0 := wire_net WriteBatch) records c w =
    (None, c1 <| conn := Some () |> <| pending := None |>, w2)).
  { unfold Send. rewrite Hcl, Hp. cbn [net_now wire_net].
    set (x := NewEncodedBatch _ _ _ _ _). assert (x = Ok b) as -> by (by apply NewEncodedBatch_spec).
    etransitivity; [|exact E2]. etransitivity; [|exact E1]. f_equal. exact Ek. }
  exists (c1 <| conn := Some () |> <| pending := None |>), w2. split; [by destruct n; cbn [resend]; rewrite HS|].
  split; [done|]. destruct Hv2 as [-> _ _ _ ->]. by rewrite Vst.
Qed.

(** A sink that fails its first batch and stores the following ones. *)
Definition failing_once (records : list (list byte)) (sk : bool * list (list (list byte)))
  : bool * list (list (list byte)) * option error :=
  if sk.1 then (true, sk.2 ++ [records], None) else (true, sk.2, Some (ErrNew "disk full")).

Lemma good_healthy : healthy good.
Proof. split; try done; intros i b; unfold obeying; cbn; by ztest. Qed.

(** The sink would store the batch now; it was not asked again. *)
Lemma sink_error_loses_batch_witness :
  ∃ c' w', resend failing_once 3 sample_records sample_client (sample_wire (false, []) [good; good]) = (None, c', w') ∧
    pending c' = None ∧ w_sink w' = (true, []) ∧
    failing_once sample_records (w_sink w') = (true, [sample_records], None).
Proof.
  destruct (sink_error_loses_batch failing_once 3 sample_records sample_client
    (sample_wire (false, []) [good; good]) good good [] (true, []) (ErrNew "disk full"))
    as (c' & w' & E & Hp & Hs & _).
  - apply sample_ready.
  - reflexivity.
  - vm_compute. discriminate.
  - vm_compute. repeat split; try discriminate. all: repeat constructor; discriminate.
  - reflexivity.
  - apply good_healthy.
  - apply good_healthy.
  - constructor.
  - reflexivity.
  - exists c', w'. split; [exact E|]. split; [exact Hp|]. split; [exact Hs|]. rewrite Hs. reflexivity.
Defined.
