(* ===== verification/Sink.v ===== *)
(** * Sinks: the resume cursor, sequential writes and the writer sink

    [batchCursor] and [writeSequential] of internal/sink/write.go, [WriterSink]
    of writer.go, the counters of types.go and [NetworkAdapter] of network.go. *)

From stdpp Require Import gmap strings list fin_maps.
From Stdlib Require Import ZArith Lia.
From Stdlib.Strings Require Import Byte.
From S2P Require Import Prelude GoLib.

(** ** Counters *)

Record Stats := mkStats {
  Batches : Z; st_Records : Z; Bytes : Z; Errors : Z; ShortWrites : Z; Flushes : Z;
  Rotations : Z; LastWriteNanos : Z; Closed : bool
}.

#[export] Instance Stats_fields : Fields Stats := λ r,
  mkStats (Batches r) (st_Records r) (Bytes r) (Errors r) (ShortWrites r) (Flushes r)
    (Rotations r) (LastWriteNanos r) (Closed r).

Definition zero_stats : Stats := mkStats 0 0 0 0 0 0 0 0 false.

(** [counter.Add(n)] *)
Definition add_u64 (n z : Z) : Z := u64 (z + n).

Record Capabilities := mkCapabilities {
  BatchMode : string; CopyAvoiding : bool; DurableFlush : bool; Acknowledged : bool
}.

(** ** The cursor over a partly written batch *)

Definition ErrBatchChanged : error := ErrNew "sink retry batch changed after partial commit".

Record batchCursor := mkCursor {
  records : list (list byte); record : nat; offset : nat; active : bool
}.

#[export] Instance batchCursor_fields : Fields batchCursor := λ r,
  mkCursor (records r) (record r) (offset r) (active r).

Definition empty_cursor : batchCursor := mkCursor [] 0 0 false.

(** [c.records[c.record]], only read where [c.record < len(c.records)]. *)
Definition current (c : batchCursor) : list byte := nth (record c) (records c) [].

Definition next_record (c : batchCursor) : batchCursor :=
  c <| record ::= S |> <| offset := 0%nat |>.

(** [for c.record < len(c.records) && c.offset == len(c.records[c.record])]: [n]
    is the number of records left. *)
Fixpoint skip_done (n : nat) (c : batchCursor) : batchCursor :=
  match n with
  | O => c
  | S n => if (offset c =? length (current c))%nat then skip_done n (next_record c) else c
  end.

Definition records_left (c : batchCursor) : nat := length (records c) - record c.

(** [for written > 0 && c.record < len(c.records)]: the rest of [written] and
    the cursor; the flag is the early [return nil]. *)
Fixpoint consume (n : nat) (written : Z) (c : batchCursor) : Z * batchCursor * bool :=
  match n with
  | O => (written, c, false)
  | S n =>
      if written >? 0 then
        let available := len (current c) - Z.of_nat (offset c) in
        if written <? available then (written, c <| offset ::= λ o, (o + Z.to_nat written)%nat |>, true)
        else consume n (written - available) (next_record c)
      else (written, c, false)
  end.

Definition advance (written : Z) (c : batchCursor) : option error * batchCursor :=
  if written <? 0 then (Some io_ErrShortWrite, c) else
  let c := skip_done (records_left c) c in
  let '(written, c, returned) := consume (records_left c) written c in
  if (returned : bool) then (None, c) else
  let c := skip_done (records_left c) c in
  if negb (written =? 0) then (Some io_ErrShortWrite, c) else (None, c).

Definition begin (rs : list (list byte)) (c : batchCursor) : option error * batchCursor :=
  if active c then
    if negb (length (records c) =? length rs)%nat then (Some ErrBatchChanged, c)
    else if negb (bool_decide (records c = rs)) then (Some ErrBatchChanged, c)
    else advance 0 c
  else advance 0 (c <| records := rs |> <| active := true |>).

Definition remaining (c : batchCursor) : list (list byte) :=
  if (length (records c) <=? record c)%nat then []
  else match drop (record c) (records c) with
       | r :: rs => drop (offset c) r :: rs
       | [] => []
       end.

Definition cursor_done (c : batchCursor) : bool := (record c =? length (records c))%nat.

Definition reset (c : batchCursor) : batchCursor := empty_cursor.

(** ** Sequential writes *)

Definition is_EINTR (e : error) : bool := errors_Is e "interrupted system call".

(** The loop over one record.  [ctx] answers [ctx.Err()] as a function of the
    number of writes issued so far, just before each of which it is asked.
    [None]: more than [fuel] writes (a writer may be interrupted for ever). *)
Fixpoint write_record (fuel : nat) (ctx : nat → option error) (w : writer) (record : list byte)
  (written shortWrites : Z) : option (writer * Z * Z * option error) :=
  match record with
  | [] => Some (w, written, shortWrites, None)
  | _ =>
    match fuel with
    | O => None
    | S fuel =>
      match ctx (w_calls w) with
      | Some e => Some (w, written, shortWrites, Some e)
      | None =>
        let '(w, (count, writeErr)) := Write w record in
        if (count <? 0) || (count >? len record) then
          Some (w, written, shortWrites, Some io_ErrShortWrite)
        else
          let '(written, record, shortWrites) :=
            if count >? 0 then
              let rest := drop (Z.to_nat count) record in
              (written + count, rest, if len rest >? 0 then u64 (shortWrites + 1) else shortWrites)
            else (written, record, shortWrites) in
          match writeErr with
          | Some e => if is_EINTR e then write_record fuel ctx w record written shortWrites
                      else Some (w, written, shortWrites, Some e)
          | None => if count =? 0 then Some (w, written, shortWrites, Some io_ErrNoProgress)
                    else write_record fuel ctx w record written shortWrites
          end
      end
    end
  end.

Fixpoint write_records (fuel : nat) (ctx : nat → option error) (w : writer)
  (records : list (list byte)) (written shortWrites : Z)
  : option (writer * Z * Z * option error) :=
  match records with
  | [] => Some (w, written, shortWrites, None)
  | record :: records =>
      '(w, written, shortWrites, err) ← write_record fuel ctx w record written shortWrites;
      match err with
      | Some e => Some (w, written, shortWrites, Some e)
      | None => write_records fuel ctx w records written shortWrites
      end
  end.

Definition writeSequential (fuel : nat) (ctx : nat → option error) (w : writer)
  (records : list (list byte)) : option (writer * Z * Z * option error) :=
  write_records fuel ctx w records 0 0.

(** ** The writer sink *)

Record WriterSink := mkWriterSink {
  ws_writer : writer; closeUnderlying : bool; ws_pending : batchCursor; ws_counters : Stats;
  ws_closed_once : bool; ws_closeErr : option error
}.

#[export] Instance WriterSink_fields : Fields WriterSink := λ r,
  mkWriterSink (ws_writer r) (closeUnderlying r) (ws_pending r) (ws_counters r)
    (ws_closed_once r) (ws_closeErr r).

(** [io.Discard] *)
Definition Discard : writer := mkWriter [] 0 sink_all.

Definition NewWriter (w : option writer) : WriterSink :=
  mkWriterSink (default Discard w) false empty_cursor zero_stats false None.

Definition NewOwnedWriter (w : option writer) : WriterSink :=
  (NewWriter w) <| closeUnderlying := true |>.

Definition ws_error (s : WriterSink) : WriterSink := s <| ws_counters ::= update_with Errors (add_u64 1) |>.

(** [elapsed] is [time.Since(started)]. *)
Definition WriteBatch (fuel : nat) (ctx : nat → option error) (elapsed : Z)
  (rs : list (list byte)) (s : WriterSink) : option (WriterSink * option error) :=
  if Closed (ws_counters s) then Some (s, Some (ErrNew "sink is closed")) else
  match begin rs (ws_pending s) with
  | (Some e, p) => Some (ws_error (s <| ws_pending := p |>), Some e)
  | (None, p) =>
      let s := s <| ws_pending := p |> in
      '(w, written, shorts, err) ← writeSequential fuel ctx (ws_writer s) (remaining p);
      let s := s <| ws_writer := w |>
        <| ws_counters ::= λ c, c <| Bytes ::= add_u64 (u64 written) |>
                                  <| ShortWrites ::= add_u64 shorts |>
                                  <| LastWriteNanos := u64 elapsed |> |> in
      match advance written p with
      | (Some e, p) => Some (ws_error (s <| ws_pending := p |>), Some e)
      | (None, p) =>
          let s := s <| ws_pending := p |> in
          match err with
          | Some e => Some (ws_error s, Some e)
          | None =>
              if negb (cursor_done p) then Some (ws_error s, Some io_ErrShortWrite)
              else Some (s <| ws_counters ::= λ c, c <| Batches ::= add_u64 1 |>
                               <| st_Records ::= add_u64 (len rs) |> |>
                           <| ws_pending ::= reset |>, None)
          end
      end
  end.

(** [flush] is the result of the writer's own [Flush], when it has one. *)
Definition Flush (ctx_err : option error) (flush : option (option error)) (s : WriterSink)
  : WriterSink * option error :=
  match ctx_err with
  | Some e => (s, Some e)
  | None =>
      match default None flush with
      | Some e => (ws_error s, Some e)
      | None => (s <| ws_counters ::= update_with Flushes (add_u64 1) |>, None)
      end
  end.

(** [close] is the result of the writer's own [Close], when it has one. *)
Definition Close (close : option (option error)) (s : WriterSink) : WriterSink * option error :=
  if ws_closed_once s then (s, ws_closeErr s) else
  let s := s <| ws_closed_once := true |> <| ws_counters ::= λ c, c <| Closed := true |> |> in
  let s :=
    match close with
    | Some err =>
        if closeUnderlying s then
          let s := s <| ws_closeErr := err |> in
          match err with Some _ => ws_error s | None => s end
        else s
    | None => s
    end in
  (s, ws_closeErr s).

Definition WriterSink_Stats (s : WriterSink) : Stats := ws_counters s.
Definition WriterSink_Capabilities : Capabilities := mkCapabilities "sequential" true false false.

(** ** The network adapter *)

Section Network.
Context {T : Type} (transport_Send : list (list byte) → T → T * option error)
  (transport_Close : T → T * option error).

Definition NetworkAdapter_WriteBatch (rs : list (list byte)) (t : option T)
  : option T * option error :=
  match t with
  | None => (None, Some (ErrNew "network transport is nil"))
  | Some t => let '(t, e) := transport_Send rs t in (Some t, e)
  end.

Definition NetworkAdapter_Flush (t : option T) : option T * option error := (t, None).

Definition NetworkAdapter_Close (t : option T) : option T * option error :=
  match t with
  | None => (None, None)
  | Some t => let '(t, e) := transport_Close t in (Some t, e)
  end.
End Network.

Definition NetworkAdapter_Capabilities : Capabilities := mkCapabilities "scatter_gather" true false true.

(** ** Facts about the cursor *)

(** The bytes before and after the cursor. *)
Definition committed (c : batchCursor) : list byte :=
  concat (take (record c) (records c)) ++ take (offset c) (current c).
Definition rest (c : batchCursor) : list byte := concat (remaining c).

Record cursor_ok (c : batchCursor) : Prop := mkCursorOk {
  co_record : (record c <= length (records c))%nat;
  co_offset : (offset c <= length (current c))%nat
}.

(** No finished record is under the cursor. *)
Definition settled (c : batchCursor) : Prop :=
  (record c < length (records c))%nat → (offset c < length (current c))%nat.

Lemma current_end c : (length (records c) <= record c)%nat → current c = [].
Proof. intros. by apply nth_overflow. Qed.

Lemma drop_current c :
  (record c < length (records c))%nat →
  drop (record c) (records c) = current c :: drop (S (record c)) (records c).
Proof.
  intros H. destruct (lookup_lt_is_Some_2 (records c) (record c) H) as [r Hr].
  rewrite (drop_S _ r) by done. f_equal. unfold current. by rewrite (nth_lookup_Some _ _ _ _ Hr).
Qed.

Lemma take_current c :
  (record c < length (records c))%nat →
  concat (take (S (record c)) (records c)) = concat (take (record c) (records c)) ++ current c.
Proof.
  intros H. destruct (lookup_lt_is_Some_2 (records c) (record c) H) as [r Hr].
  rewrite (take_S_r _ _ r), concat_app by done. cbn. rewrite app_nil_r.
  unfold current. by rewrite (nth_lookup_Some _ _ _ _ Hr).
Qed.

Lemma rest_cases c :
  rest c = if (length (records c) <=? record c)%nat then []
           else drop (offset c) (current c) ++ concat (drop (S (record c)) (records c)).
Proof.
  unfold rest, remaining. destruct (_ <=? _)%nat eqn:E; [done|]. apply Nat.leb_gt in E.
  by rewrite drop_current.
Qed.

Lemma committed_rest c : cursor_ok c → committed c ++ rest c = concat (records c).
Proof.
  intros [Hr Ho]. rewrite rest_cases. unfold committed. destruct (_ <=? _)%nat eqn:E.
  - apply Nat.leb_le in E. rewrite current_end by done. rewrite take_ge by lia.
    by rewrite take_nil, !app_nil_r.
  - apply Nat.leb_gt in E. rewrite <- app_assoc, (app_assoc (take _ _)), take_drop.
    rewrite <- (take_drop (record c) (records c)) at 3. rewrite concat_app, drop_current by done. done.
Qed.

Lemma committed_length c : cursor_ok c → len (committed c) + len (rest c) = len (concat (records c)).
Proof. intros H. rewrite <- (committed_rest c H), length_app. lia. Qed.

(** Stepping over a finished record changes no byte. *)
Lemma next_record_same c :
  cursor_ok c → (record c < length (records c))%nat → offset c = length (current c) →
  cursor_ok (next_record c) ∧ committed (next_record c) = committed c.
Proof.
  intros Hc Hr Ho. split; [split; cbn; lia|].
  unfold committed. cbn [record offset records next_record]. change (record (next_record c)) with (S (record c)).
  change (records (next_record c)) with (records c). rewrite take_current by done.
  rewrite Ho, firstn_all. apply app_nil_r.
Qed.

Definition same_batch (c c' : batchCursor) : Prop := records c' = records c ∧ active c' = active c.

Lemma skip_done_spec n : ∀ c,
  cursor_ok c → n = records_left c →
  cursor_ok (skip_done n c) ∧ settled (skip_done n c) ∧ same_batch c (skip_done n c) ∧
  committed (skip_done n c) = committed c.
Proof.
  induction n as [|n IH]; intros c Hc Hn; cbn [skip_done].
  - unfold records_left in Hn. pose proof (co_record c Hc).
    split_and!; [done| |done|done]. intros ?. lia.
  - unfold records_left in Hn. destruct (_ =? _)%nat eqn:E.
    + apply Nat.eqb_eq in E. destruct (next_record_same c Hc ltac:(lia) E) as [Hc' Hm].
      destruct (IH (next_record c) Hc') as (H1 & H2 & H3 & H4); [unfold records_left; cbn; lia|].
      split_and!; [done|done|exact H3|congruence].
    + apply Nat.eqb_neq in E. pose proof (co_offset c Hc). split_and!; [done| |done|done].
      intros ?. lia.
Qed.

Lemma settled_done c : cursor_ok c → settled c → cursor_done c = true ↔ rest c = [].
Proof.
  intros [Hr Ho] Hs. rewrite rest_cases. unfold cursor_done. rewrite Nat.eqb_eq.
  destruct (_ <=? _)%nat eqn:E; [apply Nat.leb_le in E; split; [done|lia]|].
  apply Nat.leb_gt in E. specialize (Hs E). split; [lia|].
  intros [Hd _]%app_eq_nil. apply (f_equal length) in Hd. rewrite length_drop in Hd. cbn in Hd. lia.
Qed.

(** Moving the offset inside the current record. *)
Lemma committed_move c (f : nat → nat) :
  (offset c <= f (offset c) <= length (current c))%nat →
  len (committed (c <| offset ::= f |>)) =
  len (committed c) + (Z.of_nat (f (offset c)) - Z.of_nat (offset c)).
Proof.
  destruct c as [rs r o a]. unfold committed, current. cbn. intros.
  rewrite !length_app, !length_take. lia.
Qed.

(** Consuming [written] bytes of the rest moves the cursor by as many bytes. *)
Lemma consume_spec n : ∀ written c w' c' returned,
  cursor_ok c → n = records_left c → 0 <= written <= len (rest c) →
  consume n written c = (w', c', returned) →
  cursor_ok c' ∧ same_batch c c' ∧ len (committed c') = len (committed c) + written ∧
  (if (returned : bool) then settled c' else w' = 0).
Proof.
  induction n as [|n IH]; intros written c w' c' returned Hc Hn Hw; cbn [consume].
  - intros [= <- <- <-]. rewrite rest_cases in Hw. unfold records_left in Hn.
    rewrite (proj2 (Nat.leb_le _ _)) in Hw by lia. change (len []) with 0 in Hw.
    split_and!; try done; lia.
  - unfold records_left in Hn. assert (Hlt : (record c < length (records c))%nat) by lia.
    pose proof (co_offset c Hc) as Ho.
    destruct (_ >? _) eqn:E1; zbool; [|intros [= <- <- <-]; split_and!; try done; lia].
    destruct (_ <? _) eqn:E2; zbool.
    + intros [= <- <- <-]. split_and!; [|done| |].
      * split; cbn; [lia|]. unfold current in *. cbn. lia.
      * etransitivity; [apply (committed_move c (λ o, (o + Z.to_nat written)%nat)); lia|lia].
      * intros _. unfold current in *. cbn. lia.
    + set (c1 := c <| offset := length (current c) |>).
      assert (Hc1 : cursor_ok c1) by (split; cbn; [lia|done]).
      destruct (next_record_same c1 Hc1 Hlt eq_refl) as [Hok Hm].
      assert (Hm1 : len (committed c1) = len (committed c) + (len (current c) - Z.of_nat (offset c))).
      { apply (committed_move c (λ _, length (current c))). lia. }
      pose proof (committed_length c Hc). pose proof (committed_length _ Hok) as Hl2.
      change (next_record c1) with (next_record c) in *.
      change (records (next_record c)) with (records c) in Hl2. rewrite Hm in Hl2.
      intros Hcons%IH; [|done|unfold records_left; cbn; lia|lia].
      destruct Hcons as (? & [? ?] & Hlen & ?). split_and!; try done. rewrite Hlen, Hm. lia.
Qed.

(** [advance] within the batch: the cursor moves by exactly [written] bytes and
    rests on an unfinished record. *)
Lemma advance_spec written c :
  cursor_ok c → 0 <= written <= len (rest c) →
  ∃ c', advance written c = (None, c') ∧ cursor_ok c' ∧ settled c' ∧ same_batch c c' ∧
    len (committed c') = len (committed c) + written.
Proof.
  intros Hc Hw. unfold advance. ztest.
  destruct (skip_done_spec _ c Hc eq_refl) as (H1 & H2 & [H3 H3'] & H4).
  set (c1 := skip_done (records_left c) c) in *.
  assert (Hr1 : len (rest c1) = len (rest c)).
  { pose proof (committed_length c Hc). pose proof (committed_length c1 H1) as Hl.
    rewrite H3, H4 in Hl. lia. }
  destruct (consume (records_left c1) written c1) as [[w' c2] returned] eqn:E.
  apply consume_spec in E as (K1 & [K2 K2'] & K3 & K4); [|done|done|lia].
  destruct returned.
  - exists c2. split_and!; try done; [split; congruence|]. by rewrite K3, H4.
  - subst w'. cbn [Z.eqb negb]. destruct (skip_done_spec _ c2 K1 eq_refl) as (L1 & L2 & [L3 L3'] & L4).
    exists (skip_done (records_left c2) c2). split_and!; try done; [split; congruence|].
    by rewrite L4, K3, H4.
Qed.

Lemma skip_done_settled c : settled c → skip_done (records_left c) c = c.
Proof.
  intros Hs. unfold records_left. destruct (length (records c) - record c)%nat eqn:E; [done|].
  cbn [skip_done]. specialize (Hs ltac:(lia)). rewrite (proj2 (Nat.eqb_neq _ _)) by lia. done.
Qed.

Lemma advance_zero c : settled c → advance 0 c = (None, c).
Proof.
  intros Hs. assert (Hc : ∀ n, consume n 0 c = (0, c, false)) by (by intros []).
  unfold advance. ztest. rewrite skip_done_settled, Hc, skip_done_settled by done. done.
Qed.

(** The bytes before the cursor are determined by how many they are. *)
Lemma committed_take c : cursor_ok c → committed c = take (length (committed c)) (concat (records c)).
Proof. intros H. rewrite <- (committed_rest c H). symmetry. apply take_app_length. Qed.

(** ** Facts about sequential writes *)

Lemma write_record_delivers ctx : ∀ fuel w record written shorts w' written' shorts' err,
  writer_ok w → write_record fuel ctx w record written shorts = Some (w', written', shorts', err) →
  delivered w w' record (written' - written) err.
Proof.
  induction fuel as [|fuel IH]; intros w [|x record] written shorts w' written' shorts' err Hw;
    cbn [write_record]; try done;
    try (by intros [= <- <- <- <-]; unfold delivered; rewrite Z.sub_diag, app_nil_r).
  destruct (ctx (w_calls w)) as [e|]; [by intros [= <- <- <- <-]; unfold delivered;
    rewrite Z.sub_diag, app_nil_r; split_and!; try done; cbn; lia|].
  specialize (Hw (w_calls w) (x :: record)) as Hn. unfold Write.
  destruct (w_resp w (w_calls w) (x :: record)) as [n werr]. cbn [fst] in *.
  ztest. cbn [orb]. set (w1 := mkWriter _ _ _).
  assert (Hd : ∀ e, delivered w w1 (x :: record) n (Some e)) by done.
  destruct (0 <? n) eqn:En; zbool.
  - assert (Hstep : ∀ sh, write_record fuel ctx w1 (drop (Z.to_nat n) (x :: record)) (written + n) sh =
      Some (w', written', shorts', err) → delivered w w' (x :: record) (written' - written) err).
    { intros sh Hl%IH; [|done]. replace (written' - written) with (n + (written' - (written + n))) by lia.
      by apply delivered_take with (w1 := w1). }
    destruct werr as [e|]; [destruct (is_EINTR e); [apply Hstep|]|].
    + intros [= <- <- <- <-]. rewrite Z.add_simpl_l. done.
    + destruct (n =? 0) eqn:E0; zbool; [lia|apply Hstep].
  - assert (n = 0) as -> by lia.
    assert (Hsame : w_out w1 = w_out w) by apply app_nil_r.
    destruct werr as [e|]; [destruct (is_EINTR e)|].
    + intros Hl%IH; [|done]. destruct Hl as (? & Ho & Hr & ?). unfold delivered.
      rewrite Ho, Hr, Hsame. done.
    + intros [= <- <- <- <-]. rewrite Z.sub_diag. apply Hd.
    + intros [= <- <- <- <-]. rewrite Z.sub_diag. apply Hd.
Qed.

Lemma write_records_delivers fuel ctx rs : ∀ w written shorts w' written' shorts' err,
  writer_ok w → write_records fuel ctx w rs written shorts = Some (w', written', shorts', err) →
  delivered w w' (concat rs) (written' - written) err.
Proof.
  induction rs as [|r rs IH]; intros w written shorts w' written' shorts' err Hw; cbn [write_records].
  - intros [= <- <- <- <-]. unfold delivered. by rewrite Z.sub_diag, app_nil_r.
  - destruct (write_record fuel ctx w r written shorts) as [[[[w1 wr1] sh1] e1]|] eqn:E; [|done].
    apply write_record_delivers in E; [|done]. cbn [mbind option_bind].
    replace (written' - written) with ((wr1 - written) + (written' - wr1)) by lia.
    destruct e1 as [e|].
    + intros [= <- <- <- <-]. rewrite Z.sub_diag, Z.add_0_r. by apply delivered_weaken.
    + intros Hb%IH; [by eapply delivered_app|].
      intros i b'. destruct E as (_ & _ & -> & _). apply Hw.
Qed.

Definition eintr_until (N : nat) (w : writer) : Prop :=
  ∀ i b e, (N <= i)%nat → (w_resp w i b).2 = Some e → is_EINTR e = false.

Lemma write_record_total ctx N : ∀ fuel w record written shorts,
  eintr_until N w → (N - w_calls w + length record <= fuel)%nat →
  ∃ w' written' shorts' err, write_record fuel ctx w record written shorts = Some (w', written', shorts', err) ∧
    w_resp w' = w_resp w.
Proof.
  induction fuel as [|fuel IH]; intros w [|x record] written shorts HN Hf; cbn [write_record];
    try (by eexists _, _, _, _); [cbn in Hf; lia|].
  destruct (ctx (w_calls w)) as [e|]; [by eexists _, _, _, _|].
  specialize (HN (w_calls w) (x :: record)) as Hi. unfold Write.
  destruct (w_resp w (w_calls w) (x :: record)) as [n werr]. cbn [fst snd] in *.
  destruct (_ || _) eqn:Er; [by eexists _, _, _, _|]. zbool.
  set (w1 := mkWriter _ _ _). assert (HN1 : eintr_until N w1) by done.
  cbn [length] in Hf.
  destruct (n >? 0) eqn:En; zbool.
  - assert (Hlen : (N - w_calls w1 + length (drop (Z.to_nat n) (x :: record)) <= fuel)%nat)
      by (rewrite length_drop; cbn [w_calls w1 length]; lia).
    destruct werr as [e|]; [destruct (is_EINTR e); [by apply (IH w1)|by eexists _, _, _, _]|].
    destruct (n =? 0); [by eexists _, _, _, _|by apply (IH w1)].
  - destruct werr as [e|].
    + destruct (is_EINTR e) eqn:Ee; [|by eexists _, _, _, _].
      destruct (decide (N <= w_calls w)%nat) as [Hle|Hgt].
      * rewrite (Hi e Hle eq_refl) in Ee. done.
      * apply (IH w1); [done|]. cbn [w_calls w1 length]. lia.
    + destruct (n =? 0) eqn:E0; zbool; [by eexists _, _, _, _|lia].
Qed.

Lemma write_records_total ctx N fuel rs : ∀ w written shorts,
  eintr_until N w → (N + length (concat rs) <= fuel)%nat →
  is_Some (write_records fuel ctx w rs written shorts).
Proof.
  induction rs as [|r rs IH]; intros w written shorts HN Hf; cbn [write_records]; [done|].
  cbn [concat] in Hf. rewrite length_app in Hf.
  destruct (write_record_total ctx N fuel w r written shorts HN) as (w' & wr & sh & err & -> & Hr); [lia|].
  cbn [mbind option_bind]. destruct err; [done|]. apply IH; [|lia].
  intros i b e. rewrite Hr. apply HN.
Qed.

(** ** One logical batch on the writer sink *)

(** [out] is what a sink has put out, [base] what it had before the batch: the
    cursor is idle, or in the middle of [rs]. *)
Definition in_batch (base : list byte) (rs : list (list byte)) (p : batchCursor) (out : list byte) : Prop :=
  p = empty_cursor ∧ out = base ∨
  active p = true ∧ records p = rs ∧ cursor_ok p ∧ out = base ++ committed p.

Lemma begin_in_batch base rs p out :
  in_batch base rs p out →
  ∃ p', begin rs p = (None, p') ∧ active p' = true ∧ records p' = rs ∧
    cursor_ok p' ∧ settled p' ∧ out = base ++ committed p'.
Proof.
  intros [[-> ->]|(Ha & Hr & Hok & ->)]; unfold begin.
  - cbn [active empty_cursor].
    destruct (advance_spec 0 (empty_cursor <| records := rs |> <| active := true |>))
      as (p & -> & Hok & Hs & [Hr Ha] & Hm); [split; cbn; lia|lia|].
    exists p. split_and!; try done.
    change (committed (_ <| active := true |>)) with (@nil byte) in Hm.
    rewrite (nil_length_inv (committed p)) by (cbn in Hm; lia). by rewrite app_nil_r.
  - rewrite Ha, Hr, Nat.eqb_refl, bool_decide_eq_true_2 by done. cbn [negb].
    destruct (advance_spec 0 p Hok) as (p' & -> & Hok' & Hs & [Hr' Ha'] & Hm); [lia|].
    exists p'. split_and!; try done; [congruence..|]. f_equal.
    rewrite (committed_take p' Hok'), (committed_take _ Hok), Hr'. f_equal. lia.
Qed.

(** Putting out [n] more bytes of the batch and advancing by [n]. *)
Lemma advance_in_batch base rs p out n :
  active p = true → records p = rs → cursor_ok p → out = base ++ committed p →
  0 <= n <= len (rest p) →
  ∃ p', advance n p = (None, p') ∧ active p' = true ∧ records p' = rs ∧ cursor_ok p' ∧ settled p' ∧
    out ++ take (Z.to_nat n) (rest p) = base ++ committed p' ∧
    len (committed p') = len (committed p) + n.
Proof.
  intros Ha Hr Hok -> Hn. destruct (advance_spec n p Hok Hn) as (p' & Hadv & Hok' & Hs' & [Hr' Ha'] & Hm).
  exists p'. split_and!; try done; [congruence..|]. rewrite <- app_assoc. f_equal.
  rewrite (committed_take p' Hok'), Hr', <- (committed_rest p Hok).
  rewrite take_app_ge by lia. do 2 f_equal. lia.
Qed.

(** [base] was written before the batch; the sink is idle or in its middle. *)
Definition progress (base : list byte) (rs : list (list byte)) (s : WriterSink) : Prop :=
  writer_ok (ws_writer s) ∧ Closed (ws_counters s) = false ∧
  in_batch base rs (ws_pending s) (w_out (ws_writer s)).

Lemma cursor_finished c : cursor_ok c → rest c = [] → committed c = concat (records c).
Proof. intros Hc Hr. rewrite <- (committed_rest c Hc), Hr. by rewrite app_nil_r. Qed.

(** One attempt: success leaves the whole batch behind [base] and an idle sink,
    an error leaves the sink in the middle of it. *)
Lemma WriteBatch_step base rs s fuel ctx elapsed s' err :
  progress base rs s → WriteBatch fuel ctx elapsed rs s = Some (s', err) →
  w_resp (ws_writer s') = w_resp (ws_writer s) ∧
  match err with
  | Some _ => progress base rs s'
  | None => w_out (ws_writer s') = base ++ concat rs ∧ ws_pending s' = empty_cursor ∧
            Closed (ws_counters s') = false
  end.
Proof.
  intros (Hw & Hcl & Hin) HW.
  destruct (begin_in_batch _ _ _ _ Hin) as (p & Hb & Ha & Hr & Hok & Hs & Ho).
  unfold WriteBatch in HW. rewrite Hcl, Hb in HW. cbn in HW. unfold writeSequential in HW.
  destruct (write_records fuel ctx (ws_writer s) (remaining p) 0 0) as [[[[w wr] sh] e]|] eqn:Ew; [|done].
  apply write_records_delivers in Ew; [|done]. fold (rest p) in Ew. rewrite Z.sub_0_r in Ew.
  destruct Ew as (Hn & Hout & Hresp & Hnone). cbn in HW.
  destruct (advance_in_batch base rs p _ wr Ha Hr Hok Ho Hn)
    as (p' & Hadv & Ha' & Hr' & Hok' & Hs' & Ho' & Hm).
  rewrite Hadv in HW. rewrite <- Hout in Ho'. destruct e as [e|].
  - injection HW as <- <-. split; [done|]. split; [|split; [by destruct s, ws_counters0|]].
    + intros i b. cbn. rewrite Hresp. apply Hw.
    + right. by split_and!.
  - specialize (Hnone eq_refl). pose proof (committed_length p Hok) as H1.
    pose proof (committed_length p' Hok') as H2. rewrite Hr' in H2. rewrite Hr in H1.
    assert (Hrest : rest p' = []) by (apply nil_length_inv; lia).
    rewrite (proj2 (settled_done p' Hok' Hs') Hrest) in HW. cbn in HW. injection HW as <- <-.
    split; [done|]. cbn. split; [|done]. by rewrite Ho', (cursor_finished p'), Hr' by done.
Qed.

(** The caller's retries: attempts until one succeeds. *)
Fixpoint retries (attempts : list (nat * (nat → option error) * Z)) (rs : list (list byte))
  (s : WriterSink) : option (WriterSink * option error) :=
  match attempts with
  | [] => Some (s, Some io_ErrShortWrite)
  | (fuel, ctx, elapsed) :: attempts =>
      '(s, err) ← WriteBatch fuel ctx elapsed rs s;
      match err with Some _ => retries attempts rs s | None => Some (s, None) end
  end.

Lemma WriteBatch_total base rs s fuel ctx elapsed N :
  progress base rs s → eintr_until N (ws_writer s) → (N + length (concat rs) <= fuel)%nat →
  is_Some (WriteBatch fuel ctx elapsed rs s).
Proof.
  intros (Hw & Hcl & Hin) HN Hf.
  destruct (begin_in_batch _ _ _ _ Hin) as (p & Hb & Ha & Hr & Hok & Hs & Ho). unfold WriteBatch, writeSequential. rewrite Hcl, Hb. cbn.
  pose proof (committed_length p Hok) as Hlen. rewrite Hr in Hlen.
  destruct (write_records_total ctx N fuel (remaining p) (ws_writer s) 0 0 HN) as [[[[w wr] sh] e] ->].
  { fold (rest p). lia. }
  cbn. destruct (advance wr p) as [[?|] p']; [done|]. destruct e; [done|].
  by destruct (negb _).
Qed.

Lemma retries_progress attempts base rs N : ∀ s,
  progress base rs s → eintr_until N (ws_writer s) →
  Forall (λ a, (N + length (concat rs) <= a.1.1)%nat) attempts →
  ∃ s' err, retries attempts rs s = Some (s', err) ∧
    match err with
    | Some _ => progress base rs s'
    | None => w_out (ws_writer s') = base ++ concat rs ∧ ws_pending s' = empty_cursor ∧
              Closed (ws_counters s') = false
    end.
Proof.
  induction attempts as [|[[fuel ctx] el] attempts IH]; intros s Hp HN Hall; cbn [retries].
  - by exists s, (Some io_ErrShortWrite).
  - apply Forall_cons in Hall as [Hf Hall]. cbn in Hf.
    destruct (WriteBatch_total base rs s fuel ctx el N Hp HN Hf) as [[s1 e1] HW]. rewrite HW.
    cbn [mbind option_bind]. apply (WriteBatch_step base) in HW as [Hr Hst]; [|done].
    destruct e1 as [e|]; [|by exists s1, None].
    apply IH; [done| |done]. intros i b e'. rewrite Hr. apply HN.
Qed.

(** Exactly once on a partially writing sink.  A caller that repeats
    [WriteBatch] with the same records, over a writer that obeys [io.Writer] and is
    not interrupted for ever, gets an answer every time; the writer has received
    a prefix of the batch, each byte once and in order, and after a nil return
    the whole batch, whatever errors, short writes and cancelled contexts came
    before; while the batch is unfinished another one is refused unwritten. *)
Theorem WriteBatch_exactly_once attempts rs s N :
  writer_ok (ws_writer s) → Closed (ws_counters s) = false → ws_pending s = empty_cursor →
  eintr_until N (ws_writer s) → Forall (λ a, (N + length (concat rs) <= a.1.1)%nat) attempts →
  ∃ s' err n, retries attempts rs s = Some (s', err) ∧
    w_out (ws_writer s') = w_out (ws_writer s) ++ take n (concat rs) ∧
    (err = None → w_out (ws_writer s') = w_out (ws_writer s) ++ concat rs ∧
                  ws_pending s' = empty_cursor) ∧
    (∀ fuel ctx elapsed other, active (ws_pending s') = true → other ≠ rs →
       ∃ s'', WriteBatch fuel ctx elapsed other s' = Some (s'', Some ErrBatchChanged) ∧
              ws_writer s'' = ws_writer s' ∧ ws_pending s'' = ws_pending s').
Proof.
  intros Hw Hcl Hp HN Hall.
  assert (Hpr : progress (w_out (ws_writer s)) rs s) by (split; [done|split; [done|by left]]).
  destruct (retries_progress attempts _ rs N s Hpr HN Hall) as (s' & err & -> & Hst).
  destruct err as [e|].
  - destruct Hst as (Hw' & Hcl' & Hst). exists s', (Some e).
    destruct Hst as [[Hp' Ho]|(Ha & Hr & Hok & Ho)].
    + exists 0%nat. rewrite Ho, app_nil_r, Hp'. split_and!; done.
    + exists (length (committed (ws_pending s'))). rewrite Ho, (committed_take _ Hok) at 1. rewrite Hr.
      split_and!; [done..|]. intros fuel ctx el other _ Hne. unfold WriteBatch, begin.
      rewrite Hcl', Ha, Hr. destruct (negb _) eqn:E1; [by eexists|].
      rewrite bool_decide_eq_false_2 by congruence. by eexists.
  - destruct Hst as (Ho & Hp' & _). exists s', None, (length (concat rs)).
    rewrite firstn_all, Hp'. by split_and!.
Qed.

(** Two bytes, an interruption, a broken pipe; then everything. *)
Definition stuttering : writer :=
  mkWriter [] 0 (λ i b, match i with
    | 0%nat => (Z.min 2 (len b), None)
    | 1%nat => (0, Some (ErrNew "interrupted system call"))
    | 2%nat => (0, Some (ErrNew "broken pipe"))
    | _ => (len b, None) end).

Lemma WriteBatch_exactly_once_witness :
  let rs := [[x61; x62; x63]; []; [x64]] in
  ∃ s', retries [(6%nat, λ _, None, 1); (6%nat, λ _, None, 1)] rs (NewWriter (Some stuttering)) = Some (s', None) ∧
    w_out (ws_writer s') = [x61; x62; x63; x64].
Proof.
  intros rs. destruct (WriteBatch_exactly_once [(6%nat, λ _, None, 1); (6%nat, λ _, None, 1)] rs
    (NewWriter (Some stuttering)) 2) as (s' & err & n & HR & _ & Hn & _).
  - intros i b. cbn. destruct i as [|[|[|i]]]; cbn; lia.
  - reflexivity.
  - reflexivity.
  - intros i b e Hi. cbn. destruct i as [|[|[|i]]]; cbn; intros [= <-]; try lia. reflexivity.
  - repeat constructor.
  - assert (err = None) as -> by (vm_compute in HR; congruence).
    exists s'. split; [exact HR|]. exact (proj1 (Hn eq_refl)).
Defined.
