(* ===== verification/FileSink.v ===== *)
(** * The file sink (internal/sink/file.go, writev_unix.go, writev_other.go)

    Vectored writes, rotation by size, syncing and closing.  The operating system
    is a [disk]: the file at the configured path answers writes like a [writer],
    every other call (sync, close, rename, open, stat) takes its result from a
    list, and renamed files stay where they are. *)

From stdpp Require Import gmap strings list fin_maps.
From Stdlib Require Import ZArith Lia.
From Stdlib.Strings Require Import Byte.
From S2P Require Import Prelude GoLib Sink.

Definition maxIOVectors : nat := 1024.
Definition fileBatchMode : string := "writev".

(** ** Writing a chunk to the open file *)

(** [for len(remaining) > 0 && len(remaining[0]) == 0] *)
Fixpoint drop_empty (rs : list (list byte)) : list (list byte) :=
  match rs with [] :: rs => drop_empty rs | _ => rs end.

Definition iovecs (remaining : list (list byte)) : list (list byte) :=
  filter (λ r, r ≠ []) (take maxIOVectors remaining).
#[global] Arguments iovecs : simpl never.

(** The [writev] system call: a count, or an error and nothing written. *)
Definition writev (w : writer) (bufs : list (list byte)) : writer * Z * option error :=
  let '(w', (n, errno)) := Write w (concat bufs) in
  match errno with
  | Some e => (mkWriter (w_out w) (w_calls w') (w_resp w), 0, Some e)
  | None => (w', n, None)
  end.

Fixpoint advanceRecords (rs : list (list byte)) (written : Z) : list (list byte) :=
  match rs with
  | [] => []
  | r :: rest =>
      if written >=? len r then advanceRecords rest (written - len r)
      else if written >? 0 then drop (Z.to_nat written) r :: rest else rs
  end.

Fixpoint write_file_loop (fuel : nat) (ctx : nat → option error) (w : writer)
  (remaining : list (list byte)) (written shortWrites : Z)
  : option (writer * Z * Z * option error) :=
  match drop_empty remaining with
  | [] => Some (w, written, shortWrites, None)
  | remaining =>
    match fuel with
    | O => None
    | S fuel =>
      match ctx (w_calls w) with
      | Some e => Some (w, written, shortWrites, Some e)
      | None =>
        let bufs := iovecs remaining in
        let requested := len (concat bufs) in
        match writev w bufs with
        | (w, _, Some errno) =>
            if is_EINTR errno then write_file_loop fuel ctx w remaining written shortWrites
            else Some (w, written, shortWrites, Some errno)
        | (w, count, None) =>
            if count =? 0 then Some (w, written, shortWrites, Some io_ErrNoProgress)
            else
              let shortWrites := if count <? requested then u64 (shortWrites + 1) else shortWrites in
              write_file_loop fuel ctx w (advanceRecords remaining count) (written + count) shortWrites
        end
      end
    end
  end.

Definition writeFileBatch (fuel : nat) (ctx : nat → option error) (w : writer)
  (rs : list (list byte)) : option (writer * Z * Z * option error) :=
  write_file_loop fuel ctx w rs 0 0.

(** The contract of [FileSink.writeFn], and its two implementations. *)
Class WriteFn := write_fn :
  nat → (nat → option error) → writer → list (list byte) → option (writer * Z * Z * option error).

Class WriteFnLaws `{WriteFn} := {
  write_fn_delivers fuel ctx w rs w' written shorts err :
    writer_ok w → write_fn fuel ctx w rs = Some (w', written, shorts, err) →
    delivered w w' (concat rs) written err;
  write_fn_total N fuel ctx w rs :
    writer_ok w → eintr_until N w → (N + length (concat rs) <= fuel)%nat →
    is_Some (write_fn fuel ctx w rs)
}.

(** ** The file sink *)

(** [SyncPolicy] is a string; [UnknownPolicy] stands for any other one. *)
Inductive SyncPolicy := SyncUnset | SyncManual | SyncEveryBatch | UnknownPolicy (text : string).

#[export] Instance SyncPolicy_eq_dec : EqDecision SyncPolicy.
Proof. solve_decision. Defined.

Record FileConfig := mkFileConfig {
  Path : string; MaxBytes : Z; fc_SyncPolicy : SyncPolicy; FilePermission : Z; DirPermission : Z
}.

#[export] Instance FileConfig_fields : Fields FileConfig := λ r,
  mkFileConfig (Path r) (MaxBytes r) (fc_SyncPolicy r) (FilePermission r) (DirPermission r).

Record disk := mkDisk {
  d_file : writer; d_rotated : list (list byte); d_faults : list (option error)
}.

#[export] Instance disk_fields : Fields disk := λ r, mkDisk (d_file r) (d_rotated r) (d_faults r).

(** [*os.File]: nil, open, or closed but not nil. *)
Inductive handle := NilFile | OpenFile | ShutFile.

#[export] Instance handle_eq_dec : EqDecision handle.
Proof. solve_decision. Defined.

Record FileSink := mkFileSink {
  fs_config : FileConfig; fs_disk : disk; file : handle; fs_size : Z; sequence : Z;
  fs_pending : batchCursor; fs_counters : Stats; fs_closed_once : bool; fs_closeErr : option error
}.

#[export] Instance FileSink_fields : Fields FileSink := λ r,
  mkFileSink (fs_config r) (fs_disk r) (file r) (fs_size r) (sequence r) (fs_pending r)
    (fs_counters r) (fs_closed_once r) (fs_closeErr r).

Definition os_ErrClosed : error := ErrNew "file already closed".
Definition EBADF : error := ErrNew "bad file descriptor".

(** The next result of an operating system call. *)
Definition os_call (s : FileSink) : option error * FileSink :=
  match d_faults (fs_disk s) with
  | [] => (None, s)
  | e :: faults => (e, s <| fs_disk ::= λ d, d <| d_faults := faults |> |>)
  end.

Definition syncFn (s : FileSink) : option error * FileSink :=
  match file s with OpenFile => os_call s | _ => (Some os_ErrClosed, s) end.

Definition file_Close (s : FileSink) : option error * FileSink :=
  match file s with
  | OpenFile => let '(e, s) := os_call s in (e, s <| file := ShutFile |>)
  | _ => (Some os_ErrClosed, s)
  end.

Definition os_Rename (s : FileSink) : option error * FileSink :=
  match os_call s with
  | (Some e, s) => (Some e, s)
  | (None, s) =>
      (None, s <| fs_disk ::= λ d,
         mkDisk (mkWriter [] (w_calls (d_file d)) (w_resp (d_file d)))
           (d_rotated d ++ [w_out (d_file d)]) (d_faults d) |>)
  end.

Definition open (s : FileSink) : option error * FileSink :=
  match os_call s with
  | (Some e, s) => (Some (ErrWrap "open log file: %w" e), s)
  | (None, s) =>
      match os_call s with
      | (Some e, s) => (Some (ErrWrap "stat log file: %w" e), s)
      | (None, s) => (None, s <| file := OpenFile |> <| fs_size := len (w_out (d_file (fs_disk s))) |>)
      end
  end.

(** The default permissions are 0o640 and 0o750. *)
Definition NewFile (config : FileConfig) (d : disk) : result FileSink :=
  if bool_decide (Path config = "") then Err (ErrNew "file sink path is required") else
  if MaxBytes config <? 0 then Err (ErrNew "file sink max bytes must not be negative") else
  let config := if bool_decide (fc_SyncPolicy config = SyncUnset)
                then config <| fc_SyncPolicy := SyncManual |> else config in
  if negb (bool_decide (fc_SyncPolicy config = SyncManual))
     && negb (bool_decide (fc_SyncPolicy config = SyncEveryBatch))
  then Err (ErrNew "unknown sync policy %q") else
  let config := if FilePermission config =? 0 then config <| FilePermission := 416 |> else config in
  let config := if DirPermission config =? 0 then config <| DirPermission := 488 |> else config in
  let s := mkFileSink config d NilFile 0 0 empty_cursor zero_stats false None in
  match os_call s with
  | (Some e, _) => Err (ErrWrap "create log directory: %w" e)
  | (None, s) =>
      match open s with
      | (Some e, _) => Err e
      | (None, s) => Ok s
      end
  end.

Definition shouldRotate (nextRecord : Z) (s : FileSink) : bool :=
  (MaxBytes (fs_config s) >? 0) && (fs_size s >? 0) && (fs_size s + nextRecord >? MaxBytes (fs_config s)).

Definition rotate (s : FileSink) : option error * FileSink :=
  match syncFn s with
  | (Some e, s) => (Some (ErrWrap "sync before rotation: %w" e), s)
  | (None, s) =>
    match file_Close s with
    | (Some e, s) => (Some (ErrWrap "close before rotation: %w" e), s)
    | (None, s) =>
      let s := s <| sequence ::= inc |> in
      match os_Rename s with
      | (Some e, s) => (Some (ErrWrap "rotate log file: %w" e), s)
      | (None, s) =>
        match open s with
        | (Some e, s) => (Some e, s)
        | (None, s) => (None, s <| fs_counters ::= update_with Rotations (add_u64 1) |>)
        end
      end
    end
  end.

(** The chunk loop: how many of [rest] still fit behind [chunkBytes] bytes. *)
Fixpoint chunk_end (config : FileConfig) (size chunkBytes : Z) (rest : list (list byte)) : nat :=
  match rest with
  | [] => 0
  | r :: rest =>
      if (MaxBytes config >? 0) && (size + chunkBytes >? 0)
         && (size + chunkBytes + len r >? MaxBytes config) then 0
      else S (chunk_end config size (chunkBytes + len r) rest)
  end.

Definition fs_error (s : FileSink) : FileSink := s <| fs_counters ::= update_with Errors (add_u64 1) |>.

(** The answers of [ctx.Err()] in the loop, in the write function (both as
    functions of the number of writes issued) and before syncing. *)
Record contexts := mkContexts {
  at_loop : nat → option error; at_write : nat → option error; at_sync : option error
}.

Section FileSink.
Context `{WriteFn}.

(** [s.writeFn(ctx, s.file, chunk)]; a closed file takes nothing. *)
Definition file_write (fuel : nat) (ctx : nat → option error) (chunk : list (list byte)) (s : FileSink)
  : option (FileSink * Z * Z * option error) :=
  match file s with
  | OpenFile =>
      '(w, written, shorts, err) ← write_fn fuel ctx (d_file (fs_disk s)) chunk;
      Some (s <| fs_disk ::= λ d, d <| d_file := w |> |>, written, shorts, err)
  | _ => Some (s, 0, 0, Some EBADF)
  end.

(** [for !s.pending.done()]; every turn without an error writes a byte, so one
    turn per byte of the batch is enough. *)
Fixpoint batch_loop (turns fuel : nat) (ctx : contexts) (s : FileSink)
  : option (FileSink * option error) :=
  if cursor_done (fs_pending s) then Some (s, None) else
  match turns with
  | O => None
  | S turns =>
    match at_loop ctx (w_calls (d_file (fs_disk s))) with
    | Some e => Some (fs_error s, Some e)
    | None =>
      let rem := remaining (fs_pending s) in
      let first := len (hd [] rem) in
      let '(err, s) := if (offset (fs_pending s) =? 0)%nat && shouldRotate first s
                       then rotate s else (None, s) in
      match err with
      | Some e => Some (fs_error s, Some e)
      | None =>
        let chunk := take (S (chunk_end (fs_config s) (fs_size s) first (tl rem))) rem in
        '(s, written, shorts, err) ← file_write fuel (at_write ctx) chunk s;
        let s := s <| fs_size ::= Z.add written |>
                   <| fs_counters ::= λ c, c <| Bytes ::= add_u64 (u64 written) |>
                                             <| ShortWrites ::= add_u64 shorts |> |> in
        match advance written (fs_pending s) with
        | (Some e, p) => Some (fs_error (s <| fs_pending := p |>), Some e)
        | (None, p) =>
          let s := s <| fs_pending := p |> in
          match err with
          | Some e => Some (fs_error s, Some (ErrWrap "write log batch: %w" e))
          | None => batch_loop turns fuel ctx s
          end
        end
      end
    end
  end.

Definition FileSink_WriteBatch (fuel : nat) (ctx : contexts) (elapsed : Z) (rs : list (list byte))
  (s : FileSink) : option (FileSink * option error) :=
  if bool_decide (file s = NilFile) || Closed (fs_counters s) then
    Some (s, Some (ErrNew "file sink is closed")) else
  match begin rs (fs_pending s) with
  | (Some e, p) => Some (fs_error (s <| fs_pending := p |>), Some e)
  | (None, p) =>
      '(s, err) ← batch_loop (length (concat rs)) fuel ctx (s <| fs_pending := p |>);
      match err with
      | Some e => Some (s, Some e)
      | None =>
        let '(err, s) :=
          if bool_decide (fc_SyncPolicy (fs_config s) = SyncEveryBatch) then
            match at_sync ctx with
            | Some e => (Some e, s)
            | None =>
              match syncFn s with
              | (Some e, s) => (Some (ErrWrap "sync log file: %w" e), s)
              | (None, s) => (None, s <| fs_counters ::= update_with Flushes (add_u64 1) |>)
              end
            end
          else (None, s) in
        match err with
        | Some e => Some (fs_error s, Some e)
        | None => Some (s <| fs_counters ::= λ c, c <| Batches ::= add_u64 1 |>
                               <| st_Records ::= add_u64 (len rs) |> <| LastWriteNanos := u64 elapsed |> |>
                          <| fs_pending ::= reset |>, None)
        end
      end
  end.

End FileSink.

Definition FileSink_Flush (ctx_err : option error) (s : FileSink) : FileSink * option error :=
  match ctx_err with
  | Some e => (s, Some e)
  | None =>
      if bool_decide (file s = NilFile) then (s, None) else
      match syncFn s with
      | (Some e, s) => (fs_error s, Some (ErrWrap "sync log file: %w" e))
      | (None, s) => (s <| fs_counters ::= update_with Flushes (add_u64 1) |>, None)
      end
  end.

Definition FileSink_Close (s : FileSink) : FileSink * option error :=
  if fs_closed_once s then (s, fs_closeErr s) else
  let s := s <| fs_closed_once := true |> <| fs_counters ::= λ c, c <| Closed := true |> |> in
  if bool_decide (file s = NilFile) then (s, fs_closeErr s) else
  let '(e1, s) := syncFn s in
  let '(e2, s) := file_Close s in
  let err := match e1 with Some e => Some e | None => e2 end in
  let s := s <| fs_closeErr := err |> <| file := NilFile |> in
  (match err with Some _ => fs_error s | None => s end, err).

Definition FileSink_Stats (s : FileSink) : Stats := fs_counters s.
Definition FileSink_Capabilities : Capabilities := mkCapabilities fileBatchMode true true false.

(** ** Both write functions keep the contract *)

#[export] Instance sequential_write : WriteFn := writeSequential.

#[export] Instance sequential_laws : WriteFnLaws (H := sequential_write).
Proof.
  split.
  - intros fuel ctx w rs w' written shorts err Hw Hr.
    apply write_records_delivers in Hr; [|done]. by rewrite Z.sub_0_r in Hr.
  - intros N fuel ctx w rs _ HN Hf. by apply (write_records_total ctx N).
Qed.

Lemma drop_empty_concat rs : concat (drop_empty rs) = concat rs.
Proof. by induction rs as [|[|x r] rs IH]. Qed.

Lemma drop_empty_cases rs :
  drop_empty rs = [] ∨ ∃ x r rest, drop_empty rs = (x :: r) :: rest.
Proof. induction rs as [|[|x r] rs IH]; [by left|by apply IH|right; eauto]. Qed.

Lemma concat_filter_nonempty (rs : list (list byte)) : concat (filter (λ r, r ≠ []) rs) = concat rs.
Proof.
  induction rs as [|r rs IH]; [done|]. rewrite filter_cons. case_decide as E; cbn; [by rewrite IH|].
  by subst r.
Qed.

Lemma concat_iovecs rs : concat rs = concat (iovecs rs) ++ concat (drop maxIOVectors rs).
Proof.
  unfold iovecs. rewrite concat_filter_nonempty, <- concat_app. by rewrite take_drop.
Qed.

Lemma concat_advanceRecords rs : ∀ n,
  0 <= n <= len (concat rs) → concat (advanceRecords rs n) = drop (Z.to_nat n) (concat rs).
Proof.
  induction rs as [|r rs IH]; intros n Hn; cbn [advanceRecords concat] in *; [by rewrite drop_nil|].
  rewrite length_app in Hn. destruct (_ >=? _) eqn:E1; zbool.
  - rewrite IH by lia. rewrite drop_app_ge by lia. f_equal. lia.
  - destruct (_ >? _) eqn:E2; zbool; cbn [concat].
    + by rewrite drop_app_le by lia.
    + assert (n = 0) as -> by lia. done.
Qed.

(** One system call: a prefix of the remaining bytes, or nothing. *)
Lemma writev_spec w rs w' n errno :
  writer_ok w → writev w (iovecs rs) = (w', n, errno) →
  0 <= n <= len (concat (iovecs rs)) ∧ w_resp w' = w_resp w ∧ w_calls w' = S (w_calls w) ∧
  (match errno with
   | Some e => w_out w' = w_out w ∧ (w_resp w (w_calls w) (concat (iovecs rs))).2 = Some e
   | None => w_out w' = w_out w ++ take (Z.to_nat n) (concat rs)
   end).
Proof.
  intros Hw. unfold writev, Write. specialize (Hw (w_calls w) (concat (iovecs rs))).
  destruct (w_resp w _ _) as [m [e|]]; intros [= <- <- <-]; cbn in *; split_and!; try done; try lia.
  f_equal. rewrite (concat_iovecs rs), take_app_le by lia. done.
Qed.

Lemma iovecs_nonempty x r rest : 0 < len (concat (iovecs ((x :: r) :: rest))).
Proof.
  unfold iovecs. change maxIOVectors with (S 1023). cbn [take].
  rewrite filter_cons, decide_True by done. cbn [concat]. rewrite length_app. cbn [length]. lia.
Qed.

Lemma delivered_nothing w w1 w2 data n err :
  w_out w1 = w_out w → w_resp w1 = w_resp w → delivered w1 w2 data n err → delivered w w2 data n err.
Proof. intros Ho Hr (? & Ho2 & Hr2 & ?). unfold delivered. by rewrite Ho2, Hr2, Ho, Hr. Qed.

Lemma delivered_zero w w1 data e :
  w_out w1 = w_out w → w_resp w1 = w_resp w → delivered w w1 data 0 (Some e).
Proof. intros Ho Hr. unfold delivered. rewrite Ho, app_nil_r. split_and!; try done; lia. Qed.

Lemma write_file_loop_delivers ctx : ∀ fuel w rs written shorts w' written' shorts' err,
  writer_ok w → write_file_loop fuel ctx w rs written shorts = Some (w', written', shorts', err) →
  delivered w w' (concat rs) (written' - written) err.
Proof.
  induction fuel as [|fuel IH]; intros w rs written shorts w' written' shorts' err Hw;
    cbn [write_file_loop]; rewrite <- (drop_empty_concat rs);
    destruct (drop_empty_cases rs) as [->|(x & r & rest & ->)]; try done.
  1,2: intros [= <- <- <- <-]; unfold delivered; by rewrite Z.sub_diag, app_nil_r.
  set (rem := (x :: r) :: rest).
  destruct (ctx (w_calls w)) as [e|]; [intros [= <- <- <- <-]; rewrite Z.sub_diag; by apply delivered_zero|].
  destruct (writev w (iovecs rem)) as [[w1 n] errno] eqn:Ev.
  apply writev_spec in Ev as (Hn & Hr & Hc & Ho); [|done].
  assert (Hw1 : writer_ok w1) by (intros i b; rewrite Hr; apply Hw).
  pose proof (concat_iovecs rem) as Hci. apply (f_equal length) in Hci. rewrite length_app in Hci.
  destruct errno as [e|].
  - destruct Ho as [Ho _]. destruct (is_EINTR e).
    + intros Hl%IH; [|done]. by eapply delivered_nothing.
    + intros [= <- <- <- <-]. rewrite Z.sub_diag. by apply delivered_zero.
  - destruct (n =? 0) eqn:E0; zbool.
    + subst n. intros [= <- <- <- <-]. rewrite Z.sub_diag. cbn in Ho. rewrite app_nil_r in Ho.
      by apply delivered_zero.
    + intros Hl%IH; [|done]. rewrite concat_advanceRecords in Hl by lia.
      replace (written' - written) with (n + (written' - (written + n))) by lia.
      apply delivered_take with (w1 := w1); [lia|done..].
Qed.

Lemma write_file_loop_total ctx N : ∀ fuel w rs written shorts,
  writer_ok w → eintr_until N w → (N - w_calls w + length (concat rs) <= fuel)%nat →
  is_Some (write_file_loop fuel ctx w rs written shorts).
Proof.
  induction fuel as [|fuel IH]; intros w rs written shorts Hw HN Hf;
    cbn [write_file_loop]; rewrite <- (drop_empty_concat rs) in Hf;
    destruct (drop_empty_cases rs) as [->|(x & r & rest & Hd)]; rewrite ?Hd in *; try done.
  - cbn in Hf. lia.
  - set (rem := (x :: r) :: rest) in *. destruct (ctx (w_calls w)) as [e|]; [done|].
    destruct (writev w (iovecs rem)) as [[w1 n] errno] eqn:Ev.
    apply writev_spec in Ev as (Hn & Hr & Hc & Ho); [|done].
    assert (Hw1 : writer_ok w1) by (intros i b; rewrite Hr; apply Hw).
    assert (HN1 : eintr_until N w1) by (intros i b e; rewrite Hr; apply HN).
    pose proof (concat_iovecs rem) as Hci. apply (f_equal length) in Hci. rewrite length_app in Hci.
    destruct errno as [e|].
    + destruct Ho as [_ He]. destruct (is_EINTR e) eqn:Ee; [|done].
      destruct (decide (N <= w_calls w)%nat) as [Hle|Hgt].
      * by rewrite (HN _ _ _ Hle He) in Ee.
      * apply IH; [done|done|]. rewrite Hc. lia.
    + destruct (n =? 0) eqn:E0; [done|]. zbool. apply IH; [done|done|].
      rewrite concat_advanceRecords, length_drop, Hc by lia. lia.
Qed.

#[export] Instance vectored_write : WriteFn := writeFileBatch.

#[export] Instance vectored_laws : WriteFnLaws (H := vectored_write).
Proof.
  split.
  - intros fuel ctx w rs w' written shorts err Hw Hr.
    apply write_file_loop_delivers in Hr; [|done]. by rewrite Z.sub_0_r in Hr.
  - intros N fuel ctx w rs Hw HN Hf. apply (write_file_loop_total ctx N); [done..|lia].
Qed.

(** ** What the operating system calls leave alone *)

(** Everything the sink ever wrote: the rotated files, then the current one. *)
Definition log (s : FileSink) : list byte :=
  concat (d_rotated (fs_disk s)) ++ w_out (d_file (fs_disk s)).

Definition content (s : FileSink) : list byte := w_out (d_file (fs_disk s)).

(** The part of the state no call but a rename touches. *)
Definition os_frame (s s' : FileSink) : Prop :=
  d_file (fs_disk s') = d_file (fs_disk s) ∧ d_rotated (fs_disk s') = d_rotated (fs_disk s) ∧
  fs_config s' = fs_config s ∧ fs_pending s' = fs_pending s ∧ fs_counters s' = fs_counters s ∧
  fs_size s' = fs_size s.

Lemma os_call_frame s : os_frame s (os_call s).2 ∧ file (os_call s).2 = file s.
Proof. unfold os_call. by destruct (d_faults (fs_disk s)). Qed.

Lemma syncFn_frame s : os_frame s (syncFn s).2 ∧ file (syncFn s).2 = file s.
Proof. unfold syncFn. destruct (file s) eqn:E; [done| |done]. rewrite <- E. apply os_call_frame. Qed.

Lemma file_Close_frame s :
  os_frame s (file_Close s).2 ∧ (file s ≠ NilFile → file (file_Close s).2 = ShutFile).
Proof.
  unfold file_Close. pose proof (os_call_frame s) as [Hf _].
  destruct (file s) eqn:E; [done| |done]. destruct (os_call s) as [e s1]. done.
Qed.

(** [open] on a shut file: the size is the file's. *)
Lemma open_frame s e s' :
  open s = (e, s') →
  d_file (fs_disk s') = d_file (fs_disk s) ∧ d_rotated (fs_disk s') = d_rotated (fs_disk s) ∧
  fs_config s' = fs_config s ∧ fs_pending s' = fs_pending s ∧ fs_counters s' = fs_counters s ∧
  (e = None → file s' = OpenFile ∧ fs_size s' = len (content s')) ∧
  (e ≠ None → file s' = file s).
Proof.
  unfold open. pose proof (os_call_frame s) as [(H1 & H2 & H3 & H4 & H5 & H6) Hf].
  destruct (os_call s) as [[e1|] s1]; [intros [= <- <-]; by split_and!|].
  pose proof (os_call_frame s1) as [(K1 & K2 & K3 & K4 & K5 & K6) Kf]. cbn [snd] in *.
  destruct (os_call s1) as [[e2|] s2]; intros [= <- <-]; cbn in *; split_and!; try done; congruence.
Qed.

(** Closes the goals of a case that changed nothing it should not. *)
Ltac frame_done :=
  split_and!; try congruence; try (left; split; congruence); intros; split_and!; congruence.

(** What a rotation does: the log is the same, and on success the current file
    was renamed and a new, empty one is open. *)
Lemma rotate_spec s e s' :
  file s ≠ NilFile → rotate s = (e, s') →
  w_resp (d_file (fs_disk s')) = w_resp (d_file (fs_disk s)) ∧ fs_config s' = fs_config s ∧
  fs_pending s' = fs_pending s ∧ Closed (fs_counters s') = Closed (fs_counters s) ∧
  file s' ≠ NilFile ∧ log s' = log s ∧
  (e = None → file s' = OpenFile ∧ content s' = [] ∧ fs_size s' = 0 ∧
     d_rotated (fs_disk s') = d_rotated (fs_disk s) ++ [content s]) ∧
  (d_rotated (fs_disk s') = d_rotated (fs_disk s) ∧ content s' = content s ∨
   d_rotated (fs_disk s') = d_rotated (fs_disk s) ++ [content s] ∧ content s' = []) ∧
  (e ≠ None → file s' = OpenFile → file s = OpenFile ∧ d_file (fs_disk s') = d_file (fs_disk s) ∧
     fs_size s' = fs_size s).
Proof.
  intros Hnil. unfold rotate, log, content.
  pose proof (syncFn_frame s) as [(H1 & H2 & H3 & H4 & H5 & H6) Hf].
  destruct (syncFn s) as [[e1|] s1]; cbn [snd] in *.
  { intros [= <- <-]. frame_done. }
  pose proof (file_Close_frame s1) as [(K1 & K2 & K3 & K4 & K5 & K6) Kf].
  destruct (file_Close s1) as [[e2|] s2]; cbn [snd] in *.
  { intros [= <- <-]. specialize (Kf ltac:(congruence)).
    frame_done. }
  unfold os_Rename. set (s3 := s2 <| sequence ::= inc |>).
  pose proof (os_call_frame s3) as [(L1 & L2 & L3 & L4 & L5 & L6) Lf].
  destruct (os_call s3) as [[e3|] s4]; cbn [snd] in *.
  { intros [= <- <-]. specialize (Kf ltac:(congruence)). cbn in L1, L2, L3, L4, L5, L6, Lf.
    frame_done. }
  set (s5 := s4 <| fs_disk ::= _ |>). destruct (open s5) as [e5 s6] eqn:Eo.
  apply open_frame in Eo as (M1 & M2 & M3 & M4 & M5 & M6 & M7). cbn in M1, M2, M3, M4, M5, M7.
  rewrite L1 in M1. rewrite L1, L2 in M2. rewrite L3 in M3. rewrite L4 in M4. rewrite L5 in M5.
  rewrite Lf in M7. cbn in M1, M2, M3, M4, M5, M7.
  assert (Hrot : d_rotated (fs_disk s6) = d_rotated (fs_disk s) ++ [w_out (d_file (fs_disk s))]) by congruence.
  assert (Hresp : w_resp (d_file (fs_disk s6)) = w_resp (d_file (fs_disk s))) by (rewrite M1; cbn; congruence).
  assert (Hout : w_out (d_file (fs_disk s6)) = []) by (by rewrite M1).
  assert (Hlog : concat (d_rotated (fs_disk s6)) ++ w_out (d_file (fs_disk s6)) =
    concat (d_rotated (fs_disk s)) ++ w_out (d_file (fs_disk s))).
  { rewrite Hrot, Hout, concat_app. cbn. by rewrite !app_nil_r. }
  destruct e5 as [e5|]; intros [= <- <-]; cbn; rewrite Hlog, Hrot, Hout, Hresp.
  - rewrite (M7 ltac:(done)), (Kf ltac:(congruence)).
    split_and!; try done; try congruence. by right.
  - destruct (M6 eq_refl) as [M8 M9]. unfold content in M9. rewrite Hout in M9.
    split_and!; try done; try congruence. by right.
Qed.

(** ** Chunks *)

(** [chunk] is what one call of the write function is given. *)
Definition chunk_of (config : FileConfig) (size : Z) (rem : list (list byte)) : list (list byte) :=
  take (S (chunk_end config size (len (hd [] rem)) (tl rem))) rem.

(** A chunk of more than one record fits the limit. *)
Lemma chunk_end_fits config size rest : ∀ bytes,
  0 < MaxBytes config → 0 < size + bytes → chunk_end config size bytes rest ≠ 0%nat →
  size + bytes + len (concat (take (chunk_end config size bytes rest) rest)) <= MaxBytes config.
Proof.
  induction rest as [|r rest IH]; intros bytes Hm Hpos; cbn [chunk_end]; [done|].
  destruct (_ && _) eqn:E; [done|]. intros _. cbn [take concat]. rewrite length_app.
  assert (Hr : size + bytes + len r <= MaxBytes config) by (zbool; lia).
  destruct (chunk_end config size (bytes + len r) rest) as [|n] eqn:En.
  { rewrite take_0. cbn. lia. }
  pose proof (IH (bytes + len r) Hm ltac:(lia)) as IH'. rewrite En in IH'. specialize (IH' ltac:(done)). lia.
Qed.

Lemma chunk_of_fits config size first rest :
  0 < MaxBytes config → 0 <= size → first ≠ [] →
  chunk_of config size (first :: rest) = [first] ∨
  size + len (concat (chunk_of config size (first :: rest))) <= MaxBytes config.
Proof.
  intros Hm Hs Hf. unfold chunk_of. cbn [hd tl take].
  assert (0 < len first) by (destruct first; [done|cbn; lia]).
  destruct (chunk_end config size (len first) rest) as [|n] eqn:E; [by left|right].
  pose proof (chunk_end_fits config size rest (len first) Hm ltac:(lia)) as H1.
  rewrite E in H1. specialize (H1 ltac:(done)). cbn [concat]. rewrite length_app. lia.
Qed.

Lemma chunk_of_rest config size rem :
  concat rem = concat (chunk_of config size rem) ++ concat (drop (S (chunk_end config size (len (hd [] rem)) (tl rem))) rem).
Proof. unfold chunk_of. rewrite <- concat_app. by rewrite take_drop. Qed.

(** The remaining records of a settled, unfinished cursor. *)
Lemma remaining_cons p :
  cursor_ok p → settled p → cursor_done p = false →
  ∃ first, remaining p = first :: drop (S (record p)) (records p) ∧ first ≠ [] ∧
    first = drop (offset p) (current p) ∧ (record p < length (records p))%nat.
Proof.
  intros [Hr Ho] Hs Hd. unfold cursor_done in Hd. apply Nat.eqb_neq in Hd.
  assert (Hlt : (record p < length (records p))%nat) by lia. specialize (Hs Hlt).
  exists (drop (offset p) (current p)). split_and!; [|..|done|done].
  - unfold remaining. rewrite (proj2 (Nat.leb_gt _ _)) by done. by rewrite drop_current.
  - intros Hn. apply (f_equal length) in Hn. rewrite length_drop in Hn. cbn in Hn. lia.
Qed.

Lemma committed_upto p j :
  cursor_ok p → (record p < length (records p))%nat →
  len (concat (take (record p + S j) (records p))) =
  len (committed p) + len (concat (take (S j) (drop (offset p) (current p) :: drop (S (record p)) (records p)))).
Proof.
  intros Hok Hlt. pose proof (co_offset p Hok).
  replace (record p + S j)%nat with (S (record p) + j)%nat by lia.
  rewrite <- take_take_drop, concat_app, take_current by done. unfold committed.
  cbn [take concat]. rewrite !length_app, length_take, length_drop. lia.
Qed.

Lemma concat_take_mono (rs : list (list byte)) i j :
  (i <= j)%nat → len (concat (take i rs)) <= len (concat (take j rs)).
Proof.
  intros. replace j with (i + (j - i))%nat by lia.
  rewrite <- take_take_drop, concat_app, length_app. lia.
Qed.

(** A cursor in the middle of a record of the chunk: the record ends with it. *)
Lemma advance_in_chunk p p' j n :
  cursor_ok p → (record p < length (records p))%nat → cursor_ok p' → records p' = records p →
  (record p' < length (records p))%nat → len (committed p') = len (committed p) + n →
  (0 < offset p')%nat →
  n <= len (concat (take (S j) (drop (offset p) (current p) :: drop (S (record p)) (records p)))) →
  n + (len (current p') - Z.of_nat (offset p')) <=
  len (concat (take (S j) (drop (offset p) (current p) :: drop (S (record p)) (records p)))).
Proof.
  intros Hok Hlt Hok' Hrs Hlt' Hm Hoff Hn. pose proof (committed_upto p j Hok Hlt) as Hup.
  assert (Hlt2 : (record p' < length (records p'))%nat) by (by rewrite Hrs).
  pose proof (take_current p' Hlt2) as Htc. apply (f_equal length) in Htc. rewrite length_app in Htc.
  pose proof (co_offset p' Hok') as Ho'.
  assert (Hcm : len (committed p') = len (concat (take (record p') (records p'))) + Z.of_nat (offset p')).
  { unfold committed. rewrite length_app, length_take. lia. }
  rewrite Hrs in *. destruct (decide (S (record p') <= record p + S j)%nat) as [Hle|Hgt].
  - pose proof (concat_take_mono (records p) _ _ Hle). lia.
  - pose proof (concat_take_mono (records p) (record p + S j) (record p') ltac:(lia)). lia.
Qed.

(** Fewer bytes than the record has left do not leave it. *)
Lemma same_record p p' n :
  cursor_ok p → cursor_ok p' → settled p' → records p' = records p →
  (record p < length (records p))%nat → (record p' < length (records p))%nat →
  len (committed p') = len (committed p) + n →
  (0 < offset p')%nat → 0 <= n <= len (current p) - Z.of_nat (offset p) →
  record p' = record p ∧ offset p' = (offset p + Z.to_nat n)%nat.
Proof.
  intros Hok Hok' Hs' Hrs Hlt Hlt' Hm Hoff Hn.
  assert (Hc : ∀ q, cursor_ok q → len (committed q) = len (concat (take (record q) (records q))) + Z.of_nat (offset q)).
  { intros q Hq. pose proof (co_offset q Hq). unfold committed. rewrite length_app, length_take. lia. }
  rewrite (Hc p Hok), (Hc p' Hok') in Hm.
  assert (Ht : ∀ q, (record q < length (records q))%nat →
    len (concat (take (S (record q)) (records q))) = len (concat (take (record q) (records q))) + len (current q)).
  { intros q Hq. rewrite (take_current q Hq), length_app. lia. }
  pose proof (Ht p Hlt) as T1. pose proof (Ht p' ltac:(by rewrite Hrs)) as T2.
  specialize (Hs' ltac:(by rewrite Hrs)). rewrite Hrs in *.
  destruct (lt_eq_lt_dec (record p') (record p)) as [[Hlt2|Heq]|Hgt].
  - pose proof (concat_take_mono (records p) (S (record p')) (record p) ltac:(lia)). lia.
  - split; [done|]. rewrite Heq in *. lia.
  - pose proof (concat_take_mono (records p) (S (record p)) (record p') ltac:(lia)). lia.
Qed.

(** ** The invariant of a batch *)

Section Batch.
Context `{WriteFnLaws}.
Context (base : list byte) (rs : list (list byte)) (rot0 : list (list byte)) (f0 : list byte).
Context (config : FileConfig).

(** A file within the limit, or holding (the beginning of) a single record, or
    the one found at the start. *)
Definition small (f : list byte) : Prop :=
  len f <= MaxBytes config ∨ (∃ r k, r ∈ rs ∧ f = take k r) ∨ f = f0.

(** A started record still fits, or has the file for itself. *)
Definition fits (p : batchCursor) (f : list byte) : Prop :=
  (0 < offset p)%nat →
  len f + (len (current p) - Z.of_nat (offset p)) <= MaxBytes config ∨ f = take (offset p) (current p).

Definition bounded (s : FileSink) : Prop :=
  0 < MaxBytes config →
  (∃ new, d_rotated (fs_disk s) = rot0 ++ new ∧ Forall small new) ∧ small (content s) ∧
  fits (fs_pending s) (content s).

Record sink_inv (s : FileSink) : Prop := mkSinkInv {
  si_writer : writer_ok (d_file (fs_disk s));
  si_config : fs_config s = config;
  si_file : file s ≠ NilFile;
  si_closed : Closed (fs_counters s) = false;
  si_size : file s = OpenFile → fs_size s = len (content s);
  si_bounded : bounded s
}.

(** In the middle of the batch, on an unfinished record or at the end. *)
Record mid_batch (s : FileSink) : Prop := mkMid {
  mb_active : active (fs_pending s) = true;
  mb_records : records (fs_pending s) = rs;
  mb_ok : cursor_ok (fs_pending s);
  mb_settled : settled (fs_pending s);
  mb_log : log s = base ++ committed (fs_pending s)
}.

Lemma current_elem p : records p = rs → (record p < length rs)%nat → current p ∈ rs.
Proof.
  intros <- Hlt. destruct (lookup_lt_is_Some_2 _ _ Hlt) as [r Hr].
  unfold current. rewrite (nth_lookup_Some _ _ _ _ Hr). by eapply list_elem_of_lookup_2.
Qed.

(** Appending [n] bytes of a chunk keeps the file within bounds. *)
Lemma append_bounded p p' f f' size first n :
  0 < MaxBytes config → cursor_ok p → records p = rs → (record p < length rs)%nat →
  first = drop (offset p) (current p) → first ≠ [] → size = len f →
  let chunk := chunk_of config size (first :: drop (S (record p)) (records p)) in
  0 <= n <= len (concat chunk) → f' = f ++ take (Z.to_nat n) (concat chunk) →
  (offset p = 0%nat → f = [] ∨ len f + len first <= MaxBytes config) → fits p f →
  cursor_ok p' → settled p' → records p' = rs → len (committed p') = len (committed p) + n →
  small f' ∧ fits p' f'.
Proof.
  intros Hm Hok Hrs Hlt Hfirst Hne Hsz chunk Hn Hf' Hz Hfits Hok' Hs' Hrs' Hlen.
  pose proof (co_offset p Hok) as Hco. assert (Hlf : len f' = len f + n).
  { subst f'. rewrite length_app, length_take. lia. }
  destruct (chunk_of_fits config size first (drop (S (record p)) (records p)) Hm ltac:(lia) Hne) as [Hc|Hc].
  - (* the record alone *)
    fold chunk in Hc. rewrite Hc in Hn, Hf'. cbn [concat] in Hn, Hf'. rewrite app_nil_r in Hn, Hf'.
    assert (Hroom : len f + len first <= MaxBytes config ∨ f = take (offset p) (current p)).
    { destruct (decide (offset p = 0%nat)) as [E|E].
      - destruct (Hz E) as [->|?]; [right; by rewrite E, take_0|by left].
      - destruct (Hfits ltac:(lia)) as [Hl|Hl]; [left|by right].
        subst first. rewrite length_drop. lia. }
    assert (Hin : current p ∈ rs) by (by apply current_elem).
    assert (Hpre : f = take (offset p) (current p) → f' = take (offset p + Z.to_nat n) (current p)).
    { intros ->. rewrite Hf', Hfirst. by rewrite take_take_drop. }
    split.
    + destruct Hroom as [?|Hf]; [left; lia|right; left]. exists (current p), (offset p + Z.to_nat n)%nat.
      split; [done|by apply Hpre].
    + intros Hoff'. assert (Hlt' : (record p' < length rs)%nat).
      { pose proof (co_offset p' Hok'). destruct (decide (record p' < length rs)%nat); [done|].
        rewrite current_end in * by (rewrite Hrs'; lia). cbn in *. lia. }
      pose proof (advance_in_chunk p p' 0 n Hok ltac:(by rewrite Hrs) Hok' ltac:(congruence)
        ltac:(by rewrite Hrs) Hlen Hoff') as Hch.
      cbn [take concat] in Hch. rewrite take_0 in Hch. cbn in Hch. rewrite app_nil_r in Hch.
      rewrite <- Hfirst in Hch. specialize (Hch ltac:(lia)).
      destruct Hroom as [?|Hf]; [left; lia|right].
      destruct (same_record p p' n) as [E1 E2]; try done; try congruence;
        [subst first; rewrite length_drop in Hn; lia|]. rewrite (Hpre Hf), E2. unfold current. by rewrite E1, Hrs, Hrs'.
  - fold chunk in Hc. split; [left; lia|]. intros Hoff'. left.
    assert (Hlt' : (record p' < length rs)%nat).
    { pose proof (co_offset p' Hok'). destruct (decide (record p' < length rs)%nat); [done|].
      rewrite current_end in * by (rewrite Hrs'; lia). cbn in *. lia. }
    pose proof (advance_in_chunk p p'
      (chunk_end config size (len first) (drop (S (record p)) (records p))) n Hok
      ltac:(by rewrite Hrs) Hok' ltac:(congruence) ltac:(by rewrite Hrs) Hlen Hoff') as Hch.
    rewrite <- Hfirst in Hch. unfold chunk, chunk_of in Hn, Hc. cbn [hd tl] in Hn, Hc.
    specialize (Hch ltac:(lia)). lia.
Qed.
(** A state that differs in what no invariant mentions. *)
Lemma sink_inv_ext s s' :
  sink_inv s → d_file (fs_disk s') = d_file (fs_disk s) →
  d_rotated (fs_disk s') = d_rotated (fs_disk s) → fs_config s' = fs_config s →
  fs_pending s' = fs_pending s → Closed (fs_counters s') = Closed (fs_counters s) →
  fs_size s' = fs_size s → file s' = file s → sink_inv s'.
Proof.
  intros [H1 H2 H3 H4 H5 H6] E1 E2 E3 E4 E5 E6 E7.
  split; unfold bounded, content in *; rewrite ?E1, ?E2, ?E3, ?E4, ?E5, ?E6, ?E7; done.
Qed.

Lemma mid_batch_ext s s' :
  mid_batch s → log s' = log s → fs_pending s' = fs_pending s → mid_batch s'.
Proof. intros [H1 H2 H3 H4 H5] E1 E2. split; rewrite ?E1, ?E2; done. Qed.

(** What the sink does with the answer of the write function. *)
Definition after_write (s : FileSink) (written shorts : Z) (p' : batchCursor) : FileSink :=
  s <| fs_size ::= Z.add written |>
    <| fs_counters ::= λ c, c <| Bytes ::= add_u64 (u64 written) |>
                              <| ShortWrites ::= add_u64 shorts |> |>
    <| fs_pending := p' |>.

(** One write: the log grows by the bytes the cursor moves over. *)
Lemma file_write_turn fuel ctx N s :
  sink_inv s → mid_batch s → cursor_done (fs_pending s) = false →
  eintr_until N (d_file (fs_disk s)) → (N + length (concat rs) <= fuel)%nat →
  (0 < MaxBytes config → file s = OpenFile → offset (fs_pending s) = 0%nat →
     content s = [] ∨ len (content s) + len (hd [] (remaining (fs_pending s))) <= MaxBytes config) →
  ∃ s1 n shorts err p',
    file_write fuel ctx (chunk_of config (fs_size s) (remaining (fs_pending s))) s =
      Some (s1, n, shorts, err) ∧
    fs_pending s1 = fs_pending s ∧ advance n (fs_pending s) = (None, p') ∧
    sink_inv (after_write s1 n shorts p') ∧ mid_batch (after_write s1 n shorts p') ∧
    w_resp (d_file (fs_disk s1)) = w_resp (d_file (fs_disk s)) ∧
    (err = None → len (rest p') < len (rest (fs_pending s))).
Proof.
  intros Hinv Hmid Hd HN Hf Hz. pose proof Hinv as [I1 I2 I3 I4 I5 I6].
  pose proof Hmid as [M1 M2 M3 M4 M5]. set (p := fs_pending s) in *.
  destruct (remaining_cons p M3 M4 Hd) as (first & Hrem & Hne & Hfirst & Hlt). rewrite M2 in Hlt.
  set (chunk := chunk_of config (fs_size s) (remaining p)).
  assert (Hrest : rest p = concat chunk ++ concat (drop (S (chunk_end config (fs_size s)
    (len (hd [] (remaining p))) (tl (remaining p)))) (remaining p))) by apply chunk_of_rest.
  pose proof (f_equal length Hrest) as Hrl. rewrite length_app in Hrl.
  assert (Hstep : ∀ n w, 0 <= n <= len (concat chunk) →
    w_out w = content s ++ take (Z.to_nat n) (concat chunk) → w_resp w = w_resp (d_file (fs_disk s)) →
    (n = 0 ∨ file s = OpenFile) →
    ∃ p', advance n p = (None, p') ∧ len (rest p') = len (rest p) - n ∧
      ∀ shorts, sink_inv (after_write (s <| fs_disk ::= λ d, d <| d_file := w |> |>) n shorts p') ∧
        mid_batch (after_write (s <| fs_disk ::= λ d, d <| d_file := w |> |>) n shorts p')).
  { intros n w Hn Hw Hr Hopen.
    destruct (advance_in_batch base rs p (log s) n M1 M2 M3 M5 ltac:(lia))
      as (p' & Hadv & Ha' & Hr' & Hok' & Hs' & Ho' & Hm).
    exists p'. split; [done|]. split.
    { pose proof (committed_length p M3) as L1. pose proof (committed_length p' Hok') as L2.
      rewrite Hr' in L2. rewrite M2 in L1. lia. }
    assert (Hlog : log s ++ take (Z.to_nat n) (rest p) = concat (d_rotated (fs_disk s)) ++ w_out w).
    { unfold log. rewrite <- app_assoc, Hw. f_equal. f_equal. rewrite Hrest. apply take_app_le. lia. }
    intros shorts. split.
    - split; cbn; try done.
      + intros i b. rewrite Hr. apply I1.
      + intros Ho. rewrite (I5 Ho). unfold content. cbn. rewrite Hw. fold (content s).
        rewrite length_app, length_take. lia.
      + intros Hm0. destruct (I6 Hm0) as ((new & Hrot & Hnew) & Hsm & Hft).
        unfold content. cbn. rewrite Hw.
        destruct (decide (file s = OpenFile)) as [Ho|Ho].
        * destruct (append_bounded p p' (content s) (content s ++ take (Z.to_nat n) (concat chunk))
            (fs_size s) first n Hm0 M3 M2 Hlt Hfirst Hne (I5 Ho)) as [Hs1 Hs2]; try done.
          -- rewrite <- Hrem. done.
          -- by rewrite <- Hrem.
          -- intros Hoff. specialize (Hz Hm0 Ho Hoff). by rewrite Hrem in Hz.
          -- split_and!; [by exists new|done|done].
        * destruct Hopen as [->|?]; [|done]. cbn. rewrite app_nil_r.
          rewrite advance_zero in Hadv by done. injection Hadv as <-.
          split_and!; [by exists new|done|done].
    - split; try done. cbn. rewrite <- Ho', Hlog. done. }
  unfold file_write. destruct (file s) eqn:Efile; [done| |].
  - destruct (write_fn_total N fuel ctx (d_file (fs_disk s)) chunk I1 HN) as [[[[w n] shorts] err] Hwf].
    { pose proof (committed_length p M3) as L1. rewrite M2 in L1. lia. }
    rewrite Hwf. cbn [mbind option_bind].
    apply write_fn_delivers in Hwf as (Hn & Ho & Hr & Hnone); [|done].
    destruct (Hstep n w Hn Ho Hr ltac:(by right)) as (p' & Hadv & Hlen & Hs).
    eexists _, n, shorts, err, p'. split_and!; [done|done|done|apply Hs|apply Hs|done|].
    intros ->. specialize (Hnone eq_refl).
    assert (0 < len (concat chunk)); [|lia].
    assert (0 < len first) by (clear -Hne; destruct first; [done|cbn [length]; lia]).
    unfold chunk, chunk_of. rewrite Hrem. cbn [take concat]. rewrite length_app. lia.
  - destruct (Hstep 0 (d_file (fs_disk s)) ltac:(lia)) as (p' & Hadv & Hlen & Hs);
      [by rewrite app_nil_r|done|by left|].
    eexists s, 0, 0, (Some EBADF), p'. split_and!; try done.
    + apply (sink_inv_ext _ _ (proj1 (Hs 0))); done.
    + by apply (mid_batch_ext _ _ (proj2 (Hs 0))).
Qed.
(** Rotating between records keeps the invariant. *)
Lemma rotate_inv s e s' :
  sink_inv s → mid_batch s → offset (fs_pending s) = 0%nat → rotate s = (e, s') →
  sink_inv s' ∧ mid_batch s' ∧ fs_pending s' = fs_pending s ∧
  w_resp (d_file (fs_disk s')) = w_resp (d_file (fs_disk s)) ∧ (e = None → content s' = []).
Proof.
  intros Hinv Hmid Hoff Hrot. pose proof Hinv as [I1 I2 I3 I4 I5 I6].
  apply rotate_spec in Hrot as (R1 & R2 & R3 & R4 & R5 & R6 & R7 & R8 & R9); [|done].
  split_and!; [|by apply (mid_batch_ext s)|done|done|by intros ->; apply R7].
  split; try congruence.
  - intros i b. rewrite R1. apply I1.
  - intros Ho. destruct e as [e|].
    + destruct (R9 ltac:(done) Ho) as (K1 & K2 & K3). rewrite K3. unfold content. rewrite K2. by apply I5.
    + destruct (R7 eq_refl) as (_ & -> & -> & _). done.
  - intros Hm. destruct (I6 Hm) as ((new & Hrt & Hnew) & Hsm & Hft).
    unfold fits. rewrite R3. destruct R8 as [[-> ->]|[-> ->]].
    + split_and!; [by exists new|done|lia].
    + split_and!; [|left; change (len []) with 0; lia|lia].
      exists (new ++ [content s]). rewrite Hrt, <- app_assoc. split; [done|].
      apply Forall_app. split; [done|]. by apply Forall_singleton.
Qed.

Lemma errored_inv s : sink_inv s → mid_batch s → sink_inv (fs_error s) ∧ mid_batch (fs_error s).
Proof. intros H1 H2. split; [by apply (sink_inv_ext s)|by apply (mid_batch_ext s)]. Qed.

(** The whole loop: it returns, at the end of the batch without an error. *)
Lemma batch_loop_spec fuel ctx N : ∀ turns s,
  sink_inv s → mid_batch s → eintr_until N (d_file (fs_disk s)) →
  (N + length (concat rs) <= fuel)%nat → (length (rest (fs_pending s)) <= turns)%nat →
  ∃ s' err, batch_loop turns fuel ctx s = Some (s', err) ∧ sink_inv s' ∧ mid_batch s' ∧
    w_resp (d_file (fs_disk s')) = w_resp (d_file (fs_disk s)) ∧
    (err = None → rest (fs_pending s') = []).
Proof.
  induction turns as [|turns IH]; intros s Hinv Hmid HN Hf Ht; cbn [batch_loop];
    pose proof (settled_done _ (mb_ok s Hmid) (mb_settled s Hmid)) as Hdone;
    destruct (cursor_done (fs_pending s)) eqn:Hd.
  - exists s, None. split_and!; try done. intros _. by apply Hdone.
  - assert (rest (fs_pending s) = []) as Hr by (apply nil_length_inv; lia). by apply Hdone in Hr.
  - exists s, None. split_and!; try done. intros _. by apply Hdone.
  - destruct (at_loop ctx _) as [e|].
    { exists (fs_error s), (Some e). destruct (errored_inv s Hinv Hmid). by split_and!. }
    set (first := len (hd [] (remaining (fs_pending s)))).
    set (r := if ((offset (fs_pending s) =? 0)%nat && shouldRotate first s)%bool then rotate s else (None, s)).
    assert (Hr : sink_inv r.2 ∧ mid_batch r.2 ∧ fs_pending r.2 = fs_pending s ∧
      w_resp (d_file (fs_disk r.2)) = w_resp (d_file (fs_disk s)) ∧
      (r.1 = None → 0 < MaxBytes config → file r.2 = OpenFile → offset (fs_pending s) = 0%nat →
         content r.2 = [] ∨ len (content r.2) + first <= MaxBytes config)).
    { unfold r. destruct ((offset _ =? 0)%nat && _) eqn:E.
      - apply andb_true_iff in E as [E1 _]. apply Nat.eqb_eq in E1.
        destruct (rotate s) as [e1 s1] eqn:Er. apply rotate_inv in Er as (?&?&?&?&?); [|done..].
        split_and!; try done. intros Hn _ _ _. left. auto.
      - split_and!; try done. intros _ Hm Ho Hz. rewrite Hz in E. cbn in E.
        unfold shouldRotate in E. rewrite (si_config s Hinv), (si_size s Hinv Ho) in E.
        zbool; [lia|left; apply nil_length_inv; cbn in *; lia|right; unfold first; cbn in *; lia]. }
    destruct r as [err s1]. cbn [fst snd] in Hr. destruct Hr as (Hinv1 & Hmid1 & Hp1 & Hw1 & Hz).
    destruct err as [e|].
    { exists (fs_error s1), (Some e). destruct (errored_inv s1 Hinv1 Hmid1). by split_and!. }
    assert (HN1 : eintr_until N (d_file (fs_disk s1))) by (intros i b e; rewrite Hw1; apply HN).
    rewrite <- Hp1 in Hd, Hz, Ht. unfold first in *. rewrite <- Hp1 in *.
    destruct (file_write_turn fuel (at_write ctx) N s1 Hinv1 Hmid1 Hd HN1 Hf (Hz eq_refl))
      as (s2 & n & shorts & err & p' & Hfw & Hp2 & Hadv & Hinv2 & Hmid2 & Hw2 & Hlt).
    unfold chunk_of in Hfw. rewrite (si_config s1 Hinv1), Hfw. cbn [mbind option_bind].
    change (fs_pending (_ <| fs_counters ::= _ |>)) with (fs_pending s2). rewrite Hp2, Hadv.
    change (_ <| fs_pending := p' |>) with (after_write s2 n shorts p').
    destruct err as [e|].
    { eexists (fs_error (after_write s2 n shorts p')), _. destruct (errored_inv _ Hinv2 Hmid2).
      split_and!; try done. cbn. congruence. }
    specialize (Hlt eq_refl).
    destruct (IH (after_write s2 n shorts p') Hinv2 Hmid2) as (s' & err & HL & H1' & H2' & H3' & H4').
    + intros i b e. cbn. rewrite Hw2. apply HN1.
    + done.
    + cbn. lia.
    + exists s', err. split_and!; try done. rewrite H3'. cbn. congruence.
Qed.

(** Between attempts: idle, or in the middle of the batch. *)
Definition fs_progress (s : FileSink) : Prop :=
  sink_inv s ∧ settled (fs_pending s) ∧ in_batch base rs (fs_pending s) (log s).

Lemma begin_fits s p :
  fs_progress s → begin rs (fs_pending s) = (None, p) → cursor_ok p → log s = base ++ committed p →
  fits (fs_pending s) (content s) → fits p (content s).
Proof.
  intros (_ & Hset & Hin) Hb Hok Ho Hft. destruct Hin as [[He Hl]|(Ha & Hr & _ & _)].
  - rewrite Hl in Ho. rewrite <- (app_nil_r base) in Ho at 1. apply app_inv_head in Ho.
    apply (f_equal length) in Ho. unfold committed in Ho. rewrite length_app, length_take in Ho.
    pose proof (co_offset p Hok). cbn in Ho. intros Hoff. lia.
  - unfold begin in Hb. rewrite Ha, Hr, Nat.eqb_refl, bool_decide_eq_true_2 in Hb by done.
    cbn [negb] in Hb. rewrite advance_zero in Hb by done. by injection Hb as <-.
Qed.

(** Syncing after the batch changes neither the log nor the cursor. *)
Lemma sync_step s ctx :
  sink_inv s → mid_batch s →
  let r := if bool_decide (fc_SyncPolicy (fs_config s) = SyncEveryBatch) then
      match at_sync ctx with
      | Some e => (Some e, s)
      | None =>
        match syncFn s with
        | (Some e, s) => (Some (ErrWrap "sync log file: %w" e), s)
        | (None, s) => (None, s <| fs_counters ::= update_with Flushes (add_u64 1) |>)
        end
      end
    else (None, s) in
  sink_inv r.2 ∧ mid_batch r.2 ∧ fs_pending r.2 = fs_pending s ∧
  w_resp (d_file (fs_disk r.2)) = w_resp (d_file (fs_disk s)).
Proof.
  intros Hinv Hmid. destruct (bool_decide _); [|done]. destruct (at_sync ctx); [done|].
  pose proof (syncFn_frame s) as [(H1 & H2 & H3 & H4 & H5 & H6) Hf].
  assert (Hl : log (syncFn s).2 = log s) by (unfold log; congruence).
  destruct (syncFn s) as [[e|] s1]; cbn [fst snd] in *.
  - split_and!; [|by apply (mid_batch_ext s)|done|by rewrite H1].
    apply (sink_inv_ext s); try done. by rewrite H5.
  - split_and!; [|by apply (mid_batch_ext s)|done|cbn; by rewrite H1].
    apply (sink_inv_ext s); try done. cbn. by rewrite H5.
Qed.

(** One attempt. *)
Lemma FileSink_step fuel ctx elapsed N s :
  fs_progress s → eintr_until N (d_file (fs_disk s)) → (N + length (concat rs) <= fuel)%nat →
  ∃ s' err, FileSink_WriteBatch fuel ctx elapsed rs s = Some (s', err) ∧
    w_resp (d_file (fs_disk s')) = w_resp (d_file (fs_disk s)) ∧ sink_inv s' ∧
    match err with
    | Some _ => fs_progress s' ∧ mid_batch s'
    | None => log s' = base ++ concat rs ∧ fs_pending s' = empty_cursor
    end.
Proof.
  intros Hp HN Hf. pose proof Hp as (Hinv & _ & Hin).
  destruct (begin_in_batch _ _ _ _ Hin) as (p & Hb & Ha & Hr & Hok & Hs & Ho).
  unfold FileSink_WriteBatch. rewrite (bool_decide_eq_false_2 _ (si_file s Hinv)), (si_closed s Hinv).
  cbn [orb]. rewrite Hb.
  assert (Hinv1 : sink_inv (s <| fs_pending := p |>)).
  { destruct Hinv as [I1 I2 I3 I4 I5 I6]. split; try done. intros Hm.
    destruct (I6 Hm) as (? & ? & Hft). split_and!; try done. by apply (begin_fits s). }
  assert (Hmid1 : mid_batch (s <| fs_pending := p |>)) by (by split).
  destruct (batch_loop_spec fuel ctx N (length (concat rs)) _ Hinv1 Hmid1 HN Hf)
    as (s1 & err & HL & Hinv2 & Hmid2 & Hw & Hdone).
  { cbn. pose proof (committed_length p Hok) as L. rewrite Hr in L. lia. }
  rewrite HL. cbn [mbind option_bind]. cbn in Hw.
  assert (Hprog : ∀ s2, sink_inv s2 → mid_batch s2 → fs_progress s2).
  { intros s2 H1 H2. split; [done|]. split; [apply H2|]. right. split_and!; apply H2. }
  destruct err as [e|].
  { exists s1, (Some e). split_and!; [done|done|done|by apply Hprog|done]. }
  pose proof (sync_step s1 ctx Hinv2 Hmid2) as Hsync.
  set (r := if bool_decide _ then _ else _) in *. cbn zeta in Hsync.
  destruct r as [err s2]. cbn [fst snd] in Hsync. destruct Hsync as (Hinv3 & Hmid3 & Hp3 & Hw3).
  destruct err as [e|].
  { destruct (errored_inv s2 Hinv3 Hmid3). eexists (fs_error s2), (Some e).
    split_and!; [done|cbn; congruence|done|by apply Hprog|done]. }
  eexists _, None. split; [done|]. split; [cbn; by rewrite Hw3|]. split.
  - destruct Hinv3 as [I1 I2 I3 I4 I5 I6]. split; try done. intros Hm.
    destruct (I6 Hm) as (? & ? & Hft). split_and!; try done. intros Hoff. cbn in Hoff. lia.
  - split; [|done]. change (log s2 = base ++ concat rs).
    rewrite (mb_log s2 Hmid3), cursor_finished, (mb_records s2 Hmid3); [done|apply Hmid3|].
    rewrite Hp3. by apply Hdone.
Qed.
End Batch.

(** ** One logical batch on the file sink *)

(** The caller's retries: attempts until one succeeds. *)
Fixpoint fs_retries `{WriteFn} (attempts : list (nat * contexts * Z)) (rs : list (list byte))
  (s : FileSink) : option (FileSink * option error) :=
  match attempts with
  | [] => Some (s, Some io_ErrShortWrite)
  | (fuel, ctx, elapsed) :: attempts =>
      '(s, err) ← FileSink_WriteBatch fuel ctx elapsed rs s;
      match err with Some _ => fs_retries attempts rs s | None => Some (s, None) end
  end.

Lemma fs_retries_spec `{WriteFnLaws} attempts base rs rot0 f0 config N : ∀ s,
  fs_progress base rs rot0 f0 config s → eintr_until N (d_file (fs_disk s)) →
  Forall (λ a, (N + length (concat rs) <= a.1.1)%nat) attempts →
  ∃ s' err, fs_retries attempts rs s = Some (s', err) ∧ sink_inv rs rot0 f0 config s' ∧
    match err with
    | Some _ => fs_progress base rs rot0 f0 config s'
    | None => log s' = base ++ concat rs ∧ fs_pending s' = empty_cursor
    end.
Proof.
  induction attempts as [|[[fuel ctx] el] attempts IH]; intros s Hp HN Hall; cbn [fs_retries].
  - exists s, (Some io_ErrShortWrite). split; [done|]. split; [apply Hp|done].
  - apply Forall_cons in Hall as [Hf Hall]. cbn in Hf.
    destruct (FileSink_step base rs rot0 f0 config fuel ctx el N s Hp HN Hf)
      as (s1 & err & HW & Hr & Hi & Hst). rewrite HW. cbn [mbind option_bind].
    destruct err as [e|]; [|by exists s1, None]. destruct Hst as [Hst _].
    apply IH; [done| |done]. intros i b e'. rewrite Hr. apply HN.
Qed.

(** A sink between batches: open, nothing pending, the size counter right. *)
Record fs_idle (s : FileSink) : Prop := mkIdle {
  id_writer : writer_ok (d_file (fs_disk s));
  id_file : file s = OpenFile;
  id_closed : Closed (fs_counters s) = false;
  id_size : fs_size s = len (content s);
  id_pending : fs_pending s = empty_cursor
}.

Lemma fs_idle_progress s rs :
  fs_idle s → fs_progress (log s) rs (d_rotated (fs_disk s)) (content s) (fs_config s) s.
Proof.
  intros [H1 H2 H3 H4 H5]. split; [|split].
  - split; try done; [by rewrite H2|]. intros _. split_and!.
    + exists []. by rewrite app_nil_r.
    + by do 2 right.
    + rewrite H5. intros Hoff. cbn in Hoff. lia.
  - rewrite H5. intros ?. cbn in *. lia.
  - left. done.
Qed.

(** C12. Exactly once through rotation.  Whatever the write function (vectored
    or sequential), a caller that repeats [WriteBatch] with the same records gets
    an answer every time, and the rotated files followed by the current one hold
    what they held before plus a prefix of the batch, each byte once and in order,
    plus the whole batch after a nil return: whatever short writes, write errors,
    cancelled contexts and failing sync, close, rename or open calls came before. *)
Theorem FileSink_exactly_once `{WriteFnLaws} attempts rs s N :
  fs_idle s → eintr_until N (d_file (fs_disk s)) →
  Forall (λ a, (N + length (concat rs) <= a.1.1)%nat) attempts →
  ∃ s' err n, fs_retries attempts rs s = Some (s', err) ∧
    log s' = log s ++ take n (concat rs) ∧
    (err = None → log s' = log s ++ concat rs ∧ fs_pending s' = empty_cursor).
Proof.
  intros Hi HN Hall.
  destruct (fs_retries_spec attempts _ rs _ _ _ N s (fs_idle_progress s rs Hi) HN Hall)
    as (s' & err & HR & _ & Hst). destruct err as [e|].
  - destruct Hst as (_ & _ & [[_ Hl]|(_ & Hr & Hok & Hl)]); exists s', (Some e).
    + exists 0%nat. rewrite Hl, app_nil_r. by split_and!.
    + exists (length (committed (fs_pending s'))). rewrite Hl, (committed_take _ Hok) at 1.
      rewrite Hr. by split_and!.
  - destruct Hst as [Hl Hp]. exists s', None, (length (concat rs)). rewrite firstn_all. by split_and!.
Qed.

(** Rotation keeps files within the limit.  With [MaxBytes] set, whatever
    fails on the way, every file a batch leaves behind, the renamed ones and the
    current one, has at most [MaxBytes] bytes, or holds (the beginning of) one
    single record, or is the file found at the start, unchanged; and the renamed
    files extend the old list. *)
Theorem FileSink_rotation_bound `{WriteFnLaws} attempts rs s N :
  fs_idle s → eintr_until N (d_file (fs_disk s)) → 0 < MaxBytes (fs_config s) →
  Forall (λ a, (N + length (concat rs) <= a.1.1)%nat) attempts →
  ∃ s' err new, fs_retries attempts rs s = Some (s', err) ∧
    d_rotated (fs_disk s') = d_rotated (fs_disk s) ++ new ∧
    Forall (λ f, len f <= MaxBytes (fs_config s) ∨ (∃ r k, r ∈ rs ∧ f = take k r) ∨ f = content s)
      (new ++ [content s']).
Proof.
  intros Hi HN Hm Hall.
  destruct (fs_retries_spec attempts _ rs _ _ _ N s (fs_idle_progress s rs Hi) HN Hall)
    as (s' & err & HR & Hinv & _).
  destruct (si_bounded _ _ _ _ s' Hinv Hm) as ((new & Hrot & Hnew) & Hsm & _).
  exists s', err, new. split; [done|]. split; [done|]. apply Forall_app. split; [done|].
  by apply Forall_singleton.
Qed.

(** ** A failed rotation *)

(** The state a rotation leaves when it fails after closing the file: the handle
    is shut but not nil, the batch is pending on a record that needs rotation. *)
Record stuck (rs : list (list byte)) (s : FileSink) : Prop := mkStuck {
  sk_file : file s = ShutFile;
  sk_closed : Closed (fs_counters s) = false;
  sk_active : active (fs_pending s) = true;
  sk_records : records (fs_pending s) = rs;
  sk_settled : settled (fs_pending s);
  sk_done : cursor_done (fs_pending s) = false;
  sk_offset : offset (fs_pending s) = 0%nat;
  sk_rotate : shouldRotate (len (hd [] (remaining (fs_pending s)))) s = true
}.

Lemma stuck_loop `{WriteFn} turns fuel ctx rs s :
  stuck rs s → (0 < turns)%nat →
  ∃ e, batch_loop turns fuel ctx s = Some (fs_error s, Some e).
Proof.
  intros [H1 H2 H3 H4 H5 H6 H7 H8] Ht. destruct turns as [|turns]; [lia|]. cbn [batch_loop].
  rewrite H6. destruct (at_loop ctx _) as [e|]; [by eexists|].
  rewrite H7, H8. cbn [Nat.eqb andb]. unfold rotate, syncFn. rewrite H1. by eexists.
Qed.

Lemma stuck_step `{WriteFn} fuel ctx elapsed rs s :
  stuck rs s → rs ≠ [] → concat rs ≠ [] →
  ∃ e, FileSink_WriteBatch fuel ctx elapsed rs s = Some (fs_error s, Some e).
Proof.
  intros Hs Hne Hc. pose proof Hs as [H1 H2 H3 H4 H5 H6 H7 H8]. unfold FileSink_WriteBatch.
  rewrite H1, H2. cbn [orb]. rewrite bool_decide_eq_false_2 by done. unfold begin.
  rewrite H3, H4, Nat.eqb_refl, bool_decide_eq_true_2 by done. cbn [negb orb].
  rewrite advance_zero by done.
  assert (Hsame : s <| fs_pending := fs_pending s |> = s) by (by destruct s). rewrite Hsame.
  destruct (stuck_loop (length (concat rs)) fuel ctx rs s Hs) as [e ->]; [by destruct (concat rs); [|cbn; lia]|].
  by exists e.
Qed.

(** A rotation that fails after closing the file is never repaired: once
    the sink is in that state every retry of the batch fails, whatever the
    operating system answers by then, and nothing more is ever written. *)
Theorem failed_rotation_is_permanent `{WriteFn} attempts rs s :
  stuck rs s → concat rs ≠ [] →
  ∃ s' e, fs_retries attempts rs s = Some (s', Some e) ∧ stuck rs s' ∧ log s' = log s.
Proof.
  intros Hs Hc. assert (Hne : rs ≠ []) by (by intros ->).
  revert s Hs. induction attempts as [|[[fuel ctx] el] attempts IH]; intros s Hs; cbn [fs_retries].
  - by exists s, io_ErrShortWrite.
  - destruct (stuck_step fuel ctx el rs s Hs Hne Hc) as [e ->]. cbn [mbind option_bind].
    assert (Hs1 : stuck rs (fs_error s)) by (destruct Hs; by split).
    destruct (IH _ Hs1) as (s' & e' & HR & Hs' & Hl). by exists s', e'.
Qed.

(** ** Examples *)

Definition sample_config : FileConfig := mkFileConfig "/var/log/app.log" 4 SyncEveryBatch 0 0.
Definition no_cancel : contexts := mkContexts (λ _, None) (λ _, None) None.
Definition sample_batch : list (list byte) := [[x61; x62; x63]; [x64; x65]; [x66; x67; x68; x69; x6a]].

Definition sample_sink (w : writer) (faults : list (option error)) : FileSink :=
  mkFileSink (sample_config <| fc_SyncPolicy := SyncEveryBatch |>) (mkDisk w [] faults) OpenFile 0 0
    empty_cursor zero_stats false None.

Example NewFile_opens : NewFile sample_config (mkDisk stuttering [] []) =
  Ok (mkFileSink (mkFileConfig "/var/log/app.log" 4 SyncEveryBatch 416 488) (mkDisk stuttering [] [])
        OpenFile 0 0 empty_cursor zero_stats false None).
Proof. reflexivity. Qed.

Lemma stuttering_ok : writer_ok stuttering.
Proof. intros i b. cbn. destruct i as [|[|[|i]]]; cbn; lia. Qed.

Lemma stuttering_eintr : eintr_until 2 stuttering.
Proof. intros i b e Hi. cbn. destruct i as [|[|[|i]]]; cbn; intros [= <-]; try lia. reflexivity. Qed.

Lemma sample_idle faults : fs_idle (sample_sink stuttering faults).
Proof. split; try reflexivity. apply stuttering_ok. Qed.

Definition two_attempts : list (nat * contexts * Z) := [(12%nat, no_cancel, 1); (12%nat, no_cancel, 1)].

Lemma FileSink_exactly_once_witness :
  ∃ s', fs_retries (H := vectored_write) two_attempts sample_batch (sample_sink stuttering []) = Some (s', None) ∧
    d_rotated (fs_disk s') = [[x61; x62; x63]; [x64; x65]] ∧ log s' = concat sample_batch.
Proof.
  destruct (FileSink_exactly_once (H := vectored_write) two_attempts sample_batch (sample_sink stuttering []) 2
    (sample_idle []) stuttering_eintr) as (s' & err & n & HR & _ & Hn); [repeat constructor|].
  assert (Hrot : option_map (λ r, d_rotated (fs_disk r.1)) (fs_retries (H := vectored_write) two_attempts
    sample_batch (sample_sink stuttering [])) = Some [[x61; x62; x63]; [x64; x65]]) by (vm_compute; reflexivity).
  rewrite HR in Hrot. injection Hrot as Hrot.
  assert (err = None) as -> by (vm_compute in HR; congruence).
  exists s'. split; [exact HR|]. split; [exact Hrot|]. exact (proj1 (Hn eq_refl)).
Defined.

Lemma FileSink_rotation_bound_witness :
  ∃ s' err new, fs_retries (H := sequential_write) two_attempts sample_batch (sample_sink stuttering []) = Some (s', err) ∧
    d_rotated (fs_disk s') = [] ++ new ∧
    Forall (λ f, len f <= 4 ∨ (∃ r k, r ∈ sample_batch ∧ f = take k r) ∨ f = []) (new ++ [content s']).
Proof.
  exact (FileSink_rotation_bound (H := sequential_write) two_attempts sample_batch (sample_sink stuttering []) 2
    (sample_idle []) stuttering_eintr eq_refl ltac:(repeat constructor)).
Defined.

(** The rename fails once, after the calls to sync and close. *)
Definition after_failed_rename : FileSink :=
  let s := sample_sink (mkWriter [] 0 sink_all) [None; None; Some (ErrNew "device busy")] in
  match FileSink_WriteBatch (H := vectored_write) 12 no_cancel 1 sample_batch s with
  | Some (s, _) => s
  | None => s
  end.

Lemma failed_rotation_is_permanent_witness :
  ∃ s' e, fs_retries (H := vectored_write) two_attempts sample_batch after_failed_rename = Some (s', Some e) ∧
    d_faults (fs_disk after_failed_rename) = [] ∧ log after_failed_rename = [x61; x62; x63] ∧
    log s' = log after_failed_rename.
Proof.
  assert (Hs : stuck sample_batch after_failed_rename).
  { split; try (vm_compute; reflexivity). intros _. vm_compute. lia. }
  destruct (failed_rotation_is_permanent (H := vectored_write) two_attempts sample_batch
    after_failed_rename Hs ltac:(discriminate)) as (s' & e & HR & _ & Hl).
  exists s', e. split; [exact HR|]. split; [reflexivity|]. split; [reflexivity|exact Hl].
Defined.
