(* ===== verification/Pool.v ===== *)
(** * The byte pool (internal/pool: types.go, pool.go, lease.go, audit.go)

    Leases of byte blocks with a four-state life cycle, size classes over
    [sync.Pool] stores, counters, and the audit registry.  Leases and blocks are
    pointers in the code; here they are indices into [leases] and [blocks]. *)

From stdpp Require Import gmap strings list fin_maps sorting.
From Stdlib Require Import ZArith Lia.
From Stdlib.Strings Require Import Byte Ascii.
From S2P Require Import Prelude GoLib.

(** ** Configuration (types.go) *)

Definition defaultMaxBytes : Z := Z.shiftl 1 20.
Definition defaultLeaseTimeout : Z := 2000000000.
Definition defaultScanInterval : Z := 100000000.
Definition defaultHistoryLimit : Z := 1000.
Definition defaultStackDepth : Z := 24.
Definition maxStackDepth : Z := 128.
Definition DefaultClasses : list Z := [256; 1024; 4096; 16 * 1024; 64 * 1024].

Definition ErrClosed : error := ErrNew "byte pool is closed".
Definition ErrTooLarge : error := ErrNew "requested byte lease exceeds maximum".
Definition ErrInvalidSize : error := ErrNew "byte lease size must not be negative".
Definition ErrInvalidState : error := ErrNew "invalid lease state transition".
Definition ErrDoubleReturn : error := ErrNew "lease was already returned".
Definition ErrUnknownLease : error := ErrNew "lease does not belong to this pool".
Definition ErrCapacity : error := ErrNew "lease capacity exceeded".
Definition ErrPayloadModified : error := ErrNew "lease payload changed after publication".

(** [AuditMode] is a string: the three valid ones, the empty one, any other. *)
Inductive AuditMode := AuditUnset | AuditOff | AuditSampled | AuditFull | AuditOther (text : string).

#[export] Instance AuditMode_eq_dec : EqDecision AuditMode.
Proof. solve_decision. Defined.

Definition AuditMode_valid (m : AuditMode) : bool :=
  match m with AuditOff | AuditSampled | AuditFull => true | _ => false end.

Record Config := mkConfig {
  Classes : list Z; MaxBytes : Z; cfg_AuditMode : AuditMode; SampleEvery : Z;
  LeaseTimeout : Z; ScanInterval : Z; HistoryLimit : Z; StackDepth : Z; ProjectRoot : string
}.

#[export] Instance Config_fields : Fields Config := λ r,
  mkConfig (Classes r) (MaxBytes r) (cfg_AuditMode r) (SampleEvery r) (LeaseTimeout r)
    (ScanInterval r) (HistoryLimit r) (StackDepth r) (ProjectRoot r).

(** [if field == 0 { field = value }] *)
Definition default_if_zero (value field : Z) : Z := if field =? 0 then value else field.

(** [for _, size := range c.Classes]: the classes are admissible. *)
Fixpoint classes_ok (previous maxBytes : Z) (classes : list Z) : bool :=
  match classes with
  | [] => true
  | size :: classes =>
      if (size <=? previous) || (size >? maxBytes) then false else classes_ok size maxBytes classes
  end.

Definition normalized (c : Config) : result Config :=
  let c := c <| Classes ::= λ l, match l with [] => DefaultClasses | _ => l end |>
             <| MaxBytes ::= default_if_zero defaultMaxBytes |>
             <| cfg_AuditMode ::= λ m, if decide (m = AuditUnset) then AuditOff else m |> in
  _ ← guard_err (negb (AuditMode_valid (cfg_AuditMode c))) (ErrNew "invalid audit mode %q");
  let c := c <| SampleEvery ::= default_if_zero 100 |>
             <| LeaseTimeout ::= default_if_zero defaultLeaseTimeout |>
             <| ScanInterval ::= default_if_zero defaultScanInterval |>
             <| HistoryLimit ::= default_if_zero defaultHistoryLimit |>
             <| StackDepth ::= default_if_zero defaultStackDepth |> in
  _ ← guard_err ((MaxBytes c <=? 0) || (LeaseTimeout c <=? 0) || (ScanInterval c <=? 0)
                 || (HistoryLimit c <? 0) || (StackDepth c <? 1) || (StackDepth c >? maxStackDepth))
        (ErrNew "invalid byte pool limits");
  _ ← guard_err (negb (classes_ok 0 (MaxBytes c) (Classes c)))
        (ErrNew "pool classes must be positive, strictly increasing, and no greater than max bytes");
  Ok c.

(** ** Leases *)

Definition StateBorrowed : Z := 1.
Definition StateQueued : Z := 2.
Definition StateInFlight : Z := 3.
Definition StateReturned : Z := 4.

Definition LeaseState_String (s : Z) : string :=
  if s =? StateBorrowed then "BORROWED"
  else if s =? StateQueued then "QUEUED"
  else if s =? StateInFlight then "IN_FLIGHT"
  else if s =? StateReturned then "RETURNED"
  else "UNKNOWN".

Record AuditContext := mkAuditContext { Level : string; Logger : string; CallerSkip : Z }.
Record Frame := mkFrame { Function : string; File : string; Line : Z }.

Record LeaseSnapshot := mkSnapshot {
  ID : Z; snap_State : string; ClassSize : Z; Capacity : Z; Length : Z; BorrowedAt : Z;
  Deadline : Z; ReturnedAt : Z; AgeNanos : Z; GoroutineID : Z; snap_Level : string;
  snap_Logger : string; snap_Function : string; snap_File : string; snap_Line : Z;
  Stack : list Frame; PayloadMutated : bool
}.

#[export] Instance LeaseSnapshot_fields : Fields LeaseSnapshot := λ r,
  mkSnapshot (ID r) (snap_State r) (ClassSize r) (Capacity r) (Length r) (BorrowedAt r)
    (Deadline r) (ReturnedAt r) (AgeNanos r) (GoroutineID r) (snap_Level r) (snap_Logger r)
    (snap_Function r) (snap_File r) (snap_Line r) (Stack r) (PayloadMutated r).

(** [block] is an index into the pool's blocks, [class] is -1 for a block of no
    class; times are nanoseconds. *)
Record Lease := mkLease {
  l_id : Z; l_block : option nat; l_class : Z; l_length : Z; l_state : Z; l_tracked : bool;
  l_checksum : Z; l_mutated : bool; l_borrowed : Z; l_deadline : Z
}.

#[export] Instance Lease_fields : Fields Lease := λ r,
  mkLease (l_id r) (l_block r) (l_class r) (l_length r) (l_state r) (l_tracked r) (l_checksum r)
    (l_mutated r) (l_borrowed r) (l_deadline r).

(** ** The pool (pool.go) *)

Record slab := mkSlab {
  size : Z; store : list nat; slab_borrowed : Z; inUse : Z; hits : Z; misses : Z
}.

#[export] Instance slab_fields : Fields slab := λ r,
  mkSlab (size r) (store r) (slab_borrowed r) (inUse r) (hits r) (misses r).

Record auditRecord := mkAuditRecord {
  rec_lease : nat; rec_level : string; rec_logger : string; frames : list Frame;
  rec_goroutineID : Z; rec_overdue : bool; rec_mutated : bool
}.

#[export] Instance auditRecord_fields : Fields auditRecord := λ r,
  mkAuditRecord (rec_lease r) (rec_level r) (rec_logger r) (frames r) (rec_goroutineID r)
    (rec_overdue r) (rec_mutated r).

(** [blocks] holds the bytes of every block ever made, [leases] every lease. *)
Record BytePool := mkPool {
  config : Config; classes : list slab; nextID : Z; closed : bool;
  borrowed : Z; returned : Z; outstanding : Z; poolHits : Z; poolMisses : Z; oversized : Z;
  largeAllocations : Z; doubleReturns : Z; invalidReturns : Z; stateErrors : Z;
  useAfterPublish : Z; overdue : Z;
  active : gmap Z auditRecord; history : list LeaseSnapshot;
  blocks : list (list byte); leases : list Lease
}.

#[export] Instance BytePool_fields : Fields BytePool := λ r,
  mkPool (config r) (classes r) (nextID r) (closed r) (borrowed r) (returned r) (outstanding r)
    (poolHits r) (poolMisses r) (oversized r) (largeAllocations r) (doubleReturns r)
    (invalidReturns r) (stateErrors r) (useAfterPublish r) (overdue r) (active r) (history r)
    (blocks r) (leases r).

Definition New (c : Config) : result BytePool :=
  c ← normalized c;
  Ok (mkPool c (map (λ s, mkSlab s [] 0 0 0 0) (Classes c)) 0 false 0 0 0 0 0 0 0 0 0 0 0 0
        ∅ [] [] []).

(** [l.owner.classes[l.class]] and the like; out of range the code panics, and
    [pool_wf] shows it does not get there. *)
Definition block_data (p : BytePool) (l : Lease) : list byte :=
  match l_block l with
  | Some b => default [] (blocks p !! b)
  | None => []
  end.

Definition Lease_Capacity (p : BytePool) (l : Lease) : Z := len (block_data p l).

Definition Lease_ClassSize (p : BytePool) (l : Lease) : Z :=
  if l_class l <? 0 then 0
  else match classes p !! Z.to_nat (l_class l) with Some c => size c | None => 0 end.

Definition Lease_Len (l : Lease) : Z := if l_state l =? StateReturned then 0 else l_length l.

Definition Payload (p : BytePool) (l : Lease) : list byte :=
  if bool_decide (l_block l = None) || (l_state l =? StateReturned) then []
  else take (Z.to_nat (l_length l)) (block_data p l).

Definition on_lease (h : nat) (f : Lease → Lease) (p : BytePool) : BytePool :=
  p <| leases ::= alter f h |>.

(** *** Audit registry (audit.go) *)

(** The frames and the goroutine come from package runtime. *)
Definition register (h : nat) (id : Z) (context : AuditContext) (fs : list Frame) (goroutine : Z)
  (p : BytePool) : BytePool :=
  p <| active ::= <[id := mkAuditRecord h (Level context) (Logger context) fs goroutine false false]> |>.

Definition updateContext (id : Z) (context : AuditContext) (p : BytePool) : BytePool :=
  p <| active ::= alter (λ r, r <| rec_level := Level context |> <| rec_logger := Logger context |>) id |>.

Definition markMutated (id : Z) (p : BytePool) : BytePool :=
  p <| active ::= alter (λ r, r <| rec_mutated := true |>) id |>.

(** [now.After(record.lease.deadline)] for a record not yet overdue. *)
Definition newly_overdue (p : BytePool) (now : Z) (r : auditRecord) : bool :=
  negb (rec_overdue r) &&
  match leases p !! rec_lease r with Some l => now >? l_deadline l | None => false end.

(** [scanOverdue] under the lock, and the addition after it. *)
Definition scan_mark (now : Z) (p : BytePool) : BytePool * Z :=
  (p <| active ::= fmap (λ r, if newly_overdue p now r then r <| rec_overdue := true |> else r) |>,
   Z.of_nat (base.size (filter (λ kr, newly_overdue p now kr.2 = true) (active p)))).

Definition scan_add (n : Z) (p : BytePool) : BytePool :=
  if n =? 0 then p else p <| overdue ::= λ o, u64 (o + n) |>.

Definition ScanOverdue (now : Z) (p : BytePool) : BytePool * Z :=
  if decide (cfg_AuditMode (config p) = AuditOff) then (p, 0)
  else let '(p, n) := scan_mark now p in (scan_add n p, n).

(** [now.Sub(t).Nanoseconds()] saturates. *)
Definition time_sub (a b : Z) : Z := Z.max (- 2 ^ 63) (Z.min (2 ^ 63 - 1) (a - b)).

Definition snapshotRecord (p : BytePool) (r : auditRecord) (now : Z) : LeaseSnapshot :=
  let l := default (mkLease 0 None (-1) 0 0 false 0 false 0 0) (leases p !! rec_lease r) in
  let f := hd (mkFrame "" "" 0) (frames r) in
  mkSnapshot (l_id l)
    (if rec_overdue r then "OVERDUE" else LeaseState_String (l_state l))
    (Lease_ClassSize p l) (Lease_Capacity p l) (l_length l) (l_borrowed l) (l_deadline l) 0
    (time_sub now (l_borrowed l)) (rec_goroutineID r) (rec_level r) (rec_logger r)
    (Function f) (File f) (Line f) (frames r) (rec_mutated r).

Definition finalize (id returnedAt : Z) (p : BytePool) : BytePool :=
  match active p !! id with
  | None => p
  | Some r =>
      let p := p <| active ::= delete id |> in
      let p := if rec_overdue r then p <| overdue ::= dec |> else p in
      let snapshot := (snapshotRecord p r returnedAt) <| snap_State := LeaseState_String StateReturned |>
                        <| ReturnedAt := returnedAt |> in
      if HistoryLimit (config p) >? 0 then
        let h := history p ++ [snapshot] in
        p <| history := drop (length h - Z.to_nat (HistoryLimit (config p))) h |>
      else p
  end.

(** *** Lease operations (lease.go) *)

(** [detectMutation] on lease [h]; the flag is its result. *)
Definition detectMutation (h : nat) (p : BytePool) : BytePool * bool :=
  match leases p !! h with
  | None => (p, false)
  | Some l =>
      if negb (l_tracked l) || (ChecksumIEEE (Payload p l) =? l_checksum l) then (p, false)
      else if negb (l_mutated l) then
        (markMutated (l_id l)
           (on_lease h (λ l, l <| l_mutated := true |>) p <| useAfterPublish ::= inc |>), true)
      else (p, true)
  end.

(** A failed transition; a nil lease has no owner to count it. *)
Definition state_error (h : nat) (p : BytePool) : BytePool * option error :=
  match leases p !! h with
  | Some _ => (p <| stateErrors ::= inc |>, Some ErrInvalidState)
  | None => (p, Some ErrInvalidState)
  end.

(** The compare-and-swap on the state. *)
Definition cas_state (h : nat) (old new : Z) (p : BytePool) : option BytePool :=
  match leases p !! h with
  | Some l => if l_state l =? old then Some (on_lease h (λ l, l <| l_state := new |>) p) else None
  | None => None
  end.

Definition MarkQueued (h : nat) (p : BytePool) : BytePool * option error :=
  match cas_state h StateBorrowed StateQueued p with
  | None => state_error h p
  | Some p =>
      match leases p !! h with
      | Some l =>
          if l_tracked l
          then (on_lease h (λ l, l <| l_checksum := ChecksumIEEE (Payload p l) |>) p, None)
          else (p, None)
      | None => (p, None)
      end
  end.

Definition RollbackQueued (h : nat) (p : BytePool) : BytePool * option error :=
  match cas_state h StateQueued StateBorrowed p with
  | None => state_error h p
  | Some p => (p, None)
  end.

Definition MarkInFlight (h : nat) (p : BytePool) : BytePool * option error :=
  match cas_state h StateQueued StateInFlight p with
  | None => state_error h p
  | Some p =>
      let '(p, mutated) := detectMutation h p in
      (p, if (mutated : bool) then Some ErrPayloadModified else None)
  end.

(** [copy(dst[off:], src)]: what fits is copied. *)
Definition copy_at (off : nat) (src dst : list byte) : list byte :=
  take off dst ++ take (length dst - off) src ++ drop (off + length src) dst.

(** [copy(l.block.data[off:], data)] *)
Definition write_block (l : Lease) (off : Z) (data : list byte) (p : BytePool) : BytePool :=
  match l_block l with
  | Some b => p <| blocks ::= alter (copy_at (Z.to_nat off) data) b |>
  | None => p
  end.

(** The guard of the writing operations: [l.State() != StateBorrowed]. *)
Definition borrowed_lease (h : nat) (p : BytePool) : option Lease :=
  match leases p !! h with
  | Some l => if l_state l =? StateBorrowed then Some l else None
  | None => None
  end.

Definition Resize (h : nat) (n : Z) (p : BytePool) : BytePool * option error :=
  match borrowed_lease h p with
  | None => (p, Some ErrInvalidState)
  | Some l =>
      if (n <? 0) || (n >? Lease_Capacity p l) then (p, Some ErrCapacity)
      else (on_lease h (λ l, l <| l_length := n |>) p, None)
  end.

Definition Reset (h : nat) : BytePool → BytePool * option error := Resize h 0.

Definition Append (h : nat) (data : list byte) (p : BytePool) : BytePool * option error :=
  match borrowed_lease h p with
  | None => (p, Some ErrInvalidState)
  | Some l =>
      if len data >? Lease_Capacity p l - l_length l then (p, Some ErrCapacity)
      else (on_lease h (λ l, l <| l_length ::= λ n, n + len data |>)
              (write_block l (l_length l) data p), None)
  end.

Definition Write (h : nat) (data : list byte) (p : BytePool) : BytePool * Z * option error :=
  match Append h data p with
  | (p, Some e) => (p, 0, Some e)
  | (p, None) => (p, len data, None)
  end.

Definition SetBytes (h : nat) (data : list byte) (p : BytePool) : BytePool * option error :=
  match borrowed_lease h p with
  | None => (p, Some ErrInvalidState)
  | Some l =>
      if len data >? Lease_Capacity p l then (p, Some ErrCapacity)
      else (on_lease h (λ l, l <| l_length := len data |>) (write_block l 0 data p), None)
  end.

Definition SetAuditContext (h : nat) (context : AuditContext) (p : BytePool)
  : BytePool * option error :=
  match borrowed_lease h p with
  | None => (p, Some ErrInvalidState)
  | Some l => (if l_tracked l then updateContext (l_id l) context p else p, None)
  end.

(** [Writable]: the whole block, to be written through [poke]. *)
Definition Writable (h : nat) (p : BytePool) : result (list byte) :=
  match borrowed_lease h p with
  | None => Err ErrInvalidState
  | Some l => Ok (block_data p l)
  end.

(** A store through a view of a block, obtained earlier from [Writable] or
    [Payload]: allowed to a borrower, a misuse after publication. *)
Definition poke (b : nat) (i : nat) (x : byte) (p : BytePool) : BytePool :=
  p <| blocks ::= alter (<[i := x]>) b |>.

(** *** Acquire and release (pool.go) *)

Fixpoint class_for (index : nat) (capacity : Z) (cs : list slab) : option nat :=
  match cs with
  | [] => None
  | c :: cs => if capacity <=? size c then Some index else class_for (S index) capacity cs
  end.

(** [classFor]: [None] is -1. *)
Definition classFor (capacity : Z) (p : BytePool) : option nat := class_for 0 capacity (classes p).

Definition shouldTrack (c : Config) (borrowNumber : Z) : bool :=
  match cfg_AuditMode c with
  | AuditFull => true
  | AuditSampled => borrowNumber mod SampleEvery c =? 0
  | _ => false
  end.

(** [sync.Pool.Get]: the item at position [pick], or nil. *)
Definition store_Get (pick : option nat) (c : slab) : option (nat * slab) :=
  match pick with
  | None => None
  | Some i =>
      match store c !! i with
      | Some b => Some (b, c <| store ::= delete i |>)
      | None => None
      end
  end.

(** [&byteBlock{data: make([]byte, n)}] *)
Definition new_block (n : Z) (p : BytePool) : nat * BytePool :=
  (length (blocks p), p <| blocks ::= λ l, l ++ [replicate (Z.to_nat n) x00] |>).

(** The block of a new lease. *)
Definition take_block (capacity : Z) (pick : option nat) (p : BytePool) : nat * Z * BytePool :=
  match classFor capacity p with
  | Some ci =>
      let class := default (mkSlab 0 [] 0 0 0 0) (classes p !! ci) in
      match store_Get pick class with
      | Some (b, class) =>
          (b, Z.of_nat ci,
           p <| classes ::= <[ci := class <| hits ::= inc |> <| slab_borrowed ::= inc |> <| inUse ::= inc |>]> |>
             <| poolHits ::= inc |>)
      | None =>
          let '(b, p) := new_block (size class) p in
          (b, Z.of_nat ci,
           p <| classes ::= <[ci := class <| misses ::= inc |> <| slab_borrowed ::= inc |> <| inUse ::= inc |>]> |>
             <| poolMisses ::= inc |>)
      end
  | None =>
      let '(b, p) := new_block capacity p in
      (b, -1, p <| poolMisses ::= inc |> <| largeAllocations ::= inc |>)
  end.

(** The environment of a call: what [sync.Pool] picks, the time, the caller's
    frames and goroutine. *)
Record env := mkEnv { e_pick : option nat; e_now : Z; e_frames : list Frame; e_goroutine : Z }.

Definition acquire (capacity : Z) (context : AuditContext) (e : env) (p : BytePool)
  : BytePool * result nat :=
  if closed p then (p, Err ErrClosed)
  else if capacity <? 0 then (p, Err ErrInvalidSize)
  else if capacity >? MaxBytes (config p) then
    (p <| oversized ::= inc |>, Err (ErrWrap "%w: requested=%d max=%d" ErrTooLarge))
  else
    let '(b, class, p) := take_block capacity (e_pick e) p in
    let p := p <| nextID ::= inc |> in
    let p := if nextID p =? 0 then p <| nextID ::= inc |> else p in
    let id := nextID p in
    let p := p <| borrowed ::= inc |> <| outstanding ::= inc |> in
    let tracked := shouldTrack (config p) (borrowed p) in
    let h := length (leases p) in
    let lease := mkLease id (Some b) class 0 StateBorrowed tracked 0 false (e_now e)
                   (e_now e + LeaseTimeout (config p)) in
    let p := p <| leases ::= λ l, l ++ [lease] |> in
    (if tracked then register h id context (e_frames e) (e_goroutine e) p else p, Ok h).

Definition Acquire (capacity : Z) : env → BytePool → BytePool * result nat :=
  acquire capacity (mkAuditContext "" "" 0).

Definition AcquireContext : Z → AuditContext → env → BytePool → BytePool * result nat := acquire.

(** [Release]; [None] is nil or another pool's lease.  Run without interference
    the compare-and-swap succeeds at once. *)
Definition Release (handle : option nat) (now : Z) (p : BytePool) : BytePool * option error :=
  match handle with
  | None => (p <| invalidReturns ::= inc |>, Some ErrUnknownLease)
  | Some h =>
    match leases p !! h with
    | None => (p <| invalidReturns ::= inc |>, Some ErrUnknownLease)
    | Some l =>
      let state := l_state l in
      let p := if state =? StateInFlight then (detectMutation h p).1 else p in
      if state =? StateReturned then (p <| doubleReturns ::= inc |>, Some ErrDoubleReturn)
      else if state =? StateQueued then (p <| stateErrors ::= inc |>, Some ErrInvalidState)
      else if (state =? StateBorrowed) || (state =? StateInFlight) then
        let p := on_lease h (λ l, l <| l_state := StateReturned |>) p in
        let p := if l_tracked l then finalize (l_id l) now p else p in
        let p :=
          if l_class l >=? 0 then
            let p := p <| classes ::= alter (λ c, c <| inUse ::= dec |>) (Z.to_nat (l_class l)) |> in
            let p := on_lease h (λ l, l <| l_length := 0 |>) p in
            match l_block l with
            | Some b => p <| classes ::= alter (λ c, c <| store ::= cons b |>) (Z.to_nat (l_class l)) |>
            | None => p
            end
          else p in
        let p := on_lease h (λ l, l <| l_block := None |>) p in
        (p <| returned ::= inc |> <| outstanding ::= dec |>, None)
      else (p <| invalidReturns ::= inc |>, Some ErrUnknownLease)
    end
  end.

Definition Close (p : BytePool) : BytePool := p <| closed := true |>.

(** *** Snapshots *)

Definition snapshot_desc (a b : LeaseSnapshot) : Prop := ID b <= ID a.
#[export] Instance snapshot_desc_dec a b : Decision (snapshot_desc a b).
Proof. unfold snapshot_desc. apply _. Defined.

(** The entries before sorting and paging. *)
Definition snapshot_items (filter : string) (now : Z) (p : BytePool) : list LeaseSnapshot :=
  base.filter (λ s, filter = "" ∨ snap_State s = filter)
    (map (λ kr, snapshotRecord p kr.2 now) (map_to_list (active p)) ++ history p).

(** [sort.Slice] by descending identifier, then the cursor and the limit. *)
Definition snapshots (filter : string) (beforeID limit now : Z) (p : BytePool) : list LeaseSnapshot :=
  let limit := if limit <=? 0 then 50 else limit in
  let limit := if limit >? 200 then 200 else limit in
  let items := merge_sort snapshot_desc (snapshot_items filter now p) in
  take (Z.to_nat limit) (base.filter (λ s, beforeID = 0 ∨ ID s < beforeID) items).

Definition byID (id now : Z) (p : BytePool) : option LeaseSnapshot :=
  match active p !! id with
  | Some r => Some (snapshotRecord p r now)
  | None => last (base.filter (λ s, ID s = id) (history p))
  end.

(** [strings.TrimSpace] and [strings.ToUpper] on ASCII text. *)
Definition is_space (c : ascii) : bool :=
  let n := nat_of_ascii c in ((n =? 32) || ((9 <=? n) && (n <=? 13)))%nat.
Definition upper (c : ascii) : ascii :=
  let n := nat_of_ascii c in
  if ((97 <=? n) && (n <=? 122))%nat then ascii_of_nat (n - 32) else c.
Fixpoint trim_left (l : list ascii) : list ascii :=
  match l with c :: l' => if is_space c then trim_left l' else l | [] => [] end.
Definition ParseLeaseState (value : string) : string :=
  Stdlib.Strings.String.string_of_list_ascii (map upper (rev (trim_left (rev (trim_left (Stdlib.Strings.String.list_ascii_of_string value)))))).

Definition SnapshotLeasesBefore (state : string) (beforeID limit now : Z) (p : BytePool)
  : list LeaseSnapshot := snapshots (ParseLeaseState state) beforeID limit now p.
Definition SnapshotLeases (state : string) (limit now : Z) (p : BytePool) : list LeaseSnapshot :=
  SnapshotLeasesBefore state 0 limit now p.
Definition LeaseByID : Z → Z → BytePool → option LeaseSnapshot := byID.

(** *** Statistics *)

Record ClassStats := mkClassStats {
  cs_Size : Z; cs_Borrowed : Z; cs_InUse : Z; cs_Hits : Z; cs_Misses : Z
}.

Record Stats := mkStats {
  Borrowed : Z; Returned : Z; Outstanding : Z; PoolHits : Z; PoolMisses : Z; Oversized : Z;
  LargeAllocations : Z; DoubleReturns : Z; InvalidReturns : Z; StateErrors : Z;
  UseAfterPublish : Z; Overdue : Z; st_Classes : list ClassStats; st_Closed : bool
}.

Definition Pool_Stats (p : BytePool) : Stats :=
  mkStats (borrowed p) (returned p) (outstanding p) (poolHits p) (poolMisses p) (oversized p)
    (largeAllocations p) (doubleReturns p) (invalidReturns p) (stateErrors p) (useAfterPublish p)
    (overdue p)
    (map (λ c, mkClassStats (size c) (slab_borrowed c) (inUse c) (hits c) (misses c)) (classes p))
    (closed p).
