(* ===== verification/PoolInv.v ===== *)
(** * Ownership, isolation and accounting of the byte pool

    The pool is run by arbitrary sequences of operations ([pool_step]); the
    overdue scan runs beside them, its marking and its addition to the counter
    being separate steps.  The invariant is stated on the [skeleton] of a pool:
    what the operations on the contents of a lease leave alone. *)

From stdpp Require Import gmap strings list fin_maps sorting.
From Stdlib Require Import ZArith Lia.
From Stdlib.Strings Require Import Byte.
From S2P Require Import Prelude GoLib Pool.

(** ** Histories of operations *)

Inductive pool_op :=
| DoAcquire (capacity : Z) (context : AuditContext) (e : env)
| DoRelease (handle : option nat) (now : Z)
| DoMarkQueued (h : nat)
| DoRollbackQueued (h : nat)
| DoMarkInFlight (h : nat)
| DoResize (h : nat) (n : Z)
| DoAppend (h : nat) (data : list byte)
| DoSetBytes (h : nat) (data : list byte)
| DoSetAuditContext (h : nat) (context : AuditContext)
| DoPoke (b i : nat) (x : byte)
| DoClose.

Definition acquired (r : BytePool * result nat) : BytePool * option error :=
  match r with (p, Ok _) => (p, None) | (p, Err e) => (p, Some e) end.

Definition pool_do (op : pool_op) (p : BytePool) : BytePool * option error :=
  match op with
  | DoAcquire capacity context e => acquired (acquire capacity context e p)
  | DoRelease handle now => Release handle now p
  | DoMarkQueued h => MarkQueued h p
  | DoRollbackQueued h => RollbackQueued h p
  | DoMarkInFlight h => MarkInFlight h p
  | DoResize h n => Resize h n p
  | DoAppend h data => Append h data p
  | DoSetBytes h data => SetBytes h data p
  | DoSetAuditContext h context => SetAuditContext h context p
  | DoPoke b i x => (poke b i x p, None)
  | DoClose => (Close p, None)
  end.

(** A pool and the additions the scans under way have still to do. *)
Definition system : Type := BytePool * list Z.

Inductive pool_step : system → system → Prop :=
| step_do op p q : pool_step (p, q) ((pool_do op p).1, q)
| step_scan_mark now p q :
    cfg_AuditMode (config p) ≠ AuditOff →
    pool_step (p, q) ((scan_mark now p).1, (scan_mark now p).2 :: q)
| step_scan_add n p q1 q2 : pool_step (p, q1 ++ n :: q2) (scan_add n p, q1 ++ q2).

Definition pool_init (s : system) : Prop := ∃ c, New c = Ok s.1 ∧ s.2 = [].

Definition pool_reach : system → Prop := reach pool_init pool_step.

(** ** The skeleton *)

Definition live (l : Lease) : bool := negb (l_state l =? StateReturned).

Record shape := mkShape {
  s_id : Z; s_block : option nat; s_class : Z; s_live : bool; s_tracked : bool
}.
#[export] Instance shape_fields : Fields shape := λ r,
  mkShape (s_id r) (s_block r) (s_class r) (s_live r) (s_tracked r).

Definition shape_of (l : Lease) : shape :=
  mkShape (l_id l) (l_block l) (l_class l) (live l) (l_tracked l).

Record skel := mkSkel {
  k_config : Config; k_shapes : list shape; k_slabs : list slab; k_sizes : list nat;
  k_next : Z; k_borrowed : Z; k_returned : Z; k_outstanding : Z; k_hits : Z; k_misses : Z
}.
#[export] Instance skel_fields : Fields skel := λ r,
  mkSkel (k_config r) (k_shapes r) (k_slabs r) (k_sizes r) (k_next r) (k_borrowed r)
    (k_returned r) (k_outstanding r) (k_hits r) (k_misses r).

Definition skeleton (p : BytePool) : skel :=
  mkSkel (config p) (map shape_of (leases p)) (classes p) (map length (blocks p)) (nextID p)
    (borrowed p) (returned p) (outstanding p) (poolHits p) (poolMisses p).

Definition owned (ss : list shape) : list nat := omap s_block ss.
Definition stored (cs : list slab) : list nat := concat (map store cs).
Definition live_count (ss : list shape) : Z := len (base.filter (λ s, s_live s = true) ss).
Definition class_count (ci : nat) (ss : list shape) : Z :=
  len (base.filter (λ s, s_live s = true ∧ s_class s = Z.of_nat ci) ss).

(** A live lease has a block of its class's size, another one none. *)
Definition shape_ok (sizes : list nat) (cs : list Z) (s : shape) : Prop :=
  match s_block s with
  | None => s_live s = false
  | Some b => s_live s = true ∧ ∃ n, sizes !! b = Some n ∧
      (s_class s = -1 ∨ (0 <= s_class s ∧ cs !! Z.to_nat (s_class s) = Some (Z.of_nat n)))
  end.

Record inv (k : skel) : Prop := {
  inv_sizes : map size (k_slabs k) = Classes (k_config k);
  inv_pos : Forall (λ s, 0 < s) (Classes (k_config k));
  inv_shapes : Forall (shape_ok (k_sizes k) (Classes (k_config k))) (k_shapes k);
  inv_nodup : NoDup (owned (k_shapes k) ++ stored (k_slabs k));
  inv_stored : ∀ c b, c ∈ k_slabs k → b ∈ store c → k_sizes k !! b = Some (Z.to_nat (size c));
  inv_borrowed : k_borrowed k = u64 (len (k_shapes k));
  inv_outstanding : k_outstanding k = u64 (live_count (k_shapes k));
  inv_returned : k_returned k = u64 (len (k_shapes k) - live_count (k_shapes k));
  inv_hits : u64 (k_hits k + k_misses k) = k_borrowed k;
  inv_class : ∀ ci c, k_slabs k !! ci = Some c →
    inUse c = u64 (class_count ci (k_shapes k)) ∧ u64 (hits c + misses c) = slab_borrowed c
}.

(** ** Quiet operations *)

Lemma map_alter_same {A B} (g : A → B) (f : A → A) i l :
  (∀ x, l !! i = Some x → g (f x) = g x) → map g (alter f i l) = map g l.
Proof.
  revert i. induction l as [|x l IH]; intros [|i] H; cbn; try done; f_equal.
  - by apply H.
  - by apply IH.
Qed.

Lemma skeleton_on_lease h f p :
  (∀ l, leases p !! h = Some l → shape_of (f l) = shape_of l) →
  skeleton (on_lease h f p) = skeleton p.
Proof. intros H. unfold skeleton, on_lease. cbn. by rewrite (map_alter_same shape_of). Qed.

Lemma length_copy_at off src dst : length (copy_at off src dst) = length dst.
Proof. unfold copy_at. repeat rewrite ?length_app, ?length_take, ?length_drop. lia. Qed.

Lemma skeleton_write_block l off data p : skeleton (write_block l off data p) = skeleton p.
Proof.
  unfold write_block. destruct (l_block l); [|done]. unfold skeleton. cbn.
  by rewrite map_alter_same by (intros; apply length_copy_at).
Qed.

Lemma skeleton_poke b i x p : skeleton (poke b i x p) = skeleton p.
Proof.
  unfold skeleton, poke. cbn. by rewrite map_alter_same by (intros; apply length_insert).
Qed.

Lemma skeleton_finalize id now p : skeleton (finalize id now p) = skeleton p.
Proof. unfold finalize. destruct (active p !! id); [|done]. by destruct_ifs. Qed.

Lemma skeleton_detect h p : skeleton (detectMutation h p).1 = skeleton p.
Proof.
  unfold detectMutation. destruct (leases p !! h) as [l|]; [|done]. destruct_ifs; try done.
  cbn [fst]. by rewrite <- (skeleton_on_lease h (λ l, l <| l_mutated := true |>) p).
Qed.

Lemma skeleton_scan_mark now p : skeleton (scan_mark now p).1 = skeleton p.
Proof. done. Qed.

Lemma skeleton_scan_add n p : skeleton (scan_add n p) = skeleton p.
Proof. unfold scan_add. by destruct (n =? 0). Qed.

Lemma borrowed_lease_Some h p l :
  borrowed_lease h p = Some l ↔ leases p !! h = Some l ∧ l_state l = StateBorrowed.
Proof.
  unfold borrowed_lease. destruct (leases p !! h) as [l'|]; [|naive_solver].
  destruct (_ =? _) eqn:E; zbool; split; intros; go.
Qed.

Lemma cas_state_Some h old new p p' :
  cas_state h old new p = Some p' ↔
  ∃ l, leases p !! h = Some l ∧ l_state l = old
    ∧ p' = on_lease h (λ l, l <| l_state := new |>) p.
Proof.
  unfold cas_state. destruct (leases p !! h) as [l'|]; [|naive_solver].
  destruct (_ =? _) eqn:E; zbool; split; intros; go.
Qed.

Lemma skeleton_cas h old new p p' :
  old ≠ StateReturned → new ≠ StateReturned →
  cas_state h old new p = Some p' → skeleton p' = skeleton p.
Proof.
  intros Ho Hn (l & Hl & <- & ->)%cas_state_Some. apply skeleton_on_lease.
  intros l' Hl'. simplify_eq. unfold shape_of, live. cbn. by ztest.
Qed.

(** Which operations change the skeleton. *)
Definition loud (op : pool_op) : bool :=
  match op with DoAcquire _ _ _ | DoRelease _ _ => true | _ => false end.

Lemma skeleton_state_error h p : skeleton (state_error h p).1 = skeleton p.
Proof. unfold state_error. by destruct (_ !! _). Qed.

Lemma skeleton_quiet op p : loud op = false → skeleton (pool_do op p).1 = skeleton p.
Proof.
  destruct op as [| |h|h|h|h n|h d|h d|h c|b i x|]; intros Hq; try done; cbn [pool_do].
  - unfold MarkQueued. destruct (cas_state _ _ _ _) as [p'|] eqn:E; [|apply skeleton_state_error].
    apply skeleton_cas in E; [|done..]. destruct (leases p' !! h); [|done].
    destruct (l_tracked _); [|done]. cbn [fst]. by rewrite skeleton_on_lease.
  - unfold RollbackQueued. destruct (cas_state _ _ _ _) as [p'|] eqn:E;
      [|apply skeleton_state_error]. by apply skeleton_cas in E.
  - unfold MarkInFlight. destruct (cas_state _ _ _ _) as [p'|] eqn:E;
      [|apply skeleton_state_error].
    apply skeleton_cas in E; [|done..]. pose proof (skeleton_detect h p').
    destruct (detectMutation h p'). cbn [fst] in *. congruence.
  - unfold Resize. destruct (borrowed_lease h p); [|done]. destruct_ifs; [done|].
    by apply skeleton_on_lease.
  - unfold Append. destruct (borrowed_lease h p); [|done]. destruct_ifs; [done|].
    cbn [fst]. rewrite skeleton_on_lease by done. apply skeleton_write_block.
  - unfold SetBytes. destruct (borrowed_lease h p); [|done]. destruct_ifs; [done|].
    cbn [fst]. rewrite skeleton_on_lease by done. apply skeleton_write_block.
  - unfold SetAuditContext. destruct (borrowed_lease h p); [|done]. by destruct_ifs.
  - apply skeleton_poke.
Qed.

(** ** Acquire on skeletons *)

Definition slab_hit (i : nat) (c : slab) : slab :=
  c <| store ::= delete i |> <| hits ::= inc |> <| slab_borrowed ::= inc |> <| inUse ::= inc |>.
Definition slab_miss (c : slab) : slab :=
  c <| misses ::= inc |> <| slab_borrowed ::= inc |> <| inUse ::= inc |>.

Inductive fetch (k : skel) : nat → Z → skel → Prop :=
| fetch_hit ci c i b :
    k_slabs k !! ci = Some c → store c !! i = Some b →
    fetch k b (Z.of_nat ci) (k <| k_slabs ::= <[ci := slab_hit i c]> |> <| k_hits ::= inc |>)
| fetch_miss ci c :
    k_slabs k !! ci = Some c →
    fetch k (length (k_sizes k)) (Z.of_nat ci)
      (k <| k_slabs ::= <[ci := slab_miss c]> |> <| k_misses ::= inc |>
         <| k_sizes ::= λ l, l ++ [Z.to_nat (size c)] |>)
| fetch_large n :
    fetch k (length (k_sizes k)) (-1)
      (k <| k_misses ::= inc |> <| k_sizes ::= λ l, l ++ [n] |>).

(** Identifiers skip zero. *)
Definition next_id (n : Z) : Z := if inc n =? 0 then inc (inc n) else inc n.

Definition push (b : nat) (class : Z) (tracked : bool) (k : skel) : skel :=
  k <| k_shapes ::= λ l, l ++ [mkShape (next_id (k_next k)) (Some b) class true tracked] |>
    <| k_next ::= next_id |>
    <| k_borrowed ::= inc |> <| k_outstanding ::= inc |>.

Lemma class_for_Some index capacity cs ci :
  class_for index capacity cs = Some ci →
  ∃ c, (index <= ci)%nat ∧ cs !! (ci - index)%nat = Some c ∧ capacity <= size c.
Proof.
  revert index. induction cs as [|c cs IH]; intros index; [done|]. cbn.
  destruct (_ <=? _) eqn:E; zbool.
  - intros [= <-]. exists c. rewrite Nat.sub_diag. done.
  - intros (c' & Hi & Hl & Hc)%IH. exists c'. split; [lia|]. split; [|done].
    replace (ci - index)%nat with (S (ci - S index)) by lia. done.
Qed.

Lemma take_block_fetch capacity pick p b class p1 :
  take_block capacity pick p = (b, class, p1) →
  fetch (skeleton p) b class (skeleton p1) ∧ leases p1 = leases p ∧ nextID p1 = nextID p.
Proof.
  unfold take_block, classFor. destruct (class_for 0 capacity (classes p)) as [ci|] eqn:E.
  - apply class_for_Some in E as (c & _ & Hc & _). rewrite Nat.sub_0_r in Hc. rewrite Hc. cbn.
    destruct (store_Get pick c) as [[b' c']|] eqn:Hg; intros [= <- <- <-]; split; try done.
    + unfold store_Get in Hg. destruct pick as [i|]; [|done].
      destruct (store c !! i) eqn:Hi; simplify_eq. by apply (fetch_hit (skeleton p) ci c i).
    + pose proof (fetch_miss (skeleton p) ci c Hc) as F. unfold skeleton in *. cbn in *.
      rewrite length_map in F. by rewrite map_app, map_cons, length_replicate.
  - cbn. intros [= <- <- <-]. split; [|done].
    pose proof (fetch_large (skeleton p) (Z.to_nat capacity)) as F. unfold skeleton in *. cbn in *.
    rewrite length_map in F. by rewrite map_app, map_cons, length_replicate.
Qed.

Lemma fetch_kept k b class k1 :
  fetch k b class k1 →
  k_config k1 = k_config k ∧ k_shapes k1 = k_shapes k ∧ k_borrowed k1 = k_borrowed k ∧
  k_returned k1 = k_returned k ∧ k_outstanding k1 = k_outstanding k ∧ k_next k1 = k_next k.
Proof. by intros []. Qed.

Lemma acquire_skeleton capacity context e p p' h :
  acquire capacity context e p = (p', Ok h) →
  h = length (leases p) ∧ ∃ b class k1,
    fetch (skeleton p) b class k1 ∧
    skeleton p' = push b class (shouldTrack (config p) (inc (borrowed p))) k1.
Proof.
  unfold acquire. destruct_ifs; try done.
  destruct (take_block capacity (e_pick e) p) as [[b class] p1] eqn:T.
  apply take_block_fetch in T as (F & Hl & Hn).
  assert (Ec : config p1 = config p ∧ borrowed p1 = borrowed p).
  { clear -F. apply fetch_kept in F. cbn in F. split; apply F. }
  destruct Ec as [Ec Eb]. set (tracked := shouldTrack (config p) (inc (borrowed p))).
  intros E. enough (h = length (leases p) ∧ skeleton p' = push b class tracked (skeleton p1))
    as [-> ->] by (split; [done|]; by exists b, class, (skeleton p1)).
  cbn in E. destruct (inc (nextID p1) =? 0) eqn:Z; cbn in E; rewrite Ec, Eb in E; fold tracked in E;
    (destruct tracked; injection E as <- <-; rewrite Hl; (split; [done|]));
    unfold skeleton, push, next_id; cbn; rewrite Z; by rewrite ?map_app, ?Hl, ?Ec, ?Eb.
Qed.

Lemma acquire_error capacity context e p p' err :
  acquire capacity context e p = (p', Err err) → skeleton p' = skeleton p ∧ leases p' = leases p.
Proof.
  unfold acquire. destruct_ifs; try (by intros; simplify_eq).
  destruct (take_block capacity (e_pick e) p) as [[b class] p1]. done.
Qed.

(** ** The invariant is preserved by acquire *)

Lemma stored_insert (cs : list slab) ci c :
  cs !! ci = Some c →
  ∃ rest, stored cs ≡ₚ store c ++ rest ∧ ∀ c', stored (<[ci := c']> cs) ≡ₚ store c' ++ rest.
Proof.
  revert ci. induction cs as [|c0 cs IH]; intros [|ci] H; simplify_eq/=.
  - exists (stored cs). done.
  - destruct (IH _ H) as (rest & E & E'). exists (store c0 ++ rest).
    unfold stored in *. cbn. split; [|intros c']; rewrite ?E, ?E'; solve_Permutation.
Qed.

Lemma delete_Permutation {A} (l : list A) i x : l !! i = Some x → l ≡ₚ x :: delete i l.
Proof. intros. by apply delete_Permutation. Qed.

Lemma owned_app ss ss' : owned (ss ++ ss') = owned ss ++ owned ss'.
Proof. apply omap_app. Qed.

Lemma live_count_app ss ss' : live_count (ss ++ ss') = live_count ss + live_count ss'.
Proof. unfold live_count. rewrite filter_app, length_app. lia. Qed.

Lemma class_count_app ci ss ss' :
  class_count ci (ss ++ ss') = class_count ci ss + class_count ci ss'.
Proof. unfold class_count. rewrite filter_app, length_app. lia. Qed.

Lemma live_count_one s : live_count [s] = if s_live s then 1 else 0.
Proof. unfold live_count. rewrite filter_cons. by destruct (s_live s). Qed.

Lemma class_count_one ci s :
  class_count ci [s] = if s_live s && (s_class s =? Z.of_nat ci) then 1 else 0.
Proof.
  unfold class_count. rewrite filter_cons. cbn [filter list_filter].
  destruct (s_live s), (_ =? _) eqn:E; zbool; case_decide; go.
Qed.

Lemma stored_lt k b : inv k → b ∈ stored (k_slabs k) → (b < length (k_sizes k))%nat.
Proof.
  intros H. unfold stored. rewrite list_elem_of_In, in_concat.
  intros (l & (c & <- & Hc)%in_map_iff & Hb). apply lookup_lt_is_Some. eexists.
  apply (inv_stored _ H c); by apply list_elem_of_In.
Qed.

Lemma owned_lt k b : inv k → b ∈ owned (k_shapes k) → (b < length (k_sizes k))%nat.
Proof.
  intros H. unfold owned. rewrite list_elem_of_omap. intros (s & Hs & E).
  pose proof (inv_shapes _ H) as F. rewrite Forall_forall in F. specialize (F s Hs).
  unfold shape_ok in F. rewrite E in F. destruct F as (_ & n & Hn & _).
  by apply lookup_lt_Some in Hn.
Qed.

Lemma shape_ok_app sizes n cs s : shape_ok sizes cs s → shape_ok (sizes ++ [n]) cs s.
Proof.
  unfold shape_ok. destruct (s_block s); [|done]. intros (? & m & Hm & ?).
  split; [done|]. exists m. split; [by apply lookup_app_l_Some|done].
Qed.

Lemma slab_size k ci c :
  inv k → k_slabs k !! ci = Some c →
  Classes (k_config k) !! ci = Some (size c) ∧ 0 < size c.
Proof.
  intros H Hc. assert (E : Classes (k_config k) !! ci = Some (size c)).
  { by rewrite <- (inv_sizes _ H), list_lookup_fmap, Hc. }
  split; [done|]. pose proof (inv_pos _ H) as F. rewrite Forall_lookup in F. eauto.
Qed.

Section fetch.
Context (k k1 : skel) (b : nat) (class : Z) (I : inv k) (F : fetch k b class k1).

Lemma fetch_same :
  k_config k1 = k_config k ∧ k_shapes k1 = k_shapes k ∧ k_borrowed k1 = k_borrowed k ∧
  k_returned k1 = k_returned k ∧ k_outstanding k1 = k_outstanding k ∧
  (k_sizes k1 = k_sizes k ∨ ∃ n, k_sizes k1 = k_sizes k ++ [n]).
Proof. destruct F; cbn; eauto 10. Qed.

Lemma fetch_slab_sizes : map size (k_slabs k1) = map size (k_slabs k).
Proof.
  destruct F as [ci c i b' Hc _|ci c Hc|n]; cbn; [| |done];
    rewrite (list_fmap_insert size); apply list_insert_id; by rewrite list_lookup_fmap, Hc.
Qed.

Lemma fetch_nodup : NoDup (owned (k_shapes k) ++ b :: stored (k_slabs k1)).
Proof.
  pose proof (inv_nodup _ I) as N.
  destruct F as [ci c i b' Hc Hb|ci c Hc|n]; cbn;
    try destruct (stored_insert _ _ _ Hc) as (rest & E & E').
  - rewrite (E' (slab_hit i c)). rewrite E in N. cbn.
    by rewrite (delete_Permutation _ _ _ Hb) in N.
  - rewrite <- Permutation_middle. apply NoDup_cons. split.
    + rewrite (E' (slab_miss c)), elem_of_app. intros [H|H].
      * apply (owned_lt k) in H; [lia|done].
      * assert (Hs : length (k_sizes k) ∈ stored (k_slabs k)) by (rewrite E; exact H).
        apply (stored_lt k) in Hs; [lia|done].
    + by rewrite (E' (slab_miss c)), <- E.
  - rewrite <- Permutation_middle. apply NoDup_cons. split; [|done].
    rewrite elem_of_app. intros [H|H].
    + apply (owned_lt k) in H; [lia|done].
    + apply (stored_lt k) in H; [lia|done].
Qed.

Lemma fetch_block :
  ∃ n, k_sizes k1 !! b = Some n ∧
    (class = -1 ∨ (0 <= class ∧ Classes (k_config k) !! Z.to_nat class = Some (Z.of_nat n))).
Proof.
  destruct F as [ci c i b' Hc Hb|ci c Hc|n]; cbn.
  - destruct (slab_size k ci c I Hc) as [S P]. exists (Z.to_nat (size c)).
    rewrite Nat2Z.id, Z2Nat.id by lia. split; [|right; split; [lia|done]].
    apply (inv_stored _ I c); [by apply list_elem_of_lookup_2 in Hc|].
    by apply list_elem_of_lookup_2 in Hb.
  - destruct (slab_size k ci c I Hc) as [S P]. exists (Z.to_nat (size c)).
    rewrite Nat2Z.id, Z2Nat.id by lia. split; [|right; split; [lia|done]].
    by rewrite lookup_app_r, Nat.sub_diag by lia.
  - exists n. by rewrite lookup_app_r, Nat.sub_diag by lia; auto.
Qed.

Lemma fetch_slab ci' c' :
  k_slabs k1 !! ci' = Some c' →
  ∃ c, k_slabs k !! ci' = Some c ∧ size c' = size c ∧ store c' ⊆ store c ∧
    ((Z.of_nat ci' ≠ class ∧ c' = c) ∨
     (Z.of_nat ci' = class ∧ inUse c' = inc (inUse c) ∧ slab_borrowed c' = inc (slab_borrowed c)
      ∧ u64 (hits c' + misses c') = u64 (hits c + misses c + 1))).
Proof.
  destruct F as [ci c i b' Hc Hb|ci c Hc|n]; cbn; intros H.
  - destruct (decide (ci' = ci)) as [->|Hne].
    + rewrite list_lookup_insert_eq in H by (by apply lookup_lt_Some in Hc). simplify_eq.
      exists c. split; [done|]. split; [done|]. split.
      { intros x Hx. apply list_elem_of_In. apply list_elem_of_In in Hx.
        eapply Permutation_in; [symmetry; by apply (delete_Permutation _ i b')|by right]. }
      right. cbn. repeat split. unfold inc. rewrite u64_add_l. f_equal. lia.
    + rewrite list_lookup_insert_ne in H by done. exists c'. split_and!; auto with lia.
  - destruct (decide (ci' = ci)) as [->|Hne].
    + rewrite list_lookup_insert_eq in H by (by apply lookup_lt_Some in Hc). simplify_eq.
      exists c. repeat split; try done. right. cbn. repeat split.
      unfold inc. rewrite (Z.add_comm (hits c)), u64_add_l. f_equal. lia.
    + rewrite list_lookup_insert_ne in H by done. exists c'. split_and!; auto with lia.
  - exists c'. split_and!; auto with lia.
Qed.

Lemma fetch_hits : u64 (k_hits k1 + k_misses k1) = u64 (k_hits k + k_misses k + 1).
Proof.
  destruct F; cbn; unfold inc; [rewrite u64_add_l|rewrite Z.add_comm, u64_add_l..]; f_equal; lia.
Qed.

Lemma inv_push tracked : inv (push b class tracked k1).
Proof.
  destruct fetch_same as (E1 & E2 & E3 & E4 & E5 & E6).
  destruct I as [I1 I2 I3 I4 I5 I6 I7 I8 I9 I10]. constructor; cbn.
  - by rewrite E1, fetch_slab_sizes.
  - by rewrite E1.
  - rewrite E1, E2. apply Forall_app. split.
    + destruct E6 as [->|[n ->]]; [done|]. eapply Forall_impl; [done|]. intros. by apply shape_ok_app.
    + apply Forall_singleton. split; [done|]. apply fetch_block.
  - rewrite E2, owned_app, <- app_assoc. apply fetch_nodup.
  - intros c b' [ci Hc]%list_elem_of_lookup Hb. apply fetch_slab in Hc as (c0 & Hc & -> & Hs & _).
    apply list_elem_of_lookup_2 in Hc. specialize (I5 c0 b' Hc (Hs _ Hb)).
    destruct E6 as [->|[n ->]]; [done|]. by apply lookup_app_l_Some.
  - rewrite E2, E3, I6, length_app, inc_u64. f_equal. cbn. lia.
  - by rewrite E2, E5, I7, live_count_app, inc_u64, live_count_one.
  - rewrite E2, E4, I8, live_count_app, length_app, live_count_one. f_equal. cbn. lia.
  - rewrite E3, fetch_hits, <- I9, inc_u64. done.
  - intros ci c' Hc'. apply fetch_slab in Hc' as (c & Hc & _ & _ & D).
    destruct (I10 ci c Hc) as [U B]. rewrite E2, class_count_app, class_count_one. cbn.
    destruct D as [(Hne & ->)|(<- & -> & -> & ->)].
    + by rewrite (proj2 (Z.eqb_neq _ _)), Z.add_0_r by done.
    + by rewrite U, <- B, !inc_u64, Z.eqb_refl.
Qed.
End fetch.

(** ** Release on skeletons *)

Definition kill (s : shape) : shape := s <| s_block := None |> <| s_live := false |>.

Definition slab_return (b : nat) (c : slab) : slab := c <| inUse ::= dec |> <| store ::= cons b |>.

Definition give_back (h : nat) (b : nat) (class : Z) (k : skel) : skel :=
  k <| k_shapes ::= alter kill h |>
    <| k_slabs ::= if class >=? 0 then alter (slab_return b) (Z.to_nat class) else id |>
    <| k_returned ::= inc |> <| k_outstanding ::= dec |>.

Lemma map_alter_comm {A B} (g : A → B) (f : A → A) (f' : B → B) i l :
  (∀ x, g (f x) = f' (g x)) → map g (alter f i l) = alter f' i (map g l).
Proof.
  intros H. revert i. induction l as [|x l IH]; intros [|i]; cbn; try done; f_equal; auto.
Qed.

Lemma list_alter_compose' {A} (f g : A → A) i (l : list A) :
  alter f i (alter g i l) = alter (λ x, f (g x)) i l.
Proof.
  revert i. induction l as [|x l IH]; intros [|i]; cbn; try done. f_equal. apply IH.
Qed.

Lemma Release_error handle now p p' err :
  Release handle now p = (p', Some err) → skeleton p' = skeleton p ∧ leases p' = leases p.
Proof.
  unfold Release. destruct handle as [h|]; [|by intros [= <- _]].
  destruct (leases p !! h) as [l|]; [|by intros [= <- _]].
  destruct (l_state l =? StateInFlight) eqn:E; zbool;
    [rewrite E|]; destruct_ifs; intros; simplify_eq; done.
Qed.

Lemma detect_leases h p :
  leases (detectMutation h p).1 = leases p ∨
  leases (detectMutation h p).1 = alter (λ l, l <| l_mutated := true |>) h (leases p).
Proof.
  unfold detectMutation. destruct (leases p !! h); [|auto]. destruct_ifs; auto.
Qed.

Lemma finalize_same id now p :
  leases (finalize id now p) = leases p ∧ classes (finalize id now p) = classes p
  ∧ blocks (finalize id now p) = blocks p ∧ config (finalize id now p) = config p.
Proof. unfold finalize. destruct (active p !! id); [|done]. by destruct_ifs. Qed.

(** The part of Release after the state change. *)
Lemma Release_skeleton h now p p' l b :
  leases p !! h = Some l → l_block l = Some b →
  Release (Some h) now p = (p', None) →
  (l_state l = StateBorrowed ∨ l_state l = StateInFlight) ∧
  skeleton p' = give_back h b (l_class l) (skeleton p).
Proof.
  intros Hl Hb. unfold Release. rewrite Hl.
  set (p0 := if l_state l =? StateInFlight then _ else _).
  assert (S0 : skeleton p0 = skeleton p).
  { subst p0. destruct_ifs; [apply skeleton_detect|done]. }
  destruct (l_state l =? StateReturned) eqn:E1; [done|].
  destruct (l_state l =? StateQueued) eqn:E2; [done|].
  destruct (_ || _) eqn:E3; [|done]. clearbody p0. intros E.
  split. { zbool; auto. }
  set (p1 := if l_tracked l then _ else _) in E.
  assert (S1 : skeleton p1 = skeleton (on_lease h (λ l, l <| l_state := StateReturned |>) p0)).
  { subst p1. destruct (l_tracked l); [apply skeleton_finalize|done]. }
  assert (S2 : skeleton p1 = (skeleton p) <| k_shapes ::= alter (λ s, s <| s_live := false |>) h |>).
  { rewrite S1, <- S0. unfold skeleton, on_lease. cbn. f_equal.
    by apply (map_alter_comm shape_of). }
  clearbody p1. clear S0 S1 E1 E2 E3. unfold skeleton in S2. injection S2.
  intros V9 V8 V7 V6 V5 V4 V3 V2 V1.
  intros V0. unfold give_back. destruct (l_class l >=? 0) eqn:Hc; rewrite ?Hb in E;
    injection E as <-; unfold skeleton; cbn; unfold id; f_equal; rewrite ?list_alter_compose';
    try congruence;
    try (rewrite (map_alter_comm shape_of _ (λ s, s <| s_block := None |>)) by done;
         by rewrite V1, list_alter_compose').
  by rewrite V2.
Qed.

Lemma alter_middle {A} (l : list A) h x :
  l !! h = Some x → ∃ l1 l2, l = l1 ++ x :: l2 ∧ length l1 = h ∧
    ∀ f, alter f h l = l1 ++ f x :: l2.
Proof.
  revert h. induction l as [|y l IH]; intros [|h] H; simplify_eq/=.
  - by exists [], l.
  - destruct (IH _ H) as (l1 & l2 & -> & <- & E). exists (y :: l1), l2.
    split_and!; try done. intros f. cbn. f_equal. apply E.
Qed.

Lemma cons_app {A} (x : A) l : x :: l = [x] ++ l.
Proof. done. Qed.

Lemma alter_insert' {A} (f : A → A) i (l : list A) x :
  l !! i = Some x → alter f i l = <[i := f x]> l.
Proof.
  revert i. induction l as [|y l IH]; intros [|i] H; simplify_eq/=; [done|]. f_equal. by apply IH.
Qed.

Section release.
Context (k : skel) (I : inv k) (h b : nat) (s : shape).
Context (Hs : k_shapes k !! h = Some s) (Hb : s_block s = Some b).
Notation k1 := (give_back h b (s_class s) k).

Lemma owned_shape_ok :
  s_live s = true ∧ ∃ n, k_sizes k !! b = Some n ∧
    (s_class s = -1 ∨ (0 <= s_class s ∧ Classes (k_config k) !! Z.to_nat (s_class s) = Some (Z.of_nat n))).
Proof.
  pose proof (inv_shapes _ I) as F. rewrite Forall_lookup in F. specialize (F _ _ Hs).
  unfold shape_ok in F. by rewrite Hb in F.
Qed.

Lemma returned_slab :
  0 <= s_class s → ∃ c, k_slabs k !! Z.to_nat (s_class s) = Some c ∧
    k_sizes k !! b = Some (Z.to_nat (size c)).
Proof.
  intros Hc. destruct owned_shape_ok as (_ & n & Hn & [?|[_ Hz]]); [lia|].
  rewrite <- (inv_sizes _ I), list_lookup_fmap in Hz.
  destruct (k_slabs k !! Z.to_nat (s_class s)) as [c|]; [|done]. exists c. split; [done|].
  injection Hz as ->. by rewrite Nat2Z.id.
Qed.

Lemma release_nodup : NoDup (owned (k_shapes k1) ++ stored (k_slabs k1)).
Proof.
  pose proof (inv_nodup _ I) as N. cbn.
  destruct (alter_middle _ _ _ Hs) as (l1 & l2 & E & _ & E'). rewrite E'. rewrite E in N.
  rewrite cons_app, !owned_app in N |- *. cbn in N |- *. unfold owned in N at 2. cbn in N.
  rewrite Hb in N. change (omap s_block [kill s]) with (@nil nat). cbn in N |- *.
  rewrite <- Permutation_middle in N. cbn in N.
  destruct (s_class s >=? 0) eqn:Hc; zbool.
  - destruct returned_slab as (c & Hl & _); [done|].
    destruct (stored_insert _ _ _ Hl) as (rest & S & S'). rewrite (alter_insert' _ _ _ c Hl).
    fold (stored (<[Z.to_nat (s_class s) := slab_return b c]> (k_slabs k))). rewrite S'. rewrite S in N. cbn.
    by rewrite <- Permutation_middle.
  - unfold id. by apply NoDup_cons in N as [_ N].
Qed.

Lemma release_slab ci c' :
  k_slabs k1 !! ci = Some c' →
  ∃ c, k_slabs k !! ci = Some c ∧ size c' = size c ∧ hits c' = hits c ∧ misses c' = misses c
    ∧ slab_borrowed c' = slab_borrowed c ∧
    ((Z.of_nat ci = s_class s ∧ inUse c' = dec (inUse c) ∧ store c' = b :: store c) ∨
     (Z.of_nat ci ≠ s_class s ∧ c' = c)).
Proof.
  cbn. destruct (s_class s >=? 0) eqn:Hc; zbool; intros H.
  - destruct (decide (Z.to_nat (s_class s) = ci)) as [<-|Hne].
    + rewrite list_lookup_alter_eq in H. destruct (k_slabs k !! _) as [c|]; [|done].
      injection H as <-. exists c. repeat split. left. split; [lia|done].
    + rewrite list_lookup_alter_ne in H by done. exists c'. repeat split; [done|].
      right. split; [lia|done].
  - exists c'. repeat split; [done|]. right. split; [lia|done].
Qed.

Lemma release_slab_sizes : map size (k_slabs k1) = map size (k_slabs k).
Proof. cbn. destruct (_ >=? 0); [|done]. by apply map_alter_same. Qed.

Lemma inv_give_back : inv k1.
Proof.
  pose proof release_nodup as N. pose proof release_slab_sizes as Z.
  destruct owned_shape_ok as (HL & _).
  destruct (alter_middle _ _ _ Hs) as (l1 & l2 & E & _ & E').
  destruct I as [I1 I2 I3 I4 I5 I6 I7 I8 I9 I10]. constructor; try done.
  - by rewrite Z.
  - cbn. rewrite E'. rewrite E in I3. rewrite Forall_app, Forall_cons in I3 |- *.
    destruct I3 as (? & ? & ?). done.
  - intros c' b' [ci Hc']%list_elem_of_lookup Hb'.
    apply release_slab in Hc' as (c & Hc & -> & _ & _ & _ & D).
    pose proof (list_elem_of_lookup_2 _ _ _ Hc) as Hin.
    destruct D as [(Hci & _ & Hst)|[_ ->]]; [|by apply (I5 c)].
    rewrite Hst, elem_of_cons in Hb'. destruct Hb' as [->|Hb']; [|by apply (I5 c)].
    destruct returned_slab as (c0 & Hc0 & Hz); [lia|].
    rewrite <- Hci, Nat2Z.id in Hc0. cbn. by simplify_eq.
  - cbn. rewrite E', I6, E. by rewrite !length_app.
  - cbn. rewrite E', I7, E, dec_u64, (cons_app s), (cons_app (kill s)), !live_count_app,
      !live_count_one, HL. f_equal. cbn. lia.
  - cbn. rewrite E', I8, E, inc_u64, (cons_app s), (cons_app (kill s)), !live_count_app,
      !live_count_one, HL, !length_app. f_equal. cbn. lia.
  - intros ci c' Hc'. apply release_slab in Hc' as (c & Hc & _ & -> & -> & -> & D).
    destruct (I10 ci c Hc) as [U B]. split; [|done]. cbn.
    rewrite E', E, (cons_app s), (cons_app (kill s)), !class_count_app, !class_count_one, HL in *.
    cbn. destruct D as [(Hci & -> & _)|[Hne ->]].
    + rewrite U, dec_u64, Hci, Z.eqb_refl. f_equal. cbn. lia.
    + rewrite U, (proj2 (Z.eqb_neq _ _)) by done. done.
Qed.
End release.

(** ** The invariant holds in every reachable pool *)

Lemma live_block k h s :
  inv k → k_shapes k !! h = Some s → s_live s = true → ∃ b, s_block s = Some b.
Proof.
  intros I Hs Hl. pose proof (inv_shapes _ I) as F. rewrite Forall_lookup in F.
  specialize (F _ _ Hs). unfold shape_ok in F. destruct (s_block s); [eauto|congruence].
Qed.

Lemma shapes_lookup p h l : leases p !! h = Some l → k_shapes (skeleton p) !! h = Some (shape_of l).
Proof. intros H. cbn. by rewrite list_lookup_fmap, H. Qed.

Lemma lease_block p h l :
  inv (skeleton p) → leases p !! h = Some l → l_state l ≠ StateReturned →
  ∃ b, l_block l = Some b.
Proof.
  intros I Hl Hs. apply (live_block _ h (shape_of l) I); [by apply shapes_lookup|].
  cbn. unfold live. by rewrite (proj2 (Z.eqb_neq _ _)).
Qed.

Lemma Release_live h now p p' :
  Release (Some h) now p = (p', None) →
  ∃ l, leases p !! h = Some l ∧ (l_state l = StateBorrowed ∨ l_state l = StateInFlight).
Proof.
  unfold Release. destruct (leases p !! h) as [l|]; [|done]. intros E. exists l. split; [done|].
  destruct (l_state l =? StateReturned); [done|].
  destruct (l_state l =? StateQueued); [done|].
  destruct (_ || _) eqn:E3; [|done]. zbool; auto.
Qed.

Lemma inv_do op p : inv (skeleton p) → inv (skeleton (pool_do op p).1).
Proof.
  intros I. destruct (loud op) eqn:L; [|by rewrite skeleton_quiet].
  destruct op as [capacity context e|handle now| | | | | | | | |]; try done; cbn [pool_do].
  - destruct (acquire capacity context e p) as [p' [h|err]] eqn:A; cbn.
    + apply acquire_skeleton in A as (_ & b & class & k1 & F & ->). by eapply inv_push.
    + apply acquire_error in A as [-> _]. done.
  - destruct (Release handle now p) as [p' [err|]] eqn:R; cbn.
    + apply Release_error in R as [-> _]. done.
    + destruct handle as [h|]; [|done].
      destruct (Release_live _ _ _ _ R) as (l & Hl & Hs).
      destruct (lease_block p h l I Hl) as [b Hb]; [destruct Hs as [-> | ->]; done|].
      destruct (Release_skeleton _ _ _ _ _ _ Hl Hb R) as [_ ->].
      apply (inv_give_back _ I h b (shape_of l)); [by apply shapes_lookup|done].
Qed.

Lemma classes_ok_pos previous maxBytes cs :
  0 <= previous → classes_ok previous maxBytes cs = true → Forall (λ s, 0 < s) cs.
Proof.
  revert previous. induction cs as [|c cs IH]; intros previous Hp; [done|]. cbn.
  destruct (_ || _) eqn:E; [done|]. zbool. intros Hok. constructor; [lia|]. apply (IH c); [lia|done].
Qed.

Lemma New_inv c p : New c = Ok p → inv (skeleton p).
Proof.
  unfold New. destruct (normalized c) as [c'|] eqn:E; [|done]. cbn. intros [= <-].
  assert (P : Forall (λ s, 0 < s) (Classes c')).
  { unfold normalized in E. repeat (apply bind_Ok in E as (? & ?%guard_Ok & E)).
    injection E as <-. eapply (classes_ok_pos 0); [done|]. by apply negb_false_iff. }
  assert (S : stored (map (λ s, mkSlab s [] 0 0 0 0) (Classes c')) = []).
  { clear. unfold stored. by induction (Classes c'). }
  constructor; cbn; try done.
  - rewrite map_map. apply map_id.
  - unfold stored in *. rewrite S. constructor.
  - intros c0 b (s & -> & _)%list_elem_of_fmap. cbn. by rewrite elem_of_nil.
  - intros ci c0. rewrite list_lookup_fmap. destruct (Classes c' !! ci); [|done].
    by intros [= <-].
Qed.

Lemma reach_inv s : pool_reach s → inv (skeleton s.1).
Proof.
  revert s. apply reach_invariant.
  - intros s (c & H & _). by apply New_inv in H.
  - intros s s' _ I S. destruct S; cbn in *.
    + by apply inv_do.
    + done.
    + by rewrite skeleton_scan_add.
Qed.
