(* ===== verification/PoolSafety.v ===== *)
(** * The life cycle of a lease, and what leases cannot do to each other

    The transition table of the lease states, the blocks a lease owns, the
    isolation of payloads, the counters, and the detection of writes after
    publication. *)

From stdpp Require Import gmap strings list fin_maps sorting.
From Stdlib Require Import ZArith Lia.
From Stdlib.Strings Require Import Byte.
From S2P Require Import Prelude GoLib Pool PoolInv.

(** ** Effects of one operation *)

(** The lease an operation is called on. *)
Definition target (op : pool_op) : option nat :=
  match op with
  | DoRelease handle _ => handle
  | DoMarkQueued h | DoRollbackQueued h | DoMarkInFlight h | DoResize h _ | DoAppend h _
  | DoSetBytes h _ | DoSetAuditContext h _ => Some h
  | DoAcquire _ _ _ | DoPoke _ _ _ | DoClose => None
  end.

(** The states of the lease before and after an operation that changes it. *)
Definition transition (op : pool_op) (s s' : Z) : Prop :=
  match op with
  | DoMarkQueued _ => s = StateBorrowed ∧ s' = StateQueued
  | DoRollbackQueued _ => s = StateQueued ∧ s' = StateBorrowed
  | DoMarkInFlight _ => s = StateQueued ∧ s' = StateInFlight
  | DoRelease _ _ => (s = StateBorrowed ∨ s = StateInFlight) ∧ s' = StateReturned
  | DoResize _ _ | DoAppend _ _ | DoSetBytes _ _ => s = StateBorrowed ∧ s' = StateBorrowed
  | _ => False
  end.

(** What an operation may do to the lease it is called on. *)
Record evolves (p : BytePool) (op : pool_op) (l l' : Lease) : Prop := {
  ev_id : l_id l' = l_id l;
  ev_class : l_class l' = l_class l;
  ev_tracked : l_tracked l' = l_tracked l;
  ev_deadline : l_deadline l' = l_deadline l;
  ev_mutated : l_mutated l' = l_mutated l ∨ l_state l' = StateInFlight ∨ l_state l' = StateReturned;
  ev_state : transition op (l_state l) (l_state l');
  ev_block : l_block l' = if l_state l' =? StateReturned then None else l_block l;
  ev_length : l_length l' = l_length l ∨ l_length l' = 0 ∨
              0 <= l_length l' <= Lease_Capacity p l ∨
              ∃ d : list byte, l_length l' = l_length l + len d ∧ len d <= Lease_Capacity p l - l_length l
}.

Inductive effect (op : pool_op) (p : BytePool) (ls : list Lease) : Prop :=
| effect_none : ls = leases p → effect op p ls
| effect_new l : target op = None → ls = leases p ++ [l] → l_state l = StateBorrowed →
    l_length l = 0 → l_mutated l = false →
    l_tracked l = shouldTrack (config p) (inc (borrowed p)) → effect op p ls
| effect_on h l l' : target op = Some h → leases p !! h = Some l → ls = <[h := l']> (leases p) →
    evolves p op l l' → effect op p ls.

Lemma cas_leases h old new p p' :
  cas_state h old new p = Some p' →
  ∃ l, leases p !! h = Some l ∧ l_state l = old ∧
    leases p' = <[h := l <| l_state := new |>]> (leases p).
Proof.
  intros (l & Hl & Hs & ->)%cas_state_Some. exists l. split_and!; try done.
  cbn. by rewrite (alter_insert' _ _ _ l).
Qed.

Lemma state_error_leases h p : leases (state_error h p).1 = leases p.
Proof. unfold state_error. by destruct (_ !! _). Qed.

(** The quantities of [Release] before the state change. *)
Lemma Release_leases h now p p' l :
  leases p !! h = Some l → Release (Some h) now p = (p', None) →
  ∃ l', leases p' = <[h := l']> (leases p) ∧ evolves p (DoRelease (Some h) now) l l'.
Proof.
  intros Hl R. destruct (Release_live _ _ _ _ R) as (l0 & Hl0 & Hs). simplify_eq.
  unfold Release in R. rewrite Hl in R.
  set (p0 := if l_state l =? StateInFlight then _ else _) in R.
  assert (L0 : leases p0 = leases p ∨ leases p0 = alter (λ l, l <| l_mutated := true |>) h (leases p)).
  { subst p0. destruct (l_state l =? StateInFlight); [apply detect_leases|auto]. }
  clearbody p0.
  destruct (l_state l =? StateReturned) eqn:E1; [done|].
  destruct (l_state l =? StateQueued) eqn:E2; [done|].
  destruct (_ || _) eqn:E3; [|done].
  set (p1 := if l_tracked l then _ else _) in R.
  assert (L1 : leases p1 = alter (λ l, l <| l_state := StateReturned |>) h (leases p0)).
  { subst p1. destruct (l_tracked l); [apply finalize_same|done]. }
  clearbody p1. injection R as <-. clear E1 E2 E3.
  destruct (l_class l >=? 0), (l_block l), L0 as [L0|L0];
    (eexists; split;
     [cbn; rewrite L1, L0, ?list_alter_compose'; by apply alter_insert'
     |constructor; cbn; auto 10]).
Qed.

Lemma MarkQueued_ok h p p' :
  MarkQueued h p = (p', None) →
  ∃ l, leases p !! h = Some l ∧ l_state l = StateBorrowed ∧
    p' = p <| leases := <[h := l <| l_state := StateQueued |>
      <| l_checksum ::= λ c, if l_tracked l then ChecksumIEEE (Payload p l) else c |>]> (leases p) |>.
Proof.
  unfold MarkQueued, cas_state. destruct (leases p !! h) as [l|] eqn:Hl;
    [|unfold state_error; by rewrite Hl].
  destruct (l_state l =? StateBorrowed) eqn:Hs; [|unfold state_error; by rewrite Hl]. zbool.
  unfold on_lease. cbn. rewrite list_lookup_alter_eq, Hl. cbn. intros E. exists l.
  split_and!; [done|done|].
  destruct (l_tracked l) eqn:Ht; injection E as <-;
    rewrite ?list_alter_compose', (alter_insert' _ _ _ l) by done.
  - unfold Payload, block_data. cbn. by rewrite Hs, Ht.
  - by rewrite Ht.
Qed.

Lemma MarkQueued_error h p p' err : MarkQueued h p = (p', Some err) → leases p' = leases p.
Proof.
  unfold MarkQueued. destruct (cas_state _ _ _ _) as [p1|] eqn:E.
  - destruct (leases p1 !! h); [|done]. by destruct_ifs.
  - intros H. by rewrite <- (state_error_leases h p), H.
Qed.

Lemma do_effect op p : effect op p (leases (pool_do op p).1).
Proof.
  destruct op as [cap ctx e|handle now|h|h|h|h n|h d|h d|h c|b i x|]; cbn [pool_do];
    try (by apply effect_none).
  - destruct (acquire cap ctx e p) as [p' [h|err]] eqn:A; cbn;
      [|apply acquire_error in A as [_ ->]; by apply effect_none].
    unfold acquire in A. destruct_ifs; try done.
    all: destruct (take_block cap (e_pick e) p) as [[b class] p1] eqn:T;
      apply take_block_fetch in T as (F & Hl & _); apply fetch_kept in F as (Ec & _ & Eb & _);
      cbn in A, Ec, Eb; destruct (inc (nextID p1) =? 0); cbn in A; rewrite Ec, Eb in A;
      destruct (shouldTrack _ _) eqn:S; injection A as <- _; cbn; rewrite Hl; by eapply effect_new.
  - destruct (Release handle now p) as [p' [err|]] eqn:R; cbn.
    + apply Release_error in R as [_ ->]. by apply effect_none.
    + destruct handle as [h|]; [|done]. destruct (Release_live _ _ _ _ R) as (l & Hl & _).
      destruct (Release_leases _ _ _ _ _ Hl R) as (l' & -> & E). by eapply effect_on.
  - destruct (MarkQueued h p) as [p' [err|]] eqn:E; cbn.
    + apply MarkQueued_error in E as ->. by apply effect_none.
    + apply MarkQueued_ok in E as (l & Hl & Hs & ->). cbn.
      eapply effect_on; [done|done|done|]. constructor; cbn; auto.
  - unfold RollbackQueued. destruct (cas_state _ _ _ _) as [p'|] eqn:E;
      [|rewrite state_error_leases; by apply effect_none].
    apply cas_leases in E as (l & Hl & Hs & El). cbn. rewrite El.
    eapply effect_on; [done|done|done|]. constructor; cbn; auto.
  - unfold MarkInFlight. destruct (cas_state _ _ _ _) as [p'|] eqn:E;
      [|rewrite state_error_leases; by apply effect_none].
    apply cas_leases in E as (l & Hl & Hs & El).
    pose proof (detect_leases h p') as D. destruct (detectMutation h p') as [p'' m]. cbn in *.
    rewrite El, (alter_insert' _ _ _ (l <| l_state := StateInFlight |>)), list_insert_insert_eq in D
      by (rewrite list_lookup_insert_eq; [done|by apply lookup_lt_Some in Hl]).
    destruct D as [-> | ->]; (eapply effect_on; [done|done|done|]; constructor; cbn; auto).
  - unfold Resize. destruct (borrowed_lease h p) as [l|] eqn:E; [|by apply effect_none].
    apply borrowed_lease_Some in E as [Hl Hs]. destruct_ifs; [by apply effect_none|]. zbool.
    cbn. rewrite (alter_insert' _ _ _ l) by done.
    eapply effect_on; [done|done|done|]. constructor; cbn; rewrite ?Hs; auto.
  - unfold Append. destruct (borrowed_lease h p) as [l|] eqn:E; [|by apply effect_none].
    apply borrowed_lease_Some in E as [Hl Hs]. destruct_ifs; [by apply effect_none|]. zbool.
    unfold write_block. destruct (l_block l) eqn:Hb; cbn; rewrite (alter_insert' _ _ _ l) by done;
      (eapply effect_on; [done|done|done|]; constructor; cbn; rewrite ?Hs, ?Hb; eauto 10).
  - unfold SetBytes. destruct (borrowed_lease h p) as [l|] eqn:E; [|by apply effect_none].
    apply borrowed_lease_Some in E as [Hl Hs]. destruct_ifs; [by apply effect_none|]. zbool.
    pose proof (len_nonneg d).
    unfold write_block. destruct (l_block l) eqn:Hb; cbn; rewrite (alter_insert' _ _ _ l) by done;
      (eapply effect_on; [done|done|done|]; constructor; cbn; rewrite ?Hs, ?Hb; auto 10).
  - unfold SetAuditContext. destruct (borrowed_lease h p); [|by apply effect_none].
    destruct_ifs; by apply effect_none.
Qed.

(** The block an operation may write: the one poked, or that of the borrowed
    lease it is called on. *)
Definition writes (op : pool_op) (p : BytePool) (b : nat) : Prop :=
  (∃ i x, op = DoPoke b i x) ∨
  ∃ h l, target op = Some h ∧ leases p !! h = Some l ∧ l_state l = StateBorrowed ∧ l_block l = Some b.

Lemma write_block_other l off data p b :
  l_block l ≠ Some b → blocks (write_block l off data p) !! b = blocks p !! b.
Proof.
  unfold write_block. destruct (l_block l) as [b'|]; [|done]. intros H. cbn.
  rewrite list_lookup_alter_ne; [done|congruence].
Qed.

Lemma take_block_blocks capacity pick p b0 class p1 b d :
  take_block capacity pick p = (b0, class, p1) →
  blocks p !! b = Some d → blocks p1 !! b = Some d.
Proof.
  unfold take_block. intros T Hd.
  destruct (classFor capacity p); [destruct (store_Get _ _) as [[]|]|]; cbn in T; simplify_eq;
    cbn; rewrite ?lookup_app, ?Hd; done.
Qed.

Lemma detect_blocks h p : blocks (detectMutation h p).1 = blocks p.
Proof. unfold detectMutation. destruct (leases p !! h); [|done]. by destruct_ifs. Qed.

Lemma cas_blocks h old new p p' : cas_state h old new p = Some p' → blocks p' = blocks p.
Proof. by intros (l & _ & _ & ->)%cas_state_Some. Qed.

Lemma state_error_blocks h p : blocks (state_error h p).1 = blocks p.
Proof. unfold state_error. by destruct (_ !! _). Qed.

Lemma Release_blocks handle now p : blocks (Release handle now p).1 = blocks p.
Proof.
  unfold Release. destruct handle as [h|]; [|done]. destruct (leases p !! h) as [l|]; [|done].
  set (p0 := if l_state l =? StateInFlight then _ else _).
  assert (B0 : blocks p0 = blocks p) by (subst p0; destruct_ifs; [apply detect_blocks|done]).
  clearbody p0. rewrite <- B0.
  destruct (_ =? StateReturned); [done|]. destruct (_ =? StateQueued); [done|].
  destruct (_ || _); [|done]. cbn.
  set (p1 := if l_tracked l then _ else _).
  assert (B1 : blocks p1 = blocks p0).
  { subst p1. destruct (l_tracked l); [|done]. rewrite (proj1 (proj2 (proj2 (finalize_same _ _ _)))).
    done. }
  clearbody p1. rewrite <- B1. destruct (_ >=? 0); [|done]. by destruct (l_block l).
Qed.

Lemma do_blocks op p b d :
  blocks p !! b = Some d → blocks (pool_do op p).1 !! b = Some d ∨ writes op p b.
Proof.
  intros Hd. destruct op as [cap ctx e|handle now|h|h|h|h n|h da|h da|h c|b' i x|];
    cbn [pool_do]; auto.
  - unfold acquire. destruct_ifs; auto; left.
    all: destruct (take_block cap (e_pick e) p) as [[b0 class] p1] eqn:T;
      apply take_block_blocks with (b := b) (d := d) in T; [|done]; cbn;
      destruct (inc (nextID p1) =? 0); cbn; by destruct (shouldTrack _ _).
  - left. by rewrite Release_blocks.
  - left. unfold MarkQueued. destruct (cas_state _ _ _ _) as [p'|] eqn:E;
      [|by rewrite state_error_blocks]. apply cas_blocks in E. rewrite <- E in Hd.
    destruct (leases p' !! h); [|done]. by destruct_ifs.
  - left. unfold RollbackQueued. destruct (cas_state _ _ _ _) as [p'|] eqn:E;
      [|by rewrite state_error_blocks]. apply cas_blocks in E. by rewrite <- E in Hd.
  - left. unfold MarkInFlight. destruct (cas_state _ _ _ _) as [p'|] eqn:E;
      [|by rewrite state_error_blocks]. apply cas_blocks in E.
    pose proof (detect_blocks h p') as D. destruct (detectMutation h p'). cbn in *. congruence.
  - left. unfold Resize. destruct (borrowed_lease h p); [|done]. by destruct_ifs.
  - unfold Append. destruct (borrowed_lease h p) as [l|] eqn:E; [|auto]. destruct_ifs; [auto|].
    apply borrowed_lease_Some in E as [Hl Hs]. cbn.
    destruct (decide (l_block l = Some b)); [right; right; by exists h, l|].
    left. by rewrite write_block_other.
  - unfold SetBytes. destruct (borrowed_lease h p) as [l|] eqn:E; [|auto]. destruct_ifs; [auto|].
    apply borrowed_lease_Some in E as [Hl Hs]. cbn.
    destruct (decide (l_block l = Some b)); [right; right; by exists h, l|].
    left. by rewrite write_block_other.
  - left. unfold SetAuditContext. destruct (borrowed_lease h p); [|done]. by destruct_ifs.
  - destruct (decide (b' = b)) as [->|Hne]; [right; left; eauto|].
    left. cbn. by rewrite list_lookup_alter_ne.
Qed.

(** ** Blocks have one owner *)

Lemma owned_lookup ss i s b :
  ss !! i = Some s → s_block s = Some b → b ∈ owned ss.
Proof.
  intros Hs Hb. apply list_elem_of_omap. exists s. split; [|done].
  by apply list_elem_of_lookup_2 in Hs.
Qed.

Lemma owned_inj ss i j s s' b :
  NoDup (owned ss) → ss !! i = Some s → ss !! j = Some s' →
  s_block s = Some b → s_block s' = Some b → i = j.
Proof.
  revert i j. induction ss as [|s0 ss IH]; intros [|i] [|j] N Hi Hj Hb Hb'; simplify_eq/=; try done.
  - rewrite Hb in N. apply NoDup_cons in N as [N _]. destruct N. by eapply owned_lookup.
  - rewrite Hb' in N. apply NoDup_cons in N as [N _]. destruct N. by eapply owned_lookup.
  - f_equal. eapply IH; try done. destruct (s_block s0); [|done]. by apply NoDup_cons in N as [_ N].
Qed.

Lemma one_owner p h k l l' b :
  inv (skeleton p) → leases p !! h = Some l → leases p !! k = Some l' →
  l_block l = Some b → l_block l' = Some b → h = k.
Proof.
  intros I Hl Hl' Hb Hb'. pose proof (inv_nodup _ I) as N. apply NoDup_app in N as (N & _).
  eapply (owned_inj _ h k); [done|by apply shapes_lookup|by apply shapes_lookup|done|done].
Qed.

Lemma not_stored p h l b c :
  inv (skeleton p) → leases p !! h = Some l → l_block l = Some b → c ∈ classes p → b ∉ store c.
Proof.
  intros I Hl Hb Hc Hs. pose proof (inv_nodup _ I) as N. apply NoDup_app in N as (_ & N & _).
  apply (N b); [eapply owned_lookup; [by apply shapes_lookup|done]|].
  unfold stored. cbn. rewrite list_elem_of_In, in_concat. exists (store c).
  split; [apply in_map; by apply list_elem_of_In|by apply list_elem_of_In].
Qed.

(** ** Committed lengths *)

Definition lengths_ok (p : BytePool) : Prop :=
  ∀ h l, leases p !! h = Some l →
    StateBorrowed <= l_state l <= StateReturned ∧ 0 <= l_length l ∧
    (l_state l ≠ StateReturned → l_length l <= Lease_Capacity p l).

Lemma capacity_block p l b : l_block l = Some b → Lease_Capacity p l = len (default [] (blocks p !! b)).
Proof. intros H. unfold Lease_Capacity, block_data. by rewrite H. Qed.

Lemma Lease_Capacity_mono p p' l :
  inv (skeleton p) → (∃ h, leases p !! h = Some l) →
  (∀ b n, k_sizes (skeleton p) !! b = Some n → k_sizes (skeleton p') !! b = Some n) →
  Lease_Capacity p' l = Lease_Capacity p l.
Proof.
  intros I (h & Hl) M. unfold Lease_Capacity, block_data. destruct (l_block l) as [b|] eqn:Hb; [|done].
  pose proof (inv_shapes _ I) as F. rewrite Forall_lookup in F.
  specialize (F h _ (shapes_lookup _ _ _ Hl)). unfold shape_ok in F. cbn in F. rewrite Hb in F.
  destruct F as (_ & n & Hn & _). pose proof (M b n Hn) as Hn'. cbn in Hn, Hn'.
  rewrite list_lookup_fmap in Hn, Hn'.
  destruct (blocks p !! b) as [d|], (blocks p' !! b) as [d'|]; try done. cbn in *.
  injection Hn as <-. injection Hn' as Hn'. lia.
Qed.

Lemma do_sizes op p b n :
  inv (skeleton p) →
  k_sizes (skeleton p) !! b = Some n → k_sizes (skeleton (pool_do op p).1) !! b = Some n.
Proof.
  intros I Hn. destruct (loud op) eqn:L; [|by rewrite skeleton_quiet].
  destruct op as [cap ctx e|handle now| | | | | | | | |]; try done; cbn [pool_do].
  - destruct (acquire cap ctx e p) as [p' [h|err]] eqn:A; cbn [acquired fst].
    + apply acquire_skeleton in A as (_ & b' & class & k1 & F & ->). cbn.
      apply fetch_same in F as (_ & _ & _ & _ & _ & [->|[m ->]]); [done|].
      by apply lookup_app_l_Some.
    + by apply acquire_error in A as [-> _].
  - destruct (Release handle now p) as [p' [err|]] eqn:R; cbn [fst].
    + by apply Release_error in R as [-> _].
    + destruct handle as [h|]; [|done].
      destruct (Release_live _ _ _ _ R) as (l & Hl & Hs).
      destruct (lease_block p h l I Hl) as [b' Hb]; [destruct Hs as [-> | ->]; done|].
      by destruct (Release_skeleton _ _ _ _ _ _ Hl Hb R) as [_ ->].
Qed.

Lemma do_capacity op p h l :
  inv (skeleton p) → leases p !! h = Some l →
  Lease_Capacity (pool_do op p).1 l = Lease_Capacity p l.
Proof. intros I Hl. apply Lease_Capacity_mono; eauto. intros. by apply do_sizes. Qed.

Lemma transition_range op s s' :
  transition op s s' → StateBorrowed <= s' <= StateReturned ∧ s ≠ StateReturned.
Proof. destruct op; cbn; intros; go; unfold StateBorrowed, StateReturned, StateQueued, StateInFlight in *; lia. Qed.

Lemma lengths_ok_do op p : inv (skeleton p) → lengths_ok p → lengths_ok (pool_do op p).1.
Proof.
  intros I L h l Hl. destruct (do_effect op p) as [E|l0 _ E Hs0 Hn0|h0 l0 l1 _ Hl0 E V].
  - rewrite E in Hl. destruct (L h l Hl) as (? & ? & ?). rewrite (do_capacity _ _ h) by done. auto.
  - rewrite E in Hl. apply lookup_app_Some in Hl as [Hl|[_ Hl]].
    + destruct (L h l Hl) as (? & ? & ?). rewrite (do_capacity _ _ h) by done. auto.
    + apply list_lookup_singleton_Some in Hl as [_ <-]. rewrite Hs0, Hn0.
      unfold StateBorrowed, StateReturned. split_and!; [lia..|]. intros _. apply len_nonneg.
  - rewrite E in Hl. destruct (decide (h0 = h)) as [<-|Hne];
      [|rewrite list_lookup_insert_ne in Hl by done; destruct (L h l Hl) as (? & ? & ?);
        rewrite (do_capacity _ _ h) by done; auto].
    rewrite list_lookup_insert_eq in Hl by (by apply lookup_lt_Some in Hl0). simplify_eq.
    destruct (L h0 l0 Hl0) as (R0 & N0 & C0). destruct V as [_ _ _ _ _ T B N].
    destruct (transition_range _ _ _ T) as [R1 NR]. specialize (C0 NR).
    assert (CE : l_state l ≠ StateReturned → Lease_Capacity (pool_do op p).1 l = Lease_Capacity p l0).
    { intros NR1. rewrite (proj2 (Z.eqb_neq _ _) NR1) in B. rewrite <- (do_capacity op p h0 l0) by done.
      unfold Lease_Capacity, block_data. by rewrite B. }
    pose proof (len_nonneg (block_data p l0)).
    split; [done|]. split.
    + destruct N as [->|[->|[|(d & -> & _)]]]; [lia..|]. pose proof (len_nonneg d). lia.
    + intros NR1. rewrite CE by done. unfold Lease_Capacity in *.
      destruct N as [->|[->|[|(d & -> & ?)]]]; lia.
Qed.

Lemma reach_lengths s : pool_reach s → lengths_ok s.1.
Proof.
  revert s. apply reach_invariant.
  - intros s (c & H & _). unfold New in H. apply bind_Ok in H as (c' & _ & [= <-]). by intros h l.
  - intros s s' R L S. apply reach_inv in R. destruct S; cbn in *.
    + by apply lengths_ok_do.
    + exact L.
    + unfold scan_add. destruct (_ =? 0); exact L.
Qed.


(** ** Operations on other leases *)

(** The operation is not on lease [k] and not a store into its block. *)
Definition undisturbing (k : nat) (l : Lease) (op : pool_op) : Prop :=
  target op ≠ Some k ∧ ∀ b i x, op = DoPoke b i x → l_block l ≠ Some b.

Lemma do_other op p k l :
  leases p !! k = Some l → target op ≠ Some k → leases (pool_do op p).1 !! k = Some l.
Proof.
  intros Hl T. destruct (do_effect op p) as [->|l0 _ -> _ _|h0 l0 l1 T0 _ -> _]; [done| |].
  - by apply lookup_app_l_Some.
  - rewrite list_lookup_insert_ne; [done|congruence].
Qed.

Lemma do_undisturbed op p k l :
  inv (skeleton p) → leases p !! k = Some l → undisturbing k l op →
  leases (pool_do op p).1 !! k = Some l ∧ block_data (pool_do op p).1 l = block_data p l.
Proof.
  intros I Hl [T N]. split; [by apply do_other|].
  unfold block_data. destruct (l_block l) as [b|] eqn:Hb; [|done].
  assert (is_Some (blocks p !! b)) as [d Hd].
  { pose proof (inv_shapes _ I) as F. rewrite Forall_lookup in F.
    specialize (F k _ (shapes_lookup _ _ _ Hl)). unfold shape_ok in F. cbn in F. rewrite Hb in F.
    destruct F as (_ & n & Hn & _). rewrite list_lookup_fmap in Hn.
    destruct (blocks p !! b); [eauto|done]. }
  destruct (do_blocks op p b d Hd) as [->|[(i & x & ->)|(h & l' & T' & Hl' & _ & Hb')]].
  - by rewrite Hd.
  - by destruct (N b i x).
  - assert (h = k) by (by eapply one_owner). congruence.
Qed.

Lemma Payload_block p p' l : block_data p' l = block_data p l → Payload p' l = Payload p l.
Proof. unfold Payload. by intros ->. Qed.

(** A sequence of calls. *)
Definition run (ops : list pool_op) (p : BytePool) : BytePool :=
  foldl (λ p op, (pool_do op p).1) p ops.

Lemma run_undisturbed ops p k l :
  inv (skeleton p) → leases p !! k = Some l → Forall (undisturbing k l) ops →
  inv (skeleton (run ops p)) ∧ leases (run ops p) !! k = Some l ∧
  block_data (run ops p) l = block_data p l.
Proof.
  unfold run. intros I Hl F. revert p I Hl. induction F as [|op ops N F IH]; intros p I Hl; [done|].
  cbn. destruct (do_undisturbed op p k l I Hl N) as [Hl' B]. rewrite <- B.
  apply IH; [by apply inv_do|done].
Qed.

Lemma reach_run c p ops : New c = Ok p → pool_reach (run ops p, []).
Proof.
  intros N. unfold run. induction ops as [|op ops IH] using rev_ind.
  - apply reach_init. by exists c.
  - rewrite foldl_app. cbn. eapply reach_step; [exact IH|]. apply step_do.
Qed.

(** ** Mutation detection *)

Lemma MarkInFlight_queued k p l :
  leases p !! k = Some l → l_state l = StateQueued →
  let same := negb (l_tracked l) || (ChecksumIEEE (Payload p l) =? l_checksum l) in
  (MarkInFlight k p).2 = (if same then None else Some ErrPayloadModified) ∧
  useAfterPublish (MarkInFlight k p).1 =
    (if same || l_mutated l then useAfterPublish p else inc (useAfterPublish p)).
Proof.
  intros Hl Hs. unfold MarkInFlight, cas_state, detectMutation, on_lease. rewrite Hl, Hs, Z.eqb_refl. cbn.
  rewrite list_lookup_alter_eq, Hl. cbn.
  assert (E : ∀ ls, Payload (p <| leases := ls |>) (l <| l_state := StateInFlight |>) = Payload p l).
  { intros ls. unfold Payload, block_data. cbn. by rewrite Hs. }
  unfold update_with, Lease_fields in E. cbn in E. rewrite E.
  destruct (l_tracked l); cbn; [|done].
  destruct (ChecksumIEEE (Payload p l) =? l_checksum l); [done|]. by destruct (l_mutated l).
Qed.

Lemma checksum_insert (d : list byte) n i x :
  (i < n)%nat → (i < length d)%nat → d !! i ≠ Some x →
  ChecksumIEEE (take n (<[i := x]> d)) ≠ ChecksumIEEE (take n d).
Proof.
  intros Hi Hd Hx E. destruct (d !! i) as [y|] eqn:Hy; [|apply lookup_ge_None in Hy; lia].
  apply take_drop_middle in Hy as D. rewrite <- D in E.
  rewrite insert_app_r_alt in E by (rewrite length_take; lia).
  rewrite length_take, Nat.min_l, Nat.sub_diag in E by lia. cbn [insert list_insert] in E.
  rewrite !take_app, !take_take, length_take, (Nat.min_l i) in E by lia.
  destruct (n - i)%nat as [|m] eqn:M; [lia|]. cbn [take] in E.
  apply crc_update_one_byte in E; [congruence|apply w32_0].
Qed.

Lemma live_iff l : s_live (shape_of l) = true ↔ l_state l ≠ StateReturned.
Proof. unfold shape_of, live. cbn. by rewrite negb_true_iff, Z.eqb_neq. Qed.

Lemma live_count_leases ls :
  len (base.filter (λ l, l_state l ≠ StateReturned) ls) = live_count (map shape_of ls).
Proof.
  unfold live_count. induction ls as [|l ls IH]; [done|]. cbn [map]. rewrite !filter_cons.
  pose proof (live_iff l). repeat case_decide; cbn [length]; (tauto || lia).
Qed.

Lemma class_count_leases ci ls :
  len (base.filter (λ l, l_class l = Z.of_nat ci)
         (base.filter (λ l, l_state l ≠ StateReturned) ls)) = class_count ci (map shape_of ls).
Proof.
  unfold class_count. induction ls as [|l ls IH]; [done|]. cbn [map]. rewrite !filter_cons.
  pose proof (live_iff l). change (s_class (shape_of l)) with (l_class l).
  repeat case_decide; rewrite ?filter_cons; repeat case_decide; cbn [length]; (tauto || lia).
Qed.

(** ** Properties *)

(** C10. Isolation.  In every reachable pool, no operation that is not called on
    a live lease, and no store through a view of another block, changes the
    lease's state or its payload: acquisitions, releases, writes, publications
    and mutation checks of all other leases, scans and Close leave its bytes
    alone, although blocks are recycled between leases. *)
Theorem pool_isolation s op k l :
  pool_reach s → leases s.1 !! k = Some l → l_state l ≠ StateReturned → undisturbing k l op →
  leases (pool_do op s.1).1 !! k = Some l ∧
  Payload (pool_do op s.1).1 l = Payload s.1 l ∧
  Lease_Capacity (pool_do op s.1).1 l = Lease_Capacity s.1 l.
Proof.
  intros R Hl _ U. apply reach_inv in R. destruct (do_undisturbed _ _ _ _ R Hl U) as [H B].
  split; [done|]. split; [by apply Payload_block|]. unfold Lease_Capacity. by rewrite B.
Qed.

(** C17. Ownership.  In every reachable pool a returned lease has no block, and
    a live one has a block of its class's size that contains its committed
    length, that no other lease has, and that is in no store. *)
Theorem pool_ownership s h l :
  pool_reach s → leases s.1 !! h = Some l →
  (l_state l = StateReturned ∧ l_block l = None) ∨
  (l_state l = StateBorrowed ∨ l_state l = StateQueued ∨ l_state l = StateInFlight) ∧
  ∃ b d, l_block l = Some b ∧ blocks s.1 !! b = Some d ∧
    0 <= l_length l <= len d ∧
    (l_class l = -1 ∨ Classes (config s.1) !! Z.to_nat (l_class l) = Some (len d)) ∧
    (∀ k l', leases s.1 !! k = Some l' → l_block l' = Some b → k = h) ∧
    (∀ c, c ∈ classes s.1 → b ∉ store c).
Proof.
  intros R Hl. pose proof (reach_inv _ R) as I. destruct (reach_lengths _ R h l Hl) as (S & N & C).
  pose proof (inv_shapes _ I) as F. rewrite Forall_lookup in F.
  specialize (F h _ (shapes_lookup _ _ _ Hl)). unfold shape_ok in F. cbn in F.
  destruct (l_block l) as [b|] eqn:Hb.
  - right. destruct F as (Lv & n & Hn & K). unfold live in Lv. zbool.
    rewrite list_lookup_fmap in Hn. destruct (blocks s.1 !! b) as [d|] eqn:Hd; [|done].
    injection Hn as <-. rewrite (capacity_block _ _ b Hb), Hd in C.
    unfold StateBorrowed, StateQueued, StateInFlight, StateReturned in *.
    split; [lia|]. exists b, d. split_and!; try done; [by apply C| |..].
    + destruct K as [K|[_ K]]; auto.
    + intros k l' Hl' Hb'. by eapply one_owner.
    + intros c Hc. by eapply not_stored.
  - left. split; [|done]. unfold live in F. by zbool.
Qed.

(** The life cycle: what an operation on a lease in a state gives. *)
Definition lifecycle (op : pool_op) (s : Z) : option Z :=
  match op with
  | DoMarkQueued _ => if s =? StateBorrowed then Some StateQueued else None
  | DoRollbackQueued _ => if s =? StateQueued then Some StateBorrowed else None
  | DoMarkInFlight _ => if s =? StateQueued then Some StateInFlight else None
  | DoRelease _ _ =>
      if (s =? StateBorrowed) || (s =? StateInFlight) then Some StateReturned else None
  | _ => if s =? StateBorrowed then Some StateBorrowed else None
  end.

(** The error of a transition that is refused. *)
Definition refusal (op : pool_op) (s : Z) : error :=
  match op with
  | DoRelease _ _ => if s =? StateReturned then ErrDoubleReturn else ErrInvalidState
  | _ => ErrInvalidState
  end.

(** The errors of an operation in a state that allows it. *)
Definition allowed_error (op : pool_op) (e : option error) : Prop :=
  match op with
  | DoMarkInFlight _ => e = None ∨ e = Some ErrPayloadModified
  | DoResize _ _ | DoAppend _ _ | DoSetBytes _ _ => e = None ∨ e = Some ErrCapacity
  | _ => e = None
  end.

Lemma refused op p h l :
  target op = Some h → leases p !! h = Some l → StateBorrowed <= l_state l <= StateReturned →
  lifecycle op (l_state l) = None →
  (pool_do op p).2 = Some (refusal op (l_state l)) ∧
  leases (pool_do op p).1 = leases p ∧ blocks (pool_do op p).1 = blocks p.
Proof.
  intros T Hl R. destruct op; cbn in T |- *; try done; injection T as <- || subst handle;
    destruct_ifs; intros E; try done; zbool.
  - unfold Release. rewrite Hl. by ztest.
  - unfold Release. rewrite Hl. unfold StateBorrowed, StateQueued, StateInFlight, StateReturned in *.
    ztest. done.
  - unfold MarkQueued, cas_state, state_error. rewrite Hl. by ztest.
  - unfold RollbackQueued, cas_state, state_error. rewrite Hl. by ztest.
  - unfold MarkInFlight, cas_state, state_error. rewrite Hl. by ztest.
  - unfold Resize, borrowed_lease. rewrite Hl. by ztest.
  - unfold Append, borrowed_lease. rewrite Hl. by ztest.
  - unfold SetBytes, borrowed_lease. rewrite Hl. by ztest.
  - unfold SetAuditContext, borrowed_lease. rewrite Hl. by ztest.
Qed.

Lemma lookup_alter_lease (f : Lease → Lease) h (ls : list Lease) l :
  ls !! h = Some l → alter f h ls !! h = Some (f l).
Proof. intros H. by rewrite list_lookup_alter_eq, H. Qed.

(** The operations that write the lease. *)
Lemma accepted_content op p h l :
  target op = Some h → leases p !! h = Some l → l_state l = StateBorrowed →
  match op with DoResize _ _ | DoAppend _ _ | DoSetBytes _ _ | DoSetAuditContext _ _ => True
  | _ => False end →
  allowed_error op (pool_do op p).2 ∧
  ∃ l', leases (pool_do op p).1 !! h = Some l' ∧ l_state l' = StateBorrowed ∧ l_id l' = l_id l.
Proof.
  intros T Hl S K.
  destruct op; cbn in T, K |- *; try done; injection T as <-;
    unfold Resize, Append, SetBytes, SetAuditContext, borrowed_lease;
    rewrite Hl, S, Z.eqb_refl; destruct_ifs; cbn; (split; [by auto|]);
    unfold write_block; try destruct (l_block l); cbn;
    (eexists; split; [first [exact Hl | by apply (lookup_alter_lease _ _ _ _ Hl)]|done]).
Qed.

Lemma Release_accepts h now p l :
  leases p !! h = Some l → l_state l = StateBorrowed ∨ l_state l = StateInFlight →
  (Release (Some h) now p).2 = None.
Proof. unfold Release. intros -> [-> | ->]; done. Qed.

Lemma accepted op p h l s' :
  target op = Some h → leases p !! h = Some l → lifecycle op (l_state l) = Some s' →
  allowed_error op (pool_do op p).2 ∧
  ∃ l', leases (pool_do op p).1 !! h = Some l' ∧ l_state l' = s' ∧ l_id l' = l_id l.
Proof.
  intros T Hl L.
  assert (C := accepted_content op p h l T Hl).
  destruct op as [cap ctx e|handle now|h0|h0|h0|h0 n|h0 d|h0 d|h0 c|b i x|]; cbn in T, L, C |- *;
    try done; simplify_eq; try (destruct (_ || _) eqn:S; [|done]);
    try (destruct (l_state l =? _) eqn:S; [|done]); zbool; simplify_eq; try (by apply C);
    clear C.
  1, 2: destruct (Release (Some h) now p) as [p' err] eqn:R;
    assert (err = None) as -> by (change err with (p', err).2; rewrite <- R;
      eapply Release_accepts; eauto);
    destruct (Release_leases _ _ _ _ _ Hl R) as (l' & E & V); cbn; (split; [done|]); rewrite E;
    exists l'; rewrite list_lookup_insert_eq by (by apply lookup_lt_Some in Hl);
    split_and!; [done|apply (ev_state _ _ _ _ V)|apply (ev_id _ _ _ _ V)].
  - destruct (MarkQueued h p) as [p' [err|]] eqn:E.
    + unfold MarkQueued, cas_state, on_lease in E. rewrite Hl, S, Z.eqb_refl in E. cbn in E.
      rewrite list_lookup_alter_eq, Hl in E. cbn in E. by destruct (l_tracked l).
    + apply MarkQueued_ok in E as (l0 & Hl0 & _ & ->). simplify_eq. cbn. split; [done|].
      rewrite list_lookup_insert_eq by (by apply lookup_lt_Some in Hl). by eexists.
  - unfold RollbackQueued, cas_state. rewrite Hl, S, Z.eqb_refl. cbn. split; [done|].
    eexists. split; [by apply lookup_alter_lease|done].
  - unfold MarkInFlight, cas_state. rewrite Hl, S, Z.eqb_refl.
    set (p1 := on_lease h _ p).
    assert (H1 : leases p1 !! h = Some (l <| l_state := StateInFlight |>))
      by (by apply (lookup_alter_lease (λ l, l <| l_state := StateInFlight |>))).
    clearbody p1. pose proof (detect_leases h p1) as D. destruct (detectMutation h p1) as [p2 m]. cbn in D |- *.
    split; [destruct m; auto|]. destruct D as [-> | ->]; [by eexists|].
    eexists. split; [exact (lookup_alter_lease _ _ _ _ H1)|done].
Qed.

(** The life cycle of a lease: BORROWED to QUEUED by MarkQueued, back by
    RollbackQueued, QUEUED to IN_FLIGHT by MarkInFlight, BORROWED or IN_FLIGHT
    to RETURNED by Release, writes in BORROWED only.  An operation the table
    allows moves the lease accordingly; one it does not allow is answered with
    its error and changes no lease: in particular RETURNED is final and a second
    Release is [ErrDoubleReturn]. *)
Theorem lease_lifecycle s op h l :
  pool_reach s → target op = Some h → leases s.1 !! h = Some l →
  match lifecycle op (l_state l) with
  | Some state' =>
      allowed_error op (pool_do op s.1).2 ∧
      ∃ l', leases (pool_do op s.1).1 !! h = Some l' ∧ l_state l' = state' ∧ l_id l' = l_id l
  | None =>
      (pool_do op s.1).2 = Some (refusal op (l_state l)) ∧
      leases (pool_do op s.1).1 = leases s.1 ∧ blocks (pool_do op s.1).1 = blocks s.1
  end.
Proof.
  intros R T Hl. destruct (lifecycle op (l_state l)) as [s'|] eqn:L; [by eapply accepted|].
  destruct (reach_lengths _ R h l Hl) as (S & _). by eapply refused.
Qed.

(** Accounting.  In every reachable pool the counters of Stats are exact
    modulo 2^64: Outstanding is the number of live leases and Borrowed and
    Returned those acquired and released, so that Borrowed = Returned +
    Outstanding; every acquisition is a hit or a miss; and each class's InUse is
    the number of live leases of the class, its hits and misses its Borrowed. *)
Theorem pool_accounting s :
  pool_reach s →
  let st := Pool_Stats s.1 in
  let live_leases := base.filter (λ l, l_state l ≠ StateReturned) (leases s.1) in
  Outstanding st = u64 (len live_leases) ∧
  Borrowed st = u64 (len (leases s.1)) ∧
  Borrowed st = u64 (Returned st + Outstanding st) ∧
  u64 (PoolHits st + PoolMisses st) = Borrowed st ∧
  ∀ ci c, st_Classes st !! ci = Some c →
    cs_InUse c = u64 (len (base.filter (λ l, l_class l = Z.of_nat ci) live_leases)) ∧
    u64 (cs_Hits c + cs_Misses c) = cs_Borrowed c.
Proof.
  intros R. apply reach_inv in R as I. cbn zeta. rewrite live_count_leases.
  destruct I as [_ _ _ _ _ I6 I7 I8 I9 I10]. cbn in *. split_and!; try done.
  - by rewrite I6, length_map.
  - rewrite I6, I7, I8. rewrite u64_add_l, (Z.add_comm _ (u64 _)), u64_add_l. f_equal. lia.
  - intros ci c. rewrite list_lookup_fmap. destruct (classes s.1 !! ci) as [c0|] eqn:E; [|done].
    intros [= <-]. cbn. rewrite class_count_leases. by apply I10.
Qed.

(** What the configuration and the life cycle fix of a lease: the audit mode
    says which leases are tracked, and a modification is only recorded once the
    lease is in flight. *)
Definition audited (p : BytePool) (l : Lease) : Prop :=
  (cfg_AuditMode (config p) = AuditFull → l_tracked l = true) ∧
  (cfg_AuditMode (config p) ≠ AuditFull → cfg_AuditMode (config p) ≠ AuditSampled → l_tracked l = false) ∧
  (l_mutated l = true → l_state l = StateInFlight ∨ l_state l = StateReturned).

Lemma config_do op p : inv (skeleton p) → config (pool_do op p).1 = config p.
Proof.
  intros I. change (k_config (skeleton (pool_do op p).1) = k_config (skeleton p)).
  destruct (loud op) eqn:L; [|by rewrite skeleton_quiet].
  destruct op as [capacity context e|handle now| | | | | | | | |]; try done; cbn [pool_do].
  - destruct (acquire capacity context e p) as [p' [h|err]] eqn:A; cbn [acquired fst].
    + apply acquire_skeleton in A as (_ & b & class & k1 & F & ->).
      by apply fetch_kept in F as (E & _).
    + by apply acquire_error in A as [-> _].
  - destruct (Release handle now p) as [p' [err|]] eqn:R; cbn [fst].
    + by apply Release_error in R as [-> _].
    + destruct handle as [h|]; [|done]. destruct (Release_live _ _ _ _ R) as (l & Hl & Hs).
      destruct (lease_block p h l I Hl) as [b Hb]; [by destruct Hs as [-> | ->]|].
      by destruct (Release_skeleton _ _ _ _ _ _ Hl Hb R) as [_ ->].
Qed.

Lemma audited_do op p :
  inv (skeleton p) → Forall (audited p) (leases p) →
  Forall (audited (pool_do op p).1) (leases (pool_do op p).1).
Proof.
  intros I A.
  enough (Forall (audited p) (leases (pool_do op p).1)) as H.
  { eapply Forall_impl; [exact H|]. intros l. unfold audited. by rewrite config_do. }
  destruct (do_effect op p) as [->|l _ -> Hs _ Hm Ht|h l l' _ Hl -> V]; [done|..].
  - apply Forall_app. split; [done|]. constructor; [|done]. unfold audited.
    rewrite Hm, Ht. unfold shouldTrack. split_and!; [by intros ->| |done].
    intros N1 N2. by destruct (cfg_AuditMode (config p)).
  - apply Forall_insert; [done|]. rewrite Forall_lookup in A. destruct (A _ _ Hl) as (F & O & M).
    unfold audited. rewrite (ev_tracked _ _ _ _ V). split_and!; [done|done|].
    destruct (ev_mutated _ _ _ _ V) as [->|?]; [|done]. intros Hm.
    destruct (M Hm) as [S|S]; pose proof (ev_state _ _ _ _ V) as T; rewrite S in T;
      destruct op; cbn in T; try (by destruct T); destruct T as [_ ->]; auto.
Qed.

Lemma reach_audited s : pool_reach s → Forall (audited s.1) (leases s.1).
Proof.
  revert s. apply reach_invariant.
  - intros s (c & H & _). unfold New in H. apply bind_Ok in H as (c' & _ & [= <-]). constructor.
  - intros s s' R A S. apply reach_inv in R. destruct S; cbn in *.
    + by apply audited_do.
    + exact A.
    + unfold scan_add. destruct (_ =? 0); exact A.
Qed.

Lemma borrowed_audit s k l p1 :
  pool_reach s → leases s.1 !! k = Some l → MarkQueued k s.1 = (p1, None) →
  l_state l = StateBorrowed ∧ l_mutated l = false ∧
  match cfg_AuditMode (config s.1) with
  | AuditFull => l_tracked l = true
  | AuditSampled => True
  | _ => l_tracked l = false
  end.
Proof.
  intros R Hl Q. pose proof (reach_audited _ R) as A. rewrite Forall_lookup in A.
  destruct (A _ _ Hl) as (AF & AO & AM). destruct (MarkQueued_ok _ _ _ Q) as (l0 & Hl0 & Hs & _).
  simplify_eq. split_and!; [done| |by destruct (cfg_AuditMode (config s.1)); auto].
  destruct (l_mutated l); [|done]. rewrite Hs in AM. by destruct AM.
Qed.

(** A queued lease after any calls on others. *)
Lemma queued_published p k l p1 ops :
  inv (skeleton p) → leases p !! k = Some l →
  MarkQueued k p = (p1, None) → Forall (undisturbing k l) ops →
  ∃ lq, leases (run ops p1) !! k = Some lq ∧ l_state lq = StateQueued ∧ l_tracked lq = l_tracked l ∧
    (l_tracked l = true → l_checksum lq = ChecksumIEEE (Payload p l)) ∧ l_mutated lq = l_mutated l ∧
    l_block lq = l_block l ∧ l_length lq = l_length l ∧
    block_data (run ops p1) lq = block_data p l ∧
    Payload p l = take (Z.to_nat (l_length l)) (block_data p l).
Proof.
  intros I Hl Q F. destruct (MarkQueued_ok _ _ _ Q) as (l0 & Hl0 & Hs & E1).
  rewrite Hl in Hl0. injection Hl0 as <-.
  set (lq := l <| l_state := StateQueued |> <| l_checksum ::= λ _, _ |>) in *.
  assert (I1 : inv (skeleton p1)).
  { replace p1 with (pool_do (DoMarkQueued k) p).1 by (cbn; by rewrite Q). by apply inv_do. }
  assert (Hl1 : leases p1 !! k = Some lq).
  { subst p1. cbn. by rewrite list_lookup_insert_eq by (by apply lookup_lt_Some in Hl). }
  destruct (run_undisturbed ops p1 k lq I1 Hl1 F) as (_ & Hl2 & B2).
  exists lq. split_and!; try done.
  - cbn. by intros ->.
  - rewrite B2. by subst p1.
  - unfold Payload. destruct (lease_block p k l I Hl) as [b ->]; [by rewrite Hs|].
    by rewrite Hs, bool_decide_eq_false_2.
Qed.

(** A store into a block. *)
Lemma block_data_poke b i x p l :
  l_block l = Some b → block_data (poke b i x p) l = <[i := x]> (block_data p l).
Proof.
  intros Hb. unfold block_data, poke. rewrite Hb. cbn. rewrite list_lookup_alter_eq.
  by destruct (blocks p !! b).
Qed.

Lemma MarkInFlight_lease k p l l' :
  leases p !! k = Some l → l_state l = StateQueued →
  leases (MarkInFlight k p).1 !! k = Some l' →
  l_block l' = l_block l ∧ l_length l' = l_length l ∧ l_state l' = StateInFlight ∧
  blocks (MarkInFlight k p).1 = blocks p.
Proof.
  intros Hl Hs. unfold MarkInFlight, cas_state. rewrite Hl, Hs, Z.eqb_refl.
  set (p1 := on_lease k _ p).
  assert (H1 : leases p1 !! k = Some (l <| l_state := StateInFlight |>))
    by (by apply (lookup_alter_lease (λ l, l <| l_state := StateInFlight |>))).
  assert (B1 : blocks p1 = blocks p) by done. clearbody p1.
  pose proof (detect_leases k p1) as D. pose proof (detect_blocks k p1) as B.
  destruct (detectMutation k p1) as [p2 m]. cbn [fst] in *.
  destruct D as [-> | ->]; rewrite ?(lookup_alter_lease _ _ _ _ H1), ?H1; intros [= <-];
    split_and!; try done; congruence.
Qed.


(** ** Acquisition *)

Lemma class_for_first index capacity cs :
  match class_for index capacity cs with
  | Some ci => ∃ j, ci = (index + j)%nat ∧
      (∃ c, cs !! j = Some c ∧ capacity <= size c) ∧
      ∀ i c, (i < j)%nat → cs !! i = Some c → size c < capacity
  | None => ∀ i c, cs !! i = Some c → size c < capacity
  end.
Proof.
  revert index. induction cs as [|c0 cs IH]; intros index; [by intros i c|]. cbn.
  destruct (capacity <=? size c0) eqn:E; zbool.
  - exists 0%nat. split_and!; [lia|by exists c0|lia].
  - specialize (IH (S index)). destruct (class_for (S index) capacity cs) as [ci|].
    + destruct IH as (j & -> & Hj & F). exists (S j). split_and!; [lia|done|].
      intros [|i] c Hi Hc; simplify_eq/=; [lia|]. apply (F i); [lia|done].
    + intros [|i] c Hc; simplify_eq/=; [lia|]. by apply (IH i).
Qed.

(** The class a request is served from, in terms of the configured sizes. *)
Definition first_fit (sizes : list Z) (capacity class block_size : Z) : Prop :=
  (class = -1 ∧ block_size = capacity ∧ ∀ i n, sizes !! i = Some n → n < capacity) ∨
  ∃ j, class = Z.of_nat j ∧ sizes !! j = Some block_size ∧ capacity <= block_size ∧
    ∀ i n, (i < j)%nat → sizes !! i = Some n → n < capacity.

Lemma take_block_fit capacity pick p b class p1 :
  inv (skeleton p) → 0 <= capacity → take_block capacity pick p = (b, class, p1) →
  config p1 = config p ∧ closed p1 = closed p ∧ borrowed p1 = borrowed p ∧
  ∃ d, blocks p1 !! b = Some d ∧ first_fit (Classes (config p)) capacity class (len d).
Proof.
  intros I Hc T. destruct (take_block_fetch _ _ _ _ _ _ T) as (F & _ & _).
  destruct (fetch_block _ _ _ _ I F) as (n & Hn & K). cbn in Hn, K.
  destruct (fetch_same _ _ _ _ F) as (Ec & _ & Eb & _). cbn in Ec, Eb. unfold skeleton in K. cbn in K. rewrite ?Ec in K.
  rewrite list_lookup_fmap in Hn.
  destruct (blocks p1 !! b) as [d|] eqn:Hd; [|done]. injection Hn as <-.
  pose proof (inv_sizes _ I) as Z. cbn in Z. pose proof (class_for_first 0 capacity (classes p)) as C.
  unfold take_block, classFor in T.
  destruct (class_for 0 capacity (classes p)) as [ci|].
  - destruct C as (j & -> & (c & Hj & Hcap) & First). cbn [plus] in *. rewrite Hj in T.
    assert (class = Z.of_nat j ∧ closed p1 = closed p) as [-> ->]
      by (cbn in T; destruct (store_Get pick c) as [[]|]; by simplify_eq).
    split_and!; try done. exists d. split; [done|]. right. exists j.
    destruct K as [K|[_ K]]; [lia|]. rewrite Nat2Z.id in K.
    assert (E : size c = len d).
    { rewrite <- Z, list_lookup_fmap, Hj in K. by injection K. }
    split_and!; [done|done|lia|]. intros i m Hi. rewrite <- Z, list_lookup_fmap.
    destruct (classes p !! i) eqn:Hi'; [|done]. intros [= <-]. by eapply First.
  - cbn in T. simplify_eq. cbn in *. split_and!; try done. exists d. split; [done|]. left.
    rewrite lookup_app_r, Nat.sub_diag in Hd by lia. injection Hd as <-.
    rewrite length_replicate. split_and!; [done|lia|].
    intros i m. rewrite <- Z, list_lookup_fmap.
    destruct (classes p !! i) eqn:Hi'; [|done]. intros [= <-]. by eapply C.
Qed.

(** Acquisition.  A closed pool, a negative size and an oversized request
    are refused, in this order, and only the last is counted.  Every other
    request is granted: the new lease is BORROWED with an empty payload over a
    block of the first class that fits, or of exactly the requested size when
    none does, with the configured deadline. *)
Lemma acquire_spec p capacity context e :
  inv (skeleton p) →
  let r := AcquireContext capacity context e p in
  if closed p then r = (p, Err ErrClosed)
  else if capacity <? 0 then r = (p, Err ErrInvalidSize)
  else if capacity >? MaxBytes (config p) then
    r.1 = p <| oversized ::= inc |> ∧ ∃ err, r.2 = Err err ∧ errors_Is err "requested byte lease exceeds maximum" = true
  else ∃ l,
    r.2 = Ok (length (leases p)) ∧ leases r.1 = leases p ++ [l] ∧
    l_state l = StateBorrowed ∧ Payload r.1 l = [] ∧ l_mutated l = false ∧
    l_tracked l = shouldTrack (config p) (inc (borrowed p)) ∧
    l_deadline l = e_now e + LeaseTimeout (config p) ∧
    first_fit (Classes (config p)) capacity (l_class l) (Lease_Capacity r.1 l).
Proof.
  intros I r. subst r.
  unfold AcquireContext, acquire. destruct (closed p) eqn:Cl; [done|].
  destruct (capacity <? 0) eqn:Neg; [done|].
  destruct (capacity >? MaxBytes (config p)) eqn:Big; [split; [done|by eexists]|]. zbool.
  destruct (take_block capacity (e_pick e) p) as [[b class] p1] eqn:T.
  destruct (take_block_fetch _ _ _ _ _ _ T) as (_ & Hl & _).
  destruct (take_block_fit _ _ _ _ _ _ I Neg T) as (E1 & _ & E2 & d & Hd & F).
  rewrite <- Hl, <- E1, <- E2 in *. clear T Hl E1 E2 Cl I Big Neg.
  cbn. destruct (inc (nextID p1) =? 0); cbn;
    (destruct (shouldTrack (config p1) (inc (borrowed p1))) eqn:S; cbn;
     (eexists; split_and!; try reflexivity; unfold Lease_Capacity, block_data; cbn; rewrite ?Hd; done)).
Qed.

(** ** A concrete pool *)

Definition example_config : Config := mkConfig [4; 8] 16 AuditFull 0 100 10 2 1 "".
Definition example_env (pick : option nat) (now : Z) : env := mkEnv pick now [mkFrame "main.f" "f.go" 7] 1.
Definition no_context : AuditContext := mkAuditContext "INFO" "app" 0.
Definition example_pool : BytePool :=
  Eval vm_compute in
  match New example_config with Ok p => p | Err _ => mkPool example_config [] 0 false 0 0 0 0 0 0 0 0 0 0 0 0 ∅ [] [] [] end.

Lemma example_New : New example_config = Ok example_pool.
Proof. vm_compute. reflexivity. Qed.

(** Two leases, one of them recycled, and a large one; the second is queued. *)
Definition example_ops : list pool_op :=
  [DoAcquire 3 no_context (example_env None 5); DoAppend 0 [x01; x02; x03];
   DoRelease (Some 0%nat) 20; DoAcquire 2 no_context (example_env (Some 0%nat) 30);
   DoSetBytes 1 [x07; x08]; DoAcquire 12 no_context (example_env None 31)].

Definition example_state : BytePool := Eval vm_compute in run example_ops example_pool.

Lemma example_reach : pool_reach (example_state, []).
Proof.
  assert (example_state = run example_ops example_pool) as -> by (vm_compute; reflexivity).
  apply (reach_run example_config), example_New.
Qed.

Definition example_lease (h : nat) : Lease :=
  default (mkLease 0 None (-1) 0 0 false 0 false 0 0) (leases example_state !! h).

Lemma pool_isolation_witness :
  Payload (pool_do (DoAppend 2 [x09]) example_state).1 (example_lease 1) = [x07; x08].
Proof.
  destruct (pool_isolation (example_state, []) (DoAppend 2 [x09]) 1 (example_lease 1))
    as (_ & P & _); [apply example_reach|vm_compute; reflexivity|vm_compute; lia|split; [done|done]|].
  cbn [fst] in P. rewrite P. vm_compute. reflexivity.
Defined.

Lemma pool_ownership_witness :
  ∃ b d, l_block (example_lease 1) = Some b ∧ blocks example_state !! b = Some d ∧ len d = 4.
Proof.
  destruct (pool_ownership (example_state, []) 1 (example_lease 1))
    as [[H _]|(_ & b & d & Hb & Hd & _)]; [apply example_reach|vm_compute; reflexivity|vm_compute in H; lia|].
  exists b, d. split; [done|]. split; [done|]. cbn [fst] in Hd.
  assert (b = 0%nat) as -> by (vm_compute in Hb; congruence).
  vm_compute in Hd. injection Hd as <-. reflexivity.
Defined.

Lemma lease_lifecycle_witness :
  (pool_do (DoRelease (Some 0%nat) 40) example_state).2 = Some ErrDoubleReturn.
Proof.
  pose proof (lease_lifecycle (example_state, []) (DoRelease (Some 0%nat) 40) 0 (example_lease 0)
    example_reach eq_refl ltac:(vm_compute; reflexivity)) as H.
  destruct (lifecycle (DoRelease (Some 0%nat) 40) (l_state (example_lease 0%nat))) eqn:E;
    [vm_compute in E; discriminate|].
  destruct H as [H _]. cbn [fst] in H. rewrite H. vm_compute. reflexivity.
Defined.

Lemma pool_accounting_witness : Outstanding (Pool_Stats example_state) = 2.
Proof.
  destruct (pool_accounting (example_state, []) example_reach) as [H _]. cbn [fst] in H.
  rewrite H. vm_compute. reflexivity.
Defined.


