(* ===== verification/PoolAudit.v ===== *)
(** * The audit registry of the byte pool

    Which leases the registry lists, how much history it keeps, how the overdue
    counter follows the records while scans and releases interleave, and that
    the paged snapshots enumerate every item once. *)

From stdpp Require Import gmap strings list fin_maps sorting.
From Stdlib Require Import ZArith Lia.
From Stdlib.Strings Require Import Byte.
From S2P Require Import Prelude GoLib Pool PoolInv PoolSafety.

(** ** Counting in maps *)

Definition countm {A} (P : A → bool) (m : gmap Z A) : nat :=
  base.size (filter (λ kv, P kv.2 = true) m).

Section countm.
Context {A : Type}.
Implicit Types (P Q : A → bool) (m : gmap Z A).

Lemma countm_insert P m i x :
  m !! i = None → countm P (<[i := x]> m) = ((if P x then 1 else 0) + countm P m)%nat.
Proof.
  intros H. unfold countm. destruct (P x) eqn:E.
  - rewrite map_filter_insert_True by done. rewrite map_size_insert_None; [done|].
    apply map_lookup_filter_None_2. by left.
  - rewrite map_filter_insert_False by (cbn; congruence). by rewrite delete_id.
Qed.

Lemma countm_delete P m i x :
  m !! i = Some x → countm P m = ((if P x then 1 else 0) + countm P (delete i m))%nat.
Proof.
  intros H. rewrite <- (insert_delete_id m i x H) at 1. apply countm_insert, lookup_delete_eq.
Qed.

Lemma countm_fmap {B} (f : B → A) P (m : gmap Z B) : countm P (f <$> m) = countm (λ x, P (f x)) m.
Proof. unfold countm. rewrite map_filter_fmap. apply map_size_fmap. Qed.

Lemma countm_ext P Q m : (∀ i x, m !! i = Some x → P x = Q x) → countm P m = countm Q m.
Proof.
  intros H. unfold countm. f_equal. apply map_filter_ext. intros i x Hx. cbn. by rewrite (H i x).
Qed.

Lemma countm_or P Q m :
  (∀ x, P x = true → Q x = false) →
  countm (λ x, P x || Q x) m = (countm P m + countm Q m)%nat.
Proof.
  intros D. induction m as [|i x m Hi IH] using map_ind; [done|].
  rewrite !countm_insert, IH by done. specialize (D x).
  destruct (P x), (Q x); cbn; lia || (by rewrite D in *).
Qed.
End countm.

(** ** The registry's bookkeeping *)

(** What scans, releases and acquisitions change of a record. *)
Definition akey (r : auditRecord) : nat * bool := (rec_lease r, rec_overdue r).
Definition akeys (p : BytePool) : gmap Z (nat * bool) := akey <$> active p.

(** Everything the registry's invariant looks at. *)
Definition registry (p : BytePool) : gmap Z (nat * bool) * list LeaseSnapshot * Z :=
  (akeys p, history p, overdue p).

Lemma akeys_alter f id (m : gmap Z auditRecord) :
  (∀ r, akey (f r) = akey r) → akey <$> alter f id m = akey <$> m.
Proof.
  intros H. apply map_eq. intros i. rewrite !lookup_fmap.
  destruct (decide (id = i)) as [<-|Hne].
  - rewrite lookup_alter_eq. destruct (m !! id); cbn; [by rewrite H|done].
  - by rewrite lookup_alter_ne.
Qed.

Lemma registry_markMutated id p : registry (markMutated id p) = registry p.
Proof. unfold registry, akeys, markMutated. cbn. by rewrite akeys_alter. Qed.

Lemma registry_updateContext id c p : registry (updateContext id c p) = registry p.
Proof. unfold registry, akeys, updateContext. cbn. by rewrite akeys_alter. Qed.

Lemma registry_detect h p : registry (detectMutation h p).1 = registry p.
Proof.
  unfold detectMutation. destruct (leases p !! h) as [l|]; [|done]. destruct_ifs; try done.
  cbn [fst]. by rewrite registry_markMutated.
Qed.

Lemma registry_cas h old new p p' : cas_state h old new p = Some p' → registry p' = registry p.
Proof. by intros (l & _ & _ & ->)%cas_state_Some. Qed.

Lemma registry_state_error h p : registry (state_error h p).1 = registry p.
Proof. unfold state_error. by destruct (_ !! _). Qed.

Lemma registry_write l off d p : registry (write_block l off d p) = registry p.
Proof. unfold write_block. by destruct (l_block l). Qed.

Lemma registry_quiet op p : loud op = false → registry (pool_do op p).1 = registry p.
Proof.
  destruct op as [| |h|h|h|h n|h d|h d|h c|b i x|]; intros Hq; try done; cbn [pool_do].
  - unfold MarkQueued. destruct (cas_state _ _ _ _) as [p'|] eqn:E; [|apply registry_state_error].
    apply registry_cas in E. destruct (leases p' !! h); [|done]. by destruct (l_tracked _).
  - unfold RollbackQueued. destruct (cas_state _ _ _ _) as [p'|] eqn:E;
      [|apply registry_state_error]. by apply registry_cas in E.
  - unfold MarkInFlight. destruct (cas_state _ _ _ _) as [p'|] eqn:E;
      [|apply registry_state_error].
    apply registry_cas in E. pose proof (registry_detect h p').
    destruct (detectMutation h p'). cbn [fst] in *. congruence.
  - unfold Resize. destruct (borrowed_lease h p); [|done]. by destruct_ifs.
  - unfold Append. destruct (borrowed_lease h p); [|done]. destruct_ifs; [done|].
    apply registry_write.
  - unfold SetBytes. destruct (borrowed_lease h p); [|done]. destruct_ifs; [done|].
    apply registry_write.
  - unfold SetAuditContext. destruct (borrowed_lease h p); [|done].
    destruct_ifs; [apply registry_updateContext|done].
Qed.

Lemma registry_acquire capacity context e p p' h :
  acquire capacity context e p = (p', Ok h) →
  history p' = history p ∧ overdue p' = overdue p ∧ config p' = config p ∧
  akeys p' = (if shouldTrack (config p) (inc (borrowed p))
    then <[next_id (nextID p) := (h, false)]> (akeys p) else akeys p).
Proof.
  unfold acquire. destruct (closed p); [done|]. destruct (capacity <? 0); [done|].
  destruct (capacity >? _); [done|].
  destruct (take_block capacity (e_pick e) p) as [[b class] p1] eqn:T.
  destruct (take_block_fetch _ _ _ _ _ _ T) as (F & Hl & Hn). apply fetch_kept in F.
  destruct F as (Ec & _ & Eb & _). cbn in Ec, Eb.
  assert (A : active p1 = active p ∧ history p1 = history p ∧ overdue p1 = overdue p).
  { unfold take_block in T. destruct (classFor _ _); [destruct (store_Get _ _) as [[]|]|];
      cbn in T; by simplify_eq. }
  destruct A as (A1 & A2 & A3). cbn. unfold next_id. rewrite Hn.
  destruct (inc (nextID p) =? 0); cbn; rewrite Ec, Eb;
    destruct (shouldTrack (config p) (inc (borrowed p))); intros E; injection E as <- <-;
    unfold akeys; cbn; rewrite ?A1, ?A2, ?A3, ?fmap_insert, ?Hn; done.
Qed.

(** [finalize], and the truncation of the history. *)
Definition keep_last (limit : Z) (h : list LeaseSnapshot) : list LeaseSnapshot :=
  drop (length h - Z.to_nat limit) h.

Lemma registry_finalize id now p (hk : nat) (o : bool) l :
  0 < HistoryLimit (config p) → akeys p !! id = Some (hk, o) → leases p !! hk = Some l →
  ∃ sn, ID sn = l_id l ∧
    registry (finalize id now p) =
    (delete id (akeys p), keep_last (HistoryLimit (config p)) (history p ++ [sn]),
     if o then dec (overdue p) else overdue p).
Proof.
  intros HL Hk Hl. unfold akeys in Hk. rewrite lookup_fmap in Hk. unfold finalize.
  destruct (active p !! id) as [r|] eqn:Hr; [|done]. injection Hk as <- <-.
  unfold registry, akeys, keep_last. rewrite Z.gtb_ltb.
  destruct (rec_overdue r); cbn; rewrite (proj2 (Z.ltb_lt _ _) HL); cbn; rewrite fmap_delete;
    (eexists; split; [|reflexivity]); cbn; by rewrite Hl.
Qed.

Lemma registry_Release_error handle now p p' err :
  Release handle now p = (p', Some err) → registry p' = registry p ∧ config p' = config p.
Proof.
  unfold Release. destruct handle as [h|]; [|by intros [= <- _]].
  destruct (leases p !! h) as [l|]; [|by intros [= <- _]].
  destruct (l_state l =? StateInFlight) eqn:E; zbool;
    [rewrite E|]; destruct_ifs; intros; simplify_eq; done.
Qed.

Lemma registry_Release_untracked h now p p' l :
  leases p !! h = Some l → l_tracked l = false → Release (Some h) now p = (p', None) →
  registry p' = registry p ∧ config p' = config p.
Proof.
  intros Hl Ht R. destruct (Release_live _ _ _ _ R) as (l0 & Hl0 & Hs).
  rewrite Hl in Hl0. injection Hl0 as <-.
  unfold Release in R. rewrite Hl, Ht in R.
  set (p0 := if l_state l =? StateInFlight then _ else _) in R.
  assert (E0 : registry p0 = registry p ∧ config p0 = config p).
  { subst p0. clear. destruct (_ =? _); [|done]. split; [apply registry_detect|].
    pose proof (skeleton_detect h p) as S. exact (f_equal k_config S). }
  clearbody p0. destruct (l_state l =? StateReturned); [done|].
  destruct (l_state l =? StateQueued); [done|]. destruct (_ || _); [|done].
  injection R as <-. destruct E0 as [<- <-]. destruct (l_class l >=? 0); [|done].
  by destruct (l_block l).
Qed.

Lemma registry_Release_tracked h now p p' l (o : bool) :
  0 < HistoryLimit (config p) → leases p !! h = Some l → l_tracked l = true →
  akeys p !! l_id l = Some (h, o) → Release (Some h) now p = (p', None) →
  config p' = config p ∧ ∃ sn, ID sn = l_id l ∧
    registry p' =
    (delete (l_id l) (akeys p), keep_last (HistoryLimit (config p)) (history p ++ [sn]),
     if o then dec (overdue p) else overdue p).
Proof.
  intros HL Hl Ht Hk R. destruct (Release_live _ _ _ _ R) as (l0 & Hl0 & Hs).
  rewrite Hl in Hl0. injection Hl0 as <-.
  unfold Release in R. rewrite Hl, Ht in R.
  set (p0 := if l_state l =? StateInFlight then _ else _) in R.
  assert (E0 : registry p0 = registry p ∧ config p0 = config p).
  { subst p0. clear. destruct (_ =? _); [|done]. split; [apply registry_detect|].
    pose proof (skeleton_detect h p) as S. exact (f_equal k_config S). }
  assert (L0 : ∃ l1, leases p0 !! h = Some l1 ∧ l_id l1 = l_id l).
  { subst p0. destruct (l_state l =? StateInFlight); [|by exists l].
    destruct (detect_leases h p) as [-> | ->]; [by exists l|].
    rewrite (lookup_alter_lease _ _ _ _ Hl). by eexists. }
  clearbody p0. destruct L0 as (l1 & Hl' & Hi).
  destruct (l_state l =? StateReturned); [done|].
  destruct (l_state l =? StateQueued); [done|]. destruct (_ || _); [|done].
  destruct E0 as [ER EC]. set (p1 := on_lease h (λ l, l <| l_state := StateReturned |>) p0) in R.
  assert (R1 : registry p1 = registry p0) by done. assert (C1 : config p1 = config p0) by done.
  assert (Hl1 : leases p1 !! h = Some (l1 <| l_state := StateReturned |>))
    by (by apply (lookup_alter_lease (λ l, l <| l_state := StateReturned |>))).
  clearbody p1. rewrite ER in R1. rewrite EC in C1. rewrite <- C1 in HL.
  unfold registry in R1. injection R1 as K1 K2 K3. rewrite <- K1 in Hk.
  destruct (registry_finalize (l_id l) now p1 h o _ HL Hk Hl1) as (sn & Hsn & E).
  rewrite K1, K2, K3, C1 in E. destruct (finalize_same (l_id l) now p1) as (_ & _ & _ & C2).
  rewrite C1 in C2. injection R as <-. split; [by destruct (l_class l >=? 0), (l_block l)|].
  exists sn. rewrite Hsn. split; [done|]. rewrite <- E. by destruct (l_class l >=? 0), (l_block l).
Qed.

(** ** The registry's invariant *)

(** Tracked leases that have been returned. *)
Definition done_count (ss : list shape) : Z :=
  len (base.filter (λ s, s_live s = false ∧ s_tracked s = true) ss).

Record audit_inv (k : skel) (m : gmap Z (nat * bool)) (hist : list LeaseSnapshot) : Prop := {
  a_limit : 0 < HistoryLimit (k_config k);
  a_next : k_next k = len (k_shapes k);
  a_ids : ∀ h s, k_shapes k !! h = Some s → s_id s = Z.of_nat h + 1;
  a_sound : ∀ id h o, m !! id = Some (h, o) →
    ∃ s, k_shapes k !! h = Some s ∧ s_id s = id ∧ s_live s = true ∧ s_tracked s = true;
  a_complete : ∀ h s, k_shapes k !! h = Some s → s_live s = true → s_tracked s = true →
    ∃ o, m !! s_id s = Some (h, o);
  a_history : ∀ sn, sn ∈ hist →
    ∃ h s, k_shapes k !! h = Some s ∧ s_id s = ID sn ∧ s_live s = false ∧ s_tracked s = true;
  a_nodup : NoDup (map ID hist);
  a_length : len hist = Z.min (HistoryLimit (k_config k)) (done_count (k_shapes k))
}.

Lemma done_count_app ss ss' : done_count (ss ++ ss') = done_count ss + done_count ss'.
Proof. unfold done_count. rewrite filter_app, length_app. lia. Qed.

Lemma done_count_leases ls :
  len (base.filter (λ l, l_state l = StateReturned ∧ l_tracked l = true) ls) =
  done_count (map shape_of ls).
Proof.
  unfold done_count. induction ls as [|l ls IH]; [done|]. cbn [map]. rewrite !filter_cons.
  change (s_tracked (shape_of l)) with (l_tracked l).
  assert (s_live (shape_of l) = false ↔ l_state l = StateReturned).
  { cbn. unfold live. by rewrite negb_false_iff, Z.eqb_eq. }
  repeat case_decide; cbn [length]; (tauto || lia).
Qed.

Lemma done_count_one s : done_count [s] = if negb (s_live s) && s_tracked s then 1 else 0.
Proof.
  unfold done_count. rewrite filter_cons.
  case_decide as D; destruct (s_live s), (s_tracked s); cbn; naive_solver.
Qed.

Lemma next_id_small n : 0 <= n < 2 ^ 64 - 1 → next_id n = n + 1.
Proof. intros. unfold next_id. rewrite inc_small by lia. by ztest. Qed.

Lemma audit_acquire k k1 b class tracked m hist :
  audit_inv k m hist → fetch k b class k1 → len (k_shapes k) + 1 < 2 ^ 64 →
  audit_inv (push b class tracked k1)
    (if tracked then <[next_id (k_next k) := (length (k_shapes k), false)]> m else m) hist.
Proof.
  intros [A1 A2 A3 A4 A5 A6 A7 A8] (E1 & E2 & _ & _ & _ & E3)%fetch_kept B.
  assert (N : next_id (k_next k) = len (k_shapes k) + 1) by (rewrite A2, next_id_small; lia).
  constructor; cbn; rewrite ?E1, ?E2, ?E3, ?N, ?length_app; cbn [length].
  - done.
  - lia.
  - intros h s [Hs|[Hh Hs]]%lookup_app_Some; [by apply A3|].
    apply list_lookup_singleton_Some in Hs as [Hh' <-]. cbn. lia.
  - intros id h o Hm.
    assert (D : (tracked = true ∧ id = len (k_shapes k) + 1 ∧ h = length (k_shapes k)) ∨ m !! id = Some (h, o)).
    { destruct tracked; [|auto]. apply lookup_insert_Some in Hm as [[<- [= <- _]]|[_ Hm]]; auto. }
    destruct D as [(-> & -> & ->)|Hm'].
    + rewrite lookup_app_r, Nat.sub_diag by lia. by eexists.
    + destruct (A4 _ _ _ Hm') as (s & Hs & ?). exists s. split; [|done]. by apply lookup_app_l_Some.
  - intros h s [Hs|[Hh Hs]]%lookup_app_Some Hl Ht.
    + destruct (A5 h s Hs Hl Ht) as [o Ho]. exists o. destruct tracked; [|done].
      rewrite lookup_insert_ne; [done|]. rewrite (A3 h s Hs). apply lookup_lt_Some in Hs. lia.
    + apply list_lookup_singleton_Some in Hs as [Hh' <-]. cbn in *. subst tracked.
      exists false. rewrite lookup_insert_eq. repeat f_equal. lia.
  - intros sn Hsn. destruct (A6 sn Hsn) as (h & s & Hs & ?). exists h, s. split; [|done].
    by apply lookup_app_l_Some.
  - done.
  - rewrite done_count_app, done_count_one. cbn. by rewrite Z.add_0_r.
Qed.

Lemma keep_last_length limit h :
  0 < limit → len (keep_last limit h) = Z.min limit (len h).
Proof. intros. unfold keep_last. rewrite length_drop. lia. Qed.

Lemma keep_last_elem limit h sn : sn ∈ keep_last limit h → sn ∈ h.
Proof. intros H. eapply subseteq_drop, H. Qed.

Lemma keep_last_nodup limit h : NoDup (map ID h) → NoDup (map ID (keep_last limit h)).
Proof.
  intros N. unfold keep_last. rewrite <- (take_drop (length h - Z.to_nat limit) h), map_app in N.
  by apply NoDup_app in N as (_ & _ & N).
Qed.

(** A release in the invariant: the registry drops the record and keeps the
    snapshot. *)
Lemma audit_release k m hist h b s sn :
  audit_inv k m hist → k_shapes k !! h = Some s → s_live s = true → ID sn = s_id s →
  audit_inv (give_back h b (s_class s) k)
    (if s_tracked s then delete (s_id s) m else m)
    (if s_tracked s then keep_last (HistoryLimit (k_config k)) (hist ++ [sn]) else hist).
Proof.
  intros [A1 A2 A3 A4 A5 A6 A7 A8] Hs Hl Hsn.
  assert (LK : ∀ j t, alter kill h (k_shapes k) !! j = Some t →
    ∃ u, k_shapes k !! j = Some u ∧ s_id t = s_id u ∧ s_tracked t = s_tracked u ∧
      s_live t = (if decide (j = h) then false else s_live u)).
  { intros j t Hj. destruct (decide (j = h)) as [->|Hne].
    - rewrite list_lookup_alter_eq, Hs in Hj. injection Hj as <-. by exists s.
    - rewrite list_lookup_alter_ne in Hj by done. by exists t. }
  assert (UK : ∀ j u, k_shapes k !! j = Some u → j ≠ h → alter kill h (k_shapes k) !! j = Some u).
  { intros j u Hj Hne. by rewrite list_lookup_alter_ne. }
  assert (HK : alter kill h (k_shapes k) !! h = Some (kill s)) by (by rewrite list_lookup_alter_eq, Hs).
  assert (INJ : ∀ j u, k_shapes k !! j = Some u → s_id u = s_id s → j = h).
  { intros j u Hj E. apply A3 in Hs, Hj. lia. }
  constructor; cbn; try done.
  - by rewrite length_alter.
  - intros j t (u & Hu & -> & _)%LK. by apply A3.
  - intros id j o' Hm.
    assert (Hm' : m !! id = Some (j, o') ∧ (s_tracked s = true → id ≠ s_id s)).
    { destruct (s_tracked s); [|done]. apply lookup_delete_Some in Hm as [? ?]. done. }
    destruct Hm' as [Hm' Hne]. destruct (A4 _ _ _ Hm') as (u & Hu & E & L & T).
    exists u. split; [|done]. apply UK; [done|]. intros ->. simplify_eq. by apply Hne.
  - intros j t (u & Hu & E1 & E2 & E3)%LK L T. rewrite E3 in L.
    destruct (decide (j = h)) as [->|Hne]; [done|]. rewrite E2 in T.
    destruct (A5 j u Hu L T) as [o' Ho]. exists o'. rewrite E1. destruct (s_tracked s); [|done].
    rewrite lookup_delete_ne; [done|]. intros E. apply Hne. by eapply INJ.
  - intros x Hx. destruct (s_tracked s) eqn:T.
    + apply keep_last_elem, elem_of_app in Hx as [Hx|Hx%list_elem_of_singleton].
      * destruct (A6 x Hx) as (j & u & Hu & ? & L & ?). exists j, u. split; [|done].
        apply UK; [done|]. intros ->. congruence.
      * subst x. exists h, (kill s). done.
    + destruct (A6 x Hx) as (j & u & Hu & ? & L & ?). exists j, u. split; [|done].
      apply UK; [done|]. intros ->. congruence.
  - destruct (s_tracked s); [|done]. apply keep_last_nodup. rewrite map_app.
    apply NoDup_app. split_and!; [done| |apply NoDup_singleton].
    intros i (x & -> & Hx)%list_elem_of_fmap Hi%list_elem_of_singleton.
    destruct (A6 x Hx) as (j & u & Hu & E & L & _).
    assert (j = h) by (apply (INJ j u Hu); congruence). congruence.
  - destruct (alter_middle _ _ _ Hs) as (l1 & l2 & E & _ & E'). rewrite E'. rewrite E in A8.
    rewrite (cons_app s) in A8. rewrite (cons_app (kill s)), !done_count_app, done_count_one in *.
    cbn. rewrite Hl in A8. cbn in A8. destruct (s_tracked s); cbn.
    + rewrite keep_last_length, length_app by done. cbn. lia.
    + lia.
Qed.

(** ** Reachable registries *)

Definition flagged (kv : nat * bool) : bool := kv.2.
Definition pending (q : list Z) : Z := foldr Z.add 0 q.

Lemma pending_app q1 q2 : pending (q1 ++ q2) = pending q1 + pending q2.
Proof. unfold pending. induction q1; cbn; lia. Qed.

(** The registry of a pool, the identifiers and the overdue counter. *)
Definition audit_ok (s : system) : Prop :=
  audit_inv (skeleton s.1) (akeys s.1) (history s.1) ∧
  overdue s.1 = u64 (Z.of_nat (countm flagged (akeys s.1)) - pending s.2).

Lemma audit_inv_flags k m m' hist :
  (∀ id : Z, fst <$> m !! id = fst <$> m' !! id) → audit_inv k m hist → audit_inv k m' hist.
Proof.
  intros E [A1 A2 A3 A4 A5 A6 A7 A8]. constructor; try done.
  - intros id h o Hm. specialize (E id). rewrite Hm in E.
    destruct (m !! id) as [[h' o']|] eqn:Hm'; [|done]. cbn in E. injection E as ->. by eapply A4.
  - intros h s Hs L T. destruct (A5 h s Hs L T) as [o Ho]. specialize (E (s_id s)).
    rewrite Ho in E. destruct (m' !! s_id s) as [[h' o']|]; [|done]. cbn in E.
    injection E as <-. by exists o'.
Qed.

Lemma Release_config handle now p : config (Release handle now p).1 = config p.
Proof.
  unfold Release. destruct handle as [h|]; [|done]. destruct (leases p !! h) as [l|]; [|done].
  set (p0 := if l_state l =? StateInFlight then _ else _).
  assert (E0 : config p0 = config p).
  { subst p0. destruct (_ =? _); [|done]. exact (f_equal k_config (skeleton_detect h p)). }
  clearbody p0. destruct (l_state l =? StateReturned); [done|].
  destruct (l_state l =? StateQueued); [done|]. destruct (_ || _); [|done].
  set (p1 := if l_tracked l then _ else _).
  assert (E1 : config p1 = config p0).
  { subst p1. destruct (l_tracked l); [|done].
    by rewrite (proj2 (proj2 (proj2 (finalize_same _ _ _)))). }
  clearbody p1. destruct (l_class l >=? 0); [|cbn; congruence].
  destruct (l_block l); cbn; congruence.
Qed.

Lemma pool_do_config op p : config (pool_do op p).1 = config p.
Proof.
  destruct (loud op) eqn:L; [|exact (f_equal k_config (skeleton_quiet op p L))].
  destruct op as [cap ctx e|handle now| | | | | | | | |]; try done; cbn [pool_do].
  - destruct (acquire cap ctx e p) as [p' [h|err]] eqn:A; cbn.
    + by apply registry_acquire in A as (_ & _ & ? & _).
    + apply acquire_error in A as [E _]. exact (f_equal k_config E).
  - apply Release_config.
Qed.

Lemma pool_do_grows op p : (length (leases p) <= length (leases (pool_do op p).1))%nat.
Proof.
  destruct (do_effect op p) as [->|l _ -> _ _|h l l' _ _ -> _];
    rewrite ?length_app, ?length_insert; lia.
Qed.

Lemma audit_do_acquire capacity context e p q :
  let p' := (pool_do (DoAcquire capacity context e) p).1 in
  len (leases p') < 2 ^ 64 → audit_ok (p, q) → audit_ok (p', q).
Proof.
  unfold audit_ok. cbn [fst snd pool_do]. intros B [A O].
  destruct (acquire capacity context e p) as [p' [h|err]] eqn:Ac; cbn [acquired fst] in *.
  - destruct (registry_acquire _ _ _ _ _ _ Ac) as (E1 & E2 & _ & E3).
    destruct (acquire_skeleton _ _ _ _ _ _ Ac) as (-> & b & class & k1 & F & E4).
    assert (Bk : len (k_shapes (skeleton p)) + 1 < 2 ^ 64).
    { pose proof (f_equal k_shapes E4) as S. cbn in S.
      destruct (fetch_kept _ _ _ _ F) as (_ & Ek & _).
      rewrite Ek in S. apply (f_equal length) in S. rewrite length_app, length_map in S.
      cbn in S |- *. lia. }
    rewrite E1, E2, E3, E4.
    pose proof (audit_acquire _ _ _ _ (shouldTrack (config p) (inc (borrowed p))) _ _ A F Bk) as A'.
    cbn in A'. rewrite length_map in A'. split; [exact A'|]. rewrite O.
    destruct (shouldTrack _ _); [|done]. rewrite countm_insert; [done|].
    destruct (akeys p !! _) as [[h o]|] eqn:Hm; [|done]. exfalso.
    destruct (a_sound _ _ _ A _ _ _ Hm) as (s & Hs & E & _). apply (a_ids _ _ _ A) in Hs as E'.
    apply lookup_lt_Some in Hs. pose proof (a_next _ _ _ A) as N. cbn in N.
    rewrite N, next_id_small in E by (cbn in Bk; lia). cbn in Hs. lia.
  - destruct (acquire_error _ _ _ _ _ _ Ac) as [E _]. rewrite E.
    assert (R : registry p' = registry p).
    { unfold acquire in Ac. destruct_ifs; try (by injection Ac as <- _).
      all: destruct (take_block _ _ _) as [[? ?] ?]; done. }
    unfold registry in R. injection R as -> -> ->. done.
Qed.

Lemma audit_do_release h now p q p' :
  inv (skeleton p) → Release (Some h) now p = (p', None) → audit_ok (p, q) → audit_ok (p', q).
Proof.
  unfold audit_ok. cbn [fst snd]. intros I R [A O].
  destruct (Release_live _ _ _ _ R) as (l & Hl & Hs).
  destruct (lease_block p h l I Hl) as [b Hb]; [by destruct Hs as [-> | ->]|].
  destruct (Release_skeleton _ _ _ _ _ _ Hl Hb R) as [_ E].
  assert (Lv : s_live (shape_of l) = true) by (apply live_iff; by destruct Hs as [-> | ->]).
  rewrite E. destruct (l_tracked l) eqn:T.
  - destruct (a_complete _ _ _ A h (shape_of l)) as [o Ho]; [by apply shapes_lookup|done|done|].
    destruct (registry_Release_tracked h now p p' l o) as (_ & sn & Hsn & E');
      [apply (a_limit _ _ _ A)|done..|]. unfold registry in E'. injection E' as -> -> ->.
    pose proof (audit_release _ _ _ h b (shape_of l) sn A (shapes_lookup _ _ _ Hl) Lv Hsn) as A'.
    cbn in A'. rewrite T in A'. split; [exact A'|].
    rewrite (countm_delete _ _ _ _ Ho) in O. unfold flagged in O at 1. cbn in O.
    destruct o; rewrite O, ?dec_u64; f_equal; lia.
  - destruct (registry_Release_untracked _ _ _ _ _ Hl T R) as [E' _]. unfold registry in E'.
    injection E' as -> -> ->. split; [|done].
    pose proof (audit_release _ _ _ h b (shape_of l)
      (mkSnapshot (l_id l) "" 0 0 0 0 0 0 0 0 "" "" "" "" 0 [] false)
      A (shapes_lookup _ _ _ Hl) Lv eq_refl) as A'.
    cbn in A'. rewrite T in A'. exact A'.
Qed.

Lemma audit_do op p q :
  inv (skeleton p) → len (leases (pool_do op p).1) < 2 ^ 64 → audit_ok (p, q) →
  audit_ok ((pool_do op p).1, q).
Proof.
  intros I B A. destruct (loud op) eqn:L.
  2:{ pose proof (registry_quiet op p L) as E. unfold registry in E. injection E as E1 E2 E3.
      unfold audit_ok in *. cbn [fst snd] in *. by rewrite skeleton_quiet, E1, E2, E3. }
  destruct op as [cap ctx e|handle now| | | | | | | | |]; try done.
  - by apply audit_do_acquire.
  - cbn [pool_do] in *. destruct (Release handle now p) as [p' [err|]] eqn:R; cbn [fst] in *.
    + destruct (Release_error _ _ _ _ _ R) as [E _].
      destruct (registry_Release_error _ _ _ _ _ R) as [E' _]. unfold registry in E'.
      injection E' as E1 E2 E3. unfold audit_ok in *. cbn [fst snd] in *. by rewrite E, E1, E2, E3.
    + destruct handle as [h|]; [|done]. by eapply audit_do_release.
Qed.

Lemma akeys_scan now p :
  akeys (scan_mark now p).1 =
  akey <$> ((λ r, if newly_overdue p now r then r <| rec_overdue := true |> else r) <$> active p).
Proof. done. Qed.

Lemma scan_mark_count now p :
  Z.of_nat (countm flagged (akeys (scan_mark now p).1)) =
  Z.of_nat (countm flagged (akeys p)) + (scan_mark now p).2.
Proof.
  rewrite akeys_scan. unfold akeys. rewrite !countm_fmap. cbn [scan_mark snd].
  change (Z.of_nat (base.size _)) with (Z.of_nat (countm (newly_overdue p now) (active p))).
  rewrite <- Nat2Z.inj_add, <- countm_or.
  - f_equal. apply countm_ext. intros i r _. unfold newly_overdue, flagged, akey.
    destruct (rec_overdue r) eqn:E; cbn; [by rewrite E|].
    destruct (match _ with Some _ => _ | None => _ end); cbn; by rewrite ?E.
  - intros r. unfold flagged, akey, newly_overdue. cbn. by intros ->.
Qed.

Lemma audit_limit c c' : normalized c = Ok c' → 0 < HistoryLimit c'.
Proof.
  intros N. unfold normalized in N. repeat (apply bind_Ok in N as (? & ?%guard_Ok & N)).
  injection N as <-. zbool. cbn in *. unfold default_if_zero in *.
  destruct (HistoryLimit c =? 0) eqn:Z; zbool; [unfold defaultHistoryLimit; lia|lia].
Qed.

Lemma reach_audit s : pool_reach s → len (leases s.1) < 2 ^ 64 → audit_ok s.
Proof.
  revert s. apply (reach_invariant pool_init pool_step (λ s, len (leases s.1) < 2 ^ 64 → audit_ok s)).
  - intros [p q] (c & H & E) _. cbn in *. subst q.
    pose proof (New_inv _ _ H) as I. unfold New in H. apply bind_Ok in H as (c' & N & [= <-]).
    split; [|done]. constructor; cbn; try done.
    + by apply audit_limit in N.
    + intros sn. by rewrite elem_of_nil.
    + constructor.
    + unfold done_count. cbn. apply audit_limit in N. lia.
  - intros s s' R IH S B. apply reach_inv in R. destruct S as [op p q|now p q _|n p q1 q2];
    cbn [fst snd] in *.
    + apply audit_do; [done|done|]. apply IH. pose proof (pool_do_grows op p). lia.
    + destruct (IH B) as [A O]. cbn [fst snd] in A, O. split.
      * change (audit_inv (skeleton p) (akeys (scan_mark now p).1) (history p)).
        eapply audit_inv_flags; [|exact A]. intros id. rewrite akeys_scan. unfold akeys.
        rewrite !lookup_fmap. destruct (active p !! id) as [r|]; [|done]. cbn.
        by destruct (newly_overdue p now r).
      * pose proof (scan_mark_count now p) as C. cbn [fst snd]. rewrite C. cbn [pending foldr].
        replace (overdue (scan_mark now p).1) with (overdue p) by done. rewrite O. f_equal.
        fold (pending q). lia.
    + assert (E : akeys (scan_add n p) = akeys p ∧ history (scan_add n p) = history p
        ∧ leases (scan_add n p) = leases p) by (unfold scan_add; by destruct (n =? 0)).
      destruct E as (E1 & E2 & E3). rewrite E3 in B. destruct (IH B) as [A O]. cbn [fst snd] in A, O.
      unfold audit_ok. cbn [fst snd]. rewrite skeleton_scan_add, E1, E2. split; [done|].
      rewrite pending_app in O |- *. cbn [pending foldr] in O. fold (pending q2) in O.
      unfold scan_add. destruct (n =? 0) eqn:Z; zbool; cbn; rewrite O, ?u64_add_l; f_equal; lia.
Qed.

(** ** Snapshots *)

Lemma active_lease s id r :
  pool_reach s → len (leases s.1) < 2 ^ 64 → active s.1 !! id = Some r →
  ∃ l, leases s.1 !! rec_lease r = Some l ∧ l_id l = id ∧ l_tracked l = true ∧
    l_state l ≠ StateReturned.
Proof.
  intros R B Hr. destruct (reach_audit _ R B) as [A _].
  destruct (a_sound _ _ _ A id (rec_lease r) (rec_overdue r)) as (u & Hu & E & L & T).
  { unfold akeys. by rewrite lookup_fmap, Hr. }
  cbn in Hu. rewrite list_lookup_fmap in Hu. destruct (leases s.1 !! rec_lease r) as [l|]; [|done].
  injection Hu as <-. exists l. split_and!; try done. by apply live_iff.
Qed.

Lemma lease_active s h l :
  pool_reach s → len (leases s.1) < 2 ^ 64 → leases s.1 !! h = Some l → l_tracked l = true →
  l_state l ≠ StateReturned → ∃ r, active s.1 !! l_id l = Some r ∧ rec_lease r = h.
Proof.
  intros R B Hl T L. destruct (reach_audit _ R B) as [A _].
  destruct (a_complete _ _ _ A h (shape_of l)) as [o Ho];
    [by apply shapes_lookup|by apply live_iff|done|].
  unfold akeys in Ho. cbn in Ho. rewrite lookup_fmap in Ho.
  destruct (active s.1 !! l_id l) as [r|]; [|done]. exists r. split; [done|]. by injection Ho.
Qed.

Lemma ID_snapshotRecord p r now l :
  leases p !! rec_lease r = Some l → ID (snapshotRecord p r now) = l_id l.
Proof. intros H. unfold snapshotRecord. by rewrite H. Qed.

Lemma nodup_filter (P : LeaseSnapshot → Prop) `{!∀ x, Decision (P x)} l :
  NoDup (map ID l) → NoDup (map ID (filter P l)).
Proof.
  induction l as [|x l IH]; [done|]. cbn [map]. rewrite NoDup_cons, filter_cons. intros [Hx N].
  case_decide; [|by apply IH]. cbn [map]. apply NoDup_cons. split; [|by apply IH].
  intros (y & E & Hy)%list_elem_of_fmap. apply list_elem_of_filter in Hy as [_ Hy].
  apply Hx. rewrite E. by apply list_elem_of_fmap_2.
Qed.

(** The identifiers of the items are those of the records and the history. *)
Lemma items_nodup s filter now :
  pool_reach s → len (leases s.1) < 2 ^ 64 →
  NoDup (map ID (snapshot_items filter now s.1)) ∧
  Forall (λ sn, 0 < ID sn < 2 ^ 64) (snapshot_items filter now s.1).
Proof.
  intros R B. destruct (reach_audit _ R B) as [A _].
  set (act := map (λ kr, snapshotRecord s.1 kr.2 now) (map_to_list (active s.1))).
  assert (E : map ID act = (map_to_list (active s.1)).*1).
  { unfold act. rewrite map_map. apply list_fmap_ext. intros i [id r] H.
    apply list_elem_of_lookup_2, elem_of_map_to_list in H.
    destruct (active_lease s id r R B H) as (l & Hl & <- & _). by apply ID_snapshotRecord. }
  assert (IDs : ∀ h u, k_shapes (skeleton s.1) !! h = Some u → 0 < s_id u < 2 ^ 64).
  { intros h u Hu. apply (a_ids _ _ _ A) in Hu as E'. apply lookup_lt_Some in Hu.
    cbn in Hu. rewrite length_map in Hu. lia. }
  assert (P : ∀ sn, sn ∈ act ++ history s.1 → 0 < ID sn < 2 ^ 64).
  { intros sn [H|H]%elem_of_app.
    - apply list_elem_of_fmap in H as ([id r] & -> & H). apply elem_of_map_to_list in H. cbn [snd].
      destruct (active_lease s id r R B H) as (l & Hl & _).
      rewrite (ID_snapshotRecord _ _ now l Hl). apply shapes_lookup in Hl. by apply IDs in Hl.
    - destruct (a_history _ _ _ A sn H) as (h & u & Hu & <- & _). by apply IDs in Hu. }
  assert (N : NoDup (map ID (act ++ history s.1))).
  { rewrite map_app. apply NoDup_app. rewrite E. split_and!.
    - apply NoDup_fst_map_to_list.
    - intros id ([id' r] & -> & H)%list_elem_of_fmap (sn & Hsn & H')%list_elem_of_fmap. cbn in *.
      apply elem_of_map_to_list in H. destruct (active_lease s id' r R B H) as (l & Hl & Hi & _ & L).
      destruct (a_history _ _ _ A sn H') as (h & u & Hu & Hiu & Lu & _).
      assert (h = rec_lease r) as ->.
      { apply shapes_lookup in Hl. pose proof (a_ids _ _ _ A _ _ Hl) as E1.
        pose proof (a_ids _ _ _ A _ _ Hu) as E2. cbn in E1. lia. }
      rewrite (shapes_lookup _ _ _ Hl) in Hu. injection Hu as <-. apply live_iff in L. congruence.
    - apply (a_nodup _ _ _ A). }
  unfold snapshot_items. fold act. split.
  - by apply nodup_filter.
  - apply Forall_forall. intros sn [_ H]%list_elem_of_filter. by apply P.
Qed.

(** Reading page after page, each from the last identifier of the one before. *)
Fixpoint pages (fuel : nat) (state : string) (beforeID limit now : Z) (p : BytePool)
  : list LeaseSnapshot :=
  match fuel with
  | O => []
  | S fuel =>
      let page := SnapshotLeasesBefore state beforeID limit now p in
      match last page with
      | None => []
      | Some sn => page ++ pages fuel state (ID sn) limit now p
      end
  end.

Definition descending : list LeaseSnapshot → Prop := StronglySorted (λ a b, ID b < ID a).

Lemma descending_sort l : NoDup (map ID l) → descending (merge_sort snapshot_desc l).
Proof.
  intros N. pose proof (merge_sort_Permutation snapshot_desc l) as Pm.
  assert (S : StronglySorted snapshot_desc (merge_sort snapshot_desc l)).
  { apply StronglySorted_merge_sort.
    - intros a b c. unfold snapshot_desc. lia.
    - intros a b. unfold snapshot_desc. lia. }
  rewrite <- Pm in N. clear Pm. unfold descending.
  induction S as [|a m S IH F]; [constructor|]. cbn [map] in N. apply NoDup_cons in N as [Ha N].
  constructor; [by apply IH|]. rewrite Forall_forall in F |- *. intros b Hb.
  specialize (F b Hb). unfold snapshot_desc in F.
  assert (ID a ≠ ID b) by (intros E; apply Ha; rewrite E; by apply list_elem_of_fmap_2). lia.
Qed.

(** The cursor cuts a descending list. *)
Lemma cursor_suffix l1 x l2 :
  descending (l1 ++ x :: l2) → ID x ≠ 0 →
  base.filter (λ sn, ID x = 0 ∨ ID sn < ID x) (l1 ++ x :: l2) = l2.
Proof.
  unfold descending. induction l1 as [|a l1 IH]; cbn [app]; intros S Hx.
  - rewrite filter_cons_False by lia. apply StronglySorted_inv in S as [_ F].
    induction l2 as [|b l2 IH2]; [done|].
    apply Forall_cons in F as [Hb F]. rewrite filter_cons_True by (by right). f_equal. by apply IH2.
  - apply StronglySorted_inv in S as [S F]. rewrite Forall_app, Forall_cons in F.
    rewrite filter_cons_False by lia. by apply IH.
Qed.

Lemma pages_suffix fuel state before limit now p l1 l2 :
  let l := merge_sort snapshot_desc (snapshot_items (ParseLeaseState state) now p) in
  descending l → Forall (λ sn, 0 < ID sn) l → l = l1 ++ l2 →
  base.filter (λ sn, before = 0 ∨ ID sn < before) l = l2 → (length l2 < fuel)%nat →
  pages fuel state before limit now p = l2.
Proof.
  intros l D Pos. revert before l1 l2. induction fuel as [|fuel IH]; intros before l1 l2 E F Hf; [lia|].
  cbn [pages]. unfold SnapshotLeasesBefore, snapshots. fold l. rewrite F.
  set (lim := Z.to_nat _).
  assert (Hlim : (0 < lim)%nat) by (subst lim; destruct (limit <=? 0) eqn:?; destruct_ifs; zbool; lia).
  clearbody lim. destruct (last (take lim l2)) as [x|] eqn:L.
  - apply last_Some in L as [r Hr]. rewrite <- (take_drop lim l2) in E. rewrite Hr in E.
    rewrite <- app_assoc in E. cbn in E. rewrite app_assoc in E.
    rewrite (IH (ID x) (l1 ++ r ++ [x]) (drop lim l2)); [apply take_drop| | |].
    + rewrite E, <- !app_assoc. done.
    + rewrite E. apply cursor_suffix; [by rewrite <- E|].
      rewrite E, Forall_app, Forall_cons in Pos. lia.
    + rewrite length_drop. destruct l2; [by rewrite take_nil in Hr; destruct r|]. cbn in *. lia.
  - apply last_None in L. destruct l2, lim; try done. lia.
Qed.

Lemma page_length state before limit now p :
  len (SnapshotLeasesBefore state before limit now p) <= 200.
Proof.
  unfold SnapshotLeasesBefore, snapshots. rewrite length_take.
  cbn zeta. destruct (_ >? 200) eqn:E; zbool; lia.
Qed.

(** ** Properties *)

(** Pagination.  Reading snapshots page after page, with any page limit and
    each time from the last identifier received, enumerates every active and
    every retained lease of the requested state exactly once, in descending
    order of identifiers, in pages of at most 200. *)
Theorem pages_enumerate s fuel state limit now :
  pool_reach s → len (leases s.1) < 2 ^ 64 →
  let items := snapshot_items (ParseLeaseState state) now s.1 in
  (length items < fuel)%nat →
  pages fuel state 0 limit now s.1 ≡ₚ items ∧
  descending (pages fuel state 0 limit now s.1) ∧
  ∀ before, len (SnapshotLeasesBefore state before limit now s.1) <= 200.
Proof.
  intros R B items Hf. destruct (items_nodup s (ParseLeaseState state) now R B) as [N P].
  fold items in N, P. apply (Forall_impl _ (λ sn, 0 < ID sn)) in P; [|cbn; lia]. pose proof (merge_sort_Permutation snapshot_desc items) as Pm.
  rewrite (pages_suffix fuel state 0 limit now s.1 [] (merge_sort snapshot_desc items)).
  - split; [done|]. split; [by apply descending_sort|]. intros. apply page_length.
  - by apply descending_sort.
  - fold items. by rewrite Pm.
  - done.
  - fold items. clear. induction (merge_sort snapshot_desc items) as [|x l IH]; [done|].
    rewrite filter_cons_True by auto. by rewrite IH.
  - by rewrite Pm.
Qed.

(** The audit trail.  While fewer than 2^64 leases were acquired, the
    registry lists exactly the tracked live leases; its history holds snapshots
    of tracked returned leases, each at most once, all of them until the history
    limit is reached and never more than the limit; and LeaseByID finds every
    tracked live lease. *)
Theorem audit_trail s :
  pool_reach s → len (leases s.1) < 2 ^ 64 →
  (∀ id, is_Some (active s.1 !! id) ↔ ∃ h l, leases s.1 !! h = Some l ∧ l_id l = id ∧
     l_tracked l = true ∧ l_state l ≠ StateReturned) ∧
  (∀ sn, sn ∈ history s.1 → ∃ h l, leases s.1 !! h = Some l ∧ l_id l = ID sn ∧
     l_tracked l = true ∧ l_state l = StateReturned) ∧
  NoDup (map ID (history s.1)) ∧
  len (history s.1) = Z.min (HistoryLimit (config s.1))
    (len (base.filter (λ l, l_state l = StateReturned ∧ l_tracked l = true) (leases s.1))) ∧
  ∀ h l now, leases s.1 !! h = Some l → l_tracked l = true → l_state l ≠ StateReturned →
    ∃ sn, LeaseByID (l_id l) now s.1 = Some sn ∧ ID sn = l_id l ∧ Length sn = l_length l ∧
      (snap_State sn = "OVERDUE" ∨ snap_State sn = LeaseState_String (l_state l)).
Proof.
  intros R B. destruct (reach_audit _ R B) as [A _]. split_and!.
  - intros id. split.
    + intros [r Hr]. destruct (active_lease s id r R B Hr) as (l & Hl & H). by exists (rec_lease r), l.
    + intros (h & l & Hl & <- & T & L). destruct (lease_active s h l R B Hl T L) as (r & -> & _). done.
  - intros sn Hsn. destruct (a_history _ _ _ A sn Hsn) as (h & u & Hu & E & L & T).
    cbn in Hu. rewrite list_lookup_fmap in Hu. destruct (leases s.1 !! h) as [l|] eqn:Hl; [|done].
    injection Hu as <-. exists h, l. split_and!; try done. cbn in L. unfold live in L. by zbool.
  - apply (a_nodup _ _ _ A).
  - rewrite (a_length _ _ _ A). f_equal. cbn. by rewrite done_count_leases.
  - intros h l now Hl T L. destruct (lease_active s h l R B Hl T L) as (r & Hr & <-).
    exists (snapshotRecord s.1 r now). unfold LeaseByID, byID, snapshotRecord. rewrite Hr, Hl.
    split_and!; try done. cbn. destruct (rec_overdue r); auto.
Qed.

(** The overdue counter.  In every interleaving of the scanner with the
    operations, the counter is the number of active records marked overdue less
    the additions the scans still owe, modulo 2^64; it is exact when no scan is
    between its two steps. *)
Theorem overdue_accounting s :
  pool_reach s → len (leases s.1) < 2 ^ 64 →
  let marked := base.size (base.filter (λ kr, rec_overdue kr.2 = true) (active s.1)) in
  Overdue (Pool_Stats s.1) = u64 (Z.of_nat marked - pending s.2) ∧
  (s.2 = [] → Overdue (Pool_Stats s.1) = u64 (Z.of_nat marked)).
Proof.
  intros R B marked. destruct (reach_audit _ R B) as [_ O].
  unfold akeys in O. rewrite countm_fmap in O. change (countm _ (active s.1)) with marked in O.
  split; [exact O|]. intros E. rewrite E in O. cbn in O. cbn. rewrite O. f_equal. lia.
Qed.

(** ** Witnesses *)

(** The pool of [PoolSafety], then the second lease becomes overdue. *)
Definition overdue_scan (s : system) : system := ((scan_mark 1000 s.1).1, (scan_mark 1000 s.1).2 :: s.2).

Lemma overdue_scan_reach : pool_reach (overdue_scan (example_state, [])).
Proof.
  eapply reach_step; [apply example_reach|]. apply (step_scan_mark 1000). vm_compute. congruence.
Qed.

Lemma pages_enumerate_witness :
  map ID (pages 4 " borrowed " 0 1 50 example_state) = [3; 2] ∧
  pages 4 " borrowed " 0 1 50 example_state ≡ₚ snapshot_items "BORROWED" 50 example_state.
Proof.
  destruct (pages_enumerate (example_state, []) 4 " borrowed " 1 50 example_reach) as (P & _).
  - vm_compute. reflexivity.
  - vm_compute. lia.
  - split; [vm_compute; reflexivity|].
    replace "BORROWED"%string with (ParseLeaseState " borrowed ") by (vm_compute; reflexivity).
    exact P.
Defined.

Lemma audit_trail_witness : len (history example_state) = 1 ∧ is_Some (active example_state !! 2).
Proof.
  destruct (audit_trail (example_state, []) example_reach) as (A & _ & _ & L & _);
    [vm_compute; reflexivity|].
  split; [cbn [fst] in L; rewrite L; vm_compute; reflexivity|].
  apply A. exists 1%nat, (example_lease 1). split_and!; vm_compute; congruence.
Defined.

Lemma overdue_accounting_witness :
  Overdue (Pool_Stats (overdue_scan (example_state, [])).1) = u64 (2 - 2).
Proof.
  destruct (overdue_accounting _ overdue_scan_reach) as [H _]; [vm_compute; reflexivity|].
  rewrite H. vm_compute. reflexivity.
Defined.

(** A release between the two steps of the scan makes the counter wrap: Stats
    then reports 2^64 - 1 overdue leases. *)
Lemma overdue_underflow :
  ∃ s, pool_reach s ∧ Overdue (Pool_Stats s.1) = 2 ^ 64 - 1 ∧
    Outstanding (Pool_Stats s.1) = 1.
Proof.
  exists ((pool_do (DoRelease (Some 1%nat) 1001) (overdue_scan (example_state, [])).1).1,
    (overdue_scan (example_state, [])).2). split.
  - eapply reach_step; [apply overdue_scan_reach|]. apply (step_do (DoRelease (Some 1%nat) 1001)).
  - split; vm_compute; reflexivity.
Qed.
