(* ===== verification/Flusher.v ===== *)
(** * The flusher (internal/flusher: types.go, flusher.go)

    The goroutine [run] drains the ring into batches, hands them to the sink,
    retries a failed batch with backoff and releases the leases.  It is modelled
    as [run_step], one access to shared state at a time, over a [world] that
    holds the ring with the calls in progress on it, the byte pool, the flusher's
    fields and the sink; [sys_step] interleaves it with borrowers, publishers and
    the callers of [Close]. *)

From stdpp Require Import gmap strings list fin_maps.
From Stdlib Require Import ZArith Lia.
From Stdlib.Strings Require Import Byte.
From S2P Require Import Prelude GoLib Ring RingConc Pool PoolInv PoolSafety.

(** ** Configuration (types.go) *)

Definition defaultBatchSize : Z := 1024.
Definition defaultFlushInterval : Z := 50000000.
Definition defaultPollInterval : Z := 100000.
Definition defaultRetryBackoff : Z := 10000000.
Definition defaultMaxRetryBackoff : Z := 1000000000.

Record Config := mkConfig {
  BatchSize : Z; FlushInterval : Z; PollInterval : Z; RetryBackoff : Z; MaxRetryBackoff : Z
}.

#[export] Instance Config_fields : Fields Config := λ r,
  mkConfig (BatchSize r) (FlushInterval r) (PollInterval r) (RetryBackoff r) (MaxRetryBackoff r).

Definition normalized (c : Config) : result Config :=
  let c := c <| BatchSize ::= default_if_zero defaultBatchSize |>
             <| FlushInterval ::= default_if_zero defaultFlushInterval |>
             <| PollInterval ::= default_if_zero defaultPollInterval |>
             <| RetryBackoff ::= default_if_zero defaultRetryBackoff |>
             <| MaxRetryBackoff ::= default_if_zero defaultMaxRetryBackoff |> in
  _ ← guard_err ((BatchSize c <? 1) || (FlushInterval c <=? 0) || (PollInterval c <=? 0)
                 || (RetryBackoff c <=? 0) || (MaxRetryBackoff c <? RetryBackoff c))
        (ErrNew "invalid flusher batching or retry limits");
  Ok c.

(** ** The sink's contract (sink/types.go)

    [cancelled] says that the context of the call has been cancelled. *)
Class BatchSink (S : Type) := {
  sink_write : bool → list (list byte) → S → S * option error;
  sink_flush : S → S * option error;
  sink_close : S → S * option error
}.

(** ** The flusher's fields *)

Record Flusher := mkFlusher {
  f_config : Config; started : bool; stop : bool; abort : bool; done_ : bool;
  batches : Z; records : Z; bytes : Z; errors : Z; retries : Z; inFlight : Z;
  lastBatchSize : Z; lastFlushNanos : Z; totalFlushNanos : Z;
  running : bool; closing : bool; closed : bool; degraded : bool;
  lastErr : option error; finalErr : option error
}.

#[export] Instance Flusher_fields : Fields Flusher := λ r,
  mkFlusher (f_config r) (started r) (stop r) (abort r) (done_ r) (batches r) (records r) (bytes r)
    (errors r) (retries r) (inFlight r) (lastBatchSize r) (lastFlushNanos r) (totalFlushNanos r)
    (running r) (closing r) (closed r) (degraded r) (lastErr r) (finalErr r).

(** [New]; the flags say whether the arguments are nil. *)
Definition New (queue_nil pool_nil sink_nil : bool) (c : Config) : result Flusher :=
  _ ← guard_err (queue_nil || pool_nil || sink_nil) (ErrNew "flusher requires queue, pool, and sink");
  c ← normalized c;
  Ok (mkFlusher c false false false false 0 0 0 0 0 0 0 0 0 false false false false None None).

Definition Start (f : Flusher) : Flusher :=
  if started f then f else f <| started := true |> <| running := true |>.

Definition recordError (err : option error) (f : Flusher) : Flusher :=
  match err with
  | None => f
  | Some e => f <| errors ::= inc |> <| lastErr := Some e |>
  end.

Definition clearLastError (f : Flusher) : Flusher := f <| lastErr := None |>.

Definition setFinalError (err : option error) (f : Flusher) : Flusher :=
  match err with
  | None => f
  | Some e => (recordError (Some e) f) <| finalErr ::= λ o, match o with None => Some e | _ => o end |>
  end.

(** [Stats]. *)
Record Stats := mkStats {
  Batches : Z; Records : Z; Bytes : Z; Errors : Z; Retries : Z; InFlight : Z; LastBatchSize : Z;
  LastFlushNanos : Z; TotalFlushNanos : Z; Running : bool; Closing : bool; Closed : bool;
  Degraded : bool; LastError : option error
}.

Definition Flusher_Stats (f : Flusher) : Stats :=
  mkStats (batches f) (records f) (bytes f) (errors f) (retries f) (inFlight f) (lastBatchSize f)
    (lastFlushNanos f) (totalFlushNanos f) (running f) (closing f) (closed f) (degraded f) (lastErr f).

(** ** The loop of [run] *)

(** Its local variables.  A channel variable is its being non-nil; a zero time
    is 0, other times are nanoseconds. *)
Record loop := mkLoop {
  pending : list nat; deadline : Z; retryAt : Z; retryBackoff : Z; retrying : bool;
  l_closing : bool; aborting : bool; stopChannel : bool; abortChannel : bool
}.

#[export] Instance loop_fields : Fields loop := λ r,
  mkLoop (pending r) (deadline r) (retryAt r) (retryBackoff r) (retrying r) (l_closing r)
    (aborting r) (stopChannel r) (abortChannel r).

Definition new_loop (c : Config) : loop := mkLoop [] 0 0 (RetryBackoff c) false false false true true.

(** Where [run] stands: the access to shared state it does next. *)
Inductive run_pc :=
| RSelect
| RAbandon (todo : list nat)
| RDrain
| RDrainWait
| RDrainMark (h : nat)
| RDrainRelease (h : nat)
| RAbortClose
| RFill
| RFillWait
| RFillMark (h : nat)
| RFillRelease (h : nat)
| RInFlight
| RDecide
| RWrite
| RRelease (todo : list nat) (sum : Z)
| RDelivered (sum : Z)
| RExitCheck
| REmpty (consumer : Z)
| RExitFlush
| RExitClose (flushErr : option error)
| RWait
| RSleep (until : Z)
| RReturn
| RDone.

(** What the environment decides at a step: the clock, the time the sink took,
    and which of two ready channels [select] takes. *)
Record input := mkInput { i_now : Z; i_elapsed : Z; i_abort_first : bool }.

(** Ghost state: the leases of the batches the sink accepted and the bytes it
    was given for them, those given up by an abort, the batch of the last
    attempt, what was published for each lease, and what was in the ring when the
    loop found it empty and left: the number of admitted leases, and whether a
    publisher stood between its last look at [closed] and its reservation. *)
Record ghost := mkGhost {
  delivered : list (list nat); output : list (list (list byte)); gone : list nat;
  attempted : list (list byte); sent : gmap nat (list byte); left_at : option (nat * bool)
}.

#[export] Instance ghost_fields : Fields ghost := λ r,
  mkGhost (delivered r) (output r) (gone r) (attempted r) (sent r) (left_at r).

Record world (S : Type) := mkWorld {
  w_ring : ring_sys nat; w_calls : gmap nat nat; w_pool : BytePool; w_fl : Flusher;
  w_loop : loop; w_pc : run_pc; w_sink : S; w_ghost : ghost
}.
Arguments mkWorld {S}.
Arguments w_ring {S} w. Arguments w_calls {S} w. Arguments w_pool {S} w. Arguments w_fl {S} w.
Arguments w_loop {S} w. Arguments w_pc {S} w. Arguments w_sink {S} w. Arguments w_ghost {S} w.

#[export] Instance world_fields S : Fields (world S) := λ r,
  mkWorld (w_ring r) (w_calls r) (w_pool r) (w_fl r) (w_loop r) (w_pc r) (w_sink r) (w_ghost r).

(** The payload a lease shows. *)
Definition payload_of (p : BytePool) (h : nat) : list byte :=
  match leases p !! h with Some l => Payload p l | None => [] end.

Definition len_of (p : BytePool) (h : nat) : Z :=
  match leases p !! h with Some l => Lease_Len l | None => 0 end.

(** A publisher that has passed its last look at [closed]. *)
Definition past_check (pc : pub_pc nat) : bool :=
  match pc with PLoadProducer _ _ | PLoadSequence _ _ _ | PCas _ _ _ => true | _ => false end.

Definition racing (r : ring_sys nat) : bool :=
  existsb past_check (map snd (map_to_list (producers r))).

(** [shouldFlush] *)
Definition shouldFlush (c : Config) (now : Z) (lp : loop) : bool :=
  (0 <? len (pending lp)) &&
  ((retrying lp && negb (now <? retryAt lp)) ||
   (negb (retrying lp) &&
    ((BatchSize c <=? len (pending lp)) || l_closing lp || negb (now <? deadline lp)))).

(** The next backoff; the doubling is an int64. *)
Definition next_backoff (c : Config) (b : Z) : Z :=
  if b <? MaxRetryBackoff c then
    let b := i64 (b * 2) in if b >? MaxRetryBackoff c then MaxRetryBackoff c else b
  else b.

(** How long the loop sleeps. *)
Definition wait_time (c : Config) (now : Z) (lp : loop) : Z :=
  let wait :=
    if retrying lp then retryAt lp - now
    else if (0 <? len (pending lp)) && (deadline lp - now <? PollInterval c) then deadline lp - now
    else PollInterval c in
  if wait <? 0 then 0 else wait.

(** A [select] over the stop and abort channels, the first one's default or the
    second one's timer being no event. *)
Definition poll_channels (i : input) (f : Flusher) (lp : loop) : loop :=
  let ab := abortChannel lp && abort f in
  let st := stopChannel lp && stop f in
  if ab && (negb st || i_abort_first i) then
    lp <| aborting := true |> <| l_closing := true |> <| abortChannel := false |>
  else if st then lp <| l_closing := true |> <| stopChannel := false |>
  else lp.

Definition ring_action (a : action nat) (r : ring_sys nat) : ring_sys nat := default r (do_action r a).

#[global] Arguments ring_action : simpl never.

(** [errors.Is(err, pool.ErrPayloadModified)] *)
Definition is_modified (e : error) : bool := errors_Is e "lease payload changed after publication".

Section Run.
Context {S : Type} `{BatchSink S}.
Implicit Types (w : world S).

(** A step of the flusher's own flow. *)
Definition goto (pc : run_pc) w : world S := w <| w_pc := pc |>.

(** The result of the [TryConsume] under way, if it has returned. *)
Definition consumed_lease (r : ring_sys nat) : option (option nat) :=
  match con r with CReturn o => Some o | _ => None end.

Definition release (h : nat) (now : Z) w : world S * option error :=
  let '(p, err) := Release (Some h) now (w_pool w) in (w <| w_pool := p |>, err).

(** [f.sink.WriteBatch(f.workCtx, payloads)] and what follows it. *)
Definition write_batch (i : input) w : world S :=
  let c := f_config (w_fl w) in
  let lp := w_loop w in
  let payloads := map (payload_of (w_pool w)) (pending lp) in
  let fl := if retrying lp then (w_fl w) <| retries ::= inc |> else w_fl w in
  let '(s, err) := sink_write (abort fl) payloads (w_sink w) in
  let fl := fl <| lastFlushNanos := u64 (i_elapsed i) |>
               <| totalFlushNanos ::= λ n, u64 (n + i_elapsed i) |> in
  let w := w <| w_sink := s |> <| w_ghost ::= λ g, g <| attempted := payloads |> |> in
  match err with
  | None =>
      goto (RRelease (pending lp) 0)
        (w <| w_fl := fl |>
           <| w_ghost ::= λ g, g <| delivered ::= λ d, d ++ [pending lp] |>
                                 <| output ::= λ o, o ++ [payloads] |> |>)
  | Some e =>
      goto RExitCheck
        (w <| w_fl := (recordError (Some e) fl) <| degraded := true |> |>
           <| w_loop := lp <| retrying := true |> <| retryAt := i_now i + retryBackoff lp |>
                           <| retryBackoff ::= next_backoff c |> |>)
  end.

(** [if err := lease.MarkInFlight(); ...] and the append to the batch. *)
Definition fill_mark (i : input) (h : nat) w : world S :=
  let c := f_config (w_fl w) in
  let '(p, err) := MarkInFlight h (w_pool w) in
  let w := w <| w_pool := p |> <| w_fl ::= recordError err |> in
  let keep :=
    goto RFill
      (w <| w_loop ::= λ lp,
              (match pending lp with [] => lp <| deadline := i_now i + FlushInterval c |> | _ => lp end)
                <| pending ::= λ l, l ++ [h] |> |>) in
  match err with
  | None => keep
  | Some e => if is_modified e then keep else goto (RFillRelease h) w
  end.

(** The counters and variables after a delivered batch. *)
Definition count_batch (sum : Z) w : world S :=
  let n := len (pending (w_loop w)) in
  goto RSelect
    (w <| w_fl ::= λ f, clearLastError
             (f <| batches ::= inc |> <| records ::= λ r, u64 (r + n) |>
                <| bytes ::= λ b, u64 (b + sum) |> <| lastBatchSize := u64 n |>
                <| inFlight := 0 |> <| degraded := false |>) |>
       <| w_loop ::= λ lp, lp <| pending := [] |> <| deadline := 0 |> <| retryAt := 0 |>
             <| retrying := false |> <| retryBackoff := RetryBackoff (f_config (w_fl w)) |> |>).

(** The end of the loop: [setFinalError], [closed]. *)
Definition finish (err : option error) w : world S :=
  goto RReturn (w <| w_fl ::= λ f, (setFinalError err f) <| closed := true |> |>).

Definition run_step (i : input) w : world S :=
  let c := f_config (w_fl w) in
  let lp := w_loop w in
  match w_pc w with
  | RSelect =>
      let lp := poll_channels i (w_fl w) lp in
      goto (if aborting lp then RAbandon (pending lp) else if retrying lp then RDecide else RFill)
        (w <| w_loop := lp |>)
  | RAbandon [] => goto RDrain (w <| w_loop := lp <| pending := [] |> |>)
  | RAbandon (h :: todo) =>
      goto (RAbandon todo) ((release h (i_now i) w).1 <| w_ghost ::= λ g, g <| gone ::= λ l, l ++ [h] |> |>)
  | RDrain => goto RDrainWait (w <| w_ring ::= ring_action AConsume |>)
  | RDrainWait =>
      match consumed_lease (w_ring w) with
      | None => w
      | Some o => goto (match o with Some h => RDrainMark h | None => RAbortClose end)
                    (w <| w_ring ::= ring_action AConsumeReturn |>)
      end
  | RDrainMark h => goto (RDrainRelease h) (w <| w_pool ::= λ p, (MarkInFlight h p).1 |>)
  | RDrainRelease h =>
      goto RDrain ((release h (i_now i) w).1 <| w_ghost ::= λ g, g <| gone ::= λ l, l ++ [h] |> |>)
  | RAbortClose =>
      let '(s, err) := sink_close (w_sink w) in
      finish err (w <| w_fl ::= λ f, f <| inFlight := 0 |> |> <| w_sink := s |>)
  | RFill =>
      if len (pending lp) <? BatchSize c
      then goto RFillWait (w <| w_ring ::= ring_action AConsume |>)
      else goto RInFlight w
  | RFillWait =>
      match consumed_lease (w_ring w) with
      | None => w
      | Some o => goto (match o with Some h => RFillMark h | None => RInFlight end)
                    (w <| w_ring ::= ring_action AConsumeReturn |>)
      end
  | RFillMark h => fill_mark i h w
  | RFillRelease h =>
      goto RFill ((release h (i_now i) w).1 <| w_ghost ::= λ g, g <| gone ::= λ l, l ++ [h] |> |>)
  | RInFlight => goto RDecide (w <| w_fl ::= λ f, f <| inFlight := u64 (len (pending lp)) |> |>)
  | RDecide => goto (if shouldFlush c (i_now i) lp then RWrite else RExitCheck) w
  | RWrite => write_batch i w
  | RRelease [] sum => goto (RDelivered sum) w
  | RRelease (h :: todo) sum =>
      let n := len_of (w_pool w) h in
      let '(w, err) := release h (i_now i) w in
      goto (RRelease todo (u64 (sum + n))) (w <| w_fl ::= recordError err |>)
  | RDelivered sum => count_batch sum w
  | RExitCheck =>
      if l_closing lp && (len (pending lp) =? 0)
      then goto (REmpty (consumer (queue (w_ring w)))) w
      else goto RWait w
  | REmpty c0 =>
      match depth_step (queue (w_ring w)) (DLoadProducer c0) with
      | DReturn d =>
          if d =? 0
          then goto RExitFlush (w <| w_ghost ::= λ g,
                 g <| left_at := Some (length (reserved (w_ring w)), racing (w_ring w)) |> |>)
          else goto RWait w
      | _ => w
      end
  | RExitFlush =>
      let '(s, err) := sink_flush (w_sink w) in
      goto (RExitClose err) (w <| w_sink := s |>)
  | RExitClose flushErr =>
      let '(s, closeErr) := sink_close (w_sink w) in
      finish (errors_Join flushErr closeErr) (w <| w_sink := s |>)
  | RWait => goto (RSleep (i_now i + wait_time c (i_now i) lp)) w
  | RSleep until =>
      let lp' := poll_channels i (w_fl w) lp in
      if (abortChannel lp && abort (w_fl w)) || (stopChannel lp && stop (w_fl w)) || (until <=? i_now i)
      then goto RSelect (w <| w_loop := lp' |>)
      else w
  | RReturn => goto RDone (w <| w_fl ::= λ f, f <| running := false |> <| done_ := true |> |>)
  | RDone => w
  end.

(** ** Close *)

(** The steps of [Close] before its [select]. *)
Definition close_queue w : world S := w <| w_fl ::= Start |> <| w_ring ::= ring_action AClose |>.
Definition close_mark w : world S := w <| w_fl ::= λ f, f <| closing := true |> |>.
Definition close_stop w : world S := w <| w_fl ::= λ f, f <| stop := true |> |>.

(** The second branch of the [select]: the context is done. *)
Definition close_abort w : world S := w <| w_fl ::= λ f, f <| abort := true |> |>.

(** [CloseTimeoutError] *)
Record CloseTimeoutError := mkCloseTimeout { Queued : Z; cte_InFlight : Z; Cause : error }.

Inductive close_result := CloseDone (err : option error) | CloseTimeout (e : CloseTimeoutError).

(** [closeCause]; the context's cause is nil or an error. *)
Definition closeCause (cause : option error) : error :=
  match cause with Some e => e | None => ErrNew "context deadline exceeded" end.

(** What [Close] returns when [done] is closed, or when its context is. *)
Definition close_return (ctx_done : option (option error)) w : option close_result :=
  match ctx_done with
  | Some cause =>
      Some (CloseTimeout (mkCloseTimeout (QueueDepth (queue (w_ring w))) (inFlight (w_fl w)) (closeCause cause)))
  | None => if done_ (w_fl w) then Some (CloseDone (finalErr (w_fl w))) else None
  end.

(** ** The system *)

(** Calls of borrowers on the pool.  A handle the appender has taken over is
    not released by others, and nobody writes to a published payload. *)
Definition borrower_op (op : pool_op) (p : BytePool) : Prop :=
  match op with
  | DoMarkQueued _ | DoRollbackQueued _ | DoMarkInFlight _ => False
  | DoRelease (Some h) _ => ∀ l, leases p !! h = Some l → l_state l ≠ StateInFlight
  | DoPoke b _ _ => ∀ h l, leases p !! h = Some l → l_block l = Some b → l_state l = StateBorrowed
  | _ => True
  end.

(** [MarkQueued] and the call of [TryPublish]; its return, and the rollback
    when the lease was not accepted. *)
Definition publish_call (tid h : nat) w : option (world S) :=
  match MarkQueued h (w_pool w) with
  | (p, None) =>
      r ← do_action (w_ring w) (ACall tid (Some h));
      Some (w <| w_pool := p |> <| w_ring := r |> <| w_calls ::= <[tid := h]> |>
              <| w_ghost ::= λ g, g <| sent ::= <[h := payload_of p h]> |> |>)
  | (_, Some _) => None
  end.

Definition publish_return (tid : nat) w : option (world S) :=
  match producers (w_ring w) !! tid, w_calls w !! tid with
  | Some (PReturn r), Some h =>
      ring ← do_action (w_ring w) (AReturn tid);
      Some (w <| w_ring := ring |> <| w_calls ::= delete tid |>
              <| w_pool ::= λ p, if decide (r = PublishAccepted) then p else (RollbackQueued h p).1 |>)
  | _, _ => None
  end.

Inductive sys_step : world S → world S → Prop :=
| sys_run i w : running (w_fl w) = true → sys_step w (run_step i w)
| sys_consume w r : do_action (w_ring w) AConsumeStep = Some r → sys_step w (w <| w_ring := r |>)
| sys_produce tid w r : do_action (w_ring w) (AStep tid) = Some r → sys_step w (w <| w_ring := r |>)
| sys_publish tid h w w' : publish_call tid h w = Some w' → sys_step w w'
| sys_return tid w w' : publish_return tid w = Some w' → sys_step w w'
| sys_borrow op w : borrower_op op (w_pool w) → sys_step w (w <| w_pool := (pool_do op (w_pool w)).1 |>)
| sys_scan now w : sys_step w (w <| w_pool := (ScanOverdue now (w_pool w)).1 |>)
| sys_start w : sys_step w (w <| w_fl ::= Start |>)
| sys_close_queue w : sys_step w (close_queue w)
| sys_close_mark w : Ring.closed (queue (w_ring w)) = true → sys_step w (close_mark w)
| sys_close_stop w : closing (w_fl w) = true → sys_step w (close_stop w)
| sys_abort w : stop (w_fl w) = true → sys_step w (close_abort w).

(** The start: a new ring of capacity [2^k], a new pool, a new flusher. *)
Definition sys_init (k base : Z) w : Prop :=
  ring_start k base (w_ring w) ∧ w_calls w = ∅ ∧
  (∃ c, Pool.New c = Ok (w_pool w)) ∧ (∃ c, New false false false c = Ok (w_fl w)) ∧
  w_loop w = new_loop (f_config (w_fl w)) ∧ w_pc w = RSelect ∧
  w_ghost w = mkGhost [] [] [] [] ∅ None.

Definition sys_reach (k base : Z) : world S → Prop := reach (sys_init k base) sys_step.

End Run.
