(* ===== verification/FlushInv.v ===== *)
(** * The invariant of the flusher

    Every admitted lease is, in admission order, settled (returned to the pool),
    in the flusher's hands (in flight) or still to come (queued); this is proved
    for every interleaving of [Flusher.sys_step]. *)

From stdpp Require Import gmap strings list fin_maps.
From Stdlib Require Import ZArith Lia.
From Stdlib.Strings Require Import Byte.
From S2P Require Import Prelude GoLib Ring RingConc Pool PoolInv PoolSafety Flusher.

(** ** What the pool promises its clients *)

Definition in_state (p : BytePool) (z : Z) (h : nat) : Prop :=
  ∃ l, leases p !! h = Some l ∧ l_state l = z.

(** Lease [h] keeps its record and its payload. *)
Definition kept (p p' : BytePool) (h : nat) : Prop :=
  ∀ l, leases p !! h = Some l → leases p' !! h = Some l ∧ Payload p' l = Payload p l.

(** Every published lease shows the bytes recorded for it. *)
Definition sent_ok (p : BytePool) (sent : gmap nat (list byte)) : Prop :=
  ∀ h, in_state p StateQueued h ∨ in_state p StateInFlight h → sent !! h = Some (payload_of p h).

Lemma in_state_kept p p' z h : kept p p' h → in_state p z h → in_state p' z h.
Proof. intros K (l & Hl & Hs). destruct (K l Hl) as [H _]. by exists l. Qed.

Lemma payload_kept p p' h : kept p p' h → is_Some (leases p !! h) → payload_of p' h = payload_of p h.
Proof. intros K [l Hl]. destruct (K l Hl) as [H E]. unfold payload_of. by rewrite H, Hl. Qed.

Lemma in_state_fun p z z' h : in_state p z h → in_state p z' h → z = z'.
Proof. intros (l & Hl & <-) (l' & Hl' & <-). congruence. Qed.

Lemma in_state_Some p z h : in_state p z h → is_Some (leases p !! h).
Proof. intros (l & Hl & _). eauto. Qed.

Lemma other_kept op p h :
  inv (skeleton p) → target op ≠ Some h → (∀ b i x, op ≠ DoPoke b i x) → kept p (pool_do op p).1 h.
Proof.
  intros I T N l Hl. destruct (do_undisturbed op p h l I Hl) as [H B].
  - split; [done|]. intros b i x ->. by destruct (N b i x).
  - split; [done|]. by apply Payload_block.
Qed.

(** A call on one lease changes the state of no other. *)
Lemma other_back op p h h' z :
  target op = Some h → h' ≠ h → in_state (pool_do op p).1 z h' → in_state p z h'.
Proof.
  intros T Hne (l & Hl & Hs). exists l. split; [|done].
  destruct (do_effect op p) as [<-|? ? _|? ? ? T' _ E _]; [done|congruence|].
  rewrite E, list_lookup_insert_ne in Hl; [done|congruence].
Qed.

(** Whatever borrowers do, a lease that is not borrowed is kept. *)
Lemma borrower_kept op p h z :
  inv (skeleton p) → lengths_ok p → borrower_op op p → in_state p z h → z ≠ StateBorrowed →
  kept p (pool_do op p).1 h.
Proof.
  intros I Ln B (l & Hl & <-) Hz l0 Hl0. rewrite Hl in Hl0. injection Hl0 as <-.
  destruct (Ln h l Hl) as (R & _).
  destruct (decide (target op = Some h)) as [T|T].
  - assert (L : lifecycle op (l_state l) = None).
    { destruct op as [| [h'|] | | | | | | | | |]; cbn in T, B |- *; try done;
        simplify_eq; rewrite ?(proj2 (Z.eqb_neq _ _)) by done; try done.
      rewrite (proj2 (Z.eqb_neq _ _)); [done|]. by apply B. }
    destruct (refused op p h l T Hl R L) as (_ & E1 & E2). rewrite E1. split; [done|].
    apply Payload_block. unfold block_data. by rewrite E2.
  - destruct (do_undisturbed op p h l I Hl) as [H1 H2].
    + split; [done|]. intros b i x -> Hb. cbn in B. by apply Hz, (B h l).
    + split; [done|]. by apply Payload_block.
Qed.

(** A borrower's call publishes nothing. *)
Lemma borrower_back op p h z :
  borrower_op op p → in_state (pool_do op p).1 z h → z = StateQueued ∨ z = StateInFlight →
  in_state p z h.
Proof.
  intros B (l & Hl & <-) Hz.
  destruct (do_effect op p) as [E|l0 _ E Hs0 _|h0 l0 l1 _ Hl0 E V]; rewrite E in Hl.
  - by exists l.
  - apply lookup_app_Some in Hl as [Hl|[_ Hl]]; [by exists l|].
    apply list_lookup_singleton_Some in Hl as [_ <-]. rewrite Hs0 in Hz. by destruct Hz.
  - apply list_lookup_insert_Some in Hl as [(<- & <- & _)|[_ Hl]]; [|by exists l].
    pose proof (ev_state _ _ _ _ V) as T.
    destruct op; cbn in T, B; try done; destruct T as [_ T]; rewrite T in Hz; by destruct Hz.
Qed.

Lemma scan_kept now p h : kept p (ScanOverdue now p).1 h.
Proof.
  intros l Hl. unfold ScanOverdue. destruct (decide _); [done|]. cbn. unfold scan_add.
  by destruct (_ =? 0).
Qed.

Lemma scan_skeleton now p : skeleton (ScanOverdue now p).1 = skeleton p.
Proof.
  unfold ScanOverdue. destruct (decide _); [done|]. cbn [scan_mark fst].
  rewrite skeleton_scan_add. apply (skeleton_scan_mark now).
Qed.

Lemma scan_lengths now p : lengths_ok p → lengths_ok (ScanOverdue now p).1.
Proof.
  intros L. unfold ScanOverdue. destruct (decide _); [done|]. cbn. unfold scan_add.
  destruct (_ =? 0); exact L.
Qed.

(** *** The transitions of a published lease *)

Lemma MarkQueued_state h p p' :
  MarkQueued h p = (p', None) →
  in_state p StateBorrowed h ∧ in_state p' StateQueued h.
Proof.
  intros (l & Hl & Hs & ->)%MarkQueued_ok. split; [by exists l|].
  eexists. cbn. rewrite list_lookup_insert_eq by (by apply lookup_lt_Some in Hl). done.
Qed.

Lemma RollbackQueued_state h p :
  in_state p StateQueued h → in_state (RollbackQueued h p).1 StateBorrowed h.
Proof.
  intros (l & Hl & Hs).
  destruct (accepted (DoRollbackQueued h) p h l StateBorrowed) as (_ & l' & Hl' & Hs' & _);
    [done|done|cbn; by rewrite Hs|]. by exists l'.
Qed.

Lemma MarkInFlight_state h p :
  in_state p StateQueued h →
  in_state (MarkInFlight h p).1 StateInFlight h ∧
  payload_of (MarkInFlight h p).1 h = payload_of p h ∧
  ((MarkInFlight h p).2 = None ∨ (MarkInFlight h p).2 = Some ErrPayloadModified).
Proof.
  intros (l & Hl & Hs).
  destruct (accepted (DoMarkInFlight h) p h l StateInFlight) as (E & l' & Hl' & Hs' & _);
    [done|done|cbn; by rewrite Hs|]. cbn in *.
  split; [by exists l'|]. split; [|done].
  destruct (MarkInFlight_lease h p l l' Hl Hs Hl') as (B1 & B2 & _ & B3).
  unfold payload_of. rewrite Hl, Hl'. unfold Payload, block_data. by rewrite B1, B2, B3, Hs, Hs'.
Qed.

Lemma Release_state h now p :
  in_state p StateInFlight h →
  (Release (Some h) now p).2 = None ∧ in_state (Release (Some h) now p).1 StateReturned h.
Proof.
  intros (l & Hl & Hs).
  destruct (accepted (DoRelease (Some h) now) p h l StateReturned) as (E & l' & Hl' & Hs' & _);
    [done|done|cbn; by rewrite Hs|]. cbn in *. split; [done|]. by exists l'.
Qed.

(** ** The ring's side *)

(** The lease the consumer's call has swapped out and not yet handed over. *)
Definition got (r : ring_sys nat) : list nat :=
  match con r with
  | CStoreSequence _ v | CStoreCursor _ v | CCount v | CReturn (Some v) => [v]
  | _ => []
  end.

Lemma consume_step r r' :
  do_action r AConsumeStep = Some r' →
  reserved r' = reserved r ∧ producers r' = producers r ∧ con r ≠ CIdle ∧ con r' ≠ CIdle ∧
  Ring.closed (queue r') = Ring.closed (queue r) ∧
  ((got r' = got r ∧ taken r' = taken r) ∨
   (got r = [] ∧ ∃ v, got r' = [v] ∧ taken r' = taken r ++ [v])).
Proof.
  unfold do_action, got. destruct (con r) as [| |pos|pos|pos v|pos v|v|o] eqn:E; cbn; try done;
    intros [= <-]; cbn; rewrite ?app_nil_r; try (by split_and!; auto).
  - destruct (_ =? 0); cbn; rewrite ?app_nil_r; split_and!; auto.
  - destruct (value _) as [v|]; cbn; rewrite ?app_nil_r; split_and!; eauto.
Qed.

(** A publisher that has not reserved a position, or will not. *)
Definition before (pc : pub_pc nat) : bool :=
  match pc with
  | PLoadConsumer _ _ | PLoadHighWater _ _ _ | PCasHighWater _ _ _ _ | PStoreValue _ _
  | PStoreSequence _ _ | PCountPublished | PReturn PublishAccepted => false
  | _ => true
  end.

(** The call carries lease [h]. *)
Definition carries (pc : pub_pc nat) (h : nat) : Prop :=
  match pc with
  | PBegin o => o = Some h
  | PCheckClosed v | PAttempt v _ | PLoadProducer v _ | PLoadSequence v _ _ | PCas v _ _ => v = h
  | PCountInvalid | PReturn PublishInvalid => False
  | _ => True
  end.

Lemma pub_step_carries q pc q' pc' h :
  pub_step q pc = (q', pc') → carries pc h →
  carries pc' h ∧ Ring.closed q' = Ring.closed q ∧
  ((before pc' = before pc ∧ reserves pc pc' = []) ∨
   (before pc = true ∧ before pc' = false ∧ reserves pc pc' = [h] ∧ past_check pc = true)).
Proof.
  destruct pc as [[v|]| |v| |v a|v a|v a pos|v a pos|v pos|v pos d|v pos d c|v pos|v pos| | |r];
    cbn; intros E C; try done; unfold next_attempt in E;
    repeat match goal with
    | E : context [if ?b then _ else _] |- _ => destruct b eqn:?
    end; injection E as <- <-; cbn; simplify_eq; try (by split_and!; auto).
Qed.

(** ** The invariant *)

(** Every call in progress is about a queued lease that nobody else publishes. *)
Record calls_ok (r : ring_sys nat) (calls : gmap nat nat) (p : BytePool) : Prop := {
  co_call : ∀ tid pc, producers r !! tid = Some pc → ∃ h, calls !! tid = Some h ∧ carries pc h ∧
    (before pc = true → in_state p StateQueued h ∧ h ∉ reserved r);
  co_inj : ∀ t1 t2 pc1 pc2 h, producers r !! t1 = Some pc1 → producers r !! t2 = Some pc2 →
    before pc1 = true → before pc2 = true → calls !! t1 = Some h → calls !! t2 = Some h → t1 = t2
}.

(** The lease between [TryConsume] and [MarkInFlight]. *)
Definition unmarked (pc : run_pc) : list nat :=
  match pc with RFillMark h | RDrainMark h => [h] | _ => [] end.

Definition consuming (pc : run_pc) : bool :=
  match pc with RFillWait | RDrainWait => true | _ => false end.

Definition con_matches (r : ring_sys nat) (pc : run_pc) : Prop :=
  if consuming pc then con r ≠ CIdle else con r = CIdle.

(** What is settled and what is in flight at each point of the loop. *)
Definition stage (pc : run_pc) (lp : loop) (g : ghost) (settled inflight : list nat) : Prop :=
  match pc with
  | RRelease todo _ => inflight = todo ∧ gone g = [] ∧ concat (delivered g) = settled ++ todo ∧
      ∃ d, delivered g = d ++ [pending lp]
  | RDelivered _ => inflight = [] ∧ gone g = [] ∧ concat (delivered g) = settled ∧
      ∃ d, delivered g = d ++ [pending lp]
  | RAbandon todo => inflight = todo ∧ settled = concat (delivered g) ++ gone g ∧ aborting lp = true
  | RDrain | RDrainWait | RDrainMark _ | RAbortClose =>
      inflight = [] ∧ pending lp = [] ∧ settled = concat (delivered g) ++ gone g ∧ aborting lp = true
  | RDrainRelease h =>
      inflight = [h] ∧ pending lp = [] ∧ settled = concat (delivered g) ++ gone g ∧ aborting lp = true
  | RFillRelease _ => False
  | RReturn | RDone => inflight = [] ∧ pending lp = [] ∧ settled = concat (delivered g) ++ gone g ∧
      (aborting lp = true ∨ gone g = [])
  | REmpty _ | RExitFlush | RExitClose _ =>
      inflight = [] ∧ pending lp = [] ∧ settled = concat (delivered g) ∧ gone g = [] ∧ aborting lp = false
  | RSelect => inflight = pending lp ∧ settled = concat (delivered g) ∧ gone g = []
  | _ => inflight = pending lp ∧ settled = concat (delivered g) ∧ gone g = [] ∧ aborting lp = false
  end.

(** The admitted leases in admission order. *)
Definition lined (r : ring_sys nat) (p : BytePool) (pc : run_pc) (lp : loop) (g : ghost)
  (settled inflight rest : list nat) : Prop :=
  reserved r = settled ++ inflight ++ rest ∧
  taken r = settled ++ inflight ++ unmarked pc ++ got r ∧
  Forall (in_state p StateReturned) settled ∧ Forall (in_state p StateInFlight) inflight ∧
  Forall (in_state p StateQueued) rest ∧ stage pc lp g settled inflight.

(** The published bytes of leases. *)
Definition published_bytes (g : ghost) (l : list nat) : list (list byte) :=
  map (λ h, default [] (sent g !! h)) l.

Definition output_ok (g : ghost) : Prop := output g = map (published_bytes g) (delivered g).

Record flow (r : ring_sys nat) (calls : gmap nat nat) (p : BytePool) (pc : run_pc) (lp : loop)
  (g : ghost) : Prop := {
  fl_inv : inv (skeleton p);
  fl_lengths : lengths_ok p;
  fl_con : con_matches r pc;
  fl_calls : calls_ok r calls p;
  fl_sent : sent_ok p (sent g);
  fl_output : output_ok g;
  fl_nodup : NoDup (reserved r);
  fl_lined : ∃ settled inflight rest, lined r p pc lp g settled inflight rest
}.

(** Consumption follows admission. *)
Definition fifo_ok (r : ring_sys nat) : Prop := taken r = take (length (taken r)) (reserved r).

Section Flow.
Implicit Types (r : ring_sys nat) (p : BytePool) (g : ghost) (lp : loop) (pc : run_pc).

Lemma rest_split r p pc lp g settled inflight rest :
  fifo_ok r → lined r p pc lp g settled inflight rest →
  ∃ rest', rest = unmarked pc ++ got r ++ rest'.
Proof.
  intros F (E1 & E2 & _). unfold fifo_ok in F. rewrite E1, E2 in F.
  exists (drop (length (unmarked pc ++ got r)) rest).
  rewrite app_assoc in F. rewrite (app_assoc settled inflight rest) in F.
  rewrite length_app, take_app_add in F. apply app_inv_head in F.
  rewrite app_assoc, F at 1. by rewrite take_drop.
Qed.

(** Admitted leases have left the borrower. *)
Lemma reserved_state r calls p pc lp g h :
  flow r calls p pc lp g → h ∈ reserved r →
  in_state p StateReturned h ∨ in_state p StateInFlight h ∨ in_state p StateQueued h.
Proof.
  intros [_ _ _ _ _ _ _ (settled & inflight & rest & E & _ & F1 & F2 & F3 & _)] Hh.
  rewrite E, !elem_of_app in Hh. rewrite Forall_forall in F1, F2, F3. naive_solver.
Qed.

(** A change of the pool that keeps what is not borrowed. *)
Lemma flow_pool r calls p p' pc lp g :
  flow r calls p pc lp g → inv (skeleton p') → lengths_ok p' →
  (∀ h z, in_state p z h → z ≠ StateBorrowed → kept p p' h) →
  (∀ h z, in_state p' z h → z = StateQueued ∨ z = StateInFlight → in_state p z h) →
  flow r calls p' pc lp g.
Proof.
  intros [I Ln C [K1 K2] Sn O N (s & f & q & E1 & E2 & F1 & F2 & F3 & St)] I' L' K B.
  assert (KS : ∀ z h, z ≠ StateBorrowed → in_state p z h → in_state p' z h).
  { intros z h Hz Hh. eapply in_state_kept; [by eapply K|done]. }
  constructor; try done.
  - constructor; [|done]. intros tid pc' Hpc. destruct (K1 tid pc' Hpc) as (h & Hh & Hc & Hb).
    exists h. split_and!; try done. intros Bf. destruct (Hb Bf) as [Q R]. split; [|done]. by apply KS.
  - intros h Hh. assert (Hh' : in_state p StateQueued h ∨ in_state p StateInFlight h).
    { destruct Hh as [Hh|Hh]; [left|right]; eapply B; eauto. }
    rewrite (Sn h Hh'). f_equal. symmetry.
    destruct Hh' as [Hh'|Hh']; (apply payload_kept; [by eapply K|by eapply in_state_Some]).
  - exists s, f, q. split_and!; try done; (eapply Forall_impl; [done|]; intros; by apply KS).
Qed.

(** A step of the loop on its own variables. *)
Lemma flow_local r calls p pc pc' lp lp' g g' :
  flow r calls p pc lp g → con_matches r pc' → unmarked pc' = unmarked pc →
  delivered g' = delivered g → output g' = output g → sent g' = sent g →
  (∀ settled inflight, stage pc lp g settled inflight → stage pc' lp' g' settled inflight) →
  flow r calls p pc' lp' g'.
Proof.
  intros [I Ln C K Sn O N (s & f & q & E1 & E2 & F1 & F2 & F3 & St)] C' U D1 D2 D3 M.
  constructor; try done.
  - by rewrite D3.
  - unfold output_ok, published_bytes in *. by rewrite D1, D2, D3.
  - exists s, f, q. split_and!; try done; [by rewrite U|by apply M].
Qed.

(** A step of the consumer's call. *)
Lemma flow_consume r r' calls p pc lp g :
  flow r calls p pc lp g → do_action r AConsumeStep = Some r' → flow r' calls p pc lp g.
Proof.
  intros [I Ln C [K1 K2] Sn O N (s & f & q & E1 & E2 & F)] D.
  destruct (consume_step r r' D) as (R1 & R2 & R3 & R4 & _ & R5).
  constructor; try done.
  - unfold con_matches in *. by destruct (consuming pc).
  - constructor; rewrite ?R1, R2; done.
  - by rewrite R1.
  - exists s, f, q. unfold lined. rewrite R1. split; [done|]. split; [|done].
    destruct R5 as [[-> ->]|(Hg & v & -> & ->)]; [done|].
    rewrite E2, Hg. by rewrite app_nil_r, <- !app_assoc.
Qed.

(** A step of a publisher's call. *)
Lemma flow_produce r r' calls p pc lp g tid :
  flow r calls p pc lp g → do_action r (AStep tid) = Some r' → flow r' calls p pc lp g.
Proof.
  intros Fl D. pose proof (λ h, reserved_state r calls p pc lp g h Fl) as RS.
  destruct Fl as [I Ln C [K1 K2] Sn O N (s & f & q & E1 & E2 & F1 & F2 & F3 & St)].
  cbn in D. destruct (producers r !! tid) as [pp|] eqn:Hp; [|done].
  destruct (pub_running pp); [|done].
  destruct (pub_step (queue r) pp) as [q' pp'] eqn:Hs. injection D as <-.
  destruct (K1 tid pp Hp) as (h & Hh & Hc & Hb).
  destruct (pub_step_carries _ _ _ _ h Hs Hc) as (Hc' & _ & Hbr).
  assert (HR : reserves pp pp' = [] ∨ (before pp' = false ∧ reserves pp pp' = [h]
    ∧ in_state p StateQueued h ∧ h ∉ reserved r)).
  { destruct Hbr as [[_ ->]|(B1 & B2 & B3 & _)]; [by left|]. right.
    destruct (Hb B1) as [? ?]. by split_and!. }
  constructor; try done; cbn.
  - constructor; cbn.
    + intros t pc1 [[<- <-]|[Hne Ht]]%lookup_insert_Some.
      * exists h. split_and!; try done. intros B. destruct Hbr as [[B' ->]|(_ & B' & _)]; [|congruence].
        rewrite app_nil_r. apply Hb. congruence.
      * destruct (K1 t pc1 Ht) as (h1 & Hh1 & Hc1 & Hb1). exists h1. split_and!; try done.
        intros B. destruct (Hb1 B) as [Q R]. split; [done|]. rewrite elem_of_app. intros [?|Hin]; [done|].
        destruct HR as [HR|(_ & HR & _)]; rewrite HR in Hin; [by apply elem_of_nil in Hin|].
        apply list_elem_of_singleton in Hin as ->.
        destruct Hbr as [[_ Hn]|(B1 & _)]; [congruence|].
        apply Hne. by eapply K2.
    + intros t1 t2 pc1 pc2 h0 H1 H2 B1 B2 C1 C2.
      assert (P : ∀ t (pc0 : pub_pc nat), <[tid:=pp']> (producers r) !! t = Some pc0 → before pc0 = true →
        ∃ pc0', producers r !! t = Some pc0' ∧ before pc0' = true).
      { intros t pc0 [[<- <-]|[_ Ht]]%lookup_insert_Some B; [|eauto].
        destruct Hbr as [[Bq _]|(_ & Bq & _)]; [|congruence]. exists pp. by rewrite <- Bq. }
      destruct (P t1 pc1 H1 B1) as (? & ? & ?), (P t2 pc2 H2 B2) as (? & ? & ?). by eapply K2.
  - destruct HR as [-> |(_ & -> & _ & Hn)]; [by rewrite app_nil_r|].
    apply NoDup_app. split_and!; [done| |apply NoDup_singleton].
    by intros x Hx ->%list_elem_of_singleton.
  - exists s, f, (q ++ reserves pp pp'). split_and!; try done.
    + cbn. by rewrite E1, !app_assoc.
    + apply Forall_app. split; [done|].
      destruct HR as [-> |(_ & -> & Hq & _)]; [constructor|]. by apply Forall_singleton.
Qed.
(** A call of the flusher on the lease of an admitted event. *)
Lemma flow_lease op h r calls p pc pc' lp lp' g g' :
  flow r calls p pc lp g → h ∈ reserved r → target op = Some h → (∀ b i x, op ≠ DoPoke b i x) →
  let p' := (pool_do op p).1 in
  (∀ z, in_state p' z h → z = StateQueued ∨ z = StateInFlight →
     payload_of p' h = payload_of p h ∧ (in_state p StateQueued h ∨ in_state p StateInFlight h)) →
  con_matches r pc' → output_ok g' → sent g' = sent g →
  (∃ s f q, lined r p' pc' lp' g' s f q) → flow r calls p' pc' lp' g'.
Proof.
  intros [I Ln _ [K1 K2] Sn _ N _] Hh T NP p' Hp C' O' S' L.
  assert (K : ∀ h', h' ≠ h → kept p p' h') by (intros h' ?; apply other_kept; congruence || done).
  constructor; try done; [by apply inv_do|by apply lengths_ok_do| |].
  - constructor; [|done]. intros tid pc0 Hpc. destruct (K1 tid pc0 Hpc) as (h0 & Hh0 & Hc0 & Hb0).
    exists h0. split_and!; try done. intros B. destruct (Hb0 B) as [Q R]. split; [|done].
    eapply in_state_kept; [|done]. apply K. by intros ->.
  - rewrite S'. intros h' Hh'. destruct (decide (h' = h)) as [->|Hne].
    + assert (P : payload_of p' h = payload_of p h ∧ (in_state p StateQueued h ∨ in_state p StateInFlight h))
        by (destruct Hh'; eapply Hp; eauto).
      destruct P as [-> P]. by apply Sn.
    + assert (B : ∀ z, in_state p' z h' → in_state p z h') by (intros z; by apply other_back with h).
      assert (P : in_state p StateQueued h' ∨ in_state p StateInFlight h') by naive_solver.
      rewrite (Sn _ P). f_equal. symmetry. apply payload_kept; [by apply K|].
      destruct P as [P|P]; by eapply in_state_Some.
Qed.

Lemma Forall_kept p p' z h l :
  (∀ h', h' ≠ h → kept p p' h') → h ∉ l → Forall (in_state p z) l → Forall (in_state p' z) l.
Proof.
  intros K Hn F. rewrite Forall_forall in F |- *. intros x Hx.
  eapply in_state_kept; [apply K; by intros ->|by apply F].
Qed.

(** [Release] of the first lease in flight. *)
Lemma flow_release h now r calls p pc pc' lp lp' g g' :
  flow r calls p pc lp g → con_matches r pc' → unmarked pc' = unmarked pc →
  sent g' = sent g → delivered g' = delivered g → output g' = output g →
  (∀ settled inflight, stage pc lp g settled inflight →
     ∃ todo, inflight = h :: todo ∧ stage pc' lp' g' (settled ++ [h]) todo) →
  flow r calls (Release (Some h) now p).1 pc' lp' g' ∧ (Release (Some h) now p).2 = None.
Proof.
  intros F C' U S' D' O' M.
  assert (F' := F). destruct F' as [I Ln _ _ Sn O N (s & f & q & E1 & E2 & F1 & F2 & F3 & St)].
  destruct (M s f St) as (todo & -> & St').
  assert (Hi : in_state p StateInFlight h) by (inversion F2; done).
  destruct (Release_state h now p Hi) as [E Hr]. split; [|done].
  assert (Hin : h ∈ reserved r) by (rewrite E1; apply list_elem_of_In, in_elt).
  assert (K : ∀ h', h' ≠ h → kept p (Release (Some h) now p).1 h').
  { intros h' ?. apply (other_kept (DoRelease (Some h) now)); [done|cbn; congruence|done]. }
  apply (flow_lease (DoRelease (Some h) now) h r calls p pc pc' lp lp' g g'); try done.
  - intros z Hz Hzz. assert (z = StateReturned) as -> by (by eapply in_state_fun). by destruct Hzz.
  - unfold output_ok, published_bytes in *. by rewrite O', D', S'.
  - rewrite E1 in N. apply NoDup_app in N as (_ & N1 & N2). cbn in N2.
    apply NoDup_cons in N2 as [N2 _].
    assert (Hs : h ∉ s) by (intros ?; eapply N1; [done|apply list_elem_of_here]).
    exists (s ++ [h]), todo, q. split_and!; try done.
    + by rewrite E1, <- !app_assoc.
    + by rewrite U, E2, <- !app_assoc.
    + apply Forall_app. split; [by eapply Forall_kept|by apply Forall_singleton].
    + rewrite not_elem_of_app in N2. eapply Forall_kept; [done|apply N2|by inversion F2].
    + rewrite not_elem_of_app in N2. eapply Forall_kept; [done|apply N2|done].
Qed.

(** [MarkInFlight] of the lease just taken from the ring. *)
Lemma flow_mark h r calls p pc pc' lp lp' g :
  flow r calls p pc lp g → fifo_ok r → unmarked pc = [h] → unmarked pc' = [] →
  con_matches r pc' → got r = [] →
  (∀ settled inflight, stage pc lp g settled inflight → stage pc' lp' g settled (inflight ++ [h])) →
  flow r calls (MarkInFlight h p).1 pc' lp' g ∧
  ((MarkInFlight h p).2 = None ∨ (MarkInFlight h p).2 = Some ErrPayloadModified).
Proof.
  intros F Ff U U' C' G M. assert (F' := F).
  destruct F' as [I Ln _ _ Sn O N (s & f & q & L)].
  destruct (rest_split r p pc lp g s f q Ff L) as [q' ->].
  destruct L as (E1 & E2 & F1 & F2 & F3 & St). rewrite U, G in *. cbn in *.
  assert (Hq : in_state p StateQueued h) by (inversion F3; done).
  destruct (MarkInFlight_state h p Hq) as (Hi & Pl & Er). split; [|done].
  assert (Hin : h ∈ reserved r) by (rewrite E1, app_assoc; apply list_elem_of_In, in_elt).
  assert (K : ∀ h', h' ≠ h → kept p (MarkInFlight h p).1 h').
  { intros h' ?. apply (other_kept (DoMarkInFlight h)); [done|cbn; congruence|done]. }
  apply (flow_lease (DoMarkInFlight h) h r calls p pc pc' lp lp' g g); try done; [by auto|].
  rewrite E1 in N. apply NoDup_app in N as (_ & N1 & N2).
  apply NoDup_app in N2 as (_ & N2 & N3). apply NoDup_cons in N3 as [N3 _].
  exists s, (f ++ [h]), q'. split_and!.
  - by rewrite E1, <- !app_assoc.
  - rewrite U', G, E2. by rewrite !app_nil_r.
  - eapply Forall_kept; [done| |done]. intros ?. eapply N1; [done|apply list_elem_of_In, in_elt].
  - apply Forall_app. split; [|by apply Forall_singleton].
    eapply Forall_kept; [done| |done]. intros ?. eapply N2; [done|apply list_elem_of_here].
  - eapply Forall_kept; [done|done|]. by inversion F3.
  - by apply M.
Qed.
(** [TryConsume] is called, and returns. *)
Lemma flow_call_consume r calls p pc pc' lp g :
  flow r calls p pc lp g → con r = CIdle → consuming pc' = true → unmarked pc = [] → unmarked pc' = [] →
  (∀ settled inflight, stage pc lp g settled inflight → stage pc' lp g settled inflight) →
  flow (ring_action AConsume r) calls p pc' lp g.
Proof.
  intros [I Ln C [K1 K2] Sn O N (s & f & q & E1 & E2 & F)] Hc Hp U U' M.
  unfold ring_action. cbn. rewrite Hc. cbn. constructor; try done.
  - unfold con_matches. by rewrite Hp.
  - exists s, f, q. unfold lined, got in *. rewrite Hc, U in E2. rewrite U'. cbn in *.
    split_and!; try done; try apply F. by apply M, F.
Qed.

Lemma flow_consume_return r calls p pc pc' lp g o :
  flow r calls p pc lp g → con r = CReturn o → consuming pc' = false → unmarked pc = [] →
  unmarked pc' = match o with Some h => [h] | None => [] end →
  (∀ settled inflight, stage pc lp g settled inflight → stage pc' lp g settled inflight) →
  flow (ring_action AConsumeReturn r) calls p pc' lp g.
Proof.
  intros [I Ln C [K1 K2] Sn O N (s & f & q & E1 & E2 & F)] Hc Hp U U' M.
  unfold ring_action. cbn. rewrite Hc. cbn. constructor; try done.
  - unfold con_matches. by rewrite Hp.
  - exists s, f, q. unfold lined, got in *. rewrite Hc, U in E2. rewrite U'. cbn in *.
    split_and!; try done; try apply F; [|by apply M, F].
    rewrite E2. by destruct o; rewrite ?app_nil_r.
Qed.

(** *** The publishers' calls *)

(** What the sink has accepted and what an abort gave up come first. *)
Lemma stage_front pc lp g settled inflight :
  stage pc lp g settled inflight →
  (∃ rest, settled ++ inflight = concat (delivered g) ++ gone g ++ rest) ∧
  (gone g ≠ [] → aborting lp = true).
Proof.
  intros St. assert (X : gone g = [] ∨ aborting lp = true) by (destruct pc; naive_solver).
  split; [|naive_solver].
  assert (Y : settled = concat (delivered g) ++ gone g ∨
    gone g = [] ∧ concat (delivered g) = settled ++ inflight).
  { destruct pc; cbn in St; try done; split_and_all; simplify_eq; rewrite ?app_nil_r; auto;
      left; repeat match goal with E : gone _ = _ |- _ => rewrite E end; by rewrite app_nil_r. }
  destruct Y as [-> |[-> ->]]; [exists inflight; by rewrite app_assoc|exists []; by rewrite app_nil_r].
Qed.

Lemma stage_delivered pc lp g settled inflight h :
  stage pc lp g settled inflight → h ∈ concat (delivered g) → h ∈ settled ++ inflight.
Proof.
  rewrite elem_of_app. intros St Hh.
  destruct pc; cbn in St; try done; destruct St as (-> & St);
    try (by destruct St as (-> & _); left; rewrite ?elem_of_app; auto);
    try (by destruct St as (_ & -> & _); left; rewrite ?elem_of_app; auto).
  - destruct St as (_ & E & _). rewrite E in Hh. by apply elem_of_app.
  - destruct St as (_ & <- & _). by left.
Qed.

Lemma flow_publish r r' calls p p' pc lp g tid h :
  flow r calls p pc lp g → MarkQueued h p = (p', None) →
  do_action r (ACall tid (Some h)) = Some r' →
  flow r' (<[tid := h]> calls) p' pc lp (g <| sent ::= <[h := payload_of p' h]> |>).
Proof.
  intros F E A. pose proof (λ h', reserved_state r calls p pc lp g h' F) as RS.
  destruct F as [I Ln C [K1 K2] Sn O N (s & f & q & L)].
  destruct (MarkQueued_state h p p' E) as [Hb Hq].
  assert (Ep : p' = (pool_do (DoMarkQueued h) p).1) by (cbn; by rewrite E).
  assert (K : ∀ h', h' ≠ h → kept p p' h').
  { intros h' ?. rewrite Ep. apply other_kept; [done|cbn; congruence|done]. }
  assert (KB : ∀ z h', z ≠ StateBorrowed → in_state p z h' → kept p p' h' ∧ h' ≠ h).
  { intros z h' Hz Hh'. assert (h' ≠ h) by (intros ->; by eapply Hz, in_state_fun). auto. }
  assert (KS : ∀ z h', z ≠ StateBorrowed → in_state p z h' → in_state p' z h').
  { intros z h' Hz Hh'. eapply in_state_kept; [by eapply KB|done]. }
  assert (Hn : h ∉ reserved r).
  { intros [Hx|[Hx|Hx]]%RS; by pose proof (in_state_fun _ _ _ _ Hb Hx). }
  cbn in A. destruct (producers r !! tid) eqn:Hp; [done|]. injection A as <-.
  constructor; try done; [rewrite Ep; by apply inv_do|rewrite Ep; by apply lengths_ok_do|..]; cbn.
  - constructor; cbn.
    + intros t pc0 [[<- <-]|[Hne Ht]]%lookup_insert_Some.
      * exists h. rewrite lookup_insert_eq. by split_and!.
      * rewrite lookup_insert_ne by done. destruct (K1 t pc0 Ht) as (h0 & ? & ? & Hb0).
        exists h0. split_and!; try done. intros B. destruct (Hb0 B). split; [|done]. by apply KS.
    + assert (X : ∀ t (pc0 : pub_pc nat), producers r !! t = Some pc0 → before pc0 = true → calls !! t ≠ Some h).
      { intros t pc0 Ht B Hc0. destruct (K1 t pc0 Ht) as (h0 & ? & ? & Hb0). destruct (Hb0 B) as [Hx _].
        assert (h0 = h) as -> by congruence. by pose proof (in_state_fun _ _ _ _ Hb Hx). }
      intros t1 t2 pc1 pc2 h0 [[<- <-]|[? H1]]%lookup_insert_Some [[<- <-]|[? H2]]%lookup_insert_Some
        B1 B2; rewrite ?lookup_insert_eq, ?lookup_insert_ne by done; [done|..]; intros C1 C2.
      * exfalso. injection C1 as <-. by eapply X.
      * exfalso. injection C2 as <-. by eapply X.
      * by eapply K2.
  - intros h' Hh'. destruct (decide (h' = h)) as [->|Hne]; [by rewrite lookup_insert_eq|].
    rewrite lookup_insert_ne by done.
    assert (B : ∀ z, in_state p' z h' → in_state p z h') by (intros z; rewrite Ep; by apply other_back with h).
    assert (P : in_state p StateQueued h' ∨ in_state p StateInFlight h') by naive_solver.
    rewrite (Sn _ P). f_equal. symmetry. apply payload_kept; [by apply K|].
    destruct P as [P|P]; by eapply in_state_Some.
  - unfold output_ok, published_bytes in *. cbn. rewrite O. apply map_ext_in. intros ls Hls%list_elem_of_In.
    apply map_ext_in. intros h' Hh'%list_elem_of_In. rewrite lookup_insert_ne; [done|].
    intros <-. apply Hn. destruct L as (-> & _ & _ & _ & _ & St).
    rewrite app_assoc, elem_of_app. left. eapply stage_delivered; [done|].
    apply list_elem_of_In, in_concat. exists ls. by rewrite <- !list_elem_of_In.
  - exists s, f, q. destruct L as (E1 & E2 & F1 & F2 & F3 & St). split_and!; try done;
      (eapply Forall_impl; [done|]; intros; by apply KS).
Qed.

(** The return of a call: a lease that was not accepted goes back to its owner. *)
Lemma flow_return r r' calls p pc lp g tid h res :
  flow r calls p pc lp g → producers r !! tid = Some (PReturn res) → calls !! tid = Some h →
  do_action r (AReturn tid) = Some r' →
  flow r' (delete tid calls)
    (if decide (res = PublishAccepted) then p else (RollbackQueued h p).1) pc lp g.
Proof.
  intros F Hp Hc A. pose proof (λ h', reserved_state r calls p pc lp g h' F) as RS.
  destruct F as [I Ln C [K1 K2] Sn O N (s & f & q & L)].
  cbn in A. rewrite Hp in A. injection A as <-.
  destruct (K1 tid _ Hp) as (h0 & Hh0 & Hc0 & Hb0). assert (h0 = h) as -> by congruence. clear Hh0.
  assert (CO : calls_ok (mkSys (queue r) (delete tid (producers r)) (con r) (reserved r) (taken r))
                 (delete tid calls) p).
  { constructor; cbn.
    - intros t pc0 [Hne Ht]%lookup_delete_Some. rewrite lookup_delete_ne by done. by apply K1.
    - intros t1 t2 pc1 pc2 h0 [? H1]%lookup_delete_Some [? H2]%lookup_delete_Some B1 B2.
      rewrite !lookup_delete_ne by done. by eapply K2. }
  destruct (decide (res = PublishAccepted)) as [->|Hr].
  { constructor; try done. by exists s, f, q. }
  assert (Hq : in_state p StateQueued h ∧ h ∉ reserved r) by (apply Hb0; by destruct res).
  destruct Hq as [Hq Hn]. pose proof (RollbackQueued_state h p Hq) as Hb.
  assert (K : ∀ h', h' ≠ h → kept p (RollbackQueued h p).1 h').
  { intros h' ?. apply (other_kept (DoRollbackQueued h)); [done|cbn; congruence|done]. }
  apply (inv_do (DoRollbackQueued h)) in I as I'. apply (lengths_ok_do (DoRollbackQueued h)) in Ln as Ln'; [|done].
  constructor; try done; cbn.
  - destruct CO as [J1 J2]. constructor; [|done]. intros t pc0 Ht.
    destruct (J1 t pc0 Ht) as (h1 & Hh1 & Hc1 & Hb1). exists h1. split_and!; try done. intros B.
    destruct (Hb1 B) as [Q R]. split; [|done]. eapply in_state_kept; [apply K|done].
    intros ->. cbn in Ht. apply lookup_delete_Some in Ht as [Hne Ht].
    apply lookup_delete_Some in Hh1 as [_ Hh1]. apply Hne.
    eapply (K2 tid t); [done|done| |done|done|done]. by destruct res.
  - intros h' Hh'. destruct (decide (h' = h)) as [->|Hne].
    { destruct Hh' as [Hh'|Hh']; by pose proof (in_state_fun _ _ _ _ Hb Hh'). }
    assert (B : ∀ z, in_state (RollbackQueued h p).1 z h' → in_state p z h')
      by (intros z; by apply (other_back (DoRollbackQueued h) p h)).
    assert (P : in_state p StateQueued h' ∨ in_state p StateInFlight h') by naive_solver.
    rewrite (Sn _ P). f_equal. symmetry. apply payload_kept; [by apply K|].
    destruct P as [P|P]; by eapply in_state_Some.
  - destruct L as (E1 & E2 & F1 & F2 & F3 & St). rewrite E1, !not_elem_of_app in Hn.
    destruct Hn as (? & ? & ?). exists s, f, q. split_and!; try done; by eapply Forall_kept.
Qed.
End Flow.
