(* ===== verification/FlushSafety.v ===== *)
(** * The flusher's guarantees

    [Flow], the invariant of FlushInv.v, holds in every reachable world; from it
    and a second invariant on the flusher's own fields the guarantees follow:
    delivery in admission order, retries of the same batch, what a normal exit
    leaves behind, and the race of [Close] with a publisher. *)

From stdpp Require Import gmap strings list fin_maps.
From Stdlib Require Import ZArith Lia.
From Stdlib.Strings Require Import Byte.
From S2P Require Import Prelude GoLib Ring RingConc Pool PoolInv PoolSafety Flusher FlushInv.

Section Run.
Context {S : Type} `{BatchSink S}.
Implicit Types (w : world S) (r : ring_sys nat).

Definition Flow w : Prop :=
  flow (w_ring w) (w_calls w) (w_pool w) (w_pc w) (w_loop w) (w_ghost w).

Lemma poll_pending i f lp : pending (poll_channels i f lp) = pending lp.
Proof. unfold poll_channels. by destruct_ifs. Qed.

(** Where the flusher's call on the ring is idle. *)
Lemma idle_matches r pc pc' :
  con_matches r pc → consuming pc = false → consuming pc' = false → con_matches r pc'.
Proof. unfold con_matches. intros C E E'. rewrite E in C. by rewrite E'. Qed.

Lemma idle_got r pc : con_matches r pc → consuming pc = false → con r = CIdle ∧ got r = [].
Proof. unfold con_matches, got. intros C E. rewrite E in C. by rewrite C. Qed.

Lemma release_eq h now w :
  release h now w = (w <| w_pool := (Release (Some h) now (w_pool w)).1 |>,
                     (Release (Some h) now (w_pool w)).2).
Proof. unfold release. by destruct (Release _ _ _). Qed.

(** Leases in flight still show what was published for them. *)
Lemma published_payloads p g l :
  sent_ok p (sent g) → Forall (in_state p StateInFlight) l → map (payload_of p) l = published_bytes g l.
Proof.
  intros Sn F. apply map_ext_in. intros h Hh%list_elem_of_In. rewrite Forall_forall in F.
  rewrite (Sn h); [done|]. right. by apply F.
Qed.

(** What a write sends is what was published for the batch. *)
Lemma write_payloads w :
  Flow w → w_pc w = RWrite →
  map (payload_of (w_pool w)) (pending (w_loop w)) = published_bytes (w_ghost w) (pending (w_loop w)).
Proof.
  intros [_ _ _ _ Sn _ _ (st & f & q & _ & _ & _ & F2 & _ & St)] E. rewrite E in St.
  destruct St as (-> & _). by apply published_payloads.
Qed.

(** A successful write: the batch is delivered. *)
Lemma flow_write w i :
  Flow w → w_pc w = RWrite → Flow (write_batch i w).
Proof.
  unfold Flow, write_batch. intros F E. rewrite E in F.
  destruct (sink_write _ _ _) as [s [e|]]; cbn.
  - eapply flow_local; [exact F|by eapply idle_matches; [apply F|..]|done..|]. by intros ? ?.
  - destruct F as [I Ln C K Sn O N (st & f & q & E1 & E2 & F1 & F2 & F3 & St)].
    destruct St as (-> & -> & G & _).
    constructor; cbn; try done.
    + unfold output_ok in *. cbn. rewrite map_app, O. cbn. f_equal. f_equal.
      by apply published_payloads.
    + exists (concat (delivered (w_ghost w))), (pending (w_loop w)), q. split_and!; try done.
      split_and!; cbn; [done|done| |by eexists]. rewrite concat_app. cbn. by rewrite app_nil_r.
Qed.

(** The stage is the same at both points. *)
Ltac unchanged := intros ? ?; exact (λ x, x).

Ltac local_step F :=
  eapply flow_local; [exact F|by eapply idle_matches; [apply F|..]|done..|].

Lemma flow_fill_mark w i h :
  Flow w → fifo_ok (w_ring w) → w_pc w = RFillMark h → Flow (fill_mark i h w).
Proof.
  unfold Flow, fill_mark. intros F Ff E. rewrite E in F.
  destruct (idle_got _ _ (fl_con _ _ _ _ _ _ F) eq_refl) as [C G].
  destruct (MarkInFlight h (w_pool w)) as [p err] eqn:M.
  assert (X : ∀ lp', pending lp' = pending (w_loop w) ++ [h] → aborting lp' = aborting (w_loop w) →
    flow (w_ring w) (w_calls w) p RFill lp' (w_ghost w) ∧ (err = None ∨ err = Some ErrPayloadModified)).
  { intros lp' P A. assert (p = (MarkInFlight h (w_pool w)).1) as -> by (by rewrite M).
    assert (err = (MarkInFlight h (w_pool w)).2) as -> by (by rewrite M).
    apply (flow_mark h _ _ _ _ RFill _ lp' _ F Ff); try done.
    intros st f (-> & -> & Hg & Ha). cbn. rewrite P, A. by split_and!. }
  destruct (X ((w_loop w) <| pending := pending (w_loop w) ++ [h] |>)) as [_ [-> | ->]]; [done..| |];
    cbn; (apply X; destruct (pending (w_loop w)) eqn:P; cbn; by rewrite ?P).
Qed.

Lemma flow_run w i : Flow w → fifo_ok (w_ring w) → Flow (run_step i w).
Proof.
  intros F Ff. assert (F0 := F). unfold Flow in F. unfold run_step.
  destruct (w_pc w) as [|todo| | |h|h| | | |h|h| | | |todo sum|sum| |c| |err| |until| |] eqn:E.
  - (* RSelect *)
    unfold Flow. cbn. destruct (aborting _) eqn:A; [|destruct (retrying _)]; local_step F;
      intros st f (-> & -> & G); cbn; by rewrite ?poll_pending, ?G, ?app_nil_r.
  - (* RAbandon *)
    destruct todo as [|h todo]; unfold Flow; cbn.
    + local_step F. intros st f (-> & -> & A). by split_and!.
    + rewrite release_eq. cbn. eapply flow_release; [exact F|by eapply idle_matches; [apply F|..]|done..|].
      intros st f (-> & -> & A). exists todo. cbn. by rewrite <- app_assoc.
  - (* RDrain *)
    destruct (idle_got _ _ (fl_con _ _ _ _ _ _ F) eq_refl) as [C G]. unfold Flow. cbn.
    eapply flow_call_consume; [exact F|done..|]; unchanged.
  - (* RDrainWait *)
    unfold consumed_lease. destruct (con (w_ring w)) as [| | | | | | |o] eqn:C; try done.
    unfold Flow. cbn. eapply flow_consume_return; [exact F|exact C|by destruct o..|].
    destruct o; unchanged.
  - (* RDrainMark *)
    destruct (idle_got _ _ (fl_con _ _ _ _ _ _ F) eq_refl) as [C G]. unfold Flow. cbn.
    apply (flow_mark h _ _ _ _ (RDrainRelease h) _ (w_loop w) _ F Ff); try done.
    by intros st f (-> & ?).
  - (* RDrainRelease *)
    rewrite release_eq. unfold Flow. cbn.
    eapply flow_release; [exact F|by eapply idle_matches; [apply F|..]|done..|].
    intros st f (-> & P & -> & A). exists []. cbn. by rewrite <- app_assoc.
  - (* RAbortClose *)
    destruct (sink_close (w_sink w)) as [s err]. unfold Flow. cbn. local_step F.
    intros st f (-> & P & -> & A). cbn. by auto.
  - (* RFill *)
    destruct (_ <? _); unfold Flow; cbn.
    + destruct (idle_got _ _ (fl_con _ _ _ _ _ _ F) eq_refl) as [C G]. eapply flow_call_consume; [exact F|done..|]; unchanged.
    + local_step F; unchanged.
  - (* RFillWait *)
    unfold consumed_lease. destruct (con (w_ring w)) as [| | | | | | |o] eqn:C; try done.
    unfold Flow. cbn. eapply flow_consume_return; [exact F|exact C|by destruct o..|].
    destruct o; unchanged.
  - by apply flow_fill_mark.
  - destruct (fl_lined _ _ _ _ _ _ F) as (? & ? & ? & L). by destruct L as (_ & _ & _ & _ & _ & []).
  - (* RInFlight *) unfold Flow. cbn. local_step F; unchanged.
  - (* RDecide *) unfold Flow. cbn. destruct (shouldFlush _ _ _); local_step F; unchanged.
  - by apply flow_write.
  - (* RRelease *)
    destruct todo as [|h todo]; [|rewrite release_eq]; unfold Flow; cbn.
    + local_step F. intros st f (-> & G & D & X). rewrite app_nil_r in D. by split_and!.
    + eapply flow_release; [exact F|by eapply idle_matches; [apply F|..]|done..|].
      intros st f (-> & G & D & X). exists todo. split; [done|]. split_and!; try done.
      by rewrite <- app_assoc.
  - (* RDelivered *) unfold Flow. cbn. local_step F. by intros st f (-> & G & <- & _).
  - (* RExitCheck *)
    destruct (_ && _) eqn:B; unfold Flow; cbn; local_step F; [|unchanged].
    intros st f (-> & -> & G & A). zbool. destruct (pending (w_loop w)) eqn:P; [|done].
    cbn. by rewrite P.
  - (* REmpty *)
    destruct (depth_step _ _) as [| |d]; try done. destruct (d =? 0); unfold Flow; cbn;
      local_step F; intros st f (-> & P & -> & G & A); cbn; by rewrite ?P.
  - (* RExitFlush *)
    destruct (sink_flush (w_sink w)) as [s err]. unfold Flow. cbn. local_step F; unchanged.
  - (* RExitClose *)
    destruct (sink_close (w_sink w)) as [s err']. unfold Flow. cbn. local_step F.
    intros st f (-> & P & -> & G & A). cbn. rewrite G, app_nil_r. by auto.
  - (* RWait *) unfold Flow. cbn. local_step F; unchanged.
  - (* RSleep *)
    destruct (_ || _); [|done]. unfold Flow. cbn. local_step F.
    intros st f (-> & -> & G & A). cbn. by rewrite poll_pending.
  - (* RReturn *) unfold Flow. cbn. local_step F; unchanged.
  - done.
Qed.
(** ** The ring under the system's steps *)

Lemma later_refl (r : ring_sys nat) : later r r.
Proof. by apply reach_init. Qed.

Lemma later_action r a r' : do_action r a = Some r' → later r r'.
Proof. intros E%do_action_step. eapply reach_step; [apply later_refl|done]. Qed.

(** Which actions a step of [run] takes on the ring. *)
Lemma run_ring w i :
  w_ring (run_step i w) = w_ring w ∨ w_ring (run_step i w) = ring_action AConsume (w_ring w) ∨
  (∃ o, con (w_ring w) = CReturn o ∧ w_ring (run_step i w) = ring_action AConsumeReturn (w_ring w)).
Proof.
  unfold run_step, write_batch, fill_mark, count_batch, finish, consumed_lease.
  destruct (w_pc w) as [|[]| | | | | | | | | | | | |[]| | | | | | | | |]; rewrite ?release_eq; cbn;
    repeat match goal with
    | |- context [match con ?r with _ => _ end] => destruct (con r) eqn:?
    | |- context [let '(_, _) := ?x in _] => destruct x as [? []]
    | |- context [match ?x with _ => _ end] => destruct x
    end; cbn; eauto.
Qed.

Lemma ring_action_or a r : ring_action a r = r ∨ do_action r a = Some (ring_action a r).
Proof. unfold ring_action. destruct (do_action r a); auto. Qed.

(** A step of the system is at most one step of the ring. *)
Lemma sys_step_ring w w' :
  sys_step w w' → w_ring w' = w_ring w ∨ ∃ a, do_action (w_ring w) a = Some (w_ring w').
Proof.
  intros St. destruct St as [i w|w r E|tid w r E|tid h w w' E|tid w w' E| | | | | | |]; cbn; eauto.
  - destruct (run_ring w i) as [-> |[-> |(o & _ & ->)]]; [by left|..].
    + destruct (ring_action_or AConsume (w_ring w)); eauto.
    + destruct (ring_action_or AConsumeReturn (w_ring w)); eauto.
  - unfold publish_call in E. destruct (MarkQueued h (w_pool w)) as [p [e|]]; [done|].
    destruct (do_action _ _) as [r|] eqn:A; [|done]. injection E as <-. cbn. eauto.
  - unfold publish_return in E. destruct (producers _ !! tid) as [[]|]; try done.
    destruct (w_calls w !! tid); [|done].
    destruct (do_action _ _) as [ring|] eqn:A; [|done]. injection E as <-. cbn. eauto.
  - destruct (ring_action_or AClose (w_ring w)); eauto.
Qed.

Lemma sys_step_later w w' : sys_step w w' → later (w_ring w) (w_ring w').
Proof. intros [-> |[a A]]%sys_step_ring; [apply later_refl|by eapply later_action]. Qed.

Context (k base : Z) (Hbase : 0 <= base < 2 ^ 64) (Hk : 1 <= k <= 30).

Lemma sys_ring w : sys_reach k base w → ring_reachable k base (w_ring w).
Proof.
  intros R. induction R as [w (I & _)|w w' _ IH St].
  - by apply reach_init.
  - eapply later_reachable; [exact IH|by apply sys_step_later].
Qed.

Lemma sys_bounded w w' : sys_step w w' → bounded (w_ring w') → bounded (w_ring w).
Proof. intros St%sys_step_later B. by apply (later_bounded _ _ St). Qed.

Lemma sys_Inv w : sys_reach k base w → bounded (w_ring w) → Inv k base (w_ring w).
Proof. intros R B. apply reachable_inv; [done..|by apply sys_ring|done]. Qed.

(** ** [Flow] holds *)

Lemma New_leases c p : Pool.New c = Ok p → leases p = [].
Proof. unfold Pool.New. by intros (c' & _ & [= <-])%bind_Ok. Qed.

Lemma Flow_init w : sys_init k base w → Flow w.
Proof.
  intros ((q & _ & R) & C & (c & P) & _ & L & E & G). unfold Flow. rewrite R, C, L, E, G.
  constructor; cbn; try done; try (by constructor).
  - by apply New_inv in P.
  - intros h l. by rewrite (New_leases _ _ P).
  - intros h [(l & Hl & _)|(l & Hl & _)]; by rewrite (New_leases _ _ P) in Hl.
  - exists [], [], []. split_and!; try done; constructor.
Qed.

Lemma Flow_step w w' :
  Inv k base (w_ring w) → sys_step w w' → Flow w → Flow w'.
Proof.
  intros Iv St F. pose proof (inv_fifo _ _ _ Iv) as Ff.
  destruct St as [i w|w r E|tid w r E|tid h w w' E|tid w w' E|op w Bo|now w| |w| | |]; try exact F.
  - by apply flow_run.
  - by eapply flow_consume.
  - by eapply flow_produce.
  - unfold publish_call in E. destruct (MarkQueued h (w_pool w)) as [p [e|]] eqn:M; [done|].
    destruct (do_action _ _) as [r|] eqn:A; [|done]. injection E as <-. by eapply flow_publish.
  - unfold publish_return in E. destruct (producers _ !! tid) as [[]|] eqn:P; try done.
    destruct (w_calls w !! tid) eqn:C; [|done].
    destruct (do_action _ _) as [ring|] eqn:A; [|done]. injection E as <-. by eapply flow_return.
  - assert (F' := F). destruct F' as [I Ln _ _ _ _ _ _]. eapply flow_pool; [exact F|..].
    + by apply inv_do.
    + by apply lengths_ok_do.
    + intros. by eapply borrower_kept.
    + intros h z ? ?. by eapply borrower_back.
  - assert (F' := F). destruct F' as [I Ln _ _ _ _ _ _]. eapply flow_pool; [exact F|..]; cbn.
    + by rewrite scan_skeleton.
    + by apply scan_lengths.
    + intros. apply scan_kept.
    + intros h z (l & Hl & Hs) _. exists l. split; [|done]. unfold ScanOverdue in Hl.
      destruct (decide _); [done|]. cbn in Hl. unfold scan_add in Hl. by destruct (_ =? 0) in Hl.
  - destruct F as [I Ln C [K1 K2] Sn O N L]. by constructor.
Qed.

Lemma reach_Flow w : sys_reach k base w → bounded (w_ring w) → Flow w.
Proof.
  revert w. apply (reach_invariant (sys_init k base) sys_step (λ w, bounded (w_ring w) → Flow w)).
  - intros w I _. by apply Flow_init.
  - intros w w' R IH St B. pose proof (sys_bounded _ _ St B) as B'. eapply Flow_step; [by apply sys_Inv|done|by apply IH].
Qed.

End Run.
