(* ===== verification/FlushControl.v ===== *)
(** * The flusher's loop variables

    Invariants of what [run] keeps in its variables and in the flusher's fields:
    the signals it has seen ([Signals]), the bounds of batches and backoffs and the
    batch a retry sends ([Batch]), what a normal exit saw ([exit_ok]).  [World] puts
    them and [Flow] together; it holds in every reachable world. *)

From stdpp Require Import gmap strings list fin_maps.
From Stdlib Require Import ZArith Lia.
From Stdlib.Strings Require Import Byte.
From S2P Require Import Prelude GoLib Ring RingConc Pool PoolInv PoolSafety Flusher FlushInv FlushSafety.

Section Control.
Context {S : Type} `{BatchSink S}.
Implicit Types (w : world S) (r : ring_sys nat).

(** ** Signals *)

Record signals_ok (cl : bool) (f : Flusher) (lp : loop) : Prop := {
  so_queue : closing f = true → cl = true;
  so_closing : stop f = true → closing f = true;
  so_stop : abort f = true → stop f = true;
  so_seen : l_closing lp = true → stop f = true;
  so_abort : aborting lp = true → abort f = true ∧ l_closing lp = true;
  so_stop_channel : l_closing lp = false → stopChannel lp = true;
  so_abort_channel : aborting lp = false → abortChannel lp = true;
  so_stop_taken : aborting lp = false → l_closing lp = true → stopChannel lp = false
}.

Definition flags (f : Flusher) := (closing f, stop f, abort f, f_config f).
Definition signals (lp : loop) := (l_closing lp, aborting lp, stopChannel lp, abortChannel lp).

(** A step of [run] leaves the flusher's flags alone and changes its signals only
    by looking at the channels. *)
Lemma run_frame w i :
  flags (w_fl (run_step i w)) = flags (w_fl w) ∧
  (signals (w_loop (run_step i w)) = signals (w_loop w) ∨
   signals (w_loop (run_step i w)) = signals (poll_channels i (w_fl w) (w_loop w))).
Proof.
  unfold run_step, write_batch, fill_mark, count_batch, finish, consumed_lease, setFinalError, recordError.
  destruct (w_pc w) as [|[]| | | | | | | | | | | | |[]| | | | | | | | |]; rewrite ?release_eq; cbn;
    repeat match goal with
    | |- context [let '(_, _) := ?x in _] => destruct x as [? []]
    | |- context [match ?x with _ => _ end] =>
        lazymatch x with context [poll_channels] => fail | _ => destruct x end
    end; cbn; auto.
Qed.

Lemma signals_poll cl i f lp : signals_ok cl f lp → signals_ok cl f (poll_channels i f lp).
Proof.
  intros [A B C D E F G I]. unfold poll_channels.
  destruct (_ && (negb _ || _)) eqn:P; [|destruct (stopChannel lp && stop f) eqn:Q];
    constructor; cbn; auto; zbool; try done; intros; naive_solver.
Qed.

Lemma signals_eq cl cl' f f' lp lp' :
  signals_ok cl f lp → (cl = true → cl' = true) → flags f' = flags f → signals lp' = signals lp →
  signals_ok cl' f' lp'.
Proof.
  unfold flags, signals. intros [A B C D E F G I] M Ef El.
  injection Ef as E1 E2 E3 _. injection El as E4 E5 E6 E7.
  constructor; rewrite ?E1, ?E2, ?E3, ?E4, ?E5, ?E6, ?E7; auto.
Qed.
Definition Signals w : Prop := signals_ok (Ring.closed (queue (w_ring w))) (w_fl w) (w_loop w).

(** *** [Close] and the publishers *)

Lemma pub_step_quiet (q q' : Queue nat) pc pc' :
  pub_step q pc = (q', pc') →
  Ring.closed q' = Ring.closed q ∧ consumer q' = consumer q ∧
  (Ring.closed q = true → past_check pc = false → past_check pc' = false ∧ reserves pc pc' = []).
Proof.
  destruct pc as [[v|]| |v| |v a|v a|v a pos|v a pos|v pos|v pos d|v pos d c|v pos|v pos| | |r];
    cbn; intros E; unfold next_attempt in E;
    repeat match goal with
    | E : context [if ?b then _ else _] |- _ => destruct b eqn:?
    end; injection E as <- <-; by split_and!.
Qed.

Lemma racing_false r :
  racing r = false ↔ ∀ tid pc, producers r !! tid = Some pc → past_check pc = false.
Proof.
  unfold racing. rewrite <- not_true_iff_false, existsb_exists. split.
  - intros N tid pc Hp. destruct (past_check pc) eqn:E; [|done]. exfalso. apply N.
    exists pc. split; [|done]. apply in_map_iff. exists (tid, pc). split; [done|].
    by apply list_elem_of_In, elem_of_map_to_list.
  - intros A (pc & Hin & E). apply in_map_iff in Hin as ([tid pc0] & <- & Hin).
    apply list_elem_of_In, elem_of_map_to_list in Hin. cbn in E. by rewrite (A _ _ Hin) in E.
Qed.

(** Once the ring is closed and no call stands past its check, nothing is admitted. *)
Lemma quiet_step r a r' :
  do_action r a = Some r' →
  (Ring.closed (queue r) = true → Ring.closed (queue r') = true) ∧
  (∃ l, reserved r' = reserved r ++ l) ∧
  (Ring.closed (queue r) = true → racing r = false → racing r' = false ∧ reserved r' = reserved r) ∧
  (con r = CIdle → consumer (queue r') = consumer (queue r)).
Proof.
  assert (N : ∀ l : list nat, ∃ l', l = l ++ l') by (intros l; exists []; by rewrite app_nil_r).
  rewrite !racing_false. intros E. destruct a as [tid o|tid|tid| | | |]; cbn in E.
  - destruct (producers r !! tid); [done|]. injection E as <-. cbn. split_and!; eauto. intros _ Q.
    split; [|done]. intros t pc [[<- <-]|[_ Ht]]%lookup_insert_Some; [done|]. by eapply Q.
  - destruct (producers r !! tid) as [pc|] eqn:P; [|done]. destruct (pub_running pc); [|done].
    destruct (pub_step (queue r) pc) as [q' pc'] eqn:Hs. injection E as <-. cbn.
    destruct (pub_step_quiet _ _ _ _ Hs) as (-> & -> & Qs). split_and!; eauto. intros C Q.
    destruct (Qs C (Q _ _ P)) as [Q' ->]. rewrite app_nil_r. split; [|done].
    intros t pc0 [[<- <-]|[_ Ht]]%lookup_insert_Some; [done|]. by eapply Q.
  - destruct (producers r !! tid) as [[]|]; try done. injection E as <-. cbn. split_and!; eauto. intros _ Q.
    split; [|done]. intros t pc [_ Ht]%lookup_delete_Some. by eapply Q.
  - destruct (con r); try done. injection E as <-. cbn. by split_and!; eauto.
  - destruct (con_running (con r)) eqn:Cr; [|done].
    destruct (con_step (queue r) (con r)) as [q' pc'] eqn:Hs.
    destruct (consume_step r r') as (-> & -> & C & _ & -> & _).
    { unfold do_action. by rewrite Cr, Hs. }
    by split_and!; eauto.
  - destruct (con r) eqn:C; try done. injection E as <-. cbn. by split_and!; eauto.
  - injection E as <-. cbn. by split_and!; eauto.
Qed.

Lemma sys_quiet w w' :
  sys_step w w' →
  (Ring.closed (queue (w_ring w)) = true → Ring.closed (queue (w_ring w')) = true) ∧
  (∃ l, reserved (w_ring w') = reserved (w_ring w) ++ l) ∧
  (Ring.closed (queue (w_ring w)) = true → racing (w_ring w) = false →
   racing (w_ring w') = false ∧ reserved (w_ring w') = reserved (w_ring w)) ∧
  (con (w_ring w) = CIdle → consumer (queue (w_ring w')) = consumer (queue (w_ring w))).
Proof.
  intros [-> |[a A]]%sys_step_ring; [|by eapply quiet_step].
  split_and!; auto. exists []. by rewrite app_nil_r.
Qed.

Lemma Signals_init k base w : sys_init k base w → Signals w.
Proof.
  intros (_ & _ & _ & (c & N) & L & _). unfold Signals. rewrite L.
  unfold New in N. cbn in N. destruct (normalized c); cbn in N; [|done]. injection N as <-. by constructor.
Qed.

Lemma Signals_step w w' : sys_step w w' → Signals w → Signals w'.
Proof.
  unfold Signals. intros St Sg. pose proof (proj1 (sys_quiet w w' St)) as Q.
  assert (K : ∀ f', flags f' = flags (w_fl w) → 
    signals_ok (Ring.closed (queue (w_ring w'))) f' (w_loop w)).
  { intros. by eapply signals_eq. }
  destruct St as [i w|w r E|tid w r E|tid h w w' E|tid w w' E|op w Bo|now w|w|w|w C|w C|w C]; try by apply K.
  - destruct (run_frame w i) as [Ef [El|El]]; (eapply signals_eq; [|exact Q|exact Ef|exact El]); [done|].
    by apply signals_poll.
  - unfold publish_call in E. destruct (MarkQueued h (w_pool w)) as [p [e|]]; [done|].
    destruct (do_action _ _) as [r|]; [|done]. injection E as <-. by apply K.
  - unfold publish_return in E. destruct (producers _ !! tid) as [[]|]; try done.
    destruct (w_calls w !! tid); [|done]. destruct (do_action _ _); [|done]. injection E as <-. by apply K.
  - apply K. cbn. unfold Start. by destruct (started _).
  - apply K. cbn. unfold Start. by destruct (started _).
  - destruct Sg as [A1 A2 A3 A4 A5 A6 A7 A8]. constructor; cbn in *; auto.
  - destruct Sg as [A1 A2 A3 A4 A5 A6 A7 A8]. constructor; cbn in *; auto.
  - destruct Sg as [A1 A2 A3 A4 A5 A6 A7 A8]. constructor; cbn in *; auto. intros Ha. by destruct (A5 Ha).
Qed.

Lemma reach_Signals k base w : sys_reach k base w → Signals w.
Proof.
  revert w. apply reach_invariant; [apply Signals_init|]. intros w w' _ Sg St. by eapply Signals_step.
Qed.
(** ** Batches and retries *)

Definition filling (pc : run_pc) : bool :=
  match pc with RFill | RFillWait | RFillMark _ | RFillRelease _ | RInFlight => true | _ => false end.

Definition room (pc : run_pc) : bool :=
  match pc with RFillWait | RFillMark _ => true | _ => false end.

(** Where the loop is leaving for good. *)
Definition leaving (pc : run_pc) : bool :=
  match pc with
  | RAbandon _ | RDrain | RDrainWait | RDrainMark _ | RDrainRelease _ | RAbortClose
  | RReturn | RDone => true
  | _ => false
  end.

Record batch_ok (c : Config) (pc : run_pc) (lp : loop) (g : ghost) : Prop := {
  bo_len : len (pending lp) <= BatchSize c;
  bo_room : room pc = true → len (pending lp) < BatchSize c;
  bo_write : pc = RWrite → pending lp ≠ [];
  bo_backoff : MaxRetryBackoff c <= 2 ^ 62 → RetryBackoff c <= retryBackoff lp <= MaxRetryBackoff c;
  bo_batches : Forall (λ b, b ≠ [] ∧ len b <= BatchSize c) (delivered g);
  bo_retry : retrying lp = true → filling pc = false ∧
    (leaving pc = true ∨ pending lp ≠ [] ∧ attempted g = published_bytes g (pending lp))
}.

(** [normalized] leaves sensible limits. *)
Definition limits_ok (c : Config) : Prop :=
  1 <= BatchSize c ∧ 0 < FlushInterval c ∧ 0 < PollInterval c ∧
  0 < RetryBackoff c <= MaxRetryBackoff c.

Lemma normalized_limits c c' : normalized c = Ok c' → limits_ok c'.
Proof.
  unfold normalized. intros (? & G & [= <-])%bind_Ok. revert G.
  unfold guard_err. cbn. destruct (_ || _) eqn:E; [done|]. intros _. zbool.
  unfold limits_ok. cbn. lia.
Qed.

Lemma next_backoff_range c b :
  limits_ok c → MaxRetryBackoff c <= 2 ^ 62 → RetryBackoff c <= b <= MaxRetryBackoff c →
  b <= next_backoff c b <= MaxRetryBackoff c.
Proof.
  intros L M B. unfold limits_ok in L. unfold next_backoff. destruct (b <? _) eqn:E; [|lia]. zbool.
  rewrite i64_small by lia. destruct (_ >? _) eqn:E'; zbool; lia.
Qed.

Ltac batch B := destruct B as [B1 B2 B3 B4 B5 B6]; constructor; cbn in *;
  try done; try (unfold limits_ok in *; lia); auto.

Lemma batch_run w i :
  limits_ok (f_config (w_fl w)) → Flow w →
  batch_ok (f_config (w_fl w)) (w_pc w) (w_loop w) (w_ghost w) →
  let w' := run_step i w in
  batch_ok (f_config (w_fl w)) (w_pc w') (w_loop w') (w_ghost w').
Proof.
  intros L F B w'. unfold w', run_step. clear w'.
  destruct (w_pc w) as [|todo| | |h|h| | | |h|h| | | |todo sum|sum| |c| |err| |until| |] eqn:E.
  - assert (X : pending (poll_channels i (w_fl w) (w_loop w)) = pending (w_loop w)
      ∧ retrying (poll_channels i (w_fl w) (w_loop w)) = retrying (w_loop w)
      ∧ retryBackoff (poll_channels i (w_fl w) (w_loop w)) = retryBackoff (w_loop w)).
    { unfold poll_channels. by destruct_ifs. }
    destruct X as (X1 & X2 & X3). cbn. destruct (aborting _); [|destruct (retrying (poll_channels _ _ _)) eqn:R];
      batch B; rewrite ?X1, ?X2, ?X3 in *; auto; try congruence.
  - destruct todo; rewrite ?release_eq; batch B.
  - batch B.
  - unfold consumed_lease. destruct (con (w_ring w)) as [| | | | | | |[]]; cbn; rewrite ?E; try exact B; batch B.
  - batch B.
  - rewrite release_eq. batch B.
  - destruct (sink_close _). batch B.
  - destruct (_ <? _) eqn:T; batch B.
  - unfold consumed_lease. destruct (con (w_ring w)) as [| | | | | | |[]]; cbn; rewrite ?E; try exact B; batch B.
  - unfold fill_mark. destruct (MarkInFlight h (w_pool w)) as [p [e|]]; [destruct (is_modified e)|];
      cbn; destruct (pending (w_loop w)) eqn:P; batch B; rewrite ?P in *; rewrite ?length_app; cbn in *;
      try lia; intros R; by destruct (B6 R).
  - rewrite release_eq. batch B.
  - batch B. intros R. by destruct (B6 R).
  - destruct (shouldFlush _ _ _) eqn:T; batch B. intros _ P. unfold shouldFlush in T. by rewrite P in T.
  - unfold write_batch. pose proof (write_payloads w F E) as W. pose proof (bo_write _ _ _ _ B eq_refl) as P.
    destruct (sink_write _ _ _) as [s [e|]]; batch B.
    + intros M. pose proof (next_backoff_range _ _ L M (B4 M)). destruct (B4 M). lia.
    + apply Forall_app. split; [done|]. by apply Forall_singleton.
  - destruct todo; rewrite ?release_eq; batch B.
  - batch B.
  - destruct (_ && _); batch B.
  - destruct (depth_step _ _) as [| |d]; cbn; rewrite ?E; try exact B. destruct (d =? 0); batch B.
  - destruct (sink_flush _). batch B.
  - destruct (sink_close _). batch B.
  - batch B.
  - destruct (_ || _); cbn; rewrite ?E; [|exact B]. unfold poll_channels. destruct_ifs; batch B.
  - batch B.
  - cbn. by rewrite E.
Qed.
(** A step of the system is a step of [run], or leaves its variables alone and
    may record what is published for a lease that was borrowed. *)
Lemma sys_other w w' :
  sys_step w w' → (∃ i, w' = run_step i w) ∨
  (w_loop w' = w_loop w ∧ w_pc w' = w_pc w ∧ w_sink w' = w_sink w ∧
   f_config (w_fl w') = f_config (w_fl w) ∧
   (w_ghost w' = w_ghost w ∨ ∃ h, in_state (w_pool w) StateBorrowed h ∧
     w_ghost w' = (w_ghost w) <| sent ::= <[h := payload_of (w_pool w') h]> |>)).
Proof.
  intros St.
  destruct St as [i w|w r E|tid w r E|tid h w w' E|tid w w' E|op w Bo|now w|w|w|w C|w C|w C];
    [left; by eexists|right; split_and!; auto..]; cbn;
    try (unfold Start; by destruct (started _)).
  all: try (unfold publish_call in E; destruct (MarkQueued h (w_pool w)) as [p [e|]] eqn:M; [done|];
            destruct (do_action _ _) as [r|]; [|done]; injection E as <-; cbn; auto).
  all: try (unfold publish_return in E; destruct (producers _ !! tid) as [[]|]; try done;
            destruct (w_calls w !! tid); [|done]; destruct (do_action _ _); [|done];
            injection E as <-; cbn; auto).
  right. exists h. split; [|done]. by apply MarkQueued_state in M as [? _].
Qed.

Lemma f_config_run w i : f_config (w_fl (run_step i w)) = f_config (w_fl w).
Proof. destruct (run_frame w i) as [E _]. by injection E. Qed.

Lemma reach_limits k base w : sys_reach k base w → limits_ok (f_config (w_fl w)).
Proof.
  revert w. apply reach_invariant.
  - intros w (_ & _ & _ & (c & N) & _). unfold New in N. cbn in N.
    destruct (normalized c) eqn:E; [|done]. injection N as <-. cbn. by eapply normalized_limits.
  - intros w w' _ L [[i ->]|(_ & _ & _ & -> & _)]%sys_other; [by rewrite f_config_run|done].
Qed.

Lemma pending_reserved w h :
  Flow w → leaving (w_pc w) = false → h ∈ pending (w_loop w) → h ∈ reserved (w_ring w).
Proof.
  intros [_ _ _ _ _ _ _ (s & f & q & -> & _ & _ & _ & _ & St)] L Hh.
  rewrite app_assoc, elem_of_app. left.
  destruct (w_pc w) eqn:E; try done;
    try (destruct St as (-> & St); rewrite elem_of_app; by auto);
    try (destruct St as (_ & P & _); rewrite P in Hh; by apply elem_of_nil in Hh).
  all: eapply stage_delivered; [exact St|]; destruct St as (_ & _ & _ & d & ->);
    rewrite concat_app; cbn; rewrite app_nil_r, elem_of_app; by right.
Qed.

Definition Batch w : Prop := batch_ok (f_config (w_fl w)) (w_pc w) (w_loop w) (w_ghost w).

Lemma Batch_step w w' :
  sys_step w w' → limits_ok (f_config (w_fl w)) → Flow w → Batch w → Batch w'.
Proof.
  unfold Batch. intros St L F B. destruct (sys_other _ _ St) as [[i ->]|(-> & -> & _ & -> & G)].
  - rewrite f_config_run. by apply batch_run.
  - destruct G as [-> |(h & Hb & ->)]; [done|]. destruct B as [B1 B2 B3 B4 B5 B6].
    constructor; try done. intros R. destruct (B6 R) as [Fi B]. split; [done|].
    destruct (leaving (w_pc w)) eqn:Lv; [by left|right]. destruct B as [|[P A]]; [done|]. split; [done|].
    change (attempted (w_ghost w) = published_bytes ((w_ghost w) <| sent ::= <[h := payload_of (w_pool w') h]> |>) (pending (w_loop w))).
    rewrite A. apply map_ext_in. intros h' Hh'%list_elem_of_In. cbn.
    rewrite lookup_insert_ne; [done|]. intros <-.
    pose proof (pending_reserved _ _ F Lv Hh') as X.
    destruct (reserved_state _ _ _ _ _ _ _ F X) as [X'|[X'|X']]; by pose proof (in_state_fun _ _ _ _ Hb X').
Qed.
(** ** The exit *)

(** [Empty] of an idle consumer sees every admitted lease. *)
Lemma empty_idle k base r :
  Inv k base r → con r = CIdle →
  depth_step (queue r) (DLoadProducer (consumer (queue r))) = DReturn 0 →
  length (reserved r) = length (taken r).
Proof.
  intros I C. destruct (inv_capacity k base r I) as [Hcap Hkb]. pose proof (inv_order k base r I) as O.
  cbn. rewrite (inv_consumer k base r I), (inv_producer k base r I).
  unfold recycled, head, swapped, tail in *. rewrite C in *.
  rewrite u64_sub_l, u64_sub_r, u64_small by lia. rewrite Hcap.
  intros [= D]. destruct (_ >? _) eqn:E; zbool; lia.
Qed.

Definition exiting (pc : run_pc) : bool :=
  match pc with RExitFlush | RExitClose _ => true | _ => false end.

Definition ended (pc : run_pc) : bool := match pc with RReturn | RDone => true | _ => false end.

Record exit_ok w : Prop := {
  ex_look : ∀ c, w_pc w = REmpty c →
    c = consumer (queue (w_ring w)) ∧ l_closing (w_loop w) = true;
  ex_pc : exiting (w_pc w) = true → is_Some (left_at (w_ghost w));
  ex_end : ended (w_pc w) = true → aborting (w_loop w) = true ∨ is_Some (left_at (w_ghost w));
  ex_left : ∀ n rc, left_at (w_ghost w) = Some (n, rc) →
    (exiting (w_pc w) || ended (w_pc w)) = true ∧ aborting (w_loop w) = false ∧
    Ring.closed (queue (w_ring w)) = true ∧
    n = length (concat (delivered (w_ghost w))) ∧
    (rc = false → racing (w_ring w) = false ∧ length (reserved (w_ring w)) = n)
}.

Lemma exit_inside w :
  left_at (w_ghost w) = None → (∀ c, w_pc w ≠ REmpty c) → exiting (w_pc w) = false →
  ended (w_pc w) = false → exit_ok w.
Proof. intros G N E1 E2. constructor; rewrite ?G, ?E1, ?E2; try done. intros c Hc. by destruct (N c). Qed.

Lemma exit_run k base w i :
  Inv k base (w_ring w) → Flow w → Signals w → exit_ok w → exit_ok (run_step i w).
Proof.
  intros I F Sg [X1 X2 X3 X4].
  assert (NL : (exiting (w_pc w) || ended (w_pc w)) = false → left_at (w_ghost w) = None).
  { intros N. destruct (left_at _) as [[n rc]|]; [|done]. destruct (X4 n rc eq_refl) as [Y _]. congruence. }
  unfold run_step.
  destruct (w_pc w) as [|todo| | |h|h| | | |h|h| | | |todo sum|sum| |c| |err| |until| |] eqn:E;
    cbn [exiting ended orb] in *.
  all: unfold write_batch, fill_mark, count_batch, finish, consumed_lease; rewrite ?release_eq.
  all: try (specialize (NL eq_refl)).
  all: try (repeat match goal with
    | |- context [match ?x with _ => _ end] =>
        lazymatch x with context [poll_channels] => fail | _ => destruct x end
    end; apply exit_inside; cbn; by rewrite ?NL, ?E; try done).
  - cbv zeta. destruct (aborting (poll_channels _ _ _)); [|destruct (retrying (poll_channels _ _ _))];
      by apply exit_inside.
  - destruct todo; rewrite ?release_eq; by apply exit_inside.
  - destruct (sink_close _) as [s err]. constructor; cbn; rewrite ?NL; try done. intros _. left.
    destruct F as [_ _ _ _ _ _ _ (s' & f & q & _ & _ & _ & _ & _ & St)]. rewrite E in St. apply St.
  - destruct todo; rewrite ?release_eq; by apply exit_inside.
  - destruct (_ && _) eqn:T; [|by apply exit_inside]. zbool.
    constructor; cbn; rewrite ?NL; try done. by intros c [= <-].
  - destruct (depth_step _ _) as [| |d] eqn:D; try done. destruct (d =? 0) eqn:Z; [|by apply exit_inside].
    zbool. subst d. destruct (X1 c eq_refl) as [-> Cl].
    destruct (idle_got _ _ (fl_con _ _ _ _ _ _ F)) as [C G]; [by rewrite E|].
    pose proof (empty_idle k base _ I C D) as Len.
    destruct F as [_ _ _ _ _ _ _ (s' & f & q & _ & Tk & _ & _ & _ & St)].
    rewrite E in St, Tk. destruct St as (-> & P & -> & Gn & A). rewrite G in Tk. cbn in Tk.
    constructor; cbn; try done; try eauto. intros n rc [= <- <-]. split_and!; try done.
    + by apply (so_queue _ _ _ Sg), (so_closing _ _ _ Sg), (so_seen _ _ _ Sg).
    + by rewrite Len, Tk, !app_nil_r.
  - destruct (sink_flush _) as [s e]. constructor; cbn in *; try done; auto.
  - destruct (sink_close _) as [s e]. constructor; cbn in *; try done; auto.
  - constructor; cbn in *; try done; auto.
  - by constructor; rewrite ?E.
Qed.
Lemma exit_other w w' :
  sys_step w w' → Flow w → exit_ok w → w_loop w' = w_loop w → w_pc w' = w_pc w →
  left_at (w_ghost w') = left_at (w_ghost w) → delivered (w_ghost w') = delivered (w_ghost w) →
  exit_ok w'.
Proof.
  intros (Q1 & _ & Q3 & Q4)%sys_quiet F [X1 X2 X3 X4] L P G D. constructor; rewrite ?L, ?P, ?G, ?D; auto.
  - intros c E. destruct (X1 c E) as [-> ?]. split; [|done]. symmetry. apply Q4.
    eapply idle_got; [apply F|by rewrite E].
  - intros n rc E. destruct (X4 n rc E) as (? & ? & C & ? & R). split_and!; auto.
    intros Rc. destruct (R Rc) as [R1 R2]. destruct (Q3 C R1) as [? ->]. done.
Qed.

(** ** Everything together *)

Record World w : Prop := {
  wo_limits : limits_ok (f_config (w_fl w));
  wo_flow : Flow w; wo_signals : Signals w; wo_batch : Batch w; wo_exit : exit_ok w
}.

Lemma World_init k base w : sys_init k base w → World w.
Proof.
  intros I. pose proof (reach_limits k base w (reach_init _ _ _ I)) as L. constructor; [done|..].
  - by eapply Flow_init.
  - by eapply Signals_init.
  - unfold Batch. destruct I as (_ & _ & _ & _ & -> & -> & ->). unfold limits_ok in L.
    constructor; cbn; try done; lia.
  - destruct I as (_ & _ & _ & _ & Lo & P & G). constructor; rewrite ?Lo, ?P, ?G; done.
Qed.

Lemma limits_step w w' : sys_step w w' → limits_ok (f_config (w_fl w)) → limits_ok (f_config (w_fl w')).
Proof. intros [[i ->]|(_ & _ & _ & -> & _)]%sys_other; [by rewrite f_config_run|done]. Qed.

Lemma World_step k base w w' : Inv k base (w_ring w) → sys_step w w' → World w → World w'.
Proof.
  intros I St [L F Sg Ba X]. constructor.
  - by eapply limits_step.
  - by eapply Flow_step.
  - by eapply Signals_step.
  - by eapply Batch_step.
  - destruct (sys_other _ _ St) as [[i ->]|(E1 & E2 & _ & _ & G)].
    + by apply (exit_run k base).
    + destruct G as [G|(h & _ & G)]; (eapply (exit_other w w'); try done; by rewrite G).
Qed.

Lemma reach_World k base w :
  0 <= base < 2 ^ 64 → 1 <= k <= 30 → sys_reach k base w → bounded (w_ring w) → World w.
Proof.
  intros Hb Hk. revert w.
  apply (reach_invariant (sys_init k base) sys_step (λ w, bounded (w_ring w) → World w)).
  - intros w I _. by eapply World_init.
  - intros w w' R IH St B. pose proof (sys_bounded _ _ St B) as B'. eapply World_step; [by apply (sys_Inv k base)|done|by apply IH].
Qed.
End Control.
