(* ===== verification/FlushProps.v ===== *)
(** * What the flusher guarantees

    Delivery in admission order, a retry sends the same batch, what the loop leaves
    behind when it ends, the growth of the backoff; an executable scheduler
    ([do_event]) with concrete runs, and the run in which [Close] loses an event it
    has accepted. *)

From stdpp Require Import gmap strings list fin_maps.
From Stdlib Require Import ZArith Lia.
From Stdlib.Strings Require Import Byte.
From S2P Require Import Prelude GoLib Ring RingConc Pool PoolInv PoolSafety Flusher FlushInv FlushSafety FlushControl.

Section Guarantees.
Context {S : Type} `{BatchSink S}.
Implicit Types (w : world S).

(** C4. Delivery in admission order, each event once, with the bytes that were
    published.  At any time the batches the sink has accepted, concatenated, are
    the first admitted events in the order of admission; after them come those an
    abort has given up, then the rest; no lease is admitted twice; a batch holds
    between one and [BatchSize] events; nothing is given up unless aborting. *)
Theorem flush_fifo (k base : Z) w :
  0 <= base < 2 ^ 64 → 1 <= k <= 30 → sys_reach k base w → bounded (w_ring w) →
  let g := w_ghost w in
  (∃ rest, reserved (w_ring w) = concat (delivered g) ++ gone g ++ rest) ∧
  NoDup (reserved (w_ring w)) ∧
  output g = map (published_bytes g) (delivered g) ∧
  Forall (λ b, b ≠ [] ∧ len b <= BatchSize (f_config (w_fl w))) (delivered g) ∧
  (gone g ≠ [] → aborting (w_loop w) = true).
Proof.
  intros Hb Hk R B g. destruct (reach_World k base w Hb Hk R B) as [_ F _ Ba _].
  pose proof (bo_batches _ _ _ _ Ba) as Bb.
  destruct F as [_ _ _ _ _ O N (s & f & q & E & _ & _ & _ & _ & St)].
  destruct (stage_front _ _ _ _ _ St) as [[rest Er] Ab]. split_and!; try done.
  exists (rest ++ q). by rewrite E, app_assoc, Er, <- !app_assoc.
Qed.

(** C14. A failed batch is retried as it is.  Whenever the loop is about to call
    the sink, the batch has between one and [BatchSize] events, all of them still
    in flight, and shows the published bytes; on a retry that is, byte for byte,
    what the attempt before sent.  (With limits under 2^62 ns the backoff then lies
    between its two configured bounds.) *)
Theorem retry_same_batch (k base : Z) w :
  0 <= base < 2 ^ 64 → 1 <= k <= 30 → sys_reach k base w → bounded (w_ring w) → w_pc w = RWrite →
  let l := pending (w_loop w) in
  let c := f_config (w_fl w) in
  0 < len l <= BatchSize c ∧ Forall (in_state (w_pool w) StateInFlight) l ∧
  map (payload_of (w_pool w)) l = published_bytes (w_ghost w) l ∧
  (retrying (w_loop w) = true → map (payload_of (w_pool w)) l = attempted (w_ghost w)) ∧
  (MaxRetryBackoff c <= 2 ^ 62 →
   RetryBackoff c <= retryBackoff (w_loop w) <= MaxRetryBackoff c).
Proof.
  intros Hb Hk R B E l c. destruct (reach_World k base w Hb Hk R B) as [_ F _ Ba _].
  pose proof (write_payloads w F E) as P. destruct Ba as [B1 _ B3 B4 _ B6].
  specialize (B3 E). rewrite E in B6. split_and!; try done; try apply B4; auto.
  - subst l. destruct (pending (w_loop w)); [done|]. cbn. lia.
  - destruct F as [_ _ _ _ _ _ _ (s & f & q & _ & _ & _ & F2 & _ & St)]. rewrite E in St.
    by destruct St as (-> & _).
  - intros Rt. destruct (B6 Rt) as (_ & [|[_ ->]]); done.
Qed.

(** C19. What the loop leaves when it ends.  Everything it took from the ring has
    been returned to the pool: the delivered events and, after an abort, those given
    up.  Without an abort none is given up, the ring was closed, and everything
    admitted before the last look at the ring was delivered; if no publisher then
    stood between its own look at [closed] and its reservation, that is everything
    that is ever admitted. *)
Theorem close_drains (k base : Z) w :
  0 <= base < 2 ^ 64 → 1 <= k <= 30 → sys_reach k base w → bounded (w_ring w) → w_pc w = RDone →
  let g := w_ghost w in
  (∃ rest, reserved (w_ring w) = concat (delivered g) ++ gone g ++ rest ∧
     Forall (in_state (w_pool w) StateQueued) rest) ∧
  Forall (in_state (w_pool w) StateReturned) (concat (delivered g) ++ gone g) ∧
  (aborting (w_loop w) = false → gone g = [] ∧ Ring.closed (queue (w_ring w)) = true ∧
     ∃ n rc, left_at g = Some (n, rc) ∧ concat (delivered g) = take n (reserved (w_ring w)) ∧
       (rc = false → reserved (w_ring w) = concat (delivered g) ∧ racing (w_ring w) = false)).
Proof.
  intros Hb Hk R B E g. destruct (reach_World k base w Hb Hk R B) as [_ F _ _ X].
  destruct F as [_ _ _ _ _ _ _ (s & f & q & Er & _ & F1 & _ & F3 & St)]. rewrite E in St.
  destruct St as (-> & _ & -> & Ab). rewrite Er, <- app_assoc. split_and!; [by eexists|done|].
  intros A. destruct Ab as [|Gn]; [congruence|].
  destruct (ex_end _ X) as [|[[n rc] L]]; [by rewrite E|congruence|].
  destruct (ex_left _ X n rc L) as (_ & _ & C & Hn & Rc). split_and!; try done.
  exists n, rc. unfold g in *. rewrite Gn in *. cbn in *. rewrite app_nil_r in Er. split_and!; try done.
  - by rewrite Hn, take_app_length.
  - intros Hr. destruct (Rc Hr) as [R1 R2]. split; [|done].
    rewrite Er, length_app in R2. destruct q; [by rewrite app_nil_r|cbn in R2; lia].
Qed.
End Guarantees.

(** C33. The backoff doubles up to its limit: after [n] failures in a row it is the
    smaller of [RetryBackoff] times 2^n and [MaxRetryBackoff], for limits that leave
    the doubling inside an int64. *)
Theorem backoff_closed_form c c' n :
  normalized c = Ok c' → MaxRetryBackoff c' <= 2 ^ 62 →
  Nat.iter n (next_backoff c') (RetryBackoff c') = Z.min (RetryBackoff c' * 2 ^ Z.of_nat n) (MaxRetryBackoff c').
Proof.
  intros L%normalized_limits M. unfold limits_ok in L.
  induction n as [|n IH]; [change (Z.of_nat 0) with 0; cbn; lia|].
  rewrite Nat2Z.inj_succ, Z.pow_succ_r by lia. rewrite Nat.iter_succ, IH.
  assert (0 < 2 ^ Z.of_nat n) by lia.
  unfold next_backoff. destruct (_ <? _) eqn:E; zbool; [|nia].
  rewrite i64_small by nia. destruct (_ >? _) eqn:E'; zbool; nia.
Qed.

(** ** Runs *)

Section Scheduler.
Context {S : Type} `{BatchSink S}.
Implicit Types (w : world S).

(** A scheduling decision; [do_event] is [None] where it is not enabled. *)
Inductive event :=
| ERun (i : input) | EConsume | EProduce (tid : nat) | EPublish (tid h : nat) | EReturn (tid : nat)
| EBorrow (op : pool_op) | EStart | ECloseQueue | ECloseMark | ECloseStop | EAbort.

Definition harmless (op : pool_op) : bool :=
  match op with
  | DoAcquire _ _ _ | DoResize _ _ | DoAppend _ _ | DoSetBytes _ _ => true
  | _ => false
  end.

Definition do_event (e : event) w : option (world S) :=
  match e with
  | ERun i => if running (w_fl w) then Some (run_step i w) else None
  | EConsume => (λ r, w <| w_ring := r |>) <$> do_action (w_ring w) AConsumeStep
  | EProduce tid => (λ r, w <| w_ring := r |>) <$> do_action (w_ring w) (AStep tid)
  | EPublish tid h => publish_call tid h w
  | EReturn tid => publish_return tid w
  | EBorrow op => if harmless op then Some (w <| w_pool := (pool_do op (w_pool w)).1 |>) else None
  | EStart => Some (w <| w_fl ::= Start |>)
  | ECloseQueue => Some (close_queue w)
  | ECloseMark => if Ring.closed (queue (w_ring w)) then Some (close_mark w) else None
  | ECloseStop => if closing (w_fl w) then Some (close_stop w) else None
  | EAbort => if stop (w_fl w) then Some (close_abort w) else None
  end.

Fixpoint do_events (l : list event) w : option (world S) :=
  match l with [] => Some w | e :: l => w' ← do_event e w; do_events l w' end.

Lemma do_event_step e w w' : do_event e w = Some w' → sys_step w w'.
Proof.
  destruct e as [i| |tid|tid h|tid|op| | | | |]; cbn [do_event].
  - destruct (running _) eqn:R; [|done]. intros [= <-]. by apply sys_run.
  - destruct (do_action _ _) eqn:A; [|done]. intros [= <-]. by apply sys_consume.
  - destruct (do_action _ _) eqn:A; [|done]. intros [= <-]. by eapply sys_produce.
  - apply sys_publish.
  - apply sys_return.
  - destruct (harmless op) eqn:Hm; [|done]. intros [= <-]. apply sys_borrow. by destruct op.
  - intros [= <-]. apply sys_start.
  - intros [= <-]. apply sys_close_queue.
  - destruct (Ring.closed _) eqn:C; [|done]. intros [= <-]. by apply sys_close_mark.
  - destruct (closing _) eqn:C; [|done]. intros [= <-]. by apply sys_close_stop.
  - destruct (stop _) eqn:C; [|done]. intros [= <-]. by apply sys_abort.
Qed.

Lemma do_events_reach k base l : ∀ w w',
  sys_reach k base w → do_events l w = Some w' → sys_reach k base w'.
Proof.
  induction l as [|e l IH]; cbn; intros w w' R E; [by injection E as <-|].
  destruct (do_event e w) as [w1|] eqn:E1; [|done]. eapply IH; [|exact E].
  eapply reach_step; [exact R|]. by eapply do_event_step.
Qed.
End Scheduler.

(** A sink that refuses the first writes and records the others. *)
Record test_sink := mkTestSink { refusals : nat; stored : list (list (list byte)) }.

#[export] Instance test_sink_ops : BatchSink test_sink := {
  sink_write cancelled b s :=
    match refusals s with
    | O => (mkTestSink O (stored s ++ [b]), None)
    | S n => (mkTestSink n (stored s), Some (ErrNew "unavailable"))
    end;
  sink_flush s := (s, None);
  sink_close s := (s, None)
}.

Definition test_config : Config := mkConfig 2 1000 10 20 50.

Definition test_flusher : Flusher :=
  Eval vm_compute in
  match New false false false test_config with
  | Ok f => f
  | Err _ => mkFlusher test_config false false false false 0 0 0 0 0 0 0 0 0 false false false false None None
  end.

Definition test_ring : ring_sys nat :=
  Eval vm_compute in
  default (mkSys (mkQueue 0 0 0 0 [] false 0 0 0 0 0 0 0) ∅ CIdle [] []) (start_state 2 (2 ^ 64 - 2)).

Definition test_world : world test_sink :=
  mkWorld test_ring ∅ example_pool test_flusher (new_loop test_config) RSelect (mkTestSink 1 [])
    (mkGhost [] [] [] [] ∅ None).

Lemma test_start : sys_reach 2 (2 ^ 64 - 2) test_world.
Proof.
  apply reach_init. split_and!; try done.
  - apply start_state_start. vm_compute. reflexivity.
  - exists example_config. apply example_New.
  - by exists test_config.
Qed.

(** Publishing one event: the lease, its bytes, the call to its end. *)
Definition log_events (tid h : nat) (b : list byte) : list event :=
  [EBorrow (DoAcquire 4 no_context (example_env None 5)); EBorrow (DoSetBytes h b); EPublish tid h]
  ++ repeat (EProduce tid) 12.

Definition at_time (t : Z) : event := ERun (mkInput t 1 false).

(** The flusher fetches an event, or finds none. *)
Definition fetch (t : Z) : list event := [at_time t] ++ repeat EConsume 6 ++ [at_time t; at_time t].
Definition fetch_none (t : Z) : list event := [at_time t] ++ repeat EConsume 2 ++ [at_time t].

(** Two events are published, the flusher takes both and tries to write them. *)
Definition first_try : list event :=
  [EStart] ++ log_events 1 0 [x01; x02] ++ [EReturn 1] ++ log_events 2 1 [x03] ++ [EReturn 2] ++
  [at_time 100] ++ fetch 100 ++ fetch 100 ++ [at_time 100; at_time 100; at_time 100].

Definition first_world : world test_sink := Eval vm_compute in default test_world (do_events first_try test_world).

(** The write is refused; after the backoff it is tried again. *)
Definition second_try : list event := repeat (at_time 100) 3 ++ repeat (at_time 130) 3.

Definition second_world : world test_sink := Eval vm_compute in default test_world (do_events second_try first_world).

(** [Close] is called; the write succeeds, the loop ends. *)
Definition closing_events : list event :=
  [ECloseQueue; ECloseMark; ECloseStop] ++ repeat (at_time 130) 6 ++ fetch_none 140 ++ repeat (at_time 140) 7.

Definition closed_world : world test_sink := Eval vm_compute in default test_world (do_events closing_events second_world).

Lemma first_reach : sys_reach 2 (2 ^ 64 - 2) first_world.
Proof. apply (do_events_reach _ _ first_try test_world); [apply test_start|]. vm_compute. reflexivity. Qed.

Lemma second_reach : sys_reach 2 (2 ^ 64 - 2) second_world.
Proof. apply (do_events_reach _ _ second_try first_world); [apply first_reach|]. vm_compute. reflexivity. Qed.

Lemma closed_reach : sys_reach 2 (2 ^ 64 - 2) closed_world.
Proof. apply (do_events_reach _ _ closing_events second_world); [apply second_reach|]. vm_compute. reflexivity. Qed.

Lemma flush_fifo_witness :
  delivered (w_ghost closed_world) = [[0%nat; 1%nat]] ∧
  output (w_ghost closed_world) = stored (w_sink closed_world) ∧
  ∃ rest, reserved (w_ring closed_world) = [0%nat; 1%nat] ++ rest.
Proof.
  split; [done|]. split; [done|].
  destruct (flush_fifo 2 (2 ^ 64 - 2) closed_world) as [X _];
    [lia|lia|apply closed_reach|vm_compute; reflexivity|exact X].
Defined.

Lemma retry_same_batch_witness :
  retrying (w_loop second_world) = true ∧ refusals (w_sink second_world) = 0%nat ∧
  map (payload_of (w_pool second_world)) (pending (w_loop second_world)) = [[x01; x02]; [x03]].
Proof.
  split; [done|]. split; [done|].
  destruct (retry_same_batch 2 (2 ^ 64 - 2) second_world) as (_ & _ & _ & X & _);
    [lia|lia|apply second_reach|vm_compute; reflexivity|reflexivity|].
  rewrite X; reflexivity.
Defined.

Lemma close_drains_witness :
  w_pc closed_world = RDone ∧
  reserved (w_ring closed_world) = concat (delivered (w_ghost closed_world)) ∧
  Forall (in_state (w_pool closed_world) StateReturned) [0%nat; 1%nat].
Proof.
  split; [done|].
  destruct (close_drains 2 (2 ^ 64 - 2) closed_world) as (_ & R & X);
    [lia|lia|apply closed_reach|vm_compute; reflexivity|reflexivity|].
  split; [|exact R]. destruct X as (_ & _ & n & rc & L & _ & Y); [reflexivity|].
  apply Y. injection L as _ <-. reflexivity.
Defined.

Lemma backoff_closed_form_witness :
  Nat.iter 3 (next_backoff test_config) (RetryBackoff test_config) = 50.
Proof.
  rewrite (backoff_closed_form test_config test_config 3); [reflexivity|reflexivity|].
  cbn. lia.
Defined.

(** ** Close against a publisher

    The publisher has passed its last look at [closed] when [Close] closes the ring;
    the loop finds the ring empty and ends; then the publisher reserves its place. *)
Definition racing_events : list event :=
  [EStart; EBorrow (DoAcquire 4 no_context (example_env None 5)); EBorrow (DoSetBytes 0 [x01]);
   EPublish 1 0] ++ repeat (EProduce 1) 3 ++ [ECloseQueue; ECloseMark; ECloseStop; at_time 100] ++
  fetch_none 100 ++ repeat (at_time 100) 7 ++ repeat (EProduce 1) 9.

Definition raced_world : world test_sink := Eval vm_compute in default test_world (do_events racing_events test_world).

Lemma raced_reach : sys_reach 2 (2 ^ 64 - 2) raced_world.
Proof. apply (do_events_reach _ _ racing_events test_world); [apply test_start|]. vm_compute. reflexivity. Qed.

(** C25. An event can be accepted and never delivered: there is a run in which the
    loop has ended without an error and [Close] reports success, while a publisher
    is told that its lease was accepted; the lease is admitted and queued, nothing
    was delivered, and no step of [run] will follow. *)
Theorem close_race :
  ∃ w : world test_sink, sys_reach 2 (2 ^ 64 - 2) w ∧ bounded (w_ring w) ∧
    w_pc w = RDone ∧ running (w_fl w) = false ∧ close_return None w = Some (CloseDone None) ∧
    producers (w_ring w) !! 1%nat = Some (PReturn PublishAccepted) ∧
    reserved (w_ring w) = [0%nat] ∧ concat (delivered (w_ghost w)) = [] ∧
    in_state (w_pool w) StateQueued 0.
Proof.
  exists raced_world. split; [apply raced_reach|]. split_and!; try (vm_compute; reflexivity).
  eexists. split; vm_compute; reflexivity.
Qed.
