(* ===== verification/FlushLive.v ===== *)
(** * [Close] completes

    Once [Close] has closed the ring and signalled the loop, and no publisher is in
    a call, the loop running alone against a sink that accepts its batches comes to
    its end and delivers everything that was admitted. *)

From stdpp Require Import gmap strings list fin_maps.
From Stdlib Require Import ZArith Lia.
From Stdlib.Strings Require Import Byte.
From S2P Require Import Prelude GoLib Ring RingConc Pool PoolInv PoolSafety Flusher FlushInv FlushSafety FlushControl FlushProps.

(** With no publisher in a call, [TryConsume] comes back empty only from an empty ring. *)
Lemma consume_none_drained k base (r r' : ring_sys nat) :
  Inv k base r → producers r = ∅ → do_action r AConsumeStep = Some r' → con r' = CReturn None →
  length (taken r) = length (reserved r).
Proof.
  intros I P D N. pose proof (inv_con _ _ _ I) as C. pose proof (inv_order _ _ _ I) as O.
  pose proof (inv_shaped _ _ _ I) as Sh. cbn in D.
  destruct (con r) as [| |pos|pos|pos v|pos v|v|o] eqn:E; cbn in D; try done; injection D as <-;
    cbn in N; try done; unfold con_ok in C; rewrite E in C.
  - destruct (_ =? 0) eqn:Z; [done|]. zbool. subst pos.
    assert (Sw : swapped r = false) by (unfold swapped; by rewrite E).
    destruct (decide (head base r < tail base r)) as [Hl|].
    2:{ unfold head, tail in *. rewrite Sw in *. lia. }
    exfalso. apply Z. destruct (inv_used _ _ _ I (head base r)) as [(t & w & sv & Hh)|(w & _ & Hc)]; [lia| |].
    + unfold held in Hh. by rewrite P, omap_empty in Hh.
    + rewrite (cell_at_cell k _ _ _ Sh Hc). cbn. by rewrite u64_add_l, Z.sub_diag.
  - exfalso. destruct C as (-> & _ & v & _ & Hc).
    by rewrite (cell_at_cell k _ _ _ Sh Hc) in N.
Qed.

(** Steps of the consumer's call still to come. *)
Definition con_rank (c : con_pc nat) : nat :=
  match c with
  | CBegin => 6 | CLoadSequence _ => 5 | CSwap _ => 4 | CStoreSequence _ _ => 3
  | CStoreCursor _ _ => 2 | CCount _ => 1 | CIdle | CReturn _ => 0
  end.

Lemma con_rank_step (r r' : ring_sys nat) :
  do_action r AConsumeStep = Some r' → (con_rank (con r') < con_rank (con r))%nat.
Proof.
  intros D. cbn in D. destruct (con r) as [| |pos|pos|pos v|pos v|v|o]; cbn in D; try done;
    injection D as <-; cbn; try lia.
  - destruct (_ =? 0); cbn; lia.
  - destruct (value _); cbn; lia.
Qed.

Section Live.
Context {S : Type} `{BatchSink S}.
Implicit Types (w : world S).

(** The flusher's next step when it runs alone: of the [TryConsume] it is in, or
    of [run]. *)
Definition turn (i : input) w : world S :=
  if consuming (w_pc w) && con_running (con (w_ring w))
  then w <| w_ring ::= ring_action AConsumeStep |> else run_step i w.

(** [n] turns from the [t]-th input on. *)
Fixpoint turns (ins : nat → input) (t n : nat) w : world S :=
  match n with O => w | Datatypes.S n => turns ins (Datatypes.S t) n (turn (ins t) w) end.

Lemma run_running w i :
  w_pc w ≠ RReturn → running (w_fl (run_step i w)) = running (w_fl w).
Proof.
  intros N. unfold run_step, write_batch, fill_mark, count_batch, finish, consumed_lease, setFinalError, recordError.
  destruct (w_pc w) as [|[]| | | | | | | | | | | | |[]| | | | | | | | |]; rewrite ?release_eq; cbn;
    repeat match goal with
    | |- context [let '(_, _) := ?x in _] => destruct x as [? []]
    | |- context [match ?x with _ => _ end] =>
        lazymatch x with context [poll_channels] => fail | _ => destruct x end
    end; cbn; done.
Qed.

Lemma run_left w i :
  left_at (w_ghost (run_step i w)) = left_at (w_ghost w) ∨
  left_at (w_ghost (run_step i w)) = Some (length (reserved (w_ring w)), racing (w_ring w)).
Proof.
  unfold run_step, write_batch, fill_mark, count_batch, finish, consumed_lease.
  destruct (w_pc w) as [|[]| | | | | | | | | | | | |[]| | | | | | | | |]; rewrite ?release_eq; cbn;
    repeat match goal with
    | |- context [let '(_, _) := ?x in _] => destruct x as [? []]
    | |- context [match ?x with _ => _ end] =>
        lazymatch x with context [poll_channels] => fail | _ => destruct x end
    end; cbn; auto.
Qed.

Lemma run_ring_frame w i :
  producers (w_ring (run_step i w)) = producers (w_ring w) ∧
  reserved (w_ring (run_step i w)) = reserved (w_ring w) ∧
  taken (w_ring (run_step i w)) = taken (w_ring w).
Proof.
  destruct (run_ring w i) as [-> |[-> |(o & C & ->)]]; [done|..]; unfold ring_action; cbn.
  - by destruct (con (w_ring w)).
  - by rewrite C.
Qed.

Context (k base : Z) (Hbase : 0 <= base < 2 ^ 64) (Hk : 1 <= k <= 30).
Context (accepts : ∀ (s : S) b, (sink_write false b s).2 = None).
Context (ins : nat → input).
Context (clock : ∀ n, i_now (ins n) <= i_now (ins (Datatypes.S n))).
Context (advances : ∀ T, ∃ n, T <= i_now (ins n)).
Context (admitted : list nat).

(** [Close] has signalled, nobody publishes. *)
Record Quiet w : Prop := {
  qu_reach : sys_reach k base w;
  qu_bounded : bounded (w_ring w);
  qu_stop : stop (w_fl w) = true;
  qu_abort : abort (w_fl w) = false;
  qu_idle : producers (w_ring w) = ∅;
  qu_admitted : reserved (w_ring w) = admitted;
  qu_left : ∀ n rc, left_at (w_ghost w) = Some (n, rc) → rc = false
}.

Lemma quiet_world w : Quiet w → World w ∧ Inv k base (w_ring w).
Proof.
  intros [R B _ _ _ _ _]. split; [by apply (reach_World k base)|].
  by apply (sys_Inv k base).
Qed.

Lemma quiet_aborting w : Quiet w → aborting (w_loop w) = false.
Proof.
  intros Q. destruct (quiet_world w Q) as [[_ _ Sg _ _] _]. destruct (aborting (w_loop w)) eqn:A; [|done].
  destruct (so_abort _ _ _ Sg A) as [X _]. by rewrite (qu_abort _ Q) in X.
Qed.

Lemma quiet_run w i : Quiet w → running (w_fl w) = true → Quiet (run_step i w).
Proof.
  intros [R B St Ab P A L] Ru. destruct (run_ring_frame w i) as (E1 & E2 & _).
  destruct (run_frame w i) as [Ef _]. injection Ef as _ F2 F3 _.
  constructor.
  - eapply reach_step; [exact R|by apply sys_run].
  - unfold bounded in *. by rewrite E2.
  - by rewrite F2.
  - by rewrite F3.
  - by rewrite E1.
  - by rewrite E2.
  - intros n rc. destruct (run_left w i) as [-> | ->]; [apply L|]. intros [= <- <-].
    apply racing_false. intros tid pc. by rewrite P, lookup_empty.
Qed.

Lemma quiet_consume w r : Quiet w → do_action (w_ring w) AConsumeStep = Some r → Quiet (w <| w_ring := r |>).
Proof.
  intros [R B St Ab P A L] D. destruct (consume_step _ _ D) as (E1 & E2 & _).
  constructor; cbn; try done.
  - eapply reach_step; [exact R|by apply sys_consume].
  - unfold bounded in *. by rewrite E1.
  - by rewrite E2.
  - by rewrite E1.
Qed.
(** ** Eventually *)

Definition ev (t : nat) w (P : nat → world S → Prop) : Prop :=
  ∃ n, P (t + n)%nat (turns ins t n w).

Lemma ev_now t w P : P t w → ev t w P.
Proof. intros HP. exists O. by rewrite Nat.add_0_r. Qed.

Lemma ev_turn t w P : ev (Datatypes.S t) (turn (ins t) w) P → ev t w P.
Proof. intros [n HP]. exists (Datatypes.S n). by rewrite Nat.add_succ_r. Qed.

Lemma ev_run t w P :
  consuming (w_pc w) = false → ev (Datatypes.S t) (run_step (ins t) w) P → ev t w P.
Proof. intros C E. apply ev_turn. unfold turn. by rewrite C. Qed.

Lemma turns_add n : ∀ m t w, turns ins t (n + m) w = turns ins (t + n) m (turns ins t n w).
Proof.
  induction n as [|n IH]; intros m t w; cbn; [by rewrite Nat.add_0_r|].
  rewrite IH. f_equal. lia.
Qed.

Lemma ev_bind t w P Q :
  ev t w P → (∀ t' w', (t <= t')%nat → P t' w' → ev t' w' Q) → ev t w Q.
Proof.
  intros [n HP] K. destruct (K _ _ (Nat.le_add_r t n) HP) as [m HQ].
  exists (n + m)%nat. by rewrite turns_add, Nat.add_assoc.
Qed.

Lemma clock_mono t t' : (t <= t')%nat → i_now (ins t) <= i_now (ins t').
Proof. induction 1 as [|t' _ IH]; [done|]. pose proof (clock t'). lia. Qed.

(** ** The loop's stretches *)

Definition Live w : Prop := Quiet w ∧ running (w_fl w) = true.

Lemma live_run w i : Live w → w_pc w ≠ RReturn → Live (run_step i w).
Proof. intros [Q R] N. split; [by apply quiet_run|by rewrite run_running]. Qed.

(** What the stretch leaves as it was. *)
Definition keeps w w' : Prop :=
  l_closing (w_loop w') = l_closing (w_loop w) ∧ retrying (w_loop w') = retrying (w_loop w) ∧
  delivered (w_ghost w') = delivered (w_ghost w).

Definition fresh (r : ring_sys nat) : Prop :=
  con r = CReturn None → length (taken r) = length (reserved r).

Definition drained w : Prop := length (taken (w_ring w)) = length (reserved (w_ring w)).

Lemma live_consume n : ∀ t w,
  (con_rank (con (w_ring w)) <= n)%nat → Live w → w_pc w = RFillWait →
  ev t w (λ _ w', Live w' ∧ w_loop w' = w_loop w ∧ w_ghost w' = w_ghost w ∧ w_fl w' = w_fl w ∧
    ((∃ h, w_pc w' = RFillMark h) ∨ w_pc w' = RInFlight ∧ (fresh (w_ring w) → drained w'))).
Proof.
  induction n as [n IH] using lt_wf_ind. intros t w Hn L E.
  destruct (con_running (con (w_ring w))) eqn:Cr.
  - destruct (do_action (w_ring w) AConsumeStep) as [r|] eqn:D.
    2:{ cbn in D. rewrite Cr in D. by destruct (con_step _ _). }
    apply ev_turn. unfold turn. rewrite E, Cr. cbn [consuming andb].
    replace (w <| w_ring ::= ring_action AConsumeStep |>) with (w <| w_ring := r |>)
      by (cbn; unfold ring_action; by rewrite D).
    pose proof (con_rank_step _ _ D) as Rk. destruct L as [Q Ru].
    eapply ev_bind; [apply (IH (con_rank (con r))); [lia|done|split; [by apply quiet_consume|done]|done]|].
    intros t' w' _ (L' & El & Eg & Ef & Pc). apply ev_now. split_and!; try done.
    destruct Pc as [?|[Pc Fr]]; [by left|right]. split; [done|]. intros _. apply Fr.
    intros N. destruct (quiet_world w Q) as [_ I].
    destruct (consume_step _ _ D) as (R1 & _ & _ & _ & _ & [[_ R2]|(_ & v & G & _)]).
    + cbn in *. rewrite R1, R2. eapply consume_none_drained; [exact I|apply Q|exact D|exact N].
    + unfold got in G. cbn in N. by rewrite N in G.
  - pose proof (live_run w (ins t) L) as L'. destruct L as [Q Ru].
    destruct (quiet_world w Q) as [[_ F _ _ _] _]. pose proof (fl_con _ _ _ _ _ _ F) as C.
    unfold con_matches in C. rewrite E in C. cbn [consuming] in C.
    destruct (run_ring_frame w (ins t)) as (_ & E2 & E3).
    apply ev_turn. unfold turn. rewrite E, Cr. cbn [consuming andb]. apply ev_now.
    split; [apply L'; by rewrite E|]. unfold drained. rewrite E2, E3. clear L' E2 E3.
    unfold run_step, consumed_lease. rewrite E. unfold fresh.
    destruct (con (w_ring w)) as [| | | | | | |[h|]]; try done; cbn.
    + split_and!; try done. left. by exists h.
    + split_and!; try done. right. by auto.
Qed.

Lemma live_mark t w h :
  Live w → w_pc w = RFillMark h →
  Live (run_step (ins t) w) ∧ w_pc (run_step (ins t) w) = RFill ∧ keeps w (run_step (ins t) w) ∧
  pending (w_loop (run_step (ins t) w)) = pending (w_loop w) ++ [h].
Proof.
  intros L E. assert (L' : Live (run_step (ins t) w)) by (apply live_run; [done|by rewrite E]).
  split; [done|]. destruct (quiet_world _ (proj1 L')) as [[_ F _ _ _] _].
  destruct (fl_lined _ _ _ _ _ _ F) as (s & f & q & _ & _ & _ & _ & _ & St). clear L' F.
  unfold run_step in *. rewrite E in *. unfold fill_mark in *.
  destruct (MarkInFlight h (w_pool w)) as [p [e|]]; [destruct (is_modified e)|]; try done;
    unfold keeps; cbn; destruct (pending (w_loop w)) eqn:P; cbn; by rewrite ?P.
Qed.

Lemma live_fill n : ∀ t w,
  Z.to_nat (BatchSize (f_config (w_fl w)) - len (pending (w_loop w))) = n →
  Live w → w_pc w = RFill →
  ev t w (λ _ w', Live w' ∧ w_pc w' = RInFlight ∧ keeps w w' ∧ (pending (w_loop w') = [] → drained w')).
Proof.
  induction n as [n IH] using lt_wf_ind. intros t w Hn L E.
  destruct (quiet_world w (proj1 L)) as [[Li F _ _ _] _]. unfold limits_ok in Li.
  pose proof (live_run w (ins t) L) as L1. apply ev_run; [by rewrite E|].
  destruct (run_ring_frame w (ins t)) as (_ & E2 & E3).
  destruct (idle_got _ _ (fl_con _ _ _ _ _ _ F)) as [C _]; [by rewrite E|].
  specialize (L1 ltac:(by rewrite E)). revert L1. unfold run_step. rewrite E.
  destruct (_ <? _) eqn:T; zbool; intros L1.
  - eapply ev_bind; [by eapply live_consume; [done|exact L1|]|].
    intros t1 w1 _ (Lw & El & Eg & Ef & [[h Pc]|[Pc Fr]]).
    + apply ev_run; [by rewrite Pc|]. destruct (live_mark t1 w1 h Lw Pc) as (L2 & P2 & K2 & Pe).
      assert (Ec : f_config (w_fl (run_step (ins t1) w1)) = f_config (w_fl w))
        by (rewrite f_config_run, Ef; done).
      eapply ev_bind; [eapply (IH _); [|reflexivity|exact L2|exact P2]|].
      * rewrite Ec, Pe, El, length_app. cbn. lia.
      * intros t2 w2 _ (L3 & P3 & K3 & D3). apply ev_now. split_and!; try done.
        unfold keeps in *. rewrite El, Eg in *. cbn in *. naive_solver congruence.
    + apply ev_now. split_and!; try done; [by unfold keeps; rewrite El, Eg|].
      intros _. apply Fr. unfold fresh, ring_action. cbn. by rewrite C.
  - apply ev_now. split_and!; try done. cbn. intros P. rewrite P in T. cbn in T. lia.
Qed.

(** Events not yet delivered. *)
Definition left_over w : nat := length admitted - length (concat (delivered (w_ghost w))).

Lemma delivered_bound w : Quiet w → (length (concat (delivered (w_ghost w))) <= length admitted)%nat.
Proof.
  intros Q. destruct (quiet_world w Q) as [[_ F _ _ _] _].
  destruct F as [_ _ _ _ _ _ _ (s & f & q & E & _ & _ & _ & _ & St)].
  destruct (stage_front _ _ _ _ _ St) as [[rest Er] _].
  rewrite <- (qu_admitted _ Q), E, app_assoc, Er, !length_app. lia.
Qed.

Lemma live_release todo : ∀ t w sum,
  Live w → w_pc w = RRelease todo sum →
  ev t w (λ _ w', Live w' ∧ (∃ sum', w_pc w' = RDelivered sum') ∧ w_loop w' = w_loop w ∧
    delivered (w_ghost w') = delivered (w_ghost w)).
Proof.
  induction todo as [|h todo IH]; intros t w sum L E;
    pose proof (live_run w (ins t) L ltac:(by rewrite E)) as L1;
    (apply ev_run; [by rewrite E|]); revert L1; unfold run_step; rewrite E; rewrite ?release_eq; intros L1.
  - apply ev_now. split_and!; try done. by eexists.
  - eapply ev_bind; [by eapply IH; [exact L1|]|].
    intros t' w' _ (L' & P' & El & Ed). by apply ev_now.
Qed.

(** A delivery. *)
Lemma live_flush t w :
  Live w → w_pc w = RWrite →
  ev t w (λ _ w', Live w' ∧ w_pc w' = RSelect ∧ (left_over w' < left_over w)%nat).
Proof.
  intros L E. destruct (quiet_world w (proj1 L)) as [[_ _ _ Ba _] _].
  pose proof (bo_write _ _ _ _ Ba E) as NE.
  pose proof (live_run w (ins t) L ltac:(by rewrite E)) as L1.
  apply ev_run; [by rewrite E|]. revert L1. unfold run_step. rewrite E. unfold write_batch.
  pose proof (qu_abort _ (proj1 L)) as Ab.
  replace (abort (if retrying (w_loop w) then (w_fl w) <| retries ::= inc |> else w_fl w)) with false
    by (by destruct (retrying (w_loop w))).
  pose proof (accepts (w_sink w) (map (payload_of (w_pool w)) (pending (w_loop w)))) as Acc.
  destruct (sink_write false _ _) as [s o]. cbn in Acc. subst o. intros L1.
  eapply ev_bind; [by eapply live_release; [exact L1|]|].
  intros t2 w2 _ (L2 & [sum P2] & El & Ed).
  pose proof (live_run w2 (ins t2) L2 ltac:(by rewrite P2)) as L3.
  pose proof (delivered_bound _ (proj1 L3)) as Bd.
  apply ev_run; [by rewrite P2|]. apply ev_now. revert L3 Bd. unfold run_step. rewrite P2.
  unfold count_batch, left_over. cbn. rewrite Ed. cbn. rewrite concat_app, length_app. cbn.
  rewrite app_nil_r. intros L3 Bd. split_and!; try done.
  destruct (pending (w_loop w)); [done|]. cbn in *. lia.
Qed.

(** What looking at the channels does now. *)
Lemma poll_quiet w i :
  Quiet w →
  let lp := poll_channels i (w_fl w) (w_loop w) in
  l_closing lp = true ∧ aborting lp = false ∧ pending lp = pending (w_loop w) ∧
  retrying lp = retrying (w_loop w) ∧ retryAt lp = retryAt (w_loop w).
Proof.
  intros Q. pose proof (quiet_aborting w Q) as A. destruct (quiet_world w Q) as [[_ _ Sg _ _] _].
  unfold poll_channels. rewrite (qu_abort _ Q), (qu_stop _ Q), andb_false_r, andb_true_r. cbn.
  destruct (stopChannel (w_loop w)) eqn:C; cbn; [done|]. split_and!; try done.
  destruct (l_closing (w_loop w)) eqn:Cl; [done|]. by rewrite (so_stop_channel _ _ _ Sg Cl) in C.
Qed.

(** The sleep ends: at its end, or at the stop signal. *)
Lemma live_sleep t w u :
  Live w → w_pc w = RSleep u →
  ev t w (λ t' w', Live w' ∧ w_pc w' = RSelect ∧ pending (w_loop w') = pending (w_loop w) ∧
    retrying (w_loop w') = retrying (w_loop w) ∧ retryAt (w_loop w') = retryAt (w_loop w) ∧
    delivered (w_ghost w') = delivered (w_ghost w) ∧
    (l_closing (w_loop w) = true → u <= i_now (ins t'))).
Proof.
  destruct (advances u) as [N HN]. intros L E. remember (N - t)%nat as m eqn:Hm.
  revert t Hm. induction m as [|m IH]; intros t Hm;
    pose proof (live_run w (ins t) L ltac:(by rewrite E)) as L1;
    (apply ev_run; [by rewrite E|]); revert L1; unfold run_step; rewrite E;
    destruct (poll_quiet w (ins t) (proj1 L)) as (P1 & P2 & P3 & P4 & P5);
    destruct (_ || _) eqn:T; intros L1;
    try (apply ev_now; split_and!; try done; cbn; intros Cl;
      destruct (quiet_world w (proj1 L)) as [[_ _ Sg _ _] _];
      rewrite (so_stop_taken _ _ _ Sg (quiet_aborting w (proj1 L)) Cl), (qu_abort _ (proj1 L)),
        andb_false_r in T; cbn in T; zbool; pose proof (clock t); lia).
  - exfalso. apply orb_false_iff in T as [_ T]. apply Z.leb_gt in T.
    pose proof (clock_mono N t ltac:(lia)). lia.
  - apply IH. lia.
Qed.

(** ** The end *)

Definition Ended w : Prop := Quiet w ∧ w_pc w = RDone ∧ done_ (w_fl w) = true.

Lemma live_return t w : Live w → w_pc w = RReturn → ev t w (λ _ w', Ended w').
Proof.
  intros [Q Ru] E. pose proof (quiet_run w (ins t) Q Ru) as Q1. apply ev_run; [by rewrite E|].
  apply ev_now. revert Q1. unfold run_step. rewrite E. intros Q1. by split_and!.
Qed.

Lemma live_exit t w : Live w → exiting (w_pc w) = true → ev t w (λ _ w', Ended w').
Proof.
  assert (C : ∀ t w e, Live w → w_pc w = RExitClose e → ev t w (λ _ w', Ended w')).
  { clear t w. intros t w e L E. pose proof (live_run w (ins t) L ltac:(by rewrite E)) as L1.
    apply ev_run; [by rewrite E|]. revert L1. unfold run_step. rewrite E.
    destruct (sink_close (w_sink w)) as [s err]. intros L1. by apply live_return. }
  intros L X. destruct (w_pc w) as [| | | | | | | | | | | | | | | | | | |e| | | |] eqn:E; try done; [|by eapply C].
  pose proof (live_run w (ins t) L ltac:(by rewrite E)) as L1.
  apply ev_run; [by rewrite E|]. revert L1. unfold run_step. rewrite E.
  destruct (sink_flush (w_sink w)) as [s err]. intros L1. by eapply C.
Qed.

(** From the end of the fill with an empty batch and nothing left in the ring. *)
Lemma live_empty t w :
  Live w → w_pc w = RExitCheck → l_closing (w_loop w) = true → pending (w_loop w) = [] → drained w →
  ev t w (λ _ w', Ended w').
Proof.
  intros L E Cl P D. pose proof (live_run w (ins t) L ltac:(by rewrite E)) as L1.
  destruct (quiet_world w (proj1 L)) as [[_ F _ _ _] I].
  destruct (idle_got _ _ (fl_con _ _ _ _ _ _ F)) as [C _]; [by rewrite E|]. clear F.
  apply ev_run; [by rewrite E|]. revert L1. unfold run_step. rewrite E, Cl, P. cbn [andb].
  change (len [] =? 0) with true. cbn match. intros L1.
  set (w1 := goto _ w) in *. assert (E1 : w_pc w1 = REmpty (consumer (queue (w_ring w)))) by done.
  pose proof (live_run w1 (ins (Datatypes.S t)) L1 ltac:(by rewrite E1)) as L2.
  apply ev_run; [by rewrite E1|]. revert L2. unfold run_step. rewrite E1.
  change (w_ring w1) with (w_ring w).
  assert (De : depth_step (queue (w_ring w)) (DLoadProducer (consumer (queue (w_ring w)))) = DReturn 0).
  { destruct (inv_capacity k base _ I) as [Hcap Hkb]. pose proof (inv_order k base _ I) as O.
    cbn. rewrite (inv_consumer k base _ I), (inv_producer k base _ I), Hcap.
    unfold recycled, head, swapped, tail, drained in *. rewrite C in *.
    rewrite u64_sub_l, u64_sub_r. rewrite D.
    replace (_ - _) with 0 by lia. change (u64 0) with 0. destruct (0 >? _) eqn:G; [|done]. zbool. lia. }
  rewrite De. change (0 =? 0) with true. cbn match. intros L2. by apply live_exit.
Qed.
(** ** The argument *)

Definition delivers w : nat → world S → Prop :=
  λ _ w', Live w' ∧ w_pc w' = RSelect ∧ (left_over w' < left_over w)%nat.

Lemma live_decide_flush t w :
  Live w → w_pc w = RDecide → shouldFlush (f_config (w_fl w)) (i_now (ins t)) (w_loop w) = true →
  ev t w (delivers w).
Proof.
  intros L E Sf. pose proof (live_run w (ins t) L ltac:(by rewrite E)) as L1.
  apply ev_run; [by rewrite E|]. revert L1. unfold run_step. rewrite E, Sf. intros L1.
  eapply ev_bind; [by eapply live_flush; [exact L1|]|].
  intros t' w' _ X. by apply ev_now.
Qed.

Lemma live_retry t w :
  Live w → w_pc w = RDecide → retrying (w_loop w) = true → l_closing (w_loop w) = true →
  ev t w (delivers w).
Proof.
  intros L E R Cl. destruct (shouldFlush (f_config (w_fl w)) (i_now (ins t)) (w_loop w)) eqn:Sf;
    [by apply live_decide_flush|].
  destruct (quiet_world w (proj1 L)) as [[_ _ _ Ba _] _].
  destruct (bo_retry _ _ _ _ Ba R) as (_ & [Lv|[NE _]]); [by rewrite E in Lv|]. clear Ba.
  assert (PZ : len (pending (w_loop w)) =? 0 = false) by (by destruct (pending (w_loop w))).
  pose proof (live_run w (ins t) L ltac:(by rewrite E)) as L1.
  apply ev_run; [by rewrite E|]. revert L1. unfold run_step. rewrite E, Sf. intros L1.
  set (w1 := goto _ w) in *. assert (E1 : w_pc w1 = RExitCheck) by done.
  pose proof (live_run w1 (ins (1 + t)) L1 ltac:(by rewrite E1)) as L2.
  apply ev_run; [by rewrite E1|]. revert L2. unfold run_step. rewrite E1.
  change (w_loop w1) with (w_loop w). rewrite PZ, andb_false_r. intros L2.
  set (w2 := goto _ w1) in *. assert (E2 : w_pc w2 = RWait) by done.
  pose proof (live_run w2 (ins (2 + t)) L2 ltac:(by rewrite E2)) as L3.
  apply ev_run; [by rewrite E2|]. revert L3. unfold run_step. rewrite E2.
  change (w_loop w2) with (w_loop w). change (w_fl w2) with (w_fl w). intros L3.
  eapply ev_bind; [by eapply live_sleep; [exact L3|]|].
  intros t4 w4 _ (L4 & E4 & P4 & R4 & A4 & D4 & U4). specialize (U4 Cl). cbn in P4, R4, A4, D4.
  assert (W : retryAt (w_loop w) <= i_now (ins t4)).
  { unfold wait_time in U4. rewrite R in U4. destruct (_ <? 0) eqn:Z; zbool; lia. }
  pose proof (live_run w4 (ins t4) L4 ltac:(by rewrite E4)) as L5.
  apply ev_run; [by rewrite E4|]. revert L5. unfold run_step. rewrite E4.
  destruct (poll_quiet w4 (ins t4) (proj1 L4)) as (P1 & P2 & P3 & P5 & P6).
  rewrite P2, P5, R4, R. intros L5.
  assert (X : left_over w4 = left_over w) by (unfold left_over; by rewrite D4).
  unfold delivers. rewrite <- X. apply live_decide_flush; [exact L5|done|].
  unfold shouldFlush. cbn. rewrite P3, P4, P5, R4, R, P6, A4. cbn.
  pose proof (clock t4). apply andb_true_iff. split.
  - destruct (pending (w_loop w)); [done|]. apply Z.ltb_lt. cbn. lia.
  - rewrite orb_false_r. apply negb_true_iff, Z.ltb_ge. lia.
Qed.

Lemma live_filled t w :
  Live w → w_pc w = RInFlight → l_closing (w_loop w) = true → retrying (w_loop w) = false →
  (pending (w_loop w) = [] → drained w) →
  ev t w (λ t' w', delivers w t' w' ∨ Ended w').
Proof.
  intros L E Cl R D. pose proof (live_run w (ins t) L ltac:(by rewrite E)) as L1.
  apply ev_run; [by rewrite E|]. revert L1. unfold run_step. rewrite E. intros L1.
  set (w1 := goto _ _) in *. assert (E1 : w_pc w1 = RDecide) by done.
  destruct (pending (w_loop w)) as [|h l] eqn:P.
  - pose proof (live_run w1 (ins (1 + t)) L1 ltac:(by rewrite E1)) as L2.
    apply ev_run; [by rewrite E1|]. revert L2. unfold run_step. rewrite E1. unfold shouldFlush.
    change (w_loop w1) with (w_loop w). rewrite P. cbn [length andb].
    change (0 <? Z.of_nat 0) with false. cbn match. intros L2.
    eapply ev_bind; [apply (live_empty _ _ L2); [done|exact Cl|exact P|by apply D]|].
    intros t' w' _ X. apply ev_now. by right.
  - eapply ev_bind; [apply (live_decide_flush _ _ L1); [done|]|].
    + unfold shouldFlush. cbn. rewrite P, Cl, R, orb_true_r. cbn. done.
    + intros t' w' _ X. apply ev_now. by left.
Qed.

Lemma live_select n : ∀ t w,
  left_over w = n → Live w → w_pc w = RSelect → ev t w (λ _ w', Ended w').
Proof.
  induction n as [n IH] using lt_wf_ind. intros t w Hn L E.
  destruct (poll_quiet w (ins t) (proj1 L)) as (P1 & P2 & P3 & P4 & P5).
  pose proof (live_run w (ins t) L ltac:(by rewrite E)) as L1.
  apply ev_run; [by rewrite E|]. revert L1. unfold run_step. rewrite E, P2, P4.
  destruct (retrying (w_loop w)) eqn:R; intros L1.
  - eapply ev_bind; [by apply (live_retry _ _ L1)|].
    intros t' w' _ (L' & E' & Lt). eapply IH; [|reflexivity|done|done]. by rewrite <- Hn.
  - eapply ev_bind; [eapply live_fill; [reflexivity|exact L1|done]|].
    intros t2 w2 _ (L2 & E2 & (K1 & K2 & K3) & D2).
    eapply ev_bind; [apply (live_filled _ _ L2 E2)|].
    + by rewrite K1.
    + by rewrite K2.
    + done.
    + intros t3 w3 _ [(L3 & E3 & Lt)|En]; [|by apply ev_now].
      eapply IH; [|reflexivity|done|done]. revert Lt. unfold left_over in *. rewrite K3. cbn. lia.
Qed.
(** Wherever the loop stands, it comes to its start or ends. *)
Definition restarts : nat → world S → Prop := λ _ w', (Live w' ∧ w_pc w' = RSelect) ∨ Ended w'.

Lemma restarts_flush t w : Live w → w_pc w = RWrite → ev t w restarts.
Proof.
  intros L E. eapply ev_bind; [by apply live_flush|].
  intros t' w' _ (? & ? & _). apply ev_now. by left.
Qed.

Lemma restarts_wait t w : Live w → w_pc w = RWait → ev t w restarts.
Proof.
  intros L E. pose proof (live_run w (ins t) L ltac:(by rewrite E)) as L1.
  apply ev_run; [by rewrite E|]. revert L1. unfold run_step. rewrite E. intros L1.
  eapply ev_bind; [by eapply live_sleep; [exact L1|]|].
  intros t' w' _ (? & ? & _). apply ev_now. by left.
Qed.

Lemma restarts_exit t w : Live w → exiting (w_pc w) = true → ev t w restarts.
Proof.
  intros L E. eapply ev_bind; [by apply live_exit|]. intros t' w' _ X. apply ev_now. by right.
Qed.

Lemma restarts_look t w c : Live w → w_pc w = REmpty c → ev t w restarts.
Proof.
  intros L E. pose proof (live_run w (ins t) L ltac:(by rewrite E)) as L1.
  apply ev_run; [by rewrite E|]. revert L1. unfold run_step. rewrite E. cbn [depth_step].
  destruct (_ =? 0); intros L1; [by apply restarts_exit|by apply restarts_wait].
Qed.

Lemma restarts_check t w : Live w → w_pc w = RExitCheck → ev t w restarts.
Proof.
  intros L E. pose proof (live_run w (ins t) L ltac:(by rewrite E)) as L1.
  apply ev_run; [by rewrite E|]. revert L1. unfold run_step. rewrite E.
  destruct (_ && _); intros L1; [by eapply restarts_look|by apply restarts_wait].
Qed.

Lemma restarts_decide t w : Live w → w_pc w = RDecide → ev t w restarts.
Proof.
  intros L E. pose proof (live_run w (ins t) L ltac:(by rewrite E)) as L1.
  apply ev_run; [by rewrite E|]. revert L1. unfold run_step. rewrite E.
  destruct (shouldFlush _ _ _); intros L1; [by apply restarts_flush|by apply restarts_check].
Qed.

Lemma restarts_inflight t w : Live w → w_pc w = RInFlight → ev t w restarts.
Proof.
  intros L E. pose proof (live_run w (ins t) L ltac:(by rewrite E)) as L1.
  apply ev_run; [by rewrite E|]. revert L1. unfold run_step. rewrite E. intros L1.
  by apply restarts_decide.
Qed.

Lemma restarts_fill t w : Live w → w_pc w = RFill → ev t w restarts.
Proof.
  intros L E. eapply ev_bind; [by eapply live_fill; [reflexivity|..]|].
  intros t' w' _ (? & ? & _). by apply restarts_inflight.
Qed.

Lemma restarts_mark t w h : Live w → w_pc w = RFillMark h → ev t w restarts.
Proof.
  intros L E. destruct (live_mark t w h L E) as (L1 & E1 & _).
  apply ev_run; [by rewrite E|]. by apply restarts_fill.
Qed.

Lemma restarts_delivered t w sum : Live w → w_pc w = RDelivered sum → ev t w restarts.
Proof.
  intros L E. pose proof (live_run w (ins t) L ltac:(by rewrite E)) as L1.
  apply ev_run; [by rewrite E|]. revert L1. unfold run_step. rewrite E. intros L1.
  apply ev_now. by left.
Qed.

Lemma restarts_any t w : Live w → ended (w_pc w) = false → ev t w restarts.
Proof.
  intros L Nd. destruct (quiet_world w (proj1 L)) as [[_ F _ _ _] _].
  pose proof (quiet_aborting w (proj1 L)) as A.
  destruct (fl_lined _ _ _ _ _ _ F) as (s & f & q & _ & _ & _ & _ & _ & St). clear F.
  destruct (w_pc w) as [|todo| | |h|h| | | |h|h| | | |todo sum|sum| |c| |err| |until| |] eqn:E;
    try done; cbn in St; try (exfalso; naive_solver congruence).
  - apply ev_now. by left.
  - by apply restarts_fill.
  - eapply ev_bind; [by eapply live_consume|].
    intros t' w' _ (L' & _ & _ & _ & [[h E']|[E' _]]); [by eapply restarts_mark|by apply restarts_inflight].
  - by eapply restarts_mark.
  - by apply restarts_inflight.
  - by apply restarts_decide.
  - by apply restarts_flush.
  - eapply ev_bind; [by eapply live_release|].
    intros t' w' _ (L' & [sum' E'] & _). by eapply restarts_delivered.
  - by eapply restarts_delivered.
  - by apply restarts_check.
  - by eapply restarts_look.
  - apply restarts_exit; [done|by rewrite E].
  - apply restarts_exit; [done|by rewrite E].
  - by apply restarts_wait.
  - eapply ev_bind; [by eapply live_sleep|]. intros t' w' _ (? & ? & _). apply ev_now. by left.
Qed.

Lemma live_ends t w : Live w → ended (w_pc w) = false → ev t w (λ _ w', Ended w').
Proof.
  intros L Nd. eapply ev_bind; [by apply restarts_any|].
  intros t' w' _ [[L' E]|En]; [by eapply live_select|by apply ev_now].
Qed.
End Live.

(** C8. [Close] completes and delivers everything.  Take any reachable moment at
    which [Close] has signalled the loop, no abort has been asked for, the loop has
    not yet looked at the ring for the last time and no publisher is in a call.  With
    a sink that accepts every batch and a clock that advances, the loop running alone
    ends after finitely many steps; [done] is closed, and the batches delivered,
    concatenated, are exactly the admitted events in their order, with the bytes that
    were published, every lease back in the pool. *)
Theorem close_completes {S} `{BatchSink S} (k base : Z) (w : world S) (ins : nat → input) :
  0 <= base < 2 ^ 64 → 1 <= k <= 30 → sys_reach k base w → bounded (w_ring w) →
  running (w_fl w) = true → stop (w_fl w) = true → abort (w_fl w) = false →
  producers (w_ring w) = ∅ → left_at (w_ghost w) = None →
  (∀ (s : S) b, (sink_write false b s).2 = None) →
  (∀ n, i_now (ins n) <= i_now (ins (Datatypes.S n))) → (∀ T, ∃ n, T <= i_now (ins n)) →
  ∃ n, let w' := turns ins 0 n w in
    w_pc w' = RDone ∧ done_ (w_fl w') = true ∧
    concat (delivered (w_ghost w')) = reserved (w_ring w) ∧
    concat (output (w_ghost w')) = published_bytes (w_ghost w') (reserved (w_ring w)) ∧
    Forall (in_state (w_pool w') StateReturned) (reserved (w_ring w)).
Proof.
  intros Hb Hk R B Ru St Ab P L Acc Ck Adv.
  assert (Q : Quiet k base (reserved (w_ring w)) w) by (constructor; try done; by rewrite L).
  assert (Nd : ended (w_pc w) = false).
  { destruct (ended (w_pc w)) eqn:E; [exfalso|done]. destruct (quiet_world k base Hb Hk _ w Q) as [W _].
    destruct (ex_end _ (wo_exit _ W) E) as [A|[x X]]; [|congruence].
    by rewrite (quiet_aborting k base Hb Hk _ w Q) in A. }
  destruct (live_ends k base Hb Hk Acc ins Ck Adv (reserved (w_ring w)) 0 w (conj Q Ru) Nd)
    as (n & Q' & E' & D'). exists n. cbn in *. set (w' := turns ins 0 n w) in *.
  destruct (quiet_world k base Hb Hk _ w' Q') as [[_ F _ _ X] _].
  pose proof (quiet_aborting k base Hb Hk _ w' Q') as A.
  destruct F as [_ _ _ _ _ O _ (s & f & q & Er & _ & F1 & _ & _ & Sg)]. rewrite E' in Sg.
  destruct Sg as (-> & _ & -> & [|Gn]); [congruence|]. rewrite Gn, app_nil_r in *. cbn in Er.
  destruct (ex_end _ X) as [|[[m rc] Lf]]; [by rewrite E'|congruence|].
  destruct (ex_left _ X m rc Lf) as (_ & _ & _ & Hm & Rc).
  destruct (Rc (qu_left _ _ _ _ Q' m rc Lf)) as [_ Len].
  assert (Ed : concat (delivered (w_ghost w')) = reserved (w_ring w)).
  { rewrite <- (qu_admitted _ _ _ _ Q'), Er in *. rewrite length_app in Len.
    destruct q; [by rewrite app_nil_r|cbn in Len; lia]. }
  split_and!; try done; [|by rewrite <- Ed].
  rewrite O, <- Ed. unfold published_bytes. by rewrite concat_map.
Qed.

(** ** An instance *)

(** A sink that takes every batch. *)
Record steady_sink := mkSteady { taken_in : list (list (list byte)) }.

#[export] Instance steady_sink_ops : BatchSink steady_sink := {
  sink_write cancelled b s := (mkSteady (taken_in s ++ [b]), None);
  sink_flush s := (s, None);
  sink_close s := (s, None)
}.

Definition steady_world : world steady_sink :=
  mkWorld test_ring ∅ example_pool test_flusher (new_loop test_config) RSelect (mkSteady [])
    (mkGhost [] [] [] [] ∅ None).

Definition signalled : list event :=
  [EStart] ++ log_events 1 0 [x01; x02] ++ [EReturn 1; ECloseQueue; ECloseMark; ECloseStop].

Definition signalled_world : world steady_sink := Eval vm_compute in default steady_world (do_events signalled steady_world).

Lemma signalled_reach : sys_reach 2 (2 ^ 64 - 2) signalled_world.
Proof.
  apply (do_events_reach _ _ signalled steady_world); [|vm_compute; reflexivity].
  apply reach_init. split_and!; try done.
  - apply start_state_start. vm_compute. reflexivity.
  - exists example_config. apply example_New.
  - by exists test_config.
Qed.

Lemma close_completes_witness :
  ∃ n, let w' := turns (λ n, mkInput (Z.of_nat n) 1 false) 0 n signalled_world in
    w_pc w' = RDone ∧ concat (delivered (w_ghost w')) = [0%nat].
Proof.
  destruct (close_completes 2 (2 ^ 64 - 2) signalled_world (λ n, mkInput (Z.of_nat n) 1 false))
    as (n & E & _ & D & _);
    [lia|lia|apply signalled_reach|vm_compute; reflexivity|reflexivity|reflexivity|reflexivity
    |reflexivity|reflexivity|reflexivity|cbn; lia|intros T; exists (Z.to_nat T); cbn; lia|].
  exists n. split; [exact E|exact D].
Defined.
