(* ===== verification/Appender.v ===== *)
(** * The appender (pkg/minilogback: types.go, appender.go, lease.go, logger.go)

    The public API: levels and results, the configuration, publishing a lease,
    logging an event, the borrower's handle [Lease], statistics and [Close].  An
    [Appender] holds the ring, the pool and the flusher's fields of the components
    below.  Each operation is one step; a call of [TryPublish] inside it runs alone
    (its interleavings are in RingConc.v and Flusher.v). *)

From stdpp Require Import gmap strings list fin_maps.
From Stdlib Require Import ZArith Lia.
From Stdlib.Strings Require Import Byte.
From S2P Require Import Prelude GoLib Ring Pool PoolInv Flusher.

(** ** Levels and results (types.go) *)

Definition DebugLevel : Z := 0.
Definition InfoLevel : Z := 1.
Definition WarnLevel : Z := 2.
Definition ErrorLevel : Z := 3.

(** A [Level] is a uint8. *)
Definition Level_valid (l : Z) : bool := l <=? ErrorLevel.

Definition Level_String (l : Z) : string :=
  if l =? DebugLevel then "DEBUG" else if l =? InfoLevel then "INFO"
  else if l =? WarnLevel then "WARN" else if l =? ErrorLevel then "ERROR" else "UNKNOWN".

Inductive PublishResult := Accepted | QueueFull | Closed | Oversized | InvalidLease | Filtered.

#[export] Instance PublishResult_eq_dec : EqDecision PublishResult.
Proof. solve_decision. Defined.

Definition PublishResult_text (r : PublishResult) : string :=
  match r with
  | Accepted => "accepted" | QueueFull => "queue_full" | Closed => "closed"
  | Oversized => "oversized" | InvalidLease => "invalid_lease" | Filtered => "filtered"
  end.

Definition ErrLeaseTransferred : error := ErrNew "lease ownership was transferred to the appender".
Definition ErrInvalidLease : error := ErrNew "invalid or foreign lease".
Definition ErrAppenderClosed : error := ErrNew "appender is closed".

(** ** Configuration *)

Definition defaultRingCapacity : Z := 2 ^ 16.
Definition defaultMaxEvent : Z := 2 ^ 20.

(** The sink itself is left to the flusher's model: [Sink] says whether one is
    set. *)
Record Config := mkConfig {
  Name : string; MinLevel : Z; RingCapacity : Z; BatchSize : Z; FlushInterval : Z;
  PollInterval : Z; RetryBackoff : Z; MaxRetryBackoff : Z; MaxEventBytes : Z;
  PoolClasses : list Z; c_AuditMode : AuditMode; AuditSampleEvery : Z; LeaseTimeout : Z;
  AuditScanInterval : Z; AuditHistoryLimit : Z; AuditStackDepth : Z; ProjectRoot : string;
  Sink : bool
}.

#[export] Instance Config_fields : Fields Config := λ r,
  mkConfig (Name r) (MinLevel r) (RingCapacity r) (BatchSize r) (FlushInterval r) (PollInterval r)
    (RetryBackoff r) (MaxRetryBackoff r) (MaxEventBytes r) (PoolClasses r) (c_AuditMode r)
    (AuditSampleEvery r) (LeaseTimeout r) (AuditScanInterval r) (AuditHistoryLimit r)
    (AuditStackDepth r) (ProjectRoot r) (Sink r).

(** The default classes that fit an event. *)
Definition default_classes (maxEvent : Z) : list Z :=
  match base.filter (λ size, size <= maxEvent) DefaultClasses with
  | [] => [maxEvent]
  | l => l
  end.

Definition normalized (c : Config) : result Config :=
  let c := c <| Name ::= λ n, if decide (n = "") then "root" else n |> in
  _ ← guard_err (negb (Level_valid (MinLevel c))) (ErrNew "invalid minimum log level %d");
  let c := c <| RingCapacity ::= default_if_zero defaultRingCapacity |>
             <| MaxEventBytes ::= default_if_zero defaultMaxEvent |> in
  _ ← guard_err (MaxEventBytes c <? 1) (ErrNew "max event bytes must be positive");
  let c := c <| PoolClasses ::= λ l, match l with [] => default_classes (MaxEventBytes c) | _ => l end |>
             <| c_AuditMode ::= λ m, if decide (m = AuditUnset) then AuditOff else m |> in
  _ ← guard_err (negb (AuditMode_valid (c_AuditMode c))) (ErrNew "invalid audit mode %q");
  Ok c.

(** [Option] values; a nil option is skipped. *)
Definition Option : Type := Config → result Config.

Definition WithSink (batchSink_nil : bool) : Option := λ c,
  if batchSink_nil then Err (ErrNew "sink must not be nil") else Ok (c <| Sink := true |>).

Definition WithName (name : string) : Option := λ c,
  if decide (name = "") then Err (ErrNew "logger name must not be empty") else Ok (c <| Name := name |>).

Fixpoint apply_options (options : list (option Option)) (c : Config) : result Config :=
  match options with
  | [] => Ok c
  | None :: options => apply_options options c
  | Some o :: options => c ← o c; apply_options options c
  end.

(** ** State *)

Record levelCounters := mkLevel { lv_attempts : Z; lv_accepted : Z; lv_dropped : Z }.

#[export] Instance levelCounters_fields : Fields levelCounters := λ r,
  mkLevel (lv_attempts r) (lv_accepted r) (lv_dropped r).

(** [Lease] (lease.go): the borrower's handle on lease [inner] of the pool. *)
Record Lease := mkHandle {
  inner : nat; lh_id : Z; logger : string; transferred : bool; released : bool
}.

#[export] Instance Lease_fields : Fields Lease := λ r,
  mkHandle (inner r) (lh_id r) (logger r) (transferred r) (released r).

(** The handles given out are numbered; [closeStarted] is [closeOnce], [closeDone]
    the channel. *)
Record Appender := mkAppender {
  a_config : Config; a_queue : Queue nat; a_pool : BytePool; a_flusher : Flusher;
  a_closed : bool; a_sequence : Z;
  publishAttempts : Z; accepted : Z; rejectedFull : Z; rejectedClosed : Z;
  rejectedOversized : Z; rejectedInvalid : Z; filtered : Z; levels : list levelCounters;
  closeStarted : bool; closeDone : bool; closeErr : option error; handles : list Lease
}.

#[export] Instance Appender_fields : Fields Appender := λ r,
  mkAppender (a_config r) (a_queue r) (a_pool r) (a_flusher r) (a_closed r) (a_sequence r)
    (publishAttempts r) (accepted r) (rejectedFull r) (rejectedClosed r) (rejectedOversized r)
    (rejectedInvalid r) (filtered r) (levels r) (closeStarted r) (closeDone r) (closeErr r) (handles r).

(** The configurations [New] hands on. *)
Definition pool_config (c : Config) : Pool.Config :=
  Pool.mkConfig (PoolClasses c) (MaxEventBytes c) (c_AuditMode c) (AuditSampleEvery c) (LeaseTimeout c)
    (AuditScanInterval c) (AuditHistoryLimit c) (AuditStackDepth c) (ProjectRoot c).

Definition flusher_config (c : Config) : Flusher.Config :=
  Flusher.mkConfig (BatchSize c) (FlushInterval c) (PollInterval c) (RetryBackoff c) (MaxRetryBackoff c).

Definition New (c : Config) (options : list (option Option)) : result Appender :=
  c ← apply_options options c;
  let c := c <| Sink := true |> in
  c ← normalized c;
  queue ← Ring.New (RingCapacity c);
  bytePool ← Pool.New (pool_config c);
  batcher ← Flusher.New false false false (flusher_config c);
  Ok (mkAppender c queue bytePool (Flusher.Start batcher) false 0 0 0 0 0 0 0 0
        (replicate 4 (mkLevel 0 0 0)) false false None []).

(** ** Publishing *)

Definition on_level (level : Z) (f : levelCounters → levelCounters) (a : Appender) : Appender :=
  a <| levels ::= alter f (Z.to_nat level) |>.

(** [a.publishAttempts.Add(1)], with [a.levels[level].attempts.Add(1)]. *)
Definition attempt (a : Appender) : Appender := a <| publishAttempts ::= inc |>.
Definition attempt_at (level : Z) (a : Appender) : Appender :=
  on_level level (λ l, l <| lv_attempts ::= inc |>) (attempt a).

Definition drop_at (level : Z) (a : Appender) : Appender := on_level level (λ l, l <| lv_dropped ::= inc |>) a.

(** A rejection: its counter, the level's [dropped], the result. *)
Definition reject (level : Z) (r : PublishResult) (a : Appender) : Appender * PublishResult :=
  let a := match r with
           | QueueFull => a <| rejectedFull ::= inc |>
           | Closed => a <| rejectedClosed ::= inc |>
           | Oversized => a <| rejectedOversized ::= inc |>
           | _ => a <| rejectedInvalid ::= inc |>
           end in
  (drop_at level a, r).

(** Pool calls on the appender's pool. *)
Definition pool_call (op : pool_op) (a : Appender) : Appender * option error :=
  let '(p, err) := pool_do op (a_pool a) in (a <| a_pool := p |>, err).

Definition on_handle (n : nat) (f : Lease → Lease) (a : Appender) : Appender := a <| handles ::= alter f n |>.

(** [lease.inner.ID()], [lease.Len()]. *)
Definition inner_ID (a : Appender) (h : nat) : Z :=
  match leases (a_pool a) !! h with Some l => l_id l | None => 0 end.
Definition inner_Len (a : Appender) (h : nat) : Z :=
  match leases (a_pool a) !! h with Some l => Pool.Lease_Len l | None => 0 end.

(** The guard of [TryPublishLease]; [None] is nil or another appender's lease. *)
Definition publishable (level : Z) (lease : option nat) (a : Appender) : option (nat * Lease) :=
  match lease with
  | None => None
  | Some n =>
      match handles a !! n with
      | None => None
      | Some l =>
          if negb (Level_valid level) || negb (lh_id l =? inner_ID a (inner l)) || released l
             || transferred l || (inner_Len a (inner l) <=? 0)
          then None else Some (n, l)
      end
  end.

(** From [MarkQueued] on. *)
Definition publish_queued (level : Z) (n : nat) (l : Lease) (a : Appender) : Appender * PublishResult :=
  let '(q, r) := Ring.TryPublish (a_queue a) (Some (inner l)) in
  let a := a <| a_queue := q |> in
  match r with
  | PublishAccepted =>
      (on_level level (λ c, c <| lv_accepted ::= inc |>)
         (on_handle n (λ l, l <| transferred := true |>) a <| accepted ::= inc |>), Accepted)
  | PublishFull => reject level QueueFull (pool_call (DoRollbackQueued (inner l)) a).1
  | PublishClosed => reject level Closed (pool_call (DoRollbackQueued (inner l)) a).1
  | PublishInvalid => reject level InvalidLease (pool_call (DoRollbackQueued (inner l)) a).1
  end.

Definition TryPublishLease (level : Z) (lease : option nat) (a : Appender) : Appender * PublishResult :=
  match publishable level lease a with
  | None => (attempt a <| rejectedInvalid ::= inc |>, InvalidLease)
  | Some (n, l) =>
      if level <? MinLevel (a_config a) then (a <| filtered ::= inc |>, Filtered)
      else
        let a := attempt_at level a in
        if a_closed a then reject level Closed a
        else if MaxEventBytes (a_config a) <? inner_Len a (inner l) then reject level Oversized a
        else
          match pool_call (DoSetAuditContext (inner l) (mkAuditContext (Level_String level) (logger l) 0)) a with
          | (a, Some _) => reject level InvalidLease a
          | (a, None) =>
              match pool_call (DoMarkQueued (inner l)) a with
              | (a, Some _) => reject level InvalidLease a
              | (a, None) => publish_queued level n l a
              end
          end
  end.

(** ** The borrower's handle (lease.go) *)

Definition acquire (capacity : Z) (level : option Z) (e : env) (a : Appender) : Appender * result nat :=
  if a_closed a then (a, Err ErrAppenderClosed)
  else
    let context := mkAuditContext (match level with Some l => Level_String l | None => "" end)
                     (Name (a_config a)) 2 in
    match Pool.AcquireContext capacity context e (a_pool a) with
    | (p, Err err) => (a <| a_pool := p |>, Err err)
    | (p, Ok h) =>
        let a := a <| a_pool := p |> in
        (a <| handles ::= λ l, l ++ [mkHandle h (inner_ID a h) (Name (a_config a)) false false] |>,
         Ok (length (handles a)))
    end.

Definition Acquire (capacity : Z) : env → Appender → Appender * result nat := acquire capacity None.

Definition AcquireFor (level capacity : Z) (e : env) (a : Appender) : Appender * result nat :=
  if negb (Level_valid level) then (a, Err ErrInvalidLease) else acquire capacity (Some level) e a.

(** [l == nil || l.transferred.Load() || l.released.Load()] *)
Definition usable (lease : option nat) (a : Appender) : option (nat * Lease) :=
  match lease with
  | None => None
  | Some n =>
      match handles a !! n with
      | Some l => if transferred l || released l then None else Some (n, l)
      | None => None
      end
  end.

Definition Lease_ID (lease : option nat) (a : Appender) : Z :=
  match lease with Some n => match handles a !! n with Some l => lh_id l | None => 0 end | None => 0 end.

Definition Lease_Len (lease : option nat) (a : Appender) : Z :=
  match lease with Some n => match handles a !! n with Some l => inner_Len a (inner l) | None => 0 end | None => 0 end.

Definition Lease_Write (lease : option nat) (data : list byte) (a : Appender) : Appender * Z * option error :=
  match usable lease a with
  | None => (a, 0, Some ErrInvalidLease)
  | Some (_, l) => let '(p, n, err) := Pool.Write (inner l) data (a_pool a) in (a <| a_pool := p |>, n, err)
  end.

Definition Lease_SetBytes (lease : option nat) (data : list byte) (a : Appender) : Appender * option error :=
  match usable lease a with
  | None => (a, Some ErrInvalidLease)
  | Some (_, l) => pool_call (DoSetBytes (inner l) data) a
  end.

Definition Lease_Buffer (lease : option nat) (a : Appender) : result (list byte) :=
  match usable lease a with
  | None => Err ErrInvalidLease
  | Some (_, l) => Pool.Writable (inner l) (a_pool a)
  end.

Definition Lease_Commit (lease : option nat) (n : Z) (a : Appender) : Appender * option error :=
  match usable lease a with
  | None => (a, Some ErrInvalidLease)
  | Some (_, l) => pool_call (DoResize (inner l) n) a
  end.

Definition Lease_SetAuditContext (lease : option nat) (level : Z) (name : string) (a : Appender)
  : Appender * option error :=
  match usable lease a with
  | None => (a, Some ErrInvalidLease)
  | Some (n, l) =>
      if negb (Level_valid level) then (a, Some ErrInvalidLease)
      else
        let l := if decide (name = "") then l else l <| logger := name |> in
        pool_call (DoSetAuditContext (inner l) (mkAuditContext (Level_String level) (logger l) 0))
          (on_handle n (λ _, l) a)
  end.

Definition Lease_Release (lease : option nat) (now : Z) (a : Appender) : Appender * option error :=
  match lease with
  | None => (a, Some ErrInvalidLease)
  | Some n =>
      match handles a !! n with
      | None => (a, Some ErrInvalidLease)
      | Some l =>
          if negb (lh_id l =? inner_ID a (inner l)) then (a, Some ErrInvalidLease)
          else if transferred l then (a, Some ErrLeaseTransferred)
          else if released l then (a, Some ErrDoubleReturn)
          else pool_call (DoRelease (Some (inner l)) now) (on_handle n (λ l, l <| released := true |>) a)
      end
  end.

(** ** Logging *)

(** The caller's record and the event; [F] is the type of [Field] values and
    [marshal] is [json.Marshal] on the event. *)
Record callerRecord := mkCaller { cr_Function : string; cr_File : string; cr_Line : Z }.

Section Log.
Context {F : Type}.

Record eventRecord := mkEvent {
  Sequence : Z; Timestamp : string; TimestampUnixNano : Z; ev_Level : string; ev_Logger : string;
  Message : string; Caller : option callerRecord; ev_Fields : list F
}.

Context (marshal : eventRecord → result (list byte)).

(** What a call of [log] sees of its surroundings: the time and its text, the
    caller, the environment of the pool. *)
Record call_site := mkSite {
  s_now : Z; s_stamp : string; s_caller : option callerRecord; s_env : env
}.

(** The event [log] encodes. *)
Definition make_event (name : string) (level : Z) (message : string) (fields : list F)
  (s : call_site) (sequence : Z) : eventRecord :=
  mkEvent sequence (s_stamp s) (s_now s) (Level_String level) name message (s_caller s) fields.

(** The answer to a failed [AcquireContext]. *)
Definition acquire_failed (level : Z) (err : error) (a : Appender) : Appender * PublishResult :=
  let a := attempt_at level a in
  if errors_Is err "requested byte lease exceeds maximum" then reject level Oversized a
  else if errors_Is err "byte pool is closed" then reject level Closed a
  else reject level InvalidLease a.

(** From the encoded event on. *)
Definition log_encoded (name : string) (level : Z) (encoded : list byte) (s : call_site) (a : Appender)
  : Appender * PublishResult :=
  if MaxEventBytes (a_config a) <? len encoded then reject level Oversized (attempt_at level a)
  else
    match Pool.AcquireContext (len encoded) (mkAuditContext (Level_String level) name 2) (s_env s) (a_pool a) with
    | (p, Err err) => acquire_failed level err (a <| a_pool := p |>)
    | (p, Ok h) =>
        match pool_call (DoSetBytes h encoded) (a <| a_pool := p |>) with
        | (a, Some _) =>
            reject level InvalidLease (attempt_at level (pool_call (DoRelease (Some h) (s_now s)) a).1)
        | (a, None) =>
            let n := length (handles a) in
            let a := a <| handles ::= λ l, l ++ [mkHandle h (inner_ID a h) name false false] |> in
            let '(a, r) := TryPublishLease level (Some n) a in
            if decide (r = Accepted) then (a, r) else ((Lease_Release (Some n) (s_now s) a).1, r)
        end
    end.

Definition log (name : string) (level : Z) (message : string) (fields : list F) (s : call_site)
  (a : Appender) : Appender * PublishResult :=
  if negb (Level_valid level) then (attempt a <| rejectedInvalid ::= inc |>, InvalidLease)
  else if level <? MinLevel (a_config a) then (a <| filtered ::= inc |>, Filtered)
  else if a_closed a then reject level Closed (attempt_at level a)
  else
    let a := a <| a_sequence ::= inc |> in
    match marshal (make_event name level message fields s (a_sequence a)) with
    | Err _ => reject level InvalidLease (attempt_at level a)
    | Ok encoded => log_encoded name level (encoded ++ [x0a]) s a
    end.

(** The level methods of [Appender] and [Logger]. *)
Definition Appender_Log (level : Z) (message : string) (fields : list F) (s : call_site) (a : Appender) :=
  log (Name (a_config a)) level message fields s a.
Definition Named (name : string) (a : Appender) : string :=
  if decide (name = "") then Name (a_config a) else name.

(** [LogWriter.Write]; the text is the data as a string. *)
Definition trim_newline (data : list byte) : list byte :=
  match last data with Some x0a => take (length data - 1) data | _ => data end.

Definition LogWriter_Write (level : Z) (data : list byte) (s : call_site) (a : Appender)
  : Appender * Z * option error :=
  let '(a, r) := Appender_Log level (Stdlib.Strings.String.string_of_list_byte (trim_newline data)) [] s a in
  if decide (r = Accepted ∨ r = Filtered) then (a, len data, None)
  else (a, 0, Some (ErrNew ("minilogback publish: " +:+ PublishResult_text r))).
End Log.

(** ** Statistics *)

Record LevelStats := mkLevelStats { Attempts : Z; ls_Accepted : Z; Dropped : Z }.

Record Stats := mkStats {
  State : string; PublishAttempts : Z; st_Accepted : Z; RejectedFull : Z; RejectedClosed : Z;
  RejectedOversized : Z; RejectedInvalid : Z; st_Filtered : Z; ByLevel : list (string * LevelStats);
  st_Ring : Ring.Stats; st_Pool : Pool.Stats; st_Flusher : Flusher.Stats; st_Closed : bool
}.

Definition by_level (a : Appender) : list (string * LevelStats) :=
  map (λ level, (Level_String level,
         match levels a !! Z.to_nat level with
         | Some c => mkLevelStats (lv_attempts c) (lv_accepted c) (lv_dropped c)
         | None => mkLevelStats 0 0 0
         end)) [DebugLevel; InfoLevel; WarnLevel; ErrorLevel].

Definition Appender_Stats (a : Appender) : Stats :=
  let fs := Flusher_Stats (a_flusher a) in
  mkStats (if Flusher.Closed fs then "CLOSED" else if a_closed a then "CLOSING" else "OPEN")
    (publishAttempts a) (accepted a) (rejectedFull a) (rejectedClosed a) (rejectedOversized a)
    (rejectedInvalid a) (filtered a) (by_level a) (QueueStats (a_queue a)) (Pool_Stats (a_pool a)) fs
    (Flusher.Closed fs).

(** ** Close *)

(** The first call closes the appender and starts the goroutine. *)
Definition close_begin (a : Appender) : Appender :=
  if closeStarted a then a else a <| closeStarted := true |> <| a_closed := true |>.

(** The goroutine after [flusher.Close] returned [err]. *)
Definition close_end (err : option error) (a : Appender) : Appender :=
  a <| a_pool ::= Pool.Close |> <| closeErr := err |> <| closeDone := true |>.

(** What [Close] returns, if it returns: the goroutine's error when it is done,
    a timeout when only the context is. *)
Definition close_answer (ctx_done : option error) (a : Appender) : option close_result :=
  if closeDone a then Some (CloseDone (closeErr a))
  else match ctx_done with
       | Some cause =>
           Some (CloseTimeout (mkCloseTimeout (QueueDepth (a_queue a)) (Flusher.inFlight (a_flusher a)) cause))
       | None => None
       end.
