(* ===== verification/AppenderSafety.v ===== *)
(** * What the appender guarantees

    The counters balance, a handle and its lease agree, publishing transfers
    ownership exactly when it is accepted, and logging leaks no lease. *)

From stdpp Require Import gmap strings list fin_maps.
From Stdlib Require Import ZArith Lia.
From Stdlib.Strings Require Import Byte.
From S2P Require Import Prelude GoLib Ring Pool PoolInv PoolSafety Flusher FlushInv Appender.

(** ** The counters *)

(** What the counters of an appender are. *)
Definition counters (a : Appender) :=
  (publishAttempts a, accepted a, rejectedFull a, rejectedClosed a, rejectedOversized a,
   rejectedInvalid a, levels a).

Definition rejections (a : Appender) : Z :=
  rejectedFull a + rejectedClosed a + rejectedOversized a + rejectedInvalid a.

Definition sum_levels (f : levelCounters → Z) (l : list levelCounters) : Z := foldr (λ c s, f c + s) 0 l.

#[global] Arguments sum_levels : simpl never.

(** Attempts are acceptances and rejections, for every level attempts are
    acceptances and drops; all modulo 2^64. *)
Record balanced (a : Appender) : Prop := {
  ba_attempts : u64 (publishAttempts a) = u64 (accepted a + rejections a);
  ba_levels : Forall (λ c, u64 (lv_attempts c) = u64 (lv_accepted c + lv_dropped c)) (levels a);
  ba_accepted : u64 (accepted a) = u64 (sum_levels lv_accepted (levels a));
  ba_four : length (levels a) = 4%nat
}.

Lemma balanced_same a a' : counters a' = counters a → balanced a → balanced a'.
Proof.
  unfold counters. intros E [A B C D]. injection E as E1 E2 E3 E4 E5 E6 E7.
  constructor; unfold rejections in *; rewrite ?E1, ?E2, ?E3, ?E4, ?E5, ?E6, ?E7; done.
Qed.

Lemma u64_inc_eq x y : u64 x = u64 y → u64 (inc x) = u64 (inc y).
Proof. unfold inc. rewrite !u64_idem. intros E. by rewrite <- u64_add_l, E, u64_add_l. Qed.

Lemma u64_inc z : u64 (inc z) = u64 (z + 1).
Proof. unfold inc. by rewrite u64_idem. Qed.

(** A counter of a sum goes up by one. *)
Lemma u64_inc_l x y : u64 (inc x + y) = u64 (x + y + 1).
Proof. unfold inc. rewrite u64_add_l. f_equal. lia. Qed.

Lemma sum_levels_alter f (g : levelCounters → levelCounters) i l c :
  l !! i = Some c → sum_levels f (alter g i l) = sum_levels f l - f c + f (g c).
Proof.
  unfold sum_levels. revert i.
  induction l as [|c' l IH]; intros [|i] E; cbn in *; try done; [injection E as ->; lia|].
  specialize (IH i E). lia.
Qed.

(** An attempt that ends in a rejection, with or without a level. *)
Lemma balanced_invalid a : balanced a → balanced (attempt a <| rejectedInvalid ::= inc |>).
Proof.
  intros [A B C D]. constructor; cbn; try done. unfold rejections in *. cbn.
  rewrite u64_inc. rewrite <- u64_add_l, A, u64_add_l.
  replace (accepted a + (rejectedFull a + rejectedClosed a + rejectedOversized a + inc (rejectedInvalid a)))
    with (inc (rejectedInvalid a) + (accepted a + (rejectedFull a + rejectedClosed a + rejectedOversized a))) by lia.
  rewrite u64_inc_l. f_equal. lia.
Qed.

Lemma level_lookup a level : balanced a → 0 <= level → Level_valid level = true →
  ∃ c, levels a !! Z.to_nat level = Some c ∧ u64 (lv_attempts c) = u64 (lv_accepted c + lv_dropped c).
Proof.
  intros [_ B _ D] H0 V. unfold Level_valid, ErrorLevel in V. zbool.
  destruct (levels a !! Z.to_nat level) as [c|] eqn:E.
  - exists c. split; [done|]. exact (proj1 (Forall_lookup _ _) B _ _ E).
  - apply lookup_ge_None in E. lia.
Qed.

Lemma Forall_alter {A} (P : A → Prop) (f : A → A) i l c :
  Forall P l → l !! i = Some c → P (f c) → Forall P (alter f i l).
Proof.
  intros F E Hf. rewrite (alter_insert' _ _ _ c E). by apply Forall_insert.
Qed.

Lemma balanced_reject a level r :
  balanced a → 0 <= level → Level_valid level = true → r ≠ Accepted → r ≠ Filtered →
  balanced (reject level r (attempt_at level a)).1.
Proof.
  intros Ba H0 V N1 N2. destruct (level_lookup a level Ba H0 V) as (c & E & Ec).
  destruct Ba as [A B C D].
  assert (L : ∀ a', levels a' = alter (λ l, l <| lv_attempts ::= inc |>) (Z.to_nat level) (levels a) →
    Forall (λ c, u64 (lv_attempts c) = u64 (lv_accepted c + lv_dropped c)) (levels (drop_at level a')) ∧
    sum_levels lv_accepted (levels (drop_at level a')) = sum_levels lv_accepted (levels a) ∧
    length (levels (drop_at level a')) = 4%nat).
  { intros a' El. unfold drop_at, on_level. cbn. rewrite El, list_alter_compose', length_alter.
    split_and!; [|by rewrite (sum_levels_alter _ _ _ _ c E); cbn; lia|done].
    eapply Forall_alter; [done|done|]. cbn. rewrite u64_inc, <- u64_add_l, Ec, u64_add_l.
    replace (lv_accepted c + inc (lv_dropped c)) with (inc (lv_dropped c) + lv_accepted c) by lia.
    rewrite u64_inc_l. f_equal. lia. }
  destruct r; try done; cbn [reject fst];
    match goal with |- balanced (drop_at level ?x) => destruct (L x eq_refl) as (L1 & L2 & L3) end;
    (constructor; [|exact L1|by rewrite L2|exact L3]); unfold rejections in *; cbn;
    rewrite u64_inc, <- u64_add_l, A, u64_add_l.
  all: match goal with |- _ = u64 (?x + (?b + inc ?y)) => replace (x + (b + inc y)) with (inc y + (x + b)) by lia
       | |- _ = u64 (?x + (?b + inc ?y + ?d)) => replace (x + (b + inc y + d)) with (inc y + (x + b + d)) by lia
       | |- _ = u64 (?x + (?b + inc ?y + ?d + ?e)) =>
           replace (x + (b + inc y + d + e)) with (inc y + (x + b + d + e)) by lia
       | |- _ = u64 (?x + (inc ?y + ?b + ?d + ?e)) =>
           replace (x + (inc y + b + d + e)) with (inc y + (x + b + d + e)) by lia end;
       rewrite u64_inc_l; f_equal; lia.
Qed.

Definition accept (level : Z) (a : Appender) : Appender :=
  on_level level (λ c, c <| lv_accepted ::= inc |>) (a <| accepted ::= inc |>).

Lemma balanced_accept a level :
  balanced a → 0 <= level → Level_valid level = true → balanced (accept level (attempt_at level a)).
Proof.
  intros Ba H0 V. destruct (level_lookup a level Ba H0 V) as (c & E & Ec). destruct Ba as [A B C D].
  constructor; unfold accept, attempt_at, on_level, attempt, rejections in *; cbn;
    rewrite ?list_alter_compose', ?length_alter; try done.
  - rewrite u64_inc, <- u64_add_l, A, u64_add_l, u64_inc_l; f_equal; lia.
  - eapply Forall_alter; [done|done|]. cbn. rewrite u64_inc, <- u64_add_l, Ec, u64_add_l, u64_inc_l;
    f_equal; lia.
  - rewrite (sum_levels_alter _ _ _ _ c E). cbn.
    replace (sum_levels lv_accepted (levels a) - lv_accepted c + inc (lv_accepted c))
      with (inc (lv_accepted c) + (sum_levels lv_accepted (levels a) - lv_accepted c)) by lia.
    rewrite u64_inc, u64_inc_l, <- u64_add_l, C, u64_add_l; f_equal; lia.
Qed.

Lemma reject_counters level r a a' :
  counters a = counters a' → counters (reject level r a).1 = counters (reject level r a').1.
Proof.
  unfold counters. intros E. injection E as E1 E2 E3 E4 E5 E6 E7.
  destruct r; cbn; by rewrite E1, E2, E3, E4, E5, E6, E7.
Qed.

Lemma accept_counters level a a' :
  counters a = counters a' → counters (accept level a) = counters (accept level a').
Proof.
  unfold counters. intros E. injection E as E1 E2 E3 E4 E5 E6 E7.
  cbn. by rewrite E1, E2, E3, E4, E5, E6, E7.
Qed.

Lemma pool_call_counters op a : counters (pool_call op a).1 = counters a.
Proof. unfold pool_call. by destruct (pool_do op (a_pool a)). Qed.

(** A rejection after changes that are no counting. *)
Lemma balanced_rejected a a1 level r :
  balanced a → 0 <= level → Level_valid level = true → counters a1 = counters (attempt_at level a) →
  r ≠ Accepted → r ≠ Filtered → balanced (reject level r a1).1.
Proof.
  intros B H0 V E N1 N2. eapply balanced_same; [by apply reject_counters, E|]. by apply balanced_reject.
Qed.

Lemma publishable_valid level lease a n l :
  publishable level lease a = Some (n, l) →
  Level_valid level = true ∧ handles a !! n = Some l ∧ lh_id l = inner_ID a (inner l) ∧
  released l = false ∧ transferred l = false ∧ 0 < inner_Len a (inner l).
Proof.
  unfold publishable. destruct lease as [m|]; [|done]. destruct (handles a !! m) eqn:E; [|done].
  destruct (_ || _) eqn:G; [done|]. intros [= <- <-]. zbool. by split_and!.
Qed.

Lemma balanced_publish_queued a a1 level n l :
  balanced a → 0 <= level → Level_valid level = true → counters a1 = counters (attempt_at level a) →
  balanced (publish_queued level n l a1).1.
Proof.
  intros B H0 V E. unfold publish_queued. destruct (Ring.TryPublish _ _) as [q []];
    try (eapply balanced_rejected; try done; by rewrite pool_call_counters).
  eapply balanced_same; [|by apply (balanced_accept a level)]. cbn [fst].
  rewrite <- (accept_counters level _ _ E). unfold counters. done.
Qed.

Lemma balanced_TryPublishLease a level lease :
  balanced a → 0 <= level → balanced (TryPublishLease level lease a).1.
Proof.
  intros B H0. unfold TryPublishLease. destruct (publishable level lease a) as [[n l]|] eqn:P;
    [|by apply balanced_invalid].
  apply publishable_valid in P as (V & _). destruct (level <? _); [by apply (balanced_same a)|].
  cbv zeta. destruct (a_closed _); [by apply balanced_reject|].
  destruct (_ <? _); [by apply balanced_reject|].
  pose proof (pool_call_counters (DoSetAuditContext (inner l) (mkAuditContext (Level_String level) (logger l) 0))
    (attempt_at level a)) as E1.
  destruct (pool_call _ _) as [a1 [e|]]; [by eapply balanced_rejected|].
  pose proof (pool_call_counters (DoMarkQueued (inner l)) a1) as E2. cbn [fst] in E1; rewrite E1 in E2.
  destruct (pool_call _ a1) as [a2 [e|]]; [by eapply balanced_rejected|].
  by apply (balanced_publish_queued a).
Qed.

Lemma Release_counters lease now a : counters (Lease_Release lease now a).1 = counters a.
Proof.
  unfold Lease_Release. destruct lease as [n|]; [|done]. destruct (handles a !! n); [|done].
  destruct_ifs; try done. rewrite pool_call_counters. done.
Qed.

Section Log.
Context {F : Type} (marshal : @eventRecord F → result (list byte)).

Lemma balanced_log_encoded a name level encoded s :
  balanced a → 0 <= level → Level_valid level = true → balanced (log_encoded name level encoded s a).1.
Proof.
  intros B H0 V. unfold log_encoded. destruct (_ <? _); [by apply balanced_reject|].
  destruct (AcquireContext _ _ _ _) as [p [h|err]].
  - pose proof (pool_call_counters (DoSetBytes h encoded) (a <| a_pool := p |>)) as E1.
    destruct (pool_call _ _) as [a1 [e|]].
    + pose proof (pool_call_counters (DoRelease (Some h) (s_now s)) a1) as E2. cbn [fst] in E1; rewrite E1 in E2.
      set (a2 := (pool_call _ a1).1) in *. apply balanced_reject; try done. by apply (balanced_same a).
    + set (a2 := a1 <| handles ::= _ |>). pose proof (balanced_TryPublishLease a2 level (Some (length (handles a1)))) as X.
      destruct (TryPublishLease _ _ a2) as [a3 r]. cbn [fst] in X.
      assert (Y : balanced a3) by (apply X; [by apply (balanced_same a)|done]).
      destruct (decide _); [done|]. cbn [fst]. eapply balanced_same; [|exact Y]. apply Release_counters.
  - unfold acquire_failed. destruct_ifs; (apply balanced_reject; try done; by apply (balanced_same a)).
Qed.

Lemma balanced_log a name level message fields s :
  balanced a → 0 <= level → balanced (log marshal name level message fields s a).1.
Proof.
  intros B H0. unfold log. destruct (Level_valid level) eqn:V; [|by apply balanced_invalid]. cbn [negb].
  destruct (level <? _); [by apply (balanced_same a)|].
  destruct (a_closed a); [by apply balanced_reject|]. cbv zeta.
  destruct (marshal _); [apply balanced_log_encoded|apply balanced_reject]; try done; by apply (balanced_same a).
Qed.
End Log.

(** ** What a lease of the pool looks like *)

(** The identifier, state and payload of a lease. *)
Definition looks (p : BytePool) (h : nat) : option (Z * Z * list byte) :=
  (λ l, (l_id l, l_state l, Payload p l)) <$> leases p !! h.

(** No lease changes. *)
Definition calm (p p' : BytePool) : Prop := ∀ h, looks p' h = looks p h.

(** Lease [h] goes to state [z], nothing else changes. *)
Definition moved (h : nat) (z : Z) (p p' : BytePool) : Prop :=
  (∀ h', h' ≠ h → looks p' h' = looks p h') ∧
  looks p' h = (λ x, (x.1.1, z, x.2)) <$> looks p h.

Lemma looks_state p h i z b : looks p h = Some (i, z, b) → in_state p z h.
Proof.
  unfold looks. destruct (leases p !! h) as [l|] eqn:E; [|done]. intros [= <- <- <-]. by exists l.
Qed.

Lemma state_looks p h z : in_state p z h → ∃ i b, looks p h = Some (i, z, b).
Proof. intros (l & E & <-). unfold looks. rewrite E. cbn. eauto. Qed.

Lemma looks_other op p h h' :
  inv (skeleton p) → target op = Some h → h' ≠ h → looks (pool_do op p).1 h' = looks p h'.
Proof.
  intros I T Hne. unfold looks. destruct (leases p !! h') as [l|] eqn:E.
  - destruct (other_kept op p h' I) with (l := l) as [-> Hp]; [congruence| |done|].
    + by intros b i x ->.
    + cbn. by rewrite Hp.
  - assert (N : leases (pool_do op p).1 !! h' = None); [|by rewrite N].
    apply lookup_ge_None. apply lookup_ge_None in E.
    destruct (do_effect op p) as [->|? T0|? ? ? _ _ -> _]; [done|congruence|by rewrite length_insert].
Qed.

Lemma SetAuditContext_calm h c p :
  in_state p StateBorrowed h →
  (SetAuditContext h c p).2 = None ∧ calm p (SetAuditContext h c p).1 ∧
  leases (SetAuditContext h c p).1 = leases p.
Proof.
  intros (l & Hl & Hs). unfold SetAuditContext, borrowed_lease. rewrite Hl, Hs, Z.eqb_refl.
  cbn [fst snd]. split; [done|]. unfold calm, looks. destruct (l_tracked l); split; try done.
Qed.

Lemma MarkQueued_moved h p :
  inv (skeleton p) → in_state p StateBorrowed h →
  (MarkQueued h p).2 = None ∧ moved h StateQueued p (MarkQueued h p).1.
Proof.
  intros I (l & Hl & Hs).
  destruct (PoolSafety.accepted (DoMarkQueued h) p h l StateQueued) as (E & _); [done|done|cbn; by rewrite Hs|].
  cbn in E. split; [done|].
  split; [intros h' Hne; by apply (looks_other (DoMarkQueued h) p h)|].
  destruct (MarkQueued h p) as [p' e] eqn:M. cbn in E. subst e.
  apply MarkQueued_ok in M as (l0 & Hl0 & _ & ->). rewrite Hl in Hl0. injection Hl0 as <-.
  unfold looks. cbn. rewrite list_lookup_insert_eq by (by apply lookup_lt_Some in Hl). rewrite Hl. cbn.
  unfold Payload, block_data. cbn. by rewrite Hs.
Qed.

Lemma RollbackQueued_moved h p :
  inv (skeleton p) → in_state p StateQueued h → moved h StateBorrowed p (RollbackQueued h p).1.
Proof.
  intros I (l & Hl & Hs).
  split; [intros h' Hne; by apply (looks_other (DoRollbackQueued h) p h)|].
  unfold RollbackQueued, cas_state. rewrite Hl, Hs, Z.eqb_refl. unfold looks, on_lease. cbn.
  rewrite (lookup_alter_lease _ _ _ _ Hl), Hl. cbn. unfold Payload, block_data. cbn. by rewrite Hs.
Qed.

Lemma Release_looks h now p :
  in_state p StateBorrowed h ∨ in_state p StateInFlight h →
  (Release (Some h) now p).2 = None ∧ in_state (Release (Some h) now p).1 StateReturned h.
Proof.
  intros B. assert (X : ∃ l, leases p !! h = Some l ∧
      lifecycle (DoRelease (Some h) now) (l_state l) = Some StateReturned).
  { destruct B as [(l & Hl & Hs)|(l & Hl & Hs)]; exists l; (split; [done|]); cbn; by rewrite Hs. }
  destruct X as (l & Hl & L).
  destruct (PoolSafety.accepted (DoRelease (Some h) now) p h l StateReturned) as (E & l' & Hl' & Hs' & _); try done.
  split; [done|]. by exists l'.
Qed.

(** [MarkQueued] undone. *)
Lemma moved_back h p p1 p2 :
  in_state p StateBorrowed h → moved h StateQueued p p1 → moved h StateBorrowed p1 p2 → calm p p2.
Proof.
  intros B [M1 M2] [N1 N2] h'. destruct (decide (h' = h)) as [->|Hne].
  - rewrite N2, M2. apply state_looks in B as (i & b & ->). done.
  - by rewrite N1, M1.
Qed.

(** ** Handles and leases *)

(** A handle and the lease it is for. *)
Definition handle_ok (p : BytePool) (l : Appender.Lease) : Prop :=
  ∃ z b, looks p (inner l) = Some (lh_id l, z, b) ∧
    (transferred l = false → released l = false → z = StateBorrowed) ∧
    (released l = true → z = StateReturned) ∧
    (transferred l = true → z ≠ StateBorrowed).

Record appender_ok (a : Appender) : Prop := {
  ao_pool : inv (skeleton (a_pool a));
  ao_lengths : lengths_ok (a_pool a);
  ao_balanced : balanced a;
  ao_handles : ∀ n l, handles a !! n = Some l → handle_ok (a_pool a) l;
  ao_inner : ∀ n1 n2 l1 l2, handles a !! n1 = Some l1 → handles a !! n2 = Some l2 →
    inner l1 = inner l2 → n1 = n2;
  ao_queue : ∃ f, bq_abs (a_queue a) f ∧ NoDup (f_items f) ∧
    Forall (in_state (a_pool a) StateQueued) (f_items f)
}.

(** What is in the ring. *)
Definition queued_items (a : Appender) (items : list nat) : Prop :=
  ∃ cap cl, bq_abs (a_queue a) (mkFifo cap items cl).

(** What a call of [TryPublishLease] does apart from counting. *)
Inductive published (lease : option nat) (a a' : Appender) : PublishResult → Prop :=
| pub_accepted n l :
    lease = Some n → handles a !! n = Some l → transferred l = false → released l = false →
    moved (inner l) StateQueued (a_pool a) (a_pool a') → in_state (a_pool a) StateBorrowed (inner l) →
    handles a' = <[n := l <| transferred := true |>]> (handles a) →
    (∀ items, queued_items a items → queued_items a' (items ++ [inner l])) →
    published lease a a' Accepted
| pub_refused r :
    r ≠ Accepted → calm (a_pool a) (a_pool a') → handles a' = handles a →
    (∀ items, queued_items a items → queued_items a' items) →
    published lease a a' r.

Lemma usable_borrowed a n l :
  appender_ok a → handles a !! n = Some l → transferred l = false → released l = false →
  in_state (a_pool a) StateBorrowed (inner l).
Proof.
  intros A E T R. destruct (ao_handles a A n l E) as (z & b & L & Z & _).
  rewrite (Z T R) in L. by eapply looks_state.
Qed.

Lemma pool_call_eq op a :
  pool_call op a = (a <| a_pool := (pool_do op (a_pool a)).1 |>, (pool_do op (a_pool a)).2).
Proof. unfold pool_call. by destruct (pool_do op (a_pool a)). Qed.

Lemma TryPublish_items (a : Appender) h (q : Queue nat) r items :
  queued_items a items → Ring.TryPublish (a_queue a) (Some h) = (q, r) →
  (∃ cap cl, bq_abs q (mkFifo cap (if decide (r = PublishAccepted) then items ++ [h] else items) cl)).
Proof.
  intros (cap & cl & A) E. pose proof (bq_publish_ok _ _ (Some h) A) as [R B]. cbn in R, B.
  rewrite E in R, B. cbn in R, B. exists cap, cl. rewrite R.
  destruct cl; [exact B|]. destruct (_ <? _); exact B.
Qed.

Lemma publish_queued_spec level n l a a1 p1 :
  appender_ok a → handles a !! n = Some l → transferred l = false → released l = false →
  a_queue a1 = a_queue a → handles a1 = handles a → a_pool a1 = p1 →
  moved (inner l) StateQueued (a_pool a) p1 → inv (skeleton p1) →
  published (Some n) a (publish_queued level n l a1).1 (publish_queued level n l a1).2.
Proof.
  intros A E T R Eq Eh Ep M I1. pose proof (usable_borrowed a n l A E T R) as B.
  assert (Qd : in_state p1 StateQueued (inner l)).
  { apply state_looks in B as (i & b & L). destruct M as [_ M]. rewrite L in M. cbn in M. by eapply looks_state. }
  unfold publish_queued. destruct (Ring.TryPublish (a_queue a1) (Some (inner l))) as [q r] eqn:P.
  rewrite Eq in P. pose proof (λ items Q, TryPublish_items a (inner l) q r items Q P) as It.
  destruct r; cbn [decide] in It; rewrite ?pool_call_eq; cbn [fst snd reject].
  - apply (pub_accepted _ _ _ n l); try done.
    + cbn. by rewrite Ep.
    + cbn. rewrite Eh. by rewrite (alter_insert' _ _ _ l E).
  - apply pub_refused; [done| |exact Eh|exact It]. cbn. rewrite Ep.
    eapply moved_back; [exact B|exact M|by apply RollbackQueued_moved].
  - apply pub_refused; [done| |exact Eh|exact It]. cbn. rewrite Ep.
    eapply moved_back; [exact B|exact M|by apply RollbackQueued_moved].
  - apply pub_refused; [done| |exact Eh|exact It]. cbn. rewrite Ep.
    eapply moved_back; [exact B|exact M|by apply RollbackQueued_moved].
Qed.

(** The pool is used through its calls only. *)
Definition pool_runs (p p' : BytePool) : Prop := ∃ ops, p' = run ops p.

Lemma pool_runs_refl p : pool_runs p p.
Proof. by exists []. Qed.

Lemma pool_runs_call op p p' : pool_runs p p' → pool_runs p (pool_do op p').1.
Proof. intros [ops ->]. exists (ops ++ [op]). unfold run. by rewrite foldl_app. Qed.

Lemma pool_runs_ok p p' :
  pool_runs p p' → inv (skeleton p) → lengths_ok p → inv (skeleton p') ∧ lengths_ok p'.
Proof.
  intros [ops ->]. revert p. induction ops as [|op ops IH]; intros p I L; [done|].
  apply IH; [by apply inv_do|by apply lengths_ok_do].
Qed.

Lemma publish_queued_runs level n l a p :
  pool_runs p (a_pool a) → pool_runs p (a_pool (publish_queued level n l a).1).
Proof.
  intros R. unfold publish_queued. destruct (Ring.TryPublish _ _) as [q []]; rewrite ?pool_call_eq;
    [exact R|by apply (pool_runs_call (DoRollbackQueued (inner l)))..].
Qed.

Lemma TryPublishLease_runs level lease a :
  pool_runs (a_pool a) (a_pool (TryPublishLease level lease a).1).
Proof.
  unfold TryPublishLease. destruct (publishable level lease a) as [[n l]|]; [|apply pool_runs_refl].
  destruct (level <? _); [apply pool_runs_refl|]. cbv zeta.
  destruct (a_closed _); [apply pool_runs_refl|]. destruct (_ <? _); [apply pool_runs_refl|].
  set (c := mkAuditContext _ _ _). rewrite (pool_call_eq (DoSetAuditContext _ _)).
  assert (R1 : pool_runs (a_pool a) (pool_do (DoSetAuditContext (inner l) c) (a_pool (attempt_at level a))).1)
    by apply pool_runs_call, pool_runs_refl.
  destruct (pool_do (DoSetAuditContext _ _) _).2; [exact R1|].
  rewrite (pool_call_eq (DoMarkQueued _)).
  destruct (pool_do (DoMarkQueued _) _).2; [by apply (pool_runs_call (DoMarkQueued _))|].
  apply publish_queued_runs. cbn. by apply (pool_runs_call (DoMarkQueued _)).
Qed.

(** [TryPublishLease]: accepted with the lease handed over, or nothing moved. *)
Lemma TryPublishLease_published level lease a :
  appender_ok a →
  published lease a (TryPublishLease level lease a).1 (TryPublishLease level lease a).2.
Proof.
  intros A. unfold TryPublishLease. destruct (publishable level lease a) as [[n l]|] eqn:P;
    [|by apply pub_refused].
  assert (L : lease = Some n).
  { unfold publishable in P. destruct lease as [m|]; [|done]. destruct (handles a !! m); [|done].
    destruct (_ || _); [done|]. by injection P as -> _. }
  apply publishable_valid in P as (V & E & _ & R & T & _).
  destruct (level <? _); [by apply pub_refused|]. cbv zeta.
  destruct (a_closed _); [by apply pub_refused|]. destruct (_ <? _); [by apply pub_refused|].
  pose proof (usable_borrowed a n l A E T R) as B. subst lease.
  set (c := mkAuditContext _ _ _). rewrite (pool_call_eq (DoSetAuditContext _ _)).
  destruct (SetAuditContext_calm (inner l) c (a_pool a) B) as (E1 & C1 & L1). cbn [pool_do].
  change (a_pool (attempt_at level a)) with (a_pool a). rewrite E1.
  set (p1 := (SetAuditContext (inner l) c (a_pool a)).1) in *.
  assert (I1 : inv (skeleton p1)) by (apply (inv_do (DoSetAuditContext (inner l) c)), A).
  assert (B1 : in_state p1 StateBorrowed (inner l)) by (unfold in_state in *; by rewrite L1).
  rewrite (pool_call_eq (DoMarkQueued _)). cbn [pool_do].
  change (a_pool ((attempt_at level a) <| a_pool := p1 |>)) with p1.
  destruct (MarkQueued_moved (inner l) p1 I1 B1) as [E2 M2]. rewrite E2.
  apply (publish_queued_spec level n l a _ (MarkQueued (inner l) p1).1); try done.
  - destruct M2 as [M M']. split; [intros h' Hne; by rewrite (M h' Hne)|by rewrite M', C1].
  - by apply (inv_do (DoMarkQueued (inner l))).
Qed.

Lemma calm_state p p' z h : calm p p' → in_state p z h → in_state p' z h.
Proof. intros C (i & b & L)%state_looks. rewrite <- C in L. by eapply looks_state. Qed.

Lemma calm_handle p p' l : calm p p' → handle_ok p l → handle_ok p' l.
Proof. intros C (z & b & L & H). exists z, b. by rewrite C. Qed.

Lemma moved_state p p' h z z' h' : moved h z p p' → h' ≠ h → in_state p z' h' → in_state p' z' h'.
Proof. intros [M _] Hne (i & b & L)%state_looks. rewrite <- M in L by done. by eapply looks_state. Qed.

Lemma appender_ok_published lease r a a' :
  appender_ok a → published lease a a' r → balanced a' → pool_runs (a_pool a) (a_pool a') → appender_ok a'.
Proof.
  intros A P Ba Ru. destruct A as [I L _ Ho Hi (f & Qf & N & Fq)].
  destruct (pool_runs_ok _ _ Ru I L) as [I' L'].
  destruct P as [n l _ E T R M B Eh It|r _ C Eh It].
  - constructor; try done; rewrite ?Eh.
    + intros m lm [(<- & <- & _)|[Hne Hm]]%list_lookup_insert_Some.
      * apply state_looks in B as (i & b & Lk). destruct M as [_ M].
        destruct (Ho n l E) as (z & b' & Lk' & _). rewrite Lk' in Lk. injection Lk as <- -> <-.
        exists StateQueued, b'. cbn. rewrite M, Lk'. cbn. by rewrite R.
      * destruct (Ho m lm Hm) as (z & b & Lk & X). exists z, b. split; [|done].
        destruct M as [M _]. rewrite M; [done|]. intros Ein. apply Hne. by eapply Hi.
    + assert (X : ∀ m lm, <[n := l <| transferred := true |>]> (handles a) !! m = Some lm →
        ∃ lm', handles a !! m = Some lm' ∧ inner lm' = inner lm).
      { intros m lm [(<- & <- & _)|[_ Hm]]%list_lookup_insert_Some; eauto. }
      intros n1 n2 l1 l2 (l1' & H1 & <-)%X (l2' & H2 & <-)%X. by eapply Hi.
    + destruct (It (f_items f)) as (cap & cl & Q'); [destruct f; by do 2 eexists|].
      eexists. split; [exact Q'|]. cbn. rewrite Forall_forall in Fq. split.
      * apply NoDup_app. split_and!; [done| |apply NoDup_singleton].
        intros x Hx ->%list_elem_of_singleton. by pose proof (in_state_fun _ _ _ _ B (Fq _ Hx)).
      * apply Forall_app. split; [|apply Forall_singleton].
        -- apply Forall_forall. intros x Hx. eapply moved_state; [done| |by apply Fq].
           intros ->. by pose proof (in_state_fun _ _ _ _ B (Fq _ Hx)).
        -- apply state_looks in B as (i & b & Lk). destruct M as [_ M]. rewrite Lk in M. cbn in M.
           by eapply looks_state.
  - constructor; try done; rewrite ?Eh; [|exact Hi|].
    + intros m lm Hm. by eapply calm_handle, Ho.
    + destruct (It (f_items f)) as (cap & cl & Q'); [destruct f; by do 2 eexists|].
      eexists. split; [exact Q'|]. cbn. split; [done|].
      eapply Forall_impl; [done|]. intros x Hx. by eapply calm_state.
Qed.

Lemma ok_TryPublishLease level lease a :
  appender_ok a → 0 <= level → appender_ok (TryPublishLease level lease a).1.
Proof.
  intros A H0. eapply appender_ok_published; [done|by apply TryPublishLease_published| |].
  - by apply balanced_TryPublishLease; [apply A|].
  - apply TryPublishLease_runs.
Qed.

(** ** The other operations *)

(** A step that concerns the lease [h] only. *)
Lemma ok_step h a a' :
  appender_ok a → balanced a' → pool_runs (a_pool a) (a_pool a') →
  (∀ h', h' ≠ h → looks (a_pool a') h' = looks (a_pool a) h') →
  (∀ n l', handles a' !! n = Some l' → ∃ l, handles a !! n = Some l ∧ inner l = inner l' ∧
     (inner l = h → handle_ok (a_pool a') l') ∧ (inner l ≠ h → l' = l)) →
  (∃ f, bq_abs (a_queue a') f ∧ NoDup (f_items f) ∧ h ∉ f_items f ∧
     Forall (in_state (a_pool a) StateQueued) (f_items f)) →
  appender_ok a'.
Proof.
  intros [I L _ Ho Hi _] Ba Ru K Hh (f & Q & N & Nh & Fq).
  destruct (pool_runs_ok _ _ Ru I L) as [I' L']. constructor; try done.
  - intros n l' E. destruct (Hh n l' E) as (l & El & Ei & H1 & H2).
    destruct (decide (inner l = h)) as [Eh|Ne]; [by apply H1|].
    rewrite (H2 Ne). destruct (Ho n l El) as (z & b & Lk & X). exists z, b. by rewrite K.
  - intros n1 n2 l1 l2 E1 E2 E. destruct (Hh _ _ E1) as (l1' & H1 & Ei1 & _).
    destruct (Hh _ _ E2) as (l2' & H2 & Ei2 & _). eapply Hi; [done|done|congruence].
  - exists f. split_and!; try done. apply Forall_forall. rewrite Forall_forall in Fq. intros x Hx.
    destruct (state_looks _ _ _ (Fq x Hx)) as (i & b & Lk). eapply looks_state. rewrite K; [done|].
    by intros ->.
Qed.

(** The ring holds no borrowed lease. *)
Lemma borrowed_not_queued a h :
  appender_ok a → in_state (a_pool a) StateBorrowed h →
  ∃ f, bq_abs (a_queue a) f ∧ NoDup (f_items f) ∧ h ∉ f_items f ∧
    Forall (in_state (a_pool a) StateQueued) (f_items f).
Proof.
  intros [_ _ _ _ _ (f & Q & N & Fq)] B. exists f. split_and!; try done. intros Hh.
  rewrite Forall_forall in Fq. by pose proof (in_state_fun _ _ _ _ B (Fq _ Hh)).
Qed.

(** An operation on a borrowed lease by its handle [n], which may change. *)
Lemma ok_target op n l l' a a' :
  appender_ok a → handles a !! n = Some l → transferred l = false → released l = false →
  target op = Some (inner l) → a_pool a' = (pool_do op (a_pool a)).1 →
  handles a' = <[n := l']> (handles a) → inner l' = inner l → handle_ok (a_pool a') l' →
  a_queue a' = a_queue a → counters a' = counters a → appender_ok a'.
Proof.
  intros A E T R Tg Ep Eh Ei Ok Eq Ec. apply (ok_step (inner l) a); try done.
  - apply (balanced_same a); [done|apply A].
  - rewrite Ep. apply pool_runs_call, pool_runs_refl.
  - intros h' Hne. rewrite Ep. apply (looks_other op _ (inner l)); [apply A|done|done].
  - rewrite Eh. intros m lm [(<- & <- & _)|[Hne Hm]]%list_lookup_insert_Some.
    + exists l. by split_and!.
    + exists lm. split_and!; try done. intros Ein. exfalso. apply Hne. by eapply (ao_inner a A).
  - rewrite Eq. apply borrowed_not_queued; [done|by eapply usable_borrowed].
Qed.

(** A write of the borrower. *)
Lemma ok_write op n l a :
  appender_ok a → handles a !! n = Some l → transferred l = false → released l = false →
  target op = Some (inner l) → lifecycle op StateBorrowed = Some StateBorrowed →
  appender_ok (pool_call op a).1.
Proof.
  intros A E T R Tg Lc. rewrite pool_call_eq. cbn [fst].
  pose proof (usable_borrowed a n l A E T R) as (pl & Hl & Hs).
  destruct (ao_handles a A n l E) as (z & b & Lk & Z & _).
  destruct (PoolSafety.accepted op (a_pool a) (inner l) pl StateBorrowed) as (_ & pl' & Hl' & Hs' & Hid);
    [done|done|by rewrite Hs|].
  eapply (ok_target op n l l); try done.
  - cbn. by rewrite list_insert_id.
  - unfold looks in Lk. rewrite Hl in Lk. cbn in Lk. injection Lk as Lk1 _ _.
    exists StateBorrowed, (Payload (pool_do op (a_pool a)).1 pl'). cbn. unfold looks. rewrite Hl'. cbn.
    split_and!; try done; [by rewrite Hs', Hid, Lk1|by rewrite R|by rewrite T].
Qed.

Lemma usable_Some lease a n l :
  usable lease a = Some (n, l) →
  lease = Some n ∧ handles a !! n = Some l ∧ transferred l = false ∧ released l = false.
Proof.
  unfold usable. destruct lease as [m|]; [|done]. destruct (handles a !! m) eqn:E; [|done].
  destruct (_ || _) eqn:G; [done|]. intros [= <- <-]. zbool. by split_and!.
Qed.

Lemma ok_Lease_Write lease data a : appender_ok a → appender_ok (Lease_Write lease data a).1.1.
Proof.
  intros A. unfold Lease_Write. destruct (usable lease a) as [[n l]|] eqn:U; [|done].
  apply usable_Some in U as (_ & E & T & R).
  pose proof (ok_write (DoAppend (inner l) data) n l a A E T R eq_refl eq_refl) as X.
  rewrite pool_call_eq in X. cbn [pool_do fst] in X. unfold Write.
  destruct (Append (inner l) data (a_pool a)) as [p [e|]]; exact X.
Qed.

Lemma ok_Lease_SetBytes lease data a : appender_ok a → appender_ok (Lease_SetBytes lease data a).1.
Proof.
  intros A. unfold Lease_SetBytes. destruct (usable lease a) as [[n l]|] eqn:U; [|done].
  apply usable_Some in U as (_ & E & T & R). by eapply ok_write.
Qed.

Lemma ok_Lease_Commit lease k a : appender_ok a → appender_ok (Lease_Commit lease k a).1.
Proof.
  intros A. unfold Lease_Commit. destruct (usable lease a) as [[n l]|] eqn:U; [|done].
  apply usable_Some in U as (_ & E & T & R). by eapply ok_write.
Qed.

Lemma ok_Lease_SetAuditContext lease level name a :
  appender_ok a → appender_ok (Lease_SetAuditContext lease level name a).1.
Proof.
  intros A. unfold Lease_SetAuditContext. destruct (usable lease a) as [[n l]|] eqn:U; [|done].
  apply usable_Some in U as (_ & E & T & R). destruct (negb _); [done|].
  set (l' := if decide (name = "") then l else _).
  assert (El : inner l' = inner l ∧ lh_id l' = lh_id l ∧ transferred l' = false ∧ released l' = false)
    by (unfold l'; by destruct (decide _)).
  destruct El as (E1 & E2 & E3 & E4). set (c := mkAuditContext _ _ _). rewrite pool_call_eq.
  eapply (ok_target (DoSetAuditContext (inner l') c) n l l'); try done.
  - cbn. by rewrite E1.
  - cbn. by rewrite (alter_insert' _ _ _ l E).
  - cbn. destruct (SetAuditContext_calm (inner l') c (a_pool a)) as (_ & C & _).
    { rewrite E1. by eapply usable_borrowed. }
    destruct (ao_handles a A n l E) as (z & b & Lk & Z & _). exists z, b. rewrite C, E1, E2, Lk.
    split_and!; try done; [by intros; apply Z|by rewrite E4|by rewrite E3].
Qed.

Lemma ok_Lease_Release lease now a : appender_ok a → appender_ok (Lease_Release lease now a).1.
Proof.
  intros A. unfold Lease_Release. destruct lease as [n|]; [|done].
  destruct (handles a !! n) as [l|] eqn:E; [|done]. destruct (negb _); [done|].
  destruct (transferred l) eqn:T; [done|]. destruct (released l) eqn:R; [done|].
  pose proof (usable_borrowed a n l A E T R) as (pl & Hl & Hs).
  destruct (ao_handles a A n l E) as (z & b & Lk & _).
  destruct (PoolSafety.accepted (DoRelease (Some (inner l)) now) (a_pool a) (inner l) pl StateReturned)
    as (_ & pl' & Hl' & Hs' & Hid); [done|done|cbn; by rewrite Hs|].
  rewrite pool_call_eq. eapply (ok_target (DoRelease (Some (inner l)) now) n l (l <| released := true |>)); try done.
  - cbn. by rewrite (alter_insert' _ _ _ l E).
  - unfold looks in Lk. rewrite Hl in Lk. cbn in Lk. injection Lk as Lk1 _ _.
    exists StateReturned, (Payload (pool_do (DoRelease (Some (inner l)) now) (a_pool a)).1 pl').
    cbn. unfold looks. cbn in Hl'. rewrite Hl'. cbn. split_and!; try done.
    by rewrite Hs', Hid, Lk1.
Qed.

Lemma looks_existing op p h :
  inv (skeleton p) → target op ≠ Some h → (∀ b i x, op ≠ DoPoke b i x) → is_Some (leases p !! h) →
  looks (pool_do op p).1 h = looks p h.
Proof.
  intros I T N [l Hl]. destruct (other_kept op p h I T N l Hl) as [E Hp].
  unfold looks. rewrite E, Hl. cbn. by rewrite Hp.
Qed.

Lemma acquire_looks capacity context e p :
  inv (skeleton p) →
  match Pool.AcquireContext capacity context e p with
  | (p', Ok h) => leases p !! h = None ∧ (∃ id, looks p' h = Some (id, StateBorrowed, [])) ∧
                  (∀ h', h' ≠ h → looks p' h' = looks p h')
  | (p', Err _) => calm p p'
  end.
Proof.
  intros I. pose proof (acquire_spec p capacity context e I) as Sp. cbn zeta in Sp.
  assert (Pe : ∀ h, is_Some (leases p !! h) → looks (AcquireContext capacity context e p).1 h = looks p h).
  { intros h Hh. pose proof (looks_existing (DoAcquire capacity context e) p h I) as X.
    cbn [pool_do] in X. unfold AcquireContext. destruct (Pool.acquire capacity context e p) as [p' []];
      by apply X. }
  destruct (AcquireContext capacity context e p) as [p' [h|err]] eqn:A; cbn [fst snd] in *.
  - destruct (Pool.closed p); [done|]. destruct (_ <? 0); [done|]. destruct (_ >? _).
    { by destruct Sp as (_ & ? & ? & _). }
    destruct Sp as (l & [= ->] & L & St & Py & _). split_and!.
    + by apply lookup_ge_None.
    + exists (l_id l). unfold looks. rewrite L, lookup_app_r, Nat.sub_diag by lia. cbn. by rewrite St, Py.
    + intros h' Hne. destruct (leases p !! h') as [l'|] eqn:E; [by apply Pe; rewrite E|].
      unfold looks. rewrite L, E. apply lookup_ge_None in E.
      rewrite (proj2 (lookup_ge_None _ _)); [done|]. rewrite length_app. cbn. lia.
  - intros h. destruct (leases p !! h) as [l'|] eqn:E; [by apply Pe; rewrite E|].
    apply acquire_error in A as [_ L]. unfold looks. by rewrite L, E.
Qed.

(** A handle on a lease just acquired. *)
Lemma ok_new_handle a a' h name id b0 :
  appender_ok a → leases (a_pool a) !! h = None → looks (a_pool a') h = Some (id, StateBorrowed, b0) →
  (∀ h', h' ≠ h → looks (a_pool a') h' = looks (a_pool a) h') → pool_runs (a_pool a) (a_pool a') →
  handles a' = handles a ++ [mkHandle h id name false false] → a_queue a' = a_queue a →
  counters a' = counters a → appender_ok a'.
Proof.
  intros A Nh Lh K Ru Eh Eq Ec. destruct (pool_runs_ok _ _ Ru (ao_pool a A) (ao_lengths a A)) as [I' L'].
  assert (Old : ∀ n l, handles a !! n = Some l → inner l ≠ h).
  { intros n l E Ei. destruct (ao_handles a A n l E) as (z & b & Lk & _).
    unfold looks in Lk. by rewrite Ei, Nh in Lk. }
  constructor; try done.
  - apply (balanced_same a); [done|apply A].
  - rewrite Eh. intros n l [E|[_ E]]%lookup_app_Some.
    + destruct (ao_handles a A n l E) as (z & b & Lk & X). exists z, b.
      rewrite K by (by eapply Old). done.
    + apply list_lookup_singleton_Some in E as [_ <-]. by exists StateBorrowed, b0.
  - rewrite Eh. intros n1 n2 l1 l2 [E1|[G1 E1]]%lookup_app_Some [E2|[G2 E2]]%lookup_app_Some Ei.
    + by eapply (ao_inner a A).
    + apply list_lookup_singleton_Some in E2 as [_ <-]. by destruct (Old _ _ E1).
    + apply list_lookup_singleton_Some in E1 as [_ <-]. by destruct (Old _ _ E2).
    + apply list_lookup_singleton_Some in E1 as [? _]. apply list_lookup_singleton_Some in E2 as [? _]. lia.
  - rewrite Eq. destruct (ao_queue a A) as (f & Q & N & Fq). exists f. split_and!; try done.
    eapply Forall_impl; [done|]. intros x (i & b & Lk)%state_looks. eapply looks_state.
    rewrite K; [done|]. intros ->. unfold looks in Lk. by rewrite Nh in Lk.
Qed.

Lemma ok_calm a a' :
  appender_ok a → counters a' = counters a → pool_runs (a_pool a) (a_pool a') → calm (a_pool a) (a_pool a') →
  handles a' = handles a → (∀ items, queued_items a items → queued_items a' items) → appender_ok a'.
Proof.
  intros A Ec Ru C Eh Q. eapply (appender_ok_published None InvalidLease); [done| |by apply (balanced_same a); [|apply A]|done].
  by apply pub_refused.
Qed.

Lemma pool_runs_acquire capacity context e p : pool_runs p (AcquireContext capacity context e p).1.
Proof.
  pose proof (pool_runs_call (DoAcquire capacity context e) p p (pool_runs_refl p)) as X. cbn [pool_do] in X.
  unfold AcquireContext. by destruct (Pool.acquire capacity context e p) as [p' []].
Qed.

Lemma looks_ID p h id z b :
  looks p h = Some (id, z, b) → match leases p !! h with Some l => l_id l | None => 0 end = id.
Proof. unfold looks. destruct (leases p !! h); [|done]. by intros [= -> _ _]. Qed.

Lemma ok_acquire capacity level e a : appender_ok a → appender_ok (acquire capacity level e a).1.
Proof.
  intros A. unfold acquire. destruct (a_closed a); [done|]. set (c := mkAuditContext _ _ _). cbv zeta.
  pose proof (acquire_looks capacity c e (a_pool a) (ao_pool a A)) as X.
  pose proof (pool_runs_acquire capacity c e (a_pool a)) as Ru.
  destruct (AcquireContext capacity c e (a_pool a)) as [p [h|err]]; cbn [fst] in *.
  - destruct X as (N & [id Lk] & K). eapply (ok_new_handle a _ h (Name (a_config a)) id []); try done.
    unfold inner_ID. cbn. by rewrite (looks_ID _ _ _ _ _ Lk).
  - by apply (ok_calm a).
Qed.

Lemma copy_at_front data dst :
  (length data <= length dst)%nat → take (length data) (copy_at 0 data dst) = data.
Proof.
  intros Hl. unfold copy_at. cbn [take app]. rewrite (take_ge data) by lia.
  change (take 0 dst ++ data ++ drop (0 + length data) dst) with (data ++ drop (0 + length data) dst).
  apply take_app_length.
Qed.

Lemma SetBytes_looks h data p id b :
  looks p h = Some (id, StateBorrowed, b) → (SetBytes h data p).2 = None →
  looks (SetBytes h data p).1 h = Some (id, StateBorrowed, data).
Proof.
  unfold looks. destruct (leases p !! h) as [l|] eqn:Hl; [|done]. cbn. intros [= <- Hs _].
  unfold SetBytes, borrowed_lease. rewrite Hl, Hs, Z.eqb_refl.
  destruct (_ >? _) eqn:G; [done|]. intros _. zbool. cbn [fst].
  assert (Ls : leases (write_block l 0 data p) = leases p) by (unfold write_block; by destruct (l_block l)).
  unfold on_lease. cbn. rewrite Ls, (lookup_alter_lease _ _ _ _ Hl). cbn. rewrite Hs. f_equal. f_equal.
  unfold Payload. cbn. rewrite ?Hs. unfold Lease_Capacity, block_data, write_block in *. cbn in *.
  rewrite Nat2Z.id. destruct (l_block l) as [blk|] eqn:Eb; cbn in *.
  - rewrite list_lookup_alter_eq. destruct (blocks p !! blk) as [d|]; cbn in *.
    + apply copy_at_front. lia.
    + destruct data; [done|cbn in *; lia].
  - destruct data; [done|cbn in *; lia].
Qed.

(** *** Logging *)

(** A step that concerns a lease acquired on the way, which no handle holds. *)
Lemma ok_fresh h a a' :
  appender_ok a → leases (a_pool a) !! h = None → balanced a' →
  pool_runs (a_pool a) (a_pool a') → (∀ h', h' ≠ h → looks (a_pool a') h' = looks (a_pool a) h') →
  handles a' = handles a → a_queue a' = a_queue a → appender_ok a'.
Proof.
  intros A Nh Ba Ru K Eh Eq. apply (ok_step h a); try done.
  - rewrite Eh. intros n l E. exists l. split_and!; try done. intros Ei. exfalso.
    destruct (ao_handles a A n l E) as (z & b & Lk & _). unfold looks in Lk. by rewrite Ei, Nh in Lk.
  - rewrite Eq. destruct (ao_queue a A) as (f & Q & N & Fq). exists f. split_and!; try done.
    intros Hx. rewrite Forall_forall in Fq. destruct (Fq h Hx) as (l & E & _). congruence.
Qed.

Section Logging.
Context {F : Type} (marshal : @eventRecord F → result (list byte)).

(** What a call of [log] does apart from counting. *)
Inductive logged (name : string) (level : Z) (message : string) (fields : list F) (s : call_site)
  (a a' : Appender) : PublishResult → Prop :=
| lg_accepted encoded h id :
    marshal (make_event name level message fields s (inc (a_sequence a))) = Ok encoded →
    len (encoded ++ [x0a]) <= MaxEventBytes (a_config a) →
    leases (a_pool a) !! h = None →
    looks (a_pool a') h = Some (id, StateQueued, encoded ++ [x0a]) →
    (∀ h', h' ≠ h → looks (a_pool a') h' = looks (a_pool a) h') →
    (∀ items, queued_items a items → queued_items a' (items ++ [h])) →
    logged name level message fields s a a' Accepted
| lg_refused r :
    r ≠ Accepted →
    (∀ h, is_Some (leases (a_pool a) !! h) → looks (a_pool a') h = looks (a_pool a) h) →
    (∀ h, leases (a_pool a) !! h = None → is_Some (leases (a_pool a') !! h) →
       in_state (a_pool a') StateReturned h) →
    (∀ items, queued_items a items → queued_items a' items) →
    logged name level message fields s a a' r.

Lemma looks_is_Some p h : is_Some (looks p h) ↔ is_Some (leases p !! h).
Proof. unfold looks. by rewrite fmap_is_Some. Qed.

Lemma calm_refused name level message fields s a a' r :
  r ≠ Accepted → calm (a_pool a) (a_pool a') → (∀ items, queued_items a items → queued_items a' items) →
  logged name level message fields s a a' r.
Proof.
  intros Hr C Q. apply lg_refused; try done.
  intros h N Hs%looks_is_Some. rewrite C in Hs. apply looks_is_Some in Hs. rewrite N in Hs. by destruct Hs.
Qed.

(** A lease acquired on the way and given back. *)
Lemma returned_refused name level message fields s a a' r h :
  r ≠ Accepted → leases (a_pool a) !! h = None →
  (∀ h', h' ≠ h → looks (a_pool a') h' = looks (a_pool a) h') → in_state (a_pool a') StateReturned h →
  (∀ items, queued_items a items → queued_items a' items) →
  logged name level message fields s a a' r.
Proof.
  intros Hr N K Rt Q. apply lg_refused; try done.
  - intros h' Hs. apply K. intros ->. rewrite N in Hs. by destruct Hs.
  - intros h' N' Hs. destruct (decide (h' = h)) as [->|Ne]; [done|]. exfalso.
    apply looks_is_Some in Hs. rewrite K in Hs by done. apply looks_is_Some in Hs. rewrite N' in Hs. by destruct Hs.
Qed.

(** The event's lease is published by a handle of its own. *)
Lemma log_publish name level message fields s a a3 h id encoded :
  appender_ok a3 → 0 <= level → leases (a_pool a) !! h = None →
  marshal (make_event name level message fields s (inc (a_sequence a))) = Ok encoded →
  len (encoded ++ [x0a]) <= MaxEventBytes (a_config a) →
  looks (a_pool a3) h = Some (id, StateBorrowed, encoded ++ [x0a]) →
  (∀ h', h' ≠ h → looks (a_pool a3) h' = looks (a_pool a) h') → a_queue a3 = a_queue a →
  let n := (length (handles a3) - 1)%nat in
  handles a3 !! n = Some (mkHandle h id name false false) →
  let x := TryPublishLease level (Some n) a3 in
  let y := if decide (x.2 = Accepted) then x else ((Lease_Release (Some n) (s_now s) x.1).1, x.2) in
  appender_ok y.1 ∧ logged name level message fields s a y.1 y.2.
Proof.
  intros A3 H0 Nh Me Big Lk K Eq n En x.
  pose proof (ok_TryPublishLease level (Some n) a3 A3 H0) as A4. fold x in A4.
  pose proof (TryPublishLease_published level (Some n) a3 A3) as P. fold x in P. clearbody x.
  assert (Qi : ∀ items, queued_items a items → queued_items a3 items) by (unfold queued_items; by rewrite Eq).
  destruct x as [a4 r]. cbn [fst snd] in *. destruct P as [n' l [= <-] E T R [M1 M2] B Eh It|r Hr C Eh It].
  - rewrite En in E. injection E as <-. cbn [inner] in *.
    destruct (decide (Accepted = Accepted)); [|done]. cbn [fst snd]. split; [exact A4|].
    eapply lg_accepted; [exact Me|exact Big|exact Nh| |intros h' Hne; rewrite M1, K by done; done|auto].
    by rewrite M2, Lk.
  - destruct (decide (r = Accepted)); [done|]. cbn [fst snd]. split; [by apply ok_Lease_Release|].
    assert (Lk4 : looks (a_pool a4) h = Some (id, StateBorrowed, encoded ++ [x0a])) by (by rewrite C).
    unfold Lease_Release. rewrite Eh, En. cbn [inner lh_id transferred released].
    unfold inner_ID. rewrite (looks_ID _ _ _ _ _ Lk4), Z.eqb_refl. cbn [negb]. rewrite pool_call_eq.
    apply (returned_refused _ _ _ _ _ _ _ _ h); [done|done| | |intros items Q; apply It, Qi, Q].
    + intros h' Hne. cbn. rewrite (looks_other (DoRelease (Some h) (s_now s)) (a_pool a4) h); [|apply A4|done|done].
      rewrite C. by apply K.
    + apply Release_looks. left. by eapply looks_state.
Qed.

Lemma log_encoded_spec name level message fields s a a0 encoded :
  appender_ok a0 → 0 <= level → Level_valid level = true →
  a0 = a <| a_sequence ::= inc |> →
  marshal (make_event name level message fields s (inc (a_sequence a))) = Ok encoded →
  let x := log_encoded name level (encoded ++ [x0a]) s a0 in
  appender_ok x.1 ∧ logged name level message fields s a x.1 x.2.
Proof.
  intros A H0 V Ea Me. assert (Bal := balanced_log_encoded a0 name level (encoded ++ [x0a]) s (ao_balanced _ A) H0 V).
  revert Bal. unfold log_encoded. subst a0.
  destruct (_ <? _) eqn:Big; cbn [fst snd reject]; intros Bal.
  { split; [eapply (appender_ok_published None Oversized); [exact A|by apply pub_refused|exact Bal|apply pool_runs_refl]|].
    by apply calm_refused. }
  zbool. set (c := mkAuditContext _ _ _) in *.
  pose proof (acquire_looks (len (encoded ++ [x0a])) c (s_env s) (a_pool a) (ao_pool _ A)) as X.
  pose proof (pool_runs_acquire (len (encoded ++ [x0a])) c (s_env s) (a_pool a)) as Ru.
  change (a_pool (a <| a_sequence ::= inc |>)) with (a_pool a) in *.
  destruct (AcquireContext _ c (s_env s) (a_pool a)) as [p1 [h|err]]; cbn [fst] in Ru.
  2:{ assert (Pe : a_pool (acquire_failed level err ((a <| a_sequence ::= inc |>) <| a_pool := p1 |>)).1 = p1
        ∧ handles (acquire_failed level err ((a <| a_sequence ::= inc |>) <| a_pool := p1 |>)).1 = handles a
        ∧ a_queue (acquire_failed level err ((a <| a_sequence ::= inc |>) <| a_pool := p1 |>)).1 = a_queue a
        ∧ (acquire_failed level err ((a <| a_sequence ::= inc |>) <| a_pool := p1 |>)).2 ≠ Accepted).
      { unfold acquire_failed. by destruct_ifs. }
      destruct Pe as (Ep & Eh & Eq & Er).
      assert (Qi : ∀ items, queued_items a items → queued_items
        (acquire_failed level err ((a <| a_sequence ::= inc |>) <| a_pool := p1 |>)).1 items)
        by (unfold queued_items; by rewrite Eq).
      split.
      - eapply (appender_ok_published None InvalidLease); [exact A| |exact Bal|by rewrite Ep].
        apply pub_refused; [done|by rewrite Ep|done|done].
      - apply calm_refused; [done|by rewrite Ep|done]. }
  destruct X as (Nh & [id Lk] & K).
  rewrite pool_call_eq in *. cbn [pool_do] in *.
  change (a_pool ((a <| a_sequence ::= inc |>) <| a_pool := p1 |>)) with p1 in *.
  pose proof (SetBytes_looks h (encoded ++ [x0a]) p1 id [] Lk) as Sb.
  assert (I1 : inv (skeleton p1)) by (destruct (pool_runs_ok _ _ Ru (ao_pool _ A) (ao_lengths _ A)); done).
  pose proof (λ h' Hne, looks_other (DoSetBytes h (encoded ++ [x0a])) p1 h h' I1 eq_refl Hne) as So.
  pose proof (pool_runs_call (DoSetBytes h (encoded ++ [x0a])) _ _ Ru) as Ru2. cbn [pool_do] in So, Ru2.
  destruct (SetBytes h (encoded ++ [x0a]) p1) as [p2 [e|]] eqn:Es; cbn [fst snd] in *.
  - assert (B2 : in_state p2 StateBorrowed h).
    { destruct (looks_state _ _ _ _ _ Lk) as (l & Hl & Hs).
      destruct (PoolSafety.accepted (DoSetBytes h (encoded ++ [x0a])) p1 h l StateBorrowed)
        as (_ & l' & Hl' & Hs' & _); [done|done|cbn; by rewrite Hs|].
      cbn in Hl'. rewrite Es in Hl'. by exists l'. }
    destruct (Release_looks h (s_now s) p2 (or_introl B2)) as [_ Rt].
    assert (I2 : inv (skeleton p2)) by (destruct (pool_runs_ok _ _ Ru2 (ao_pool _ A) (ao_lengths _ A)); done).
    assert (K3 : ∀ h', h' ≠ h → looks (Release (Some h) (s_now s) p2).1 h' = looks (a_pool a) h').
    { intros h' Hne. pose proof (looks_other (DoRelease (Some h) (s_now s)) p2 h h' I2 eq_refl Hne) as Lo.
      cbn [pool_do] in Lo. rewrite Lo, So by done.
      by apply K. }
    rewrite pool_call_eq in *. cbn [pool_do fst snd reject] in *. split.
    + apply (ok_fresh h _ _ A Nh Bal); [by apply (pool_runs_call (DoRelease (Some h) (s_now s)))|exact K3|done|done].
    + by apply (returned_refused _ _ _ _ _ _ _ _ h).
  - set (a2 := _ <| a_pool := p2 |>) in *.
    set (a3 := a2 <| handles ::= _ |>) in *.
    assert (Hd : handles a3 = handles a ++ [mkHandle h id name false false]).
    { cbn. unfold inner_ID. cbn. by rewrite (looks_ID _ _ _ _ _ (Sb eq_refl)). }
    assert (A3 : appender_ok a3).
    { eapply (ok_new_handle _ a3 h name id (encoded ++ [x0a])); [exact A|exact Nh|by apply Sb| |exact Ru2|exact Hd|done|done].
      intros h' Hne. cbn. rewrite So by done. by apply K. }
    assert (Ln : length (handles a2) = (length (handles a3) - 1)%nat).
    { rewrite Hd, length_app. cbn. lia. }
    rewrite Ln. clear Bal Ln.
    assert (Ep : a_pool a3 = p2) by done. assert (Eq : a_queue a3 = a_queue a) by done. clearbody a3.
    pose proof (log_publish name level message fields s a a3 h id encoded A3 H0 Nh Me Big) as Y.
    cbv zeta in Y. destruct (TryPublishLease level (Some _) a3) as [a4 r]. apply Y; [|..|done|].
    + rewrite Ep. by apply Sb.
    + intros h' Hne. rewrite Ep, So by done. by apply K.
    + rewrite Hd. rewrite lookup_app_r; rewrite length_app; cbn; [|lia].
      by replace (_ - _)%nat with O by lia.
Qed.
End Logging.
