(* ===== verification/AppenderProps.v ===== *)
(** * The appender's properties

    [api_step] interleaves calls of the public API with what the flusher does to
    the ring and the pool; [appender_ok] (AppenderSafety.v) holds in every reachable
    appender.  The properties: the counters, the agreement of handles and leases,
    the result and the ownership of a published lease, and logging. *)

From stdpp Require Import gmap strings list fin_maps.
From Stdlib Require Import ZArith Lia.
From Stdlib.Strings Require Import Byte.
From S2P Require Import Prelude GoLib Ring Pool PoolInv PoolSafety Flusher FlushInv Appender AppenderSafety.

(** What the flusher does: it takes the next lease and marks it in flight. *)
Definition take_next (a : Appender) : Appender :=
  match Ring.TryConsume (a_queue a) with
  | (q, Some h) => a <| a_queue := q |> <| a_pool ::= λ p, (MarkInFlight h p).1 |>
  | (q, None) => a <| a_queue := q |>
  end.

Section Api.
Context {F : Type} (marshal : @eventRecord F → result (list byte)).

Inductive api_step : Appender → Appender → Prop :=
| api_log name level message fields s a : 0 <= level → api_step a (log marshal name level message fields s a).1
| api_publish level lease a : 0 <= level → api_step a (TryPublishLease level lease a).1
| api_acquire capacity e a : api_step a (Appender.Acquire capacity e a).1
| api_acquire_for level capacity e a : api_step a (AcquireFor level capacity e a).1
| api_write lease data a : api_step a (Lease_Write lease data a).1.1
| api_set_bytes lease data a : api_step a (Lease_SetBytes lease data a).1
| api_commit lease n a : api_step a (Lease_Commit lease n a).1
| api_context lease level name a : api_step a (Lease_SetAuditContext lease level name a).1
| api_release lease now a : api_step a (Lease_Release lease now a).1
| api_close_begin a : api_step a (close_begin a)
| api_close_end err a : api_step a (close_end err a)
| api_close_ring a : api_step a (a <| a_queue ::= Ring.Close |>)
| api_flusher f a : api_step a (a <| a_flusher := f |>)
| api_take a : api_step a (take_next a)
| api_give h now a : in_state (a_pool a) StateInFlight h →
    api_step a (a <| a_pool ::= λ p, (Release (Some h) now p).1 |>)
| api_scan now a : api_step a (a <| a_pool ::= λ p, (ScanOverdue now p).1 |>).

Definition api_init (a : Appender) : Prop := ∃ c options, New c options = Ok a.

Definition api_reach : Appender → Prop := reach api_init api_step.

(** ** [appender_ok] is preserved *)

Lemma ok_New c options a : New c options = Ok a → appender_ok a.
Proof.
  unfold New. intros (c1 & _ & (c2 & _ & (q & Q & (p & P & (f & _ & [= <-])%bind_Ok)%bind_Ok)%bind_Ok)%bind_Ok)%bind_Ok.
  constructor; cbn; try done.
  - by apply New_inv in P.
  - unfold Pool.New in P. apply bind_Ok in P as (c' & _ & [= <-]). by intros h l.
  - constructor; cbn; try done. by repeat constructor.
  - pose proof (New_abs _ q 0 Q ltac:(lia)) as B. rewrite (New_seed _ _ Q) in B.
    eexists. split; [exact B|]. cbn. split; constructor.
Qed.

(** A lease the appender owns moves on. *)
Lemma handle_moves op h z z' p l :
  inv (skeleton p) → handle_ok p l → inner l = h → in_state p z h → target op = Some h →
  lifecycle op z = Some z' → z ≠ StateBorrowed → z ≠ StateReturned → z' ≠ StateBorrowed →
  handle_ok (pool_do op p).1 l.
Proof.
  intros I (z0 & b & Lk & H1 & H2 & H3) Ei (pl & Hl & Hs) T Lc N1 N2 N3. subst z.
  destruct (PoolSafety.accepted op p h pl z' T Hl Lc) as (_ & pl' & Hl' & Hs' & Hid).
  unfold looks in Lk. rewrite Ei, Hl in Lk. cbn in Lk. injection Lk as E1 E2 _.
  exists z', (Payload (pool_do op p).1 pl'). unfold looks. rewrite Ei, Hl'. cbn.
  split_and!; [by rewrite Hs', Hid, E1| | |done].
  - intros T1 R1. destruct N1. rewrite E2. by apply H1.
  - intros R. destruct N2. rewrite E2. by apply H2.
Qed.

Lemma ok_owned op h z z' a a' :
  appender_ok a → in_state (a_pool a) z h → target op = Some h → lifecycle op z = Some z' →
  z ≠ StateBorrowed → z ≠ StateReturned → z' ≠ StateBorrowed →
  a_pool a' = (pool_do op (a_pool a)).1 → handles a' = handles a → counters a' = counters a →
  (∃ f, bq_abs (a_queue a') f ∧ NoDup (f_items f) ∧ h ∉ f_items f ∧
     Forall (in_state (a_pool a) StateQueued) (f_items f)) →
  appender_ok a'.
Proof.
  intros A Z T Lc N1 N2 N3 Ep Eh Ec Q. apply (ok_step h a); try done.
  - apply (balanced_same a); [done|apply A].
  - rewrite Ep. apply pool_runs_call, pool_runs_refl.
  - intros h' Hne. rewrite Ep. by apply (looks_other op _ h); [apply A|..].
  - rewrite Eh, Ep. intros n l E. exists l. split_and!; try done. intros Ei.
    by eapply (handle_moves op h z z'); [apply A|eapply (ao_handles a A)|..].
Qed.

Lemma ok_take a : appender_ok a → appender_ok (take_next a).
Proof.
  intros A. destruct (ao_queue a A) as (f & Q & N & Fq).
  destruct (bq_consume_ok _ _ Q) as [R B]. cbn in R, B. unfold take_next.
  destruct (Ring.TryConsume (a_queue a)) as [q [h|]]; cbn in R, B.
  - destruct f as [cap [|v items] cl]; cbn in *; [done|]. injection R as ->.
    apply NoDup_cons in N as [N1 N2]. apply Forall_cons in Fq as [F1 F2].
    eapply (ok_owned (DoMarkInFlight v) v StateQueued StateInFlight a); try done.
    exists (mkFifo cap items cl). split; [exact B|]. done.
  - destruct f as [cap [|v items] cl]; cbn in *; [|done]. destruct A as [I L Ba Ho Hi _].
    constructor; try done; [by apply (balanced_same a)|].
    exists (mkFifo cap [] cl). split; [exact B|]. split; constructor.
Qed.

Lemma ok_step_api a a' : api_step a a' → appender_ok a → appender_ok a'.
Proof.
  intros St A. destruct St as [name level message fields s a H0|level lease a H0|capacity e a|level capacity e a
    |lease data a|lease data a|lease n a|lease level name a|lease now a|a|err a|a|fl a|a|h now a G|now a].
  - unfold log. destruct (Level_valid level) eqn:V; cbn [negb].
    2:{ eapply (appender_ok_published None InvalidLease); [done|by apply pub_refused|by apply balanced_invalid, A|apply pool_runs_refl]. }
    assert (Rj : ∀ r a0, a_pool a0 = a_pool a → handles a0 = handles a → a_queue a0 = a_queue a →
      counters a0 = counters a → r ≠ Accepted → r ≠ Filtered → appender_ok (reject level r (attempt_at level a0)).1).
    { intros r a0 E1 E2 E3 E4 N1 N2. eapply (appender_ok_published None InvalidLease); [exact A| | |].
      - apply pub_refused; [done|intros h; destruct r; cbn; by rewrite E1|destruct r; cbn; done|].
        intros items Q. unfold queued_items in *. destruct r; cbn; by rewrite E3.
      - apply balanced_reject; try done. apply (balanced_same a); [done|apply A].
      - destruct r; cbn; rewrite E1; apply pool_runs_refl. }
    destruct (level <? _); [by apply (ok_calm a); [..|apply pool_runs_refl| | |]|].
    destruct (a_closed a); [by apply Rj|]. cbv zeta.
    destruct (marshal _) as [encoded|] eqn:Me; [|by apply Rj].
    assert (A0 : appender_ok (a <| a_sequence ::= inc |>))
      by (by apply (ok_calm a); [..|apply pool_runs_refl| | |]).
    by eapply (log_encoded_spec marshal name level message fields s a).
  - by apply ok_TryPublishLease.
  - by apply ok_acquire.
  - unfold AcquireFor. destruct (negb _); [done|by apply ok_acquire].
  - by apply ok_Lease_Write.
  - by apply ok_Lease_SetBytes.
  - by apply ok_Lease_Commit.
  - by apply ok_Lease_SetAuditContext.
  - by apply ok_Lease_Release.
  - unfold close_begin. destruct (closeStarted a); [done|]. by apply (ok_calm a); [..|apply pool_runs_refl| | |].
  - apply (ok_calm a); try done.
    apply (pool_runs_call DoClose), pool_runs_refl.
  - destruct A as [I L Ba Ho Hi (f & Q & N & Fq)]. constructor; try done; [by apply (balanced_same a)|].
    exists (fifo_close f). split; [exact (bq_close_ok _ _ Q)|]. done.
  - by apply (ok_calm a); [..|apply pool_runs_refl| | |].
  - by apply ok_take.
  - eapply (ok_owned (DoRelease (Some h) now) h StateInFlight StateReturned a); try done.
    destruct (ao_queue a A) as (f & Q & N & Fq). exists f. split_and!; try done. intros Hx.
    rewrite Forall_forall in Fq. by pose proof (in_state_fun _ _ _ _ G (Fq _ Hx)).
  - destruct A as [I L Ba Ho Hi (f & Q & N & Fq)].
    assert (C : calm (a_pool a) (ScanOverdue now (a_pool a)).1).
    { intros h. unfold looks. unfold ScanOverdue. destruct (decide _); [done|]. cbn. unfold scan_add.
      by destruct (_ =? 0). }
    constructor; cbn; try done.
    + by rewrite scan_skeleton.
    + by apply scan_lengths.
    + by apply (balanced_same a).
    + intros n l E. by eapply calm_handle, Ho.
    + exists f. split; [exact Q|]. split; [exact N|]. eapply Forall_impl; [done|]. intros x Hx. by eapply calm_state.
Qed.

Lemma reach_ok a : api_reach a → appender_ok a.
Proof.
  revert a. apply reach_invariant.
  - intros a (c & options & N). by eapply ok_New.
  - intros a a' _ A St. by eapply ok_step_api.
Qed.
(** ** Properties *)

(** Accounting.  In every reachable appender the counters of Stats balance,
    modulo 2^64: publish attempts are the accepted events and the four kinds of
    rejections; at every level attempts are accepted and dropped events; the levels'
    accepted events add up to the total. *)
Theorem appender_accounting a :
  api_reach a →
  let s := Appender_Stats a in
  u64 (PublishAttempts s) = u64 (st_Accepted s +
    (RejectedFull s + RejectedClosed s + RejectedOversized s + RejectedInvalid s)) ∧
  Forall (λ x, u64 (Attempts x.2) = u64 (ls_Accepted x.2 + Dropped x.2)) (ByLevel s) ∧
  u64 (st_Accepted s) = u64 (foldr (λ x n, ls_Accepted x.2 + n) 0 (ByLevel s)).
Proof.
  intros R. destruct (ao_balanced a (reach_ok a R)) as [A B C D]. cbn. unfold by_level.
  destruct (levels a) as [|l0 [|l1 [|l2 [|l3 [|]]]]]; try done.
  rewrite !Forall_cons in B. destruct B as (B0 & B1 & B2 & B3 & _).
  split; [exact A|]. split; [by repeat constructor|]. exact C.
Qed.

(** C34. Handles and leases agree.  In every reachable appender a handle names an
    existing lease of the pool by its identifier, and no two handles name the same
    one; the lease is BORROWED while the handle is neither transferred nor released,
    RETURNED once it is released, and no longer BORROWED once it is transferred. *)
Theorem handles_typed a n l :
  api_reach a → handles a !! n = Some l →
  (∃ pl, leases (a_pool a) !! inner l = Some pl ∧ l_id pl = lh_id l ∧
     (transferred l = false → released l = false → l_state pl = StateBorrowed) ∧
     (released l = true → l_state pl = StateReturned) ∧
     (transferred l = true → l_state pl ≠ StateBorrowed)) ∧
  (∀ n' l', handles a !! n' = Some l' → inner l' = inner l → n' = n).
Proof.
  intros R E. pose proof (reach_ok a R) as A. split.
  - destruct (ao_handles a A n l E) as (z & b & Lk & H). unfold looks in Lk.
    destruct (leases (a_pool a) !! inner l) as [pl|]; [|done]. injection Lk as E1 E2 _.
    exists pl. by rewrite E2.
  - intros n' l' E' Ei. by eapply (ao_inner a A).
Qed.

(** The result prescribed for a call of [TryPublishLease] by the state of the ring. *)
Definition expected_result (level : Z) (lease : option nat) (a : Appender) (f : fifo nat) : PublishResult :=
  match publishable level lease a with
  | None => InvalidLease
  | Some (_, l) =>
      if level <? MinLevel (a_config a) then Filtered
      else if a_closed a then Closed
      else if MaxEventBytes (a_config a) <? inner_Len a (inner l) then Oversized
      else match (fifo_publish f (Some (inner l))).2 with
           | PublishAccepted => Accepted
           | PublishFull => QueueFull
           | _ => Closed
           end
  end.

(** The result of publishing.  A call of [TryPublishLease] answers: invalid for
    a nil, foreign, released, transferred or empty lease or an invalid level; else
    filtered below the minimum level; else closed; else oversized; else as the ring,
    seen as a bounded queue, answers.  The lease's own transitions never fail. *)
Theorem publish_result level lease a f :
  api_reach a → bq_abs (a_queue a) f →
  (TryPublishLease level lease a).2 = expected_result level lease a f.
Proof.
  intros R Q. pose proof (reach_ok a R) as A. unfold TryPublishLease, expected_result.
  destruct (publishable level lease a) as [[n l]|] eqn:P; [|done].
  apply publishable_valid in P as (V & E & _ & Rl & T & _).
  destruct (level <? _); [done|]. cbv zeta. change (a_closed (attempt_at level a)) with (a_closed a).
  destruct (a_closed a); [done|].
  change (inner_Len (attempt_at level a) (inner l)) with (inner_Len a (inner l)).
  change (a_config (attempt_at level a)) with (a_config a). destruct (_ <? _); [done|].
  pose proof (usable_borrowed a n l A E T Rl) as B. set (c := mkAuditContext _ _ _).
  rewrite (pool_call_eq (DoSetAuditContext _ _)). cbn [pool_do].
  change (a_pool (attempt_at level a)) with (a_pool a).
  destruct (SetAuditContext_calm (inner l) c (a_pool a) B) as (E1 & C1 & L1). rewrite E1.
  set (p1 := (SetAuditContext (inner l) c (a_pool a)).1) in *.
  assert (I1 : inv (skeleton p1)) by (apply (inv_do (DoSetAuditContext (inner l) c)), A).
  assert (B1 : in_state p1 StateBorrowed (inner l)) by (unfold in_state in *; by rewrite L1).
  rewrite (pool_call_eq (DoMarkQueued _)). cbn [pool_do].
  change (a_pool ((attempt_at level a) <| a_pool := p1 |>)) with p1.
  destruct (MarkQueued_moved (inner l) p1 I1 B1) as [E2 _]. rewrite E2.
  unfold publish_queued. cbn [a_queue].
  pose proof (bq_publish_ok _ _ (Some (inner l)) Q) as [Rq _]. cbn [bq_publish ring_queue] in Rq.
  rewrite <- Rq. change (a_queue _) with (a_queue a) at 1.
  destruct (Ring.TryPublish (a_queue a) (Some (inner l))) as [q []] eqn:Tq; try done.
  cbn in Rq. exfalso. clear - Rq. cbn in Rq. destruct f as [cap its cl]. cbn in Rq. by destruct_ifs.
Qed.

(** C9. Ownership.  A usable handle is transferred exactly when [TryPublishLease]
    returns Accepted: then its lease is QUEUED and last in the ring, the handle can no
    longer be used, and releasing it is refused.  With every other result the handle,
    every lease's state and payload and the content of the ring are as before, and
    the caller's Release succeeds. *)
Theorem publish_ownership a level n l now :
  api_reach a → handles a !! n = Some l → transferred l = false → released l = false →
  let a' := (TryPublishLease level (Some n) a).1 in
  if decide ((TryPublishLease level (Some n) a).2 = Accepted) then
    in_state (a_pool a') StateQueued (inner l) ∧ usable (Some n) a' = None ∧
    (Lease_Release (Some n) now a').2 = Some ErrLeaseTransferred ∧
    (∀ items, queued_items a items → queued_items a' (items ++ [inner l]))
  else
    handles a' = handles a ∧ calm (a_pool a) (a_pool a') ∧
    (∀ items, queued_items a items → queued_items a' items) ∧
    (Lease_Release (Some n) now a').2 = None.
Proof.
  intros R E T Rl. pose proof (reach_ok a R) as A. cbv zeta.
  pose proof (TryPublishLease_published level (Some n) a A) as P.
  destruct (TryPublishLease level (Some n) a) as [a' r]. cbn [fst snd] in *.
  destruct (ao_handles a A n l E) as (z & b & Lk & Z & _). rewrite (Z T Rl) in Lk.
  destruct P as [n' l' [= <-] E' T' R' [M1 M2] B Eh It|r Hr C Eh It].
  - rewrite E in E'. injection E' as <-. rewrite Lk in M2. cbn in M2.
    assert (Hn : handles a' !! n = Some (l <| transferred := true |>)).
    { rewrite Eh. apply list_lookup_insert_eq. by apply lookup_lt_Some in E. }
    destruct (decide (Accepted = Accepted)); [|done]. split_and!; try done.
    + by eapply looks_state.
    + unfold usable. by rewrite Hn.
    + unfold Lease_Release. rewrite Hn. cbn. unfold inner_ID.
      by rewrite (looks_ID _ _ _ _ _ M2), Z.eqb_refl.
  - destruct (decide (r = Accepted)); [done|]. split_and!; try done.
    assert (Lk' : looks (a_pool a') (inner l) = Some (lh_id l, StateBorrowed, b)) by (by rewrite C).
    unfold Lease_Release. rewrite Eh, E, T, Rl. unfold inner_ID.
    rewrite (looks_ID _ _ _ _ _ Lk'), Z.eqb_refl. cbn [negb]. rewrite pool_call_eq. cbn [snd].
    apply Release_looks. left. by eapply looks_state.
Qed.

(** C11. Logging leaks nothing.  [log] either is accepted: then exactly one new lease
    holds the encoded event and its newline, at most [MaxEventBytes] of them, QUEUED
    and last in the ring; or it leaves the ring and every existing lease as they were
    and has returned every lease it took. *)
Theorem log_no_leak a name level message fields s :
  api_reach a → 0 <= level →
  let a' := (log marshal name level message fields s a).1 in
  if decide ((log marshal name level message fields s a).2 = Accepted) then
    ∃ encoded h id,
      marshal (make_event name level message fields s (inc (a_sequence a))) = Ok encoded ∧
      len (encoded ++ [x0a]) <= MaxEventBytes (a_config a) ∧ leases (a_pool a) !! h = None ∧
      looks (a_pool a') h = Some (id, StateQueued, encoded ++ [x0a]) ∧
      (∀ h', h' ≠ h → looks (a_pool a') h' = looks (a_pool a) h') ∧
      (∀ items, queued_items a items → queued_items a' (items ++ [h]))
  else
    (∀ h, is_Some (leases (a_pool a) !! h) → looks (a_pool a') h = looks (a_pool a) h) ∧
    (∀ h, leases (a_pool a) !! h = None → is_Some (leases (a_pool a') !! h) →
       in_state (a_pool a') StateReturned h) ∧
    (∀ items, queued_items a items → queued_items a' items).
Proof.
  intros R H0. pose proof (reach_ok a R) as A. cbv zeta.
  assert (L : logged marshal name level message fields s a
    (log marshal name level message fields s a).1 (log marshal name level message fields s a).2).
  { assert (Rj : ∀ r a0, a_pool a0 = a_pool a → a_queue a0 = a_queue a → r ≠ Accepted →
      logged marshal name level message fields s a (reject level r (attempt_at level a0)).1 r).
    { intros r a0 E1 E2 N. apply calm_refused; [done|intros h; destruct r; cbn; by rewrite E1|].
      intros items Q. unfold queued_items in *. destruct r; cbn; by rewrite E2. }
    unfold log. destruct (Level_valid level) eqn:V; cbn [negb]; [|by apply calm_refused].
    destruct (level <? _); [by apply calm_refused|]. destruct (a_closed a); [by apply Rj|]. cbv zeta.
    destruct (marshal _) as [encoded|] eqn:Me; [|by apply Rj].
    assert (A0 : appender_ok (a <| a_sequence ::= inc |>))
      by (by apply (ok_calm a); [..|apply pool_runs_refl| | |]).
    by eapply (log_encoded_spec marshal name level message fields s a). }
  destruct (log marshal name level message fields s a) as [a' r]. cbn [fst snd] in *.
  destruct L as [encoded h id Me Big N Lk K It|r Hr K1 K2 It].
  - destruct (decide (Accepted = Accepted)); [|done]. by exists encoded, h, id.
  - destruct (decide (r = Accepted)); [done|]. done.
Qed.
End Api.

(** ** Instances *)

(** An encoder that keeps the message. *)
Definition plain (e : @eventRecord unit) : result (list byte) :=
  Ok (Stdlib.Strings.String.list_byte_of_string (Message e)).

Definition example_app_config : Appender.Config :=
  Appender.mkConfig "" InfoLevel 2 0 0 0 0 0 8 [4; 8] AuditUnset 0 0 0 0 0 "" false.

Definition example_app : Appender :=
  Eval vm_compute in
  match New example_app_config [] with
  | Ok a => a
  | Err _ => mkAppender example_app_config (mkQueue 0 0 0 0 [] false 0 0 0 0 0 0 0) example_pool
               (mkFlusher (flusher_config example_app_config) false false false false 0 0 0 0 0 0 0 0 0
                  false false false false None None)
               false 0 0 0 0 0 0 0 0 [] false false None []
  end.

Definition example_site : call_site := mkSite 5 "" None (example_env None 5).

(** One event is logged, a lease is acquired and filled. *)
Definition app1 : Appender := Eval vm_compute in (log plain "app" InfoLevel "hello" [] example_site example_app).1.
Definition app2 : Appender := Eval vm_compute in (AcquireFor WarnLevel 4 (example_env None 6) app1).1.
Definition app3 : Appender := Eval vm_compute in (Lease_SetBytes (Some 1%nat) [x01; x02] app2).1.

Definition handle1 : Appender.Lease := Eval vm_compute in default (mkHandle 0 0 "" true true) (handles app3 !! 1%nat).

Lemma app1_reach : api_reach plain app1.
Proof.
  assert (app1 = (log plain "app" InfoLevel "hello" [] example_site example_app).1) as -> by (vm_compute; reflexivity).
  eapply reach_step; [apply reach_init|by apply api_log].
  exists example_app_config, []. vm_compute. reflexivity.
Qed.

Lemma app3_reach : api_reach plain app3.
Proof.
  assert (app3 = (Lease_SetBytes (Some 1%nat) [x01; x02] app2).1) as -> by (vm_compute; reflexivity).
  eapply reach_step; [|apply api_set_bytes].
  assert (app2 = (AcquireFor WarnLevel 4 (example_env None 6) app1).1) as -> by (vm_compute; reflexivity).
  eapply reach_step; [apply app1_reach|apply api_acquire_for].
Qed.

Lemma appender_accounting_witness :
  PublishAttempts (Appender_Stats app1) = 1 ∧ u64 1 = u64 (1 + (0 + 0 + 0 + 0)).
Proof. split; [reflexivity|]. exact (proj1 (appender_accounting plain app1 app1_reach)). Defined.

Lemma handles_typed_witness :
  ∃ pl, leases (a_pool app3) !! inner handle1 = Some pl ∧ l_state pl = StateBorrowed.
Proof.
  destruct (handles_typed plain app3 1 handle1) as [(pl & E & _ & B & _) _];
    [apply app3_reach|vm_compute; reflexivity|].
  exists pl. split; [exact E|]. apply B; reflexivity.
Defined.

Lemma publish_result_witness :
  ∃ f, bq_abs (a_queue app1) f ∧ (TryPublishLease InfoLevel (Some 0%nat) app1).2 = InvalidLease.
Proof.
  destruct (ao_queue app1 (reach_ok plain app1 app1_reach)) as (f & Q & _).
  exists f. split; [exact Q|].
  rewrite (publish_result plain InfoLevel (Some 0%nat) app1 f app1_reach Q). vm_compute. reflexivity.
Defined.

Lemma publish_ownership_witness :
  (TryPublishLease WarnLevel (Some 1%nat) app3).2 = Accepted ∧
  (Lease_Release (Some 1%nat) 9 (TryPublishLease WarnLevel (Some 1%nat) app3).1).2 = Some ErrLeaseTransferred.
Proof.
  assert (E : (TryPublishLease WarnLevel (Some 1%nat) app3).2 = Accepted) by (vm_compute; reflexivity).
  split; [exact E|].
  pose proof (publish_ownership plain app3 WarnLevel 1 handle1 9 app3_reach eq_refl eq_refl eq_refl) as P.
  cbv zeta in P. rewrite E in P. destruct (decide (Accepted = Accepted)) as [_|N]; [|destruct (N eq_refl)].
  exact (proj1 (proj2 (proj2 P))).
Defined.

Lemma log_no_leak_witness :
  (log plain "app" InfoLevel "much too long" [] example_site app1).2 = Oversized ∧
  ∀ h, is_Some (leases (a_pool app1) !! h) →
    looks (a_pool (log plain "app" InfoLevel "much too long" [] example_site app1).1) h = looks (a_pool app1) h.
Proof.
  assert (E : (log plain "app" InfoLevel "much too long" [] example_site app1).2 = Oversized)
    by (vm_compute; reflexivity).
  split; [exact E|].
  pose proof (log_no_leak plain app1 "app" InfoLevel "much too long" [] example_site app1_reach) as P.
  cbv zeta in P. rewrite E in P. destruct (decide (Oversized = Accepted)) as [N|_]; [discriminate N|].
  apply P. vm_compute. discriminate.
Defined.
