(* ===== verification/SharedSink.v ===== *)
(** * One log file for two writers (cmd/minilogbackd/runtime.go)

    With the file sink the service hands the same [FileSink] to the appender's
    flusher and, behind the deduplication table, to the collector.  The sink keeps
    the cursor of a batch that failed until the same batch is offered again. *)

From stdpp Require Import gmap strings list fin_maps.
From Stdlib Require Import ZArith Lia.
From Stdlib.Strings Require Import Byte.
From S2P Require Import Prelude GoLib Dedupe Sink FileSink.

Section Shared.
Context `{WriteFn}.

(** The fuel, the contexts and the duration of one call. *)
Definition attempt : Type := nat * contexts * Z.

(** The sink as the table's work sees it; [None]: the fuel of a call was short. *)
Definition write_shared (a : attempt) (rs : list (list byte)) (f : option FileSink)
  : option FileSink * option error :=
  match f with
  | None => (None, None)
  | Some f =>
      match FileSink_WriteBatch a.1.1 a.1.2 a.2 rs f with
      | Some (f, err) => (Some f, err)
      | None => (None, None)
      end
  end.

(** A batch of the flusher, or one the collector read from a client. *)
Inductive offer :=
  | OnFlush (a : attempt) (rs : list (list byte))
  | OnFrame (key : BatchKey) (ctx_err : option error) (a : attempt) (rs : list (list byte)).

Definition offered (o : offer) : list (list byte) :=
  match o with OnFlush _ rs => rs | OnFrame _ _ _ rs => rs end.

(** The answer is the collector's: whether the batch is a duplicate, the error. *)
Definition serve_offer (o : offer) (d : Dedupe) (f : option FileSink)
  : option (Dedupe * option FileSink * (bool * option error)) :=
  match o with
  | OnFlush a rs => let '(f, err) := write_shared a rs f in Some (d, f, (false, err))
  | OnFrame key ctx_err a rs => Do ctx_err key (write_shared a rs) d f
  end.

Fixpoint serve_offers (os : list offer) (d : Dedupe) (f : option FileSink)
  : option (Dedupe * option FileSink * list (bool * option error)) :=
  match os with
  | [] => Some (d, f, [])
  | o :: os =>
      '(d, f, answer) ← serve_offer o d f;
      '(d, f, answers) ← serve_offers os d f;
      Some (d, f, answer :: answers)
  end.

(** ** Another batch while one is under way *)

(** The sink in the middle of the batch [b]. *)
Record held (b : list (list byte)) (f : FileSink) : Prop := mkHeld {
  hd_file : file f ≠ NilFile;
  hd_closed : Closed (fs_counters f) = false;
  hd_active : active (fs_pending f) = true;
  hd_records : records (fs_pending f) = b
}.

Lemma held_refuses b f a rs :
  held b f → rs ≠ b → write_shared a rs (Some f) = (Some (fs_error f), Some ErrBatchChanged).
Proof.
  intros [H1 H2 H3 H4] Hne. unfold write_shared, FileSink_WriteBatch.
  rewrite bool_decide_eq_false_2, H2 by done. cbn [orb]. unfold begin. rewrite H3, H4.
  assert (Hf : f <| fs_pending := fs_pending f |> = f) by (by destruct f).
  destruct (negb (length b =? length rs)%nat); [by rewrite Hf|].
  rewrite bool_decide_eq_false_2 by congruence. cbn [negb]. by rewrite Hf.
Qed.

Lemma held_error b f : held b f → held b (fs_error f).
Proof. intros []. by split. Qed.

(** ** A key's place in the table *)

Lemma elem_of_take_filter {A} (P : A → Prop) `{!∀ x, Decision (P x)} x n (l : list A) :
  P x → x ∈ take n l → x ∈ take n (filter P l).
Proof.
  intros HP. revert n. induction l as [|y l IH]; intros [|n] Hin; try (by apply elem_of_nil in Hin).
  cbn in Hin. apply elem_of_cons in Hin as [->|Hin].
  - rewrite filter_cons_True by done. by left.
  - rewrite filter_cons. case_decide; [right; auto|].
    specialize (IH _ Hin). rewrite <- (take_drop n (take (S n) _)), take_take, Nat.min_l by lia.
    apply elem_of_app. by left.
Qed.

Lemma touch_keeps k k' n ks : k ∈ take n ks → k ∈ take (S n) (lru_touch k' ks).
Proof.
  intros Hin. unfold lru_touch. cbn. destruct (decide (k = k')) as [->|Hk]; [by left|right].
  by apply elem_of_take_filter.
Qed.

Lemma push_keeps cap k k' n ks : (S n <= Z.to_nat cap)%nat → k ∈ take n ks → k ∈ take (S n) (lru_push cap k' ks).
Proof. intros Hn Hin. unfold lru_push. rewrite take_take, Nat.min_l by lia. cbn. by right. Qed.

Lemma in_take {A} (x : A) n l : x ∈ take n l → x ∈ l.
Proof. intros. rewrite <- (take_drop n l). apply elem_of_app. by left. Qed.

(** What the blocked sink and the table answer. *)
Definition blocked_answer (k : BatchKey) (o : offer) (answer : bool * option error) : Prop :=
  match o with
  | OnFlush _ _ => answer = (false, Some ErrBatchChanged)
  | OnFrame key _ _ _ => answer = (true, None) ∨ key ≠ k ∧ answer = (false, Some ErrBatchChanged)
  end.

(** The offers after a failure: other records, or the failed batch's own key again. *)
Definition elsewhere (k : BatchKey) (b : list (list byte)) (o : offer) : Prop :=
  offered o ≠ b ∨ match o with OnFrame key _ _ _ => key = k | _ => False end.

Lemma serve_blocked k b o n d f :
  held b f → dedupe_wf d → d_pending d = ∅ → k ∈ take n (keys d) → (S n <= Z.to_nat (capacity d))%nat →
  elsewhere k b o →
  ∃ d' f' answer, serve_offer o d (Some f) = Some (d', Some f', answer) ∧ blocked_answer k o answer ∧
    held b f' ∧ log f' = log f ∧ fs_pending f' = fs_pending f ∧
    dedupe_wf d' ∧ d_pending d' = ∅ ∧ capacity d' = capacity d ∧ k ∈ take (S n) (keys d').
Proof.
  intros Hf Hd Hp Hk Hn He. destruct o as [a rs|key ctx_err a rs]; cbn [serve_offer blocked_answer].
  - destruct He as [Hne|[]]. rewrite (held_refuses b f a rs) by done.
    exists d, (fs_error f), (false, Some ErrBatchChanged). split_and!; try done; [by apply held_error|].
    rewrite <- (take_drop n (take (S n) _)), take_take, Nat.min_l by lia. apply elem_of_app. by left.
  - destruct (Do_spec ctx_err key (write_shared a rs) d (Some f) Hd Hp) as (d' & Hd' & Hp' & Hc' & Hin & Hout).
    destruct (decide (key ∈ keys d)) as [Hi|Hi].
    + destruct (Hin Hi) as [-> Hk']. exists d', f, (true, None). rewrite Hk'.
      split_and!; try done; [by left|by apply touch_keeps].
    + destruct (Hout Hi) as [-> Hk']. assert (Hkey : key ≠ k) by (intros ->; by apply Hi, (in_take k n)).
      destruct He as [Hne|He]; [|done]. rewrite (held_refuses b f a rs) by done. cbn [fst snd].
      exists d', (fs_error f), (false, Some ErrBatchChanged). rewrite Hk'.
      split_and!; try done; [by right|by apply held_error|by apply push_keeps].
Qed.

Lemma serve_all_blocked k b os : ∀ n d f,
  held b f → dedupe_wf d → d_pending d = ∅ → k ∈ take n (keys d) →
  (n + length os <= Z.to_nat (capacity d))%nat → Forall (elsewhere k b) os →
  ∃ d' f' answers, serve_offers os d (Some f) = Some (d', Some f', answers) ∧
    Forall2 (blocked_answer k) os answers ∧ log f' = log f ∧ fs_pending f' = fs_pending f.
Proof.
  induction os as [|o os IH]; intros n d f Hf Hd Hp Hk Hn Ho; [by exists d, f, []|].
  apply Forall_cons in Ho as [Ho Hos]. cbn [length] in Hn. cbn [serve_offers].
  destruct (serve_blocked k b o n d f Hf Hd Hp Hk ltac:(lia) Ho)
    as (d1 & f1 & answer & -> & Ha & Hf1 & Hl & Hpd & Hd1 & Hp1 & Hc1 & Hk1). cbn [mbind option_bind].
  destruct (IH (S n) d1 f1 Hf1 Hd1 Hp1 Hk1 ltac:(lia) Hos) as (d2 & f2 & answers & -> & Has & Hl2 & Hpd2).
  exists d2, f2, (answer :: answers). split; [done|]. split; [by constructor|]. split; congruence.
Qed.
End Shared.

(** C26. A failed batch blocks the log file.  When the sink fails on a client's
    batch, the table still records the batch as done, so the client's retry is
    acknowledged as a duplicate and never reaches the sink; and the sink, which
    holds that batch's cursor, refuses every other batch: the flusher's batches and
    every other client's fail, and nothing is written to the log, as long as nobody
    happens to offer the same records (shown for as many offers as the table holds
    entries). *)
Theorem failed_batch_blocks_file `{WriteFnLaws} k ctx_err a b os N d f d1 f1 e :
  fs_idle f → eintr_until N (d_file (fs_disk f)) → (N + length (concat b) <= a.1.1)%nat →
  dedupe_wf d → d_pending d = ∅ → k ∉ keys d →
  serve_offer (OnFrame k ctx_err a b) d (Some f) = Some (d1, Some f1, (false, Some e)) →
  Forall (elsewhere k b) os → len os < capacity d →
  ∃ d2 f2 answers, serve_offers os d1 (Some f1) = Some (d2, Some f2, answers) ∧
    Forall2 (blocked_answer k) os answers ∧ log f2 = log f1 ∧ fs_pending f2 = fs_pending f1.
Proof.
  intros Hi HN Ha Hd Hp Hk Hs Hos Hlen. cbn [serve_offer] in Hs.
  destruct (Do_spec ctx_err k (write_shared a b) d (Some f) Hd Hp) as (d' & Hd' & Hp' & Hc' & _ & Hout).
  destruct (Hout Hk) as [HD Hk']. rewrite HD in Hs.
  destruct a as [[fuel ctx] el]. cbn [fst snd] in *.
  destruct (FileSink_step _ b _ _ _ fuel ctx el N f (fs_idle_progress f b Hi) HN Ha)
    as (f' & err & HW & _ & Hinv & Herr).
  unfold write_shared in Hs. cbn [fst snd] in Hs. rewrite HW in Hs. simplify_eq/=.
  destruct Herr as [_ Hmid]. apply (serve_all_blocked k b os 1 d1 f1); try done.
  - destruct Hmid, Hinv. by split.
  - rewrite Hk'. unfold lru_push. pose proof (wf_cap d Hd).
    destruct (Z.to_nat (capacity d)) eqn:E; [lia|]. by left.
  - lia.
Qed.

(** The rename fails once in the middle of a client's batch; its retry, another
    client's batch and the flusher's. *)
Definition failing_disk : FileSink := sample_sink (mkWriter [] 0 sink_all) [None; None; Some (ErrNew "device busy")].
Definition sample_attempt : attempt := (12%nat, no_cancel, 1).
Definition later_offers : list offer :=
  [OnFrame (mkBatchKey 7 1) None sample_attempt sample_batch;
   OnFrame (mkBatchKey 8 1) None sample_attempt [[x61]]; OnFlush sample_attempt [[x62]]].

Lemma failed_batch_blocks_file_witness :
  match serve_offer (H := vectored_write) (OnFrame (mkBatchKey 7 1) None sample_attempt sample_batch)
          (NewDedupe 9) (Some failing_disk) with
  | Some (d, Some f, (false, Some _)) =>
      ∃ d2 f2 answers, serve_offers (H := vectored_write) later_offers d (Some f) = Some (d2, Some f2, answers) ∧
        Forall2 (blocked_answer (mkBatchKey 7 1)) later_offers answers ∧ log f2 = [x61; x62; x63]
  | _ => False
  end.
Proof.
  destruct (serve_offer (H := vectored_write) (OnFrame (mkBatchKey 7 1) None sample_attempt sample_batch)
    (NewDedupe 9) (Some failing_disk)) as [[[d [f|]] [[] [e|]]]|] eqn:E; try (exfalso; vm_compute in E; discriminate E).
  destruct (failed_batch_blocks_file (H := vectored_write) (mkBatchKey 7 1) None sample_attempt sample_batch later_offers
    0 (NewDedupe 9) failing_disk d f e) as (d2 & f2 & answers & H1 & H2 & H3 & _).
  - split; try reflexivity. intros i b. cbn. lia.
  - intros i b e' Hi. discriminate.
  - vm_compute. lia.
  - apply NewDedupe_wf.
  - reflexivity.
  - apply not_elem_of_nil.
  - exact E.
  - apply Forall_cons. split; [right; reflexivity|]. apply Forall_cons. split; [left; discriminate|].
    apply Forall_cons. split; [left; discriminate|]. constructor.
  - reflexivity.
  - exists d2, f2, answers. split; [exact H1|]. split; [exact H2|]. rewrite H3.
    assert (Hl : option_map log (match serve_offer (H := vectored_write) (OnFrame (mkBatchKey 7 1) None sample_attempt sample_batch)
      (NewDedupe 9) (Some failing_disk) with Some (_, f, _) => f | None => None end) = Some [x61; x62; x63])
      by (vm_compute; reflexivity).
    rewrite E in Hl. injection Hl as Hl. exact Hl.
Defined.
