(* ===== verification/GoText.v ===== *)
(** * Go's text functions, as far as the program uses them

    Strings as sequences of byte codes; [strings.TrimSpace], [Trim], [EqualFold],
    [ToUpper], [ToLower]; [strconv.ParseUint], [ParseInt], [Atoi], [ParseBool],
    [FormatUint]; [float64] arithmetic; [time.ParseDuration].  Nothing in this file
    models a file of the repository. *)

From stdpp Require Import gmap strings list fin_maps.
From Stdlib Require Import ZArith Lia.
From Stdlib.Strings Require Import Byte.
From Stdlib.Floats Require Import SpecFloat.
From S2P Require Import Prelude GoLib.

(** ** Strings *)

Definition chars (s : string) : list Z := map Z_of_byte (Stdlib.Strings.String.list_byte_of_string s).
Definition text (l : list Z) : string := Stdlib.Strings.String.string_of_list_byte (map byte_of_Z l).

(** Index of the first byte [c]; of the last one. *)
Fixpoint IndexByte (c : Z) (l : list Z) : option nat :=
  match l with
  | [] => None
  | x :: l => if x =? c then Some 0%nat else S <$> IndexByte c l
  end.

Definition LastIndexByte (c : Z) (l : list Z) : option nat :=
  (λ i, length l - S i)%nat <$> IndexByte c (rev l).

Definition ascii_space (c : Z) : bool := ((9 <=? c) && (c <=? 13)) || (c =? 32).

(** The UTF-8 encodings of the [unicode.IsSpace] runes: what follows a leading one. *)
Definition space_prefix (l : list Z) : option (list Z) :=
  match l with
  | a :: r =>
      if ascii_space a then Some r else
      match r with
      | b :: r2 =>
          if (a =? 0xC2) && ((b =? 0x85) || (b =? 0xA0)) then Some r2 else
          match r2 with
          | c :: r3 =>
              if ((a =? 0xE1) && (b =? 0x9A) && (c =? 0x80))
                 || ((a =? 0xE2) && (b =? 0x80)
                     && (((0x80 <=? c) && (c <=? 0x8A)) || (c =? 0xA8) || (c =? 0xA9) || (c =? 0xAF)))
                 || ((a =? 0xE2) && (b =? 0x81) && (c =? 0x9F))
                 || ((a =? 0xE3) && (b =? 0x80) && (c =? 0x80))
              then Some r3 else None
          | [] => None
          end
      | [] => None
      end
  | [] => None
  end.

Fixpoint trim_left (fuel : nat) (l : list Z) : list Z :=
  match fuel with
  | O => l
  | S fuel => match space_prefix l with Some r => trim_left fuel r | None => l end
  end.

(** A trailing one, on the reversed string. *)
Definition space_suffix (l : list Z) : option (list Z) :=
  match l with
  | a :: r =>
      if ascii_space a then Some r else
      match r with
      | b :: r2 =>
          match space_prefix [b; a] with
          | Some [] => Some r2
          | _ =>
              match r2 with
              | c :: r3 => match space_prefix [c; b; a] with Some [] => Some r3 | _ => None end
              | [] => None
              end
          end
      | [] => None
      end
  | [] => None
  end.

Fixpoint trim_right (fuel : nat) (l : list Z) : list Z :=
  match fuel with
  | O => l
  | S fuel => match space_suffix l with Some r => trim_right fuel r | None => l end
  end.

Definition TrimSpace (s : string) : string :=
  let l := trim_left (length (chars s)) (chars s) in
  text (rev (trim_right (length l) (rev l))).

(** [strings.Trim(s, cutset)] for an ASCII cutset. *)
Fixpoint drop_in (cutset l : list Z) : list Z :=
  match l with
  | c :: r => if bool_decide (c ∈ cutset) then drop_in cutset r else l
  | [] => []
  end.
Definition Trim (cutset l : list Z) : list Z := rev (drop_in cutset (rev (drop_in cutset l))).

Definition lower_code (c : Z) : Z := if (65 <=? c) && (c <=? 90) then c + 32 else c.
Definition upper_code (c : Z) : Z := if (97 <=? c) && (c <=? 122) then c - 32 else c.

(** [strings.ToLower], [strings.ToUpper] of ASCII text. *)
Definition ToLower (s : string) : string := text (map lower_code (chars s)).
Definition ToUpper (s : string) : string := text (map upper_code (chars s)).

(** [strings.EqualFold] with a lower-case ASCII string: beside the capitals, U+017F
    folds to [s] and U+212A to [k]. *)
Fixpoint fold_ascii (l : list Z) : list Z :=
  match l with
  | a :: ((b :: ((c :: r) as r2)) as r1) =>
      if (a =? 0xC5) && (b =? 0xBF) then 115 :: fold_ascii r2
      else if (a =? 0xE2) && (b =? 0x84) && (c =? 0xAA) then 107 :: fold_ascii r
      else lower_code a :: fold_ascii r1
  | [a; b] => if (a =? 0xC5) && (b =? 0xBF) then [115] else [lower_code a; lower_code b]
  | [a] => [lower_code a]
  | [] => []
  end.
Definition EqualFold (l : list Z) (lower : string) : bool := bool_decide (fold_ascii l = chars lower).

(** ** strconv *)

Definition strconv_ErrSyntax : error := ErrNew "invalid syntax".
Definition strconv_ErrRange : error := ErrNew "value out of range".

Definition digit (c : Z) : option Z := if (48 <=? c) && (c <=? 57) then Some (c - 48) else None.

Definition uint_cutoff : Z := (2 ^ 64 - 1) / 10 + 1.

Fixpoint uint_loop (n : Z) (l : list Z) : Z * option error :=
  match l with
  | [] => (n, None)
  | c :: l =>
      match digit c with
      | None => (0, Some strconv_ErrSyntax)
      | Some d =>
          if n >=? uint_cutoff then (2 ^ 64 - 1, Some strconv_ErrRange)
          else
            let n1 := u64 (n * 10 + d) in
            if n1 <? n * 10 then (2 ^ 64 - 1, Some strconv_ErrRange) else uint_loop n1 l
      end
  end.

(** [ParseUint(s, 10, 64)]: the value and the error it comes with. *)
Definition parse_uint (l : list Z) : Z * option error :=
  match l with [] => (0, Some strconv_ErrSyntax) | _ => uint_loop 0 l end.

Definition ParseUint (s : string) : result Z :=
  match parse_uint (chars s) with (n, None) => Ok n | (_, Some e) => Err e end.

Definition cut_sign (l : list Z) : bool * list Z :=
  match l with
  | c :: r => if c =? 45 then (true, r) else if c =? 43 then (false, r) else (false, l)
  | [] => (false, l)
  end.

(** [ParseInt(s, 10, 64)]; [Atoi] is the same function on a 64-bit machine. *)
Definition ParseInt (s : string) : result Z :=
  let '(neg, l) := cut_sign (chars s) in
  match parse_uint l with
  | (un, err) =>
      if bool_decide (err = Some strconv_ErrSyntax) then Err strconv_ErrSyntax
      else if negb neg && (2 ^ 63 <=? un) then Err strconv_ErrRange
      else if neg && (2 ^ 63 <? un) then Err strconv_ErrRange
      else Ok (if neg then - un else un)
  end.

Definition Atoi : string → result Z := ParseInt.

Definition ParseBool (s : string) : result bool :=
  if bool_decide (s ∈ ["1"; "t"; "T"; "true"; "TRUE"; "True"]) then Ok true
  else if bool_decide (s ∈ ["0"; "f"; "F"; "false"; "FALSE"; "False"]) then Ok false
  else Err strconv_ErrSyntax.

(** [FormatUint(n, 10)]; twenty digits hold every uint64. *)
Fixpoint digits (fuel : nat) (n : Z) : list Z :=
  match fuel with
  | O => []
  | S fuel => if n <? 10 then [48 + n] else digits fuel (n / 10) ++ [48 + n mod 10]
  end.
Definition FormatUint (n : Z) : string := text (digits 20 n).

(** ** float64 *)

Definition float64 : Type := spec_float.
Definition float_of (z : Z) : float64 := binary_normalize 53 1024 z 0 false.
Definition float_mul : float64 → float64 → float64 := SFmul 53 1024.
Definition float_div : float64 → float64 → float64 := SFdiv 53 1024.
Definition float_add : float64 → float64 → float64 := SFadd 53 1024.
Definition float_ltb : float64 → float64 → bool := SFltb.

(** [time.Duration.Seconds] *)
Definition Duration_Seconds (d : Z) : float64 :=
  float_add (float_of (Z.quot d 1000000000))
    (float_div (float_of (Z.rem d 1000000000)) (float_of 1000000000)).

(** [uint64(f)] of a float in range. *)
Definition uint_of_float (f : float64) : Z :=
  match f with
  | S754_finite false m e => if 0 <=? e then Zpos m * 2 ^ e else Zpos m / 2 ^ (- e)
  | _ => 0
  end.

(** ** time.ParseDuration *)

Definition invalid_duration : error := ErrNew "time: invalid duration ".
Definition missing_unit : error := ErrNew "time: missing unit in duration ".
Definition unknown_unit : error := ErrNew "time: unknown unit ".

(** Nanoseconds of a unit; the micro sign is U+00B5 or U+03BC. *)
Definition unitMap (l : list Z) : option Z :=
  if bool_decide (l = chars "ns") then Some 1
  else if bool_decide (l = chars "us") then Some 1000
  else if bool_decide (l = [0xC2; 0xB5; 115]) then Some 1000
  else if bool_decide (l = [0xCE; 0xBC; 115]) then Some 1000
  else if bool_decide (l = chars "ms") then Some 1000000
  else if bool_decide (l = chars "s") then Some 1000000000
  else if bool_decide (l = chars "m") then Some 60000000000
  else if bool_decide (l = chars "h") then Some 3600000000000
  else None.

(** [leadingInt]: [None] on overflow. *)
Fixpoint leadingInt (x : Z) (l : list Z) : option (Z * list Z) :=
  match l with
  | c :: r =>
      match digit c with
      | None => Some (x, l)
      | Some d =>
          if 2 ^ 63 / 10 <? x then None
          else let x := x * 10 + d in if 2 ^ 63 <? x then None else leadingInt x r
      end
  | [] => Some (x, [])
  end.

Fixpoint leadingFraction (x : Z) (scale : float64) (overflow : bool) (l : list Z)
  : Z * float64 * list Z :=
  match l with
  | c :: r =>
      match digit c with
      | None => (x, scale, l)
      | Some d =>
          if overflow then leadingFraction x scale true r
          else if (2 ^ 63 - 1) / 10 <? x then leadingFraction x scale true r
          else let y := x * 10 + d in
               if 2 ^ 63 <? y then leadingFraction x scale true r
               else leadingFraction y (float_mul scale (float_of 10)) false r
      end
  | [] => (x, scale, [])
  end.

Definition dot_or_digit (c : Z) : bool := (c =? 46) || bool_decide (is_Some (digit c)).

(** The bytes up to the next dot or digit. *)
Fixpoint unit_span (l : list Z) : list Z * list Z :=
  match l with
  | c :: r => if dot_or_digit c then ([], l) else let '(u, r) := unit_span r in (c :: u, r)
  | [] => ([], [])
  end.

(** One number with its unit: nanoseconds and the rest of the string. *)
Definition duration_term (l : list Z) : result (Z * list Z) :=
  _ ← guard_err (match l with c :: _ => negb (dot_or_digit c) | [] => true end) invalid_duration;
  match leadingInt 0 l with
  | None => Err invalid_duration
  | Some (v, l1) =>
      let pre := negb (length l =? length l1)%nat in
      let '(f, scale, post, l2) :=
        match l1 with
        | c :: r =>
            if c =? 46
            then let '(f, scale, l2) := leadingFraction 0 (float_of 1) false r in
                 (f, scale, negb (length r =? length l2)%nat, l2)
            else (0, float_of 1, false, l1)
        | [] => (0, float_of 1, false, l1)
        end in
      _ ← guard_err (negb pre && negb post) invalid_duration;
      let '(u, rest) := unit_span l2 in
      _ ← guard_err (bool_decide (u = [])) missing_unit;
      match unitMap u with
      | None => Err unknown_unit
      | Some unit =>
          _ ← guard_err (2 ^ 63 / unit <? v) invalid_duration;
          let v := v * unit in
          let v := if 0 <? f
                   then u64 (v + uint_of_float (float_mul (float_of f) (float_div (float_of unit) scale)))
                   else v in
          _ ← guard_err ((0 <? f) && (2 ^ 63 <? v)) invalid_duration;
          Ok (v, rest)
      end
  end.

(** Every term takes at least one byte. *)
Fixpoint duration_terms (fuel : nat) (d : Z) (l : list Z) : result Z :=
  match l with
  | [] => Ok d
  | _ =>
      match fuel with
      | O => Err invalid_duration
      | S fuel =>
          '(v, rest) ← duration_term l;
          let d := u64 (d + v) in
          _ ← guard_err (2 ^ 63 <? d) invalid_duration;
          duration_terms fuel d rest
      end
  end.

Definition ParseDuration (s : string) : result Z :=
  let '(neg, l) := cut_sign (chars s) in
  if bool_decide (l = [48]) then Ok 0
  else
    _ ← guard_err (bool_decide (l = [])) invalid_duration;
    d ← duration_terms (length l) 0 l;
    if neg then Ok (i64 (- d))
    else
      _ ← guard_err (2 ^ 63 - 1 <? d) invalid_duration;
      Ok d.

(** ** time.Duration.String *)

(** [fmtFrac]: the printed fraction of [prec] digits and the integer part. *)
Fixpoint fmtFrac (prec : nat) (v : Z) (acc : list Z) : list Z * Z :=
  match prec with
  | O => (match acc with [] => [] | _ => 46 :: acc end, v)
  | S prec =>
      let d := v mod 10 in
      fmtFrac prec (v / 10) (if negb (d =? 0) || negb (bool_decide (acc = [])) then (48 + d) :: acc else acc)
  end.

Definition Duration_String (d : Z) : string :=
  let u := Z.abs d in
  let body :=
    if u <? 1000000000 then
      if u =? 0 then chars "0s"
      else
        let '(prec, unit) := if u <? 1000 then (0%nat, chars "ns")
                             else if u <? 1000000 then (3%nat, [0xC2; 0xB5; 115])
                             else (6%nat, chars "ms") in
        let '(frac, u) := fmtFrac prec u [] in digits 20 u ++ frac ++ unit
    else
      let '(frac, u) := fmtFrac 9 u [] in
      let seconds := digits 20 (u mod 60) ++ frac ++ chars "s" in
      let u := u / 60 in
      if 0 <? u then
        let minutes := digits 20 (u mod 60) ++ chars "m" ++ seconds in
        let u := u / 60 in
        if 0 <? u then digits 20 u ++ chars "h" ++ minutes else minutes
      else seconds in
  text (if d <? 0 then 45 :: body else body).

(** ** path/filepath on Unix *)

(** The parts between slashes. *)
Fixpoint split_slash (l : list Z) : list (list Z) :=
  match l with
  | [] => [[]]
  | c :: r =>
      if c =? 47 then [] :: split_slash r
      else match split_slash r with p :: ps => (c :: p) :: ps | [] => [[c]] end
  end.

Fixpoint join_slash (ps : list (list Z)) : list Z :=
  match ps with
  | [] => []
  | [p] => p
  | p :: ps => p ++ 47 :: join_slash ps
  end.

Definition rooted (l : list Z) : bool := bool_decide (head l = Some 47).

(** One part after those kept so far, the last first: [..] takes the last one off;
    where there is none to take off it stays, or goes at the root. *)
Definition clean_part (root : bool) (kept : list (list Z)) (p : list Z) : list (list Z) :=
  if bool_decide (p = []) || bool_decide (p = [46]) then kept
  else if bool_decide (p = [46; 46]) then
    match kept with
    | q :: rest => if bool_decide (q = [46; 46]) then p :: kept else rest
    | [] => if root then [] else [p]
    end
  else p :: kept.

Definition clean (l : list Z) : list Z :=
  let out := (if rooted l then [47] else [])
             ++ join_slash (rev (foldl (clean_part (rooted l)) [] (split_slash l))) in
  match out with [] => [46] | _ => out end.
Definition Clean (s : string) : string := text (clean (chars s)).

Fixpoint after_last_slash (l : list Z) : list Z :=
  match l with
  | [] => []
  | c :: r => if bool_decide (is_Some (IndexByte 47 l))
              then (if bool_decide (is_Some (IndexByte 47 r)) then after_last_slash r
                    else if c =? 47 then r else l)
              else l
  end.

Definition base (l : list Z) : list Z :=
  match l with
  | [] => [46]
  | _ => match after_last_slash (rev (drop_in [47] (rev l))) with [] => [47] | b => b end
  end.
Definition Base (s : string) : string := text (base (chars s)).

Definition IsAbs (s : string) : bool := rooted (chars s).

(** ** Ranges *)

Lemma Ok_inj {A} (a b : A) : Ok a = Ok b → a = b.
Proof. by intros [= ->]. Qed.

Lemma digit_range c d : digit c = Some d → 0 <= d <= 9.
Proof. unfold digit. destruct (_ && _) eqn:E; [|done]. intros [= <-]. zbool. lia. Qed.

Lemma uint_loop_range l : ∀ n, 0 <= n < 2 ^ 64 → 0 <= (uint_loop n l).1 < 2 ^ 64.
Proof.
  induction l as [|c l IH]; intros n Hn; [done|]. cbn [uint_loop].
  destruct (digit c); [|done]. destruct (n >=? uint_cutoff); [done|].
  destruct (_ <? _); [done|]. apply IH, u64_range.
Qed.

Lemma parse_uint_range l : 0 <= (parse_uint l).1 < 2 ^ 64.
Proof. unfold parse_uint. destruct l; [done|]. by apply uint_loop_range. Qed.

Lemma ParseUint_range s n : ParseUint s = Ok n → 0 <= n < 2 ^ 64.
Proof.
  unfold ParseUint. pose proof (parse_uint_range (chars s)). destruct (parse_uint _) as [m [e|]]; [done|].
  by intros [= <-].
Qed.

Lemma ParseInt_range s n : ParseInt s = Ok n → - 2 ^ 63 <= n < 2 ^ 63.
Proof.
  unfold ParseInt. destruct (cut_sign (chars s)) as [neg l]. pose proof (parse_uint_range l).
  destruct (parse_uint l) as [un err]. cbn [fst] in *. destruct (bool_decide _); [done|].
  destruct neg; cbn [negb andb]; destruct_ifs; intros [= <-]; zbool; lia.
Qed.

Lemma duration_terms_range fuel : ∀ d l n,
  0 <= d <= 2 ^ 63 → duration_terms fuel d l = Ok n → 0 <= n <= 2 ^ 63.
Proof.
  induction fuel as [|fuel IH]; intros d [|c l] n Hd; cbn [duration_terms];
    try by intros <-%Ok_inj. 1: done.
  destruct (duration_term (c :: l)) as [[v rest]|]; [|done]. cbn. unfold guard_err.
  destruct (2 ^ 63 <? u64 (d + v)) eqn:E; [done|]. apply IH. zbool.
  pose proof (u64_range (d + v)). lia.
Qed.

Lemma ParseDuration_range s n : ParseDuration s = Ok n → - 2 ^ 63 <= n < 2 ^ 63.
Proof.
  unfold ParseDuration, guard_err. destruct (cut_sign (chars s)) as [neg l].
  destruct (bool_decide (l = [48])); [intros <-%Ok_inj; lia|]. destruct (bool_decide (l = [])); [done|].
  cbn -[duration_terms]. destruct (duration_terms (length l) 0 l) as [d|] eqn:E; [|done].
  apply duration_terms_range in E; [|lia]. cbn. destruct neg.
  - intros <-%Ok_inj. apply i64_range.
  - destruct (_ <? d) eqn:F; [done|]. intros <-%Ok_inj. zbool. lia.
Qed.

(** ** Bytes *)

Definition is_code (c : Z) : Prop := 0 <= c < 256.

Lemma chars_codes s : Forall is_code (chars s).
Proof.
  unfold chars. apply Forall_fmap, Forall_true. intros b. unfold compose, is_code, Z_of_byte.
  pose proof (Byte.to_N_bounded b). lia.
Qed.

Lemma code_of_byte c : is_code c → Z_of_byte (byte_of_Z c) = c.
Proof. intros H. rewrite Z_of_byte_of_Z. by apply Z.mod_small. Qed.

Lemma chars_text l : Forall is_code l → chars (text l) = l.
Proof.
  intros H. unfold chars, text. rewrite Stdlib.Strings.String.list_byte_of_string_of_list_byte, map_map.
  induction H as [|c l Hc _ IH]; [done|]. cbn. by rewrite code_of_byte, IH.
Qed.

Lemma byte_of_code b : byte_of_Z (Z_of_byte b) = b.
Proof. by destruct b. Qed.

Lemma text_chars s : text (chars s) = s.
Proof.
  unfold chars, text. rewrite map_map, (map_ext _ (λ b, b)), map_id by apply byte_of_code.
  apply Stdlib.Strings.String.string_of_list_byte_of_string.
Qed.

(** ** Paths *)

Definition no_slash (l : list Z) : Prop := 47 ∉ l.

Lemma split_no_slash l : no_slash l → split_slash l = [l].
Proof.
  induction l as [|c l IH]; [done|]. intros H. apply not_elem_of_cons in H as [Hc Hl]. cbn.
  rewrite IH by done. ztest. by destruct (c =? 47) eqn:?; zbool.
Qed.

Lemma split_parts l : Forall no_slash (split_slash l) ∧ split_slash l ≠ [].
Proof.
  induction l as [|c l [IH Hne]]; cbn; [by repeat constructor; [intros ?%elem_of_nil|]|].
  destruct (c =? 47) eqn:E; zbool.
  - split; [|done]. constructor; [by intros ?%elem_of_nil|done].
  - destruct (split_slash l) as [|p ps]; [done|]. apply Forall_cons in IH as [Hp Hps].
    split; [|done]. constructor; [|done]. unfold no_slash. rewrite not_elem_of_cons. by split.
Qed.

Lemma split_app p l : no_slash p → split_slash (p ++ 47 :: l) = p :: split_slash l.
Proof.
  induction p as [|c p IH]; [done|]. intros [Hc Hp]%not_elem_of_cons. cbn. rewrite IH by done.
  destruct (c =? 47) eqn:?; zbool; [congruence|done].
Qed.

Lemma split_join ps : Forall no_slash ps → ps ≠ [] → split_slash (join_slash ps) = ps.
Proof.
  induction 1 as [|p [|q ps] Hp Hps IH]; [done|intros _; by apply split_no_slash|].
  intros _. change (join_slash (p :: q :: ps)) with (p ++ 47 :: join_slash (q :: ps)).
  by rewrite split_app, IH.
Qed.

(** A part a cleaned path keeps other than [..]. *)
Definition plain_part (p : list Z) : Prop := no_slash p ∧ p ≠ [] ∧ p ≠ [46; 46].

(** What [clean] keeps of a relative path: plain parts above a stack of [..]. *)
Definition kept_ok (kept : list (list Z)) : Prop :=
  ∃ a n, kept = a ++ replicate n [46; 46] ∧ Forall plain_part a.

Lemma clean_part_ok kept p : no_slash p → kept_ok kept → kept_ok (clean_part false kept p).
Proof.
  intros Hp (a & n & -> & Ha). unfold clean_part.
  destruct (bool_decide (p = []) || bool_decide (p = [46])) eqn:E; [by exists a, n|].
  apply orb_false_iff in E as [E1 E2]. apply bool_decide_eq_false in E1, E2.
  case_bool_decide as E3.
  - subst p. destruct a as [|q a]; cbn.
    + destruct n; cbn; [by exists [], 1%nat|]. exists [], (S (S n)). by split.
    + apply Forall_cons in Ha as [(Q1 & Q2 & Q3) Ha]. rewrite bool_decide_eq_false_2 by done. by exists a, n.
  - exists (p :: a), n. split; [done|]. constructor; [by split_and!|done].
Qed.

Lemma kept_relative ps kept :
  Forall no_slash ps → kept_ok kept → kept_ok (foldl (clean_part false) kept ps).
Proof.
  intros H. revert kept. induction H as [|p ps Hp _ IH]; intros kept Hk; [done|]. cbn.
  by apply IH, clean_part_ok.
Qed.

(** A relative path whose clean form does not begin with two dots has no [..]. *)
Lemma clean_relative l :
  rooted l = false → take 2 (clean l) ≠ [46; 46] → clean l ≠ [46] →
  rooted (clean l) = false ∧ [46; 46] ∉ split_slash (clean l).
Proof.
  intros Hr. unfold clean. rewrite Hr. cbn [app].
  destruct (kept_relative (split_slash l) []) as (a & n & E & Ha).
  { apply split_parts. } { by exists [], 0%nat. }
  rewrite E, rev_app_distr. clear E. set (ps := rev (replicate n [46; 46]) ++ rev a).
  assert (Hps : join_slash ps = [] → ps = []).
  { destruct ps as [|p [|q ps']] eqn:Ep; [done| |by destruct p]. cbn. intros ->.
    assert ([] ∈ ps) as Hin by (rewrite Ep; left). subst ps. apply elem_of_app in Hin as [Hin|Hin];
      apply list_elem_of_In, in_rev, list_elem_of_In in Hin.
    - by apply elem_of_replicate in Hin as [? _].
    - rewrite Forall_forall in Ha. by destruct (Ha _ Hin) as (_ & ? & _). }
  destruct (join_slash ps) as [|c r] eqn:Ej; [done|]. intros Ht _.
  destruct n as [|n].
  - subst ps. cbn [replicate rev app] in *. assert (Hne : rev a ≠ []) by (intros Hn; by rewrite Hn in Ej).
    assert (Hf : Forall plain_part (rev a)) by (by apply List.Forall_rev).
    rewrite <- Ej, split_join by (done || (eapply Forall_impl; [exact Hf|by intros ? []])). split.
    + rewrite Ej. unfold rooted. apply bool_decide_eq_false_2. cbn. intros [= ->].
      destruct (rev a) as [|p ps]; [done|]. apply Forall_cons in Hf as [(P1 & P2 & _) _].
      destruct p as [|x p]; [done|]. apply not_elem_of_cons in P1 as [P1 _].
      destruct ps; cbn in Ej; congruence.
    + intros Hin. rewrite Forall_forall in Hf. by destruct (Hf _ Hin) as (_ & _ & ?).
  - exfalso. apply Ht. rewrite <- Ej. subst ps.
    assert (Er : rev (replicate (S n) [46; 46]) = [46; 46] :: replicate n [46; 46]).
    { rewrite rev_alt. exact (reverse_replicate (S n) [46; 46]). }
    rewrite Er. cbn. by destruct (replicate n [46; 46] ++ rev a).
Qed.

Lemma IndexByte_Some c l : is_Some (IndexByte c l) ↔ c ∈ l.
Proof.
  induction l as [|x l IH]; cbn; [split; [by intros []|by intros ?%elem_of_nil]|].
  rewrite elem_of_cons. destruct (x =? c) eqn:E; zbool.
  - split; [by left|by eexists].
  - rewrite fmap_is_Some, IH. split; [by right|]. by intros [->|?].
Qed.

Lemma after_last_slash_no_slash l : no_slash (after_last_slash l).
Proof.
  induction l as [|c r IH]; cbn; [by intros ?%elem_of_nil|].
  case_bool_decide as E; [|intros Hin; apply E; change (is_Some (IndexByte 47 (c :: r))); by apply IndexByte_Some].
  case_bool_decide as F; [done|].
  assert (no_slash r) by (intros Hin; by apply F, IndexByte_Some).
  destruct (c =? 47) eqn:G; [done|]. exfalso. apply fmap_is_Some in E. by apply F.
Qed.

(** The last element of a path: no slash, unless the path is nothing but slashes. *)
Lemma base_no_slash l : base l = [47] ∨ no_slash (base l).
Proof.
  unfold base. destruct l as [|c l]; [right|].
  - unfold no_slash. rewrite not_elem_of_cons. split; [done|by intros ?%elem_of_nil].
  - pose proof (after_last_slash_no_slash (rev (drop_in [47] (rev (c :: l))))) as H.
    destruct (after_last_slash _); [by left|by right].
Qed.

Lemma drop_in_Forall (P : Z → Prop) cutset l : Forall P l → Forall P (drop_in cutset l).
Proof. induction 1 as [|c l Hc Hl IH]; cbn; [done|]. case_bool_decide; [done|by constructor]. Qed.

Lemma after_last_slash_Forall (P : Z → Prop) l : Forall P l → Forall P (after_last_slash l).
Proof.
  induction 1 as [|c l Hc Hl IH]; cbn; [done|]. repeat case_bool_decide; try done; try by constructor.
  destruct (c =? 47); [done|by constructor].
Qed.

Lemma base_codes l : Forall is_code l → Forall is_code (base l).
Proof.
  intros H. unfold base. destruct l as [|c l]; [by repeat constructor|].
  assert (F : Forall is_code (after_last_slash (rev (drop_in [47] (rev (c :: l)))))).
  { by apply after_last_slash_Forall, List.Forall_rev, drop_in_Forall, List.Forall_rev. }
  destruct (after_last_slash _); [by repeat constructor|done].
Qed.

Lemma split_codes l : Forall is_code l → Forall (Forall is_code) (split_slash l).
Proof.
  induction 1 as [|c l Hc _ IH]; cbn; [by repeat constructor|]. destruct (c =? 47); [by constructor|].
  destruct (split_slash l) as [|p ps]; rewrite ?Forall_cons in *; go.
Qed.

Lemma join_codes ps : Forall (Forall is_code) ps → Forall is_code (join_slash ps).
Proof.
  induction 1 as [|p [|q ps] Hp Hps IH]; [constructor|done|].
  change (join_slash (p :: q :: ps)) with (p ++ 47 :: join_slash (q :: ps)).
  apply Forall_app. split; [done|]. by constructor.
Qed.

Lemma clean_codes l : Forall is_code l → Forall is_code (clean l).
Proof.
  intros H. unfold clean.
  assert (F : ∀ root ps kept, Forall (Forall is_code) ps → Forall (Forall is_code) kept →
    Forall (Forall is_code) (foldl (clean_part root) kept ps)).
  { intros root ps. induction ps as [|p ps IH]; intros kept Hps Hk; [done|].
    apply Forall_cons in Hps as [Hp Hps]. cbn. apply IH; [done|]. unfold clean_part.
    destruct (_ || _); [done|]. case_bool_decide; [|by constructor].
    destruct kept as [|q kept]; [destruct root; by repeat constructor|].
    apply Forall_cons in Hk as [? ?]. case_bool_decide; [by repeat constructor|done]. }
  assert (Forall is_code ((if rooted l then [47] else []) ++
    join_slash (rev (foldl (clean_part (rooted l)) [] (split_slash l))))) as G.
  { apply Forall_app. split; [destruct (rooted l); by repeat constructor|].
    apply join_codes, List.Forall_rev, F; [by apply split_codes|constructor]. }
  destruct (_ ++ _); [by repeat constructor|done].
Qed.

(** ** Numbers and their text *)

Lemma uint_loop_digits f : ∀ n l,
  0 <= n < 2 ^ 64 → n < 10 ^ Z.of_nat f → uint_loop 0 (digits f n ++ l) = uint_loop n l.
Proof.
  induction f as [|f IH]; intros n l Hn Hf; [cbn in Hf; cbn; f_equal; lia|].
  pose proof (Z.div_mod n 10). pose proof (Z.mod_pos_bound n 10).
  rewrite Nat2Z.inj_succ, Z.pow_succ_r in Hf by lia. cbn [digits].
  assert (Hd : ∀ d, 0 <= d <= 9 → digit (48 + d) = Some d).
  { intros d Hd. unfold digit. ztest. cbn. f_equal. lia. }
  destruct (n <? 10) eqn:E; zbool.
  - cbn [app uint_loop]. rewrite Hd by lia. unfold uint_cutoff. ztest. cbn. unfold u64.
    rewrite Z.mod_small by lia. by ztest.
  - rewrite <- app_assoc, IH by (split_and?; try lia; apply Z.div_lt_upper_bound; lia).
    cbn [app uint_loop]. rewrite Hd by lia.
    assert (n / 10 < uint_cutoff) by (apply Z.div_lt_upper_bound; [lia|]; change uint_cutoff with 1844674407370955162; lia).
    ztest. rewrite u64_small by lia. ztest. f_equal. lia.
Qed.

Lemma digits_codes f : ∀ n, 0 <= n → Forall (λ c, 48 <= c <= 57) (digits f n).
Proof.
  induction f as [|f IH]; intros n Hn; cbn; [done|]. pose proof (Z.mod_pos_bound n 10).
  destruct (n <? 10) eqn:E; zbool; [repeat constructor; lia|].
  apply Forall_app. split; [apply IH, Z.div_pos; lia|repeat constructor; lia].
Qed.

Lemma digits_nonempty f n : digits (S f) n ≠ [].
Proof. cbn. destruct (n <? 10); [done|]. by destruct (digits f (n / 10)). Qed.

Lemma chars_FormatUint n : 0 <= n → chars (FormatUint n) = digits 20 n.
Proof.
  intros Hn. apply chars_text. eapply Forall_impl; [by apply digits_codes|].
  unfold is_code. cbn. lia.
Qed.

Lemma ParseUint_FormatUint n : 0 <= n < 2 ^ 64 → ParseUint (FormatUint n) = Ok n.
Proof.
  intros Hn. unfold ParseUint. rewrite chars_FormatUint by lia. unfold parse_uint.
  pose proof (digits_nonempty 19 n). destruct (digits 20 n) as [|c l] eqn:E; [done|].
  rewrite <- E, <- (app_nil_r (digits 20 n)), uint_loop_digits; [done|lia|].
  etrans; [apply Hn|]. by vm_compute.
Qed.

Lemma Atoi_FormatUint n : 0 <= n < 2 ^ 63 → Atoi (FormatUint n) = Ok n.
Proof.
  intros Hn. unfold Atoi, ParseInt. pose proof (ParseUint_FormatUint n ltac:(lia)) as P. unfold ParseUint in P.
  rewrite chars_FormatUint in * by lia.
  assert (C : cut_sign (digits 20 n) = (false, digits 20 n)).
  { pose proof (digits_codes 20 n ltac:(lia)) as D. destruct (digits 20 n) as [|c l]; [done|].
    apply Forall_cons in D as [? _]. cbn. by ztest. }
  rewrite C. destruct (parse_uint (digits 20 n)) as [m [e|]]; [done|]. apply Ok_inj in P as ->.
  rewrite bool_decide_eq_false_2 by done. by ztest.
Qed.

Lemma FormatUint_nonempty n : 0 <= n → FormatUint n ≠ "".
Proof.
  intros Hn E. apply (f_equal chars) in E. rewrite chars_FormatUint in E by done.
  by apply (digits_nonempty 19 n).
Qed.
