(* ===== verification/GoNet.v ===== *)
(** * Go's net package, as far as the program uses it

    [net.SplitHostPort], [net.ParseIP] (through [netip.ParseAddr]) and
    [IP.IsLoopback], on byte codes.  Nothing in this file models a file of the
    repository. *)

From stdpp Require Import gmap strings list fin_maps.
From Stdlib Require Import ZArith Lia.
From S2P Require Import Prelude GoLib GoText.

(** ** SplitHostPort *)

Definition missingPort : error := ErrNew "missing port in address".
Definition tooManyColons : error := ErrNew "too many colons in address".
Definition missingBracket : error := ErrNew "missing ']' in address".
Definition unexpectedOpen : error := ErrNew "unexpected '[' in address".
Definition unexpectedClose : error := ErrNew "unexpected ']' in address".

(** Host and port of [l] whose last colon is at [i]. *)
Definition split_at (l : list Z) (i : nat) : result (list Z * list Z) :=
  '(host, j, k) ←
    (if bool_decide (head l = Some 91) then
       match IndexByte 93 l with
       | None => Err missingBracket
       | Some e =>
           if (e + 1 =? length l)%nat then Err missingPort
           else if (e + 1 =? i)%nat then Ok (take (e - 1) (drop 1 l), 1%nat, (e + 1)%nat)
           else if bool_decide (l !! (e + 1)%nat = Some 58) then Err tooManyColons
           else Err missingPort
       end
     else
       let host := take i l in
       if bool_decide (is_Some (IndexByte 58 host)) then Err tooManyColons else Ok (host, 0%nat, 0%nat));
  _ ← guard_err (bool_decide (is_Some (IndexByte 91 (drop j l)))) unexpectedOpen;
  _ ← guard_err (bool_decide (is_Some (IndexByte 93 (drop k l)))) unexpectedClose;
  Ok (host, drop (i + 1) l).

Definition split_host_port (l : list Z) : result (list Z * list Z) :=
  match LastIndexByte 58 l with
  | None => Err missingPort
  | Some i => split_at l i
  end.

Definition SplitHostPort (s : string) : result (string * string) :=
  '(host, port) ← split_host_port (chars s); Ok (text host, text port).

(** ** ParseIP *)

(** [parseIPv4Fields]: the octets so far, the value and the digits of the open
    field, whether the last byte was a dot. *)
Fixpoint ipv4_loop (fields : list Z) (val : Z) (digLen : nat) (start : bool) (prev_dot : bool) (l : list Z)
  : option (list Z) :=
  match l with
  | [] => if (length fields =? 3)%nat then Some (fields ++ [val]) else None
  | c :: r =>
      match digit c with
      | Some d =>
          if (digLen =? 1)%nat && (val =? 0) then None
          else let val := val * 10 + d in
               if 255 <? val then None else ipv4_loop fields val (S digLen) false false r
      | None =>
          if c =? 46 then
            if start || bool_decide (r = []) || prev_dot then None
            else if (length fields =? 3)%nat then None
            else ipv4_loop (fields ++ [val]) 0 0 false true r
          else None
      end
  end.
Definition parse_ipv4 (l : list Z) : option (list Z) := ipv4_loop [] 0 0 true false l.

Definition hex_digit (c : Z) : option Z :=
  if (48 <=? c) && (c <=? 57) then Some (c - 48)
  else if (97 <=? c) && (c <=? 102) then Some (c - 87)
  else if (65 <=? c) && (c <=? 70) then Some (c - 55)
  else None.

(** The hex number at the front: digits read, value, rest; a fifth digit fails. *)
Fixpoint hex_field (off : nat) (acc : Z) (l : list Z) : option (nat * Z * list Z) :=
  match l with
  | c :: r =>
      match hex_digit c with
      | None => Some (off, acc, l)
      | Some d => if (3 <? off)%nat then None else hex_field (S off) (acc * 16 + d) r
      end
  | [] => Some (off, acc, [])
  end.

(** The loop of [parseIPv6]: the bytes so far and the place of the ellipsis; the
    result also says what was left unread.  A turn adds two bytes. *)
Fixpoint ipv6_loop (fuel : nat) (ip : list Z) (ellipsis : option nat) (s : list Z)
  : option (list Z * option nat * list Z) :=
  match fuel with
  | O => Some (ip, ellipsis, s)
  | S fuel =>
      if (16 <=? length ip)%nat then Some (ip, ellipsis, s) else
      match hex_field 0 0 s with
      | None => None
      | Some (off, acc, rest) =>
          if (off =? 0)%nat then None
          else if bool_decide (head rest = Some 46) then
            if bool_decide (ellipsis = None) && negb (length ip =? 12)%nat then None
            else if (16 <? length ip + 4)%nat then None
            else v4 ← parse_ipv4 s; Some (ip ++ v4, ellipsis, [])
          else
            let ip := ip ++ [acc / 256; acc mod 256] in
            match rest with
            | [] => Some (ip, ellipsis, [])
            | c :: rest =>
                if negb (c =? 58) then None
                else match rest with
                | [] => None
                | c2 :: rest2 =>
                    if c2 =? 58 then
                      match ellipsis with
                      | Some _ => None
                      | None =>
                          match rest2 with
                          | [] => Some (ip, Some (length ip), [])
                          | _ => ipv6_loop fuel ip (Some (length ip)) rest2
                          end
                      end
                    else ipv6_loop fuel ip ellipsis rest
                end
            end
      end
  end.

(** A zone makes [ParseIP] fail, so none is kept. *)
Definition parse_ipv6 (s : list Z) : option (list Z) :=
  if bool_decide (is_Some (IndexByte 37 s)) then None else
  let '(ellipsis, s) := match s with
                        | a :: b :: r => if (a =? 58) && (b =? 58) then (Some 0%nat, r) else (None, s)
                        | _ => (None, s)
                        end in
  if bool_decide (is_Some ellipsis) && bool_decide (s = []) then Some (replicate 16 0) else
  '(ip, ellipsis, rest) ← ipv6_loop 8 [] ellipsis s;
  if negb (bool_decide (rest = [])) then None
  else if (length ip <? 16)%nat then
    match ellipsis with
    | None => None
    | Some e => Some (take e ip ++ replicate (16 - length ip) 0 ++ drop e ip)
    end
  else if bool_decide (is_Some ellipsis) then None
  else Some ip.

Fixpoint parse_addr (whole l : list Z) : option (list Z) :=
  match l with
  | [] => None
  | c :: r =>
      if c =? 46 then (λ v4, replicate 10 0 ++ [255; 255] ++ v4) <$> parse_ipv4 whole
      else if c =? 58 then parse_ipv6 whole
      else if c =? 37 then None
      else parse_addr whole r
  end.

(** The sixteen bytes of an address, IPv4 addresses mapped. *)
Definition ParseIP (l : list Z) : option (list Z) := parse_addr l l.

Definition IPv6loopback : list Z := replicate 15 0 ++ [1].

Definition IsLoopback (ip : list Z) : bool :=
  if bool_decide (take 12 ip = replicate 10 0 ++ [255; 255])
  then bool_decide (ip !! 12%nat = Some 127)
  else bool_decide (ip = IPv6loopback).

(** ** Dotted quads *)

Lemma IndexByte_None c l : IndexByte c l = None ↔ c ∉ l.
Proof.
  induction l as [|x l IH]; cbn; [split; [intros; apply not_elem_of_nil|done]|].
  rewrite not_elem_of_cons, <- IH. destruct (x =? c) eqn:E; zbool.
  - split; [done|]. intros []. congruence.
  - rewrite fmap_None. split; [intros; split; congruence|by intros []].
Qed.

Lemma IndexByte_app c l1 l2 : c ∉ l1 → IndexByte c (l1 ++ c :: l2) = Some (length l1).
Proof.
  induction l1 as [|x l1 IH]; cbn; [by rewrite Z.eqb_refl|].
  rewrite not_elem_of_cons. intros []. ztest. by rewrite IH.
Qed.

Lemma LastIndexByte_app c l1 l2 : c ∉ l2 → LastIndexByte c (l1 ++ c :: l2) = Some (length l1).
Proof.
  intros H. unfold LastIndexByte. rewrite rev_app_distr. cbn. rewrite <- app_assoc. cbn.
  rewrite IndexByte_app by (by rewrite list_elem_of_In, <- in_rev, <- list_elem_of_In).
  cbn. f_equal. rewrite length_app, length_rev. cbn. lia.
Qed.

(** The decimal digits of an octet, one to three. *)
Lemma octet_digits a : 0 <= a <= 255 →
  digits 20 a = [48 + a] ∧ a < 10 ∨
  digits 20 a = [48 + a / 10; 48 + a mod 10] ∧ 10 <= a < 100 ∨
  digits 20 a = [48 + a / 100; 48 + a / 10 mod 10; 48 + a mod 10] ∧ 100 <= a.
Proof.
  intros H. pose proof (Z.div_mod a 10). pose proof (Z.mod_pos_bound a 10).
  pose proof (Z.div_mod (a / 10) 10). pose proof (Z.mod_pos_bound (a / 10) 10).
  destruct (decide (a < 10)); [left|destruct (decide (a < 100)); [right; left|right; right]].
  - split; [|done]. cbn [digits]. by ztest.
  - split; [|lia]. cbn [digits]. by ztest.
  - split; [|lia]. cbn [digits]. ztest. cbn. by rewrite Z.div_div by lia.
Qed.

Lemma digit_code d : 0 <= d <= 9 → digit (48 + d) = Some d.
Proof. intros. unfold digit. ztest. cbn. f_equal. lia. Qed.

Lemma octet_codes a : 0 <= a <= 255 →
  Forall (λ c, 48 <= c <= 57) (digits 20 a) ∧ digits 20 a ≠ [].
Proof.
  intros H. pose proof (Z.div_mod a 10). pose proof (Z.mod_pos_bound a 10).
  pose proof (Z.div_mod (a / 10) 10). pose proof (Z.mod_pos_bound (a / 10) 10).
  rewrite Z.div_div in * by lia. change (10 * 10) with 100 in *.
  destruct (octet_digits a H) as [[-> ?]|[[-> ?]|[-> ?]]]; split; try done; rewrite ?Forall_cons, Forall_nil;
    split_and?; try done; lia.
Qed.

(** Reading an octet. *)
Lemma ipv4_octet fields start dot a l : 0 <= a <= 255 →
  ipv4_loop fields 0 0 start dot (digits 20 a ++ l) =
  ipv4_loop fields a (length (digits 20 a)) false false l.
Proof.
  intros H. pose proof (Z.mod_pos_bound a 10). pose proof (Z.mod_pos_bound (a / 10) 10).
  pose proof (Z.div_mod a 10). pose proof (Z.div_mod (a / 10) 10). rewrite Z.div_div in * by lia.
  change (10 * 10) with 100 in *.
  destruct (octet_digits a H) as [[-> ?]|[[-> ?]|[-> ?]]]; cbn [app ipv4_loop length Nat.eqb andb].
  - rewrite digit_code by lia. ztest. f_equal; lia.
  - rewrite !digit_code by lia. cbn [Nat.eqb andb]. ztest. f_equal; lia.
  - rewrite !digit_code by lia. cbn [Nat.eqb andb]. ztest. f_equal; lia.
Qed.

Definition dotted (a b c d : Z) : list Z :=
  digits 20 a ++ 46 :: digits 20 b ++ 46 :: digits 20 c ++ 46 :: digits 20 d.

Lemma parse_dotted a b c d :
  Forall (λ x, 0 <= x <= 255) [a; b; c; d] → parse_ipv4 (dotted a b c d) = Some [a; b; c; d].
Proof.
  rewrite !Forall_cons. intros (Ha & Hb & Hc & Hd & _). unfold parse_ipv4, dotted.
  assert (Hdot : ∀ fields v n l, (length fields < 3)%nat → l ≠ [] →
    ipv4_loop fields v n false false (46 :: l) = ipv4_loop (fields ++ [v]) 0 0 false true l).
  { intros fields v n l Hf Hl. cbn [ipv4_loop]. change (digit 46) with (@None Z). cbn.
    rewrite (bool_decide_eq_false_2 (l = [])) by done. cbn.
    destruct (Nat.eqb_spec (length fields) 3); [lia|done]. }
  assert (Hne : ∀ x l, 0 <= x <= 255 → digits 20 x ++ l ≠ []).
  { intros x l Hx. destruct (octet_codes x Hx) as [_ Hn]. by destruct (digits 20 x). }
  assert (digits 20 d ≠ []) by (destruct (octet_codes d Hd); done).
  do 2 (rewrite ipv4_octet by done; rewrite Hdot; [|cbn; lia|by apply Hne]).
  rewrite ipv4_octet by done. rewrite Hdot; [|cbn; lia|done].
  rewrite <- (app_nil_r (digits 20 d)), ipv4_octet by done. done.
Qed.

Lemma dotted_codes a b c d :
  Forall (λ x, 0 <= x <= 255) [a; b; c; d] →
  Forall (λ x, 48 <= x <= 57 ∨ x = 46) (dotted a b c d).
Proof.
  rewrite !Forall_cons. intros (Ha & Hb & Hc & Hd & _). unfold dotted.
  assert (H : ∀ x, 0 <= x <= 255 → Forall (λ x, 48 <= x <= 57 ∨ x = 46) (digits 20 x)).
  { intros x Hx. eapply Forall_impl; [apply (octet_codes x Hx)|]. cbn. auto. }
  rewrite !Forall_app, !Forall_cons, !Forall_app, !Forall_cons, !Forall_app, !Forall_cons. auto 10.
Qed.

(** Up to its first dot an address of digits is scanned over. *)
Lemma parse_addr_dot whole l r :
  Forall (λ x, 48 <= x <= 57) l →
  parse_addr whole (l ++ 46 :: r) = (λ v4, replicate 10 0 ++ [255; 255] ++ v4) <$> parse_ipv4 whole.
Proof. induction 1 as [|x l Hx _ IH]; cbn [app parse_addr]; [done|]. by ztest. Qed.

Lemma ParseIP_dotted a b c d :
  Forall (λ x, 0 <= x <= 255) [a; b; c; d] →
  ParseIP (dotted a b c d) = Some (replicate 10 0 ++ [255; 255; a; b; c; d]).
Proof.
  intros H. unfold ParseIP. unfold dotted at 2. rewrite parse_addr_dot.
  - by rewrite parse_dotted.
  - apply octet_codes. by apply Forall_cons in H as [? _].
Qed.
