(* ===== verification/Config.v ===== *)
(** * Settings (internal/config/config.go)

    [Config] with its defaults, [Parse] from a [lookup] of environment variables,
    [Validate], [DemoAllowed] and [Effective]. *)

From stdpp Require Import gmap strings list fin_maps.
From Stdlib Require Import ZArith Lia.
From S2P Require Import Prelude GoLib GoText GoNet.

Definition Millisecond : Z := 1000000.
Definition Second : Z := 1000000000.

Record Config := mkConfig {
  HTTPAddr : string; IngestAddr : string; RingCapacity : Z; BatchSize : Z; FlushInterval : Z;
  MaxEventBytes : Z; AuditMode : string; LeaseTimeout : Z; AuditInterval : Z; Sink : string;
  LogPath : string; NetworkAddr : string; NetworkDialTimeout : Z; NetworkIOTimeout : Z;
  NetworkRetryInitial : Z; NetworkRetryMaximum : Z; NetworkMaxAttempts : Z; RotateBytes : Z;
  SyncOnFlush : bool; DemoMode : bool; ContainerMode : bool; ProjectRoot : string; WebDir : string;
  ShutdownTimeout : Z; CollectorMaxConnections : Z; CollectorReadTimeout : Z;
  CollectorDedupeEntries : Z; ProtocolMaxRecords : Z; ProtocolMaxPayload : Z; TelemetryInterval : Z;
  SSEMaxClients : Z; Version : string
}.

#[export] Instance Config_fields : Fields Config := λ r,
  mkConfig (HTTPAddr r) (IngestAddr r) (RingCapacity r) (BatchSize r) (FlushInterval r)
    (MaxEventBytes r) (AuditMode r) (LeaseTimeout r) (AuditInterval r) (Sink r) (LogPath r)
    (NetworkAddr r) (NetworkDialTimeout r) (NetworkIOTimeout r) (NetworkRetryInitial r)
    (NetworkRetryMaximum r) (NetworkMaxAttempts r) (RotateBytes r) (SyncOnFlush r) (DemoMode r)
    (ContainerMode r) (ProjectRoot r) (WebDir r) (ShutdownTimeout r) (CollectorMaxConnections r)
    (CollectorReadTimeout r) (CollectorDedupeEntries r) (ProtocolMaxRecords r) (ProtocolMaxPayload r)
    (TelemetryInterval r) (SSEMaxClients r) (Version r).

Definition Defaults : Config := {|
  HTTPAddr := "127.0.0.1:28640"; IngestAddr := "127.0.0.1:28641"; RingCapacity := 65536;
  BatchSize := 1024; FlushInterval := 50 * Millisecond; MaxEventBytes := 2 ^ 20; AuditMode := "off";
  LeaseTimeout := 2 * Second; AuditInterval := 100 * Millisecond; Sink := "file";
  LogPath := "./data/minilogback.log"; NetworkAddr := "127.0.0.1:28641";
  NetworkDialTimeout := 2 * Second; NetworkIOTimeout := 5 * Second;
  NetworkRetryInitial := 50 * Millisecond; NetworkRetryMaximum := 2 * Second; NetworkMaxAttempts := 8;
  RotateBytes := 64 * 2 ^ 20; SyncOnFlush := false; DemoMode := false; ContainerMode := false;
  ProjectRoot := ""; WebDir := "./frontend/dist"; ShutdownTimeout := 5 * Second;
  CollectorMaxConnections := 256; CollectorReadTimeout := 10 * Second;
  CollectorDedupeEntries := 100000; ProtocolMaxRecords := 1024; ProtocolMaxPayload := 16 * 2 ^ 20;
  TelemetryInterval := 100 * Millisecond; SSEMaxClients := 64; Version := "dev"
|}.

(** ** Validation *)

Definition validateAddress (value : string) : option error :=
  match SplitHostPort value with
  | Err _ => Some (ErrNew "invalid host:port %q")
  | Ok (_, port) =>
      match Atoi port with
      | Err _ => Some (ErrNew "invalid port in %q")
      | Ok n => if (n <? 1) || (65535 <? n) then Some (ErrNew "invalid port in %q") else None
      end
  end.

(** [fmt.Errorf("%s: %w", name, err)] *)
Definition named (name : string) (e : error) : error := ErrWrap (name +:+ ": %w") e.

(** The loop over the two addresses goes through a map, in an order of the
    runtime's choice. *)
Definition addresses (http_first : bool) (c : Config) : list (string * string) :=
  let http := ("MINILOGBACK_HTTP_ADDR", HTTPAddr c) in
  let ingest := ("MINILOGBACK_INGEST_ADDR", IngestAddr c) in
  if http_first then [http; ingest] else [ingest; http].

Fixpoint validate_addresses (l : list (string * string)) : option error :=
  match l with
  | [] => None
  | (name, addr) :: l =>
      match validateAddress addr with
      | Some e => Some (named name e)
      | None => validate_addresses l
      end
  end.

(** The tests of [Validate] after the addresses, in order. *)
Definition checks (c : Config) : list (bool * error) := [
  ((RingCapacity c <? 2) || negb (is_pow2 (RingCapacity c)),
   ErrNew "MINILOGBACK_RING_CAPACITY must be a power of two >= 2");
  ((BatchSize c <? 1) || (RingCapacity c <? u64 (BatchSize c)),
   ErrNew "MINILOGBACK_BATCH_SIZE must be between 1 and ring capacity");
  ((MaxEventBytes c <? 1) || (ProtocolMaxPayload c <? u64 (MaxEventBytes c)),
   ErrNew "MINILOGBACK_MAX_EVENT_BYTES must fit protocol payload");
  ((ProtocolMaxRecords c =? 0) || (ProtocolMaxPayload c =? 0),
   ErrNew "protocol limits must be positive");
  ((2 ^ 16 <? ProtocolMaxRecords c) || (64 * 2 ^ 20 <? ProtocolMaxPayload c)
   || (16 * 2 ^ 20 <? MaxEventBytes c),
   ErrNew "protocol limits exceed safe implementation bounds");
  ((FlushInterval c <=? 0) || (LeaseTimeout c <=? 0) || (AuditInterval c <=? 0)
   || (ShutdownTimeout c <=? 0) || (TelemetryInterval c <=? 0) || (CollectorReadTimeout c <=? 0),
   ErrNew "duration settings must be positive");
  (negb (bool_decide (AuditMode c ∈ ["off"; "sampled"; "full"])),
   ErrNew "MINILOGBACK_AUDIT_MODE must be off, sampled, or full");
  (negb (bool_decide (Sink c ∈ ["file"; "network"])),
   ErrNew "MINILOGBACK_SINK must be file or network");
  (bool_decide (Sink c = "file") && bool_decide (TrimSpace (LogPath c) = ""),
   ErrNew "MINILOGBACK_LOG_PATH is required for file sink")
].

Definition late_checks (c : Config) : list (bool * error) := [
  ((NetworkDialTimeout c <=? 0) || (NetworkIOTimeout c <=? 0) || (NetworkRetryInitial c <=? 0)
   || (NetworkRetryMaximum c <? NetworkRetryInitial c) || (NetworkMaxAttempts c <=? 0),
   ErrNew "network timeouts, retry bounds, and attempts must be positive and ordered");
  ((RotateBytes c <=? 0) || (CollectorMaxConnections c <=? 0) || (CollectorDedupeEntries c <=? 0)
   || (SSEMaxClients c <=? 0),
   ErrNew "capacity settings must be positive");
  (bool_decide (TrimSpace (WebDir c) = ""), ErrNew "MINILOGBACK_WEB_DIR must not be empty")
].

Fixpoint first_failure (l : list (bool * error)) : option error :=
  match l with
  | [] => None
  | (b, e) :: l => if b then Some e else first_failure l
  end.

Definition Validate (http_first : bool) (c : Config) : option error :=
  match validate_addresses (addresses http_first c) with
  | Some e => Some e
  | None =>
      match first_failure (checks c) with
      | Some e => Some e
      | None =>
          match (if bool_decide (Sink c = "network") then validateAddress (NetworkAddr c) else None) with
          | Some e => Some (named "MINILOGBACK_NETWORK_ADDR" e)
          | None => first_failure (late_checks c)
          end
      end
  end.

(** ** Parsing *)

Section Parse.
Context (lookup : string → option string).

Definition stringValue (name target : string) : string :=
  match lookup name with Some value => TrimSpace value | None => target end.

(** The shape of the helpers: parse the variable if it is set. *)
Definition parsed_value {A} (parse : string → result A) (name : string) (target : A) : result A :=
  match lookup name with
  | Some value => match parse value with Ok v => Ok v | Err e => Err (named name e) end
  | None => Ok target
  end.

Definition intValue : string → Z → result Z := parsed_value Atoi.
Definition int64Value : string → Z → result Z := parsed_value ParseInt.
Definition uint64Value : string → Z → result Z := parsed_value ParseUint.
Definition durationValue : string → Z → result Z := parsed_value ParseDuration.
Definition boolValue : string → bool → result bool := parsed_value ParseBool.

Definition uint32Value (name : string) (target : Z) : result Z :=
  parsed ← uint64Value name 0;
  match lookup name with
  | None => Ok target
  | Some _ =>
      if 2 ^ 32 - 1 <? parsed then Err (ErrNew (name +:+ ": value overflows uint32"))
      else Ok (u32 parsed)
  end.

Definition string_settings (c : Config) : Config :=
  c <| HTTPAddr ::= stringValue "MINILOGBACK_HTTP_ADDR" |>
    <| IngestAddr ::= stringValue "MINILOGBACK_INGEST_ADDR" |>
    <| AuditMode ::= stringValue "MINILOGBACK_AUDIT_MODE" |>
    <| Sink ::= stringValue "MINILOGBACK_SINK" |>
    <| LogPath ::= stringValue "MINILOGBACK_LOG_PATH" |>
    <| NetworkAddr ::= stringValue "MINILOGBACK_NETWORK_ADDR" |>
    <| ProjectRoot ::= stringValue "MINILOGBACK_PROJECT_ROOT" |>
    <| WebDir ::= stringValue "MINILOGBACK_WEB_DIR" |>
    <| Version ::= stringValue "MINILOGBACK_VERSION" |>.

(** [func() error { return xValue(lookup, name, &cfg.Field) }] *)
Definition parser {A} (helper : string → A → result A) (name : string) (field : Config → A)
  `{!Update field} : Config → result Config :=
  λ c, v ← helper name (field c); Ok (c <| field := v |>).

Definition parsers : list (Config → result Config) := [
  parser uint64Value "MINILOGBACK_RING_CAPACITY" RingCapacity;
  parser intValue "MINILOGBACK_BATCH_SIZE" BatchSize;
  parser durationValue "MINILOGBACK_FLUSH_INTERVAL" FlushInterval;
  parser intValue "MINILOGBACK_MAX_EVENT_BYTES" MaxEventBytes;
  parser durationValue "MINILOGBACK_LEASE_TIMEOUT" LeaseTimeout;
  parser durationValue "MINILOGBACK_AUDIT_INTERVAL" AuditInterval;
  parser durationValue "MINILOGBACK_NETWORK_DIAL_TIMEOUT" NetworkDialTimeout;
  parser durationValue "MINILOGBACK_NETWORK_IO_TIMEOUT" NetworkIOTimeout;
  parser durationValue "MINILOGBACK_NETWORK_RETRY_INITIAL" NetworkRetryInitial;
  parser durationValue "MINILOGBACK_NETWORK_RETRY_MAXIMUM" NetworkRetryMaximum;
  parser intValue "MINILOGBACK_NETWORK_MAX_ATTEMPTS" NetworkMaxAttempts;
  parser int64Value "MINILOGBACK_ROTATE_BYTES" RotateBytes;
  parser boolValue "MINILOGBACK_SYNC_ON_FLUSH" SyncOnFlush;
  parser boolValue "MINILOGBACK_DEMO_MODE" DemoMode;
  parser boolValue "MINILOGBACK_CONTAINER_MODE" ContainerMode;
  parser durationValue "MINILOGBACK_SHUTDOWN_TIMEOUT" ShutdownTimeout;
  parser intValue "MINILOGBACK_COLLECTOR_MAX_CONNECTIONS" CollectorMaxConnections;
  parser durationValue "MINILOGBACK_COLLECTOR_READ_TIMEOUT" CollectorReadTimeout;
  parser intValue "MINILOGBACK_COLLECTOR_DEDUPE_ENTRIES" CollectorDedupeEntries;
  parser uint32Value "MINILOGBACK_PROTOCOL_MAX_RECORDS" ProtocolMaxRecords;
  parser uint32Value "MINILOGBACK_PROTOCOL_MAX_PAYLOAD" ProtocolMaxPayload;
  parser durationValue "MINILOGBACK_TELEMETRY_INTERVAL" TelemetryInterval;
  parser intValue "MINILOGBACK_SSE_MAX_CLIENTS" SSEMaxClients
].

Fixpoint run_parsers (l : list (Config → result Config)) (c : Config) : result Config :=
  match l with
  | [] => Ok c
  | parse :: l => c ← parse c; run_parsers l c
  end.

Definition Parse (http_first : bool) : result Config :=
  cfg ← run_parsers parsers (string_settings Defaults);
  match Validate http_first cfg with
  | Some e => Err e
  | None => Ok cfg
  end.
End Parse.

(** ** Demo mode and the published settings *)

Definition DemoAllowed (c : Config) : bool :=
  if negb (DemoMode c) then false
  else match split_host_port (chars (HTTPAddr c)) with
  | Err _ => false
  | Ok (host, _) =>
      let trimmed := Trim [91; 93] host in
      if EqualFold trimmed "localhost" then true
      else if match ParseIP trimmed with Some ip => IsLoopback ip | None => false end then true
      else ContainerMode c && (bool_decide (trimmed = []) || bool_decide (trimmed = chars "0.0.0.0")
                               || bool_decide (trimmed = chars "::"))
  end.

(** The values of a [map[string]any]. *)
Inductive any := AInt (z : Z) | AStr (s : string) | ABool (b : bool) | AMap (m : gmap string bool).

Definition Effective (c : Config) : gmap string any :=
  let target := if bool_decide (Sink c = "network") then NetworkAddr c else Base (LogPath c) in
  list_to_map [
    ("ring_capacity", AInt (RingCapacity c)); ("batch_size", AInt (BatchSize c));
    ("flush_interval", AStr (Duration_String (FlushInterval c)));
    ("max_event_bytes", AInt (MaxEventBytes c)); ("audit_mode", AStr (AuditMode c));
    ("lease_timeout", AStr (Duration_String (LeaseTimeout c))); ("sink_type", AStr (Sink c));
    ("sink_target", AStr target); ("demo_mode", ABool (DemoMode c));
    ("demo_allowed", ABool (DemoAllowed c)); ("web_assets", AStr (Base (Clean (WebDir c))));
    ("network_security", AStr "trusted_network_plaintext");
    ("capabilities", AMap (list_to_map
      [("vectored_file", true); ("vectored_network", true); ("sse", true)]))
  ].

(** ** Well-typed settings *)

(** The values a Go [Config] can hold. *)
Definition is_int (z : Z) : Prop := - 2 ^ 63 <= z < 2 ^ 63.

Record typed (c : Config) : Prop := mkTyped {
  t_ring : 0 <= RingCapacity c < 2 ^ 64;
  t_ints : Forall is_int [BatchSize c; FlushInterval c; MaxEventBytes c; LeaseTimeout c;
    AuditInterval c; NetworkDialTimeout c; NetworkIOTimeout c; NetworkRetryInitial c;
    NetworkRetryMaximum c; NetworkMaxAttempts c; RotateBytes c; ShutdownTimeout c;
    CollectorMaxConnections c; CollectorReadTimeout c; CollectorDedupeEntries c;
    TelemetryInterval c; SSEMaxClients c];
  t_records : 0 <= ProtocolMaxRecords c < 2 ^ 32;
  t_payload : 0 <= ProtocolMaxPayload c < 2 ^ 32
}.

(** What the other components rely on. *)
Record admissible (c : Config) : Prop := mkAdmissible {
  a_ring : is_pow2 (RingCapacity c) = true ∧ 2 <= RingCapacity c;
  a_batch : 1 <= BatchSize c <= RingCapacity c;
  a_event : 1 <= MaxEventBytes c <= ProtocolMaxPayload c ∧ MaxEventBytes c <= 2 ^ 24;
  a_records : 1 <= ProtocolMaxRecords c <= 2 ^ 16;
  a_payload : 1 <= ProtocolMaxPayload c <= 2 ^ 26;
  a_times : Forall (λ d, 0 < d) [FlushInterval c; LeaseTimeout c; AuditInterval c; ShutdownTimeout c;
    TelemetryInterval c; CollectorReadTimeout c];
  a_mode : AuditMode c ∈ ["off"; "sampled"; "full"];
  a_sink : Sink c ∈ ["file"; "network"];
  a_path : Sink c = "file" → TrimSpace (LogPath c) ≠ "";
  a_http : validateAddress (HTTPAddr c) = None;
  a_ingest : validateAddress (IngestAddr c) = None;
  a_network : Sink c = "network" → validateAddress (NetworkAddr c) = None;
  a_retry : Forall (λ d, 0 < d) [NetworkDialTimeout c; NetworkIOTimeout c; NetworkRetryInitial c;
    NetworkMaxAttempts c] ∧ NetworkRetryInitial c <= NetworkRetryMaximum c;
  a_capacity : Forall (λ d, 0 < d) [RotateBytes c; CollectorMaxConnections c;
    CollectorDedupeEntries c; SSEMaxClients c];
  a_web : TrimSpace (WebDir c) ≠ ""
}.

Lemma first_failure_None l : first_failure l = None ↔ Forall (λ t, t.1 = false) l.
Proof.
  induction l as [|[[] e] l IH]; cbn; rewrite ?Forall_cons, ?IH; cbn; split; intros; go.
Qed.

Lemma validate_addresses_None l :
  validate_addresses l = None ↔ Forall (λ na, validateAddress na.2 = None) l.
Proof.
  induction l as [|[n a] l IH]; cbn; [done|]. rewrite Forall_cons, <- IH. cbn.
  destruct (validateAddress a); split; intros; go.
Qed.

Lemma validate_addresses_order o c :
  validate_addresses (addresses o c) = None ↔
  validateAddress (HTTPAddr c) = None ∧ validateAddress (IngestAddr c) = None.
Proof.
  rewrite validate_addresses_None. destruct o; cbn; rewrite !Forall_cons; cbn; split; intros; go.
Qed.

(** The four parts of [Validate]. *)
Lemma Validate_None o c :
  Validate o c = None ↔
  (validateAddress (HTTPAddr c) = None ∧ validateAddress (IngestAddr c) = None) ∧
  Forall (λ t, t.1 = false) (checks c) ∧
  (Sink c = "network" → validateAddress (NetworkAddr c) = None) ∧
  Forall (λ t, t.1 = false) (late_checks c).
Proof.
  unfold Validate. rewrite <- validate_addresses_order with (o := o), <- !first_failure_None.
  destruct (validate_addresses _); [split; intros; go|].
  destruct (first_failure (checks c)); [split; intros; go|].
  case_bool_decide as E; [|split; intros; go].
  destruct (validateAddress (NetworkAddr c)); split; intros; go. by discriminate (H1 E).
Qed.

Ltac split_Forall :=
  repeat match goal with
  | H : Forall _ (_ :: _) |- _ => apply Forall_cons in H as [? H]
  | H : Forall _ [] |- _ => clear H
  end; cbn [fst snd] in *; cbv beta in *.

Lemma Validate_admissible o c : typed c → Validate o c = None ↔ admissible c.
Proof.
  intros [Tr Ti Tn Tp]. rewrite Validate_None. unfold checks, late_checks, is_int in *. split_Forall. split.
  - intros ([A1 A2] & C & N & L). split_Forall. zbool.
    all: rewrite u64_small in * by lia; split; rewrite ?Forall_cons, ?Forall_nil; split_and?; auto; try lia.
    all: by intros.
  - intros [[]]. split_and!; try done; repeat constructor; cbn [fst]; split_and_all; split_Forall;
      rewrite ?u64_small by lia; repeat (apply orb_false_intro);
      try (apply Z.ltb_ge; lia); try (apply Z.leb_gt; lia); try (apply Z.eqb_neq; lia);
      try (apply bool_decide_eq_false; done); try (apply negb_false_iff);
      try (by apply bool_decide_eq_true); try done.
    apply andb_false_iff. destruct (decide (Sink c = "file")); [right|left]; apply bool_decide_eq_false; auto.
Qed.

(** ** What [Parse] returns *)

(** [ParseUint] for a uint32 setting. *)
Definition ParseUint32 (s : string) : result Z :=
  n ← ParseUint s; if 2 ^ 32 - 1 <? n then Err strconv_ErrRange else Ok n.

(** The variables with their parsers and fields. *)
Definition numbers : list (string * (string → result Z) * (Config → Z)) := [
  ("MINILOGBACK_RING_CAPACITY", ParseUint, RingCapacity);
  ("MINILOGBACK_BATCH_SIZE", Atoi, BatchSize);
  ("MINILOGBACK_FLUSH_INTERVAL", ParseDuration, FlushInterval);
  ("MINILOGBACK_MAX_EVENT_BYTES", Atoi, MaxEventBytes);
  ("MINILOGBACK_LEASE_TIMEOUT", ParseDuration, LeaseTimeout);
  ("MINILOGBACK_AUDIT_INTERVAL", ParseDuration, AuditInterval);
  ("MINILOGBACK_NETWORK_DIAL_TIMEOUT", ParseDuration, NetworkDialTimeout);
  ("MINILOGBACK_NETWORK_IO_TIMEOUT", ParseDuration, NetworkIOTimeout);
  ("MINILOGBACK_NETWORK_RETRY_INITIAL", ParseDuration, NetworkRetryInitial);
  ("MINILOGBACK_NETWORK_RETRY_MAXIMUM", ParseDuration, NetworkRetryMaximum);
  ("MINILOGBACK_NETWORK_MAX_ATTEMPTS", Atoi, NetworkMaxAttempts);
  ("MINILOGBACK_ROTATE_BYTES", ParseInt, RotateBytes);
  ("MINILOGBACK_SHUTDOWN_TIMEOUT", ParseDuration, ShutdownTimeout);
  ("MINILOGBACK_COLLECTOR_MAX_CONNECTIONS", Atoi, CollectorMaxConnections);
  ("MINILOGBACK_COLLECTOR_READ_TIMEOUT", ParseDuration, CollectorReadTimeout);
  ("MINILOGBACK_COLLECTOR_DEDUPE_ENTRIES", Atoi, CollectorDedupeEntries);
  ("MINILOGBACK_PROTOCOL_MAX_RECORDS", ParseUint32, ProtocolMaxRecords);
  ("MINILOGBACK_PROTOCOL_MAX_PAYLOAD", ParseUint32, ProtocolMaxPayload);
  ("MINILOGBACK_TELEMETRY_INTERVAL", ParseDuration, TelemetryInterval);
  ("MINILOGBACK_SSE_MAX_CLIENTS", Atoi, SSEMaxClients)
].

Definition flags : list (string * (Config → bool)) := [
  ("MINILOGBACK_SYNC_ON_FLUSH", SyncOnFlush); ("MINILOGBACK_DEMO_MODE", DemoMode);
  ("MINILOGBACK_CONTAINER_MODE", ContainerMode)
].

Definition texts : list (string * (Config → string)) := [
  ("MINILOGBACK_HTTP_ADDR", HTTPAddr); ("MINILOGBACK_INGEST_ADDR", IngestAddr);
  ("MINILOGBACK_AUDIT_MODE", AuditMode); ("MINILOGBACK_SINK", Sink);
  ("MINILOGBACK_LOG_PATH", LogPath); ("MINILOGBACK_NETWORK_ADDR", NetworkAddr);
  ("MINILOGBACK_PROJECT_ROOT", ProjectRoot); ("MINILOGBACK_WEB_DIR", WebDir);
  ("MINILOGBACK_VERSION", Version)
].

(** A setting is the default, or what its variable parses to. *)
Definition set_by {A} (value : option string) (parse : string → result A) (default v : A) : Prop :=
  match value with None => v = default | Some s => parse s = Ok v end.

Definition obeys (lookup : string → option string) (c : Config) : Prop :=
  Forall (λ '(name, parse, field), set_by (lookup name) parse (field Defaults) (field c)) numbers ∧
  Forall (λ '(name, field), set_by (lookup name) ParseBool (field Defaults) (field c)) flags ∧
  Forall (λ '(name, field), set_by (lookup name) (λ s, Ok (TrimSpace s)) (field Defaults) (field c)) texts.

Section Parsed.
Context (lookup : string → option string).

Lemma parsed_value_Ok {A} (parse : string → result A) name t v :
  parsed_value lookup parse name t = Ok v ↔ set_by (lookup name) parse t v.
Proof.
  unfold parsed_value, set_by. destruct (lookup name) as [s|].
  - destruct (parse s); split; intros; simplify_eq; done.
  - split; [by intros [= ->]|by intros ->].
Qed.

Lemma uint32Value_Ok name t v :
  uint32Value lookup name t = Ok v ↔ set_by (lookup name) ParseUint32 t v.
Proof.
  unfold uint32Value, uint64Value. destruct (parsed_value lookup ParseUint name 0) as [n|e] eqn:E; cbn.
  - apply parsed_value_Ok in E. unfold set_by, ParseUint32 in *. destruct (lookup name) as [s|].
    + rewrite E. pose proof (ParseUint_range _ _ E). cbn. destruct (_ <? n) eqn:F; [done|]. zbool.
      by rewrite u32_small by lia.
    + split; [by intros [= ->]|by intros ->].
  - unfold parsed_value, set_by, ParseUint32 in *. destruct (lookup name) as [s|]; [|done].
    by destruct (ParseUint s).
Qed.

Lemma stringValue_set name t : set_by (lookup name) (λ s, Ok (TrimSpace s)) t (stringValue lookup name t).
Proof. unfold stringValue, set_by. by destruct (lookup name). Qed.

Lemma parser_Ok {A} helper name (field : Config → A) `{!Update field} c c' :
  parser helper name field c = Ok c' ↔
  ∃ v, helper name (field c) = Ok v ∧ c' = c <| field := v |>.
Proof.
  unfold parser. destruct (helper name (field c)) as [v|]; cbn; split.
  - intros [= <-]. eauto.
  - by intros (? & [= <-] & ->).
  - done.
  - by intros (? & ? & _).
Qed.

Lemma run_parsers_cons p l c c' :
  run_parsers (p :: l) c = Ok c' ↔ ∃ c1, p c = Ok c1 ∧ run_parsers l c1 = Ok c'.
Proof.
  cbn. destruct (p c) as [c1|]; cbn; split; [eauto| |done|].
  - by intros (? & [= <-] & ?).
  - by intros (? & ? & _).
Qed.

Lemma stringValue_iff name t v :
  set_by (lookup name) (λ s, Ok (TrimSpace s)) t v ↔ v = stringValue lookup name t.
Proof.
  unfold stringValue, set_by. destruct (lookup name); [|done]. split; [by intros [= <-]|by intros ->].
Qed.

Lemma run_parsers_obeys c :
  run_parsers (parsers lookup) (string_settings lookup Defaults) = Ok c → obeys lookup c.
Proof.
  unfold parsers. intros H.
  repeat (apply run_parsers_cons in H as (? & P & H); apply parser_Ok in P as (? & ? & ->)).
  cbn in H. apply Ok_inj in H as <-.
  repeat match goal with
  | H : uint32Value _ _ _ = Ok _ |- _ => apply uint32Value_Ok in H
  | H : _ = Ok _ |- _ => apply parsed_value_Ok in H
  end.
  split_and!; repeat constructor; cbn; try assumption; by apply stringValue_iff.
Qed.

Lemma obeys_run_parsers c :
  obeys lookup c → run_parsers (parsers lookup) (string_settings lookup Defaults) = Ok c.
Proof.
  unfold parsers. intros (N & F & T). unfold numbers, flags, texts in *. split_Forall.
  repeat match goal with H : set_by _ (λ s, Ok (TrimSpace s)) _ _ |- _ => apply stringValue_iff in H end.
  repeat (apply run_parsers_cons; eexists; split;
    [apply parser_Ok; eexists; split;
       [first [apply uint32Value_Ok; cbn; eassumption | apply parsed_value_Ok; cbn; eassumption]|reflexivity]|]).
  cbn. destruct c; cbn in *. by subst.
Qed.

(** Unset or parsed, the value of a setting has the range of its type. *)
Lemma set_by_range (P : Z → Prop) value parse default v :
  P default → (∀ s n, parse s = Ok n → P n) → set_by value parse default v → P v.
Proof. unfold set_by. intros D H. destruct value; [apply H|by intros ->]. Qed.

Lemma ParseUint32_range s n : ParseUint32 s = Ok n → 0 <= n < 2 ^ 32.
Proof.
  unfold ParseUint32. destruct (ParseUint s) as [m|] eqn:E; [|done]. cbn.
  destruct (_ <? m) eqn:F; [done|]. intros <-%Ok_inj. apply ParseUint_range in E. zbool. lia.
Qed.

Lemma obeys_typed c : obeys lookup c → typed c.
Proof.
  intros (N & _ & _). unfold numbers in N. split_Forall. split.
  - eapply (set_by_range (λ n, 0 <= n < 2 ^ 64)); [|exact ParseUint_range|eassumption]. cbn. lia.
  - repeat first [exact (Forall_nil_2 _) | apply Forall_cons_2]; (eapply (set_by_range is_int); [| |eassumption]);
      first [exact ParseDuration_range|exact ParseInt_range|by vm_compute].
  - eapply (set_by_range (λ n, 0 <= n < 2 ^ 32)); [|exact ParseUint32_range|eassumption]. cbn. lia.
  - eapply (set_by_range (λ n, 0 <= n < 2 ^ 32)); [|exact ParseUint32_range|eassumption]. cbn. lia.
Qed.
End Parsed.

(** C27. Settings.  [Parse] returns exactly the configuration whose every field is
    its default when the variable is unset and the parsed value otherwise, when
    there is one and it is admissible (in whatever order the addresses are looked
    at); every field is then in the range of its Go type. *)
Theorem parse_spec lookup http_first c :
  (Parse lookup http_first = Ok c ↔ obeys lookup c ∧ admissible c) ∧
  (Parse lookup http_first = Ok c → typed c).
Proof.
  assert (H : Parse lookup http_first = Ok c ↔ obeys lookup c ∧ admissible c).
  { unfold Parse. split.
    - destruct (run_parsers _ _) as [d|] eqn:E; [|done]. cbn.
      destruct (Validate http_first d) eqn:V; [done|]. intros <-%Ok_inj.
      apply run_parsers_obeys in E. split; [done|]. eapply Validate_admissible; [|done].
      by eapply obeys_typed.
    - intros [O A]. rewrite obeys_run_parsers with (c := c) by done. cbn.
      apply (Validate_admissible http_first) in A; [by rewrite A|]. by eapply obeys_typed. }
  split; [done|]. intros [O _]%H. by eapply obeys_typed.
Qed.

(** ** Demo mode *)

Lemma drop_in_id cutset l : (∀ x, head l = Some x → x ∉ cutset) → drop_in cutset l = l.
Proof. destruct l as [|x l]; [done|]. intros H. cbn. by rewrite bool_decide_eq_false_2 by auto. Qed.

Lemma Trim_id cutset l : Forall (λ x, x ∉ cutset) l → Trim cutset l = l.
Proof.
  intros H. assert (R : ∀ l', Forall (λ x, x ∉ cutset) l' → drop_in cutset l' = l').
  { intros l' F. apply drop_in_id. intros x Hx. destruct F; by simplify_eq/=. }
  unfold Trim. rewrite (R l H), R by (by apply List.Forall_rev).
  apply rev_involutive.
Qed.

Section Dotted.
Context (a b d e : Z) (H : Forall (λ x, 0 <= x <= 255) [a; b; d; e]).

Lemma dotted_outside x : (x < 46 ∨ 57 < x) → x ∉ dotted a b d e.
Proof.
  intros Hx Hin. pose proof (dotted_codes _ _ _ _ H) as F. rewrite Forall_forall in F.
  apply F in Hin. lia.
Qed.

Lemma dotted_trim : Trim [91; 93] (dotted a b d e) = dotted a b d e.
Proof.
  apply Trim_id, Forall_forall. intros x Hx [->|[->|?]%elem_of_cons]%elem_of_cons.
  - by apply (dotted_outside 91); [lia|].
  - by apply (dotted_outside 93); [lia|].
  - by apply elem_of_nil in H0.
Qed.

Lemma dotted_head : ∃ x l, dotted a b d e = x :: l ∧ 48 <= x <= 57.
Proof.
  apply Forall_cons in H as [Ha _]. destruct (octet_codes a Ha) as [F N]. unfold dotted.
  destruct (digits 20 a) as [|x l]; [done|]. apply Forall_cons in F as [? _]. by exists x, (l ++ 46 :: digits 20 b ++ 46 :: digits 20 d ++ 46 :: digits 20 e).
Qed.

Lemma dotted_fold s c r : chars s = c :: r → 97 <= c → EqualFold (dotted a b d e) s = false.
Proof.
  intros Hs Hc. unfold EqualFold. apply bool_decide_eq_false_2. rewrite Hs.
  destruct dotted_head as (x & l & -> & Hx). destruct l as [|y [|z l]]; cbn; ztest; cbn;
    unfold lower_code; ztest; cbn; intros [= ? ?]; lia.
Qed.

Lemma split_dotted port : Forall (λ x, x ∉ [58; 91; 93]) port →
  split_host_port (dotted a b d e ++ 58 :: port) = Ok (dotted a b d e, port).
Proof.
  intros P. assert (Hp : ∀ x, x ∈ [58; 91; 93] → x ∉ port).
  { intros x Hx Hin. rewrite Forall_forall in P. by apply (P x). }
  assert (Hn : ∀ x, x ∈ [91; 93] → IndexByte x (dotted a b d e ++ 58 :: port) = None).
  { intros x Hx. apply IndexByte_None. rewrite not_elem_of_app, not_elem_of_cons. split_and!.
    - apply dotted_outside. apply list_elem_of_In in Hx. cbn in Hx. lia.
    - apply list_elem_of_In in Hx. cbn in Hx. lia.
    - apply Hp. by right. }
  unfold split_host_port. rewrite LastIndexByte_app by (apply Hp; left). unfold split_at.
  assert (Hh : bool_decide (head (dotted a b d e ++ 58 :: port) = Some 91) = false).
  { apply bool_decide_eq_false_2. destruct dotted_head as (x & l & -> & Hx). cbn. intros [= ->]. lia. }
  rewrite Hh, take_app_length, (proj2 (IndexByte_None 58 _)) by (apply dotted_outside; lia).
  rewrite (bool_decide_eq_false_2 (is_Some None)) by (by intros [? ?]). cbn [mbind result_bind].
  rewrite !drop_0, !Hn by (repeat (left || right)). cbn.
  by rewrite drop_app_add.
Qed.
End Dotted.

(** Demo mode.  With an IPv4 listening address the demo actions are allowed
    exactly in demo mode on a loopback address, or on the wildcard address in
    container mode; with any other address outside container mode only when the
    host is [localhost] or parses to a loopback address. *)
Theorem demo_allowed_local c :
  (∀ a b d e port,
     Forall (λ x, 0 <= x <= 255) [a; b; d; e] → Forall (λ x, x ∉ [58; 91; 93]) port →
     chars (HTTPAddr c) = dotted a b d e ++ 58 :: port →
     DemoAllowed c = DemoMode c && ((a =? 127) || ContainerMode c && bool_decide ([a; b; d; e] = [0; 0; 0; 0]))) ∧
  (DemoAllowed c = true → ContainerMode c = false →
     ∃ host port, split_host_port (chars (HTTPAddr c)) = Ok (host, port) ∧ DemoMode c = true ∧
       (EqualFold (Trim [91; 93] host) "localhost" = true ∨
        ParseIP (Trim [91; 93] host) = Some IPv6loopback ∨
        ∃ d, ParseIP (Trim [91; 93] host) = Some (replicate 10 0 ++ [255; 255; 127] ++ d))).
Proof.
  split.
  - intros a b d e port H P E. unfold DemoAllowed. destruct (DemoMode c); [|done]. cbn [negb andb].
    rewrite E, split_dotted, dotted_trim, (dotted_fold _ _ _ _ H "localhost" 108 (tl (chars "localhost"))), ParseIP_dotted
      by (done || lia).
    unfold IsLoopback. rewrite bool_decide_eq_true_2 by done. cbn [lookup list_lookup app replicate].
    rewrite (bool_decide_ext (Some a = Some 127) (a = 127)) by (split; [by intros [= ->]|by intros ->]).
    rewrite (bool_decide_ext (a = 127) ((a =? 127) = true)) by (by rewrite Z.eqb_eq).
    destruct (a =? 127) eqn:E127; [by rewrite bool_decide_eq_true_2|].
    rewrite bool_decide_eq_false_2 by done. cbn [orb]. f_equal.
    destruct (dotted_head a b d e H) as (x & l & Hd & Hx).
    rewrite (bool_decide_eq_false_2 (dotted a b d e = [])) by (by rewrite Hd).
    rewrite (bool_decide_eq_false_2 (dotted a b d e = chars "::")), orb_false_r
      by (rewrite Hd; change (chars "::") with [58; 58]; intros [=]; lia).
    cbn [orb]. apply bool_decide_ext. split.
    + intros E0. pose proof (parse_dotted _ _ _ _ H) as Hp. rewrite E0 in Hp. vm_compute in Hp. by injection Hp as <- <- <- <-.
    + by intros [= -> -> -> ->].
  - unfold DemoAllowed. destruct (DemoMode c); [|done]. cbn [negb].
    destruct (split_host_port _) as [[host port]|]; [|done]. intros D C. exists host, port. split_and!; [done..|].
    rewrite C in D. cbn [andb] in D. destruct (EqualFold _ _); [by left|right].
    destruct (ParseIP _) as [ip|]; [|done]. destruct (IsLoopback ip) eqn:L; [|done]. clear D.
    unfold IsLoopback in L. case_bool_decide as E; [right|left; apply bool_decide_eq_true in L; by rewrite L].
    apply bool_decide_eq_true in L. exists (drop 13 ip). f_equal.
    rewrite <- (take_drop 12 ip) at 1. rewrite E, (drop_S ip 127 12) by done. done.
Qed.

Lemma demo_allowed_local_witness :
  let c := Defaults <| DemoMode := true |> <| HTTPAddr := "127.8.0.1:80" |> in
  DemoAllowed c = true ∧ DemoAllowed (c <| HTTPAddr := "10.0.0.1:80" |>) = false.
Proof.
  intros c. split.
  - etrans; [apply (proj1 (demo_allowed_local c) 127 8 0 1 (chars "80"))|]; [..|vm_compute; reflexivity];
      first [vm_compute; reflexivity|apply (bool_decide_unpack _); vm_compute; exact I].
  - vm_compute. reflexivity.
Defined.

Definition sample_env (name : string) : option string :=
  if decide (name = "MINILOGBACK_BATCH_SIZE") then Some "16"
  else if decide (name = "MINILOGBACK_FLUSH_INTERVAL") then Some "1.5s"
  else if decide (name = "MINILOGBACK_SINK") then Some " network " else None.

Lemma parse_spec_witness :
  obeys sample_env (Defaults <| BatchSize := 16 |> <| FlushInterval := 1500 * Millisecond |> <| Sink := "network" |>) ∧
  Parse (λ name, if decide (name = "MINILOGBACK_BATCH_SIZE") then Some "65537" else None) true
  = Err (ErrNew "MINILOGBACK_BATCH_SIZE must be between 1 and ring capacity").
Proof.
  split; [|vm_compute; reflexivity].
  apply (proj1 (parse_spec sample_env true _)). vm_compute. reflexivity.
Defined.
