(* ===== verification/Observer.v ===== *)
(** * Latencies of the sink (cmd/minilogbackd/sink_observer.go)

    [observedSink] times every batch written through it: the last 2048 durations
    and their 95th percentile. *)

From stdpp Require Import gmap strings list sorting.
From Stdlib Require Import ZArith Lia.
From S2P Require Import Prelude GoLib GoText.

(** [cap(s.times)], set by [newObservedSink]. *)
Definition window : nat := 2048.

Record observedSink := mkObserved { mode : string; times : list Z; next : nat }.

#[export] Instance observedSink_fields : Fields observedSink := λ r,
  mkObserved (mode r) (times r) (next r).

Definition newObservedSink (mode : string) : observedSink := mkObserved mode [] 0.

(** The bookkeeping of [WriteBatch] after the inner call took [elapsed]. *)
Definition observe (elapsed : Z) (s : observedSink) : observedSink :=
  let elapsed := u64 elapsed in
  if (length (times s) <? window)%nat then s <| times ::= λ l, l ++ [elapsed] |>
  else s <| times ::= <[next s := elapsed]> |>
         <| next ::= λ n, ((n + 1) mod length (times s))%nat |>.

(** [WriteBatch] around a sink of any kind. *)
Definition observed_WriteBatch {S E : Type} (write : list (list Byte.byte) → S → S * E)
  (elapsed : Z) (records : list (list Byte.byte)) (s : observedSink) (inner : S) : observedSink * S * E :=
  let '(inner, err) := write records inner in (observe elapsed s, inner, err).

Definition sorted (l : list Z) : list Z := merge_sort Z.le l.

(** The index [p95Micros] reads; [None] without samples. *)
Definition p95_index (n : nat) : nat := ((95 * n + 99) / 100 - 1)%nat.

Definition p95_nanos (s : observedSink) : option Z := sorted (times s) !! p95_index (length (times s)).

Definition p95Micros (s : observedSink) : float64 :=
  match times s with
  | [] => float_of 0
  | _ => float_div (float_of (default 0 (p95_nanos s))) (float_of 1000)
  end.

#[global] Arguments window : simpl never.

Lemma window_pos : (0 < window)%nat.
Proof. by apply Nat.ltb_lt. Qed.

(** ** The window *)

(** The last [window] elements. *)
Definition latest (l : list Z) : list Z := drop (length l - window) l.

Definition observed_all (l : list Z) (s : observedSink) : observedSink := foldl (λ s d, observe d s) s l.

(** The slots in the order they were written. *)
Definition in_order (s : observedSink) : list Z := drop (next s) (times s) ++ take (next s) (times s).

Record window_ok (l : list Z) (s : observedSink) : Prop := mkWindow {
  ok_order : in_order s = latest l;
  ok_fill : (length (times s) < window)%nat → next s = 0%nat;
  ok_next : (next s < window)%nat
}.

Lemma length_latest l : length (latest l) = Nat.min (length l) window.
Proof. unfold latest. rewrite length_drop. lia. Qed.

Lemma length_in_order s : (next s <= length (times s))%nat → length (in_order s) = length (times s).
Proof. unfold in_order. rewrite length_app, length_drop, length_take. lia. Qed.

Lemma latest_snoc l d : latest (l ++ [d]) = drop (length (latest l) + 1 - window) (latest l) ++ [d].
Proof.
  pose proof window_pos. unfold latest at 1 3. rewrite length_latest, length_app, drop_drop. cbn [length].
  rewrite drop_app_le by lia. do 2 f_equal. lia.
Qed.

Lemma observe_window l d s :
  (next s <= length (times s))%nat → window_ok l s → window_ok (l ++ [u64 d]) (observe d s) ∧
  (next (observe d s) <= length (times (observe d s)))%nat.
Proof.
  pose proof window_pos. intros Hn [O F N]. pose proof (length_in_order s Hn) as L. rewrite O in L.
  unfold observe. destruct (Nat.ltb_spec (length (times s)) window) as [Hlt|Hge].
  - assert (next s = 0%nat) as E by auto. unfold in_order in O. rewrite E in *.
    rewrite drop_0, take_0, app_nil_r in O.
    split; [split|]; unfold in_order; cbn; rewrite ?E, ?drop_0, ?take_0, ?app_nil_r; [|done|done|lia].
    rewrite latest_snoc, <- O. by replace (length (times s) + 1 - window)%nat with 0%nat by lia.
  - assert (length (times s) = window) as Hw.
    { pose proof (length_latest l). lia. }
    assert (Hmod : ((next s + 1) mod length (times s) =
      if decide (next s + 1 = window) then 0 else next s + 1)%nat).
    { rewrite Hw. case_decide as D; [rewrite D; apply Nat.Div0.mod_same|apply Nat.mod_small; lia]. }
    split; [split|]; cbn -[window Nat.modulo]; rewrite ?length_insert, ?Hmod;
      [|intros; lia|case_decide; lia|case_decide; lia].
    rewrite latest_snoc, <- O, (length_in_order s Hn), Hw.
    replace (window + 1 - window)%nat with 1%nat by lia.
    unfold in_order. cbn -[window Nat.modulo drop take].
    assert (Hd : drop (next s) (times s) ≠ []).
    { intros D. apply (f_equal length) in D. rewrite length_drop in D. cbn in D. lia. }
    rewrite drop_app_le by (destruct (drop (next s) (times s)); cbn; [done|lia]).
    rewrite drop_drop. case_decide as D.
    + rewrite drop_0, take_0, app_nil_r, drop_ge by lia. cbn.
      rewrite insert_take_drop by lia. rewrite (drop_ge (times s)) by lia. done.
    + rewrite drop_insert_lt by lia. rewrite <- app_assoc. f_equal.
      rewrite Nat.add_1_r, (take_S_r _ _ (u64 d)) by (rewrite list_lookup_insert_eq; [done|lia]).
      by rewrite take_insert_ge by lia.
Qed.

Lemma observed_all_window l : ∀ m s,
  (next s <= length (times s))%nat → window_ok m s → window_ok (m ++ map u64 l) (observed_all l s).
Proof.
  induction l as [|d l IH]; intros m s Hn H; cbn; [by rewrite app_nil_r|].
  destruct (observe_window m d s Hn H) as [H' Hn']. specialize (IH _ _ Hn' H').
  by rewrite <- app_assoc in IH.
Qed.

(** ** The percentile *)

Lemma sorted_Permutation l : sorted l ≡ₚ l.
Proof. apply merge_sort_Permutation. Qed.

Lemma length_sorted l : length (sorted l) = length l.
Proof. by rewrite sorted_Permutation. Qed.

Lemma sorted_Sorted l : StronglySorted Z.le (sorted l).
Proof. apply StronglySorted_merge_sort; [intros x y z; lia|intros x y; lia]. Qed.

Lemma p95_index_bounds n : (0 < n)%nat →
  (p95_index n < n)%nat ∧ (95 * n <= 100 * (p95_index n + 1))%nat ∧ (100 * p95_index n < 95 * n)%nat.
Proof.
  intros. unfold p95_index. pose proof (Nat.div_mod_eq (95 * n + 99) 100).
  pose proof (Nat.mod_upper_bound (95 * n + 99) 100). lia.
Qed.

(** How many of [l] satisfy [P]. *)
Definition count (P : Z → bool) (l : list Z) : nat := length (base.filter (λ x, P x = true) l).

Lemma count_app P l1 l2 : count P (l1 ++ l2) = (count P l1 + count P l2)%nat.
Proof. unfold count. by rewrite filter_app, length_app. Qed.

Lemma count_Permutation P l1 l2 : l1 ≡ₚ l2 → count P l1 = count P l2.
Proof. intros E. unfold count. by rewrite E. Qed.

Lemma count_all P l : Forall (λ x, P x = true) l → count P l = length l.
Proof. unfold count. induction 1 as [|x l Hx _ IH]; [done|]. rewrite filter_cons_True by done. cbn. by rewrite IH. Qed.

Lemma count_none P l : Forall (λ x, P x = false) l → count P l = 0%nat.
Proof.
  unfold count. induction 1 as [|x l Hx _ IH]; [done|]. by rewrite filter_cons_False by (by rewrite Hx).
Qed.

Lemma count_le P l : (count P l <= length l)%nat.
Proof. unfold count. apply length_filter. Qed.

Definition at_most (v : Z) (l : list Z) : nat := count (λ x, x <=? v) l.
Definition below (v : Z) (l : list Z) : nat := count (λ x, x <? v) l.

(** The element at index [i] of a sorted list: what is below and above it. *)
Lemma sorted_rank l i v :
  StronglySorted Z.le l → l !! i = Some v →
  (i + 1 <= at_most v l)%nat ∧ (below v l <= i)%nat.
Proof.
  intros Hs Hi. pose proof (lookup_lt_Some _ _ _ Hi) as Hlt. rewrite <- (take_drop_middle l i v Hi) in Hs |- *.
  set (a := take i l) in *. set (b := drop (S i) l) in *.
  assert (La : length a = i) by (subst a; rewrite length_take; lia). clearbody a b.
  apply StronglySorted_app in Hs as (Hab & _ & Sb). apply StronglySorted_inv in Sb as [_ Hb].
  unfold at_most, below. rewrite !count_app. split.
  - rewrite (count_all _ a).
    + change (v :: b) with ([v] ++ b). rewrite count_app, (count_all _ [v]); [cbn; lia|].
      repeat constructor. apply Z.leb_le. lia.
    + apply Forall_forall. intros x Hx. apply Z.leb_le. apply Hab; [done|left].
  - rewrite (count_none _ (v :: b)); [pose proof (count_le (λ x, x <? v) a); lia|].
    constructor; [apply Z.ltb_ge; lia|]. eapply Forall_impl; [exact Hb|]. cbn. intros. apply Z.ltb_ge. lia.
Qed.

(** The latency window.  After any sequence of batches the sink holds the
    durations of the last 2048 of them, and the reported percentile is one of
    them with at least 95% of the window at or below it and less than 95% below
    it; it exists as soon as there is a sample. *)
Theorem p95_of_window m l :
  let s := observed_all l (newObservedSink m) in
  times s ≡ₚ latest (map u64 l) ∧ (length (times s) <= window)%nat ∧
  (l ≠ [] → ∃ v, p95_nanos s = Some v ∧ v ∈ latest (map u64 l) ∧
     (95 * length (times s) <= 100 * at_most v (times s))%nat ∧
     (100 * below v (times s) < 95 * length (times s))%nat).
Proof.
  intros s. destruct (observed_all_window l [] (newObservedSink m)) as [O _ _]; [done|split; try done|].
  { apply window_pos. }
  fold s in O. cbn [app] in O.
  assert (P : times s ≡ₚ latest (map u64 l)).
  { rewrite <- O. unfold in_order. rewrite Permutation_app_comm. by rewrite take_drop. }
  split; [done|]. split; [rewrite P, length_latest; lia|]. intros Hl.
  assert (Hn : (0 < length (times s))%nat).
  { rewrite P, length_latest, length_map. pose proof window_pos. destruct l; [done|cbn [length]; lia]. }
  destruct (p95_index_bounds _ Hn) as (H1 & H2 & H3).
  destruct (lookup_lt_is_Some_2 (sorted (times s)) (p95_index (length (times s)))) as [v Hv].
  { by rewrite length_sorted. }
  exists v. split; [done|]. split.
  { rewrite <- P, <- (sorted_Permutation (times s)). by apply list_elem_of_lookup_2 in Hv. }
  destruct (sorted_rank _ _ _ (sorted_Sorted _) Hv) as [R1 R2].
  unfold at_most, below in *.
  rewrite (count_Permutation _ _ _ (sorted_Permutation (times s))) in R1.
  rewrite (count_Permutation _ _ _ (sorted_Permutation (times s))) in R2. lia.
Qed.

Lemma p95_of_window_witness :
  let s := observed_all [30; 10; 20] (newObservedSink "writev") in
  p95_nanos s = Some 30 ∧ ∃ v, p95_nanos s = Some v.
Proof.
  intros s. split; [vm_compute; reflexivity|].
  destruct (p95_of_window "writev" [30; 10; 20]) as (_ & _ & H).
  destruct H as (v & Hv & _); [done|]. by exists v.
Defined.
