(* ===== verification/Telemetry.v ===== *)
(** * Telemetry (internal/telemetry/telemetry.go)

    Metrics records, [sample] with its rates, and the [Sampler]'s subscribers:
    channels of capacity one on which [broadcast] replaces what was not read.
    [Subscribe], the readers and the calls of [sample], which takes no lock, interleave. *)

From stdpp Require Import gmap strings list fin_maps sorting.
From Stdlib Require Import ZArith Lia.
From S2P Require Import Prelude GoLib GoText.

Definition ErrTooManySubscribers : error := ErrNew "too many telemetry subscribers".

(** ** Metrics *)

Record RingMetrics := mkRingMetrics {
  rm_Capacity : Z; Depth : Z; WatermarkPercent : float64; HighWatermark : Z;
  rm_PublishAttempts : Z; rm_Accepted : Z; rm_Consumed : Z; DroppedTotal : Z;
  DroppedByLevel : gmap string Z; PublishRate : float64; ConsumeRate : float64
}.

#[export] Instance RingMetrics_fields : Fields RingMetrics := λ r,
  mkRingMetrics (rm_Capacity r) (Depth r) (WatermarkPercent r) (HighWatermark r)
    (rm_PublishAttempts r) (rm_Accepted r) (rm_Consumed r) (DroppedTotal r) (DroppedByLevel r)
    (PublishRate r) (ConsumeRate r).

Record FlusherMetrics := mkFlusherMetrics {
  fm_Batches : Z; fm_Records : Z; fm_Bytes : Z; InFlight : Z; LastBatchSize : Z;
  FlushP95Micros : float64; fm_Errors : Z; fm_Mode : string
}.

Record PoolClass := mkPoolClass { pc_Size : Z; pc_InUse : Z; Available : Z }.

Record PoolMetrics := mkPoolMetrics {
  BorrowedTotal : Z; ReturnedTotal : Z; pm_Outstanding : Z; pm_Overdue : Z; pm_DoubleReturns : Z;
  pm_InvalidReturns : Z; HitPercent : float64; pm_Classes : list PoolClass
}.

Record CollectorMetrics := mkCollectorMetrics {
  cm_Connections : Z; cm_AcceptedBatches : Z; cm_DuplicateBatches : Z; cm_InvalidFrames : Z;
  cm_Overloaded : Z; cm_SinkErrors : Z
}.

Record RuntimeMetrics := mkRuntimeMetrics {
  Goroutines : Z; HeapBytes : Z; rt_DemoMode : bool; rt_AuditMode : string
}.

Record StatusMetrics := mkStatusMetrics { sm_Sink : string; sm_Collector : string; Transport : string }.

Record Snapshot := mkSnap {
  Sequence : Z; SampledAt : Z; sn_Ring : RingMetrics; sn_Flusher : FlusherMetrics;
  sn_Pool : PoolMetrics; sn_Collector : CollectorMetrics; sn_Runtime : RuntimeMetrics;
  sn_Status : StatusMetrics
}.

Record RawSnapshot := mkRaw {
  raw_Ring : RingMetrics; raw_Flusher : FlusherMetrics; raw_Pool : PoolMetrics;
  raw_Collector : CollectorMetrics; raw_DemoMode : bool; raw_AuditMode : string;
  raw_Status : StatusMetrics
}.

(** ** Sampling *)

Definition counterRate (current previous : Z) (seconds : float64) : float64 :=
  if current <? previous then float_of 0 else float_div (float_of (u64 (current - previous))) seconds.

Definition level_zeros : gmap string Z :=
  list_to_map [("debug", 0); ("info", 0); ("warn", 0); ("error", 0)].

(** The zeros overwritten by the input. *)
Definition normalizeLevels (input : gmap string Z) : gmap string Z := input ∪ level_zeros.

(** What the runtime adds: goroutines and heap. *)
Definition build (raw : RawSnapshot) (previous : option Snapshot) (now goroutines heap sequence : Z)
  : Snapshot :=
  let ring := raw_Ring raw in
  let ring := if 0 <? rm_Capacity ring
              then ring <| WatermarkPercent :=
                     float_div (float_mul (float_of (Depth ring)) (float_of 100))
                       (float_of (rm_Capacity ring)) |>
              else ring in
  let ring := match previous with
              | Some p =>
                  let seconds := Duration_Seconds (now - SampledAt p) in
                  if float_ltb (float_of 0) seconds
                  then ring <| PublishRate := counterRate (rm_Accepted ring) (rm_Accepted (sn_Ring p)) seconds |>
                            <| ConsumeRate := counterRate (rm_Consumed ring) (rm_Consumed (sn_Ring p)) seconds |>
                  else ring
              | None => ring
              end in
  let ring := ring <| DroppedByLevel ::= normalizeLevels |> in
  mkSnap sequence now ring (raw_Flusher raw) (raw_Pool raw) (raw_Collector raw)
    (mkRuntimeMetrics goroutines heap (raw_DemoMode raw) (raw_AuditMode raw)) (raw_Status raw).

(** [cloneSnapshot] copies what the fields share. *)
Definition cloneSnapshot (s : Snapshot) : Snapshot :=
  mkSnap (Sequence s) (SampledAt s) ((sn_Ring s) <| DroppedByLevel ::= normalizeLevels |>) (sn_Flusher s)
    (sn_Pool s) (sn_Collector s) (sn_Runtime s) (sn_Status s).

(** ** The sampler *)

(** A channel of capacity one: what it holds and the value of a sender that waits. *)
Record channel := mkChannel { buffered : option Snapshot; sender : option Snapshot }.

Record Sampler := mkSampler {
  interval : Z; maxClients : Z; sequence : Z; current : option Snapshot;
  subscribers : gmap Z nat; nextSubID : Z; channels : list channel
}.

#[export] Instance Sampler_fields : Fields Sampler := λ r,
  mkSampler (interval r) (maxClients r) (sequence r) (current r) (subscribers r) (nextSubID r) (channels r).

(** The snapshot, with the number [s.sequence.Add(1)] gives it; [s.current.Store]. *)
Definition sample_number (raw : RawSnapshot) (now : Z) (previous : option Snapshot) (goroutines heap : Z)
  (s : Sampler) : Sampler * Snapshot :=
  let s := s <| sequence ::= inc |> in (s, build raw previous now goroutines heap (sequence s)).

Definition sample_store (snapshot : Snapshot) (s : Sampler) : Sampler :=
  s <| current := Some (cloneSnapshot snapshot) |>.

(** [sample] up to the broadcast, undisturbed: the snapshot it stores and hands on. *)
Definition take_sample (raw : RawSnapshot) (now goroutines heap : Z) (s : Sampler) : Sampler * Snapshot :=
  let '(s, snapshot) := sample_number raw now (current s) goroutines heap s in (sample_store snapshot s, snapshot).

(** The selects of [broadcast] on one channel: with the buffer full, the receive
    lets a waiting sender in, and the second send finds the buffer full again. *)
Definition offer (value : Snapshot) (c : channel) : channel :=
  match buffered c with
  | None => mkChannel (Some value) (sender c)
  | Some _ =>
      match sender c with
      | Some waiting => mkChannel (Some waiting) None
      | None => mkChannel (Some value) None
      end
  end.

Definition broadcast (snapshot : Snapshot) (s : Sampler) : Sampler :=
  s <| channels ::= λ l, imap (λ i c,
         if decide (i ∈ map_img (SA := gset nat) (subscribers s)) then offer (cloneSnapshot snapshot) c else c) l |>.

Definition NewSampler (source_nil : bool) (interval maxClients : Z) (raw : RawSnapshot)
  (now goroutines heap : Z) : result Sampler :=
  if source_nil || (interval <=? 0) || (maxClients <=? 0)
  then Err (ErrNew "telemetry source, positive interval, and max clients are required")
  else
    let '(s, snapshot) := take_sample raw now goroutines heap (mkSampler interval maxClients 0 None ∅ 0 []) in
    Ok (broadcast snapshot s).

Definition empty_snapshot : Snapshot :=
  mkSnap 0 0 (mkRingMetrics 0 0 (float_of 0) 0 0 0 0 0 ∅ (float_of 0) (float_of 0))
    (mkFlusherMetrics 0 0 0 0 0 (float_of 0) 0 "") (mkPoolMetrics 0 0 0 0 0 0 (float_of 0) [])
    (mkCollectorMetrics 0 0 0 0 0 0) (mkRuntimeMetrics 0 0 false "") (mkStatusMetrics "" "" "").

Definition Current (s : Sampler) : Snapshot :=
  match current s with None => empty_snapshot | Some c => cloneSnapshot c end.

(** [Subscribe]: the registration; the channel's number. *)
Definition subscribe_register (s : Sampler) : Sampler * result (Z * nat) :=
  if maxClients s <=? Z.of_nat (base.size (subscribers s)) then (s, Err ErrTooManySubscribers)
  else
    let id := inc (nextSubID s) in
    let ch := length (channels s) in
    (s <| nextSubID := id |> <| subscribers ::= <[id := ch]> |>
       <| channels ::= λ l, l ++ [mkChannel None None] |>, Ok (id, ch)).

(** [updates <- value]: waits when the buffer is full. *)
Definition send (value : Snapshot) (c : channel) : channel :=
  match buffered c with
  | None => mkChannel (Some value) (sender c)
  | Some _ => mkChannel (buffered c) (Some value)
  end.

(** A receive: a waiting sender's value moves into the buffer. *)
Definition take_buffered (c : channel) : channel := mkChannel (sender c) None.

(** ** Interleaving *)

(** Program points of a [Subscribe] call and of its subscriber: reading
    [Current], sending the value, reading the channel (what was received, the last
    first), and after the clean-up goroutine. *)
Inductive client :=
| KCurrent (id : Z) (ch : nat)
| KSend (id : Z) (ch : nat) (value : Snapshot)
| KWait (id : Z) (ch : nat)
| KReading (id : Z) (ch : nat) (received : list Snapshot)
| KGone (id : Z) (received : list Snapshot)
| KRefused.

(** Program points of a call of [sample]: with the source's values, the time and the
    previous snapshot; with its snapshot numbered; with it stored, before the
    broadcast. *)
Inductive sampling :=
| SLoaded (raw : RawSnapshot) (now : Z) (previous : option Snapshot)
| SNumbered (snapshot : Snapshot)
| SStored (snapshot : Snapshot).

(** The calls of [sample] under way: 0 is [Run]'s, the others are [SampleNow]'s.  The
    two 64-bit counters are taken not to come round. *)
Record world := mkWorld {
  w_sampler : Sampler; w_samples : gmap nat sampling; w_running : bool; w_clients : list client
}.

#[export] Instance world_fields : Fields world := λ r,
  mkWorld (w_sampler r) (w_samples r) (w_running r) (w_clients r).

Definition set_client (i : nat) (k : client) (w : world) : world := w <| w_clients ::= <[i := k]> |>.
Definition set_sample (t : nat) (p : sampling) (w : world) : world := w <| w_samples ::= <[t := p]> |>.

(** [alone]: only [Run] samples, as in the daemon; otherwise any number of calls of
    [SampleNow] overlap with it and with each other. *)
Inductive step (alone : bool) : world → world → Prop :=
| step_load w t raw now :
    w_samples w !! t = None → (t = 0%nat → w_running w = true) → (alone = true → t = 0%nat) →
    step alone w (set_sample t (SLoaded raw now (current (w_sampler w))) w)
| step_number w t raw now previous goroutines heap :
    w_samples w !! t = Some (SLoaded raw now previous) → sequence (w_sampler w) < 2 ^ 64 - 1 →
    step alone w (let '(s, snapshot) := sample_number raw now previous goroutines heap (w_sampler w) in
                  set_sample t (SNumbered snapshot) (w <| w_sampler := s |>))
| step_store w t snapshot :
    w_samples w !! t = Some (SNumbered snapshot) →
    step alone w (set_sample t (SStored snapshot) (w <| w_sampler ::= sample_store snapshot |>))
| step_broadcast w t snapshot :
    w_samples w !! t = Some (SStored snapshot) →
    step alone w (w <| w_sampler ::= broadcast snapshot |> <| w_samples ::= delete t |>)
| step_stop w : w_samples w !! 0%nat = None → step alone w (w <| w_running := false |>)
| step_subscribe w :
    nextSubID (w_sampler w) < 2 ^ 64 - 1 →
    step alone w (let '(s, r) := subscribe_register (w_sampler w) in
            w <| w_sampler := s |> <| w_clients ::= λ l, l ++ [match r with
                                        | Ok (id, ch) => KCurrent id ch
                                        | Err _ => KRefused
                                        end] |>)
| step_current w i id ch :
    w_clients w !! i = Some (KCurrent id ch) →
    step alone w (set_client i (KSend id ch (Current (w_sampler w))) w)
| step_send w i id ch value :
    w_clients w !! i = Some (KSend id ch value) →
    step alone w (set_client i (KWait id ch) (w <| w_sampler ::= update_with channels (alter (send value) ch) |>))
| step_sent w i id ch c :
    w_clients w !! i = Some (KWait id ch) → channels (w_sampler w) !! ch = Some c → sender c = None →
    step alone w (set_client i (KReading id ch []) w)
| step_receive w i id ch received c value :
    w_clients w !! i = Some (KReading id ch received) →
    channels (w_sampler w) !! ch = Some c → buffered c = Some value →
    step alone w (set_client i (KReading id ch (value :: received))
              (w <| w_sampler ::= update_with channels (alter take_buffered ch) |>))
| step_cancel w i id ch received :
    w_clients w !! i = Some (KReading id ch received) →
    step alone w (set_client i (KGone id received) (w <| w_sampler ::= update_with subscribers (delete id) |>)).

Definition init (w : world) : Prop :=
  ∃ n max raw now g h s,
    NewSampler false n max raw now g h = Ok s ∧ w = mkWorld s ∅ true [].

Definition world_reach (alone : bool) : world → Prop := reach init (step alone).

(** ** The invariant *)

(** Newest first. *)
Definition descending (l : list Snapshot) : Prop := StronglySorted (λ a b, Sequence b <= Sequence a) l.

(** Identifier and channel of a call that is registered. *)
Definition live (k : client) : option (Z * nat) :=
  match k with
  | KCurrent id ch | KSend id ch _ | KWait id ch | KReading id ch _ => Some (id, ch)
  | _ => None
  end.

(** No number beyond [seq]. *)
Definition bounded (seq : Z) (l : list Snapshot) : Prop := Forall (λ v, Sequence v <= seq) l.

Section Invariant.
Context (alone : bool).

(** What holds of a client, its channel [c] and the newest sequence number. *)
Definition client_ok (seq : Z) (c : channel) (k : client) : Prop :=
  match k with
  | KCurrent _ _ => sender c = None
  | KSend _ _ value => sender c = None ∧ Sequence value <= seq
  | KWait _ _ => is_Some (sender c) → is_Some (buffered c)
  | KReading _ _ received =>
      sender c = None ∧ bounded seq received ∧
      (alone = true → descending received ∧
         ∀ a v, head received = Some a → buffered c = Some v → Sequence a <= Sequence v)
  | _ => True
  end.

(** The snapshot a call of [sample] has built. *)
Definition built (p : sampling) : option Snapshot :=
  match p with SLoaded _ _ _ => None | SNumbered snapshot | SStored snapshot => Some snapshot end.

Definition channel_ok (seq : Z) (c : channel) : Prop :=
  (∀ v, buffered c = Some v → Sequence v <= seq) ∧ (∀ v, sender c = Some v → Sequence v <= seq).

Record world_ok (w : world) : Prop := mkWorldOk {
  o_bound : Z.of_nat (base.size (subscribers (w_sampler w))) <= maxClients (w_sampler w);
  o_next : nextSubID (w_sampler w) = Z.of_nat (length (channels (w_sampler w)));
  o_seq : 0 <= sequence (w_sampler w) < 2 ^ 64;
  o_current : ∀ c, current (w_sampler w) = Some c → Sequence c <= sequence (w_sampler w);
  o_alone : alone = true → ∀ t, is_Some (w_samples w !! t) → t = 0%nat;
  o_sampling : ∀ t p c, w_samples w !! t = Some p → built p = Some c →
    Sequence c <= sequence (w_sampler w) ∧ (alone = true → Sequence c = sequence (w_sampler w));
  o_subs : ∀ id ch, subscribers (w_sampler w) !! id = Some ch →
    id = Z.of_nat ch + 1 ∧ (ch < length (channels (w_sampler w)))%nat;
  o_live : ∀ i k id ch, w_clients w !! i = Some k → live k = Some (id, ch) →
    subscribers (w_sampler w) !! id = Some ch ∧
    ∃ c, channels (w_sampler w) !! ch = Some c ∧ client_ok (sequence (w_sampler w)) c k;
  o_own : ∀ i j k k' id id' ch, w_clients w !! i = Some k → w_clients w !! j = Some k' →
    live k = Some (id, ch) → live k' = Some (id', ch) → i = j;
  o_gone : ∀ i id received, w_clients w !! i = Some (KGone id received) →
    bounded (sequence (w_sampler w)) received ∧ (alone = true → descending received);
  o_chan : Forall (channel_ok (sequence (w_sampler w))) (channels (w_sampler w))
}.

Lemma bounded_mono seq seq' l : seq <= seq' → bounded seq l → bounded seq' l.
Proof. intros H Hl. eapply Forall_impl; [exact Hl|]. intros v ?; cbn in *; lia. Qed.

Lemma client_ok_mono seq seq' c k : seq <= seq' → client_ok seq c k → client_ok seq' c k.
Proof.
  intros H. destruct k; cbn; try done.
  - intros []. split; [done|lia].
  - intros (? & ? & ?). split_and!; [done|by eapply bounded_mono|done].
Qed.

Lemma channel_ok_mono seq seq' c : seq <= seq' → channel_ok seq c → channel_ok seq' c.
Proof. intros H [A B]. split; intros v Hv; [apply A in Hv|apply B in Hv]; lia. Qed.

(** A client changes its own channel and its program point. *)
Lemma world_ok_client w i k k' id ch (f : channel → channel) :
  world_ok w → w_clients w !! i = Some k → live k = Some (id, ch) → live k' = Some (id, ch) →
  (∀ c, channels (w_sampler w) !! ch = Some c → channel_ok (sequence (w_sampler w)) c →
     client_ok (sequence (w_sampler w)) c k →
     channel_ok (sequence (w_sampler w)) (f c) ∧ client_ok (sequence (w_sampler w)) (f c) k') →
  world_ok (set_client i k' (w <| w_sampler ::= update_with channels (alter f ch) |>)).
Proof.
  intros [] Hi Hk Hk' Hf. destruct (o_live0 _ _ _ _ Hi Hk) as (Hs & c & Hc & Hok).
  assert (channel_ok (sequence (w_sampler w)) c) as Hcok by (eapply Forall_lookup_1; done).
  destruct (Hf c Hc Hcok Hok) as [Hc' Hok'].
  split; cbn; try done.
  - by rewrite length_alter.
  - intros id' ch'. rewrite length_alter. apply o_subs0.
  - intros j k0 id0 ch0 Hj Hl. destruct (decide (i = j)) as [<-|Hne].
    + rewrite list_lookup_insert_eq in Hj by (by eapply lookup_lt_Some). simplify_eq.
      split; [done|]. exists (f c). by rewrite list_lookup_alter_eq, Hc.
    + rewrite list_lookup_insert_ne in Hj by done. destruct (o_live0 _ _ _ _ Hj Hl) as (? & c0 & ? & ?).
      split; [done|]. exists c0. rewrite list_lookup_alter_ne; [done|]. intros ->. by apply Hne; eauto.
  - intros j j' k0 k0' id0 id0' ch0 Hj Hj' L L'.
    assert (Hback : ∀ j k1 id1, <[i := k']> (w_clients w) !! j = Some k1 → live k1 = Some (id1, ch0) →
      ∃ k2 id2, w_clients w !! j = Some k2 ∧ live k2 = Some (id2, ch0)).
    { intros j1 k1 id1 Hj1 L1. destruct (decide (i = j1)) as [<-|].
      - rewrite list_lookup_insert_eq in Hj1 by (by eapply lookup_lt_Some). simplify_eq. eauto.
      - rewrite list_lookup_insert_ne in Hj1 by done. eauto. }
    destruct (Hback _ _ _ Hj L) as (? & ? & ? & ?), (Hback _ _ _ Hj' L') as (? & ? & ? & ?). eauto.
  - intros j id0 received Hj. destruct (decide (i = j)) as [<-|].
    + rewrite list_lookup_insert_eq in Hj by (by eapply lookup_lt_Some). by simplify_eq.
    + rewrite list_lookup_insert_ne in Hj by done. eauto.
  - apply Forall_alter; [done|]. intros c0 Hc0. by simplify_eq.
Qed.

(** The same for a step that leaves the channels alone. *)
Lemma world_ok_point w i k k' id ch :
  world_ok w → w_clients w !! i = Some k → live k = Some (id, ch) → live k' = Some (id, ch) →
  (∀ c, channels (w_sampler w) !! ch = Some c → channel_ok (sequence (w_sampler w)) c →
     client_ok (sequence (w_sampler w)) c k → client_ok (sequence (w_sampler w)) c k') →
  world_ok (set_client i k' w).
Proof.
  intros Hw Hi L L' H. replace w with (w <| w_sampler ::= update_with channels (alter (λ c, c) ch) |>) at 1.
  - eapply world_ok_client; try done. auto.
  - destruct w as [[] ? ? ?]. cbn. do 2 f_equal. apply list_eq. intros j.
    destruct (decide (ch = j)) as [->|]; [rewrite list_lookup_alter_eq|by rewrite list_lookup_alter_ne].
    by destruct (_ !! j).
Qed.

Lemma Current_seq w : world_ok w → Sequence (Current (w_sampler w)) <= sequence (w_sampler w).
Proof.
  intros []. unfold Current. destruct (current (w_sampler w)) as [c|]; cbn; [|lia].
  by apply o_current0.
Qed.

(** The calls of [sample]. *)
Lemma load_ok w t raw now :
  world_ok w → (alone = true → t = 0%nat) →
  world_ok (set_sample t (SLoaded raw now (current (w_sampler w))) w).
Proof.
  intros [] Ht. split; cbn; try done.
  - intros Ha t' [p Hp]. apply lookup_insert_Some in Hp as [[<- _]|[_ Hp]]; [by apply Ht|by eapply o_alone0].
  - intros t' p c [[_ <-]|[_ Hp]]%lookup_insert_Some; [done|by apply (o_sampling0 t')].
Qed.

Lemma number_ok w t raw now previous g h :
  world_ok w → w_samples w !! t = Some (SLoaded raw now previous) → sequence (w_sampler w) < 2 ^ 64 - 1 →
  world_ok (let '(s, snapshot) := sample_number raw now previous g h (w_sampler w) in
            set_sample t (SNumbered snapshot) (w <| w_sampler := s |>)).
Proof.
  intros [] Ht B. assert (E : inc (sequence (w_sampler w)) = sequence (w_sampler w) + 1) by (apply inc_small; lia).
  split; cbn; rewrite ?E; try done; try lia.
  - intros c Hc. specialize (o_current0 c Hc). lia.
  - intros Ha t' [p Hp]. apply (o_alone0 Ha). apply lookup_insert_Some in Hp as [[<- _]|[_ Hp]]; by eexists.
  - intros t' p c [[_ <-]|[Hne Hp]]%lookup_insert_Some Hb.
    + injection Hb as <-. cbn. split; [lia|done].
    + destruct (o_sampling0 t' p c Hp Hb) as [? ?]. split; [lia|]. intros Ha.
      rewrite (o_alone0 Ha t), (o_alone0 Ha t') in Hne by (by eexists). done.
  - intros i k id ch Hi L. destruct (o_live0 i k id ch Hi L) as (? & c & ? & ?). split; [done|].
    exists c. split; [done|]. eapply client_ok_mono; [|done]. lia.
  - intros i id received Hi. destruct (o_gone0 _ _ _ Hi). split; [|done]. eapply bounded_mono; [|done]. lia.
  - eapply Forall_impl; [done|]. intros c. apply channel_ok_mono. lia.
Qed.

Lemma store_ok w t snapshot :
  world_ok w → w_samples w !! t = Some (SNumbered snapshot) →
  world_ok (set_sample t (SStored snapshot) (w <| w_sampler ::= sample_store snapshot |>)).
Proof.
  intros [] Ht. destruct (o_sampling0 _ _ _ Ht eq_refl). split; cbn; try done.
  - by intros c [= <-].
  - intros Ha t' [p Hp]. apply (o_alone0 Ha). apply lookup_insert_Some in Hp as [[<- _]|[_ Hp]]; by eexists.
  - intros t' p c [[_ <-]|[_ Hp]]%lookup_insert_Some; [by intros [= <-]|by apply (o_sampling0 t')].
Qed.

Lemma lookup_broadcast sn s ch c :
  channels s !! ch = Some c →
  channels (broadcast sn s) !! ch =
    Some (if decide (ch ∈ map_img (SA := gset nat) (subscribers s)) then offer (cloneSnapshot sn) c else c).
Proof. intros H. cbn. by rewrite list_lookup_imap, H. Qed.

Lemma offer_channel_ok seq v c : Sequence v <= seq → channel_ok seq c → channel_ok seq (offer v c).
Proof.
  intros Hv [A B]. unfold offer. destruct (buffered c) eqn:Eb, (sender c) eqn:Es; split; cbn;
    intros x [= <-]; auto.
Qed.

Lemma offer_client_ok seq v c k :
  (alone = true → Sequence v = seq) → client_ok seq c k → client_ok seq (offer v c) k.
Proof.
  intros Hv. unfold offer. destruct k as [| | |? ? received|? ?|]; cbn; try done.
  - intros E. rewrite E. by destruct (buffered c).
  - intros [E ?]. rewrite E. by destruct (buffered c).
  - destruct (buffered c), (sender c); cbn; eauto.
  - intros (E & D & H). rewrite E. split_and!; [by destruct (buffered c)|done|].
    intros Ha. destruct (H Ha) as [? _]. split; [done|]. intros a x Hx.
    assert (Sequence a <= Sequence v).
    { rewrite (Hv Ha). destruct received as [|y l]; [done|]. injection Hx as ->. by inversion D. }
    destruct (buffered c); cbn; by intros [= <-].
Qed.

Lemma broadcast_ok w t sn :
  world_ok w → w_samples w !! t = Some (SStored sn) →
  world_ok (w <| w_sampler ::= broadcast sn |> <| w_samples ::= delete t |>).
Proof.
  intros [] Ht. destruct (o_sampling0 _ _ _ Ht eq_refl) as [Hle Hseq].
  split; cbn; rewrite ?length_imap; try done.
  - intros Ha t' [p [_ Hp]%lookup_delete_Some]. apply (o_alone0 Ha). by eexists.
  - intros t' p c [_ Hp]%lookup_delete_Some. by apply (o_sampling0 t').
  - intros i k id ch Hi L. destruct (o_live0 i k id ch Hi L) as (Hsub & c & Hc & Hok). split; [done|].
    rewrite list_lookup_imap, Hc. cbn [fmap option_fmap option_map]. eexists; split; [done|]. rewrite decide_True.
    + by apply offer_client_ok.
    + by eapply elem_of_map_img_2.
  - apply Forall_lookup_2. intros j c. rewrite list_lookup_imap. intros (c0 & Hc0 & ->)%fmap_Some.
    pose proof (Forall_lookup_1 _ _ _ _ o_chan0 Hc0). case_decide; [|done].
    by apply offer_channel_ok.
Qed.

Lemma subscribe_ok w :
  world_ok w → nextSubID (w_sampler w) < 2 ^ 64 - 1 →
  world_ok (let '(s, r) := subscribe_register (w_sampler w) in
            w <| w_sampler := s |> <| w_clients ::= λ l, l ++ [match r with
                                        | Ok (id, ch) => KCurrent id ch
                                        | Err _ => KRefused
                                        end] |>).
Proof.
  intros [] B. unfold subscribe_register.
  assert (Hsnoc : ∀ k i k0, (w_clients w ++ [k]) !! i = Some k0 →
    w_clients w !! i = Some k0 ∨ i = length (w_clients w) ∧ k0 = k).
  { intros k i k0 Hi. apply lookup_app_Some in Hi as [?|[? Hi]]; [by left|right].
    apply list_lookup_singleton_Some in Hi as [? ->]. split; [lia|done]. }
  destruct (maxClients (w_sampler w) <=? _) eqn:F; zbool.
  - split; cbn; try done.
    + intros i k id ch [Hi|[-> ->]]%Hsnoc L; [eauto|done].
    + intros i j k k' id id' ch [Hi|[-> ->]]%Hsnoc [Hj|[-> ->]]%Hsnoc L L'; try done. eauto.
    + intros i id received [Hi|[? ?]]%Hsnoc; [eauto|done].
  - assert (E : inc (nextSubID (w_sampler w)) = Z.of_nat (length (channels (w_sampler w))) + 1)
      by (rewrite inc_small; lia).
    assert (Hnew : subscribers (w_sampler w) !! inc (nextSubID (w_sampler w)) = None).
    { apply eq_None_not_Some. intros [ch Hch]. destruct (o_subs0 _ _ Hch). lia. }
    split; cbn; rewrite ?length_app; cbn [length]; try done.
    + rewrite map_size_insert_None by done. lia.
    + lia.
    + intros id ch [[<- <-]|[? Hch]]%lookup_insert_Some; [lia|]. destruct (o_subs0 _ _ Hch). lia.
    + intros i k id ch [Hi|[-> ->]]%Hsnoc L.
      * destruct (o_live0 _ _ _ _ Hi L) as (Hs & c & Hc & ?). split.
        -- rewrite lookup_insert_ne; [done|]. intros <-. by rewrite Hnew in Hs.
        -- exists c. by rewrite lookup_app_l by (by eapply lookup_lt_Some).
      * injection L as <- <-. rewrite lookup_insert_eq. split; [done|].
        exists (mkChannel None None). by rewrite lookup_app_r, Nat.sub_diag by lia.
    + intros i j k k' id id' ch [Hi|[-> ->]]%Hsnoc [Hj|[-> ->]]%Hsnoc L L'; try done; [eauto| |].
      * injection L' as _ <-. destruct (o_live0 _ _ _ _ Hi L) as (Hs & _). destruct (o_subs0 _ _ Hs). lia.
      * injection L as _ <-. destruct (o_live0 _ _ _ _ Hj L') as (Hs & _). destruct (o_subs0 _ _ Hs). lia.
    + intros i id received [Hi|[? ?]]%Hsnoc; [eauto|done].
    + apply Forall_app. split; [done|]. by repeat constructor.
Qed.

Lemma cancel_ok w i id ch received :
  world_ok w → w_clients w !! i = Some (KReading id ch received) →
  world_ok (set_client i (KGone id received) (w <| w_sampler ::= update_with subscribers (delete id) |>)).
Proof.
  intros [] Hi. pose proof (lookup_lt_Some _ _ _ Hi) as Hlt.
  destruct (o_live0 _ _ _ _ Hi eq_refl) as (Hs & c & Hc & (_ & D & D')).
  assert (Hback : ∀ j k, <[i := KGone id received]> (w_clients w) !! j = Some k →
    j = i ∧ k = KGone id received ∨ j ≠ i ∧ w_clients w !! j = Some k).
  { intros j k. destruct (decide (i = j)) as [<-|].
    - rewrite list_lookup_insert_eq by done. intros [= <-]. by left.
    - rewrite list_lookup_insert_ne by done. by right. }
  split; cbn; try done.
  - rewrite map_size_delete_Some by (by eexists). lia.
  - intros id' ch' [? H]%lookup_delete_Some. eauto.
  - intros j k id' ch' [[-> ->]|[Hne Hj]]%Hback L; [done|].
    destruct (o_live0 _ _ _ _ Hj L) as (Hs' & ?). split; [|done].
    rewrite lookup_delete_ne; [done|]. intros ->. rewrite Hs in Hs'. injection Hs' as ->. by eauto.
  - intros j j' k k' id1 id2 ch' [[-> ->]|[? Hj]]%Hback [[-> ->]|[? Hj']]%Hback L L'; try done. eauto.
  - intros j id' received' [[-> [= -> ->]]|[? Hj]]%Hback; [|eauto]. split; [done|]. intros Ha. by apply D'.
Qed.

Lemma receive_ok w i id ch received c value :
  world_ok w → w_clients w !! i = Some (KReading id ch received) →
  channels (w_sampler w) !! ch = Some c → buffered c = Some value →
  world_ok (set_client i (KReading id ch (value :: received))
              (w <| w_sampler ::= update_with channels (alter take_buffered ch) |>)).
Proof.
  intros Hw Hi Hc Hv. eapply world_ok_client; try done. intros c0 Hc0 [A B] (E & D & H). simplify_eq.
  unfold take_buffered. rewrite E. split; [done|]. split_and!; [done|constructor; [by apply A|done]|].
  intros Ha. destruct (H Ha) as [Hd Hh]. split; [|done]. constructor; [done|].
  destruct received as [|a r]; [done|]. apply StronglySorted_inv in Hd as [_ Hd].
  specialize (Hh a value eq_refl Hv). constructor; [done|]. eapply Forall_impl; [exact Hd|].
  cbn. intros x Hx. lia.
Qed.

Lemma step_ok w w' : world_ok w → step alone w w' → world_ok w'.
Proof.
  intros Hw Hs. destruct Hs.
  - by apply load_ok.
  - by eapply number_ok.
  - by apply store_ok.
  - by apply broadcast_ok.
  - destruct Hw. by split.
  - by apply subscribe_ok.
  - eapply world_ok_point; try done. intros c Hc Hcok E. split; [done|]. by apply Current_seq.
  - eapply world_ok_client; try done. intros c Hc [A B] [E V]. unfold send.
    split; [|destruct (buffered c); cbn; [by eexists|by rewrite E]].
    destruct (buffered c) eqn:Eb; split; cbn; intros x Hx; rewrite ?Eb, ?E in Hx; simplify_eq; auto.
  - eapply world_ok_point; try done. intros c0 Hc0 [A _] _. simplify_eq.
    split_and!; [done|constructor|]. intros _. by split; [constructor|].
  - by eapply receive_ok.
  - by eapply cancel_ok.
Qed.

Lemma reach_world_ok w : world_reach alone w → world_ok w.
Proof.
  intros H. induction H as [w (n & max & raw & now & g & h & s & HN & ->)|w w' _ IH Hs]; [|by eapply step_ok].
  unfold NewSampler in HN. destruct (_ || _) eqn:E; [done|]. apply orb_false_iff in E as [_ E]. zbool.
  apply Ok_inj in HN as <-. split; cbn; try done; try lia.
  - rewrite map_size_empty. lia.
  - by intros ? [= <-].
  - intros _ t. rewrite lookup_empty. by intros [].
Qed.
End Invariant.

(** ** Properties *)

(** C29. Fan-out.  [alone] says that only [Run] samples, as in the daemon; without
    it any calls of [SampleNow] overlap with [Run] and each other, since [sample]
    takes no lock.  In every interleaving of these calls, subscriptions, reads and
    cancellations there are never more subscribers than allowed, nobody receives a
    number that was not given out, and a broadcast leaves in each reader's channel
    exactly its snapshot.  When only [Run] samples, that snapshot is the newest
    and every subscriber receives snapshots in the order they were taken; with
    overlapping calls the order is not kept ([samples_reorder]). *)
Theorem sampler_fanout alone w :
  world_reach alone w →
  Z.of_nat (base.size (subscribers (w_sampler w))) <= maxClients (w_sampler w) ∧
  (∀ i id ch received, w_clients w !! i = Some (KReading id ch received) ∨
     w_clients w !! i = Some (KGone id received) →
     bounded (sequence (w_sampler w)) received ∧ (alone = true → descending received)) ∧
  ∀ t snapshot i id ch received,
    w_samples w !! t = Some (SStored snapshot) → w_clients w !! i = Some (KReading id ch received) →
    channels (broadcast snapshot (w_sampler w)) !! ch = Some (mkChannel (Some (cloneSnapshot snapshot)) None) ∧
    (alone = true → Sequence snapshot = sequence (w_sampler w)).
Proof.
  intros R. pose proof (reach_world_ok alone w R) as []. split_and!; [done| |].
  - intros i id ch received [Hi|Hi]; [|eauto].
    destruct (o_live0 _ _ _ _ Hi eq_refl) as (_ & c & _ & _ & Hb & Hd). split; [done|]. intros Ha. by apply Hd.
  - intros t sn i id ch received Hs Hi. destruct (o_live0 _ _ _ _ Hi eq_refl) as (Hsub & c & Hc & E & _).
    split; [|by apply (o_sampling0 t _ sn Hs)]. rewrite (lookup_broadcast _ _ _ c) by done. f_equal. rewrite decide_True.
    + unfold offer. rewrite E. by destruct (buffered c).
    + by eapply elem_of_map_img_2.
Qed.

(** A call of [Subscribe] that waits on its own channel, and nobody to broadcast. *)
Definition stalled (i : nat) (id : Z) (ch : nat) (w : world) : Prop :=
  w_clients w !! i = Some (KWait id ch) ∧ w_running w = false ∧ w_samples w = ∅ ∧
  ∃ c, channels (w_sampler w) !! ch = Some c ∧ is_Some (sender c).

Lemma stalled_step alone i id ch w w' :
  world_ok alone w → stalled i id ch w → step true w w' → stalled i id ch w'.
Proof.
  intros [] (Hi & Hr & Hs & c & Hc & Hsend) Hst. pose proof (lookup_lt_Some _ _ _ Hc) as Hlen.
  assert (Own : ∀ j k id' ch', w_clients w !! j = Some k → live k = Some (id', ch') → k ≠ KWait id ch →
    j ≠ i ∧ ch' ≠ ch).
  { intros j k id' ch' Hj L Hk. assert (j ≠ i) by (intros ->; by simplify_eq). split; [done|].
    intros ->. by eapply H, o_own0. }
  assert (Idle : ∀ t p, w_samples w !! t ≠ Some p) by (intros t p; by rewrite Hs, lookup_empty).
  unfold stalled. destruct Hst; try (by destruct (Idle _ _ H)); cbn.
  - rewrite (H1 eq_refl) in H0. rewrite H0 in Hr by done. done.
  - eauto 10.
  - unfold subscribe_register. destruct (_ <=? _); cbn.
    all: rewrite lookup_app_l by (by eapply lookup_lt_Some).
    all: split_and!; try done; exists c; rewrite ?lookup_app_l by done; done.
  - destruct (Own _ _ _ _ H eq_refl) as [? ?]; [done|].
    rewrite list_lookup_insert_ne by done. eauto 10.
  - destruct (Own _ _ _ _ H eq_refl) as [? ?]; [done|].
    rewrite list_lookup_insert_ne by done. split_and!; try done. exists c. by rewrite list_lookup_alter_ne.
  - destruct (decide (i0 = i)) as [->|].
    + rewrite Hi in H. injection H as <- <-. rewrite Hc in H0. injection H0 as <-. destruct Hsend. congruence.
    + rewrite list_lookup_insert_ne by done. eauto 10.
  - destruct (Own _ _ _ _ H eq_refl) as [? ?]; [done|].
    rewrite list_lookup_insert_ne by done. split_and!; try done. exists c. by rewrite list_lookup_alter_ne.
  - destruct (Own _ _ _ _ H eq_refl) as [? ?]; [done|].
    rewrite list_lookup_insert_ne by done. eauto 10.
Qed.

Lemma step_weaken alone w w' : step true w w' → step alone w w'.
Proof. intros H. destruct H; econstructor; eauto. Qed.

(** C35. A stalled subscription.  [Subscribe] registers the channel before it sends
    the first value: when a broadcast comes between, the send finds the only slot
    taken, and only another broadcast lets it go on.  Once [Run] has stopped, and
    nobody calls [SampleNow], which the daemon never does, the call never returns,
    whatever the other calls do and whether or not its own context ends, and its
    place among the subscribers stays taken. *)
Theorem subscribe_stalls alone w i id ch :
  world_reach alone w → stalled i id ch w →
  ∀ w', rtc (step true) w w' →
    w_clients w' !! i = Some (KWait id ch) ∧ subscribers (w_sampler w') !! id = Some ch.
Proof.
  intros R S w' Hrun. assert (H : world_ok alone w' ∧ stalled i id ch w').
  { apply reach_world_ok in R. clear - R S Hrun. induction Hrun as [|w w1 w' Hs _ IH]; [done|].
    apply IH; [by eapply step_ok, step_weaken|by eapply stalled_step]. }
  destruct H as [[] (Hi & _)]. split; [done|]. by destruct (o_live0 _ _ _ _ Hi eq_refl).
Qed.

(** ** Witnesses *)

Definition sample_raw (accepted : Z) : RawSnapshot :=
  mkRaw (mkRingMetrics 8 2 (float_of 0) 4 accepted accepted 0 0 {["warn" := 3]} (float_of 0) (float_of 0))
    (sn_Flusher empty_snapshot) (sn_Pool empty_snapshot) (sn_Collector empty_snapshot) true "off"
    (sn_Status empty_snapshot).

Example build_rates :
  let s := build (sample_raw 110) (Some (build (sample_raw 10) None 0 1 1 1)) 2000000000 1 1 2 in
  PublishRate (sn_Ring s) = float_of 50 ∧ WatermarkPercent (sn_Ring s) = float_of 25 ∧
  DroppedByLevel (sn_Ring s) !! "warn" = Some 3 ∧ DroppedByLevel (sn_Ring s) !! "info" = Some 0.
Proof. vm_compute. done. Qed.

Definition start : world :=
  match NewSampler false 100 1 (sample_raw 10) 0 1 1 with
  | Ok s => mkWorld s ∅ true []
  | Err _ => mkWorld (mkSampler 0 0 0 None ∅ 0 []) ∅ false []
  end.

Lemma start_init : init start.
Proof. by exists 100, 1, (sample_raw 10), 0, 1, 1, (w_sampler start). Qed.

(** Runs by the name of each step: what a client or a call of [sample] does next. *)
Inductive move := MSubscribe | MLoad (t : nat) (accepted : Z) | MSample (t : nat) | MClient (i : nat) | MStop.

Definition do_move (m : move) (w : world) : option world :=
  match m with
  | MSubscribe =>
      let '(s, r) := subscribe_register (w_sampler w) in
      Some (w <| w_sampler := s |> <| w_clients ::= λ l, l ++ [match r with
                                        | Ok (id, ch) => KCurrent id ch
                                        | Err _ => KRefused
                                        end] |>)
  | MLoad t accepted => Some (set_sample t (SLoaded (sample_raw accepted) 100 (current (w_sampler w))) w)
  | MSample t =>
      match w_samples w !! t with
      | Some (SLoaded raw now previous) =>
          let '(s, snapshot) := sample_number raw now previous 1 1 (w_sampler w) in
          Some (set_sample t (SNumbered snapshot) (w <| w_sampler := s |>))
      | Some (SNumbered snapshot) =>
          Some (set_sample t (SStored snapshot) (w <| w_sampler ::= sample_store snapshot |>))
      | Some (SStored snapshot) => Some (w <| w_sampler ::= broadcast snapshot |> <| w_samples ::= delete t |>)
      | None => None
      end
  | MClient i =>
      match w_clients w !! i with
      | Some (KCurrent id ch) => Some (set_client i (KSend id ch (Current (w_sampler w))) w)
      | Some (KSend id ch value) =>
          Some (set_client i (KWait id ch) (w <| w_sampler ::= update_with channels (alter (send value) ch) |>))
      | Some (KWait id ch) =>
          c ← channels (w_sampler w) !! ch;
          if decide (sender c = None) then Some (set_client i (KReading id ch []) w) else None
      | Some (KReading id ch received) =>
          c ← channels (w_sampler w) !! ch; value ← buffered c;
          Some (set_client i (KReading id ch (value :: received))
                  (w <| w_sampler ::= update_with channels (alter take_buffered ch) |>))
      | _ => None
      end
  | MStop => Some (w <| w_running := false |>)
  end.

(** What [do_move] does not check itself. *)
Definition may_move (alone : bool) (m : move) (w : world) : bool :=
  match m with
  | MSubscribe => nextSubID (w_sampler w) <? 2 ^ 64 - 1
  | MLoad t _ => bool_decide (w_samples w !! t = None) && (w_running w || negb (t =? 0)%nat) && (negb alone || (t =? 0)%nat)
  | MSample _ => sequence (w_sampler w) <? 2 ^ 64 - 1
  | MClient _ => true
  | MStop => bool_decide (w_samples w !! 0%nat = None)
  end.
Lemma do_move_step alone m w w' : may_move alone m w = true → do_move m w = Some w' → step alone w w'.
Proof.
  destruct m as [|t accepted|t|i|]; cbn [may_move]; intros Hm Hd.
  - unfold do_move in Hd. destruct (subscribe_register (w_sampler w)) as [s r] eqn:E. injection Hd as <-.
    zbool. pose proof (step_subscribe alone w Hm) as H. by rewrite E in H.
  - injection Hd as <-. apply andb_true_iff in Hm as [[Hn Hr]%andb_true_iff Ha].
    apply bool_decide_eq_true in Hn. apply step_load; [done| |].
    + intros ->. by destruct (w_running w).
    + intros ->. by apply Nat.eqb_eq.
  - cbn in Hd. zbool. destruct (w_samples w !! t) as [[raw now previous|sn|sn]|] eqn:E; [| | |done]; injection Hd as <-.
    + by apply (step_number alone w t raw now previous 1 1).
    + by apply step_store.
    + by apply step_broadcast.
  - cbn in Hd. destruct (w_clients w !! i) as [[id ch|id ch v|id ch|id ch r|? ?|]|] eqn:E; try done.
    + injection Hd as <-. by apply step_current.
    + injection Hd as <-. by apply step_send.
    + apply bind_Some in Hd as (c & Hc & Hd). destruct (decide _); [|done]. injection Hd as <-. by eapply step_sent.
    + apply bind_Some in Hd as (c & Hc & (v & Hv & [= <-])%bind_Some). by eapply step_receive.
  - injection Hd as <-. apply bool_decide_eq_true in Hm. by apply step_stop.
Qed.

Fixpoint do_moves (alone : bool) (l : list move) (w : world) : option world :=
  match l with
  | [] => Some w
  | m :: l => if may_move alone m w then w ← do_move m w; do_moves alone l w else None
  end.

Lemma do_moves_reach alone l w w' : world_reach alone w → do_moves alone l w = Some w' → world_reach alone w'.
Proof.
  revert w. induction l as [|m l IH]; intros w Hr; cbn [do_moves]; [by intros [= <-]|].
  destruct (may_move alone m w) eqn:Hm; [|done]. intros (w1 & Hd & Hl)%bind_Some.
  apply (IH w1); [|done]. eapply reach_step; [exact Hr|by eapply do_move_step].
Qed.

(** The world after a run from the start, and that it is reached. *)
Definition world_after (alone : bool) (l : list move) : world := default start (do_moves alone l start).

Lemma world_after_reach alone l : world_reach alone (world_after alone l).
Proof.
  unfold world_after. destruct (do_moves alone l start) as [w|] eqn:E.
  - eapply do_moves_reach; [|exact E]. apply reach_init, start_init.
  - apply reach_init, start_init.
Qed.

(** A broadcast between registration and first value, then the end of sampling. *)
Definition stopped : world :=
  world_after true [MSubscribe; MLoad 0 20; MSample 0; MSample 0; MSample 0; MClient 0; MClient 0; MStop].

(** A subscriber has read its first value, and the next sample is about to be broadcast. *)
Definition before_broadcast : world :=
  world_after true [MSubscribe; MClient 0; MClient 0; MClient 0; MClient 0; MLoad 0 20; MSample 0; MSample 0].

(** [Run] takes number 2 and is overtaken by a [SampleNow] with number 3: the
    subscriber reads 1, 3, 2. *)
Definition overtaken : world :=
  world_after false [MSubscribe; MClient 0; MClient 0; MClient 0; MClient 0; MLoad 0 20; MSample 0; MLoad 1 30; MSample 1;
               MSample 1; MSample 1; MClient 0; MSample 0; MSample 0; MClient 0].

Lemma samples_reorder :
  world_reach false overtaken ∧
  ∃ received, w_clients overtaken !! 0%nat = Some (KReading 1 0 received) ∧ map Sequence received = [2; 3; 1].
Proof. split; [apply world_after_reach|]. eexists. split; [vm_compute; reflexivity|]. vm_compute. reflexivity. Qed.

Lemma sampler_fanout_witness :
  ∃ snapshot received,
    w_samples before_broadcast !! 0%nat = Some (SStored snapshot) ∧ w_clients before_broadcast !! 0%nat = Some (KReading 1 0 received) ∧
    map Sequence received = [1] ∧ descending received ∧ Sequence snapshot = 2 ∧
    channels (broadcast snapshot (w_sampler before_broadcast)) !! 0%nat =
      Some (mkChannel (Some (cloneSnapshot snapshot)) None) ∧
    Z.of_nat (base.size (subscribers (w_sampler before_broadcast))) <= 1.
Proof.
  destruct (sampler_fanout true before_broadcast (world_after_reach true _)) as (Hb & Hd & Hc).
  destruct (w_samples before_broadcast !! 0%nat) as [[| |snapshot]|] eqn:Es; try (vm_compute in Es; discriminate).
  destruct (w_clients before_broadcast !! 0%nat) as [[| | |id ch received| |]|] eqn:Ec; try (vm_compute in Ec; discriminate).
  assert (id = 1 ∧ ch = 0%nat ∧ map Sequence received = [1]) as (-> & -> & Er)
    by (vm_compute in Ec; injection Ec as <- <- <-; vm_compute; repeat split).
  destruct (Hc _ _ _ _ _ _ Es Ec) as [H1 H2].
  exists snapshot, received. split; [reflexivity|]. split; [reflexivity|]. split; [exact Er|].
  split; [exact (proj2 (Hd 0%nat 1 0%nat received (or_introl Ec)) eq_refl)|].
  split; [rewrite (H2 eq_refl); vm_compute; reflexivity|]. split; [exact H1|exact Hb].
Defined.

Lemma subscribe_stalls_witness :
  subscribers (w_sampler stopped) !! 1 = Some 0%nat ∧ w_clients stopped !! 0%nat = Some (KWait 1 0).
Proof.
  destruct (subscribe_stalls true stopped 0 1 0 (world_after_reach true _)) with (w' := stopped) as [H1 H2].
  - split_and!; [vm_compute; reflexivity..|]. eexists. split; [vm_compute; reflexivity|]. vm_compute. eauto.
  - apply rtc_refl.
  - by split.
Defined.
