(* ===== verification/HttpApi.v ===== *)
(** * The management API (internal/httpapi/httpapi.go, static.go)

    Routing, request validation and the handlers, over an interface [Provider]
    that gathers the interfaces the handlers are given; what a lease may show of
    the file system.  A JSON body comes as the values [json.Decoder] reads from it;
    responses keep their content as data, not as JSON text. *)

From stdpp Require Import gmap strings list fin_maps.
From Stdlib Require Import ZArith Lia.
From S2P Require Import Prelude GoLib GoText Config Telemetry.

Definition ErrNotFound : error := ErrNew "not found".

(** ** Types *)

Record Health := mkHealth {
  h_Status : string; h_Appender : string; h_Sink : string; h_Collector : string;
  h_Version : string; UptimeSeconds : Z
}.

Record StackFrame := mkStackFrame { Function : string; Source : string; Line : Z }.

#[export] Instance StackFrame_fields : Fields StackFrame := λ r,
  mkStackFrame (Function r) (Source r) (Line r).

(** [Stack] is [None] when the field is nil. *)
Record Lease := mkLease {
  ID : Z; State : string; SizeClass : Z; Length : Z; BorrowedAt : Z; Deadline : Z; AgeMillis : Z;
  Level : string; l_Source : string; l_Function : string; Stack : option (list StackFrame)
}.

#[export] Instance Lease_fields : Fields Lease := λ r,
  mkLease (ID r) (State r) (SizeClass r) (Length r) (BorrowedAt r) (Deadline r) (AgeMillis r)
    (Level r) (l_Source r) (l_Function r) (Stack r).

Record LeaseQuery := mkQuery { q_State : string; Cursor : Z; Limit : Z }.
Record LeasePage := mkPage { Leases : list Lease; NextCursor : string; HasMore : bool }.

Record DemoTrafficRequest := mkTraffic { EventsPerSecond : Z; DurationSeconds : Z; PayloadBytes : Z }.

#[export] Instance DemoTrafficRequest_fields : Fields DemoTrafficRequest := λ r,
  mkTraffic (EventsPerSecond r) (DurationSeconds r) (PayloadBytes r).

Record DemoTrafficStatus := mkTrafficStatus {
  ts_Status : string; ts_EventsPerSecond : Z; ts_DurationSeconds : Z
}.

Record DemoLeaseRequest := mkLeaseRequest { SizeBytes : Z; r_Level : string }.

#[export] Instance DemoLeaseRequest_fields : Fields DemoLeaseRequest := λ r,
  mkLeaseRequest (SizeBytes r) (r_Level r).

(** [MetricsProvider], [HealthProvider], [LeaseProvider], [Effective] and
    [DemoController]: what the handlers ask of the program's state. *)
Class Provider (S : Type) := {
  prov_current : S → Snapshot;
  prov_subscribe : S → S * result nat;
  prov_health : S → Health;
  prov_list : LeaseQuery → S → result LeasePage;
  prov_lease : Z → S → result Lease;
  prov_effective : S → gmap string any;
  prov_traffic : DemoTrafficRequest → S → S * result DemoTrafficStatus;
  prov_retain : DemoLeaseRequest → S → S * result Lease;
  prov_release : Z → S → S * option error
}.

(** ** Requests and responses *)

(** A JSON value; a number that is no integer is [JOther]. *)
Inductive json := JNull | JInt (z : Z) | JStr (s : string) | JOther | JObj (fields : list (string * json)).

(** What the decoder makes of a body of at most 1 MiB: no JSON value, or a value
    and whether anything but space follows it. *)
Inductive body := BadBody | JsonBody (value : json) (more : bool).

Record request := mkRequest {
  Method : string; Path : string; Query : list (string * string); Body : body; streams : bool
}.

Inductive content :=
| CError (code message : string)
| CHealth (h : Health)
| CSnapshot (s : Snapshot)
| CLeases (l : list Lease) (next : string) (more : bool) (limit : Z)
| CLease (l : Lease)
| CEffective (m : gmap string any)
| CTraffic (s : DemoTrafficStatus)
| CStream (channel : nat)
| CEmpty.

Record response := mkResponse { Status : Z; Headers : gmap string string; Content : content }.

(** [writeJSON] and the functions above it. *)
Definition json_header : gmap string string := {["Content-Type" := "application/json; charset=utf-8"]}.
Definition writeJSON (status : Z) (c : content) : response := mkResponse status json_header c.
Definition writeData : Z → content → response := writeJSON.
Definition writeError (status : Z) (code message : string) : response := writeJSON status (CError code message).

(** ** What a lease shows *)

Definition sanitizePath (value : string) : string :=
  if IsAbs value then Base value
  else
    let c := Clean value in
    if bool_decide (c = ".") || bool_decide (take 2 (chars c) = [46; 46]) then Base c else c.

Definition sanitizeLease (includeStack : bool) (l : Lease) : Lease :=
  let l := l <| l_Source ::= sanitizePath |> in
  if includeStack
  then l <| Stack ::= λ s, Some (map (λ f, f <| Source ::= sanitizePath |>) (default [] s)) |>
  else l <| Stack := None |>.

(** ** Validation *)

Definition validLeaseState (state : string) : bool :=
  bool_decide (state ∈ ["all"; "borrowed"; "queued"; "in_flight"; "overdue"; "returned"]).
Definition validLevel (level : string) : bool :=
  bool_decide (level ∈ ["debug"; "info"; "warn"; "error"]).

(** [url.Values.Get] *)
Definition query_get (name : string) (q : list (string * string)) : string :=
  match base.filter (λ kv, kv.1 = name) q with (_, v) :: _ => v | [] => "" end.

Definition pathID (raw : string) : Z + response :=
  match ParseUint raw with
  | Ok id =>
      if id =? 0 then inr (writeError 400 "invalid_request" "id must be a positive unsigned integer")
      else inl id
  | Err _ => inr (writeError 400 "invalid_request" "id must be a positive unsigned integer")
  end.

(** Decoding into a struct: names match up to case, null leaves a field alone,
    a value of another type or an unknown name is an error. *)
Definition decode_fields {A} (set : string → json → A → option A) (zero : A) (j : json) : option A :=
  match j with
  | JNull => Some zero
  | JObj fields => foldl (λ acc kv, a ← acc; set kv.1 kv.2 a) (Some zero) fields
  | _ => None
  end.

Definition int_field {A} (put : Z → A → A) (j : json) (a : A) : option A :=
  match j with
  | JInt z => if (- 2 ^ 63 <=? z) && (z <? 2 ^ 63) then Some (put z a) else None
  | JNull => Some a
  | _ => None
  end.
Definition string_field {A} (put : string → A → A) (j : json) (a : A) : option A :=
  match j with JStr s => Some (put s a) | JNull => Some a | _ => None end.

Definition traffic_field (name : string) (j : json) (r : DemoTrafficRequest) : option DemoTrafficRequest :=
  if EqualFold (chars name) "events_per_second" then int_field (λ z r, r <| EventsPerSecond := z |>) j r
  else if EqualFold (chars name) "duration_seconds" then int_field (λ z r, r <| DurationSeconds := z |>) j r
  else if EqualFold (chars name) "payload_bytes" then int_field (λ z r, r <| PayloadBytes := z |>) j r
  else None.

Definition lease_field (name : string) (j : json) (r : DemoLeaseRequest) : option DemoLeaseRequest :=
  if EqualFold (chars name) "size_bytes" then int_field (λ z r, r <| SizeBytes := z |>) j r
  else if EqualFold (chars name) "level" then string_field (λ s r, r <| r_Level := s |>) j r
  else None.

Definition decodeJSON {A} (set : string → json → A → option A) (zero : A) (b : body) : A + response :=
  match b with
  | BadBody => inr (writeError 400 "invalid_request" "invalid JSON body")
  | JsonBody j more =>
      match decode_fields set zero j with
      | None => inr (writeError 400 "invalid_request" "invalid JSON body")
      | Some a =>
          if more then inr (writeError 400 "invalid_request" "request body must contain one JSON value")
          else inl a
      end
  end.

(** ** Handlers *)

Section Handlers.
Context {T : Type} `{!Provider T} (demoAllowed hasDemo : bool).

Definition health (s : T) : response :=
  let h := prov_health s in
  writeData (if bool_decide (h_Status h ∈ ["unhealthy"; "closing"]) then 503 else 200) (CHealth h).

Definition metricsCurrent (s : T) : response := writeData 200 (CSnapshot (prov_current s)).

(** Up to the loop that sends the events. *)
Definition metricsStream (streams : bool) (s : T) : T * response :=
  if negb streams then (s, writeError 500 "internal_error" "streaming is unavailable")
  else match prov_subscribe s with
  | (s, Err e) =>
      (s, if errors_Is e "too many telemetry subscribers"
          then writeError 429 "rate_limited" "too many metric streams"
          else writeError 500 "internal_error" "unable to subscribe")
  | (s, Ok ch) =>
      (s, mkResponse 200 (list_to_map [("Content-Type", "text/event-stream");
            ("Cache-Control", "no-cache"); ("Connection", "keep-alive")]) (CStream ch))
  end.

(** The query of [GET /api/v1/leases]. *)
Definition lease_query (q : list (string * string)) : LeaseQuery + response :=
  let state := query_get "state" q in
  let state := if bool_decide (state = "") then "all" else state in
  if negb (validLeaseState state) then inr (writeError 400 "invalid_request" "unsupported lease state")
  else
    let raw := query_get "limit" q in
    let bad_limit := writeError 400 "invalid_limit" "limit must be between 1 and 200" in
    match (if bool_decide (raw = "") then inl 50
           else match Atoi raw with
                | Ok v => if (v <? 1) || (200 <? v) then inr bad_limit else inl v
                | Err _ => inr bad_limit
                end) with
    | inr r => inr r
    | inl limit =>
        let raw := query_get "cursor" q in
        let bad_cursor := writeError 400 "invalid_request" "cursor must be a positive unsigned integer" in
        match (if bool_decide (raw = "") then inl 0
               else match ParseUint raw with
                    | Ok v => if v =? 0 then inr bad_cursor else inl v
                    | Err _ => inr bad_cursor
                    end) with
        | inr r => inr r
        | inl cursor => inl (mkQuery state cursor limit)
        end
    end.

Definition leases (q : list (string * string)) (s : T) : response :=
  match lease_query q with
  | inr r => r
  | inl query =>
      match prov_list query s with
      | Err _ => writeError 500 "internal_error" "unable to list leases"
      | Ok page =>
          writeJSON 200 (CLeases (map (sanitizeLease false) (Leases page)) (NextCursor page)
                           (HasMore page) (Limit query))
      end
  end.

Definition lease (raw : string) (s : T) : response :=
  match pathID raw with
  | inr r => r
  | inl id =>
      match prov_lease id s with
      | Err e => if errors_Is e "not found" then writeError 404 "not_found" "lease not found"
                 else writeError 500 "internal_error" "unable to read lease"
      | Ok l => writeData 200 (CLease (sanitizeLease true l))
      end
  end.

Definition effective (s : T) : response := writeData 200 (CEffective (prov_effective s)).

Definition demoReady : option response :=
  if negb demoAllowed || negb hasDemo
  then Some (writeError 403 "demo_disabled" "demo actions require DEMO_MODE and a safe listener")
  else None.

Definition demoTraffic (b : body) (s : T) : T * response :=
  match demoReady with
  | Some r => (s, r)
  | None =>
      match decodeJSON traffic_field (mkTraffic 0 0 0) b with
      | inr r => (s, r)
      | inl req =>
          if (EventsPerSecond req <? 1) || (1000000 <? EventsPerSecond req)
             || (DurationSeconds req <? 1) || (60 <? DurationSeconds req)
             || (PayloadBytes req <? 32) || (65536 <? PayloadBytes req)
          then (s, writeError 400 "invalid_request" "demo traffic values are out of range")
          else match prov_traffic req s with
               | (s, Err _) => (s, writeError 500 "internal_error" "unable to start demo traffic")
               | (s, Ok status) => (s, writeData 202 (CTraffic status))
               end
      end
  end.

Definition demoLease (b : body) (s : T) : T * response :=
  match demoReady with
  | Some r => (s, r)
  | None =>
      match decodeJSON lease_field (mkLeaseRequest 0 "") b with
      | inr r => (s, r)
      | inl req =>
          if (SizeBytes req <? 1) || (65536 <? SizeBytes req) || negb (validLevel (r_Level req))
          then (s, writeError 400 "invalid_request" "invalid demo lease size or level")
          else match prov_retain req s with
               | (s, Err _) => (s, writeError 500 "internal_error" "unable to retain demo lease")
               | (s, Ok l) =>
                   (s, mkResponse 201 (<["Location" := "/api/v1/leases/" +:+ FormatUint (ID l)]> json_header)
                         (CLease (sanitizeLease false l)))
               end
      end
  end.

Definition demoRelease (raw : string) (s : T) : T * response :=
  match demoReady with
  | Some r => (s, r)
  | None =>
      match pathID raw with
      | inr r => (s, r)
      | inl id =>
          match prov_release id s with
          | (s, Some e) =>
              (s, if errors_Is e "not found" then writeError 404 "not_found" "demo lease not found"
                  else writeError 500 "internal_error" "unable to release demo lease")
          | (s, None) => (s, mkResponse 204 ∅ CEmpty)
          end
      end
  end.

Definition methodNotAllowed : response :=
  let r := writeError 405 "method_not_allowed" "method is not allowed for this resource" in
  mkResponse (Status r) (<["Allow" := "GET, POST, DELETE"]> (Headers r)) (Content r).

Definition notFound : response := writeError 404 "not_found" "resource not found".

(** ** Routing *)

(** The patterns of [New]; [{id}] is one segment that is not empty.  The path is
    clean and without escapes: the mux redirects other paths to their clean form. *)
Inductive resource :=
| Healthz | Current | Stream | LeaseList | LeaseItem (id : string) | EffectiveConfig
| Traffic | DemoLeases | DemoLeaseItem (id : string) | Elsewhere.

Definition resource_of (path : string) : resource :=
  match map text (split_slash (chars path)) with
  | "" :: ["healthz"] => Healthz
  | "" :: "api" :: "v1" :: rest =>
      match rest with
      | ["metrics"; "current"] => Current
      | ["metrics"; "stream"] => Stream
      | ["leases"] => LeaseList
      | ["leases"; id] => if bool_decide (id = "") then Elsewhere else LeaseItem id
      | ["config"; "effective"] => EffectiveConfig
      | ["demo"; "traffic"] => Traffic
      | ["demo"; "leases"] => DemoLeases
      | ["demo"; "leases"; id] => if bool_decide (id = "") then Elsewhere else DemoLeaseItem id
      | _ => Elsewhere
      end
  | _ => Elsewhere
  end.

(** A GET pattern takes HEAD requests too. *)
Definition reads (method : string) : bool := bool_decide (method ∈ ["GET"; "HEAD"]).

Definition serve (r : request) (s : T) : T * response :=
  match resource_of (Path r) with
  | Healthz => (s, if reads (Method r) then health s else methodNotAllowed)
  | Current => (s, if reads (Method r) then metricsCurrent s else methodNotAllowed)
  | Stream => if reads (Method r) then metricsStream (streams r) s else (s, methodNotAllowed)
  | LeaseList => (s, if reads (Method r) then leases (Query r) s else methodNotAllowed)
  | LeaseItem id => (s, if reads (Method r) then lease id s else methodNotAllowed)
  | EffectiveConfig => (s, if reads (Method r) then effective s else methodNotAllowed)
  | Traffic => if bool_decide (Method r = "POST") then demoTraffic (Body r) s else (s, methodNotAllowed)
  | DemoLeases => if bool_decide (Method r = "POST") then demoLease (Body r) s else (s, methodNotAllowed)
  | DemoLeaseItem id =>
      if bool_decide (Method r = "DELETE") then demoRelease id s else (s, methodNotAllowed)
  | Elsewhere => (s, notFound)
  end.

(** [securityHeaders(mux)] *)
Definition secure (r : response) : response :=
  mkResponse (Status r)
    (Headers r ∪ list_to_map [("X-Content-Type-Options", "nosniff"); ("Referrer-Policy", "no-referrer")])
    (Content r).

Definition ServeHTTP (r : request) (s : T) : T * response :=
  let '(s, resp) := serve r s in (s, secure resp).
End Handlers.

(** [New]: the dependencies it refuses, and the default keepalive. *)
Definition New_check (metrics health leases effective : bool) : result unit :=
  guard_err (negb metrics || negb health || negb leases || negb effective)
    (ErrNew "metrics, health, leases, and effective config providers are required").
Definition keepalive (configured : Z) : Z := if configured <=? 0 then 15 * 1000000000 else configured.

(** ** Static files (static.go) *)

(** What [WithSPA] does with a request: the API, a file, the index, an index that
    cannot be read, or nothing to serve.  [stat] says of a relative path whether it is
    a file, [readable] whether the index can be read. *)
Inductive spa_action := ToApi | ServeIndex | ServeFile (relative : string) | Unreadable | Unavailable.

Definition spa_relative (path : string) : string :=
  let cleaned := clean (47 :: chars path) in
  let relative := match cleaned with 47 :: r => r | l => l end in
  if bool_decide (relative = []) || bool_decide (relative = [46]) then "index.html" else text relative.

Definition WithSPA (stat : string → bool) (readable : bool) (method path : string) : spa_action :=
  if bool_decide (path = "/healthz") || bool_decide (path = "/api")
     || bool_decide (take 5 (chars path) = chars "/api/") then ToApi
  else if negb (reads method) then ToApi
  else
    let relative := spa_relative path in
    let relative := if stat relative then relative else "index.html" in
    if negb (stat relative) then Unavailable
    else if bool_decide (relative = "index.html") then (if readable then ServeIndex else Unreadable)
    else ServeFile relative.

Definition spa_cache (a : spa_action) : option string :=
  match a with
  | ServeIndex | Unreadable => Some "no-cache"
  | ServeFile _ => Some "public, max-age=31536000, immutable"
  | _ => None
  end.

(** ** Properties *)

Lemma sanitizePath_chars v :
  chars (sanitizePath v) =
  (let l := chars v in
   if rooted l then base l
   else if bool_decide (clean l = [46]) || bool_decide (take 2 (clean l) = [46; 46]) then base (clean l)
   else clean l).
Proof.
  pose proof (chars_codes v) as C. pose proof (clean_codes _ C) as Cc.
  unfold sanitizePath, IsAbs, Base, Clean. destruct (rooted (chars v)).
  - by rewrite chars_text by (by apply base_codes).
  - cbn. rewrite chars_text by done.
    rewrite (bool_decide_ext (text (clean (chars v)) = ".") (clean (chars v) = [46])).
    + destruct (_ || _); rewrite chars_text; auto using base_codes.
    + split; [|by intros ->]. intros E. apply (f_equal chars) in E. by rewrite chars_text in E.
Qed.

(** Paths in responses.  Whatever source path the audit recorded, the path a
    response shows is relative and goes up no directory (but for a path that is
    only slashes or only [..]); of an absolute path it shows the last element
    alone. *)
Theorem sanitized_path v :
  let out := chars (sanitizePath v) in
  (out = [47] ∨ out = [46; 46] ∨ rooted out = false ∧ [46; 46] ∉ split_slash out) ∧
  (IsAbs v = true → out = [47] ∨ 47 ∉ out).
Proof.
  intros out. assert (Hbase : ∀ l, base l = [47] ∨ base l = [46; 46] ∨
    rooted (base l) = false ∧ [46; 46] ∉ split_slash (base l)).
  { intros l. destruct (base_no_slash l) as [|N]; [by left|right].
    destruct (decide (base l = [46; 46])); [by left|right]. split.
    - apply bool_decide_eq_false_2. intros E. apply N. destruct (base l); simplify_eq/=. left.
    - rewrite split_no_slash by done. intros [|?%elem_of_nil]%elem_of_cons; done. }
  subst out. rewrite sanitizePath_chars. unfold IsAbs. cbn zeta. destruct (rooted (chars v)) eqn:R.
  - split; [apply Hbase|intros _; apply base_no_slash].
  - split; [|done]. destruct (_ || _) eqn:E; [apply Hbase|].
    apply orb_false_iff in E as [E1 E2]. apply bool_decide_eq_false in E1, E2.
    right; right. by apply clean_relative.
Qed.

Section Api.
Context {T : Type} `{!Provider T} (demoAllowed hasDemo : bool).

(** The requests whose handlers reach the program's state, with the values they
    pass on. *)
Inductive effect :=
| ESubscribe | ETraffic (r : DemoTrafficRequest) | ERetain (r : DemoLeaseRequest) | ERelease (id : Z).

Definition run_effect (e : effect) (s : T) : T :=
  match e with
  | ESubscribe => (prov_subscribe s).1
  | ETraffic r => (prov_traffic r s).1
  | ERetain r => (prov_retain r s).1
  | ERelease id => (prov_release id s).1
  end.

Definition in_range (e : effect) : Prop :=
  match e with
  | ESubscribe => True
  | ETraffic r => 1 <= EventsPerSecond r <= 1000000 ∧ 1 <= DurationSeconds r <= 60 ∧
      32 <= PayloadBytes r <= 65536
  | ERetain r => 1 <= SizeBytes r <= 65536 ∧ r_Level r ∈ ["debug"; "info"; "warn"; "error"]
  | ERelease id => 0 < id < 2 ^ 64
  end.

Definition demo_effect (e : effect) : bool := match e with ESubscribe => false | _ => true end.

(** What a handler did: nothing, with a status, or one effect. *)
Definition handled (s : T) (out : T * response) : Prop :=
  out.1 = s ∨ ∃ e, out.1 = run_effect e s ∧ in_range e ∧
    (demo_effect e = true → demoAllowed = true ∧ hasDemo = true).

Lemma demoReady_None : demoReady demoAllowed hasDemo = None → demoAllowed = true ∧ hasDemo = true.
Proof. unfold demoReady. by destruct demoAllowed, hasDemo. Qed.

Lemma demoTraffic_handled b s : handled s (demoTraffic demoAllowed hasDemo b s).
Proof.
  unfold demoTraffic. destruct (demoReady _ _) eqn:D; [by left|]. apply demoReady_None in D.
  destruct (decodeJSON _ _ _) as [r|]; [|by left]. destruct (_ || _) eqn:E; [by left|]. zbool.
  right. exists (ETraffic r). unfold in_range, run_effect.
  destruct (prov_traffic r s) as [s' [|]]; cbn; split_and!; done || lia.
Qed.

Lemma demoLease_handled b s : handled s (demoLease demoAllowed hasDemo b s).
Proof.
  unfold demoLease. destruct (demoReady _ _) eqn:D; [by left|]. apply demoReady_None in D.
  destruct (decodeJSON _ _ _) as [r|]; [|by left]. destruct (_ || _) eqn:E; [by left|].
  unfold validLevel in E. zbool. right. exists (ERetain r). unfold in_range, run_effect.
  destruct (prov_retain r s) as [s' [|]]; cbn; split_and!; done || lia.
Qed.

Lemma demoRelease_handled raw s : handled s (demoRelease demoAllowed hasDemo raw s).
Proof.
  unfold demoRelease. destruct (demoReady _ _) eqn:D; [by left|]. apply demoReady_None in D.
  unfold pathID. destruct (ParseUint raw) as [id|] eqn:P; [|by left]. destruct (id =? 0) eqn:Z0; [by left|].
  zbool. apply ParseUint_range in P. right. exists (ERelease id). unfold in_range, run_effect.
  destruct (prov_release id s) as [s' [|]]; cbn; split_and!; done || lia.
Qed.

Lemma metricsStream_handled b s : handled s (metricsStream b s).
Proof.
  unfold metricsStream. destruct b; [|by left]. right. exists ESubscribe. unfold run_effect.
  destruct (prov_subscribe s) as [s' [|]]; cbn; split_and!; done.
Qed.

(** No handler sets a security header itself. *)
Definition plain (r : response) : Prop :=
  Headers r !! "X-Content-Type-Options" = None ∧ Headers r !! "Referrer-Policy" = None.

Lemma plain_error status code message : plain (writeError status code message).
Proof. done. Qed.
Lemma plain_data status c : plain (writeData status c).
Proof. done. Qed.

Lemma plain_query q r : lease_query q = inr r → plain r.
Proof.
  unfold lease_query. intros E. destruct (negb _); [by simplify_eq|].
  destruct (bool_decide _); [|destruct (Atoi _); [destruct (_ || _)|]]; try by simplify_eq.
  all: destruct (bool_decide _); [|destruct (ParseUint _); [destruct (_ =? 0)|]]; by simplify_eq.
Qed.

Lemma plain_id raw r : pathID raw = inr r → plain r.
Proof. unfold pathID. destruct (ParseUint raw); [destruct (_ =? 0)|]; intros; by simplify_eq. Qed.

Lemma plain_json {A} set (zero : A) b r : decodeJSON set zero b = inr r → plain r.
Proof.
  unfold decodeJSON. destruct b as [|j more]; [by intros [= <-]|].
  destruct (decode_fields _ _ _); [destruct more|]; intros; by simplify_eq.
Qed.

Lemma plain_ready r : demoReady demoAllowed hasDemo = Some r → plain r.
Proof. unfold demoReady. destruct (_ || _); by intros [= <-]. Qed.

Hint Resolve plain_error plain_data plain_query plain_id plain_json plain_ready : core.

Lemma serve_plain r s : plain (serve demoAllowed hasDemo r s).2.
Proof.
  unfold serve, metricsStream, leases, lease, demoTraffic, demoLease, demoRelease.
  repeat (case_match; simplify_eq/=; eauto); done.
Qed.

(** C36. Effects of requests.  A request changes the program's state by at most one
    call: a subscription, or, only where demo actions are allowed, a demo action
    whose arguments are in the documented ranges; every other request, whatever
    its method, path, query and body, leaves the state as it was.  Every response
    carries the two security headers. *)
Theorem api_effects r s :
  let out := ServeHTTP demoAllowed hasDemo r s in
  (out.1 = s ∨ ∃ e, out.1 = run_effect e s ∧ in_range e ∧
     (demo_effect e = true → demoAllowed = true ∧ hasDemo = true)) ∧
  Headers out.2 !! "X-Content-Type-Options" = Some "nosniff" ∧
  Headers out.2 !! "Referrer-Policy" = Some "no-referrer".
Proof.
  intros out. assert (H : handled s (serve demoAllowed hasDemo r s)).
  { unfold serve. destruct (resource_of _); try by left.
    - destruct (reads _); [apply metricsStream_handled|by left].
    - case_bool_decide; [apply demoTraffic_handled|by left].
    - case_bool_decide; [apply demoLease_handled|by left].
    - case_bool_decide; [apply demoRelease_handled|by left]. }
  destruct (serve_plain r s) as [P1 P2]. subst out. unfold ServeHTTP.
  destruct (serve _ _ _ _) as [s' resp]. split; [exact H|]. cbn in *.
  split; by rewrite lookup_union, ?P1, ?P2.
Qed.
End Api.

(** ** Witnesses *)

Lemma sanitized_path_witness :
  sanitizePath "/home/dev/app/main.go" = "main.go" ∧ sanitizePath "../../etc/passwd" = "passwd" ∧
  sanitizePath "cmd/./x/../main.go" = "cmd/main.go" ∧ 47 ∉ chars (sanitizePath "/home/dev/app/main.go").
Proof.
  split_and!; [vm_compute; reflexivity..|].
  destruct (proj2 (sanitized_path "/home/dev/app/main.go")) as [E|E]; [vm_compute; reflexivity| |exact E].
  vm_compute in E. discriminate E.
Defined.
