(* ===== verification/Runtime.v ===== *)
(** * The service (cmd/minilogbackd/runtime.go, demo.go)

    [newRuntime], which hands the settings on to every component; publishing,
    telemetry, health and lease queries; demo traffic and retained leases;
    [Close].  The file sink is one object shared by the appender (with the file
    sink) and the collector. *)

From stdpp Require Import gmap strings list fin_maps.
From Stdlib Require Import ZArith Lia.
From Stdlib.Strings Require Import Byte.
From S2P Require Import Prelude GoLib GoText Config Protocol Client Dedupe Collector Sink FileSink Ring Pool PoolInv Flusher Appender Observer Telemetry HttpApi.

(** ** Start (newRuntime) *)

Definition syncPolicy (enabled : bool) : SyncPolicy := if enabled then SyncEveryBatch else SyncManual.

Definition file_config (c : Config.Config) : FileConfig :=
  mkFileConfig (Config.LogPath c) (Config.RotateBytes c) (syncPolicy (Config.SyncOnFlush c)) 0 0.

Definition limits (c : Config.Config) : Protocol.Limits :=
  mkLimits (Config.ProtocolMaxRecords c) (Config.ProtocolMaxPayload c) (u32 (Config.MaxEventBytes c)).

Definition client_config (c : Config.Config) : ClientConfig :=
  mkClientConfig (Config.NetworkAddr c) 0 (Config.NetworkDialTimeout c) (Config.NetworkIOTimeout c)
    (Config.NetworkRetryInitial c) (Config.NetworkRetryMaximum c) (Config.NetworkMaxAttempts c) (limits c).

(** [minilogback.AuditMode(strings.ToUpper(cfg.AuditMode))] *)
Definition audit_mode (text : string) : Pool.AuditMode :=
  let upper := ToUpper text in
  if bool_decide (upper = "") then AuditUnset
  else if bool_decide (upper = "OFF") then AuditOff
  else if bool_decide (upper = "SAMPLED") then AuditSampled
  else if bool_decide (upper = "FULL") then AuditFull
  else AuditOther upper.

Definition appender_config (c : Config.Config) : Appender.Config :=
  Appender.mkConfig "minilogbackd" DebugLevel (Config.RingCapacity c) (Config.BatchSize c)
    (Config.FlushInterval c) 0 0 0 (Config.MaxEventBytes c) [] (audit_mode (Config.AuditMode c)) 0
    (Config.LeaseTimeout c) (Config.AuditInterval c) 0 0 (Config.ProjectRoot c) true.

Definition collector_config (c : Config.Config) : Collector.Config :=
  Collector.mkConfig (Config.IngestAddr c) (Config.CollectorMaxConnections c)
    (Config.CollectorReadTimeout c) (Config.CollectorReadTimeout c) (Config.CollectorReadTimeout c)
    (Config.CollectorDedupeEntries c) (limits c).

Section Runtime.
Context {Conn : Type}.

(** [closing] and the fields the demo mutex protects: the cancelled contexts of
    demo traffic and the current one, the generators that run, the retained
    leases by identifier.  A lease is a handle of the appender. *)
Record runtimeState := mkRuntime {
  rt_config : Config.Config; rt_appender : Appender.Appender; rt_collector : Collector.Server;
  rt_file : FileSink; rt_client : option (Client Conn); rt_appSink : observedSink; rt_started : Z;
  closing : bool; demoContexts : list bool; demoCancel : option nat; generators : gset nat;
  demoLeases : gmap Z nat
}.

#[export] Instance runtimeState_fields : Fields runtimeState := λ r,
  mkRuntime (rt_config r) (rt_appender r) (rt_collector r) (rt_file r) (rt_client r) (rt_appSink r)
    (rt_started r) (closing r) (demoContexts r) (demoCancel r) (generators r) (demoLeases r).

(** What a failed start closes, in order. *)
Inductive cleanup := CloseObserved | CloseAppender | CloseFile.

Inductive started := Started (s : runtimeState) | Failed (e : error) (closes : list cleanup).

(** [random] is what the client's identifier is drawn from. *)
Definition newRuntime (cfg : Config.Config) (d : disk) (random : result (list byte)) (now : Z) : started :=
  match NewFile (file_config cfg) d with
  | Err e => Failed e []
  | Ok localFile =>
      match (if bool_decide (Config.Sink cfg = "network")
             then c ← NewClient (Conn := Conn) random (client_config cfg); Ok (Some c, "scatter_gather")
             else Ok (None, BatchMode FileSink_Capabilities)) with
      | Err e => Failed e [CloseFile]
      | Ok (client, mode) =>
          match Appender.New (appender_config cfg) [] with
          | Err e => Failed e [CloseObserved; CloseFile]
          | Ok appender =>
              match Collector.New (collector_config cfg) true with
              | Err e => Failed e [CloseAppender; CloseFile]
              | Ok collector =>
                  Started (mkRuntime cfg appender collector localFile client (newObservedSink mode) now
                             false [] None ∅ ∅)
              end
          end
      end
  end.

(** ** Publishing *)

Definition parseLevel (level : string) : Z :=
  if bool_decide (level = "debug") then DebugLevel
  else if bool_decide (level = "warn") then WarnLevel
  else if bool_decide (level = "error") then ErrorLevel
  else InfoLevel.

(** [copy(target, prefix)], the [x]s of the loop, the newline. *)
Definition fillDemoPayload (target : list byte) (level : string) (id : Z) : list byte :=
  let prefix := Stdlib.Strings.String.list_byte_of_string
    (ToUpper level +:+ " demo lease=" +:+ FormatUint id +:+ " ") in
  let n := length target in
  let target := copy_at 0 prefix target in
  let target := foldl (λ t i, <[i := x78]> t) target (seq (length prefix) (n - 1 - length prefix)) in
  if (0 <? n)%nat then <[(n - 1)%nat := x0a]> target else target.

(** Stores through the slice [lease.Buffer] returned. *)
Definition store_buffer (n : nat) (data : list byte) (a : Appender.Appender) : Appender.Appender :=
  match handles a !! n with
  | None => a
  | Some l =>
      match Pool.leases (a_pool a) !! inner l with
      | None => a
      | Some pl =>
          match l_block pl with
          | None => a
          | Some b => a <| a_pool ::= λ p, foldl (λ p ix, poke b ix.1 ix.2 p) p (imap pair data) |>
          end
      end
  end.

(** The shared first part of [publish] and [RetainLease] once the lease is
    acquired: buffer, payload, commit; on an error the lease is released. *)
Definition fill_lease (level : string) (size now : Z) (n : nat) (a : Appender.Appender)
  : Appender.Appender * option error :=
  match Lease_Buffer (Some n) a with
  | Err e => ((Lease_Release (Some n) now a).1, Some e)
  | Ok buffer =>
      let a := store_buffer n
        (fillDemoPayload (take (Z.to_nat size) buffer) level (Lease_ID (Some n) a)) a in
      match Lease_Commit (Some n) size a with
      | (a, Some e) => ((Lease_Release (Some n) now a).1, Some e)
      | (a, None) => (a, None)
      end
  end.

Definition publish (level : string) (payloadBytes now : Z) (e : env) (s : runtimeState) : runtimeState :=
  match Appender.Acquire payloadBytes e (rt_appender s) with
  | (a, Err _) => s <| rt_appender := a |>
  | (a, Ok n) =>
      match fill_lease level payloadBytes now n a with
      | (a, Some _) => s <| rt_appender := a |>
      | (a, None) =>
          let '(a, r) := TryPublishLease (parseLevel level) (Some n) a in
          s <| rt_appender := if decide (r = Appender.Accepted) then a
                              else (Lease_Release (Some n) now a).1 |>
      end
  end.

(** ** Telemetry and health *)

Definition dropped_by_level (stats : Appender.Stats) : gmap string Z :=
  foldl (λ m lv, <[ToLower lv.1 := Dropped lv.2]> m) level_zeros (ByLevel stats).

Definition TelemetrySnapshot (s : runtimeState) : RawSnapshot :=
  let stats := Appender_Stats (rt_appender s) in
  let col := Server_Stats (rt_collector s) in
  let p := st_Pool stats in
  let fl := st_Flusher stats in
  let ring := st_Ring stats in
  let totalGets := u64 (Pool.PoolHits p + Pool.PoolMisses p) in
  mkRaw
    (mkRingMetrics (Ring.Capacity ring) (Ring.Depth ring) (float_of 0) (Ring.HighWater ring)
       (PublishAttempts stats) (st_Accepted stats) (Ring.Consumed ring)
       (u64 (RejectedFull stats + RejectedClosed stats + RejectedOversized stats + RejectedInvalid stats))
       (dropped_by_level stats) (float_of 0) (float_of 0))
    (mkFlusherMetrics (Flusher.Batches fl) (Flusher.Records fl) (Flusher.Bytes fl) (Flusher.InFlight fl)
       (i64 (Flusher.LastBatchSize fl)) (p95Micros (rt_appSink s)) (Flusher.Errors fl) (mode (rt_appSink s)))
    (mkPoolMetrics (Pool.Borrowed p) (Pool.Returned p) (Pool.Outstanding p) (Pool.Overdue p)
       (Pool.DoubleReturns p) (Pool.InvalidReturns p)
       (if 0 <? totalGets
        then float_div (float_mul (float_of (Pool.PoolHits p)) (float_of 100)) (float_of totalGets)
        else float_of 0)
       (map (λ c, mkPoolClass (cs_Size c) (cs_InUse c) 0) (Pool.st_Classes p)))
    (mkCollectorMetrics (Collector.Connections col) (Collector.AcceptedBatches col)
       (Collector.DuplicateBatches col) (Collector.InvalidFrames col) (Collector.Overloaded col)
       (Collector.SinkErrors col))
    (Config.DemoMode (rt_config s)) (Config.AuditMode (rt_config s))
    (mkStatusMetrics (if Flusher.Degraded fl then "degraded" else "ok")
       (if closing s then "closing" else "listening") "sse").

Definition runtime_Health (now : Z) (s : runtimeState) : Health :=
  let stats := Appender_Stats (rt_appender s) in
  mkHealth (if closing s then "closing" else "ok")
    (if closing s then "closing" else ToLower (Appender.State stats))
    (if Flusher.Degraded (st_Flusher stats) then "degraded" else "ok")
    (if closing s then "closing" else "listening") (Config.Version (rt_config s))
    (Z.quot (now - rt_started s) 1000000000).

(** ** Leases *)

Definition convertLease (includeStack : bool) (l : LeaseSnapshot) : HttpApi.Lease :=
  HttpApi.mkLease (Pool.ID l) (ToLower (snap_State l)) (Pool.ClassSize l) (Pool.Length l)
    (Pool.BorrowedAt l) (Pool.Deadline l) (Z.quot (AgeNanos l) 1000000) (ToLower (snap_Level l))
    (snap_File l +:+ ":" +:+ FormatUint (snap_Line l)) (snap_Function l)
    (Some (if includeStack
           then map (λ f, mkStackFrame (Pool.Function f) (Pool.File f) (Pool.Line f)) (Pool.Stack l)
           else [])).

Definition ListLeases (query : LeaseQuery) (now : Z) (s : runtimeState) : LeasePage :=
  let filter := if bool_decide (q_State query = "all") then "" else ToUpper (q_State query) in
  let snapshots := SnapshotLeasesBefore filter (Cursor query) (Limit query + 1) now
                     (a_pool (rt_appender s)) in
  let leases := map (convertLease false) snapshots in
  let hasMore := Limit query <? len leases in
  let leases := if hasMore then take (Z.to_nat (Limit query)) leases else leases in
  let next := if hasMore then match last leases with Some l => FormatUint (HttpApi.ID l) | None => "" end
              else "" in
  mkPage leases next hasMore.

Definition runtime_LeaseByID (id now : Z) (s : runtimeState) : result HttpApi.Lease :=
  match Pool.LeaseByID id now (a_pool (rt_appender s)) with
  | None => Err ErrNotFound
  | Some l => Ok (convertLease true l)
  end.

(** ** Demo actions *)

Definition service_closing : error := ErrNew "service is closing".

(** [s.demoCancel()] *)
Definition cancel_demo (s : runtimeState) : runtimeState :=
  match demoCancel s with
  | Some i => s <| demoContexts ::= <[i := true]> |>
  | None => s
  end.

Definition StartTraffic (r : DemoTrafficRequest) (s : runtimeState)
  : runtimeState * result DemoTrafficStatus :=
  if closing s then (s, Err service_closing)
  else
    let s := cancel_demo s in
    let i := length (demoContexts s) in
    (s <| demoContexts ::= λ l, l ++ [false] |> <| demoCancel := Some i |> <| generators ::= union {[i]} |>,
     Ok (mkTrafficStatus "started" (EventsPerSecond r) (DurationSeconds r))).

(** [generateTraffic]: the events of one tick, and its interval. *)
Definition traffic_burst (rate : Z) : nat := if 100 <=? rate then Z.to_nat (Z.quot rate 100) else 1.
Definition traffic_interval (rate : Z) : Z :=
  if 100 <=? rate then 10 * 1000000 else Z.quot 1000000000 rate.

Fixpoint traffic_tick (payloadBytes : Z) (calls : list (Z * env)) (s : runtimeState) : runtimeState :=
  match calls with
  | [] => s
  | (now, e) :: calls => traffic_tick payloadBytes calls (publish "info" payloadBytes now e s)
  end.

(** [demoWG.Done()] *)
Definition generator_done (i : nat) (s : runtimeState) : runtimeState :=
  s <| generators ::= λ g, g ∖ {[i]} |>.

(** [RetainLease] up to the mutex. *)
Definition retain_take (r : DemoLeaseRequest) (now : Z) (e : env) (s : runtimeState)
  : runtimeState * result nat :=
  if closing s then (s, Err service_closing)
  else match AcquireFor (parseLevel (r_Level r)) (SizeBytes r) e (rt_appender s) with
  | (a, Err err) => (s <| rt_appender := a |>, Err err)
  | (a, Ok n) =>
      match fill_lease (r_Level r) (SizeBytes r) now n a with
      | (a, Some err) => (s <| rt_appender := a |>, Err err)
      | (a, None) => (s <| rt_appender := a |>, Ok n)
      end
  end.

(** Under the mutex. *)
Definition retain_store (n : nat) (now : Z) (s : runtimeState) : runtimeState * option error :=
  if closing s
  then (s <| rt_appender ::= λ a, (Lease_Release (Some n) now a).1 |>, Some service_closing)
  else (s <| demoLeases ::= <[Lease_ID (Some n) (rt_appender s) := n]> |>, None).

(** The answer: what the registry knows of the lease, or its handle. *)
Definition retain_answer (r : DemoLeaseRequest) (n : nat) (now : Z) (s : runtimeState) : HttpApi.Lease :=
  let a := rt_appender s in
  let id := Lease_ID (Some n) a in
  match Pool.LeaseByID id now (a_pool a) with
  | Some l => convertLease false l
  | None =>
      let size := match handles a !! n with
                  | Some l => match Pool.leases (a_pool a) !! inner l with
                              | Some pl => Lease_ClassSize (a_pool a) pl
                              | None => 0
                              end
                  | None => 0
                  end in
      HttpApi.mkLease id "borrowed" size (Appender.Lease_Len (Some n) a) 0 0 0 (r_Level r) "" "" None
  end.

Definition RetainLease (r : DemoLeaseRequest) (now : Z) (e : env) (s : runtimeState)
  : runtimeState * result HttpApi.Lease :=
  match retain_take r now e s with
  | (s, Err err) => (s, Err err)
  | (s, Ok n) =>
      match retain_store n now s with
      | (s, Some err) => (s, Err err)
      | (s, None) => (s, Ok (retain_answer r n now s))
      end
  end.

(** [ReleaseLease] under the mutex, and after it. *)
Definition release_take (id : Z) (s : runtimeState) : runtimeState * option nat :=
  (s <| demoLeases ::= delete id |>, demoLeases s !! id).

Definition release_end (n : nat) (now : Z) (s : runtimeState) : runtimeState * option error :=
  let '(a, err) := Lease_Release (Some n) now (rt_appender s) in (s <| rt_appender := a |>, err).

Definition ReleaseLease (id now : Z) (s : runtimeState) : runtimeState * option error :=
  match release_take id s with
  | (s, None) => (s, Some ErrNotFound)
  | (s, Some n) => release_end n now s
  end.

(** ** Close *)

(** The compare-and-swap; false: another call is ahead. *)
Definition close_mark (s : runtimeState) : runtimeState * bool :=
  if closing s then (s, false) else (s <| closing := true |>, true).

(** Under the mutex: traffic is cancelled, every retained lease released. *)
Definition close_leases (now : Z) (s : runtimeState) : runtimeState :=
  let s := cancel_demo s in
  s <| rt_appender ::= λ a, foldl (λ a idn, (Lease_Release (Some idn.2) now a).1) a (map_to_list (demoLeases s)) |>
    <| demoLeases := ∅ |>.

(** [demoWG.Wait()] is over. *)
Definition demo_idle (s : runtimeState) : bool := bool_decide (generators s = ∅).

(** The rest: the collector, the appender (whose [Close] begins here and answers
    [appenderErr]; with the file sink its flusher has closed the file then) and the
    file.  [Close] of a closed file answers as the first time. *)
Definition close_rest (listenerErr appenderErr : option error) (s : runtimeState)
  : runtimeState * option error :=
  let '(col, _, collectorErr) := Server_Close listenerErr (rt_collector s) in
  let '(file, fileErr) := FileSink_Close (rt_file s) in
  (s <| rt_collector := col |> <| rt_appender ::= close_begin |> <| rt_file := file |>,
   errors_Join (errors_Join collectorErr appenderErr) fileErr).
End Runtime.
Arguments runtimeState : clear implicits.
