(* ===== verification/RuntimeLeases.v ===== *)
(** * Reading leases through the API

    The pages of [GET /api/v1/leases], from the query of a request over
    [ListLeases] to the pool's registry and back through the cursor. *)

From stdpp Require Import gmap strings list fin_maps sorting.
From Stdlib Require Import ZArith Lia.
From S2P Require Import Prelude GoLib GoText Pool PoolInv PoolSafety PoolAudit Sink FileSink Appender AppenderProps Observer HttpApi Runtime.

Section Pages.
Context {Conn : Type}.
Implicit Types s : runtimeState Conn.

(** A client's request for a page, and its walk from cursor to cursor. *)
Definition page_request (state : string) (limit : Z) (cursor : string) : list (string * string) :=
  [("state", state); ("limit", FormatUint limit); ("cursor", cursor)].

Fixpoint follow (fuel : nat) (state : string) (limit : Z) (cursor : string) (now : Z) s
  : list HttpApi.Lease :=
  match fuel with
  | O => []
  | S fuel =>
      match lease_query (page_request state limit cursor) with
      | inr _ => []
      | inl query =>
          let page := ListLeases query now s in
          Leases page ++ (if HasMore page then follow fuel state limit (NextCursor page) now s else [])
      end
  end.

(** The leases of a state, newest first. *)
Definition state_filter (state : string) : string := if bool_decide (state = "all") then "" else ToUpper state.
Definition all_leases (state : string) (now : Z) s : list LeaseSnapshot :=
  merge_sort snapshot_desc (snapshot_items (state_filter state) now (a_pool (rt_appender s))).

Definition lease_states : list string := ["all"; "borrowed"; "queued"; "in_flight"; "overdue"; "returned"].

Lemma ParseLeaseState_filter state : state ∈ lease_states → ParseLeaseState (state_filter state) = state_filter state.
Proof. intros H. apply list_elem_of_In in H. by destruct H as [<-|[<-|[<-|[<-|[<-|[<-|[]]]]]]]. Qed.

Lemma request_query state limit cursor n :
  state ∈ lease_states → 1 <= limit <= 200 →
  (cursor = "" ∧ n = 0 ∨ cursor = FormatUint n ∧ 0 < n < 2 ^ 64) →
  lease_query (page_request state limit cursor) = inl (mkQuery state n limit).
Proof.
  intros Hs Hl Hc. unfold lease_query, page_request.
  change (query_get "state" _) with state. change (query_get "limit" _) with (FormatUint limit).
  change (query_get "cursor" _) with cursor.
  assert (state ≠ "") by (intros ->; apply list_elem_of_In in Hs; cbn in Hs; intuition done).
  rewrite (bool_decide_eq_false_2 (state = "")) by done.
  unfold validLeaseState. rewrite bool_decide_eq_true_2 by done. cbn [negb].
  rewrite (bool_decide_eq_false_2 (FormatUint limit = "")), Atoi_FormatUint by (lia || by apply FormatUint_nonempty; lia).
  ztest. cbn [orb]. destruct Hc as [[-> ->]|[-> Hn]]; [by rewrite bool_decide_eq_true_2|].
  rewrite (bool_decide_eq_false_2 (FormatUint n = "")), ParseUint_FormatUint by (lia || by apply FormatUint_nonempty; lia).
  by ztest.
Qed.

(** One page: what lies below the cursor, at most [limit] of it. *)
Lemma ListLeases_page state n limit now s l2 :
  state ∈ lease_states → 1 <= limit <= 200 →
  base.filter (λ sn, n = 0 ∨ Pool.ID sn < n) (all_leases state now s) = l2 →
  let taken := take (Z.to_nat (Z.min (limit + 1) 200)) l2 in
  ListLeases (mkQuery state n limit) now s =
  if limit <? len taken
  then mkPage (map (convertLease false) (take (Z.to_nat limit) taken))
         (match last (take (Z.to_nat limit) taken) with Some sn => FormatUint (Pool.ID sn) | None => "" end) true
  else mkPage (map (convertLease false) taken) "" false.
Proof.
  intros Hs Hl Hf taken. unfold ListLeases. cbn [q_State Limit Cursor].
  fold (state_filter state). unfold SnapshotLeasesBefore, snapshots.
  rewrite ParseLeaseState_filter by done. fold (all_leases state now s).
  rewrite (proj2 (Z.leb_gt (limit + 1) 0)) by lia. rewrite Hf.
  replace (if limit + 1 >? 200 then 200 else limit + 1) with (Z.min (limit + 1) 200).
  2: { destruct (limit + 1 >? 200) eqn:E; zbool; lia. }
  fold taken. rewrite length_map. destruct (limit <? len taken); [|done].
  f_equal; [by rewrite firstn_map|]. rewrite firstn_map.
  change (map (convertLease false) (take (Z.to_nat limit) taken))
    with (convertLease false <$> take (Z.to_nat limit) taken).
  rewrite fmap_last. by destruct (last _).
Qed.

Lemma follow_suffix fuel state limit n cursor now s l1 l2 :
  state ∈ lease_states → 1 <= limit <= 199 →
  descending (all_leases state now s) → Forall (λ sn, 0 < Pool.ID sn < 2 ^ 64) (all_leases state now s) →
  all_leases state now s = l1 ++ l2 →
  (cursor = "" ∧ n = 0 ∨ cursor = FormatUint n ∧ 0 < n < 2 ^ 64) →
  base.filter (λ sn, n = 0 ∨ Pool.ID sn < n) (all_leases state now s) = l2 → (length l2 < fuel)%nat →
  follow fuel state limit cursor now s = map (convertLease false) l2.
Proof.
  intros Hs Hl D P. revert n cursor l1 l2. induction fuel as [|fuel IH]; intros n cursor l1 l2 E Hc F Hf; [lia|].
  cbn [follow]. rewrite (request_query _ _ _ n) by (done || lia).
  rewrite (ListLeases_page _ _ _ _ _ l2) by (done || lia).
  rewrite Z.min_l by lia. rewrite length_take.
  destruct (Z.ltb_spec limit (Z.of_nat (Z.to_nat (limit + 1) `min` length l2))) as [Hlt|Hge]; cbn [Leases HasMore NextCursor].
  - rewrite take_take, Nat.min_l by lia. set (k := Z.to_nat limit) in *.
    assert (Hk : (0 < k < length l2)%nat) by (subst k; lia). clearbody k.
    destruct (last (take k l2)) as [x|] eqn:L.
    2: { apply last_None in L. apply (f_equal length) in L. rewrite length_take in L. cbn in L. lia. }
    apply last_Some in L as [r Hr].
    assert (E2 : all_leases state now s = (l1 ++ r) ++ x :: drop k l2).
    { rewrite E, <- (take_drop k l2), Hr at 1. by rewrite <- !app_assoc. }
    assert (Hx : 0 < Pool.ID x < 2 ^ 64) by (rewrite E2, Forall_app, Forall_cons in P; tauto).
    rewrite (IH (Pool.ID x) (FormatUint (Pool.ID x)) (l1 ++ r ++ [x]) (drop k l2)).
    + by rewrite <- map_app, take_drop.
    + rewrite E2, <- !app_assoc. done.
    + by right.
    + rewrite E2. apply cursor_suffix; [by rewrite <- E2|lia].
    + rewrite length_drop. lia.
  - rewrite app_nil_r, take_ge by lia. done.
Qed.

Lemma all_leases_facts state now s q :
  pool_reach (a_pool (rt_appender s), q) → len (Pool.leases (a_pool (rt_appender s))) < 2 ^ 64 →
  descending (all_leases state now s) ∧ Forall (λ sn, 0 < Pool.ID sn < 2 ^ 64) (all_leases state now s).
Proof.
  intros R B. destruct (items_nodup _ (state_filter state) now R B) as [N P]. cbn [fst] in *.
  split; [by apply descending_sort|]. unfold all_leases. by rewrite merge_sort_Permutation.
Qed.

Lemma filter_zero (l : list LeaseSnapshot) : base.filter (λ sn, 0 = 0 ∨ Pool.ID sn < 0) l = l.
Proof. induction l as [|x l IH]; [done|]. rewrite filter_cons_True by auto. by rewrite IH. Qed.

(** C28. Paging through the API.  Starting without a cursor and following
    [next_cursor] from request to request, with any page size from 1 to 199, a
    client receives every active and every retained lease of the state asked for
    exactly once, newest first, and the walk ends; no request on the way is
    refused. *)
Theorem list_pages s q fuel state limit now :
  pool_reach (a_pool (rt_appender s), q) → len (Pool.leases (a_pool (rt_appender s))) < 2 ^ 64 →
  state ∈ lease_states → 1 <= limit <= 199 → (length (all_leases state now s) < fuel)%nat →
  follow fuel state limit "" now s = map (convertLease false) (all_leases state now s) ∧
  all_leases state now s ≡ₚ snapshot_items (state_filter state) now (a_pool (rt_appender s)) ∧
  descending (all_leases state now s).
Proof.
  intros R B Hs Hl Hf. destruct (all_leases_facts state now s q R B) as [D P]. split_and!; [|apply merge_sort_Permutation|done].
  apply (follow_suffix _ _ _ 0 _ _ _ []); try done; [by left|apply filter_zero].
Qed.

(** The page size 200.  The API accepts a limit of 200 and [ListLeases] asks
    the pool for one lease more to see whether there is another page, but the pool
    never returns more than 200: a client that follows the pages receives the 200
    newest leases and is told there are no more. *)
Theorem list_limit_200 s q fuel state now :
  pool_reach (a_pool (rt_appender s), q) → len (Pool.leases (a_pool (rt_appender s))) < 2 ^ 64 →
  state ∈ lease_states → (0 < fuel)%nat →
  follow fuel state 200 "" now s = map (convertLease false) (take 200 (all_leases state now s)).
Proof.
  intros R B Hs Hf. destruct fuel as [|fuel]; [lia|]. cbn [follow].
  rewrite (request_query _ _ _ 0) by (done || lia || by left).
  rewrite (ListLeases_page _ _ _ _ _ (all_leases state now s)) by (done || lia || apply filter_zero).
  change (Z.to_nat (Z.min (200 + 1) 200)) with 200%nat.
  rewrite (proj2 (Z.ltb_ge 200 _)) by (rewrite length_take; lia). cbn. by rewrite app_nil_r.
Qed.
End Pages.

(** ** Instances *)

(** A service over a given pool. *)
Definition sample_file : FileSink :=
  mkFileSink (file_config Config.Defaults) (mkDisk (mkWriter [] 0 (λ _ bs, (len bs, None))) [] []) OpenFile 0 0
    (Sink.mkCursor [] 0 0 false) (Sink.mkStats 0 0 0 0 0 0 0 0 false) false None.
Definition over_pool (p : BytePool) : runtimeState () :=
  mkRuntime Config.Defaults (example_app <| a_pool := p |>) Collector.sample_server
    sample_file None (newObservedSink "writev") 0 false [] None ∅ ∅.

(** Three leases in two pages of at most two. *)
Lemma list_pages_witness :
  let s := over_pool example_state in
  follow 4 "all" 2 "" 100 s = map (convertLease false) (all_leases "all" 100 s) ∧
  map Pool.ID (all_leases "all" 100 s) = [3; 2; 1].
Proof.
  intros s. split; [|vm_compute; reflexivity].
  destruct (list_pages s [] 4 "all" 2 100) as [H _]; [exact example_reach|vm_compute; reflexivity|..].
  - apply (bool_decide_unpack _); vm_compute; exact I.
  - lia.
  - vm_compute. lia.
  - exact H.
Defined.

(** 201 leases held at once. *)
Definition many_state : BytePool :=
  Eval vm_compute in run (repeat (DoAcquire 3 no_context (example_env None 5)) 201) example_pool.

Lemma many_reach : pool_reach (many_state, []).
Proof.
  assert (many_state = run (repeat (DoAcquire 3 no_context (example_env None 5)) 201) example_pool) as ->
    by (vm_compute; reflexivity).
  apply (reach_run example_config), example_New.
Qed.

Lemma list_limit_200_witness :
  let s := over_pool many_state in
  length (all_leases "all" 100 s) = 201%nat ∧ length (follow 9 "all" 200 "" 100 s) = 200%nat.
Proof.
  intros s. split; [vm_compute; reflexivity|].
  rewrite (list_limit_200 s [] 9 "all" 100); [|exact many_reach|vm_compute; reflexivity| |lia].
  - vm_compute. reflexivity.
  - apply (bool_decide_unpack _); vm_compute; exact I.
Defined.
