(* ===== verification/RuntimeStart.v ===== *)
(** * Starting the service

    Every component accepts the settings [Validate] accepts, but for two of them;
    and the batches a validated service may form that its network client cannot
    send. *)

From stdpp Require Import gmap strings list fin_maps.
From Stdlib Require Import ZArith Lia.
From Stdlib.Strings Require Import Byte.
From S2P Require Import Prelude GoLib GoText GoNet Config Protocol Client Dedupe Collector Sink FileSink Ring Pool PoolInv Flusher FlushInv Appender AppenderSafety AppenderProps Observer Telemetry HttpApi Runtime.

(** ** The components accept an admissible configuration *)

Lemma audit_mode_valid text : text ∈ ["off"; "sampled"; "full"] → Pool.AuditMode_valid (audit_mode text) = true.
Proof. intros H. apply list_elem_of_In in H. by destruct H as [<-|[<-|[<-|[]]]]. Qed.

Lemma audit_mode_set text : text ∈ ["off"; "sampled"; "full"] → audit_mode text ≠ AuditUnset.
Proof. intros H. apply list_elem_of_In in H. by destruct H as [<-|[<-|[<-|[]]]]. Qed.

Lemma default_classes_ok m : 1 <= m → classes_ok 0 m (default_classes m) = true ∧ default_classes m ≠ [].
Proof.
  intros Hm. unfold default_classes, DefaultClasses.
  repeat (rewrite ?filter_cons; case_decide); rewrite ?filter_nil; cbn;
    repeat match goal with |- context [?a >? ?b] => rewrite (Z.gtb_ltb a b) end; ztest; split; done || lia.
Qed.

Lemma limits_ok c : typed c → admissible c → Limits_Validate (limits c) = Ok ().
Proof.
  intros [] []. unfold Limits_Validate, limits. cbn [MaxRecords MaxPayload Protocol.MaxEventBytes].
  rewrite u32_small by lia. change (Z.shiftl 1 16) with (2 ^ 16).
  change (Z.shiftl 64 20) with (2 ^ 26). change (Z.shiftl 16 20) with (2 ^ 24).
  ztest. reflexivity.
Qed.

(** What [Config.normalized] of the appender makes of the settings. *)
Definition normal_config (c : Config.Config) : Appender.Config :=
  (appender_config c) <| Appender.PoolClasses := default_classes (Config.MaxEventBytes c) |>.

Lemma appender_normalized c :
  admissible c → Appender.normalized (appender_config c) = Ok (normal_config c).
Proof.
  intros []. pose proof (audit_mode_valid _ a_mode) as Hv. pose proof (audit_mode_set _ a_mode) as Hs.
  unfold Appender.normalized, guard_err, default_if_zero. cbn -[default_classes audit_mode].
  ztest. cbn -[default_classes audit_mode]. rewrite !(decide_False (P := audit_mode _ = AuditUnset)), Hv by done. done.
Qed.

Lemma pool_accepts c : admissible c → ∃ p, Pool.New (pool_config (normal_config c)) = Ok p.
Proof.
  intros []. pose proof (audit_mode_valid _ a_mode) as Hv. pose proof (audit_mode_set _ a_mode) as Hs.
  split_Forall. destruct (default_classes_ok (Config.MaxEventBytes c)) as [Hc Hne]; [lia|].
  unfold Pool.New, Pool.normalized, guard_err, pool_config, normal_config, default_if_zero.
  cbn -[default_classes audit_mode classes_ok].
  destruct (default_classes (Config.MaxEventBytes c)) as [|x l] eqn:E; [done|].
  cbn -[audit_mode classes_ok]. rewrite !(decide_False (P := audit_mode _ = AuditUnset)), Hv by done. cbn -[audit_mode classes_ok].
  ztest. cbn -[audit_mode classes_ok]. ztest. cbn -[audit_mode classes_ok].
  rewrite Hc. eauto.
Qed.

Lemma flusher_accepts c : admissible c → ∃ f, Flusher.New false false false (flusher_config (normal_config c)) = Ok f.
Proof.
  intros []. split_Forall.
  unfold Flusher.New, Flusher.normalized, guard_err, flusher_config, normal_config, default_if_zero. cbn.
  ztest. cbn. ztest. cbn. eauto.
Qed.

Lemma ring_accepts c : admissible c → Config.RingCapacity c <= 2 ^ 30 →
  ∃ q : Queue nat, Ring.New (Config.RingCapacity c) = Ok q.
Proof.
  intros [[Hp H2]] Hr. apply pow2_log2 in Hp; [|lia].
  destruct (proj1 (New_accepts_iff (T := nat) (Config.RingCapacity c))) as (q & Hq & _); [|eauto].
  exists (Z.log2 (Config.RingCapacity c)). split; [|done].
  apply Z.log2_le_mono in H2, Hr. done.
Qed.

Lemma ring_refuses c : 2 ^ 30 < Config.RingCapacity c →
  Ring.New (T := nat) (Config.RingCapacity c) = Err (ErrWrap "%w: %d" ErrInvalidCapacity).
Proof. intros H. unfold Ring.New. change maxCapacity with (2 ^ 30). by ztest. Qed.

(** [Appender.New], constructor by constructor. *)
Lemma appender_New (c n : Appender.Config) (q : result (Queue nat)) :
  Appender.normalized (c <| Appender.Sink := true |>) = Ok n → Ring.New (Appender.RingCapacity n) = q →
  (∃ p, Pool.New (pool_config n) = Ok p) → (∃ f, Flusher.New false false false (flusher_config n) = Ok f) →
  match q with
  | Ok q => ∃ a, Appender.New c [] = Ok a
  | Err e => Appender.New c [] = Err e
  end.
Proof.
  intros Hn Hq [p Hp] [f Hf]. unfold Appender.New. cbn [apply_options mbind result_bind].
  rewrite Hn. cbn [mbind result_bind]. rewrite Hq. destruct q as [q|e]; cbn [mbind result_bind]; [|done].
  rewrite Hp. cbn [mbind result_bind]. rewrite Hf. cbn [mbind result_bind]. eauto.
Qed.

Lemma appender_accepts c :
  admissible c → Config.RingCapacity c <= 2 ^ 30 → ∃ a, Appender.New (appender_config c) [] = Ok a.
Proof.
  intros A Hr. destruct (ring_accepts c A Hr) as [q Hq].
  exact (appender_New (appender_config c) _ (Ok q) (appender_normalized c A) Hq (pool_accepts c A) (flusher_accepts c A)).
Qed.

Lemma appender_refuses c :
  admissible c → 2 ^ 30 < Config.RingCapacity c →
  Appender.New (appender_config c) [] = Err (ErrWrap "%w: %d" ErrInvalidCapacity).
Proof.
  intros A Hr.
  exact (appender_New (appender_config c) _ (Err _) (appender_normalized c A) (ring_refuses c Hr) (pool_accepts c A) (flusher_accepts c A)).
Qed.

Lemma address_nonempty a : validateAddress a = None → a ≠ "".
Proof. by intros H ->. Qed.

Lemma collector_accepts c : typed c → admissible c → ∃ s, Collector.New (collector_config c) true = Ok s.
Proof.
  intros T A. pose proof (limits_ok c T A) as L. destruct A. split_Forall.
  unfold Collector.New, Config_validate, collector_config. cbn.
  rewrite bool_decide_eq_false_2 by (by apply address_nonempty). ztest. cbn. rewrite L. cbn. eauto.
Qed.

Lemma client_accepts {Conn} c raw : typed c → admissible c → Config.Sink c = "network" →
  ∃ k : Client Conn, NewClient (Ok raw) (client_config c) = Ok k ∧ Client.cc_Limits (Client.config k) = limits c ∧
    Client.pending k = None ∧ Client.closed k = false.
Proof.
  intros T A Hn. pose proof (limits_ok c T A) as L. destruct A. destruct a_retry. split_Forall.
  unfold NewClient, client_config. cbn -[Limits_Validate limits].
  rewrite bool_decide_eq_false_2 by (by apply address_nonempty; auto). cbn -[Limits_Validate limits].
  unfold default_to. ztest. cbn -[Limits_Validate limits]. ztest.
  rewrite bool_decide_eq_false_2 by (intros E; rewrite E in L; done).
  cbn -[Limits_Validate limits]. rewrite L. cbn. eauto.
Qed.

(** ** Properties *)

(** C30. Start.  For settings that [Validate] accepts, the service starts as soon as
    the log file can be opened and an identifier drawn, whatever the settings, with
    two exceptions that [Validate] lets pass: a ring capacity above 2^30, which the
    ring refuses, and an empty log path with the network sink, for the file is
    opened all the same.  A started service is open, holds no lease, has a client
    exactly with the network sink, and its sampler accepts the settings too. *)
Theorem newRuntime_outcome {Conn} cfg http_first d raw now :
  typed cfg → Validate http_first cfg = None →
  match NewFile (file_config cfg) d with
  | Err e => newRuntime (Conn := Conn) cfg d (Ok raw) now = Failed e []
  | Ok file =>
      if 2 ^ 30 <? Config.RingCapacity cfg
      then newRuntime (Conn := Conn) cfg d (Ok raw) now
           = Failed (ErrWrap "%w: %d" ErrInvalidCapacity) [CloseObserved; CloseFile]
      else ∃ s, newRuntime (Conn := Conn) cfg d (Ok raw) now = Started s ∧ rt_config s = cfg ∧
           rt_file s = file ∧ appender_ok (rt_appender s) ∧ a_closed (rt_appender s) = false ∧
           handles (rt_appender s) = [] ∧ (is_Some (rt_client s) ↔ Config.Sink cfg = "network") ∧
           closing s = false ∧ demoLeases s = ∅ ∧
           is_Ok (NewSampler false (Config.TelemetryInterval cfg) (Config.SSEMaxClients cfg)
                    (TelemetrySnapshot s) now 0 0) = true
  end.
Proof.
  intros T A%Validate_admissible; [|done]. unfold newRuntime.
  destruct (NewFile (file_config cfg) d) as [file|e]; [|done].
  assert (Hclient : ∃ k m, (if bool_decide (Config.Sink cfg = "network")
      then c ← NewClient (Conn := Conn) (Ok raw) (client_config cfg); Ok (Some c, "scatter_gather")
      else Ok (None, BatchMode FileSink_Capabilities)) = Ok (k, m) ∧ (is_Some k ↔ Config.Sink cfg = "network")).
  { case_bool_decide as Hn.
    - destruct (client_accepts (Conn := Conn) cfg raw T A Hn) as (k & -> & _). cbn. by eexists _, _.
    - exists None, (BatchMode FileSink_Capabilities). split; [done|]. split; [by intros []|done]. }
  destruct Hclient as (k & m & -> & Hk). destruct (Z.ltb_spec (2 ^ 30) (Config.RingCapacity cfg)) as [Hr|Hr].
  - by rewrite appender_refuses.
  - destruct (appender_accepts cfg A Hr) as [a Ha], (collector_accepts cfg T A) as [col Hc].
    rewrite Ha, Hc. eexists. split; [done|]. cbn -[NewSampler TelemetrySnapshot].
    pose proof (ok_New _ _ _ Ha) as Hok. unfold Appender.New in Ha.
    apply bind_Ok in Ha as (c1 & _ & (c2 & _ & (q & _ & (p & _ & (f & _ & [= <-])%bind_Ok)%bind_Ok)%bind_Ok)%bind_Ok).
    split_and!; try done. destruct A. split_Forall. unfold NewSampler. by ztest.
Qed.

Section Oversized.
Context {W Conn : Type} `{!Net W Conn}.

(** A caller that offers the same batch again and again, as the flusher does. *)
Fixpoint offers (n : nat) (records : list (list byte)) (c : Client Conn) (w : W)
  : list (option error) * Client Conn * W :=
  match n with
  | O => ([], c, w)
  | S n =>
      let '(err, c, w) := Send records c w in
      let '(errs, c, w) := offers n records c w in (err :: errs, c, w)
  end.

(** What a service with these settings may put into one batch. *)
Definition batch_allowed (cfg : Config.Config) (records : list (list byte)) : Prop :=
  0 < len records <= Config.BatchSize cfg ∧
  Forall (λ r, 0 < len r <= Config.MaxEventBytes cfg) records.

(** A batch that does not encode is refused before anything is sent. *)
Lemma Send_refused records (c : Client Conn) w :
  (∀ cid bid t, is_Ok (NewEncodedBatch cid bid t records (Client.cc_Limits (Client.config c))) = false) →
  Client.pending c = None → Client.closed c = false →
  ∃ err, Send records c w = (Some err, c <| batchID ::= Client.next_id |>, (net_now w).2).
Proof.
  intros H Hp Hc. unfold Send. rewrite Hc, Hp. destruct (net_now w) as [t w1]. cbn -[NewEncodedBatch].
  match goal with |- context [NewEncodedBatch ?a ?b ?c ?d ?e] =>
    specialize (H a b c); destruct (NewEncodedBatch a b c d e) as [x|err] end; [done|by exists err].
Qed.

(** C37. Batches that cannot be sent.  [Validate] bounds neither the batch size by
    the protocol's record count nor a batch's bytes by its payload limit: when the
    flusher forms a larger batch of events that are each in order, the network
    client refuses it before it dials, on every attempt, and nothing changes but
    the batch number and the clock; the flusher, which retries a failed batch as it
    is, never gets past it. *)
Theorem oversized_batch_stalls cfg records n (c : Client Conn) w :
  typed cfg → admissible cfg → batch_allowed cfg records →
  (Config.ProtocolMaxRecords cfg < len records ∨ Config.ProtocolMaxPayload cfg < len (Protocol.frames records)) →
  Client.cc_Limits (Client.config c) = limits cfg → Client.pending c = None → Client.closed c = false →
  let '(errs, c', w') := offers n records c w in
  length errs = n ∧ Forall is_Some errs ∧ Client.pending c' = None ∧ Client.conn c' = Client.conn c ∧
  w' = Nat.iter n (λ w, (net_now w).2) w.
Proof.
  intros T A B Hbig Hl. assert (Hne : ∀ cid bid t, is_Ok (NewEncodedBatch cid bid t records (limits cfg)) = false).
  { intros cid bid t. destruct (NewEncodedBatch _ _ _ _ _) as [e|] eqn:E; [|done].
    apply NewEncodedBatch_spec in E as [(_ & _ & _ & H1 & _ & _ & _ & H2) _]. cbn in H1, H2. lia. }
  revert c w Hl. induction n as [|n IH]; intros c w Hl Hp Hc; [done|]. cbn [offers].
  destruct (Send_refused records c w) as [err ->]; [by rewrite Hl|done|done|].
  match goal with |- context [offers n records ?c1 ?w1] =>
    specialize (IH c1 w1 Hl Hp Hc); revert IH; destruct (offers n records c1 w1) as [[errs c'] w'] end.
  intros (I1 & I2 & I3 & I4 & I5). cbn in I4.
  split_and!; [cbn; by rewrite I1|by constructor|done|done|]. by rewrite I5, Nat.iter_succ_r.
Qed.
End Oversized.

(** ** Instances *)

Ltac typed_tac :=
  constructor; [lia || (vm_compute; split; congruence)|apply (bool_decide_unpack _); vm_compute; exact I
    |vm_compute; split; congruence|vm_compute; split; congruence].

Definition sample_disk : disk := mkDisk stuttering [] [].

(** A small ring, and the log path left out: accepted, but the file is opened all
    the same. *)
Definition small_config : Config.Config :=
  Defaults <| Config.RingCapacity := 4 |> <| Config.BatchSize := 2 |> <| Config.Sink := "network" |>.
Definition no_path : Config.Config := small_config <| Config.LogPath := "" |>.

Lemma newRuntime_outcome_witness :
  (∃ s, newRuntime (Conn := ()) small_config sample_disk (Ok (repeat x07 8)) 5 = Started s ∧
        is_Some (rt_client s)) ∧
  Validate true no_path = None ∧
  newRuntime (Conn := ()) no_path sample_disk (Ok (repeat x07 8)) 5
  = Failed (ErrNew "file sink path is required") [].
Proof.
  split_and!; [|vm_compute; reflexivity..].
  assert (T : typed small_config) by typed_tac.
  pose proof (newRuntime_outcome (Conn := ()) small_config true sample_disk (repeat x07 8) 5 T
    ltac:(vm_compute; reflexivity)) as H.
  destruct (NewFile (file_config small_config) sample_disk) as [f|e] eqn:E.
  - destruct H as (s & Hs & _ & _ & _ & _ & _ & Hc & _). exists s. split; [exact Hs|]. by apply Hc.
  - exfalso. vm_compute in E. discriminate E.
Defined.

(** Two events of ten bytes where a frame may carry sixteen. *)
Definition tight_config : Config.Config :=
  small_config <| Config.ProtocolMaxPayload := 16 |> <| Config.MaxEventBytes := 10 |>.
Definition two_events : list (list byte) := [repeat x61 10; repeat x62 10].
Definition tight_client : Client () :=
  mkClient (client_config tight_config) None 0 None false.

Lemma oversized_batch_stalls_witness :
  Validate true tight_config = None ∧
  let '(errs, _, _) := offers 3 two_events tight_client (mkScript [] [] [] []) in
  length errs = 3%nat ∧ Forall is_Some errs.
Proof.
  split; [vm_compute; reflexivity|].
  pose proof (oversized_batch_stalls tight_config two_events 3 tight_client (mkScript [] [] [] [])) as H.
  destruct (offers 3 two_events tight_client (mkScript [] [] [] [])) as [[errs c] w].
  destruct H as (H1 & H2 & _); try reflexivity; [| | |right; vm_compute; reflexivity|split; done].
  - typed_tac.
  - apply (Validate_admissible true); [typed_tac|vm_compute; reflexivity].
  - apply (bool_decide_unpack _); vm_compute; exact I.
Defined.
