(* ===== verification/Pipeline.v ===== *)
(** * The pipeline: from the ring to the sink's store

    pkg/minilogback's [Sink] asks that a batch that was partially committed be
    resumed by the next call without replaying the committed part.  [ResumingSink]
    states that contract; over any sink that keeps it, what the flusher leaves in
    the sink's store is the stream of admitted events. *)

From stdpp Require Import gmap strings list fin_maps.
From Stdlib Require Import ZArith Lia.
From Stdlib.Strings Require Import Byte.
From S2P Require Import Prelude GoLib Ring RingConc Pool PoolInv PoolSafety Flusher FlushInv FlushSafety FlushControl FlushLive.

(** ** The contract (types.go: Sink) *)

(** [store] is what the sink has made durable; [free]: no batch is under way;
    [progress base b]: the batch [b] may be under way, the store having been [base]
    before it; [within]: the counters of the sink have not come round. *)
Class ResumingSink (S : Type) `{BatchSink S} := {
  store : S → list byte;
  free : S → Prop;
  progress : list byte → list (list byte) → S → Prop;
  within : S → Prop;
  free_progress s b : free s → progress (store s) b s;
  progress_store base b s : progress base b s → ∃ n, store s = base ++ take n (concat b);
  write_resumes c base b s :
    within (sink_write c b s).1 → progress base b s →
    match sink_write c b s with
    | (s', None) => free s' ∧ store s' = base ++ concat b
    | (s', Some _) => progress base b s'
    end;
  write_within c b s : within (sink_write c b s).1 → within s;
  flush_keeps s : store (sink_flush s).1 = store s ∧ (within (sink_flush s).1 → within s);
  close_keeps s : store (sink_close s).1 = store s ∧ (within (sink_close s).1 → within s)
}.

Section Pipeline.
Context {S : Type} `{ResumingSink S}.
Implicit Types (w : world S) (s : S) (g : ghost).

(** What the accepted batches have put after [before]. *)
Definition committed_bytes (before : list byte) g : list byte := before ++ concat (concat (output g)).

(** The sink at each point of the loop. *)
Definition sink_ok (before : list byte) (pc : run_pc) (lp : loop) g s : Prop :=
  let done := committed_bytes before g in
  let exact := free s ∧ store s = done in
  match pc with
  | RRelease _ _ | RDelivered _ | REmpty _ | RExitFlush => exact
  | RExitClose _ => store s = done
  | RReturn | RDone => aborting lp = false → store s = done
  | RAbandon _ | RDrain | RDrainWait | RDrainMark _ | RDrainRelease _ | RAbortClose => True
  | _ => if retrying lp then progress done (attempted g) s else exact
  end.

(** The bytes after the accepted batches are a part of the batch of the last
    attempt, and that batch is the next admitted events. *)
Definition tail_ok (before : list byte) (r : ring_sys nat) g s : Prop :=
  ∃ n l, store s = committed_bytes before g ++ take n (concat (published_bytes g l)) ∧
    concat (delivered g) ++ l `prefix_of` reserved r.

Definition Stored (before : list byte) w : Prop :=
  sink_ok before (w_pc w) (w_loop w) (w_ghost w) (w_sink w) ∧
  tail_ok before (w_ring w) (w_ghost w) (w_sink w).

Lemma tail_exact before r g s l :
  store s = committed_bytes before g → concat (delivered g) ++ l `prefix_of` reserved r → tail_ok before r g s.
Proof.
  intros E P. exists 0%nat, []. rewrite E, take_0, !app_nil_r. split; [done|].
  destruct P as [q ->]. exists (l ++ q). by rewrite app_assoc.
Qed.

Lemma delivered_prefix w : Flow w → concat (delivered (w_ghost w)) `prefix_of` reserved (w_ring w).
Proof.
  intros [_ _ _ _ _ _ _ (s & f & q & E & _ & _ & _ & _ & St)].
  destruct (stage_front _ _ _ _ _ St) as [[rest Er] _]. exists (gone (w_ghost w) ++ rest ++ q).
  by rewrite E, app_assoc, Er, <- !app_assoc.
Qed.

Lemma step_reserved w w' : sys_step w w' → reserved (w_ring w) `prefix_of` reserved (w_ring w').
Proof.
  intros Hl%sys_step_later. induction Hl as [r ->|r r' _ IH Hs]; [done|]. etrans; [exact IH|].
  destruct Hs; cbn; first [done|by eexists].
Qed.

(** Steps that change neither the store nor what was delivered. *)
Lemma tail_eq before r r' g g' s s' :
  tail_ok before r g s → store s' = store s → delivered g' = delivered g → output g' = output g →
  sent g' = sent g → reserved r `prefix_of` reserved r' → tail_ok before r' g' s'.
Proof.
  intros (n & l & E & P) E1 E2 E3 E4 P'. exists n, l. unfold committed_bytes, published_bytes in *.
  rewrite E1, E2, E3, E4. split; [done|]. by etrans.
Qed.

Lemma sink_exact before w :
  Batch w → sink_ok before (w_pc w) (w_loop w) (w_ghost w) (w_sink w) → w_pc w = RExitCheck →
  pending (w_loop w) = [] → free (w_sink w) ∧ store (w_sink w) = committed_bytes before (w_ghost w).
Proof.
  intros B K E P. rewrite E in K. cbn in K. destruct (retrying (w_loop w)) eqn:R; [|done].
  destruct (bo_retry _ _ _ _ B R) as (_ & [X|[X _]]); [by rewrite E in X|done].
Qed.

(** A write: the batch is committed, or the part of it that the store shows is a
    part of the next admitted events. *)
Lemma stored_write before w i :
  World w → Stored before w → w_pc w = RWrite →
  within (w_sink (write_batch i w)) → Stored before (write_batch i w).
Proof.
  intros [_ F _ Ba _] [K T] E Wi. rewrite E in K. cbn in K.
  pose proof (write_payloads w F E) as P. unfold write_batch in *.
  set (fl := if retrying (w_loop w) then (w_fl w) <| retries ::= inc |> else w_fl w) in *. set (b := map _ _) in *.
  assert (Pr : progress (committed_bytes before (w_ghost w)) b (w_sink w)).
  { destruct (retrying (w_loop w)) eqn:R.
    - destruct (bo_retry _ _ _ _ Ba R) as (_ & [X|[_ X]]); [by rewrite E in X|]. by rewrite P, <- X.
    - destruct K as [Fr <-]. by apply free_progress. }
  pose proof (write_resumes (abort fl) (committed_bytes before (w_ghost w)) b (w_sink w)) as L.
  destruct F as [_ _ _ _ _ _ _ (st & f & q & Er & _ & _ & _ & _ & St)]. rewrite E in St.
  destruct St as (-> & -> & _).
  destruct (sink_write (abort fl) b (w_sink w)) as [s' [e|]]; cbn in Wi |- *; specialize (L Wi Pr).
  - split; [exact L|]. destruct (progress_store _ _ _ L) as [n Hn]. exists n, (pending (w_loop w)).
    split; [etrans; [exact Hn|]; by rewrite P|]. cbn. rewrite Er. exists q. by rewrite <- app_assoc.
  - destruct L as [Fr L]. assert (X : store s' = before ++ concat (concat (output (w_ghost w) ++ [b]))).
    { etrans; [exact L|]. unfold committed_bytes. rewrite !concat_app. cbn. by rewrite app_nil_r, app_assoc. }
    split; [by split|]. eapply (tail_exact before _ _ _ []); [exact X|]. cbn.
    rewrite concat_app, Er, app_nil_r. cbn. rewrite app_nil_r. exists q. by rewrite <- app_assoc.
Qed.

(** The steps of the loop that do not write. *)
Lemma poll_retrying i f lp : retrying (poll_channels i f lp) = retrying lp.
Proof. unfold poll_channels. by destruct_ifs. Qed.

Lemma run_keeps_store w i :
  w_pc w ≠ RWrite → let w' := run_step i w in
  store (w_sink w') = store (w_sink w) ∧ delivered (w_ghost w') = delivered (w_ghost w) ∧
  output (w_ghost w') = output (w_ghost w) ∧ sent (w_ghost w') = sent (w_ghost w) ∧
  (within (w_sink w') → within (w_sink w)).
Proof.
  intros Ne w'. unfold w', run_step, fill_mark, count_batch, finish, consumed_lease.
  destruct (w_pc w) as [|[]| | | | | | | | | | | | |[]| | | | | | | | |]; rewrite ?release_eq; try done; cbn;
    repeat match goal with
    | |- context [sink_flush ?s] => pose proof (flush_keeps s); destruct (sink_flush s) as [? ?]; cbn in *
    | |- context [sink_close ?s] => pose proof (close_keeps s); destruct (sink_close s) as [? ?]; cbn in *
    | |- context [let '(_, _) := ?x in _] => destruct x as [? []]
    | |- context [match ?x with _ => _ end] => destruct x
    end; cbn; naive_solver.
Qed.

Lemma sink_run before w i :
  World w → w_pc w ≠ RWrite → sink_ok before (w_pc w) (w_loop w) (w_ghost w) (w_sink w) →
  let w' := run_step i w in sink_ok before (w_pc w') (w_loop w') (w_ghost w') (w_sink w').
Proof.
  intros Wo Ne K w'. assert (X := sink_exact before w (wo_batch _ Wo) K).
  assert (A : w_pc w = RAbortClose → aborting (w_loop w) = true).
  { intros E. destruct (wo_flow _ Wo) as [_ _ _ _ _ _ _ (? & ? & ? & _ & _ & _ & _ & _ & St)].
    rewrite E in St. apply St. }
  assert (Y : ∀ c, w_pc w = REmpty c → retrying (w_loop w) ≠ true).
  { intros c E R. destruct (wo_flow _ Wo) as [_ _ _ _ _ _ _ (? & ? & ? & _ & _ & _ & _ & _ & St)].
    rewrite E in St. destruct St as (_ & P & _).
    destruct (bo_retry _ _ _ _ (wo_batch _ Wo) R) as (_ & [L|[L _]]); [by rewrite E in L|done]. }
  unfold w', run_step. clear w'.
  destruct (w_pc w) as [|todo| | |h|h| | | |h|h| | | |todo sum|sum| |c| |err| |until| |] eqn:E.
  - cbn. destruct (aborting (poll_channels _ _ _)); [exact I|]. destruct (retrying (poll_channels _ _ _)) eqn:R;
      rewrite poll_retrying in R; cbn in *; rewrite ?poll_retrying, R in *; exact K.
  - destruct todo; rewrite ?release_eq; exact I.
  - exact I.
  - unfold consumed_lease. destruct (con (w_ring w)) as [| | | | | | |[]]; cbn; rewrite ?E; exact I.
  - exact I.
  - rewrite release_eq. exact I.
  - destruct (sink_close (w_sink w)) as [s err]. cbn. by rewrite A.
  - destruct (_ <? _); exact K.
  - unfold consumed_lease. destruct (con (w_ring w)) as [| | | | | | |[]]; cbn; rewrite ?E; exact K.
  - unfold fill_mark. destruct (MarkInFlight h (w_pool w)) as [p [e|]]; [destruct (is_modified e)|];
      cbn; destruct (pending (w_loop w)); exact K.
  - rewrite release_eq. exact K.
  - exact K.
  - destruct (shouldFlush _ _ _); exact K.
  - done.
  - destruct todo; rewrite ?release_eq; exact K.
  - exact K.
  - destruct (_ && _) eqn:B; [|exact K]. apply X; [done|]. zbool. by destruct (pending (w_loop w)).
  - destruct (depth_step _ _) as [| |d]; cbn; rewrite ?E; try exact K. destruct (d =? 0); [exact K|].
    cbn. destruct (retrying (w_loop w)) eqn:R; [|exact K]. exfalso. by eapply Y.
  - pose proof (flush_keeps (w_sink w)) as [Fk _]. destruct (sink_flush (w_sink w)). cbn in *. etrans; [exact Fk|apply K].
  - pose proof (close_keeps (w_sink w)) as [Ck _]. destruct (sink_close (w_sink w)). cbn in *. intros _. by etrans.
  - exact K.
  - destruct (_ || _); cbn; rewrite ?E, ?poll_retrying; exact K.
  - exact K.
  - by rewrite E.
Qed.

Lemma stored_run before w i :
  World w → Stored before w → within (w_sink (run_step i w)) → Stored before (run_step i w).
Proof.
  intros Wo St Wi. assert (D : w_pc w = RWrite ∨ w_pc w ≠ RWrite) by (destruct (w_pc w); auto).
  destruct D as [E|Ne].
  - unfold run_step in *. rewrite E in *. by apply stored_write.
  - destruct St as [K T]. split; [by apply sink_run|].
    destruct (run_keeps_store w i Ne) as (E1 & E2 & E3 & E4 & _).
    eapply tail_eq; [exact T|done..|]. by rewrite (proj1 (proj2 (run_ring_frame w i))).
Qed.

Lemma stored_step before w w' :
  sys_step w w' → World w → Stored before w → within (w_sink w') → Stored before w'.
Proof.
  intros St Wo Sd Wi. pose proof (step_reserved _ _ St) as Rv.
  destruct (sys_other _ _ St) as [[i ->]|(E1 & E2 & E3 & _ & G)]; [by apply stored_run|].
  destruct Sd as [K T]. unfold Stored. rewrite E1, E2, E3.
  destruct G as [-> |(h & Hb & ->)]; [split; [done|by eapply tail_eq]|]. split; [exact K|].
  destruct T as (n & l & Ts & P). exists n, l. split; [|by etrans].
  assert (X : published_bytes ((w_ghost w) <| sent ::= <[h := payload_of (w_pool w') h]> |>) l
              = published_bytes (w_ghost w) l); [|by rewrite X].
  apply map_ext_in. intros h' Hh'%list_elem_of_In. cbn. rewrite lookup_insert_ne; [done|]. intros <-.
  assert (Hr : h ∈ reserved (w_ring w)).
  { destruct P as [q ->]. rewrite !elem_of_app. auto. }
  destruct (reserved_state _ _ _ _ _ _ _ (wo_flow _ Wo) Hr) as [X|[X|X]];
    by pose proof (in_state_fun _ _ _ _ Hb X).
Qed.

Lemma step_within w w' : sys_step w w' → within (w_sink w') → within (w_sink w).
Proof.
  intros St. destruct (sys_other _ _ St) as [[i ->]|(_ & _ & -> & _)]; [|done].
  assert (D : w_pc w = RWrite ∨ w_pc w ≠ RWrite) by (destruct (w_pc w); auto).
  destruct D as [E|Ne]; [|by destruct (run_keeps_store w i Ne) as (_ & _ & _ & _ & ?)].
  unfold run_step. rewrite E. unfold write_batch.
  set (fl := if retrying (w_loop w) then (w_fl w) <| retries ::= inc |> else w_fl w).
  intros Wi. apply (write_within (abort fl) (map (payload_of (w_pool w)) (pending (w_loop w)))).
  by destruct (sink_write _ _ _) as [s [e|]].
Qed.

(** A system that starts with the sink [s]. *)
Definition sys_from s (k base : Z) w : Prop := sys_init k base w ∧ w_sink w = s.
Definition from_reach s (k base : Z) : world S → Prop := reach (sys_from s k base) sys_step.

Lemma from_sys s k base w : from_reach s k base w → sys_reach k base w.
Proof. intros R. induction R as [w [I _]|]; [by apply reach_init|by eapply reach_step]. Qed.

Lemma from_Stored s k base w :
  0 <= base < 2 ^ 64 → 1 <= k <= 30 → free s → from_reach s k base w →
  bounded (w_ring w) → within (w_sink w) → Stored (store s) w.
Proof.
  intros Hb Hk Fr R. induction R as [w [I Es]|w w' R IH St]; intros B Wi.
  - destruct I as (_ & _ & _ & _ & Lo & P & G). unfold Stored, sink_ok, tail_ok, committed_bytes.
    rewrite P, Lo, G, Es. cbn. rewrite app_nil_r. split; [done|]. exists 0%nat, [].
    split; [by rewrite take_0, app_nil_r|]. apply prefix_nil.
  - pose proof (sys_bounded _ _ St B) as B'. apply (stored_step _ w w' St); [|apply IH; [done|by eapply step_within]|done].
    by apply (reach_World k base); [..|by eapply from_sys|].
Qed.

(** What the loop leaves when nobody was about to publish. *)
Lemma all_delivered w n :
  World w → w_pc w = RDone → aborting (w_loop w) = false → left_at (w_ghost w) = Some (n, false) →
  reserved (w_ring w) = concat (delivered (w_ghost w)).
Proof.
  intros Wo E A L. destruct (ex_left _ (wo_exit _ Wo) n false L) as (_ & _ & C & Hn & Rc).
  destruct (Rc eq_refl) as [_ R].
  destruct (wo_flow _ Wo) as [_ _ _ _ _ _ _ (s & f & q & Er & _ & _ & _ & _ & St)]. rewrite E in St.
  destruct St as (-> & _ & -> & Ab). destruct Ab as [|G]; [congruence|].
  rewrite G in *. rewrite app_nil_r in *. cbn in Er. rewrite Er, length_app in R.
  destruct q; [by rewrite Er, app_nil_r|cbn in R; lia].
Qed.

(** The stream of admitted events. *)
Definition stream w : list byte := concat (published_bytes (w_ghost w) (reserved (w_ring w))).

(** What the invariants say of the store: it holds [before], followed by a part of the
    stream of admitted events that starts where the stream starts and contains every
    delivered event; after a close that nobody raced, all of it. *)
Lemma stored_stream before w :
  World w → Stored before w →
  ∃ n, store (w_sink w) = before ++ take n (stream w) ∧
    (length (concat (published_bytes (w_ghost w) (concat (delivered (w_ghost w))))) <= n)%nat ∧
    (∀ m, w_pc w = RDone → aborting (w_loop w) = false → left_at (w_ghost w) = Some (m, false) →
       store (w_sink w) = before ++ stream w).
Proof.
  intros Wo [K (n & l & E & q & Er)].
  set (g := w_ghost w) in *. set (D := concat (published_bytes g (concat (delivered g)))).
  assert (C : committed_bytes before g = before ++ D).
  { unfold committed_bytes, D. f_equal. f_equal. unfold g. rewrite (fl_output _ _ _ _ _ _ (wo_flow _ Wo)).
    unfold published_bytes. by rewrite concat_map. }
  assert (St : stream w = D ++ concat (published_bytes g l) ++ concat (published_bytes g q)).
  { unfold stream, D, published_bytes. fold g. by rewrite Er, !map_app, !concat_app, <- app_assoc. }
  exists (length D + min n (length (concat (published_bytes g l))))%nat. split_and!; [|lia|].
  - rewrite E, C, St, <- app_assoc, take_app_add. do 2 f_equal. rewrite take_app_le by lia.
    destruct (decide (n <= length (concat (published_bytes g l)))%nat); [by rewrite Nat.min_l by lia|].
    rewrite Nat.min_r by lia. by rewrite !take_ge by lia.
  - intros m P A L. pose proof (all_delivered w m Wo P A L) as Ra. unfold sink_ok in K. rewrite P in K.
    rewrite (K A), C. unfold stream, D. fold g. by rewrite Ra.
Qed.

(** Over any sink that keeps the contract. *)
Lemma pipeline_stream s k base w :
  0 <= base < 2 ^ 64 → 1 <= k <= 30 → free s → from_reach s k base w →
  bounded (w_ring w) → within (w_sink w) →
  ∃ n, store (w_sink w) = store s ++ take n (stream w) ∧
    (length (concat (published_bytes (w_ghost w) (concat (delivered (w_ghost w))))) <= n)%nat ∧
    (∀ m, w_pc w = RDone → aborting (w_loop w) = false → left_at (w_ghost w) = Some (m, false) →
       store (w_sink w) = store s ++ stream w).
Proof.
  intros Hb Hk Fr R B Wi. apply stored_stream; [|by eapply from_Stored].
  by apply (reach_World k base); [..|by eapply from_sys|].
Qed.
End Pipeline.
