(* ===== verification/PipelineSinks.v ===== *)
(** * The sinks of the pipeline

    The file sink and the writer sink keep the contract of Pipeline.v, whatever the
    operating system and the contexts answer; and the flusher over the file sink,
    from the publishers to the bytes on the disk. *)

From stdpp Require Import gmap strings list fin_maps.
From Stdlib Require Import ZArith Lia.
From Stdlib.Strings Require Import Byte.
From S2P Require Import Prelude GoLib Sink FileSink Ring RingConc Pool PoolInv PoolSafety Flusher FlushInv FlushSafety FlushControl FlushProps Observer Pipeline.

(** ** The file sink *)

(** Open or shut, nothing under way. *)
Record fs_ready (s : FileSink) : Prop := mkReady {
  rd_writer : writer_ok (d_file (fs_disk s));
  rd_file : file s ≠ NilFile;
  rd_closed : Sink.Closed (fs_counters s) = false;
  rd_size : file s = OpenFile → fs_size s = len (content s);
  rd_pending : fs_pending s = empty_cursor
}.

Lemma fs_ready_progress s b :
  fs_ready s → fs_progress (log s) b (d_rotated (fs_disk s)) (content s) (fs_config s) s.
Proof.
  intros [H1 H2 H3 H4 H5]. split; [|split].
  - split; try done. intros _. split_and!.
    + exists []. by rewrite app_nil_r.
    + by do 2 right.
    + rewrite H5. intros Hoff. cbn in Hoff. lia.
  - rewrite H5. intros ?. cbn in *. lia.
  - by left.
Qed.

Lemma fs_done_ready b rot0 f0 config s :
  sink_inv b rot0 f0 config s → fs_pending s = empty_cursor → fs_ready s.
Proof. intros [] E. by split. Qed.

(** What the environment answers to the calls to come: the context's errors and
    the duration of each.  A call on the cancelled work context fails at once. *)
Record file_port := mkFilePort { fp_sink : FileSink; fp_calls : list (contexts * Z) }.

Definition work_cancelled : error := ErrNew "context canceled".
Definition all_cancelled : contexts :=
  mkContexts (λ _, Some work_cancelled) (λ _, Some work_cancelled) (Some work_cancelled).

Definition next_call (cancelled : bool) (p : file_port) : contexts * Z * list (contexts * Z) :=
  let '(ctx, elapsed, rest) :=
    match fp_calls p with
    | [] => (no_cancel, 0, [])
    | (ctx, elapsed) :: rest => (ctx, elapsed, rest)
    end in
  (if cancelled then all_cancelled else ctx, elapsed, rest).

Section FilePort.
Context `{WriteFnLaws} (N : nat).

(** [N] bounds the calls the operating system interrupts; the fuel is enough. *)
#[export] Instance file_port_ops : BatchSink file_port := {
  sink_write cancelled b p :=
    let '(ctx, elapsed, rest) := next_call cancelled p in
    match FileSink_WriteBatch (N + length (concat b)) ctx elapsed b (fp_sink p) with
    | Some (s, err) => (mkFilePort s rest, err)
    | None => (mkFilePort (fp_sink p) rest, Some io_ErrNoProgress)
    end;
  sink_flush p := let '(s, err) := FileSink_Flush None (fp_sink p) in (mkFilePort s (fp_calls p), err);
  sink_close p := let '(s, err) := FileSink_Close (fp_sink p) in (mkFilePort s (fp_calls p), err)
}.

Lemma Flush_log s : log (FileSink_Flush None s).1 = log s.
Proof.
  unfold FileSink_Flush. case_bool_decide; [done|]. pose proof (syncFn_frame s) as [(F1 & F2 & _) _].
  destruct (syncFn s) as [[e|] s1]; cbn in *; unfold log; cbn; congruence.
Qed.

Lemma Close_log s : log (FileSink_Close s).1 = log s.
Proof.
  unfold FileSink_Close. destruct (fs_closed_once s); [done|]. case_bool_decide; [done|].
  set (s0 := s <| fs_closed_once := true |> <| fs_counters ::= λ c, c <| Sink.Closed := true |> |>).
  change (log s) with (log s0). clearbody s0. clear.
  pose proof (syncFn_frame s0) as [(F1 & F2 & _) _]. destruct (syncFn s0) as [e1 s1].
  pose proof (file_Close_frame s1) as [(G1 & G2 & _) _]. destruct (file_Close s1) as [e2 s2]. cbn in *.
  destruct e1, e2; unfold log; cbn; congruence.
Qed.

#[export] Program Instance file_port_resuming : ResumingSink file_port := {
  store p := log (fp_sink p);
  free p := fs_ready (fp_sink p) ∧ eintr_until N (d_file (fs_disk (fp_sink p)));
  progress base b p := (∃ rot0 f0 config, fs_progress base b rot0 f0 config (fp_sink p)) ∧
    eintr_until N (d_file (fs_disk (fp_sink p)));
  within _ := True
}.
Next Obligation.
  intros [s calls] b [R E]. split; [|done]. eexists _, _, _. by apply fs_ready_progress.
Qed.
Next Obligation.
  intros base b [s calls] [(rot0 & f0 & config & _ & _ & [[_ L]|(_ & Hr & Hok & L)]) _]; cbn in *.
  - exists 0%nat. by rewrite L, app_nil_r.
  - exists (length (committed (fs_pending s))). rewrite L, (committed_take _ Hok) at 1. by rewrite Hr.
Qed.
Next Obligation.
  intros c base b p _ [(rot0 & f0 & config & P) E]. cbn -[next_call].
  destruct (next_call c p) as [[ctx elapsed] rest].
  destruct (FileSink_step base b rot0 f0 config _ ctx elapsed N _ P E (le_n _)) as (s' & err & -> & Hr & Hi & Hst).
  assert (E' : eintr_until N (d_file (fs_disk s'))) by (intros i x e; rewrite Hr; apply E).
  destruct err as [e|]; cbn.
  - destruct Hst as [Hst _]. eauto 10.
  - destruct Hst as [L Pe]. split; [|done]. split; [by eapply fs_done_ready|done].
Qed.
Next Obligation. done. Qed.
Next Obligation.
  intros p. cbn -[FileSink_Flush]. pose proof (Flush_log (fp_sink p)) as L. by destruct (FileSink_Flush None (fp_sink p)).
Qed.
Next Obligation.
  intros p. cbn -[FileSink_Close]. pose proof (Close_log (fp_sink p)) as L. by destruct (FileSink_Close (fp_sink p)).
Qed.
End FilePort.

(** ** The writer sink *)

(** [WriterSink] over a writer without [Flush] and [Close] of its own. *)
Record writer_port := mkWriterPort { wp_sink : WriterSink; wp_calls : list ((nat → option error) * Z) }.

Section WriterPort.
Context (N : nat).

#[export] Instance writer_port_ops : BatchSink writer_port := {
  sink_write cancelled b p :=
    let '(ctx, elapsed, rest) :=
      match wp_calls p with
      | [] => (λ _, None, 0, [])
      | (ctx, elapsed) :: rest => (ctx, elapsed, rest)
      end in
    match WriteBatch (N + length (concat b)) (if cancelled then λ _, Some work_cancelled else ctx) elapsed b (wp_sink p) with
    | Some (s, err) => (mkWriterPort s rest, err)
    | None => (mkWriterPort (wp_sink p) rest, Some io_ErrNoProgress)
    end;
  sink_flush p := let '(s, err) := Sink.Flush None None (wp_sink p) in (mkWriterPort s (wp_calls p), err);
  sink_close p := let '(s, err) := Sink.Close None (wp_sink p) in (mkWriterPort s (wp_calls p), err)
}.

#[export] Program Instance writer_port_resuming : ResumingSink writer_port := {
  store p := w_out (ws_writer (wp_sink p));
  free p := writer_ok (ws_writer (wp_sink p)) ∧ Sink.Closed (ws_counters (wp_sink p)) = false ∧
    ws_pending (wp_sink p) = empty_cursor ∧ eintr_until N (ws_writer (wp_sink p));
  progress base b p := Sink.progress base b (wp_sink p) ∧ eintr_until N (ws_writer (wp_sink p));
  within _ := True
}.
Next Obligation. intros [s calls] b (H1 & H2 & H3 & H4). split; [split; [done|split; [done|by left]]|done]. Qed.
Next Obligation.
  intros base b [s calls] [(_ & _ & [[_ L]|(_ & Hr & Hok & L)]) _]; cbn in *.
  - exists 0%nat. by rewrite L, app_nil_r.
  - exists (length (committed (ws_pending s))). rewrite L, (committed_take _ Hok) at 1. by rewrite Hr.
Qed.
Next Obligation.
  intros c base b [s calls] _ [P E]. cbn -[WriteBatch].
  destruct (match calls with [] => _ | _ => _ end) as [[ctx elapsed] rest]. set (ctx' := if c then _ else _).
  destruct (WriteBatch_total base b s (N + length (concat b)) ctx' elapsed N P E (le_n _)) as [[s' err] HW].
  rewrite HW. apply (WriteBatch_step base) in HW as [Hr Hst]; [|done].
  assert (E' : eintr_until N (ws_writer s')) by (intros i x e; rewrite Hr; apply E).
  assert (O' : writer_ok (ws_writer s')) by (intros i x; rewrite Hr; apply P).
  destruct err as [e|]; cbn; [done|]. destruct Hst as (? & ? & ?). by split_and!.
Qed.
Next Obligation. done. Qed.
Next Obligation. intros [s calls]. by split. Qed.
Next Obligation.
  intros [s calls]. cbn. unfold Sink.Close. by destruct (ws_closed_once s).
Qed.
End WriterPort.

(** ** The observed sink of the service (sink_observer.go) *)

(** The inner sink, the window of durations and the durations to come. *)
Record observed (S : Type) := mkObservedPort { ob_inner : S; ob_times : observedSink; ob_next : list Z }.
Arguments mkObservedPort {S}. Arguments ob_inner {S} o. Arguments ob_times {S} o. Arguments ob_next {S} o.

Section Observed.
Context {S : Type} `{ResumingSink S}.

#[export] Instance observed_ops : BatchSink (observed S) := {
  sink_write cancelled b p :=
    let '(times, s, err) := observed_WriteBatch (sink_write cancelled) (nth 0 (ob_next p) 0) b (ob_times p) (ob_inner p) in
    (mkObservedPort s times (drop 1 (ob_next p)), err);
  sink_flush p := let '(s, err) := sink_flush (ob_inner p) in (mkObservedPort s (ob_times p) (ob_next p), err);
  sink_close p := let '(s, err) := sink_close (ob_inner p) in (mkObservedPort s (ob_times p) (ob_next p), err)
}.

#[export] Program Instance observed_resuming : ResumingSink (observed S) := {
  store p := store (ob_inner p);
  free p := free (ob_inner p);
  progress base b p := Pipeline.progress base b (ob_inner p);
  within p := within (ob_inner p)
}.
Next Obligation. intros p b. apply free_progress. Qed.
Next Obligation. intros base b p. apply progress_store. Qed.
Next Obligation.
  intros c base b p. cbn. pose proof (write_resumes c base b (ob_inner p)) as L. unfold observed_WriteBatch.
  destruct (sink_write c b (ob_inner p)) as [s [e|]]; exact L.
Qed.
Next Obligation.
  intros c b p. cbn. pose proof (write_within c b (ob_inner p)) as L. unfold observed_WriteBatch.
  destruct (sink_write c b (ob_inner p)) as [s e]; exact L.
Qed.
Next Obligation.
  intros p. cbn. pose proof (flush_keeps (ob_inner p)) as L. destruct (sink_flush (ob_inner p)); exact L.
Qed.
Next Obligation.
  intros p. cbn. pose proof (close_keeps (ob_inner p)) as L. destruct (sink_close (ob_inner p)); exact L.
Qed.
End Observed.

(** ** The flusher over the log file *)

(** C2. From the publishers to the log file.  In every interleaving of publishers,
    flusher, borrowers and [Close], and whatever short writes, write errors, failing
    syncs, renames and opens, cancelled contexts and rotations happen, the log (the
    rotated files, then the current one) holds what it held, followed by a part of
    the stream of admitted events: their published bytes in the order of admission,
    each event once, from the first on, with at least every event the flusher has
    delivered.  When the loop has ended without an abort and nobody raced [Close],
    it holds the whole stream. *)
Theorem log_file_stream `{WriteFnLaws} N fs calls t ts k base (w : world (observed file_port)) :
  let S0 := mkObservedPort (mkFilePort fs calls) t ts in
  0 <= base < 2 ^ 64 → 1 <= k <= 30 → fs_idle fs → eintr_until N (d_file (fs_disk fs)) →
  from_reach (H := observed_ops (H := file_port_ops N)) S0 k base w → bounded (w_ring w) →
  let log_now := log (fp_sink (ob_inner (w_sink w))) in
  NoDup (reserved (w_ring w)) ∧
  ∃ n, log_now = log fs ++ take n (stream w) ∧
    (length (concat (published_bytes (w_ghost w) (concat (delivered (w_ghost w))))) <= n)%nat ∧
    (∀ m, w_pc w = RDone → aborting (w_loop w) = false → left_at (w_ghost w) = Some (m, false) →
       log_now = log fs ++ stream w).
Proof.
  intros S0 Hb Hk [I1 I2 I3 I4 I5] HN R B log_now. split.
  - apply (fl_nodup _ _ _ _ _ _ (wo_flow _ (reach_World k base w Hb Hk (from_sys _ _ _ _ R) B))).
  - apply (pipeline_stream (H0 := observed_resuming (H0 := file_port_resuming N)) S0 k base w); try done.
    split; [|done]. split; try done. cbn. by rewrite I2.
Qed.

Lemma do_events_from {S : Type} `{BatchSink S} (k base : Z) (s : S) l : ∀ w w' : world S,
  from_reach s k base w → do_events l w = Some w' → from_reach s k base w'.
Proof.
  induction l as [|e l IH]; cbn; intros w w' R E; [by injection E as <-|].
  destruct (do_event e w) as [w1|] eqn:E1; [|done]. eapply IH; [|exact E].
  eapply reach_step; [exact R|]. by eapply do_event_step.
Qed.

(** ** A run *)

(** The sync after the first write fails; the retry writes nothing again. *)
Definition sample_port : observed file_port :=
  mkObservedPort (mkFilePort (sample_sink (mkWriter [] 0 sink_all) [Some (ErrNew "input/output error")]) [])
    (newObservedSink fileBatchMode) [].

#[local] Instance sample_ops : BatchSink (observed file_port) :=
  observed_ops (H := file_port_ops (H := vectored_write) 0).

Definition file_world : world (observed file_port) :=
  mkWorld test_ring ∅ example_pool test_flusher (new_loop test_config) RSelect sample_port
    (mkGhost [] [] [] [] ∅ None).

Definition file_events : list event := first_try ++ second_try ++ closing_events.

Definition file_end : world (observed file_port) := Eval vm_compute in default file_world (do_events file_events file_world).

Lemma file_reach : from_reach sample_port 2 (2 ^ 64 - 2) file_end.
Proof.
  apply (do_events_from _ _ _ file_events file_world); [|vm_compute; reflexivity].
  apply reach_init. split; [|done]. split_and!; try done.
  - apply start_state_start. vm_compute. reflexivity.
  - exists example_config. apply example_New.
  - by exists test_config.
Qed.

Lemma log_file_stream_witness :
  w_pc file_end = RDone ∧ Flusher.retries (w_fl file_end) = 1 ∧ stream file_end = [x01; x02; x03] ∧
  log (fp_sink (ob_inner (w_sink file_end))) = stream file_end.
Proof.
  split; [reflexivity|]. split; [reflexivity|]. split; [vm_compute; reflexivity|].
  destruct (log_file_stream (H := vectored_write) 0 (fp_sink (ob_inner sample_port)) [] (newObservedSink fileBatchMode) []
    2 (2 ^ 64 - 2) file_end) as (_ & n & _ & _ & X).
  - lia.
  - lia.
  - split; try reflexivity. intros i b. cbn. lia.
  - intros i b e Hi. discriminate.
  - exact file_reach.
  - vm_compute. reflexivity.
  - exact (X 2%nat eq_refl eq_refl eq_refl).
Defined.
