(* ===== verification/PipelineNet.v ===== *)
(** * The network sink of the pipeline

    Flusher, network adapter, client, connections that fail, collector and the
    collector's sink put together: the network sink keeps the contract of
    Pipeline.v, so the collector's sink receives the stream of admitted events. *)

From stdpp Require Import gmap strings list fin_maps.
From Stdlib Require Import ZArith Lia.
From Stdlib.Strings Require Import Byte.
From S2P Require Import Prelude GoLib Sink FileSink Ring RingConc Pool PoolInv PoolSafety Flusher FlushInv FlushSafety FlushControl FlushProps Observer Pipeline PipelineSinks Protocol Client Dedupe Collector Delivery.

(** What the collector's sink was given, in order. *)
Definition all_stored (w : wire (list (list (list byte)))) : list byte := concat (concat (Delivery.w_sink w)).

(** The transport of the adapter: the client, and the other end of the wire. *)
Definition transport : Type := Client () * wire (list (list (list byte))).

Definition transport_Send (records : list (list byte)) (t : transport) : transport * option error :=
  let '(err, c, w) := Send (Net0 := wire_net storing) records t.1 t.2 in ((c, w), err).
Definition transport_Close (t : transport) : transport * option error :=
  let '(err, c, w) := Client_Close (Net0 := wire_net storing) t.1 t.2 in ((c, w), err).

(** The adapter and the number of batches it was handed. *)
Record net_port := mkNetPort { np_transport : option transport; np_sends : nat }.

Definition net_store (p : net_port) : list byte :=
  match np_transport p with Some (_, w) => all_stored w | None => [] end.

Section NetPort.
(** The time and the answers of the context at each call; a call on the cancelled
    work context finds it cancelled. *)
Context (call : nat → Time * list (option error)).

Definition at_call (cancelled : bool) (i : nat) (w : wire (list (list (list byte)))) :=
  w <| w_now := (call i).1 |> <| w_ctx := if cancelled then [Some work_cancelled] else (call i).2 |>.

#[export] Instance net_port_ops : BatchSink net_port := {
  sink_write cancelled b p :=
    let t := option_map (λ t, (t.1, at_call cancelled (np_sends p) t.2)) (np_transport p) in
    let '(t, err) := NetworkAdapter_WriteBatch transport_Send b t in (mkNetPort t (S (np_sends p)), err);
  sink_flush p := let '(t, err) := NetworkAdapter_Flush (np_transport p) in (mkNetPort t (np_sends p), err);
  sink_close p :=
    let '(t, err) := NetworkAdapter_Close transport_Close (np_transport p) in (mkNetPort t (np_sends p), err)
}.

(** ** Between two batches *)

(** No batch of this client recorded by the collector has a number to come. *)
Record at_rest (n : nat) (c : Client ()) (w : wire (list (list (list byte)))) : Prop := mkAtRest {
  ar_client : client_wf c;
  ar_backoff : RetryMaximum (Client.config c) < 2 ^ 56 ∧ MaxAttempts (Client.config c) < 2 ^ 57;
  ar_open : closed c = false ∧ pending c = None;
  ar_quiet : quiet (dedupe (w_srv w));
  ar_limits : Config_Limits (Collector.config (w_srv w)) = cc_Limits (Client.config c);
  ar_line : (∃ f, w_resp (w_line w) = obeying f) ∧ rd_data (w_acks w) = [];
  ar_known : ∀ k, k ∈ keys (dedupe (w_srv w)) → key_ClientID k = cc_ClientID (Client.config c) →
    key_BatchID k <= batchID c;
  ar_number : batchID c <= Z.of_nat n
}.

(** ** During a batch *)

(** The batch is the [n]-th the client sends; [w0] is the wire before it. *)
Record begun (b : list (list byte)) (n : nat) (c0 : Client ()) (w0 : wire (list (list (list byte)))) : Prop := mkBegun {
  bg_ready : ready c0 w0;
  bg_rest : at_rest n c0 w0;
  bg_number : Z.of_nat n < 2 ^ 64 - 1;
  bg_encodable : encodable (cc_ClientID (Client.config c0)) (next_id (batchID c0)) (w_now w0) b (cc_Limits (Client.config c0))
}.

Definition once_since (b : list (list byte)) (c0 : Client ()) (w0 : wire (list (list (list byte)))) :=
  once b (cc_Limits (Client.config c0)) (cc_ClientID (Client.config c0)) (next_id (batchID c0))
    (Delivery.w_sink w0) (keys (dedupe (w_srv w0))).

Definition sending (base : list byte) (b : list (list byte)) (p : net_port) : Prop :=
  ∃ n c0 w0 c w, np_transport p = Some (c, w) ∧ begun b n c0 w0 ∧ (n < np_sends p)%nat ∧
    all_stored w0 = base ∧ once_since b c0 w0 w ∧ Delivery.retrying b c0 w0 c.

Lemma next_number n c w : at_rest n c w → Z.of_nat n < 2 ^ 64 - 1 → next_id (batchID c) = batchID c + 1.
Proof.
  intros [(_ & ? & _) _ _ _ _ _ _ ?] Hn. unfold next_id. rewrite u64_small by lia.
  destruct (_ =? _) eqn:E; zbool; lia.
Qed.

(** What a call at this batch leaves, the first one or a later one. *)
Lemma send_attempt b n c0 w0 m c w err c' w' :
  begun b n c0 w0 → (n < m)%nat → client_wf c → Client.config c = Client.config c0 → closed c = false →
  batch_of (Net0 := wire_net storing) c b w =
    Ok (encoding (cc_ClientID (Client.config c0)) (next_id (batchID c0)) (w_now w0) b) →
  once_since b c0 w0 w → Send (Net0 := wire_net storing) b c w = (err, c', w') →
  match err with
  | None => at_rest m c' w' ∧ all_stored w' = all_stored w0 ++ concat b
  | Some _ => sending (all_stored w0) b (mkNetPort (Some (c', w')) m)
  end.
Proof.
  intros [Hr R Hn He] Hm Hwf Hcfg Hcl Hb Ho HS.
  destruct (Send_once b c0 w0 Hr c w err c' w' He Hwf Hcfg Hcl Hb Ho HS) as [Ho' HE].
  destruct err as [e|]; [by exists n, c0, w0, c', w'|].
  destruct HE as ([_ Hs] & Ha & Hwf' & Hcfg' & Hcl' & Hid & Hp).
  destruct Ho' as (Hq & Hl & Hf & [_ Hk] & _). pose proof (next_number n c0 w0 R Hn) as Hnext.
  destruct R as [? Hbo _ _ _ _ Hkn Hnum]. split.
  - split; rewrite ?Hcfg', ?Hid; try done; [|lia].
    intros k [->|Hk']%Hk Hc; [done|]. etrans; [by apply Hkn|]. lia.
  - unfold all_stored. rewrite Hs, !concat_app. cbn. by rewrite app_nil_r.
Qed.

Lemma at_call_rest x i n c w : at_rest n c w → at_rest n c (at_call x i w).
Proof. intros []. by split. Qed.

Lemma rest_ready x i n c w :
  UnixNano (call i).1 < 2 ^ 63 → at_rest n c w → Z.of_nat n < 2 ^ 64 - 1 → ready c (at_call x i w).
Proof.
  intros Ht R Hn. pose proof (next_number n c w R Hn) as E. destruct R as [? ? ? ? ? ? Hk ?]. split; try done.
  rewrite E. intros X%Hk; [|done]. cbn in X. lia.
Qed.

Hypothesis clock : ∀ i, UnixNano (call i).1 < 2 ^ 63.

Lemma first_attempt x b c w n err c' w' :
  at_rest n c w → Z.of_nat n < 2 ^ 64 - 1 → Send (Net0 := wire_net storing) b c (at_call x n w) = (err, c', w') →
  match err with
  | None => at_rest (S n) c' w' ∧ all_stored w' = all_stored w ++ concat b
  | Some _ => (at_rest (S n) c' w' ∧ all_stored w' = all_stored w) ∨
      sending (all_stored w) b (mkNetPort (Some (c', w')) (S n))
  end.
Proof.
  intros R Hn HS. pose proof (rest_ready x n n c w (clock n) R Hn) as Hr.
  pose proof (next_number n c w R Hn) as Hnext. pose proof R as [Hwf Hb [Hcl Hp] Hq Hl Hline Hk Hnum].
  destruct (batch_of (Net0 := wire_net storing) c b (at_call x n w)) as [bt|e] eqn:E.
  - pose proof E as E'. unfold batch_of in E'. rewrite Hp in E'. apply NewEncodedBatch_spec in E' as [He ->].
    assert (Bg : begun b n c (at_call x n w)) by (split; [done|by apply at_call_rest|done|exact He]).
    pose proof (send_attempt b n c (at_call x n w) (S n) c (at_call x n w) err c' w' Bg ltac:(lia) Hwf eq_refl Hcl E
      (ready_once b c _ Hr) HS) as X.
    destruct err; [by right|exact X].
  - apply Send_cases in HS; [|done]. rewrite E in HS. destruct HS as (Hne & Hp' & Hc & _ & Hcl' & Hid & Hw & _).
    destruct err as [e'|]; [|done]. left. assert (w' = at_call x n w) as -> by (by destruct Hw).
    pose proof (next_id_range (batchID c)). split; [|done]. split; rewrite ?Hc, ?Hp'; try done.
    + destruct Hwf as (? & ? & ? & ? & ? & ?). unfold client_wf. rewrite Hc, Hp', Hp. split_and!; try done; destruct Hid; lia.
    + intros k Hk1 Hk2. etrans; [by apply Hk|]. destruct Hid; lia.
    + destruct Hid; lia.
Qed.

Lemma later_attempt x b base p err c w c' w' :
  sending base b p → np_transport p = Some (c, w) →
  Send (Net0 := wire_net storing) b c (at_call x (np_sends p) w) = (err, c', w') →
  match err with
  | None => at_rest (S (np_sends p)) c' w' ∧ all_stored w' = base ++ concat b
  | Some _ => sending base b (mkNetPort (Some (c', w')) (S (np_sends p)))
  end.
Proof.
  intros (n & c0 & w0 & c1 & w1 & E & Bg & Hm & <- & Ho & (Hwf & Hcfg & Hcl & Hid & Hp)) E' HS.
  rewrite E' in E. injection E as <- <-.
  apply (send_attempt b n c0 w0 (S (np_sends p)) c (at_call x (np_sends p) w) err c' w' Bg); try done; [lia|].
  unfold batch_of. rewrite Hp.
  pose proof (Matches_spec _ _ _ b _ b b (bg_encodable _ _ _ _ Bg) eq_refl) as [_ HM].
  change (mkEncodedBatch _ _ b) with (encoding (cc_ClientID (Client.config c0)) (next_id (batchID c0)) (w_now w0) b) in HM.
  by rewrite HM.
Qed.

(** ** The contract *)

Definition idle_port (p : net_port) : Prop := ∃ c w, np_transport p = Some (c, w) ∧ at_rest (np_sends p) c w.

#[export] Program Instance net_port_resuming : ResumingSink net_port := {
  store := net_store;
  free := idle_port;
  progress base b p := (idle_port p ∧ net_store p = base) ∨ sending base b p;
  within p := Z.of_nat (np_sends p) < 2 ^ 64
}.
Next Obligation. intros p b Hp. by left. Qed.
Next Obligation.
  intros base b p [[_ E]|(n & c0 & w0 & c & w & E & _ & _ & <- & (_ & _ & _ & _ & Hs) & _)].
  - exists 0%nat. by rewrite take_0, app_nil_r.
  - unfold net_store, all_stored. rewrite E. destruct Hs as [[_ ->]|(_ & -> & _)].
    + exists (length (concat b)). rewrite firstn_all, !concat_app. cbn. by rewrite app_nil_r.
    + exists 0%nat. by rewrite take_0, app_nil_r.
Qed.
Next Obligation.
  intros x base b p Wi Pr. cbn in Wi |- *. unfold NetworkAdapter_WriteBatch, transport_Send in *.
  assert (T : ∃ c w, np_transport p = Some (c, w)).
  { destruct Pr as [[(c & w & E & _) _]|(n & c0 & w0 & c & w & E & _)]; eauto. }
  destruct T as (c & w & E). rewrite E in *. cbn [option_map fst snd] in *.
  destruct (Send b c (at_call x (np_sends p) w)) as [[err c'] w'] eqn:HS. cbn in Wi |- *.
  assert (X : match err with
    | None => at_rest (S (np_sends p)) c' w' ∧ all_stored w' = base ++ concat b
    | Some _ => (at_rest (S (np_sends p)) c' w' ∧ all_stored w' = base) ∨
        sending base b (mkNetPort (Some (c', w')) (S (np_sends p)))
    end).
  { destruct Pr as [[(c1 & w1 & E1 & R) <-]|Pr].
    - rewrite E in E1. injection E1 as <- <-. unfold net_store. rewrite E.
      apply (first_attempt x b c w (np_sends p) err c' w' R); [lia|done].
    - pose proof (later_attempt x b base p err c w c' w' Pr E HS). destruct err; [by right|done]. }
  destruct err as [e|].
  - destruct X as [[R S]|X]; [left; split; [by exists c', w'|done]|by right].
  - destruct X as [R S]. split; [by exists c', w'|done].
Qed.
Next Obligation.
  intros x b p. cbn. destruct (NetworkAdapter_WriteBatch _ _ _). cbn. lia.
Qed.
Next Obligation. intros []. by split. Qed.
Next Obligation.
  intros [t n]. cbn. destruct t as [[c w]|]; cbn; [|done]. unfold transport_Close, Client_Close. cbn.
  destruct (conn c); by split.
Qed.
End NetPort.

(** ** The flusher over the network *)

Lemma NewClient_number random cfg (c : Client ()) : NewClient random cfg = Ok c → batchID c = 0.
Proof.
  unfold NewClient. case_bool_decide; [done|]. rewrite bind_Ok. intros (cfg1 & _ & Hn). revert Hn.
  destruct (_ <? _); [done|]. rewrite bind_Ok. by intros ([] & _ & [= <-]).
Qed.

(** A new client and a collector with its limits that has recorded nothing under
    its identity; the line is idle. *)
Record new_link (random : result (list byte)) (cfg : ClientConfig) (c : Client ())
  (w : wire (list (list (list byte)))) : Prop := mkNewLink {
  nl_client : NewClient random cfg = Ok c;
  nl_random : ∀ raw, random = Ok raw → length raw = 8%nat;
  nl_id : 0 <= cc_ClientID cfg < 2 ^ 64;
  nl_backoff : RetryMaximum (Client.config c) < 2 ^ 56 ∧ MaxAttempts (Client.config c) < 2 ^ 57;
  nl_quiet : quiet (dedupe (w_srv w));
  nl_limits : Config_Limits (Collector.config (w_srv w)) = cc_Limits (Client.config c);
  nl_line : (∃ f, w_resp (w_line w) = obeying f) ∧ rd_data (w_acks w) = [];
  nl_known : ∀ k, k ∈ keys (dedupe (w_srv w)) → key_ClientID k ≠ cc_ClientID (Client.config c)
}.

Lemma new_link_rest random cfg c w : new_link random cfg c w → at_rest 0 c w.
Proof.
  intros [Hc Hr Hi Hb Hq Hl Hn Hk]. destruct (NewClient_wf _ _ _ Hr Hi Hc) as (Hwf & Hp & Hcl).
  pose proof (NewClient_number _ _ _ Hc) as E. split; try done; [|lia]. intros k Hk1 Hk2. by apply Hk in Hk1.
Qed.

(** C3. From the publishers to the other end of the network.  In every interleaving
    of publishers, flusher, borrowers and [Close], whatever becomes of the
    connections (refused, cut inside a frame, the acknowledgement cut or lost) and
    of the context, the collector's sink has been given, byte for byte, a part of
    the stream of admitted events that starts where it starts, each event once and
    in order, and at least every event the flusher counts as delivered; after a
    loop that ended without an abort and a [Close] nobody raced, all of it. *)
Theorem network_stream call random cfg c w t ts k base (s : world (observed net_port)) :
  let S0 := mkObservedPort (mkNetPort (Some (c, w)) 0) t ts in
  (∀ i, UnixNano (call i).1 < 2 ^ 63) → 0 <= base < 2 ^ 64 → 1 <= k <= 30 → new_link random cfg c w →
  from_reach (H := observed_ops (H := net_port_ops call)) S0 k base s → bounded (w_ring s) →
  Z.of_nat (np_sends (ob_inner (Flusher.w_sink s))) < 2 ^ 64 →
  let stored_now := net_store (ob_inner (Flusher.w_sink s)) in
  NoDup (reserved (w_ring s)) ∧
  ∃ n, stored_now = all_stored w ++ take n (stream s) ∧
    (length (concat (published_bytes (w_ghost s) (concat (Flusher.delivered (w_ghost s))))) <= n)%nat ∧
    (∀ m, w_pc s = RDone → aborting (w_loop s) = false → left_at (w_ghost s) = Some (m, false) →
       stored_now = all_stored w ++ stream s).
Proof.
  intros S0 Hc Hb Hk L R B Wi stored_now. split.
  - apply (fl_nodup _ _ _ _ _ _ (wo_flow _ (reach_World k base s Hb Hk (from_sys _ _ _ _ R) B))).
  - apply (pipeline_stream (H0 := observed_resuming (H0 := net_port_resuming call Hc)) S0 k base s); try done.
    exists c, w. split; [done|]. by eapply new_link_rest.
Qed.

(** ** A run *)

(** The acknowledgement of the first attempt is cut and the context ends in the
    pause; the flusher's retry is answered as a duplicate. *)
Definition sample_call (i : nat) : Time * list (option error) :=
  (sample_time, match i with O => [None; Some work_cancelled] | _ => [] end).
Definition sample_link : wire (list (list (list byte))) :=
  sample_wire [] [mkFault false takes_all takes_all 3; good].
Definition net_start : observed net_port :=
  mkObservedPort (mkNetPort (Some (sample_client, sample_link)) 0) (newObservedSink "scatter_gather") [].

#[local] Instance sample_net_ops : BatchSink (observed net_port) := observed_ops (H := net_port_ops sample_call).

Definition net_world : world (observed net_port) :=
  mkWorld test_ring ∅ example_pool test_flusher (new_loop test_config) RSelect net_start
    (mkGhost [] [] [] [] ∅ None).
Definition net_end : world (observed net_port) := Eval vm_compute in default net_world (do_events file_events net_world).

Lemma net_reach : from_reach net_start 2 (2 ^ 64 - 2) net_end.
Proof.
  apply (do_events_from _ _ _ file_events net_world); [|vm_compute; reflexivity].
  apply reach_init. split; [|done]. split_and!; try done.
  - apply start_state_start. vm_compute. reflexivity.
  - exists example_config. apply example_New.
  - by exists test_config.
Qed.

Lemma sample_new_link :
  new_link (Err io_EOF) Client.sample_config sample_client sample_link.
Proof.
  destruct (sample_ready (@nil (list (list byte))) [mkFault false takes_all takes_all 3; good]) as [? ? ? ? ? ? ? ?].
  split; try done. intros k Hk. by apply not_elem_of_nil in Hk.
Qed.

Lemma network_stream_witness :
  w_pc net_end = RDone ∧ Flusher.retries (w_fl net_end) = 1 ∧ stream net_end = [x01; x02; x03] ∧
  net_store (ob_inner (Flusher.w_sink net_end)) = stream net_end.
Proof.
  split; [reflexivity|]. split; [reflexivity|]. split; [vm_compute; reflexivity|].
  destruct (network_stream sample_call (Err io_EOF) Client.sample_config sample_client sample_link
    (newObservedSink "scatter_gather") [] 2 (2 ^ 64 - 2) net_end) as (_ & n & _ & _ & X).
  - intros [|i]; reflexivity.
  - lia.
  - lia.
  - exact sample_new_link.
  - exact net_reach.
  - vm_compute. reflexivity.
  - vm_compute. reflexivity.
  - exact (X 2%nat eq_refl eq_refl eq_refl).
Defined.
