(* ===== verification/Publishing.v ===== *)
(** * The publisher's cycle

    Acquire a lease, fill its buffer, commit, publish, and release what the ring
    refused: what the service's demo traffic, its retained leases and the benchmark
    do.  Whatever happens on the way, no lease stays with a publisher that has
    finished its cycle. *)

From stdpp Require Import gmap strings list fin_maps.
From Stdlib Require Import ZArith Lia.
From Stdlib.Strings Require Import Byte.
From S2P Require Import Prelude GoLib GoText Ring Pool PoolInv PoolSafety Flusher FlushInv Appender AppenderSafety Runtime.

(** ** Stores through the buffer *)

(** [store_buffer] as operations of the pool. *)
Definition pokes (b : nat) (data : list byte) : list pool_op := imap (λ i x, DoPoke b i x) data.

Lemma pokes_run b data : ∀ p,
  foldl (λ p ix, poke b ix.1 ix.2 p) p (imap pair data) = run (pokes b data) p.
Proof.
  unfold pokes, run. generalize (λ i : nat, i). intros f. revert f.
  enough (G : ∀ (f : nat → nat) p, foldl (λ p ix, poke b ix.1 ix.2 p) p (imap (λ i x, (f i, x)) data)
    = foldl (λ p op, (pool_do op p).1) p (imap (λ i x, DoPoke b (f i) x) data)) by (intros _ p; apply (G (λ i, i))).
  induction data as [|x data IH]; intros f p; [done|]. cbn. apply (IH (f ∘ S)).
Qed.

Lemma run_leases_pokes b data p : leases (run (pokes b data) p) = leases p.
Proof.
  rewrite <- pokes_run. revert p. induction (imap pair data) as [|ix l IH]; intros p; [done|]. cbn. by rewrite IH.
Qed.

Lemma ok_store_buffer n data l a :
  appender_ok a → handles a !! n = Some l → transferred l = false → released l = false →
  appender_ok (store_buffer n data a) ∧ handles (store_buffer n data a) = handles a ∧
  a_closed (store_buffer n data a) = a_closed a.
Proof.
  intros A E T R. unfold store_buffer. rewrite E.
  destruct (leases (a_pool a) !! inner l) as [pl|] eqn:Hl; [|done].
  destruct (l_block pl) as [b|] eqn:Hb; [|done]. cbn. rewrite pokes_run.
  split; [|done]. apply (ok_step (inner l) a); try done.
  - apply (balanced_same a); [done|apply A].
  - cbn. by exists (pokes b data).
  - intros h' Hne. cbn. unfold looks. rewrite run_leases_pokes.
    destruct (leases (a_pool a) !! h') as [l'|] eqn:Hl'; [|done]. cbn. do 2 f_equal.
    apply Payload_block. apply (run_undisturbed (pokes b data) (a_pool a) h' l'); [apply A|done|].
    unfold pokes. apply Forall_lookup. intros i op (x & _ & ->)%list_lookup_imap_Some. split; [done|].
    intros b' i' x' [= <- <- <-] Hb'. by pose proof (one_owner _ _ _ _ _ _ (ao_pool a A) Hl Hl' Hb Hb').
  - cbn. intros m lm Em. exists lm. split_and!; try done. intros Ei. destruct (ao_handles a A m lm Em) as (z & c & Lk & X).
    unfold looks in Lk. rewrite Ei, Hl in Lk. cbn in Lk. injection Lk as Lk1 Lk2 _.
    exists z, (Payload (run (pokes b data) (a_pool a)) pl). unfold looks. rewrite run_leases_pokes, Ei, Hl. cbn.
    by rewrite Lk1, Lk2.
  - cbn. apply borrowed_not_queued; [done|by eapply usable_borrowed].
Qed.

(** ** Handles *)

(** No handle from the [k]-th on is still held. *)
Definition settled (k : nat) (a : Appender) : Prop :=
  ∀ n l, (k <= n)%nat → handles a !! n = Some l → transferred l = true ∨ released l = true.

(** The last handle, the [n]-th, is held, the others from the [k]-th on are not. *)
Definition holding (k n : nat) (a : Appender) : Prop :=
  ∃ hs l, handles a = hs ++ [l] ∧ n = length hs ∧ (k <= n)%nat ∧ transferred l = false ∧ released l = false ∧
    ∀ m l', (k <= m)%nat → hs !! m = Some l' → transferred l' = true ∨ released l' = true.

Lemma settled_handles k a a' : handles a' = handles a → settled k a → settled k a'.
Proof. intros E S n l. rewrite E. apply S. Qed.

Lemma holding_handles k n a a' : handles a' = handles a → holding k n a → holding k n a'.
Proof. unfold holding. by intros ->. Qed.

Lemma holding_lookup k n a : holding k n a → ∃ l, handles a !! n = Some l ∧ transferred l = false ∧ released l = false.
Proof. intros (hs & l & -> & -> & _ & T & R & _). exists l. split; [|done]. by apply list_lookup_middle. Qed.

(** Replacing the held handle by one that is not held. *)
Lemma holding_settles k n a a' l l' :
  holding k n a → handles a !! n = Some l → handles a' = <[n := l']> (handles a) →
  transferred l' = true ∨ released l' = true → settled k a'.
Proof.
  intros (hs & l0 & E & -> & _ & _ & _ & S) _ Eh Hl' m lm Hm. rewrite Eh, E, insert_app_r_alt, Nat.sub_diag by lia.
  cbn. intros [X|[_ X]]%lookup_app_Some; [by eapply S|]. by apply list_lookup_singleton_Some in X as [_ <-].
Qed.

Lemma acquire_appends capacity level e a :
  match acquire capacity level e a with
  | (a', Ok n) => n = length (handles a) ∧
      ∃ l, handles a' = handles a ++ [l] ∧ transferred l = false ∧ released l = false
  | (a', Err _) => handles a' = handles a
  end.
Proof.
  unfold acquire. destruct (a_closed a); [done|].
  destruct (Pool.AcquireContext _ _ _ _) as [p [h|err]]; [|done]. split; [done|]. cbn. by eexists.
Qed.

Lemma acquired_handle k capacity level e a :
  (k <= length (handles a))%nat → settled k a →
  match acquire capacity level e a with
  | (a', Ok n) => holding k n a' ∧ n = length (handles a)
  | (a', Err _) => handles a' = handles a
  end.
Proof.
  intros Hk S. pose proof (acquire_appends capacity level e a) as X.
  destruct (acquire _ _ _ _) as [a' [n|err]]; [|done]. destruct X as (-> & l & E & T & R). split; [|done].
  exists (handles a), l. split_and!; try done.
Qed.

Lemma pool_call_handles op a : handles (pool_call op a).1 = handles a ∧ a_closed (pool_call op a).1 = a_closed a.
Proof. by rewrite pool_call_eq. Qed.

Lemma Commit_handles lease n a : handles (Lease_Commit lease n a).1 = handles a.
Proof. unfold Lease_Commit. destruct (usable lease a) as [[m l]|]; [apply pool_call_handles|done]. Qed.

Lemma Release_usable n l now a :
  appender_ok a → handles a !! n = Some l → transferred l = false → released l = false →
  handles (Lease_Release (Some n) now a).1 = <[n := l <| released := true |>]> (handles a).
Proof.
  intros A E T R. unfold Lease_Release. rewrite E, T, R.
  destruct (ao_handles a A n l E) as (z & b & Lk & _). unfold inner_ID. rewrite (looks_ID _ _ _ _ _ Lk), Z.eqb_refl.
  cbn [negb]. rewrite pool_call_eq. cbn. by rewrite (alter_insert' _ _ _ _ E).
Qed.

Lemma Release_held k n now a :
  appender_ok a → holding k n a → settled k (Lease_Release (Some n) now a).1.
Proof.
  intros A H. destruct (holding_lookup k n a H) as (l & E & T & R).
  eapply (holding_settles k n a _ l (l <| released := true |>)); [done|done| |by right].
  by apply Release_usable.
Qed.

(** [TryPublishLease], and the release of a lease that was not taken. *)
Definition offer (level : Z) (n : nat) (now : Z) (a : Appender) : Appender * PublishResult :=
  let '(a, r) := TryPublishLease level (Some n) a in
  (if decide (r = Accepted) then a else (Lease_Release (Some n) now a).1, r).

Lemma offer_settles k level n now a :
  appender_ok a → 0 <= level → holding k n a →
  appender_ok (offer level n now a).1 ∧ settled k (offer level n now a).1.
Proof.
  intros A H0 H. unfold offer. pose proof (ok_TryPublishLease level (Some n) a A H0) as A1.
  pose proof (TryPublishLease_published level (Some n) a A) as P.
  destruct (TryPublishLease level (Some n) a) as [a1 r]. cbn [fst snd] in *.
  destruct P as [m l [= <-] E T R _ _ Eh _|r Hr _ Eh _].
  - rewrite decide_True by done. split; [done|].
    eapply (holding_settles k n a a1 l); [done|done|done|by left].
  - rewrite decide_False by done. split; [by apply ok_Lease_Release|].
    apply Release_held; [done|]. by eapply holding_handles.
Qed.

(** Between acquiring and publishing. *)
Lemma fill_lease_keeps k level size now n a :
  appender_ok a → holding k n a →
  match fill_lease level size now n a with
  | (a', None) => appender_ok a' ∧ holding k n a'
  | (a', Some _) => appender_ok a' ∧ settled k a'
  end.
Proof.
  intros A H. destruct (holding_lookup k n a H) as (l & E & T & R). unfold fill_lease.
  destruct (Lease_Buffer (Some n) a) as [buffer|e].
  2:{ split; [by apply ok_Lease_Release|by apply Release_held]. }
  set (data := fillDemoPayload _ _ _). destruct (ok_store_buffer n data l a A E T R) as (A1 & E1 & _).
  assert (H1 : holding k n (store_buffer n data a)) by (by eapply holding_handles).
  pose proof (ok_Lease_Commit (Some n) size _ A1) as A2. pose proof (Commit_handles (Some n) size (store_buffer n data a)) as E2.
  destruct (Lease_Commit (Some n) size (store_buffer n data a)) as [a2 [e|]]; cbn [fst] in *.
  - split; [by apply ok_Lease_Release|]. apply Release_held; [done|]. by eapply holding_handles.
  - split; [done|]. by eapply holding_handles.
Qed.


(** [runtimeState.publish] leaves no lease behind. *)
Lemma publish_settles {Conn} k level payloadBytes now e (s : runtimeState Conn) :
  appender_ok (rt_appender s) → (k <= length (handles (rt_appender s)))%nat → settled k (rt_appender s) →
  appender_ok (rt_appender (publish level payloadBytes now e s)) ∧
  settled k (rt_appender (publish level payloadBytes now e s)).
Proof.
  intros A Hk S. unfold publish, Acquire.
  pose proof (ok_acquire payloadBytes None e (rt_appender s) A) as A1.
  pose proof (acquired_handle k payloadBytes None e (rt_appender s) Hk S) as H1.
  destruct (acquire payloadBytes None e (rt_appender s)) as [a1 [n|err]]; cbn [fst] in A1.
  2:{ split; [done|]. by eapply settled_handles. }
  destruct H1 as [H1 _]. pose proof (fill_lease_keeps k level payloadBytes now n a1 A1 H1) as F.
  destruct (fill_lease level payloadBytes now n a1) as [a2 [e2|]]; [done|]. destruct F as [A2 H2].
  assert (L0 : 0 <= parseLevel level) by (unfold parseLevel; by repeat case_bool_decide).
  pose proof (offer_settles k (parseLevel level) n now a2 A2 L0 H2) as [A3 S3]. unfold offer in A3, S3.
  destruct (TryPublishLease (parseLevel level) (Some n) a2) as [a3 r]. done.
Qed.
