(* ===== verification/Rounding.v ===== *)
(** * Rounding of float64

    How far a product and a sum of positive float64 values of moderate size are from
    the exact ones.  Values are compared as integers at the scale 2^-200.  Nothing in
    this file is the repository's. *)

From stdpp Require Import base tactics.
From Stdlib Require Import ZArith Lia.
From Stdlib.Floats Require Import SpecFloat.
From S2P Require Import Prelude GoText.

(** ** Digits and shifts *)

Lemma digits2_log2 p : Zpos (digits2_pos p) = Z.log2 (Zpos p) + 1.
Proof.
  induction p as [p IH|p IH|]; cbn [digits2_pos]; [..|done]; rewrite Pos2Z.inj_succ, IH.
  - change (Zpos p~1) with (2 * Zpos p + 1). rewrite Z.log2_succ_double by lia. lia.
  - change (Zpos p~0) with (2 * Zpos p). rewrite Z.log2_double by lia. lia.
Qed.

Lemma shr_1_m r : 0 <= shr_m r → shr_m (shr_1 r) = shr_m r / 2.
Proof.
  destruct r as [[|[p|p|]|p] r s]; cbn [shr_1 shr_m]; try lia; intros _; try done.
  - change (Zpos p~1) with (2 * Zpos p + 1). rewrite Z.mul_comm, Z.div_add_l by lia.
    change (1 / 2) with 0. lia.
  - change (Zpos p~0) with (2 * Zpos p). by rewrite Z.mul_comm, Z.div_mul by lia.
Qed.

Lemma iter_shr p : ∀ r, 0 <= shr_m r → shr_m (iter_pos shr_1 p r) = shr_m r / 2 ^ Zpos p.
Proof.
  induction p as [p IH|p IH|]; intros r Hr; cbn [iter_pos].
  - assert (H1 : 0 <= shr_m (shr_1 r)) by (rewrite shr_1_m by done; by apply Z.div_pos).
    assert (H2 : 0 <= shr_m (iter_pos shr_1 p (shr_1 r))) by (rewrite IH by done; by apply Z.div_pos; [|lia]).
    rewrite !IH, shr_1_m by done. rewrite !Z.div_div by lia. f_equal.
    change (Zpos p~1) with (2 * Zpos p + 1). rewrite Z.pow_add_r, Z.pow_mul_r by lia. 
    replace (2 ^ 2) with (2 * 2) by lia. rewrite Z.pow_mul_l. lia.
  - assert (H2 : 0 <= shr_m (iter_pos shr_1 p r)) by (rewrite IH by done; by apply Z.div_pos; [|lia]).
    rewrite !IH by done. rewrite Z.div_div by lia. f_equal. change (Zpos p~0) with (2 * Zpos p).
    rewrite Z.pow_mul_r by lia. replace (2 ^ 2) with (2 * 2) by lia. by rewrite Z.pow_mul_l.
  - by rewrite shr_1_m.
Qed.

(** Rounding to 53 digits at an exponent in the middle of the range. *)
Lemma shr_fexp_small m e :
  0 < m → -1000 <= e → Z.log2 m + 1 <= 53 → shr_fexp 53 1024 m e loc_Exact = (Build_shr_record m false false, e).
Proof.
  intros Hm He Hd. unfold shr_fexp. destruct m as [|p|p]; [done| |done]. cbn [Zdigits2 shr_record_of_loc].
  rewrite digits2_log2. unfold fexp, emin, shr. destruct (_ - e) eqn:E; try done. lia.
Qed.

Lemma shr_fexp_big m e k :
  0 < m → -1000 <= e → Z.log2 m + 1 = 53 + k → 0 < k →
  ∃ r s, shr_fexp 53 1024 m e loc_Exact = (Build_shr_record (m / 2 ^ k) r s, e + k).
Proof.
  intros Hm He Hd Hk. unfold shr_fexp. destruct m as [|p|p]; [done| |done]. cbn [Zdigits2 shr_record_of_loc].
  rewrite digits2_log2. replace (fexp 53 1024 (Z.log2 (Z.pos p) + 1 + e) - e) with k by (unfold fexp, emin; lia).
  destruct k as [|q|q]; [lia| |lia]. cbn [shr].
  pose proof (iter_shr q (Build_shr_record (Z.pos p) false false) ltac:(done)) as E. cbn [shr_m] in E.
  destruct (iter_pos shr_1 q _) as [m' r s]. cbn in E. subst m'. eauto.
Qed.

Lemma round_even_near m l : round_nearest_even m l = m ∨ round_nearest_even m l = m + 1.
Proof. destruct l as [|[]]; cbn; [auto..|auto|auto]. destruct (Z.even m); auto. Qed.

(** The rounded mantissa, brought to the exponent [e], is within one unit of the
    last of 53 places. *)
Lemma round_aux_near m e :
  0 < m → -1000 <= e → Z.log2 m + 1 + e <= 900 →
  ∃ m' k, binary_round_aux 53 1024 false m e loc_Exact = S754_finite false m' (e + k) ∧ 0 <= k ∧
    Z.abs (Zpos m' * 2 ^ k - m) <= 2 ^ Z.max 0 (Z.log2 m - 52) ∧ (Z.log2 m <= 52 → k = 0 ∧ Zpos m' = m).
Proof.
  intros Hm He Hd. unfold binary_round_aux. destruct (decide (Z.log2 m + 1 <= 53)) as [Hs|Hb].
  - rewrite shr_fexp_small by done. cbn [shr_m loc_of_shr_record round_nearest_even].
    rewrite shr_fexp_small by done. cbn [shr_m]. destruct m as [|p|p]; [done| |done].
    exists p, 0. rewrite (proj2 (Z.leb_le e (1024 - 53))) by (pose proof (Z.log2_nonneg (Zpos p)); lia).
    rewrite Z.add_0_r. split_and!; try done. rewrite Z.mul_1_r, Z.sub_diag. apply Z.pow_nonneg. lia.
  - set (k := Z.log2 m - 52). destruct (shr_fexp_big m e k) as (r & s & ->); [done|done|lia|lia|]. cbn [shr_m].
    pose proof (Z.log2_spec m Hm) as [L1 L2]. pose proof (Z.div_mod m (2 ^ k) ltac:(lia)) as Dm.
    pose proof (Z.mod_pos_bound m (2 ^ k) ltac:(lia)) as Mm. set (q := m / 2 ^ k) in *.
    assert (Hp : 2 ^ Z.log2 m = 2 ^ 52 * 2 ^ k) by (rewrite <- Z.pow_add_r by lia; f_equal; lia).
    assert (Q1 : 2 ^ 52 <= q) by (apply Z.div_le_lower_bound; lia).
    assert (Q2 : q < 2 ^ 53).
    { apply Z.div_lt_upper_bound; [lia|]. replace (Z.succ (Z.log2 m)) with (k + 53) in L2 by lia.
      rewrite Z.pow_add_r in L2 by lia. lia. }
    set (x := round_nearest_even q _). assert (X : x = q ∨ x = q + 1) by apply round_even_near.
    assert (N : Z.abs (x * 2 ^ k - m) <= 2 ^ k) by (destruct X as [-> | ->]; lia).
    rewrite Z.max_r by lia. fold k. clearbody x. destruct (decide (x = 2 ^ 53)) as [Hx|Hx].
    + destruct (shr_fexp_big x (e + k) 1) as (r2 & s2 & ->); [lia|lia|subst x; done|lia|]. cbn [shr_m].
      subst x. change (2 ^ 53 / 2 ^ 1) with (Zpos (2 ^ 52)).
      rewrite (proj2 (Z.leb_le _ (1024 - 53))) by lia. exists (2 ^ 52)%positive, (k + 1).
      split; [by rewrite Z.add_assoc|]. split; [lia|]. split; [|lia].
      rewrite Z.pow_add_r by lia. change (Zpos (2 ^ 52)) with (2 ^ 52). lia.
    + rewrite shr_fexp_small; [|lia|lia|]. 2:{ assert (Z.log2 x < 53); [apply Z.log2_lt_pow2; lia|lia]. }
      cbn [shr_m]. destruct x as [|p|p]; [lia| |lia].
      rewrite (proj2 (Z.leb_le _ (1024 - 53))) by lia. exists p, k. split_and!; try done; lia.
Qed.

(** ** Values at the scale 2^-200 *)

(** The float is within [u] of [x]. *)
Definition near (f : float64) (x u : Z) : Prop :=
  ∃ m e, f = S754_finite false m e ∧ -120 <= e ∧ Z.abs (Zpos m * 2 ^ (e + 200) - x) <= u.

Lemma near_scaled m e m' k u :
  -120 <= e → 0 <= k → Z.abs (Zpos m' * 2 ^ k - m) <= 2 ^ u → 0 <= u →
  near (S754_finite false m' (e + k)) (m * 2 ^ (e + 200)) (2 ^ (u + e + 200)).
Proof.
  intros He Hk H Hu. exists m', (e + k). split; [done|]. split; [lia|].
  replace (e + k + 200) with (k + (e + 200)) by lia. replace (u + e + 200) with (u + (e + 200)) by lia.
  assert (HE : 0 <= e + 200) by lia. set (E := e + 200) in *. clearbody E.
  rewrite !Z.pow_add_r by lia. rewrite Z.mul_assoc, <- Z.mul_sub_distr_r, Z.abs_mul.
  rewrite (Z.abs_eq (2 ^ E)) by lia. apply Z.mul_le_mono_nonneg_r; [lia|done].
Qed.

Lemma near_weaken f x u u' : near f x u → u <= u' → near f x u'.
Proof. intros (m & e & -> & He & H) Hu. exists m, e. split_and!; [done|done|lia]. Qed.

Lemma round_aux_value m e :
  0 < m → -120 <= e → Z.log2 m + e <= 20 →
  near (binary_round_aux 53 1024 false m e loc_Exact) (m * 2 ^ (e + 200)) (2 ^ 168).
Proof.
  intros Hm He Hd. destruct (round_aux_near m e) as (m' & k & -> & Hk & H & Hex); [done|lia|lia|].
  destruct (decide (Z.log2 m <= 52)) as [Hs|Hb].
  - destruct (Hex Hs) as [-> <-]. exists m', e. rewrite Z.add_0_r. split_and!; [done|done|]. rewrite Z.sub_diag. done.
  - rewrite Z.max_r in H by lia. eapply near_weaken; [apply near_scaled; [done|done|exact H|lia]|].
    apply Z.pow_le_mono_r; lia.
Qed.

Lemma iter_xO mx d : Zpos (Pos.iter xO mx d) = Zpos mx * 2 ^ Zpos d.
Proof.
  induction d as [|d IH] using Pos.peano_ind; [cbn; lia|].
  rewrite Pos.iter_succ, Pos2Z.inj_succ, Z.pow_succ_r by lia.
  change (Zpos (Pos.iter xO mx d)~0) with (2 * Zpos (Pos.iter xO mx d)). rewrite IH. lia.
Qed.

Lemma shl_align_value mx ex ex' :
  -200 <= ex' → ex' <= ex → let '(m, e) := shl_align mx ex ex' in
  e = ex' ∧ Zpos m * 2 ^ (e + 200) = Zpos mx * 2 ^ (ex + 200).
Proof.
  intros H1 H2. unfold shl_align. destruct (ex' - ex) as [|d|d] eqn:E; [split; [lia|do 2 f_equal; lia]|lia|].
  split; [done|]. rewrite iter_xO, <- Z.mul_assoc, <- Z.pow_add_r by lia. do 2 f_equal. lia.
Qed.

Lemma shl_align_keeps mx ex ex' : ex <= ex' → shl_align mx ex ex' = (mx, ex).
Proof. intros H. unfold shl_align. destruct (ex' - ex) eqn:E; [done|done|lia]. Qed.

Lemma log2_scale m e x : 0 < m → -200 <= e → m * 2 ^ (e + 200) < 2 ^ (x + 200) → Z.log2 m + e < x.
Proof.
  intros Hm He H. pose proof (Z.log2_spec m Hm) as [L _].
  assert (2 ^ (Z.log2 m + (e + 200)) < 2 ^ (x + 200)) as X.
  { rewrite Z.pow_add_r by (pose proof (Z.log2_nonneg m); lia). nia. }
  apply Z.pow_lt_mono_r_iff in X; [lia|lia|]. destruct (decide (0 <= x + 200)); [done|].
  rewrite (Z.pow_neg_r 2 (x + 200)) in X by lia. pose proof (Z.log2_nonneg m).
  pose proof (Z.pow_pos_nonneg 2 (Z.log2 m + (e + 200))). lia.
Qed.

Lemma binary_round_value mx ex :
  -120 <= ex → Z.log2 (Zpos mx) + ex <= 20 → -60 <= Z.log2 (Zpos mx) + ex →
  near (binary_round 53 1024 false mx ex) (Zpos mx * 2 ^ (ex + 200)) (2 ^ 168).
Proof.
  intros H1 H2 H3. unfold binary_round. set (ex' := fexp 53 1024 _).
  assert (Ef : ex' = Z.log2 (Zpos mx) + ex - 52) by (unfold ex', fexp, emin; rewrite digits2_log2; lia).
  destruct (decide (ex' <= ex)) as [Hl|Hl].
  - pose proof (shl_align_value mx ex ex' ltac:(lia) Hl) as X. destruct (shl_align mx ex ex') as [mz ez].
    destruct X as [-> X]. rewrite <- X. apply round_aux_value; [done|lia|].
    pose proof (Z.log2_spec (Zpos mx) ltac:(done)) as [_ L]. pose proof (Z.log2_nonneg (Zpos mx)).
    assert (Z.log2 (Zpos mz) + ex' < 21); [|lia]. apply log2_scale; [done|lia|]. rewrite X.
    replace (21 + 200) with (21 - ex + (ex + 200)) by lia. rewrite (Z.pow_add_r 2 (21 - ex)) by lia.
    apply Z.mul_lt_mono_pos_r; [lia|]. eapply Z.lt_le_trans; [exact L|]. apply Z.pow_le_mono_r; lia.
  - rewrite shl_align_keeps by lia. apply round_aux_value; [done|lia|lia].
Qed.

(** ** The operations *)

Lemma near_exact m e : -120 <= e → near (S754_finite false m e) (Zpos m * 2 ^ (e + 200)) 0.
Proof. intros H. exists m, e. split_and!; [done|done|lia]. Qed.

(** An integer below 2^20 is exact. *)
Lemma float_of_value n : 0 < n <= 2 ^ 20 →
  ∃ m e, float_of n = S754_finite false m e ∧ Zpos m * 2 ^ (e + 200) = n * 2 ^ 200 ∧ -52 <= e.
Proof.
  intros Hn. unfold float_of, binary_normalize. destruct n as [|p|p]; [lia| |lia]. unfold binary_round.
  rewrite Z.add_0_r, digits2_log2. assert (L : Z.log2 (Zpos p) < 21) by (apply Z.log2_lt_pow2; lia).
  pose proof (Z.log2_nonneg (Zpos p)). set (ex' := fexp 53 1024 _).
  assert (Ef : ex' = Z.log2 (Zpos p) - 52) by (unfold ex', fexp, emin; lia).
  pose proof (shl_align_value p 0 ex' ltac:(lia) ltac:(lia)) as X. destruct (shl_align p 0 ex') as [mz ez].
  destruct X as [-> X]. destruct (round_aux_near (Zpos mz) ex') as (m & k & -> & _ & _ & Ex); [done|lia| |].
  - assert (Z.log2 (Zpos mz) + ex' < 21); [|lia]. apply log2_scale; [done|lia|]. rewrite X.
    rewrite Z.add_0_l. change (2 ^ (21 + 200)) with (2 ^ 21 * 2 ^ 200). apply Z.mul_lt_mono_pos_r; lia.
  - destruct Ex as [-> Em].
    + assert (Z.log2 (Zpos mz) + ex' < Z.log2 (Zpos p) + 1); [|lia]. apply log2_scale; [done|lia|]. rewrite X.
      replace (Z.log2 (Z.pos p) + 1 + 200) with (Z.succ (Z.log2 (Zpos p)) + 200) by lia.
      rewrite Z.add_0_l, (Z.pow_add_r 2 (Z.succ _)) by lia. apply Z.mul_lt_mono_pos_r; [lia|]. apply Z.log2_spec. lia.
    + exists m, ex'. rewrite Z.add_0_r, Em. split_and!; [done|exact X|lia].
Qed.

(** A product below 2^20 is rounded by at most 2^-32. *)
Lemma float_mul_value m1 e1 m2 e2 :
  -60 <= e1 → -60 <= e2 → Zpos m1 * 2 ^ (e1 + 200) * (Zpos m2 * 2 ^ (e2 + 200)) < 2 ^ 420 →
  near (float_mul (S754_finite false m1 e1) (S754_finite false m2 e2))
    (Zpos m1 * 2 ^ (e1 + 200) * (Zpos m2 * 2 ^ (e2 + 200)) / 2 ^ 200) (2 ^ 168).
Proof.
  intros H1 H2 H. unfold float_mul, SFmul. cbn [xorb].
  assert (E : Zpos m1 * 2 ^ (e1 + 200) * (Zpos m2 * 2 ^ (e2 + 200)) = Zpos (m1 * m2) * 2 ^ (e1 + e2 + 200) * 2 ^ 200).
  { assert (P : 2 ^ (e1 + e2 + 200) * 2 ^ 200 = 2 ^ (e1 + 200) * 2 ^ (e2 + 200))
      by (rewrite <- !Z.pow_add_r by lia; f_equal; lia).
    rewrite <- (Z.mul_assoc (Zpos (m1 * m2))), P, Pos2Z.inj_mul. ring. }
  rewrite E in *. rewrite Z.div_mul by lia. apply round_aux_value; [done|lia|].
  assert (Z.log2 (Zpos (m1 * m2)) + (e1 + e2) < 20); [|lia]. apply log2_scale; [done|lia|].
  change (2 ^ 420) with (2 ^ (20 + 200) * 2 ^ 200) in H. lia.
Qed.

(** A sum between 2^-40 and 2^20 likewise. *)
Lemma float_add_value m1 e1 m2 e2 :
  -120 <= e1 → -120 <= e2 → Zpos m1 * 2 ^ (e1 + 200) + Zpos m2 * 2 ^ (e2 + 200) < 2 ^ 220 →
  2 ^ 160 <= Zpos m1 * 2 ^ (e1 + 200) + Zpos m2 * 2 ^ (e2 + 200) →
  near (float_add (S754_finite false m1 e1) (S754_finite false m2 e2))
    (Zpos m1 * 2 ^ (e1 + 200) + Zpos m2 * 2 ^ (e2 + 200)) (2 ^ 168).
Proof.
  intros H1 H2 H L. unfold float_add, SFadd. cbn [cond_Zopp]. set (ez := Z.min e1 e2).
  pose proof (shl_align_value m1 e1 ez ltac:(lia) ltac:(lia)) as X1.
  pose proof (shl_align_value m2 e2 ez ltac:(lia) ltac:(lia)) as X2.
  destruct (shl_align m1 e1 ez) as [a1 b1], (shl_align m2 e2 ez) as [a2 b2]. destruct X1 as [-> X1], X2 as [-> X2].
  rewrite <- X1, <- X2, <- Z.mul_add_distr_r, <- Pos2Z.inj_add in *. cbn [fst binary_normalize Z.add].
  apply binary_round_value; [lia| |].
  - assert (Z.log2 (Zpos (a1 + a2)) + ez < 20); [|lia]. apply log2_scale; [done|lia|exact H].
  - destruct (decide (-40 <= Z.log2 (Z.pos (a1 + a2)) + ez)); [lia|]. exfalso.
    pose proof (Z.log2_spec (Zpos (a1 + a2)) ltac:(done)) as [_ U].
    assert (Zpos (a1 + a2) * 2 ^ (ez + 200) < 2 ^ 160); [|lia].
    eapply Z.lt_le_trans; [apply Z.mul_lt_mono_pos_r; [lia|exact U]|]. rewrite <- Z.pow_add_r by (pose proof (Z.log2_nonneg (Zpos (a1 + a2))); lia).
    apply Z.pow_le_mono_r; lia.
Qed.

Lemma uint_of_near f x u : near f x u → 0 <= u →
  (x - u) / 2 ^ 200 <= uint_of_float f <= (x + u) / 2 ^ 200.
Proof.
  intros (m & e & -> & He & H) Hu. cbn [uint_of_float].
  assert (E : (if 0 <=? e then Zpos m * 2 ^ e else Zpos m / 2 ^ (- e)) = Zpos m * 2 ^ (e + 200) / 2 ^ 200).
  { destruct (Z.leb_spec 0 e).
    - rewrite Z.pow_add_r by lia. rewrite Z.mul_assoc, Z.div_mul by lia. done.
    - replace (2 ^ 200) with (2 ^ (- e) * 2 ^ (e + 200)) by (rewrite <- Z.pow_add_r by lia; f_equal; lia).
      by rewrite Z.div_mul_cancel_r by lia. }
  rewrite E. split; apply Z.div_le_mono; lia.
Qed.
