(* ===== verification/Magnitude.v ===== *)
(** * The magnitude of float64 results

    Which operations on float64 values of moderate size give finite values again.
    A value's magnitude is the exponent of the power of two below it.  Nothing in this
    file is the repository's. *)

From stdpp Require Import base tactics.
From Stdlib Require Import ZArith Lia.
From Stdlib.Floats Require Import SpecFloat.
From S2P Require Import Prelude GoText Rounding.

(** A value of this sign between two powers of two. *)
Definition mag (s : bool) (f : float64) (lo hi : Z) : Prop :=
  ∃ m e, f = S754_finite s m e ∧ lo <= Z.log2 (Zpos m) + e <= hi.

(** Neither infinite nor NaN. *)
Definition is_finite (f : float64) : bool :=
  match f with S754_zero _ | S754_finite _ _ _ => true | _ => false end.

Lemma mag_finite s f lo hi : mag s f lo hi → is_finite f = true.
Proof. by intros (m & e & -> & _). Qed.

Lemma mag_weaken s f lo hi lo' hi' : mag s f lo hi → lo' <= lo → hi <= hi' → mag s f lo' hi'.
Proof. intros (m & e & -> & H) H1 H2. exists m, e. split; [done|lia]. Qed.

(** ** Rounding *)

Lemma shr_fexp_mag m e l :
  0 < m → -1000 <= Z.log2 m + e →
  ∃ k r s, shr_fexp 53 1024 m e l = (Build_shr_record (m / 2 ^ k) r s, e + k) ∧ 0 <= k <= Z.log2 m.
Proof.
  intros Hm He. unfold shr_fexp. pose proof (Z.log2_nonneg m) as L0.
  assert (D : Zdigits2 m = Z.log2 m + 1) by (destruct m as [|p|p]; [done|apply digits2_log2|done]).
  rewrite D. set (k := fexp 53 1024 (Z.log2 m + 1 + e) - e).
  assert (Hk : k = Z.log2 m - 52) by (unfold k, fexp, emin; lia).
  assert (Hs : shr_m (shr_record_of_loc m l) = m) by (by destruct l as [|[]]).
  destruct k as [|q|q]; cbn [shr].
  - exists 0. rewrite Z.pow_0_r, Z.div_1_r, Z.add_0_r. destruct (shr_record_of_loc m l). cbn in Hs. subst. eauto with lia.
  - pose proof (iter_shr q (shr_record_of_loc m l) ltac:(lia)) as E. rewrite Hs in E.
    destruct (iter_pos shr_1 q _) as [m' r s]. cbn in E. subst m'. exists (Zpos q), r, s. split; [done|lia].
  - exists 0. rewrite Z.pow_0_r, Z.div_1_r, Z.add_0_r. destruct (shr_record_of_loc m l). cbn in Hs. subst. eauto with lia.
Qed.

Lemma log2_div_pow m k : 0 < m → 0 <= k <= Z.log2 m → 0 < m / 2 ^ k ∧ Z.log2 (m / 2 ^ k) = Z.log2 m - k.
Proof.
  intros Hm Hk. rewrite <- Z.shiftr_div_pow2 by lia. rewrite Z.log2_shiftr by done. split; [|lia].
  rewrite Z.shiftr_div_pow2 by lia. apply Z.div_str_pos. split; [lia|].
  etransitivity; [|apply (Z.log2_spec m Hm)]. apply Z.pow_le_mono_r; lia.
Qed.

Lemma round_aux_mag s m e l :
  0 < m → -1000 <= Z.log2 m + e <= 900 →
  mag s (binary_round_aux 53 1024 s m e l) (Z.log2 m + e) (Z.log2 m + e + 1).
Proof.
  intros Hm He. unfold binary_round_aux.
  destruct (shr_fexp_mag m e l) as (k & r & t & -> & Hk); [done|lia|]. cbn [shr_m].
  destruct (log2_div_pow m k Hm Hk) as [Hq Hl]. set (q := m / 2 ^ k) in *.
  set (x := round_nearest_even q _). assert (X : x = q ∨ x = q + 1) by apply round_even_near.
  assert (Lx : 0 < x ∧ Z.log2 q <= Z.log2 x <= Z.log2 q + 1).
  { split; [lia|]. destruct X as [-> | ->]; [lia|]. split; [apply Z.log2_le_mono; lia|].
    pose proof (Z.log2_succ_le q). unfold Z.succ in *. lia. }
  clearbody x. destruct (shr_fexp_mag x (e + k) loc_Exact) as (k2 & r2 & t2 & -> & Hk2); [lia|lia|]. cbn [shr_m].
  destruct (log2_div_pow x k2 ltac:(lia) Hk2) as [Hy Ly]. destruct (x / 2 ^ k2) as [|y|y]; [done| |done].
  pose proof (Z.log2_nonneg (Zpos y)). rewrite (proj2 (Z.leb_le _ (1024 - 53))) by lia.
  exists y, (e + k + k2). split; [done|lia].
Qed.

(** Bringing a mantissa to a lower exponent leaves the value. *)
Lemma shl_align_mag mx ex ex' :
  let '(m, e) := shl_align mx ex ex' in Z.log2 (Zpos m) + e = Z.log2 (Zpos mx) + ex ∧ (ex' <= ex → e = ex').
Proof.
  unfold shl_align. destruct (ex' - ex) as [|d|d] eqn:E; [lia|lia|]. split; [|done].
  rewrite iter_xO, Z.log2_mul_pow2 by lia. lia.
Qed.

Lemma binary_round_mag s mx ex :
  -1000 <= Z.log2 (Zpos mx) + ex <= 900 →
  mag s (binary_round 53 1024 s mx ex) (Z.log2 (Zpos mx) + ex) (Z.log2 (Zpos mx) + ex + 1).
Proof.
  intros H. unfold binary_round. pose proof (shl_align_mag mx ex (fexp 53 1024 (Zpos (digits2_pos mx) + ex))) as X.
  destruct (shl_align mx ex _) as [mz ez]. destruct X as [X _]. rewrite <- X in *. by apply round_aux_mag.
Qed.

(** ** The operations *)

Lemma float_of_mag n lo hi :
  0 < Z.abs n → 0 <= lo → 2 ^ lo <= Z.abs n < 2 ^ hi → hi <= 800 → mag (n <? 0) (float_of n) lo hi.
Proof.
  intros Hn H0 [H1 H2] Hh. pose proof (Z.log2_spec (Z.abs n) Hn) as [L1 L2].
  assert (A : lo <= Z.log2 (Z.abs n)).
  { pose proof (Z.log2_le_mono _ _ H1) as X. by rewrite Z.log2_pow2 in X by lia. }
  assert (B : Z.log2 (Z.abs n) < hi) by (by apply Z.log2_lt_pow2).
  unfold float_of, binary_normalize. destruct n as [|p|p]; [done|..].
  all: change (Z.abs _) with (Zpos p) in *; eapply mag_weaken; [apply binary_round_mag|..]; lia.
Qed.

Lemma float_mul_mag s1 s2 f g lo hi lo' hi' :
  mag s1 f lo hi → mag s2 g lo' hi' → -900 <= lo + lo' → hi + hi' <= 800 →
  mag (xorb s1 s2) (float_mul f g) (lo + lo') (hi + hi' + 2).
Proof.
  intros (m1 & e1 & -> & H1) (m2 & e2 & -> & H2) L H. unfold float_mul, SFmul.
  pose proof (Z.log2_mul_below (Zpos m1) (Zpos m2)). pose proof (Z.log2_mul_above (Zpos m1) (Zpos m2)).
  rewrite <- Pos2Z.inj_mul in *. eapply mag_weaken; [apply round_aux_mag|..]; lia.
Qed.

Lemma float_add_mag s f g lo hi lo' hi' :
  mag s f lo hi → mag s g lo' hi' → -900 <= lo → hi <= 800 → hi' <= 800 →
  mag s (float_add f g) lo (Z.max hi hi' + 2).
Proof.
  intros (m1 & e1 & -> & H1) (m2 & e2 & -> & H2) L Hh Hh'. unfold float_add, SFadd. set (ez := Z.min e1 e2).
  pose proof (shl_align_mag m1 e1 ez) as X1. pose proof (shl_align_mag m2 e2 ez) as X2.
  destruct (shl_align m1 e1 ez) as [a b], (shl_align m2 e2 ez) as [a' b'].
  destruct X1 as [X1 E1], X2 as [X2 E2]. rewrite E1 in X1 by lia. rewrite E2 in X2 by lia. cbn [fst].
  assert (B : Z.log2 (Zpos a) <= Z.log2 (Zpos (a + a')) <= Z.max (Z.log2 (Zpos a)) (Z.log2 (Zpos a')) + 1).
  { split; [apply Z.log2_le_mono; lia|]. pose proof (Z.log2_nonneg (Zpos a)). pose proof (Z.log2_nonneg (Zpos a')).
    set (k := Z.max _ _). assert (Z.log2 (Zpos (a + a')) < k + 2); [|lia]. apply Z.log2_lt_pow2; [done|].
    pose proof (Z.log2_spec (Zpos a) ltac:(done)) as [_ U]. pose proof (Z.log2_spec (Zpos a') ltac:(done)) as [_ U'].
    assert (2 ^ Z.succ (Z.log2 (Zpos a)) <= 2 ^ (k + 1)) by (apply Z.pow_le_mono_r; lia).
    assert (2 ^ Z.succ (Z.log2 (Zpos a')) <= 2 ^ (k + 1)) by (apply Z.pow_le_mono_r; lia).
    rewrite Pos2Z.inj_add. replace (k + 2) with (Z.succ (k + 1)) by lia. rewrite Z.pow_succ_r by lia. lia. }
  destruct s; cbn [cond_Zopp Z.opp Z.add binary_normalize].
  all: eapply mag_weaken; [apply binary_round_mag|..]; lia.
Qed.

Lemma log2_div a b :
  0 < a → 0 < b → Z.log2 b + 1 <= Z.log2 a →
  0 < a / b ∧ Z.log2 a - Z.log2 b - 1 <= Z.log2 (a / b) <= Z.log2 a - Z.log2 b.
Proof.
  intros Ha Hb Hab. pose proof (Z.log2_spec a Ha) as [A1 A2]. pose proof (Z.log2_spec b Hb) as [B1 B2].
  pose proof (Z.log2_nonneg b). set (k := Z.log2 a - Z.log2 b) in *. assert (Q1 : 2 ^ (k - 1) <= a / b).
  { apply Z.div_le_lower_bound; [done|]. etransitivity; [|exact A1].
    replace (Z.log2 a) with (Z.succ (Z.log2 b) + (k - 1)) by lia. rewrite Z.pow_add_r by lia.
    apply Z.mul_le_mono_nonneg_r; lia. }
  assert (Q2 : a / b < 2 ^ Z.succ k).
  { apply Z.div_lt_upper_bound; [done|]. eapply Z.lt_le_trans; [exact A2|].
    replace (Z.succ (Z.log2 a)) with (Z.log2 b + Z.succ k) by lia. rewrite Z.pow_add_r by lia.
    apply Z.mul_le_mono_nonneg_r; lia. }
  assert (0 < a / b) as Hq by (assert (0 < 2 ^ (k - 1)) by (apply Z.pow_pos_nonneg; lia); lia). split; [done|].
  apply Z.log2_lt_pow2 in Q2; [|done]. apply Z.log2_le_mono in Q1. rewrite Z.log2_pow2 in Q1 by lia. lia.
Qed.

Lemma float_div_mag s1 s2 f g lo hi lo' hi' :
  mag s1 f lo hi → mag s2 g lo' hi' → -900 <= lo - hi' → hi - lo' <= 800 →
  mag (xorb s1 s2) (float_div f g) (lo - hi' - 1) (hi - lo' + 2).
Proof.
  intros (m1 & e1 & -> & H1) (m2 & e2 & -> & H2) L H. unfold float_div, SFdiv, SFdiv_core_binary.
  cbn [Zdigits2]. rewrite !digits2_log2. set (e' := Z.min _ _). set (d := e1 - e2 - e').
  assert (Hd : 0 <= d) by lia.
  assert (Em : match d with 0 => Zpos m1 | Zpos _ => Z.shiftl (Zpos m1) d | Zneg _ => 0 end = Zpos m1 * 2 ^ d).
  { destruct d as [|p|p] eqn:E; [lia| |lia]. by rewrite Z.shiftl_mul_pow2. }
  rewrite Em. pose proof (Z_div_mod (Zpos m1 * 2 ^ d) (Zpos m2) ltac:(done)) as D.
  destruct (Z.div_eucl _ _) as [q r]. destruct D as [D R].
  assert (Hq : Zpos m1 * 2 ^ d / Zpos m2 = q) by (symmetry; apply (Z.div_unique _ _ q r); [by left|done]).
  assert (Lq : 0 < q ∧ Z.log2 (Zpos m1) + d - Z.log2 (Zpos m2) - 1 <= Z.log2 q <= Z.log2 (Zpos m1) + d - Z.log2 (Zpos m2)).
  { pose proof (Z.log2_mul_pow2 (Zpos m1) d ltac:(done) Hd) as LM. rewrite <- Hq.
    destruct (log2_div (Zpos m1 * 2 ^ d) (Zpos m2)); [lia|done|unfold fexp, emin in *; lia|]. split; [done|lia]. }
  eapply mag_weaken; [apply round_aux_mag|..]; lia.
Qed.

(** ** Counters and durations *)

Lemma pow2_between n : 0 < n → 2 ^ Z.log2 n <= n < 2 ^ (Z.log2 n + 1).
Proof. intros H. apply Z.log2_spec, H. Qed.

Lemma uint64_mag n : 0 < n < 2 ^ 64 → mag false (float_of n) 0 64.
Proof.
  intros H. rewrite <- (proj2 (Z.ltb_ge n 0)) by lia. apply float_of_mag; lia.
Qed.

Lemma float_of_0 : float_of 0 = S754_zero false.
Proof. done. Qed.

(** A ratio of counters, the first one multiplied by a small factor. *)
Lemma percent_finite a k b : 0 <= a < 2 ^ 64 → 0 < k < 2 ^ 64 → 0 < b < 2 ^ 64 →
  is_finite (float_div (float_mul (float_of a) (float_of k)) (float_of b)) = true.
Proof.
  intros Ha Hk Hb. pose proof (uint64_mag k Hk) as K. pose proof (uint64_mag b Hb) as B.
  destruct (decide (a = 0)) as [->|Hn].
  - rewrite float_of_0. destruct K as (m & e & -> & _), B as (m' & e' & -> & _). done.
  - pose proof (uint64_mag a ltac:(lia)) as A. eapply mag_finite.
    eapply float_div_mag; [eapply float_mul_mag|..]; [exact A|exact K|lia|lia|exact B|lia|lia].
Qed.

Lemma quotient_finite a s f lo hi : 0 <= a < 2 ^ 64 → mag s f lo hi → -100 <= lo → hi <= 100 →
  is_finite (float_div (float_of a) f) = true.
Proof.
  intros Ha F Hl Hh. destruct (decide (a = 0)) as [->|Hn].
  - rewrite float_of_0. by destruct F as (m & e & -> & _).
  - pose proof (uint64_mag a ltac:(lia)) as A. eapply mag_finite. eapply float_div_mag; [exact A|exact F|lia|lia].
Qed.

Lemma counter_finite a : 0 <= a < 2 ^ 64 → is_finite (float_of a) = true.
Proof. intros Ha. destruct (decide (a = 0)) as [->|]; [done|]. eapply mag_finite, uint64_mag. lia. Qed.

(** The seconds of a duration that is not zero. *)
Lemma Duration_Seconds_mag d : d ≠ 0 → Z.abs d < 2 ^ 64 → mag (d <? 0) (Duration_Seconds d) (-32) 40.
Proof.
  intros Hd Hb. unfold Duration_Seconds. set (q := Z.quot d 1000000000). set (r := Z.rem d 1000000000).
  pose proof (Z.quot_rem d 1000000000 ltac:(lia)) as E. fold q r in E.
  pose proof (Z.rem_bound_abs d 1000000000 ltac:(lia)) as Rb. fold r in Rb.
  assert (S : (0 < d → 0 <= q ∧ 0 <= r) ∧ (d < 0 → q <= 0 ∧ r <= 0)).
  { unfold q, r. split; intros; split.
    - apply Z.quot_pos; lia.
    - apply Z.rem_nonneg; lia.
    - assert (Z.quot (- d) 1000000000 >= 0) by (apply Z.le_ge, Z.quot_pos; lia). rewrite Z.quot_opp_l in * by lia. lia.
    - apply Z.rem_nonpos; lia. }
  assert (M : q ≠ 0 → mag (d <? 0) (float_of q) 0 36).
  { intros Hq. replace (d <? 0) with (q <? 0) by (destruct (Z.ltb_spec q 0), (Z.ltb_spec d 0); lia). apply float_of_mag; lia. }
  assert (F : r ≠ 0 → mag (d <? 0) (float_div (float_of r) (float_of 1000000000)) (-32) 4).
  { intros Hr. replace (d <? 0) with (xorb (r <? 0) false)
      by (rewrite xorb_false_r; destruct (Z.ltb_spec r 0), (Z.ltb_spec d 0); lia).
    eapply mag_weaken; [eapply float_div_mag; [apply (float_of_mag r 0 30)|apply (float_of_mag 1000000000 29 30)|..]|..]; lia. }
  destruct (decide (q = 0)) as [Hq|Hq], (decide (r = 0)) as [Hr|Hr]; [lia|..].
  - rewrite Hq, float_of_0. destruct (F Hr) as (m & e & -> & X). exists m, e. split; [done|lia].
  - rewrite Hr. destruct (M Hq) as (m & e & -> & X).
    assert (Ez : float_div (float_of 0) (float_of 1000000000) = S754_zero false) by reflexivity.
    rewrite Ez. exists m, e. split; [done|lia].
  - eapply mag_weaken; [eapply float_add_mag; [apply M, Hq|apply F, Hr|..]|..]; lia.
Qed.
