(* ===== verification/Perf.v ===== *)
(** * The benchmark harness (cmd/perfcheck/runner.go)

    [drive], the producer at a fixed rate; the workers of [runPhase], which share an
    appender; [waitDrain], [summarize] and the gates of the two modes.  Other users
    of the appender (its flusher, the other workers) act between the calls. *)

From stdpp Require Import gmap strings list fin_maps sorting.
From Stdlib Require Import ZArith Lia.
From Stdlib.Floats Require Import SpecFloat.
From Stdlib.Strings Require Import Byte.
From S2P Require Import Prelude GoLib GoText Ring Pool PoolInv PoolSafety Flusher FlushInv Observer Appender AppenderSafety AppenderProps Runtime Publishing Rounding.

Definition payloadSize : Z := 256.
Definition capacity : Z := 65536.
Definition producers : nat := 32.
Definition batchSize : Z := 1024.
Definition Millisecond : Z := 1000000.
Definition Second : Z := 1000000000.
Definition Minute : Z := 60 * Second.

(** The counters of a run; [samples] are nanoseconds. *)
Record phase := mkPhase {
  p_attempts : Z; p_accepted : Z; p_full : Z; p_other : Z; p_elapsed : Z; p_samples : list Z
}.
#[export] Instance phase_fields : Fields phase := λ r,
  mkPhase (p_attempts r) (p_accepted r) (p_full r) (p_other r) (p_elapsed r) (p_samples r).

Definition no_phase : phase := mkPhase 0 0 0 0 0 [].

(** [newAppender] *)
Definition newAppender (audit : string) : result Appender :=
  mode ← (if bool_decide (audit = "full") then Ok AuditFull
          else if bool_decide (audit = "off") then Ok AuditOff
          else Err (ErrNew "audit must be off, full, or both"));
  Appender.New (Appender.mkConfig "" 0 capacity batchSize (50 * Millisecond) 0 0 0 (2 ^ 20) []
                  mode 0 0 0 0 0 "" true) [].

(** ** The payload *)

(** [byte(i)] at every index of the payload. *)
Definition payload : list byte := map (λ i, byte_of_Z (Z.of_nat i)) (seq 0 (Z.to_nat payloadSize)).

(** ** drive *)

(** What other users do to the appender before each of the calls, the pool's
    environment and the time of a release. *)
Record moment := mkMoment {
  m_before : Appender → Appender; m_between : Appender → Appender; m_after : Appender → Appender;
  m_env : env; m_now : Z
}.

(** [publish]; [None]: a store beyond the buffer, which panics. *)
Definition drive_publish (m : moment) (s : Appender * phase) : option (Appender * phase) :=
  let '(a, p) := s in
  match AcquireFor InfoLevel payloadSize (m_env m) (m_before m a) with
  | (a, Err _) => Some (a, p <| p_attempts ::= inc |> <| p_other ::= inc |>)
  | (a, Ok n) =>
      let buffer := match Lease_Buffer (Some n) a with Ok b => b | Err _ => [] end in
      if len buffer <? payloadSize then None
      else
        let a := (Lease_Commit (Some n) payloadSize (store_buffer n payload a)).1 in
        let '(a, r) := TryPublishLease InfoLevel (Some n) (m_between m a) in
        let release a := (Lease_Release (Some n) (m_now m) (m_after m a)).1 in
        let '(a, p) :=
          match r with
          | Accepted => (a, p <| p_accepted ::= inc |>)
          | QueueFull => (release a, p <| p_full ::= inc |>)
          | _ => (release a, p <| p_other ::= inc |>)
          end in
        Some (a, p <| p_attempts ::= inc |>)
  end.

Section Drive.
Context (moments : nat → moment) (rate duration : Z).

(** [uint64(now.Sub(started)) * uint64(rate) / uint64(time.Second)] *)
Definition target (elapsed : Z) : Z := u64 (u64 elapsed * u64 rate) / Second.

(** [for result.attempts < target { publish() }]; an attempt takes one turn. *)
Fixpoint catch_up (fuel : nat) (goal : Z) (s : Appender * phase) : option (Appender * phase) :=
  if p_attempts s.2 <? goal then
    match fuel with
    | O => None
    | S fuel => s' ← drive_publish (moments (Z.to_nat (p_attempts s.2))) s; catch_up fuel goal s'
    end
  else Some s.
Definition catch_up_fuel (goal : Z) : nat := Z.to_nat goal.

Definition maxDuration (a b : Z) : Z := if a >? b then a else b.

(** [for now := range ticker.C]: [ticks] are the times since the start; [next] is
    the time of the next sample.  The list of the sampling times is returned;
    [None]: the loop waits for another tick. *)
Fixpoint drive_loop (ticks : list Z) (next : Z) (s : Appender * phase) : option (Appender * phase * list Z) :=
  match ticks with
  | [] => None
  | now :: ticks =>
      if duration <=? now then Some (s, [])
      else
        s ← catch_up (catch_up_fuel (target now)) (target now) s;
        if next <=? now then
          '(s, sampled) ← drive_loop ticks (now + maxDuration (10 * Millisecond) (Z.quot duration 20)) s;
          Some (s, now :: sampled)
        else drive_loop ticks next s
  end.

(** [finish]: the time since the start when all is published. *)
Definition drive (ticks : list Z) (finish : Z) (a : Appender) : option (Appender * phase * list Z) :=
  '(s, sampled) ← drive_loop ticks 0 (a, no_phase);
  '(a, p) ← catch_up (catch_up_fuel (target duration)) (target duration) s;
  Some (a, p <| p_elapsed := finish |>, sampled ++ [finish]).

Definition tick : Z := if duration <? 100 * Millisecond then Millisecond else 10 * Millisecond.
End Drive.

(** ** A buffer that was just acquired *)

Lemma acquired_buffer capacity level e a a' n :
  appender_ok a → acquire capacity level e a = (a', Ok n) →
  ∃ b, Lease_Buffer (Some n) a' = Ok b ∧ capacity <= len b.
Proof.
  intros A. unfold acquire. destruct (a_closed a); [done|]. set (c := mkAuditContext _ _ _).
  pose proof (acquire_spec (a_pool a) capacity c e (ao_pool a A)) as X. cbv zeta in X.
  destruct (AcquireContext capacity c e (a_pool a)) as [p [h|err]]; [|done]. cbn [fst snd] in X.
  intros [= <- <-]. destruct (Pool.closed (a_pool a)); [done|]. destruct (capacity <? 0); [done|].
  destruct (_ >? _); [by destruct X as (_ & ? & ? & _)|].
  destruct X as (l & [= ->] & L & St & _ & _ & _ & _ & Fit). exists (block_data p l).
  unfold Lease_Buffer, usable. cbn. rewrite list_lookup_middle by done. cbn. unfold Writable, borrowed_lease.
  rewrite L, list_lookup_middle by done. rewrite St, Z.eqb_refl. split; [done|].
  unfold Lease_Capacity in Fit. destruct Fit as [(_ & -> & _)|(j & _ & _ & H & _)]; lia.
Qed.

(** The other users keep the invariant and leave the handles alone. *)
Definition harmless (f : Appender → Appender) : Prop :=
  ∀ a, appender_ok a → appender_ok (f a) ∧ handles (f a) = handles a.

Record calm_moment (m : moment) : Prop := mkCalmMoment {
  cm_before : harmless (m_before m); cm_between : harmless (m_between m); cm_after : harmless (m_after m)
}.

(** The counters of a phase add up. *)
Definition adds_up (p : phase) : Prop := p_attempts p = p_accepted p + p_full p + p_other p ∧
  0 <= p_accepted p ∧ 0 <= p_full p ∧ 0 <= p_other p.

Definition drive_ok (k : nat) (s : Appender * phase) : Prop :=
  appender_ok s.1 ∧ (k <= length (handles s.1))%nat ∧ settled k s.1 ∧ adds_up s.2.

Lemma settled_release k n now a f :
  harmless f → appender_ok a → holding k n a →
  appender_ok (Lease_Release (Some n) now (f a)).1 ∧ settled k (Lease_Release (Some n) now (f a)).1.
Proof.
  intros F A H. destruct (F a A) as [A' E]. split; [by apply ok_Lease_Release|].
  apply Release_held; [done|]. by eapply holding_handles.
Qed.

Lemma length_Release lease now a : length (handles (Lease_Release lease now a).1) = length (handles a).
Proof.
  unfold Lease_Release. destruct lease as [n|]; [|done]. destruct (handles a !! n); [|done]. destruct_ifs; try done.
  rewrite pool_call_eq. cbn. apply length_alter.
Qed.

Lemma length_TryPublish level lease a :
  appender_ok a → length (handles (TryPublishLease level lease a).1) = length (handles a).
Proof.
  intros A. destruct (TryPublishLease_published level lease a A) as [m l _ _ _ _ _ _ -> _|r _ _ -> _]; [|done].
  apply length_insert.
Qed.

(** The lease a publisher holds, filled and committed. *)
Lemma filled_ok k n a data size :
  appender_ok a → holding k n a →
  let a' := (Lease_Commit (Some n) size (store_buffer n data a)).1 in appender_ok a' ∧ holding k n a' ∧ handles a' = handles a.
Proof.
  intros A H. destruct (holding_lookup k n a H) as (l & E & T & R). cbv zeta.
  destruct (ok_store_buffer n data l a A E T R) as (A1 & E1 & _).
  assert (Eh : handles (Lease_Commit (Some n) size (store_buffer n data a)).1 = handles a)
    by (by rewrite Commit_handles).
  split_and!; [by apply ok_Lease_Commit|by eapply holding_handles|done].
Qed.

Lemma length_holding k n a : holding k n a → (k <= length (handles a))%nat.
Proof. intros (hs & l & -> & -> & Hk & _). rewrite length_app. cbn. lia. Qed.

(** Counting one attempt. *)
Lemma counted p :
  adds_up p → p_attempts p < 2 ^ 64 - 1 →
  inc (p_attempts p) = p_attempts p + 1 ∧ adds_up (p <| p_accepted ::= inc |> <| p_attempts ::= inc |>) ∧
  adds_up (p <| p_full ::= inc |> <| p_attempts ::= inc |>) ∧ adds_up (p <| p_other ::= inc |> <| p_attempts ::= inc |>).
Proof.
  intros (E & P1 & P2 & P3) Lt.
  assert (I : ∀ x, 0 <= x <= p_attempts p → inc x = x + 1) by (intros x Hx; unfold inc; rewrite u64_small; lia).
  unfold adds_up. cbn. rewrite !I by lia. lia.
Qed.

(** One event of [drive]: counted once, and no lease is kept. *)
Lemma drive_publish_ok k m s :
  calm_moment m → drive_ok k s → p_attempts s.2 < 2 ^ 64 - 1 →
  ∃ s', drive_publish m s = Some s' ∧ drive_ok k s' ∧ p_attempts s'.2 = p_attempts s.2 + 1.
Proof.
  intros [Hb Hm Ha] (A & Hk & St & Ad) Lt. destruct s as [a p]. cbn [fst snd] in *.
  destruct (counted p Ad Lt) as (I & C1 & C2 & C3).
  destruct (Hb a A) as [Ab Eb].
  assert (Sb : settled k (m_before m a)) by (by eapply settled_handles).
  assert (Hkb : (k <= length (handles (m_before m a)))%nat) by (by rewrite Eb).
  unfold drive_publish, AcquireFor. cbn [negb Level_valid].
  change (negb (Level_valid InfoLevel)) with false. cbv iota.
  pose proof (ok_acquire payloadSize (Some InfoLevel) (m_env m) _ Ab) as A1.
  pose proof (acquired_handle k payloadSize (Some InfoLevel) (m_env m) _ Hkb Sb) as X.
  pose proof (acquired_buffer payloadSize (Some InfoLevel) (m_env m) (m_before m a)) as B.
  destruct (acquire payloadSize (Some InfoLevel) (m_env m) (m_before m a)) as [a1 [n|err]]; cbn [fst] in A1.
  2:{ eexists. split; [done|]. split; [|exact I].
      split; [done|]. split; [by cbn; rewrite X|]. split; [by eapply settled_handles|exact C3]. }
  destruct X as [H1 _]. destruct (B a1 n Ab eq_refl) as (b & -> & Hl). rewrite (proj2 (Z.ltb_ge _ _) Hl).
  destruct (filled_ok k n a1 payload payloadSize A1 H1) as (A2 & H2 & _).
  set (a2 := (Lease_Commit (Some n) payloadSize (store_buffer n payload a1)).1) in *. clearbody a2. clear A1 H1 B.
  destruct (Hm a2 A2) as [A3 E3]. assert (H3 : holding k n (m_between m a2)) by (by eapply holding_handles).
  pose proof (ok_TryPublishLease InfoLevel (Some n) _ A3 ltac:(done)) as A4.
  pose proof (TryPublishLease_published InfoLevel (Some n) _ A3) as Pub.
  destruct (TryPublishLease InfoLevel (Some n) (m_between m a2)) as [a4 r]. cbn [fst snd] in *.
  assert (Len : ∀ x p, settled k x → appender_ok x → length (handles x) = length (handles a4) →
    (k <= length (handles a4))%nat → adds_up p → drive_ok k (x, p)).
  { intros x p' Sx Ax Lx Lk Px. split; [done|]. split; [by cbn; rewrite Lx|done]. }
  destruct Pub as [m' l [= <-] El T R _ _ Eh _|r Hr _ Eh _].
  - eexists. split; [done|]. split; [|exact I]. apply Len; [|done|done| |exact C1].
    + eapply (holding_settles k n _ a4 l); [exact H3|done|done|by left].
    + rewrite Eh, length_insert. by apply length_holding in H3.
  - assert (H4 : holding k n a4) by (by eapply holding_handles).
    pose proof (settled_release k n (m_now m) a4 (m_after m) Ha A4 H4) as [A5 S5].
    assert (L5 : length (handles (Lease_Release (Some n) (m_now m) (m_after m a4)).1) = length (handles a4)).
    { rewrite length_Release. by destruct (Ha a4 A4) as [_ ->]. }
    pose proof (λ p, Len _ p S5 A5 L5 (length_holding _ _ _ H4)) as D.
    destruct r; [done|..]; (eexists; split; [done|]; split; [by apply D|exact I]).
Qed.

Section DriveOk.
Context (moments : nat → moment) (rate duration : Z) (k : nat).
Hypothesis calm_moments : ∀ i, calm_moment (moments i).

Lemma catch_up_ok goal : ∀ fuel s,
  drive_ok k s → goal < 2 ^ 64 → goal <= p_attempts s.2 + Z.of_nat fuel →
  ∃ s', catch_up moments fuel goal s = Some s' ∧ drive_ok k s' ∧
    p_attempts s'.2 = Z.max goal (p_attempts s.2).
Proof.
  induction fuel as [|fuel IH]; intros s D Hg Hf; cbn [catch_up];
    destruct (p_attempts s.2 <? goal) eqn:E; zbool; try (exists s; split_and!; [done|done|lia]); [lia|].
  destruct (drive_publish_ok k (moments (Z.to_nat (p_attempts s.2))) s (calm_moments _) D ltac:(lia))
    as (s1 & -> & D1 & E1). cbn.
  destruct (IH s1 D1 Hg ltac:(lia)) as (s2 & -> & D2 & E2). exists s2. split_and!; [done|done|lia].
Qed.

Hypothesis Hrate : 0 <= rate.
Hypothesis Hduration : 0 <= duration.
Hypothesis Hfit : duration * rate < 2 ^ 64.

Lemma target_small now : 0 <= now <= duration → target rate now = now * rate / Second.
Proof.
  intros H. unfold target. destruct (decide (now = 0)) as [->|Hn].
  - rewrite (u64_small 0), !Z.mul_0_l by lia. done.
  - assert (rate < 2 ^ 64) by nia. destruct (decide (rate = 0)) as [->|Hr].
    + rewrite (u64_small 0), !Z.mul_0_r by lia. done.
    + assert (now <= now * rate <= duration * rate) by nia. assert (rate <= now * rate) by nia.
      rewrite (u64_small now), (u64_small rate), u64_small; lia.
Qed.

Lemma target_mono now now' : 0 <= now <= now' → now' <= duration → target rate now <= target rate now'.
Proof. intros. rewrite !target_small by lia. apply Z.div_le_mono; [done|]. nia. Qed.

Lemma target_bound now : 0 <= now <= duration → 0 <= target rate now < 2 ^ 64.
Proof.
  intros H. rewrite target_small by lia. split; [apply Z.div_pos; [nia|done]|].
  apply Z.div_lt_upper_bound; [done|]. unfold Second. nia.
Qed.

(** The times between two samples. *)
Fixpoint spaced (next : Z) (l : list Z) : Prop :=
  match l with [] => True | t :: l => next <= t ∧ spaced (t + maxDuration (10 * Millisecond) (Z.quot duration 20)) l end.

Lemma drive_loop_ok ticks : ∀ next s,
  Forall (λ t, 0 <= t) ticks → Exists (λ t, duration <= t) ticks → drive_ok k s →
  0 <= p_attempts s.2 <= target rate duration →
  ∃ s' sampled, drive_loop moments rate duration ticks next s = Some (s', sampled) ∧ drive_ok k s' ∧
    p_attempts s.2 <= p_attempts s'.2 <= target rate duration ∧ spaced next sampled ∧
    Forall (λ t, t < duration ∧ t ∈ ticks) sampled.
Proof.
  induction ticks as [|now ticks IH]; intros next s Hp Hx D Hs; [by apply Exists_nil in Hx|].
  apply Forall_cons in Hp as [Hnow Hp]. cbn [drive_loop]. destruct (duration <=? now) eqn:E; zbool.
  { exists s, []. split_and!; try done; lia. }
  apply Exists_cons in Hx as [Hx|Hx]; [lia|].
  pose proof (target_mono now duration ltac:(lia) ltac:(lia)) as Hm. pose proof (target_bound now ltac:(lia)) as Ht.
  destruct (catch_up_ok (target rate now) (catch_up_fuel (target rate now)) s D ltac:(lia) ltac:(unfold catch_up_fuel; lia))
    as (s1 & -> & D1 & E1). cbn.
  assert (W : ∀ l, Forall (λ t, t < duration ∧ t ∈ ticks) l → Forall (λ t, t < duration ∧ t ∈ now :: ticks) l).
  { intros l Hl. eapply Forall_impl; [done|]. intros x [? ?]. split; [done|by right]. }
  destruct (next <=? now) eqn:En; zbool.
  - destruct (IH (now + maxDuration (10 * Millisecond) (Z.quot duration 20)) s1 Hp Hx D1 ltac:(lia))
      as (s2 & l & -> & D2 & E2 & Sp & Fl). exists s2, (now :: l). split_and!; try done; try lia.
    constructor; [split; [done|by left]|by apply W].
  - destruct (IH next s1 Hp Hx D1 ltac:(lia)) as (s2 & l & -> & D2 & E2 & Sp & Fl).
    exists s2, l. split_and!; try done; try lia. by apply W.
Qed.
End DriveOk.

(** The producer at a fixed rate.  Whatever the ticks, as long as one comes at
    the end of the duration, whatever flusher and other users do between its calls
    and whatever the pool and the ring answer, [drive] returns having made exactly
    duration * rate attempts (rounded down), each counted once as accepted, refused
    by a full ring, or other; it keeps no lease; its samples are taken during the
    run, not more often than every twentieth of the duration, and at the end. *)
Theorem drive_accounts moments rate duration ticks finish a :
  (∀ i, calm_moment (moments i)) → 0 <= rate → 0 <= duration → duration * rate < 2 ^ 64 →
  Forall (λ t, 0 <= t) ticks → Exists (λ t, duration <= t) ticks → appender_ok a →
  ∃ a' p sampled, drive moments rate duration ticks finish a = Some (a', p, sampled ++ [finish]) ∧
    p_attempts p = duration * rate / Second ∧ p_attempts p = p_accepted p + p_full p + p_other p ∧
    appender_ok a' ∧ settled (length (handles a)) a' ∧
    spaced duration 0 sampled ∧ Forall (λ t, t < duration ∧ t ∈ ticks) sampled.
Proof.
  intros Hm Hr Hd Hf Hp Hx A. unfold drive.
  assert (D : drive_ok (length (handles a)) (a, no_phase)).
  { split_and!; try done. intros n l Hn E. apply lookup_lt_Some in E. cbn in *. lia. }
  pose proof (target_bound rate duration Hr Hf duration ltac:(lia)) as Ht.
  destruct (drive_loop_ok moments rate duration _ Hm Hr Hf ticks 0 (a, no_phase) Hp Hx D) as (s1 & l & -> & D1 & E1 & Sp & Fl);
    [cbn; lia|]. cbn.
  destruct (catch_up_ok moments _ Hm (target rate duration) (catch_up_fuel (target rate duration)) s1 D1 ltac:(lia)
    ltac:(unfold catch_up_fuel; cbn in E1; lia)) as ([a2 p2] & -> & (A2 & _ & S2 & P2 & _) & E2). cbn in *.
  eexists a2, _, l. split; [done|]. cbn. pose proof (target_small rate duration Hr Hf duration ltac:(lia)) as Ts.
  split_and!; try done; lia.
Qed.

(** ** runPhase *)

(** The program points of a worker: before an event, with the lease of the event
    in hand before [TryPublishLease], returned. *)
Inductive worker_pc := WEvent (iteration : Z) | WTry (iteration : Z) (n : nat) | WDone.
Record worker := mkWorker { wk_pc : worker_pc; wk_phase : phase }.

(** What a step sees: whether the deadline has passed, how long the call took, the
    pool's environment, the time of a release. *)
Record look := mkLook { o_late : bool; o_took : Z; o_env : env; o_now : Z }.

(** The condition under which an accepted event is timed. *)
Definition timed (collect : bool) (p : phase) : bool :=
  collect && (len (p_samples p) <? 32768) && ((p_accepted p <=? 512) || (p_accepted p mod 32 =? 0)).

Definition count_other (p : phase) : phase := p <| p_attempts ::= inc |> <| p_other ::= inc |>.

(** The iteration up to the lease's [Commit]; [copy] stores what fits. *)
Definition worker_event (o : look) (iteration : Z) (a : Appender) (p : phase) : Appender * worker :=
  if (Z.land iteration 255 =? 0) && o_late o then (a, mkWorker WDone p)
  else
    let next := u64 (iteration + 1) in
    match AcquireFor InfoLevel payloadSize (o_env o) a with
    | (a, Err _) => (a, mkWorker (WEvent next) (count_other p))
    | (a, Ok n) =>
        match Lease_Buffer (Some n) a with
        | Err _ => ((Lease_Release (Some n) (o_now o) a).1, mkWorker (WEvent next) (count_other p))
        | Ok buffer =>
            let a := store_buffer n (take (length buffer) payload) a in
            ((Lease_Commit (Some n) payloadSize a).1, mkWorker (WTry iteration n) p)
        end
    end.

(** One turn of the inner loop. *)
Definition worker_try (collect : bool) (o : look) (iteration : Z) (n : nat) (a : Appender) (p : phase)
  : Appender * worker :=
  let next := u64 (iteration + 1) in
  let '(a, outcome) := TryPublishLease InfoLevel (Some n) a in
  let p := p <| p_attempts ::= inc |> in
  let release a := (Lease_Release (Some n) (o_now o) a).1 in
  match outcome with
  | Accepted =>
      let p := p <| p_accepted ::= inc |> in
      (a, mkWorker (WEvent next) (if timed collect p then p <| p_samples ::= λ l, l ++ [o_took o] |> else p))
  | QueueFull =>
      let p := p <| p_full ::= inc |> in
      if o_late o then (release a, mkWorker WDone p) else (a, mkWorker (WTry iteration n) p)
  | _ => (release a, mkWorker (WEvent next) (p <| p_other ::= inc |>))
  end.

Definition worker_step (collect : bool) (o : look) (a : Appender) (w : worker) : Appender * worker :=
  match wk_pc w with
  | WEvent iteration => worker_event o iteration a (wk_phase w)
  | WTry iteration n => worker_try collect o iteration n a (wk_phase w)
  | WDone => (a, w)
  end.

(** The workers and the other users of the appender, interleaved. *)
Record phase_sys := mkPhaseSys { ps_app : Appender; ps_workers : list worker }.

Inductive phase_step (collect : bool) : phase_sys → phase_sys → Prop :=
| phase_worker i w o s a' w' :
    ps_workers s !! i = Some w → worker_step collect o (ps_app s) w = (a', w') →
    phase_step collect s (mkPhaseSys a' (<[i := w']> (ps_workers s)))
| phase_others f s : harmless f → phase_step collect s (mkPhaseSys (f (ps_app s)) (ps_workers s)).

Definition phase_start (a : Appender) (s : phase_sys) : Prop :=
  s = mkPhaseSys a (replicate producers (mkWorker (WEvent 0) no_phase)).
Definition phase_reach (collect : bool) (a : Appender) : phase_sys → Prop := reach (phase_start a) (phase_step collect).

(** The sum over the workers. *)
Definition combine (elapsed : Z) (ws : list worker) : phase :=
  foldl (λ c w, mkPhase (u64 (p_attempts c + p_attempts (wk_phase w))) (u64 (p_accepted c + p_accepted (wk_phase w)))
                  (u64 (p_full c + p_full (wk_phase w))) (u64 (p_other c + p_other (wk_phase w))) (p_elapsed c)
                  (p_samples c ++ p_samples (wk_phase w)))
    (mkPhase 0 0 0 0 elapsed []) ws.

(** The counters add up, modulo their width. *)
Definition counted_once (p : phase) : Prop := u64 (p_attempts p) = u64 (p_accepted p + p_full p + p_other p).

Definition worker_counts (w : worker) : Prop :=
  counted_once (wk_phase w) ∧ len (p_samples (wk_phase w)) <= 32768.

(** Every handle from the [k]-th on is done with, or in the hand of one worker. *)
Record phase_inv (k : nat) (s : phase_sys) : Prop := mkPhaseInv {
  pi_ok : appender_ok (ps_app s);
  pi_len : (k <= length (handles (ps_app s)))%nat;
  pi_held : ∀ n l, (k <= n)%nat → handles (ps_app s) !! n = Some l →
    transferred l = true ∨ released l = true ∨ ∃ i it p, ps_workers s !! i = Some (mkWorker (WTry it n) p);
  pi_mine : ∀ i it n p, ps_workers s !! i = Some (mkWorker (WTry it n) p) →
    (k <= n)%nat ∧ ∃ l, handles (ps_app s) !! n = Some l ∧ transferred l = false ∧ released l = false;
  pi_apart : ∀ i j it jt n p q, ps_workers s !! i = Some (mkWorker (WTry it n) p) →
    ps_workers s !! j = Some (mkWorker (WTry jt n) q) → i = j;
  pi_counts : Forall worker_counts (ps_workers s)
}.

(** A worker goes on without a change to the handles, with what it had in hand. *)
Lemma phase_same k s i w w' a' :
  phase_inv k s → ps_workers s !! i = Some w → appender_ok a' → handles a' = handles (ps_app s) →
  (∀ it n, wk_pc w = WTry it n → wk_pc w' = WTry it n) → (∀ it n, wk_pc w' = WTry it n → wk_pc w = WTry it n) →
  worker_counts w' → phase_inv k (mkPhaseSys a' (<[i := w']> (ps_workers s))).
Proof.
  intros [O Ln H M Ap C] Ei A' E F B Cw. assert (Li := lookup_lt_Some _ _ _ Ei).
  assert (Back : ∀ j it n p, <[i := w']> (ps_workers s) !! j = Some (mkWorker (WTry it n) p) →
    ∃ p', ps_workers s !! j = Some (mkWorker (WTry it n) p')).
  { intros j it n p [(<- & Ew & _)|[_ X]]%list_lookup_insert_Some; [|eauto].
    exists (wk_phase w). rewrite Ei. f_equal. destruct w. cbn in *. f_equal. apply B. by rewrite Ew. }
  split; cbn; rewrite ?E; try done.
  - intros n l Hn Hl. destruct (H n l Hn Hl) as [X|[X|(j & it & p & X)]]; [auto..|]. do 2 right.
    destruct (decide (j = i)) as [->|Ne]; [|exists j, it, p; by rewrite list_lookup_insert_ne].
    exists i, it, (wk_phase w'). rewrite list_lookup_insert_eq by done. rewrite X in Ei. injection Ei as <-.
    destruct w'. cbn in *. by rewrite (F it n eq_refl).
  - intros j it n p (p' & X)%Back. by eapply M.
  - intros j1 j2 it1 it2 n p q (p' & X)%Back (q' & Y)%Back. by eapply Ap.
  - by apply Forall_insert.
Qed.

(** A worker gets its lease. *)
Lemma phase_gets k s i it p a' l :
  phase_inv k s → ps_workers s !! i = Some (mkWorker (WEvent it) p) → appender_ok a' →
  handles a' = handles (ps_app s) ++ [l] → transferred l = false → released l = false →
  phase_inv k (mkPhaseSys a' (<[i := mkWorker (WTry it (length (handles (ps_app s)))) p]> (ps_workers s))).
Proof.
  intros [O Ln H M Ap C] Ei A' E T R. assert (Li := lookup_lt_Some _ _ _ Ei).
  set (n0 := length (handles (ps_app s))) in *.
  assert (New : ∀ j it' n p', <[i := mkWorker (WTry it n0) p]> (ps_workers s) !! j = Some (mkWorker (WTry it' n) p') →
    (j = i ∧ n = n0) ∨ (j ≠ i ∧ ps_workers s !! j = Some (mkWorker (WTry it' n) p') ∧ (n < n0)%nat)).
  { intros j it' n p' [(<- & [= <- <- <-] & _)|[Hne X]]%list_lookup_insert_Some; [by left|]. right. split; [done|].
    split; [done|]. destruct (M _ _ _ _ X) as [_ (l' & Hl' & _)]. by eapply lookup_lt_Some. }
  split; cbn; try done.
  - rewrite E, length_app. lia.
  - rewrite E. intros n l' Hn [X|[Ge X]]%lookup_app_Some.
    + destruct (H n l' Hn X) as [?|[?|(j & it' & p' & Y)]]; [auto..|]. do 2 right. exists j, it', p'.
      rewrite list_lookup_insert_ne; [done|]. intros <-. by rewrite Ei in Y.
    + apply list_lookup_singleton_Some in X as [X <-]. do 2 right. exists i, it, p.
      rewrite list_lookup_insert_eq by done. do 3 f_equal. unfold n0. lia.
  - rewrite E. intros j it' n p' [[-> ->]|(Ne & X & Lt)]%New.
    + split; [done|]. exists l. split; [by apply list_lookup_middle|done].
    + destruct (M _ _ _ _ X) as [Hk (l' & Hl' & TR)]. split; [done|]. exists l'. split; [by apply lookup_app_l_Some|done].
  - intros j1 j2 it1 it2 n p1 p2 [[-> ->]|(Ne & X & Lt)]%New [[-> E2]|(Ne' & Y & Lt')]%New; [done|lia|lia|by eapply Ap].
  - apply Forall_insert; [done|]. by apply (Forall_lookup_1 _ _ _ _ C Ei).
Qed.

(** A worker gives its lease away. *)
Lemma phase_frees k s i it n p a' l l' w' :
  phase_inv k s → ps_workers s !! i = Some (mkWorker (WTry it n) p) → appender_ok a' →
  handles (ps_app s) !! n = Some l → handles a' = <[n := l']> (handles (ps_app s)) →
  transferred l' = true ∨ released l' = true → (∀ it' n', wk_pc w' ≠ WTry it' n') → worker_counts w' →
  phase_inv k (mkPhaseSys a' (<[i := w']> (ps_workers s))).
Proof.
  intros [O Ln H M Ap C] Ei A' El E Fr Nt Cw.
  assert (Old : ∀ j it' n' p', <[i := w']> (ps_workers s) !! j = Some (mkWorker (WTry it' n') p') →
    ps_workers s !! j = Some (mkWorker (WTry it' n') p') ∧ n' ≠ n).
  { intros j it' n' p' [(<- & -> & _)|[Hne X]]%list_lookup_insert_Some; [by destruct (Nt it' n')|].
    split; [done|]. intros ->. by pose proof (Ap _ _ _ _ _ _ _ Ei X). }
  split; cbn; rewrite ?E; try done.
  - by rewrite length_insert.
  - intros m lm Hm [(<- & <- & _)|[Hne X]]%list_lookup_insert_Some; [destruct Fr; auto|].
    destruct (H m lm Hm X) as [?|[?|(j & it' & p' & Y)]]; [auto..|]. do 2 right. exists j, it', p'.
    rewrite list_lookup_insert_ne; [done|]. intros <-. rewrite Ei in Y. by injection Y.
  - intros j it' n' p' [X Ne]%Old. destruct (M _ _ _ _ X) as [Hk (lm & Hl & TR)]. split; [done|].
    exists lm. by rewrite list_lookup_insert_ne.
  - intros j1 j2 it1 it2 m p1 p2 [X _]%Old [Y _]%Old. by eapply Ap.
  - by apply Forall_insert.
Qed.

Lemma inc_sum x y z : u64 x = u64 y → u64 z = u64 (y + 1) → u64 (inc x) = u64 z.
Proof. intros E ->. rewrite u64_inc, <- u64_add_l, E, u64_add_l. done. Qed.

Lemma u64_inc_r x y : u64 (x + inc y) = u64 (x + y + 1).
Proof. rewrite Z.add_comm, u64_inc_l. f_equal. lia. Qed.

Lemma counts_other p : counted_once p → counted_once (count_other p).
Proof. intros E. eapply inc_sum; [exact E|]. cbn. by rewrite u64_inc_r. Qed.

Lemma counts_full p : counted_once p → counted_once (p <| p_attempts ::= inc |> <| p_full ::= inc |>).
Proof. intros E. eapply inc_sum; [exact E|]. cbn. rewrite Z.add_shuffle0, u64_inc_r. f_equal. lia. Qed.

Lemma counts_accepted p : counted_once p → counted_once (p <| p_attempts ::= inc |> <| p_accepted ::= inc |>).
Proof. intros E. eapply inc_sum; [exact E|]. cbn. rewrite <- Z.add_assoc, u64_inc_l. f_equal. lia. Qed.

(** ** Every step of a worker *)

Lemma event_ok k o s i it p a' w' :
  phase_inv k s → ps_workers s !! i = Some (mkWorker (WEvent it) p) → worker_event o it (ps_app s) p = (a', w') →
  phase_inv k (mkPhaseSys a' (<[i := w']> (ps_workers s))).
Proof.
  intros I Ei. pose proof (Forall_lookup_1 _ _ _ _ (pi_counts _ _ I) Ei) as [Cp Sp]. cbn in Cp, Sp. unfold worker_event.
  destruct (_ && _). { intros [= <- <-]. by eapply phase_same; [..|split]; [|exact Ei|apply I|..]. }
  unfold AcquireFor. change (negb (Level_valid InfoLevel)) with false. cbv iota.
  pose proof (ok_acquire payloadSize (Some InfoLevel) (o_env o) _ (pi_ok _ _ I)) as A1.
  pose proof (acquire_appends payloadSize (Some InfoLevel) (o_env o) (ps_app s)) as X.
  pose proof (acquired_buffer payloadSize (Some InfoLevel) (o_env o) (ps_app s)) as B.
  destruct (acquire payloadSize (Some InfoLevel) (o_env o) (ps_app s)) as [a1 [n|err]]; cbn [fst] in A1.
  - destruct X as (-> & l & E1 & T & R). destruct (B a1 _ (pi_ok _ _ I) eq_refl) as (b & -> & _). intros [= <- <-].
    assert (E : handles a1 !! length (handles (ps_app s)) = Some l) by (rewrite E1; by apply list_lookup_middle).
    destruct (ok_store_buffer _ (take (length b) payload) l a1 A1 E T R) as (A2 & E2 & _).
    eapply (phase_gets k s i it p _ l); [done|done|by apply ok_Lease_Commit| |done|done].
    by rewrite Commit_handles, E2.
  - intros [= <- <-]. eapply phase_same; [exact I|exact Ei|exact A1|exact X|done|done|].
    split; [by apply counts_other|done].
Qed.

Lemma try_ok collect k o s i it n p a' w' :
  phase_inv k s → ps_workers s !! i = Some (mkWorker (WTry it n) p) → worker_try collect o it n (ps_app s) p = (a', w') →
  phase_inv k (mkPhaseSys a' (<[i := w']> (ps_workers s))).
Proof.
  intros I Ei. pose proof (Forall_lookup_1 _ _ _ _ (pi_counts _ _ I) Ei) as [Cp Sp]. cbn in Cp, Sp. unfold worker_try.
  destruct (pi_mine _ _ I _ _ _ _ Ei) as (_ & l & El & T & R).
  pose proof (ok_TryPublishLease InfoLevel (Some n) _ (pi_ok _ _ I) ltac:(done)) as A1.
  pose proof (TryPublishLease_published InfoLevel (Some n) _ (pi_ok _ _ I)) as Pub.
  destruct (TryPublishLease InfoLevel (Some n) (ps_app s)) as [a1 r]. cbn [fst snd] in *.
  destruct Pub as [m l0 [= <-] El0 _ _ _ _ Eh _|r Hr _ Eh _].
  - intros [= <- <-]. eapply (phase_frees k s i it n p a1 l0); [done|done|done|done|exact Eh|by left|done|].
    split; cbn; [by destruct (timed _ _); apply counts_accepted|].
    destruct (timed _ _) eqn:Ti; cbn; [|done]. unfold timed in Ti. cbn in Ti. zbool; rewrite length_app; cbn; lia.
  - assert (Rel : handles (Lease_Release (Some n) (o_now o) a1).1 = <[n := l <| released := true |>]> (handles (ps_app s))).
    { rewrite <- Eh. apply Release_usable; [done|by rewrite Eh|done|done]. }
    assert (Free : ∀ w, (∀ it' n', wk_pc w ≠ WTry it' n') → worker_counts w →
      phase_inv k (mkPhaseSys (Lease_Release (Some n) (o_now o) a1).1 (<[i := w]> (ps_workers s)))).
    { intros w Nt Cw. eapply (phase_frees k s i it n p _ l); [done|done|by apply ok_Lease_Release|done|exact Rel|by right|done|done]. }
    assert (Co := counts_other p Cp). assert (Cf := counts_full p Cp).
    destruct r; [done| |by intros [= <- <-]; apply Free; [done|split]..].
    destruct (o_late o); intros [= <- <-]; [by apply Free; [done|split]|].
    by eapply phase_same; [exact I|exact Ei|..|split].
Qed.

Lemma phase_inv_step collect k s s' : phase_step collect s s' → phase_inv k s → phase_inv k s'.
Proof.
  intros [i w o s0 a' w' Ei St|f s0 F] I.
  - destruct w as [[it|it n|] p]; unfold worker_step in St; cbn in St.
    + by eapply event_ok.
    + by eapply try_ok.
    + injection St as <- <-. rewrite list_insert_id by done. by destruct s0.
  - destruct (F _ (pi_ok _ _ I)) as [A E]. destruct I as [O Ln H M Ap C]. split; cbn; rewrite ?E; done.
Qed.

Lemma u64_congr x y : u64 x = u64 y ↔ ∃ q, x = y + q * 2 ^ 64.
Proof.
  unfold u64. split.
  - intros E. exists (x / 2 ^ 64 - y / 2 ^ 64). pose proof (Z.div_mod x (2 ^ 64)). pose proof (Z.div_mod y (2 ^ 64)). lia.
  - intros [q ->]. by rewrite Z.mod_add.
Qed.

Lemma combine_counts elapsed ws :
  Forall worker_counts ws → counted_once (combine elapsed ws) ∧
  len (p_samples (combine elapsed ws)) <= 32768 * len ws.
Proof.
  unfold combine. intros F. pattern ws. revert F. induction ws as [|w ws IH] using rev_ind; [split; [done|cbn; lia]|].
  rewrite Forall_app, Forall_singleton. intros [F [C S]]. destruct (IH F) as [C0 S0]. rewrite foldl_app.
  set (c := foldl _ _ ws) in *. clearbody c. cbn [foldl]. unfold counted_once in *. cbn. split.
  - apply u64_congr in C0 as [q0 C0], C as [q1 C].
    destruct (proj1 (u64_congr _ _) (u64_idem (p_attempts c + p_attempts (wk_phase w)))) as [q2 E2].
    destruct (proj1 (u64_congr _ _) (u64_idem (p_accepted c + p_accepted (wk_phase w)))) as [q3 E3].
    destruct (proj1 (u64_congr _ _) (u64_idem (p_full c + p_full (wk_phase w)))) as [q4 E4].
    destruct (proj1 (u64_congr _ _) (u64_idem (p_other c + p_other (wk_phase w)))) as [q5 E5].
    apply u64_congr. exists (q0 + q1 + q2 - q3 - q4 - q5). lia.
  - rewrite !length_app. cbn. lia.
Qed.

(** ** The workers end *)

(** Events until the next look at the clock. *)
Definition to_check (iteration : Z) : Z := (- iteration) mod 256.

Definition worker_rank (w : worker) : Z :=
  match wk_pc w with
  | WEvent it => 2 * to_check it + 1
  | WTry it _ => 2 * to_check (u64 (it + 1)) + 2
  | WDone => 0
  end.

Lemma to_check_next it : Z.land it 255 ≠ 0 → to_check (u64 (it + 1)) = to_check it - 1.
Proof.
  change 255 with (Z.ones 8). rewrite Z.land_ones by lia. unfold to_check, u64. intros H.
  pose proof (Z.mod_eq (it + 1) (2 ^ 64) ltac:(lia)) as E. rewrite E. clear E.
  set (q := (it + 1) / 2 ^ 64). change (2 ^ 8) with 256 in H.
  replace (- (it + 1 - 2 ^ 64 * q)) with (- it - 1 + (2 ^ 56 * q) * 256) by lia.
  rewrite Z.mod_add by lia. pose proof (Z.mod_pos_bound (- it) 256).
  assert (H' : (- it) mod 256 ≠ 0).
  { intros Z0. apply H. apply Z.mod_opp_l_z in Z0; [|lia]. by rewrite Z.opp_involutive in Z0. }
  rewrite <- (Z.mod_small ((- it) mod 256 - 1) 256) by lia. by rewrite Zminus_mod_idemp_l.
Qed.

Lemma to_check_range it : 0 <= to_check it <= 255.
Proof. unfold to_check. pose proof (Z.mod_pos_bound (- it) 256). lia. Qed.

(** After the deadline every step brings a worker nearer to its return. *)
Lemma worker_descends collect o a w :
  o_late o = true → wk_pc w ≠ WDone → worker_rank (worker_step collect o a w).2 < worker_rank w.
Proof.
  intros L Nd. destruct w as [[it|it n|] p]; unfold worker_step, worker_rank; cbn; [..|done].
  - pose proof (to_check_range it). unfold worker_event. rewrite L, andb_true_r.
    destruct (_ =? 0) eqn:E; [cbn; lia|]. zbool. apply to_check_next in E.
    destruct (AcquireFor _ _ _ _) as [a1 [n|err]]; [destruct (Lease_Buffer _ _)|]; cbn; lia.
  - pose proof (to_check_range (u64 (it + 1))). unfold worker_try.
    destruct (TryPublishLease _ _ _) as [a1 r]. rewrite L. destruct r; cbn; lia.
Qed.

(** A worker's turns, whatever the appender looks like at each of them. *)
Definition worker_turns (collect : bool) (turns : list (Appender * look)) (w : worker) : worker :=
  foldl (λ w t, (worker_step collect t.2 t.1 w).2) w turns.

Lemma worker_turns_done collect turns p : worker_turns collect turns (mkWorker WDone p) = mkWorker WDone p.
Proof. unfold worker_turns. induction turns; [done|]. done. Qed.

Lemma worker_rank_range w : 0 <= worker_rank w <= 512.
Proof. unfold worker_rank. destruct (wk_pc w); [pose proof (to_check_range iteration)|pose proof (to_check_range (u64 (iteration + 1)))|]; lia. Qed.

Lemma worker_ends collect turns : ∀ w,
  Forall (λ t, o_late t.2 = true) turns → worker_rank w <= len turns → wk_pc (worker_turns collect turns w) = WDone.
Proof.
  induction turns as [|[a o] turns IH]; intros w F L.
  - pose proof (to_check_range 0). destruct w as [[it|it n|] p]; unfold worker_rank in L; cbn in L |- *; [..|done].
    + pose proof (to_check_range it). lia.
    + pose proof (to_check_range (u64 (it + 1))). lia.
  - apply Forall_cons in F as [Lo F]. cbn [worker_turns foldl].
    destruct (wk_pc w) eqn:E.
    3:{ destruct w as [pc p]. cbn in E. subst pc. change (wk_pc (worker_turns collect turns (mkWorker WDone p)) = WDone). by rewrite worker_turns_done. }
    all: apply IH; [done|]; pose proof (worker_descends collect o a w Lo ltac:(by rewrite E)); cbn in *; lia.
Qed.

(** The workers of a phase.  In every interleaving of the 32 workers and the
    other users of their appender (its flusher): each worker's attempts are its
    accepted, refused and other events, and so are the sums (modulo the width of
    the counters), and no worker keeps more than 32768 samples; every lease acquired
    since the start was published, given back, or is in the hand of exactly one
    worker, and when all have returned none is left.  Once the deadline has passed
    a worker returns within 512 of its steps. *)
Theorem phase_accounts collect a s elapsed :
  appender_ok a → phase_reach collect a s →
  Forall (λ w, counted_once (wk_phase w) ∧ len (p_samples (wk_phase w)) <= 32768) (ps_workers s) ∧
  counted_once (combine elapsed (ps_workers s)) ∧ appender_ok (ps_app s) ∧
  (∀ n l, (length (handles a) <= n)%nat → handles (ps_app s) !! n = Some l →
     transferred l = true ∨ released l = true ∨
     ∃ i it p, ps_workers s !! i = Some (mkWorker (WTry it n) p) ∧
       ∀ j jt q, ps_workers s !! j = Some (mkWorker (WTry jt n) q) → j = i) ∧
  (Forall (λ w, wk_pc w = WDone) (ps_workers s) → settled (length (handles a)) (ps_app s)) ∧
  (∀ turns w, w ∈ ps_workers s → Forall (λ t, o_late t.2 = true) turns → 512 <= len turns →
     wk_pc (worker_turns collect turns w) = WDone).
Proof.
  intros A R. assert (I : phase_inv (length (handles a)) s).
  { revert s R. apply reach_invariant; [|by intros s s' _ Is St; eapply phase_inv_step].
    intros s ->. split; cbn -[replicate]; try done.
    - intros n l Hn E. apply lookup_lt_Some in E. lia.
    - by intros i it n p [X _]%lookup_replicate.
    - by intros i j it jt n p q [X _]%lookup_replicate.
    - apply Forall_replicate. by split. }
  destruct (combine_counts elapsed _ (pi_counts _ _ I)) as [Cc _]. split_and!; try apply I; try done.
  - intros n l Hn E. destruct (pi_held _ _ I n l Hn E) as [?|[?|(i & it & p & X)]]; [auto..|]. do 2 right.
    exists i, it, p. split; [done|]. intros j jt q Y. by apply (pi_apart _ _ I j i jt it n q p).
  - intros D n l Hn E. destruct (pi_held _ _ I n l Hn E) as [?|[?|(i & it & p & X)]]; [auto..|].
    pose proof (Forall_lookup_1 _ _ _ _ D X). done.
  - intros turns w _ F L. apply worker_ends; [done|]. pose proof (worker_rank_range w). lia.
Qed.

(** ** summarize *)

Record latency := mkLatency {
  l_Samples : Z; P50NS : Z; P95NS : Z; P99NS : Z; P999NS : Z; MaxNS : Z
}.

(** A decimal constant: the float64 nearest to a quotient. *)
Definition decimal (num den : Z) : float64 := float_div (float_of num) (float_of den).

(** [int(q*float64(len(values))+.999999) - 1], not below 0. *)
Definition quantile_index (q : float64) (n : Z) : Z :=
  let index := uint_of_float (float_add (float_mul q (float_of n)) (decimal 999999 1000000)) - 1 in
  if index <? 0 then 0 else index.

(** [None]: an index out of range, which panics. *)
Definition summarize (values : list Z) : option latency :=
  match values with
  | [] => Some (mkLatency 0 0 0 0 0 0)
  | _ =>
      let n := len values in
      let values := sorted values in
      let at_ q := values !! Z.to_nat (quantile_index q n) in
      p50 ← at_ (decimal 50 100); p95 ← at_ (decimal 95 100); p99 ← at_ (decimal 99 100);
      p999 ← at_ (decimal 999 1000); m ← last values;
      Some (mkLatency n p50 p95 p99 p999 m)
  end.

(** A float within 2^-52 of a number of thousandths. *)
Definition thousandths (q : float64) (num : Z) : Prop :=
  ∃ m e, q = S754_finite false m e ∧ -60 <= e ∧ Z.abs (Zpos m * 2 ^ (e + 200) * 1000 - num * 2 ^ 200) <= 2 ^ 157.

Lemma decimals_ok :
  thousandths (decimal 50 100) 500 ∧ thousandths (decimal 95 100) 950 ∧
  thousandths (decimal 99 100) 990 ∧ thousandths (decimal 999 1000) 999.
Proof. split_and!; eexists _, _; (split; [vm_compute; reflexivity|]; split; [lia|]; vm_compute; congruence). Qed.

Lemma round_up_ok : ∃ m e, decimal 999999 1000000 = S754_finite false m e ∧ -60 <= e ∧
  Z.abs (Zpos m * 2 ^ (e + 200) * 1000000 - 999999 * 2 ^ 200) <= 2 ^ 170.
Proof. eexists _, _. split; [vm_compute; reflexivity|]. split; [lia|]. vm_compute. congruence. Qed.

(** The index is that of the nearest rank, for as many samples as the workers keep. *)
Lemma quantile_rank q num n :
  thousandths q num → 0 < num < 1000 → 0 < n <= 2 ^ 20 → quantile_index q n = (num * n + 999) / 1000 - 1.
Proof.
  intros (mq & eq & -> & Heq & Hq) Hnum Hn. unfold quantile_index.
  destruct (float_of_value n Hn) as (mn & en & -> & Vn & Hen). destruct round_up_ok as (mc & ec & -> & Hec & Hc).
  assert (Pq : 0 < Zpos mq * 2 ^ (eq + 200)) by (apply Z.mul_pos_pos; lia).
  set (vq := Zpos mq * 2 ^ (eq + 200)) in *. set (vc := Zpos mc * 2 ^ (ec + 200)) in *.
  assert (Y : Z.abs (vq * n * 1000 - num * n * 2 ^ 200) <= 2 ^ 177).
  { replace (vq * n * 1000 - num * n * 2 ^ 200) with ((vq * 1000 - num * 2 ^ 200) * n) by ring.
    rewrite Z.abs_mul, (Z.abs_eq n) by lia. change (2 ^ 177) with (2 ^ 157 * 2 ^ 20). apply Z.mul_le_mono_nonneg; lia. }
  assert (Bz : 1 * n <= num * n <= 999 * 2 ^ 20) by (split; [apply Z.mul_le_mono_nonneg_r|apply Z.mul_le_mono_nonneg]; lia).
  pose proof (float_mul_value mq eq mn en ltac:(lia) ltac:(lia)) as M. fold vq in M. rewrite Vn in M.
  rewrite Z.mul_assoc in M. rewrite Z.div_mul in M by lia.
  set (z := num * n) in *. set (y := vq * n) in *. clearbody z y vq.
  destruct M as (m1 & e1 & -> & He1 & M).
  { change (2 ^ 420) with (2 ^ 220 * 2 ^ 200). apply Z.mul_lt_mono_pos_r; [lia|].
    change (2 ^ 220) with (2 ^ 20 * 2 ^ 200). lia. }
  pose proof (float_add_value m1 e1 mc ec ltac:(lia) ltac:(lia)) as A. fold vc in A.
  set (v1 := Zpos m1 * 2 ^ (e1 + 200)) in *. clearbody v1 vc.
  assert (S1 : v1 + vc < 2 ^ 220) by lia. assert (S2 : 2 ^ 160 <= v1 + vc) by lia.
  pose proof (uint_of_near _ _ _ (A S1 S2) ltac:(lia)) as U. clear A.
  set (r := uint_of_float _) in *. clearbody r.
  assert (Hr : r = (z + 999) / 1000).
  { pose proof (Z.div_mod (z + 999) 1000 ltac:(lia)) as D. pose proof (Z.mod_pos_bound (z + 999) 1000 ltac:(lia)).
    set (c := (z + 999) / 1000) in *.
    assert (c <= (v1 + vc - 2 ^ 168) / 2 ^ 200) by (apply Z.div_le_lower_bound; lia).
    assert ((v1 + vc + 2 ^ 168) / 2 ^ 200 < c + 1) by (apply Z.div_lt_upper_bound; lia). lia. }
  subst r. destruct (_ <? 0) eqn:E; zbool; [|done].
  assert (1 <= (z + 999) / 1000) by (apply Z.div_le_lower_bound; lia). lia.
Qed.

(** What a percentile is: a value with at least [num] thousandths of the samples at
    or below it, and less than that below it. *)
Definition percentile (num : Z) (values : list Z) (v : Z) : Prop :=
  v ∈ values ∧ num * len values <= 1000 * Z.of_nat (at_most v values) ∧
  1000 * Z.of_nat (below v values) < num * len values.

Lemma quantile_at q num values :
  thousandths q num → 0 < num < 1000 → values ≠ [] → len values <= 2 ^ 20 →
  ∃ v, sorted values !! Z.to_nat (quantile_index q (len values)) = Some v ∧ percentile num values v.
Proof.
  intros Hq Hnum Hv Hl. assert (Hn : 0 < len values) by (destruct values; [done|cbn; lia]).
  rewrite (quantile_rank q num) by (done || lia). set (n := len values) in *.
  pose proof (Z.div_mod (num * n + 999) 1000 ltac:(lia)) as D. pose proof (Z.mod_pos_bound (num * n + 999) 1000 ltac:(lia)).
  set (c := (num * n + 999) / 1000) in *. assert (num * n <= 999 * n /\ n <= num * n) by (split; nia).
  assert (Hi : (Z.to_nat (c - 1) < length (sorted values))%nat) by (rewrite length_sorted; lia).
  destruct (lookup_lt_is_Some_2 _ _ Hi) as [v E]. exists v. split; [exact E|].
  destruct (sorted_rank _ _ _ (sorted_Sorted values) E) as [R1 R2]. unfold at_most, below in R1, R2.
  rewrite (count_Permutation _ _ _ (sorted_Permutation values)) in R1.
  rewrite (count_Permutation _ _ _ (sorted_Permutation values)) in R2. split_and!.
  - rewrite <- (sorted_Permutation values). by eapply list_elem_of_lookup_2.
  - fold n. unfold at_most. lia.
  - fold n. unfold below. lia.
Qed.

(** C38. The percentiles.  For up to 2^20 samples, which is as many as the 32 workers
    keep, [summarize] does not index out of range, whatever the rounding of its
    float64 arithmetic, and each percentile it reports is the nearest rank: a sample
    with at least that share of the samples at or below it and less below it; the
    maximum is a sample none exceeds. *)
Theorem summarize_ranks values :
  values ≠ [] → len values <= 2 ^ 20 →
  ∃ l, summarize values = Some l ∧ l_Samples l = len values ∧
    percentile 500 values (P50NS l) ∧ percentile 950 values (P95NS l) ∧
    percentile 990 values (P99NS l) ∧ percentile 999 values (P999NS l) ∧
    MaxNS l ∈ values ∧ Forall (λ v, v <= MaxNS l) values.
Proof.
  intros Hv Hl. destruct decimals_ok as (D1 & D2 & D3 & D4).
  destruct (quantile_at _ _ values D1 ltac:(lia) Hv Hl) as (p50 & E1 & P1).
  destruct (quantile_at _ _ values D2 ltac:(lia) Hv Hl) as (p95 & E2 & P2).
  destruct (quantile_at _ _ values D3 ltac:(lia) Hv Hl) as (p99 & E3 & P3).
  destruct (quantile_at _ _ values D4 ltac:(lia) Hv Hl) as (p999 & E4 & P4).
  assert (Ls : sorted values ≠ []) by (intros E; apply Hv; apply length_zero_iff_nil; by rewrite <- length_sorted, E).
  destruct (exists_last Ls) as (front & m & Em). assert (El : last (sorted values) = Some m) by (rewrite Em; apply last_snoc).
  exists (mkLatency (len values) p50 p95 p99 p999 m). split.
  { unfold summarize. destruct values as [|v0 vs] eqn:Ev; [done|]. rewrite <- Ev in *. cbv zeta. rewrite E1. cbn [mbind option_bind]. rewrite E2. cbn [mbind option_bind]. rewrite E3. cbn [mbind option_bind].
  rewrite E4. cbn [mbind option_bind]. by rewrite El. }
  cbn [l_Samples P50NS P95NS P99NS P999NS MaxNS].
  assert (X : ∀ x, x ∈ values ↔ x ∈ front ++ [m]) by (intros x; by rewrite <- Em, (sorted_Permutation values)).
  split; [reflexivity|]. split; [exact P1|]. split; [exact P2|]. split; [exact P3|]. split; [exact P4|].
  split; [apply X, elem_of_app; right; by apply list_elem_of_singleton|]. apply Forall_forall. intros x Hx%X.
  pose proof (sorted_Sorted values) as S. rewrite Em in S. apply StronglySorted_app in S as (S & _ & _).
  apply elem_of_app in Hx as [Hx|Hx%list_elem_of_singleton]; [|lia]. apply S; [done|by apply list_elem_of_singleton].
Qed.

(** ** The gates *)

(** [waitDrain]: the times of its looks and what [Stats] answers; [None]: it goes
    on looking. *)
Definition drained (stats : Appender.Stats) : bool :=
  (Ring.Depth (st_Ring stats) =? 0) && (Flusher.InFlight (st_Flusher stats) =? 0) &&
  (st_Accepted stats =? Flusher.Records (st_Flusher stats)).

Fixpoint waitDrain (deadline : Z) (looks : list (Z * Appender.Stats)) : option bool :=
  match looks with
  | [] => None
  | (now, stats) :: looks =>
      if now <? deadline then if drained stats then Some true else waitDrain deadline looks else Some false
  end.

Definition float_sub : float64 → float64 → float64 := SFsub 53 1024.
Definition float_leb : float64 → float64 → bool := SFleb.
Definition float_zero (f : float64) : bool := match f with S754_zero _ => true | _ => false end.

Definition percentDrop (base current : float64) : float64 :=
  if float_zero base then S754_zero false
  else float_div (float_mul (float_sub base current) (float_of 100)) base.
Definition percentRise (base current : float64) : float64 :=
  if float_zero base then S754_zero false
  else float_div (float_mul (float_sub current base) (float_of 100)) base.

Record publishResult := mkPublishResult {
  pr_Audit : string; pr_Duration : Z; pr_Warmup : Z; pr_Attempts : Z; pr_Accepted : Z; pr_QueueFull : Z;
  pr_RejectedOther : Z; ThroughputEPS : float64; Latency : latency; pr_Outstanding : Z;
  AbsoluteGateApplicable : bool; TargetPass : bool; pr_Pass : bool
}.

(** [runPublish] after the measured phase; [closeErr] is what [Close] answered,
    [outstanding] what the pool then counts. *)
Definition publish_report (audit : string) (warmup cpus : Z) (measured : phase) (closeErr : option error)
  (outstanding : Z) : option publishResult :=
  q ← summarize (p_samples measured);
  let throughput := float_div (float_of (p_accepted measured)) (Duration_Seconds (p_elapsed measured)) in
  let applicable := bool_decide (audit = "off") && (8 <=? cpus) in
  let target := negb applicable || (float_leb (float_of 1000000) throughput && (P99NS q <=? 10000) && (P999NS q <=? 50000)) in
  let pass := bool_decide (closeErr = None) && (p_other measured =? 0) && (100 <=? l_Samples q) &&
              (outstanding =? 0) && target in
  Some (mkPublishResult audit (p_elapsed measured) warmup (p_attempts measured) (p_accepted measured) (p_full measured)
          (p_other measured) throughput q outstanding applicable target pass).

Record soakResult := mkSoakResult {
  so_Audit : string; so_Duration : Z; so_Warmup : Z; so_Rate : Z; so_Phase : phase; BaselineHeapBytes : Z;
  EndHeapBytes : Z; MaxHeapBytes : Z; HeapDriftPercent : float64; BaselineGoroutines : Z; EndGoroutines : Z;
  MaxGoroutines : Z; GoroutineDrift : Z; so_Samples : Z; so_Outstanding : Z; Drained : bool;
  ThirtyMinuteEvidence : bool; so_Pass : bool
}.

(** The largest of a baseline and the samples. *)
Definition largest (base : Z) (samples : list Z) : Z := foldl (λ m x, if x >? m then x else m) base samples.

(** [runSoak] after the run: the samples of heap and goroutines, before, during and
    at the end. *)
Definition soak_report (audit : string) (warmup duration rate : Z) (formal : phase) (base : Z * Z)
  (samples : list (Z * Z)) (end_ : Z * Z) (was_drained : bool) (closeErr : option error) (outstanding : Z) : soakResult :=
  let drift := percentRise (float_of base.1) (float_of end_.1) in
  let goDrift := end_.2 - base.2 in
  let pass := was_drained && bool_decide (closeErr = None) && (p_full formal =? 0) && (p_other formal =? 0) &&
              (outstanding =? 0) && float_leb drift (float_of 10) && (goDrift <=? 1) in
  mkSoakResult audit duration warmup rate formal base.1 end_.1 (largest base.1 (map fst samples ++ [end_.1])) drift
    base.2 end_.2 (largest base.2 (map snd samples ++ [end_.2])) goDrift (len samples) outstanding was_drained
    (30 * Minute <=? duration) pass.

(** The two modes on a new appender; what the phases, [Close], [Stats] and the
    measurements of memory and goroutines answer on it is an argument.  [None]: a
    panic of [summarize]. *)
Definition runPublish (session : Appender → phase * option error * Z) (audit : string) (warmup cpus : Z)
  : option (result publishResult) :=
  match newAppender audit with
  | Err e => Some (Err e)
  | Ok a =>
      let '(measured, closeErr, outstanding) := session a in
      r ← publish_report audit warmup cpus measured closeErr outstanding; Some (Ok r)
  end.

Record soak_session := mkSoakSession {
  ss_warm : bool; ss_formal : phase; ss_base : Z * Z; ss_samples : list (Z * Z); ss_end : Z * Z;
  ss_drained : bool; ss_close : option error; ss_outstanding : Z
}.

Definition runSoak (session : Appender → soak_session) (audit : string) (warmup duration rate : Z) : result soakResult :=
  a ← newAppender audit;
  let x := session a in
  if negb (ss_warm x) then Err (ErrNew "warmup did not drain")
  else Ok (soak_report audit warmup duration rate (ss_formal x) (ss_base x) (ss_samples x) (ss_end x) (ss_drained x)
             (ss_close x) (ss_outstanding x)).

Record options := mkOptions { Mode : string; op_Audit : string; op_Duration : Z; op_Warmup : Z; op_Rate : Z }.

Record report := mkReport {
  r_Mode : string; r_Producers : Z; Publish : list publishResult; Comparison : option (float64 * float64);
  Soak : option soakResult; r_Pass : bool
}.

Fixpoint run_modes (runPublish : string → result publishResult) (modes : list string) : result (list publishResult) :=
  match modes with
  | [] => Ok []
  | mode :: modes => r ← runPublish mode; rs ← run_modes runPublish modes; Ok (r :: rs)
  end.

(** [run], over what the runs of the modes answer. *)
Definition run (runPublish : string → result publishResult) (runSoak : string → result soakResult) (opts : options)
  : result report :=
  if (op_Duration opts <=? 0) || (op_Warmup opts <=? 0) then Err (ErrNew "duration and warmup must be positive")
  else if bool_decide (Mode opts = "publish") then
    results ← run_modes runPublish (if bool_decide (op_Audit opts = "both") then ["off"; "full"] else [op_Audit opts]);
    let comparison :=
      match results with
      | [off; full] => Some (percentDrop (ThroughputEPS off) (ThroughputEPS full),
                             percentRise (float_of (P99NS (Latency off))) (float_of (P99NS (Latency full))))
      | _ => None
      end in
    Ok (mkReport (Mode opts) (Z.of_nat producers) results comparison None
          ((0 <? len results) && forallb pr_Pass results))
  else if bool_decide (Mode opts = "soak") then
    if bool_decide (op_Audit opts = "both") || (op_Rate opts <=? 0)
    then Err (ErrNew "soak requires audit off/full and positive rate")
    else
      result ← runSoak (op_Audit opts);
      Ok (mkReport (Mode opts) 1 [] None (Some result) (so_Pass result))
  else Err (ErrNew "mode must be publish or soak").

(** A passing run lost nothing, closed cleanly and has samples behind its
    percentiles. *)
Lemma publish_gate session audit warmup cpus r :
  runPublish session audit warmup cpus = Some (Ok r) → pr_Pass r = true →
  ∃ a measured, newAppender audit = Ok a ∧ session a = (measured, None, 0) ∧ p_other measured = 0 ∧
    100 <= len (p_samples measured).
Proof.
  unfold runPublish. destruct (newAppender audit) as [a|e]; [|done]. destruct (session a) as [[m c] o] eqn:Es.
  unfold publish_report. destruct (summarize (p_samples m)) as [q|] eqn:E; [|done]. cbn [mbind option_bind].
  intros [= <-]. cbn [pr_Pass]. intros [[[[Hc Ho]%andb_true_iff Hs]%andb_true_iff Hz]%andb_true_iff _]%andb_true_iff.
  apply bool_decide_eq_true in Hc. apply Z.eqb_eq in Ho, Hz. apply Z.leb_le in Hs. subst. exists a, m. split_and!; try done.
  revert E. unfold summarize. destruct (p_samples m) as [|v vs]; [intros [= <-]; cbn in *; lia|].
  set (l := v :: vs) in *. intros E. do 5 (apply bind_Some in E as (? & _ & E)). injection E as <-. exact Hs.
Qed.

(** ** Instances *)

Definition small_app_config : Appender.Config :=
  Appender.mkConfig "perf" 0 2 2 0 0 0 0 256 [256] AuditOff 0 0 0 0 0 "" true.
Definition small_app : result Appender := Eval vm_compute in Appender.New small_app_config [].
Definition plain_moment : moment := mkMoment (λ a, a) (λ a, a) (λ a, a) (mkEnv None 5 [] 1) 5.

(** Three events a second and a ring of two: the third is refused and given back. *)
Lemma drive_accounts_witness :
  ∃ a a' p, Appender.New small_app_config [] = Ok a ∧
    (λ r, r.1.2) <$> drive (λ _, plain_moment) 1000 (3 * Millisecond) [Millisecond; 3 * Millisecond] 7 a = Some p ∧
    p = mkPhase 3 2 1 0 7 [] ∧ (∃ sampled, drive (λ _, plain_moment) 1000 (3 * Millisecond)
      [Millisecond; 3 * Millisecond] 7 a = Some (a', p, sampled)) ∧ settled 0 a'.
Proof.
  destruct (Appender.New small_app_config []) as [a|e] eqn:E; [|vm_compute in E; discriminate E].
  assert (A : appender_ok a) by (exact (ok_New _ _ _ E)).
  destruct (drive_accounts (λ _, plain_moment) 1000 (3 * Millisecond) [Millisecond; 3 * Millisecond] 7 a)
    as (a' & p & sampled & D & _ & _ & _ & St & _).
  - intros _. split; intros x X; by split.
  - lia.
  - vm_compute. congruence.
  - vm_compute. reflexivity.
  - repeat constructor; vm_compute; congruence.
  - right. left. vm_compute. congruence.
  - exact A.
  - assert (P : (λ r, r.1.2) <$> drive (λ _, plain_moment) 1000 (3 * Millisecond) [Millisecond; 3 * Millisecond] 7 a
      = Some (mkPhase 3 2 1 0 7 [])).
    { vm_compute in E. injection E as <-. vm_compute. reflexivity. }
    exists a, a', p. split; [reflexivity|]. rewrite D in P. cbn in P. injection P as ->.
    rewrite D. split; [reflexivity|]. split; [reflexivity|]. split; [by eexists|].
    vm_compute in E. injection E as <-. exact St.
Defined.

Lemma summarize_ranks_witness :
  summarize [30; 10; 20] = Some (mkLatency 3 20 30 30 30 30) ∧ percentile 500 [30; 10; 20] 20.
Proof.
  split; [vm_compute; reflexivity|].
  destruct (summarize_ranks [30; 10; 20]) as (l & E & _ & P & _); [done|vm_compute; congruence|].
  assert (l = mkLatency 3 20 30 30 30 30) as -> by (vm_compute in E; congruence). exact P.
Defined.

(** Three workers publish an event each into a ring of two, past the deadline. *)
Definition worker_turn (i : nat) (o : look) (s : phase_sys) : phase_sys :=
  match ps_workers s !! i with
  | Some w => let r := worker_step true o (ps_app s) w in mkPhaseSys r.1 (<[i := r.2]> (ps_workers s))
  | None => s
  end.
Definition early : look := mkLook false 40 (mkEnv None 5 [] 1) 5.
Definition late : look := mkLook true 40 (mkEnv None 5 [] 1) 5.
Definition three_events (a : Appender) : phase_sys :=
  let s := mkPhaseSys a (replicate producers (mkWorker (WEvent 0) no_phase)) in
  foldl (λ s t, worker_turn t.1 t.2 s) s [(0, early); (1, early); (2, early); (1, late); (0, late); (2, late)]%nat.

Lemma worker_turn_reach i o a s : phase_reach true a s → phase_reach true a (worker_turn i o s).
Proof.
  intros R. unfold worker_turn. destruct (ps_workers s !! i) as [w|] eqn:E; [|done].
  destruct (worker_step true o (ps_app s) w) as [a' w'] eqn:Ew. eapply reach_step; [exact R|]. by eapply phase_worker.
Qed.

Lemma three_events_reach a : phase_reach true a (three_events a).
Proof. unfold three_events. cbn [foldl fst snd]. do 6 apply worker_turn_reach. by apply reach_init. Qed.

Lemma phase_accounts_witness :
  ∃ a s, Appender.New small_app_config [] = Ok a ∧ s = three_events a ∧
    combine 9 (ps_workers s) = mkPhase 3 2 1 0 9 [40; 40] ∧ counted_once (combine 9 (ps_workers s)) ∧
    wk_pc <$> ps_workers s !! 2%nat = Some WDone.
Proof.
  destruct (Appender.New small_app_config []) as [a|e] eqn:E; [|vm_compute in E; discriminate E].
  exists a, (three_events a). split; [reflexivity|]. split; [reflexivity|].
  assert (C : combine 9 (ps_workers (three_events a)) = mkPhase 3 2 1 0 9 [40; 40]).
  { vm_compute in E. injection E as <-. vm_compute. reflexivity. }
  split; [exact C|]. split.
  - exact (proj1 (proj2 (phase_accounts true a (three_events a) 9 (ok_New _ _ _ E) (three_events_reach a)))).
  - vm_compute in E. injection E as <-. vm_compute. reflexivity.
Defined.
