(* ===== verification/PerfReport.v ===== *)
(** * The benchmark's verdict (cmd/perfcheck/main.go, runner.go)

    The description of the machine in the report, and [main] from the options to the
    exit status, over what the runs of the modes answer. *)

From stdpp Require Import gmap strings list fin_maps.
From Stdlib Require Import ZArith Lia.
From Stdlib.Floats Require Import SpecFloat.
From S2P Require Import Prelude GoLib GoText Appender Perf.

(** ** The machine *)

(** [strings.Split] and [strings.SplitN(line, sep, 2)] at a one-byte separator. *)
Fixpoint Split (sep : Z) (l : list Z) : list (list Z) :=
  match l with
  | [] => [[]]
  | c :: l =>
      let rest := Split sep l in
      if c =? sep then [] :: rest
      else match rest with [] => [[c]] | p :: ps => (c :: p) :: ps end
  end.

Definition SplitN2 (sep : Z) (l : list Z) : list (list Z) :=
  match IndexByte sep l with Some i => [take i l; drop (S i) l] | None => [l] end.

(** What a line of /proc/cpuinfo says of the model. *)
Definition cpu_line (line : list Z) : option string :=
  match SplitN2 58 line with
  | [name; value] =>
      if bool_decide (TrimSpace (text name) = "model name") || bool_decide (TrimSpace (text name) = "Hardware")
      then Some (TrimSpace (text value)) else None
  | _ => None
  end.

Definition first_some {A B} (f : A → option B) (l : list A) : option B := head (omap f l).

(** [cpuinfo]: the file, when it can be read; [sysctl]: the output of a command that
    succeeds. *)
Definition cpuModel (cpuinfo : option string) (goos : string) (sysctl : string → option string) : string :=
  match cpuinfo ≫= (λ data, first_some cpu_line (Split 10 (chars data))) with
  | Some model => model
  | None =>
      let command := if bool_decide (goos = "darwin") then "/usr/sbin/sysctl" else "sysctl" in
      match sysctl command with
      | Some output => if bool_decide (TrimSpace output = "") then "unavailable" else TrimSpace output
      | None => "unavailable"
      end
  end.

Record environment := mkEnvironment {
  GoVersion : string; OS : string; Arch : string; CPUModel : string; NumCPU : Z; GOMAXPROCS : Z
}.

(** What package runtime answers is an argument. *)
Definition env (version goos goarch : string) (numCPU gomaxprocs : Z) (cpuinfo : option string)
  (sysctl : string → option string) : environment :=
  mkEnvironment version goos goarch (cpuModel cpuinfo goos sysctl) numCPU gomaxprocs.

Record benchmarkConfig := mkBenchmarkConfig { PayloadBytes : Z; RingCapacity : Z; Producers : Z; bc_BatchSize : Z }.

(** The configuration a run reports: a soak has one producer. *)
Definition run_config (mode : string) : benchmarkConfig :=
  mkBenchmarkConfig payloadSize capacity (if bool_decide (mode = "soak") then 1 else Z.of_nat producers) batchSize.

(** ** [main] *)

Section Main.
(** What the phases, [Close] and the measurements answer in each mode. *)
Context (publish : string → Appender → phase * option error * Z) (soak : string → Appender → soak_session).

(** [run] over the two modes.  A panic of [summarize] ends the process with status 2,
    as an error does. *)
Definition perfcheck (e : environment) (opts : options) : result report :=
  run (λ audit, default (Err (ErrNew "panic")) (runPublish (publish audit) audit (op_Warmup opts) (NumCPU e)))
    (λ audit, runSoak (soak audit) audit (op_Warmup opts) (op_Duration opts) (op_Rate opts)) opts.

(** [encoded]: the report could be written. *)
Definition main_status (encoded : bool) (r : result report) : Z :=
  match r with
  | Err _ => 2
  | Ok r => if negb encoded then 2 else if r_Pass r then 0 else 1
  end.

(** ** The gates *)

Definition throughput (p : phase) : float64 := float_div (float_of (p_accepted p)) (Duration_Seconds (p_elapsed p)).

(** A publish run that passes: nothing lost but to a full ring, nothing left in the
    pool, a clean close, samples; and without auditing on eight processors or more, a
    million events a second with the percentiles in bounds. *)
Definition publish_passes (cpus : Z) (audit : string) : Prop :=
  ∃ a measured q, newAppender audit = Ok a ∧ publish audit a = (measured, None, 0) ∧
    summarize (p_samples measured) = Some q ∧ p_other measured = 0 ∧ 100 <= l_Samples q ∧
    (audit = "off" → 8 <= cpus →
       float_leb (float_of 1000000) (throughput measured) = true ∧ P99NS q <= 10000 ∧ P999NS q <= 50000).

(** A soak that passes: drained before and after, nothing lost, a clean close, at most
    ten per cent more heap and at most one more goroutine, which is the code's gate
    ([goDrift <= 1], runner.go:303); section 6 of the README asks for no final
    goroutine growth, [soak_grows] below is a run that passes against it. *)
Definition soak_passes (audit : string) : Prop :=
  ∃ a, newAppender audit = Ok a ∧ let x := soak audit a in
    ss_warm x = true ∧ ss_drained x = true ∧ ss_close x = None ∧ p_full (ss_formal x) = 0 ∧
    p_other (ss_formal x) = 0 ∧ ss_outstanding x = 0 ∧
    float_leb (percentRise (float_of (ss_base x).1) (float_of (ss_end x).1)) (float_of 10) = true ∧
    (ss_end x).2 - (ss_base x).2 <= 1.

Lemma runPublish_passes audit warmup cpus :
  (∃ r, default (Err (ErrNew "panic")) (runPublish (publish audit) audit warmup cpus) = Ok r ∧ pr_Pass r = true) ↔
  publish_passes cpus audit.
Proof.
  unfold runPublish, publish_passes. destruct (newAppender audit) as [a|e].
  2:{ split; [by intros (r & ? & _)|by intros (a & m & q & ? & _)]. }
  destruct (publish audit a) as [[m c] o] eqn:Ep. unfold publish_report.
  destruct (summarize (p_samples m)) as [q|] eqn:Eq; cbn [mbind option_bind default].
  2:{ split; [by intros (r & ? & _)|]. intros (a' & m' & q' & [= <-] & E' & Eq' & _). rewrite Ep in E'. simplify_eq. }
  split.
  - intros (r & [= <-] & Hp). cbn [pr_Pass] in Hp. rewrite !andb_true_iff, orb_true_iff, !andb_true_iff in Hp.
    destruct Hp as ((((Hc & Ho) & Hs) & Hz) & Ht). apply bool_decide_eq_true in Hc. apply Z.eqb_eq in Ho, Hz.
    apply Z.leb_le in Hs. subst. exists a, m, q. split_and!; try done. intros -> Hcpu.
    rewrite bool_decide_eq_true_2, (proj2 (Z.leb_le 8 cpus)) in Ht by done. destruct Ht as [[=]|[[Ht Hp] Hp9]].
    apply Z.leb_le in Hp, Hp9. done.
  - intros (a' & m' & q' & [= <-] & E' & Eq' & Ho & Hs & Ht). rewrite Ep in E'. simplify_eq. eexists. split; [done|]. cbn [pr_Pass].
    rewrite !andb_true_iff, orb_true_iff, !andb_true_iff, bool_decide_eq_true, !Z.eqb_eq, !Z.leb_le.
    split_and!; try done. destruct (bool_decide (audit = "off")) eqn:Ea; [|by left].
    apply bool_decide_eq_true in Ea. destruct (8 <=? cpus) eqn:Ec; [|by left]. right. zbool.
    destruct (Ht Ea Ec) as (? & ? & ?). by split_and!.
Qed.

Lemma runSoak_passes audit warmup duration rate :
  (∃ r, runSoak (soak audit) audit warmup duration rate = Ok r ∧ so_Pass r = true) ↔ soak_passes audit.
Proof.
  unfold runSoak, soak_passes. destruct (newAppender audit) as [a|e]; cbn [mbind result_bind].
  2:{ split; [by intros (r & ? & _)|by intros (a & ? & _)]. }
  set (x := soak audit a). split.
  - intros (r & E & Hp). destruct (ss_warm x) eqn:Ew; cbn [negb] in E; [|done]. injection E as <-.
    cbn [so_Pass soak_report] in Hp. rewrite !andb_true_iff, bool_decide_eq_true, !Z.eqb_eq, Z.leb_le in Hp.
    exists a. split; [done|]. fold x. tauto.
  - intros (a' & [= <-] & H). fold x in H. cbn zeta in H. destruct H as (-> & Hd & Hc & Hf & Ho & Hz & Hh & Hg).
    eexists. split; [done|]. cbn [so_Pass soak_report].
    rewrite !andb_true_iff, bool_decide_eq_true, !Z.eqb_eq, Z.leb_le. tauto.
Qed.

Lemma run_modes_pass (f : string → result publishResult) modes :
  (∃ rs, run_modes f modes = Ok rs ∧ length rs = length modes ∧ forallb pr_Pass rs = true) ↔
  Forall (λ m, ∃ r, f m = Ok r ∧ pr_Pass r = true) modes.
Proof.
  induction modes as [|m modes IH]; cbn [run_modes].
  - split; [constructor|]. intros _. by exists [].
  - rewrite Forall_cons, <- IH. split.
    + intros (rs & (r & Er & E2)%bind_Ok & Hl & Hp). apply bind_Ok in E2 as (rs' & Ers & [= <-]). cbn in Hp, Hl.
      apply andb_true_iff in Hp as [Hp Hp']. split; [by exists r|]. exists rs'. split_and!; [done|lia|done].
    + intros [(r & Er & Hp) (rs & Ers & Hl & Hp')]. exists (r :: rs). rewrite Er. cbn [mbind result_bind].
      rewrite Ers. cbn. rewrite Hp, Hp', Hl. done.
Qed.

Lemma run_modes_length (f : string → result publishResult) modes : ∀ rs,
  run_modes f modes = Ok rs → length rs = length modes.
Proof.
  induction modes as [|m modes IH]; cbn [run_modes]; intros rs E; [by injection E as <-|].
  apply bind_Ok in E as (r & _ & E). apply bind_Ok in E as (rs' & E & [= <-]). cbn. f_equal. by apply IH.
Qed.

(** The modes of a publish run. *)
Definition audit_modes (opts : options) : list string :=
  if bool_decide (op_Audit opts = "both") then ["off"; "full"] else [op_Audit opts].

Lemma publish_verdict (f : string → result publishResult) (g : string → result soakResult) opts :
  0 < op_Duration opts → 0 < op_Warmup opts → Mode opts = "publish" →
  (∃ r, run f g opts = Ok r ∧ r_Pass r = true) ↔
  Forall (λ m, ∃ r, f m = Ok r ∧ pr_Pass r = true) (audit_modes opts).
Proof.
  intros Hd Hw Hm. unfold run. ztest. cbn [orb]. rewrite bool_decide_eq_true_2 by done. fold (audit_modes opts).
  rewrite <- run_modes_pass. split.
  - intros (r & (rs & Ers & [= <-])%bind_Ok & Hp). cbn [r_Pass] in Hp. apply andb_true_iff in Hp as [_ Hp].
    exists rs. split; [done|]. split; [by eapply run_modes_length|done].
  - intros (rs & Ers & Hl & Hp). rewrite Ers. cbn [mbind result_bind]. eexists. split; [done|]. cbn [r_Pass].
    rewrite Hp, andb_true_r. apply Z.ltb_lt. rewrite Hl. unfold audit_modes. by case_bool_decide.
Qed.

Lemma soak_verdict (f : string → result publishResult) (g : string → result soakResult) opts :
  0 < op_Duration opts → 0 < op_Warmup opts → Mode opts = "soak" →
  (∃ r, run f g opts = Ok r ∧ r_Pass r = true) ↔
  op_Audit opts ≠ "both" ∧ 0 < op_Rate opts ∧ ∃ r, g (op_Audit opts) = Ok r ∧ so_Pass r = true.
Proof.
  intros Hd Hw Hm. unfold run. rewrite Hm. ztest. cbn [orb].
  rewrite bool_decide_eq_false_2, bool_decide_eq_true_2 by done.
  destruct (bool_decide (op_Audit opts = "both")) eqn:Ea; cbn [orb].
  { apply bool_decide_eq_true in Ea. split; [by intros (r & ? & _)|naive_solver]. }
  apply bool_decide_eq_false in Ea. destruct (op_Rate opts <=? 0) eqn:Er; zbool.
  { split; [by intros (r & ? & _)|intros (_ & ? & _); lia]. }
  split.
  - intros (r & (x & Ex & [= <-])%bind_Ok & Hp). split_and!; [done|lia|by exists x].
  - intros (_ & _ & x & Ex & Hp). rewrite Ex. eexists. by split.
Qed.

Lemma main_statuses encoded (r : result report) :
  (main_status encoded r = 0 ↔ encoded = true ∧ ∃ x, r = Ok x ∧ r_Pass x = true) ∧
  (main_status encoded r = 1 ↔ encoded = true ∧ ∃ x, r = Ok x ∧ r_Pass x = false) ∧
  (main_status encoded r = 2 ↔ encoded = false ∨ ∃ x, r = Err x).
Proof.
  unfold main_status. destruct r as [x|x], encoded; cbn; try (destruct (r_Pass x) eqn:E).
  all: split_and!; split; try done; try (intros [? (? & [= <-] & ?)]; congruence); eauto.
  all: try (intros [?|(? & ?)]; congruence).
Qed.

(** C40. The benchmark's exit status is 0 exactly when the report could be written, the
    durations are positive, and either a publish run passes its gates in every audit
    mode asked for or a soak, with auditing off or full and a positive rate, passes
    its own ([soak_passes]: the code's gates, which let the goroutine count end one
    higher than it began, where the README says no growth); every refused option,
    failed run and panic ends with 2, a missed gate with 1. *)
Theorem perfcheck_exit e opts encoded :
  let r := perfcheck e opts in
  (main_status encoded r = 0 ↔
     encoded = true ∧ 0 < op_Duration opts ∧ 0 < op_Warmup opts ∧
     (Mode opts = "publish" ∧ Forall (publish_passes (NumCPU e)) (audit_modes opts) ∨
      Mode opts = "soak" ∧ op_Audit opts ≠ "both" ∧ 0 < op_Rate opts ∧ soak_passes (op_Audit opts))) ∧
  (main_status encoded r = 1 ↔ encoded = true ∧ ∃ x, r = Ok x ∧ r_Pass x = false) ∧
  (main_status encoded r = 2 ↔ encoded = false ∨ ∃ x, r = Err x).
Proof.
  intros r. destruct (main_statuses encoded r) as (H0 & H1 & H2). split; [|by split]. rewrite H0. clear H0 H1 H2.
  apply and_iff_compat_l. unfold r, perfcheck.
  destruct (decide (0 < op_Duration opts ∧ 0 < op_Warmup opts)) as [[Hd Hw]|Hn].
  2:{ unfold run. split; [|intros (? & ? & _); lia]. intros (x & E & _). destruct (_ || _) eqn:Eb; [done|]. zbool. lia. }
  destruct (decide (Mode opts = "publish")) as [Hm|Hp]; [|destruct (decide (Mode opts = "soak")) as [Hm|Hs]].
  - rewrite publish_verdict by done.
    assert (X : ∀ f P, (∀ m : string, f m ↔ P m) → Forall f (audit_modes opts) ↔ Forall P (audit_modes opts)).
    { intros f P Hf. rewrite !Forall_forall. naive_solver. }
    rewrite (X _ _ (λ m, runPublish_passes m (op_Warmup opts) (NumCPU e))). split.
    + intros HF. split_and!; [done..|by left].
    + intros (_ & _ & [[_ HF]|[E _]]); [done|congruence].
  - rewrite soak_verdict by done. rewrite runSoak_passes. split.
    + intros (Ha & Hr & Hp'). split_and!; [done..|by right].
    + intros (_ & _ & [[E _]|(_ & Ha)]); [congruence|done].
  - split; [|intros (_ & _ & [[? _]|[? _]]); done]. intros (x & E & _). unfold run in E. rewrite !bool_decide_eq_false_2 in E by done.
    by destruct (_ || _).
Qed.
End Main.

(** ** Instances *)

Example cpu_model_linux :
  cpuModel (Some (text (chars "processor : 0" ++ [10] ++ chars "model name	: Some CPU @ 2.0GHz: x" ++ [10]))) "linux"
    (λ _, None) = "Some CPU @ 2.0GHz: x".
Proof. vm_compute. reflexivity. Qed.

Example cpu_model_darwin :
  cpuModel None "darwin" (λ c, if bool_decide (c = "/usr/sbin/sysctl") then Some " Chip " else None) = "Chip".
Proof. vm_compute. reflexivity. Qed.

(** A soak that ends with one goroutine more than its baseline passes, exit status 0. *)
Definition growing_session : soak_session :=
  mkSoakSession true (mkPhase 100 100 0 0 Second [1]) (1000, 5) [(1000, 6)] (1000, 6) true None 0.

Definition soak_options : options := mkOptions "soak" "off" (30 * Minute) (30 * Second) 100000.

Lemma newAppender_off : ∃ a, newAppender "off" = Ok a.
Proof.
  destruct (newAppender "off") as [a|e] eqn:E; [by exists a|]. exfalso.
  assert (X : match newAppender "off" with Ok _ => true | Err _ => false end = true)
    by (lazy; reflexivity).
  by rewrite E in X.
Qed.

Example soak_grows publish e :
  (ss_end growing_session).2 = (ss_base growing_session).2 + 1 ∧
  main_status true (perfcheck publish (λ _ _, growing_session) e soak_options) = 0.
Proof.
  split; [done|]. destruct newAppender_off as [a E].
  apply main_statuses. split; [done|]. apply soak_verdict; [done..|]. split_and!; [done|done|].
  apply (runSoak_passes publish (λ _ _, growing_session)). exists a. split; [exact E|]. split_and!; (reflexivity || done).
Qed.
