(* ===== verification/Loadgen.v ===== *)
(** * The load generator (cmd/loadgen/main.go)

    [run] over an arbitrary network ([Net]) and against the collector of Delivery.v
    with a clock that goes on. *)

From stdpp Require Import gmap strings list fin_maps.
From Stdlib Require Import ZArith Lia.
From Stdlib.Strings Require Import Byte.
From S2P Require Import Prelude GoLib GoText Pool Protocol Client Dedupe Collector Delivery.

Definition Microsecond : Z := 1000.

Record options := mkOptions {
  address : string; rate : Z; duration : Z; payloadBytes : Z; batchSize : Z; timeout : Z
}.

(** The flags' defaults. *)
Definition default_options : options :=
  mkOptions "127.0.0.1:28641" 10000 (10 * Client.Second) 256 1024 (5 * Client.Second).

Definition invalid (o : options) : bool :=
  (rate o <? 1) || (duration o <=? 0) || (payloadBytes o <? 32) || (payloadBytes o >? Z.shiftl 1 20) ||
  (batchSize o <? 1) || (batchSize o >? 1024) || (timeout o <=? 0).

Definition randomID (random : result (list byte)) : result Z :=
  match random with
  | Err e => Err (ErrWrap "generate client id: %w" e)
  | Ok raw => let id := be_get raw in Ok (if id =? 0 then 1 else id)
  end.

(** ** Records *)

Definition prefix (number : Z) : list byte :=
  Stdlib.Strings.String.list_byte_of_string ("INFO sequence=" +:+ FormatUint number +:+ " ").

(** The prefix, as far as it fits, [x]s, a newline. *)
Definition make_record (size : nat) (number : Z) : list byte :=
  let record := copy_at 0 (prefix number) (replicate size x00) in
  let record := foldl (λ r i, <[i := x78]> r) record (seq (length (prefix number)) (size - 1 - length (prefix number))) in
  <[(size - 1)%nat := x0a]> record.

Definition makeRecords (count size : nat) (sequence : Z) : list (list byte) :=
  map (λ index, make_record size (u64 (sequence + Z.of_nat index + 1))) (seq 0 count).

Lemma length_makeRecords count size n : length (makeRecords count size n) = count.
Proof. unfold makeRecords. by rewrite length_map, length_seq. Qed.

(** ** run *)

Section Run.
Context {W Conn : Type} `{!Net W Conn}.

(** The connection and the counters. *)
Record progress := mkProgress { connection : option Conn; batchID : Z; sent : Z; bytesSent : Z }.

#[export] Instance progress_fields : Fields progress := λ r,
  mkProgress (connection r) (batchID r) (sent r) (bytesSent r).

(** [time.Duration(float64(time.Second) * float64(batchSize) / float64(rate))],
    at least a microsecond. *)
Definition interval (o : options) : Z :=
  let d := uint_of_float (float_div (float_mul (float_of Client.Second) (float_of (batchSize o))) (float_of (rate o))) in
  if d <? Microsecond then Microsecond else d.

(** The connection is closed after a failed write or read. *)
Definition lose_connection (k : Conn) (e : error) (s : progress) (w : W) : option error * progress * W :=
  let '(_, w) := net_close k w in (Some e, s <| connection := None |>, w).

(** The batch on the open connection. *)
Definition send_on (k : Conn) (o : options) (clientID : Z) (s : progress) (w : W) : option (option error * progress * W) :=
  let s := s <| connection := Some k |> <| batchID ::= λ n, u64 (n + 1) |> in
  let records := makeRecords (Z.to_nat (batchSize o)) (Z.to_nat (payloadBytes o)) (sent s) in
  let '(now, w) := net_now w in
  match NewEncodedBatch clientID (batchID s) now records DefaultLimits with
  | Err e => Some (Some e, s, w)
  | Ok encoded =>
      let '(_, w) := net_set_deadline k w in
      '(out, written, err) ← WriteTo encoded (net_out k w);
      let w := net_sent k out w in
      match err with
      | Some e => Some (lose_connection k (ErrWrap "write batch %d: %w" e) s w)
      | None =>
          match ReadAck (net_in k w) with
          | (Err e, input) => Some (lose_connection k (ErrWrap "read ack %d: %w" e) s (net_received k input w))
          | (Ok ack, input) =>
              let w := net_received k input w in
              if negb (Ack_ClientID ack =? clientID) || negb (Ack_BatchID ack =? batchID s)
                 || (negb (Status ack =? StatusAccepted) && negb (Status ack =? StatusDuplicate))
              then Some (Some (ErrNew "unexpected ack for batch %d: %+v"), s, w)
              else Some (None, s <| sent ::= λ n, u64 (n + len records) |> <| bytesSent ::= λ n, u64 (n + written) |>, w)
          end
      end
  end.

Definition send_batch (o : options) (clientID : Z) (s : progress) (w : W) : option (option error * progress * W) :=
  match connection s with
  | Some k => send_on k o clientID s w
  | None =>
      match net_dial (address o) w with
      | (Err e, w) => Some (Some (ErrWrap "dial collector: %w" e), s, w)
      | (Ok k, w) => send_on k o clientID s w
      end
  end.

(** [for time.Now().Before(deadline)]: the tick or the end of the context, then a
    batch.  [None]: out of fuel. *)
Fixpoint send_loop (fuel : nat) (o : options) (deadline clientID : Z) (s : progress) (w : W)
  : option (option error * progress * W) :=
  let '(now, w) := net_now w in
  if UnixNano now <? deadline then
    match fuel with
    | O => None
    | S fuel =>
        match net_wait (interval o) w with
        | (Some e, w) => Some (Some e, s, w)
        | (None, w) =>
            '(err, s, w) ← send_batch o clientID s w;
            match err with
            | Some e => Some (Some e, s, w)
            | None => send_loop fuel o deadline clientID s w
            end
        end
    end
  else Some (None, s, w).

(** The deferred close of the connection. *)
Definition close_connection (s : progress) (w : W) : W :=
  match connection s with Some k => (net_close k w).2 | None => w end.

(** What is reported: the identity and the counters. *)
Definition run (fuel : nat) (o : options) (random : result (list byte)) (w : W) : option (result (Z * progress) * W) :=
  if invalid o
  then Some (Err (ErrNew "invalid rate, duration, payload size, batch size, or timeout"), w)
  else
    match randomID random with
    | Err e => Some (Err e, w)
    | Ok clientID =>
        let '(started, w) := net_now w in
        '(err, s, w) ← send_loop fuel o (UnixNano started + duration o) clientID (mkProgress None 0 0 0) w;
        let w := close_connection s w in
        Some (match err with Some e => Err e | None => Ok (clientID, s) end, w)
    end.
End Run.
Arguments progress : clear implicits.

(** ** Against the collector *)

(** The last reading a clock can give. *)
Definition end_of_time : Time := mkTime false (2 ^ 63 - 1).

(** The wire of Delivery.v with the readings of the clock still to come; after them
    it is the end of time. *)
Definition clocked : Type := wire (list (list (list byte))) * list Time.

(** An operation of the wire. *)
Definition on_wire {A} (f : wire (list (list (list byte))) → A * wire (list (list (list byte)))) (w : clocked) : A * clocked :=
  let '(x, v) := f w.1 in (x, (v, w.2)).

#[export] Instance clocked_net : Net clocked () :=
  let wn := wire_net storing in {|
    net_now w := match w.2 with t :: ts => (t, (w.1, ts)) | [] => (end_of_time, w) end;
    net_ctx_err := on_wire (@net_ctx_err _ _ wn);
    net_wait d := on_wire (@net_wait _ _ wn d);
    net_dial a := on_wire (@net_dial _ _ wn a);
    net_set_deadline k := on_wire (@net_set_deadline _ _ wn k);
    net_out k w := @net_out _ _ wn k w.1;
    net_sent k out w := (@net_sent _ _ wn k out w.1, w.2);
    net_in k w := @net_in _ _ wn k w.1;
    net_received k input w := (@net_received _ _ wn k input w.1, w.2);
    net_close k := on_wire (@net_close _ _ wn k)
  |}.

(** The clock's readings can be encoded. *)
Definition clock_ok (w : clocked) : Prop := Forall (λ t, UnixNano t < 2 ^ 63) w.2.

Section Delivered.
Context (o : options) (clientID : Z).
Hypothesis Hid : 0 < clientID < 2 ^ 64.

(** Between two batches: the collector has recorded no batch of this client with a
    number above [n]. *)
Record between (n : Z) (w : wire (list (list (list byte)))) : Prop := mkBetween {
  bt_quiet : quiet (dedupe (w_srv w));
  bt_limits : Config_Limits (config (w_srv w)) = DefaultLimits;
  bt_line : (∃ f, w_resp (w_line w) = obeying f) ∧ rd_data (w_acks w) = [];
  bt_known : ∀ k, k ∈ keys (dedupe (w_srv w)) → key_ClientID k = clientID → key_BatchID k <= n
}.

Lemma between_once n records w :
  between n w → once records DefaultLimits clientID (n + 1) (w_sink w) (keys (dedupe (w_srv w))) w.
Proof.
  intros [Hq Hl [Hf Ha] Hk]. split_and!; [done..|by rewrite Ha; cbn; lia|auto|]. right. split_and!; [|done|done].
  intros X%Hk; [cbn in X; lia|done].
Qed.

Definition batch_records (s : progress ()) : list (list byte) :=
  makeRecords (Z.to_nat (batchSize o)) (Z.to_nat (payloadBytes o)) (sent s).

(** The number of a batch and its counters. *)
Definition counted (s s' : progress ()) : Prop :=
  batchID s' = batchID s + 1 ∧ sent s' = u64 (sent s + len (batch_records s)).

(** The outcome of a batch: recorded and counted, or at most recorded. *)
Definition outcome (s : progress ()) (w : clocked) (err : option error) (s' : progress ()) (w' : clocked) : Prop :=
  clock_ok w' ∧ (length w'.2 <= length w.2)%nat ∧
  match err with
  | None => between (batchID s') w'.1 ∧ counted s s' ∧ w_sink w'.1 = w_sink w.1 ++ [batch_records s]
  | Some _ => w_sink w'.1 = w_sink w.1 ∨ w_sink w'.1 = w_sink w.1 ++ [batch_records s]
  end.

Lemma net_now_spec (w : clocked) now w' :
  clock_ok w → net_now w = (now, w') →
  UnixNano now < 2 ^ 63 ∧ w'.1 = w.1 ∧ clock_ok w' ∧ (length w'.2 <= length w.2)%nat ∧
  (UnixNano now < UnixNano end_of_time → (length w'.2 < length w.2)%nat).
Proof.
  unfold clock_ok. destruct w as [v [|t ts]]; cbn -[end_of_time]; intros C [= <- <-].
  - split_and!; [done..|]. intros X. by apply Z.lt_irrefl in X.
  - apply Forall_cons in C as [? ?]. split_and!; [done..|cbn; lia|cbn; lia].
Qed.

Lemma once_sink records n before known w :
  once records DefaultLimits clientID n before known w → w_sink w = before ∨ w_sink w = before ++ [records].
Proof. intros (_ & _ & _ & _ & [[_ ?]|(_ & ? & _)]); auto. Qed.

(** After an acknowledged batch. *)
Lemma once_between records n w w2 input :
  between n w → once records DefaultLimits clientID (n + 1) (w_sink w) (keys (dedupe (w_srv w))) w2 →
  rd_data input = [] → between (n + 1) (w2 <| w_acks := input |>).
Proof.
  intros [_ _ _ Hk] (Hq & Hl & Hf & [_ Hk2] & _) Hi. split; cbn; try done.
  intros k [->|X]%Hk2 E; [cbn; lia|]. specialize (Hk k X E). lia.
Qed.

Lemma send_on_spec s w err s' w' :
  between (batchID s) w.1 → 0 <= batchID s < 2 ^ 64 - 1 → clock_ok w → send_on () o clientID s w = Some (err, s', w') →
  outcome s w err s' w'.
Proof.
  intros B Hn C. unfold send_on. cbn [batchID sent]. set (records := makeRecords _ _ _).
  change records with (batch_records s). clear records. set (records := batch_records s) in *.
  change (batchID (s <| connection := Some () |> <| batchID ::= λ n, u64 (n + 1) |>)) with (u64 (batchID s + 1)).
  rewrite (u64_small (batchID s + 1)) by lia. set (s1 := s <| connection := _ |> <| batchID ::= _ |>) in *.
  destruct (net_now w) as [now w1] eqn:En. destruct (net_now_spec w now w1 C En) as (Ht & E1 & C1 & Hl & _). clear En.
  destruct (NewEncodedBatch clientID (batchID s + 1) now records DefaultLimits) as [e|e] eqn:Ee.
  2:{ intros [= <- <- <-]. split_and!; [done..|]. left. by rewrite E1. }
  apply NewEncodedBatch_spec in Ee as [He ->]. cbn [net_set_deadline clocked_net on_wire wire_net fst snd].
  set (b := encoding _ _ _ _) in *. rewrite E1. destruct w1 as [v ts]. cbn [fst snd] in *. subst v.
  change (net_out () (w.1, ts)) with (w_line w.1).
  destruct (WriteTo b (w_line w.1)) as [[[out written] we]|] eqn:Ew; [|discriminate]. cbn [mbind option_bind].
  pose proof (between_once (batchID s) records w.1 B) as O. pose proof (bt_line _ _ B) as [[f Hf] _].
  apply write_buffers_delivers in Ew as (_ & Ho & Hr & _); [|intros i x; rewrite Hf; apply obeying_ok].
  pose proof (sent_once records DefaultLimits clientID (batchID s + 1) now (w_sink w.1) _ He Hid ltac:(lia) Ht
    out _ f w.1 O Ho ltac:(by rewrite Hr)) as O2.
  set (w2 := serve_bytes storing _ _) in O2. change (net_sent () out (w.1, ts)) with (w2, ts).
  clearbody w2. clear Ho Hr out.
  change (net_in () (w2, ts)) with (w_acks w2).
  pose proof (once_sink _ _ _ _ _ O2) as Hs. destruct we as [e0|]; [by intros [= <- <- <-]|].
  destruct (ReadAck (w_acks w2)) as [[ack|e0] input] eqn:Er; [|by intros [= <- <- <-]].
  destruct (negb _ || _ || _); intros [= <- <- <-]; [done|]. split; [done|]. split; [done|].
  destruct (acked_stored records DefaultLimits clientID (batchID s + 1) (w_sink w.1) _ w2 ack input O2 Er) as [[_ Hst] Hi].
  split; [|split; [|done]]; [|by split; [apply u64_small; lia|]].
  change (between (u64 (batchID s + 1)) (w2 <| w_acks := input |>)). rewrite u64_small by lia.
  by apply (once_between records _ w.1).
Qed.

Lemma send_on_total s (w : clocked) : is_Some (send_on () o clientID s w).
Proof.
  unfold send_on. destruct (net_now w) as [now w1]. destruct (NewEncodedBatch _ _ _ _ _) as [e|e]; [|done].
  destruct (net_set_deadline () w1) as [x w2].
  destruct (write_buffers_total (Buffers e) (net_out () w2) 0) as [[[out n] err] E]. unfold WriteTo. rewrite E.
  cbn [mbind option_bind]. destruct err; [done|]. destruct (ReadAck _) as [[ack|e0] input]; [|done]. by destruct (_ || _).
Qed.

(** [between] is about the collector, the line and the acknowledgements. *)
Lemma dial_between n addr (w : clocked) k w' :
  net_dial addr w = (k, w') → between n w.1 → between n w'.1 ∧ w_sink w'.1 = w_sink w.1 ∧ w'.2 = w.2.
Proof.
  destruct w as [v ts]. cbn. intros E B. pose proof B as [Hq Hl [Hf Ha] Hk]. unfold on_wire in E. cbn in E.
  destruct (w_faults v) as [|f rest]; [|destruct (f_refused f)]; injection E as <- <-; [done|done|].
  split; [|done]. split; cbn; try done. by split; [eexists|].
Qed.

Lemma send_batch_spec s (w : clocked) :
  between (batchID s) w.1 → 0 <= batchID s < 2 ^ 64 - 1 → clock_ok w →
  ∃ err s' w', send_batch o clientID s w = Some (err, s', w') ∧ outcome s w err s' w'.
Proof.
  intros B Hn C. unfold send_batch.
  assert (On : ∀ k v, between (batchID s) v.1 → w_sink v.1 = w_sink w.1 → v.2 = w.2 →
    ∃ err s' w', send_on k o clientID s v = Some (err, s', w') ∧ outcome s w err s' w').
  { intros [] v Bv Hv Ev. destruct (send_on_total s v) as [[[err s'] w'] E]. exists err, s', w'. split; [done|].
    apply send_on_spec in E; [|done..|by unfold clock_ok; rewrite Ev]. unfold outcome in *. by rewrite Hv, Ev in E. }
  destruct (connection s) as [k|]; [by apply On|].
  destruct (net_dial (address o) w) as [[k|e] w1] eqn:E; destruct (dial_between _ _ _ _ _ E B) as (B1 & S1 & T1); [by apply On|].
  eexists _, _, _. split; [reflexivity|]. unfold outcome, clock_ok. rewrite S1, T1. by split_and!; [| |left].
Qed.

(** ** The run *)

(** The batches of a run, in order. *)
Definition batch_number (i : Z) : list (list byte) :=
  makeRecords (Z.to_nat (batchSize o)) (Z.to_nat (payloadBytes o)) (i * batchSize o).
Definition generated (n : Z) : list (list (list byte)) := map batch_number (seqZ 0 n).

Lemma generated_S n : 0 <= n → generated (n + 1) = generated n ++ [batch_number n].
Proof. intros. unfold generated. rewrite seqZ_app by lia. by rewrite map_app. Qed.

(** The counters after [n] batches. *)
Definition at_batch (n : Z) (s : progress ()) : Prop := batchID s = n ∧ sent s = n * batchSize o.

Lemma wait_between n d (w : clocked) e w' :
  net_wait d w = (e, w') → (between n w.1 → between n w'.1) ∧ w_sink w'.1 = w_sink w.1 ∧ w'.2 = w.2.
Proof.
  destruct w as [v ts]. cbn. unfold on_wire, next_ctx. cbn. destruct (w_ctx v); intros [= <- <-]; [done|].
  split; [|done]. by intros [].
Qed.

Lemma send_loop_spec deadline fuel : ∀ n s (w : clocked),
  1 <= batchSize o <= 1024 → deadline <= 2 ^ 63 - 1 → (length w.2 <= fuel)%nat → 0 <= n → n + len w.2 < 2 ^ 53 →
  at_batch n s → between n w.1 → clock_ok w →
  ∃ err s' w' m, send_loop fuel o deadline clientID s w = Some (err, s', w') ∧ n <= m ∧
    w_sink w'.1 = w_sink w.1 ++ map batch_number (seqZ n (m - n)) ∧ (err = None → at_batch m s').
Proof.
  induction fuel as [|fuel IH]; intros n s w Ho Hd Hf H0 Hb [En Es] B C; cbn [send_loop];
    destruct (net_now w) as [now w1] eqn:Ew; destruct (net_now_spec w now w1 C Ew) as (Ht & E1 & C1 & Hl & Hlt); clear Ew.
  all: destruct (UnixNano now <? deadline) eqn:Et; zbool;
    [|exists None, s, w1, n; rewrite Z.sub_diag, app_nil_r, E1; split_and!; [done|lia|done|by split]].
  all: assert (X : (length w1.2 < length w.2)%nat)
    by (apply Hlt; change (UnixNano end_of_time) with (2 ^ 63 - 1); lia).
  { lia. }
  destruct (net_wait (interval o) w1) as [[e|] w2] eqn:E2; pose proof (wait_between n _ _ _ _ E2) as W.
  { destruct W as (_ & W1 & _). eexists _, _, _, n. rewrite Z.sub_diag, app_nil_r, W1, E1. split_and!; done. }
  destruct W as (W1 & W2 & W3). rewrite E1 in W1. specialize (W1 B).
  destruct (send_batch_spec s w2) as (err & s' & w3 & -> & C3 & L3 & Hout); [by rewrite En|lia|by unfold clock_ok; rewrite W3|].
  assert (Hr : batch_records s = batch_number n) by (unfold batch_records, batch_number; by rewrite Es).
  rewrite Hr, W2, E1 in Hout. cbn [mbind option_bind]. destruct err as [e|].
  { destruct Hout as [Hout|Hout]; eexists _, _, _; [exists n|exists (n + 1)]; rewrite Hout.
    all: (split; [done|]; split; [lia|]; split; [|done]).
    - by rewrite Z.sub_diag, app_nil_r.
    - by replace (n + 1 - n) with 1 by lia. }
  destruct Hout as (B3 & [N1 N2] & S3). rewrite N1, En in B3.
  destruct (IH (n + 1) s' w3) as (err & s2 & w4 & m & -> & Hm & Hs & Ha); try done; try lia.
  { rewrite W3 in L3. lia. }
  { rewrite W3 in L3. lia. }
  { split; [lia|]. rewrite N2, Hr, Es. unfold batch_number. rewrite length_makeRecords, Z2Nat.id by lia.
    rewrite u64_small by nia. lia. }
  exists err, s2, w4, m. split; [done|]. split; [lia|]. split; [|done].
  rewrite Hs, S3, <- app_assoc. f_equal. rewrite (seqZ_cons n) by lia. cbn. by replace (Z.pred (m - n)) with (m - (n + 1)) by lia.
Qed.

End Delivered.

Lemma randomID_range raw id : length raw = 8%nat → randomID (Ok raw) = Ok id → 0 < id < 2 ^ 64.
Proof.
  intros Hl. cbn. pose proof (be_get_range raw) as R. rewrite Hl in R. change (256 ^ Z.of_nat 8) with (2 ^ 64) in R.
  destruct (be_get raw =? 0) eqn:E; zbool; intros [= <-]; lia.
Qed.

(** C23. The load generator against the collector.  Whatever happens to its
    connections, its writes, the acknowledgements and its context, [run] ends, and
    what the collector's sink got is the generated batches from the first one on, in
    order, each exactly once; when [run] reports success they are as many batches
    and records as it reports. *)
Theorem loadgen_delivers fuel o raw clientID (w : clocked) :
  length raw = 8%nat → randomID (Ok raw) = Ok clientID → between clientID 0 w.1 → clock_ok w →
  (length w.2 <= fuel)%nat → len w.2 < 2 ^ 53 → UnixNano (net_now w).1 + duration o < 2 ^ 63 →
  ∃ r w' n, run fuel o (Ok raw) w = Some (r, w') ∧ 0 <= n ∧ w_sink w'.1 = w_sink w.1 ++ generated o n ∧
    match r with
    | Ok (id, s) => invalid o = false ∧ id = clientID ∧ batchID s = n ∧ sent s = n * batchSize o
    | Err _ => True
    end.
Proof.
  intros Hl Hid B C Hf Hb Hd. unfold run. destruct (invalid o) eqn:Ei.
  { eexists _, _, 0. split; [done|]. split; [done|]. by rewrite app_nil_r. }
  rewrite Hid. apply randomID_range in Hid; [|done]. destruct (net_now w) as [now w1] eqn:Ew. cbn in Hd.
  destruct (net_now_spec w now w1 C Ew) as (_ & E1 & C1 & L1 & _). clear Ew.
  assert (Ho : 1 <= batchSize o <= 1024) by (unfold invalid in Ei; zbool; lia).
  destruct (send_loop_spec o clientID Hid (UnixNano now + duration o) fuel 0 (mkProgress None 0 0 0) w1)
    as (err & s & w2 & n & -> & Hn & Hs & Ha); try done; try lia; [by rewrite E1|].
  cbn [mbind option_bind]. rewrite Z.sub_0_r, E1 in Hs. eexists _, _, n. split; [done|]. split; [done|].
  assert (Hc : w_sink (close_connection s w2).1 = w_sink w2.1) by (unfold close_connection; by destruct (connection s)).
  rewrite Hc, Hs. split; [done|]. destruct err; [done|]. by destruct (Ha eq_refl).
Qed.

(** ** Example *)

Definition sample_options : options := mkOptions "collector" 1000 Client.Second 32 2 Client.Second.

(** A clock with five readings before the end of time, one good connection. *)
Definition sample_run : clocked :=
  let srv := mkServer DefaultConfig (NewDedupe 2) (mkStats 0 0 0 0 0 0) 0 ∅ false false in
  ((sample_wire [] [good]) <| w_srv := srv |>, replicate 5 sample_time).

Lemma sample_between : between 7 0 sample_run.1.
Proof.
  split; [apply NewDedupe_quiet|done|by split; [exists takes_all|]|]. intros k X. by apply not_elem_of_nil in X.
Qed.

Lemma loadgen_delivers_witness :
  ∃ s w', run 5 sample_options (Ok [x00; x00; x00; x00; x00; x00; x00; x07]) sample_run = Some (Ok (7, s), w') ∧
    batchID s = 2 ∧ w_sink w'.1 = generated sample_options 2.
Proof.
  pose proof (loadgen_delivers 5 sample_options [x00; x00; x00; x00; x00; x00; x00; x07] 7 sample_run
    eq_refl eq_refl sample_between) as T.
  destruct T as (r & w' & n & Hr & _ & Hs & Hm); [by repeat constructor|cbn; lia|done|done|].
  assert (Hok : match r with Ok (_, s) => batchID s = 2 | Err _ => False end).
  { vm_compute in Hr. injection Hr as <- <-. done. }
  destruct r as [[id s]|]; [|destruct Hok]. destruct Hm as (_ & -> & Hn & _). rewrite Hok in Hn. rewrite <- Hn in Hs.
  exists s, w'. exact (conj Hr (conj Hok Hs)).
Defined.
