(* ===== verification/Stream.v ===== *)
(** * The metrics stream (internal/httpapi/httpapi.go)

    The loop of [metricsStream], and why it never gives up on a snapshot: every
    number of a sampled snapshot is finite, so that it can be written as JSON. *)

From stdpp Require Import gmap strings list fin_maps sorting.
From Stdlib Require Import ZArith Lia.
From Stdlib.Strings Require Import Byte.
From Stdlib.Floats Require Import SpecFloat.
From S2P Require Import Prelude GoLib GoText Rounding Magnitude Ring Pool Flusher Appender Observer Telemetry HttpApi Runtime RuntimeStart.

(** What the loop's [select] receives: the end of the request's context, a tick of
    the keepalive timer, a snapshot. *)
Inductive stream_event := RequestDone | KeepaliveTick | Update (s : Snapshot).

(** What is written and flushed: text, or an event with its identifier and data. *)
Inductive chunk := Text (text : string) | Event (id : string) (data : Snapshot).

Definition newline : string := String (Ascii.ascii_of_nat 10) EmptyString.

(** [json.Marshal] refuses a float64 that is infinite or no number. *)
Definition marshals (s : Snapshot) : bool :=
  is_finite (WatermarkPercent (sn_Ring s)) && is_finite (PublishRate (sn_Ring s)) &&
  is_finite (ConsumeRate (sn_Ring s)) && is_finite (FlushP95Micros (sn_Flusher s)) &&
  is_finite (HitPercent (sn_Pool s)).

(** The loop; the flag: it has returned. *)
Fixpoint stream_loop (events : list stream_event) : list chunk * bool :=
  match events with
  | [] => ([], false)
  | RequestDone :: _ => ([], true)
  | KeepaliveTick :: events =>
      let '(out, returned) := stream_loop events in
      (Text (": keepalive" +:+ newline +:+ newline) :: out, returned)
  | Update s :: events =>
      if marshals s
      then let '(out, returned) := stream_loop events in (Event (FormatUint (Sequence s)) s :: out, returned)
      else ([], true)
  end.

(** With what is written before it. *)
Definition stream (events : list stream_event) : list chunk * bool :=
  let '(out, returned) := stream_loop events in
  (Text ("retry: 2000" +:+ newline +:+ newline) :: out, returned).

(** ** What a subscriber gets *)

Definition is_done (e : stream_event) : bool := match e with RequestDone => true | _ => false end.

(** The events before the request's end. *)
Fixpoint served (events : list stream_event) : list stream_event :=
  match events with
  | [] | RequestDone :: _ => []
  | e :: events => e :: served events
  end.

(** What an event puts on the stream. *)
Definition written (e : stream_event) : list chunk :=
  match e with
  | RequestDone => []
  | KeepaliveTick => [Text (": keepalive" +:+ newline +:+ newline)]
  | Update s => [Event (FormatUint (Sequence s)) s]
  end.

Lemma stream_loop_served events :
  (∀ s, Update s ∈ events → marshals s = true) →
  stream_loop events = (concat (map written (served events)), existsb is_done events).
Proof.
  induction events as [|[| |s] events IH]; intros M; [done..| |]; cbn [stream_loop].
  - rewrite IH; [done|]. intros s Hs. apply M. by right.
  - rewrite (M s) by left. rewrite IH; [done|]. intros s' Hs. apply M. by right.
Qed.

(** ** Snapshots are finite *)

Definition uint64 (z : Z) : Prop := 0 <= z < 2 ^ 64.

(** The counters and floats a snapshot is built from. *)
Record raw_ok (raw : RawSnapshot) : Prop := {
  ro_capacity : uint64 (rm_Capacity (raw_Ring raw));
  ro_depth : uint64 (Depth (raw_Ring raw));
  ro_watermark : is_finite (WatermarkPercent (raw_Ring raw)) = true;
  ro_publish : is_finite (PublishRate (raw_Ring raw)) = true;
  ro_consume : is_finite (ConsumeRate (raw_Ring raw)) = true;
  ro_p95 : is_finite (FlushP95Micros (raw_Flusher raw)) = true;
  ro_hit : is_finite (HitPercent (raw_Pool raw)) = true
}.

Lemma counterRate_finite a b s f lo hi :
  mag s f lo hi → -100 <= lo → hi <= 100 → is_finite (counterRate a b f) = true.
Proof.
  intros F Hl Hh. unfold counterRate. destruct (_ <? _); [done|]. eapply quotient_finite; [apply u64_range|exact F|done|done].
Qed.

Lemma zero_not_positive : float_ltb (float_of 0) (Duration_Seconds 0) = false.
Proof. vm_compute. reflexivity. Qed.

Lemma build_marshals raw previous now g h seq :
  raw_ok raw → (∀ p, previous = Some p → Z.abs (now - SampledAt p) < 2 ^ 64) →
  marshals (cloneSnapshot (build raw previous now g h seq)) = true.
Proof.
  intros [C D W P Q F H] Hn. unfold build, marshals, cloneSnapshot. cbn [sn_Ring sn_Flusher sn_Pool FlushP95Micros].
  set (ring := if _ <? _ then _ else _).
  assert (R : is_finite (WatermarkPercent ring) = true ∧ is_finite (PublishRate ring) = true ∧ is_finite (ConsumeRate ring) = true).
  { unfold ring. destruct (0 <? _) eqn:E; zbool; cbn; split_and!; try done.
    unfold uint64 in C. exact (percent_finite (Depth (raw_Ring raw)) 100 (rm_Capacity (raw_Ring raw)) D ltac:(lia) ltac:(lia)). }
  clearbody ring. destruct R as (R1 & R2 & R3). destruct previous as [p|]; cbn -[float_of float_ltb counterRate Duration_Seconds]; [|by rewrite R1, R2, R3, F, H].
  specialize (Hn p eq_refl). destruct (decide (now - SampledAt p = 0)) as [E|Hd].
  - rewrite E, zero_not_positive. cbn. by rewrite R1, R2, R3, F, H.
  - pose proof (Duration_Seconds_mag _ Hd Hn) as M. destruct (float_ltb _ _); cbn; [|by rewrite R1, R2, R3, F, H].
    rewrite R1, F, H. by rewrite !(counterRate_finite _ _ _ _ _ _ M) by lia.
Qed.

Section Service.
Context {Conn : Type}.
Implicit Types s : runtimeState Conn.

(** The counters of a service are 64-bit. *)
Record service_ok s : Prop := {
  sv_capacity : uint64 (capacity (a_queue (rt_appender s)));
  sv_depth : uint64 (QueueDepth (a_queue (rt_appender s)));
  sv_hits : uint64 (poolHits (a_pool (rt_appender s)));
  sv_times : Forall uint64 (times (rt_appSink s))
}.

Lemma p95_uint64 o : Forall uint64 (times o) → uint64 (default 0 (p95_nanos o)).
Proof.
  intros F. destruct (p95_nanos o) as [x|] eqn:E; cbn; [|done]. unfold p95_nanos, sorted in E.
  apply list_elem_of_lookup_2 in E. rewrite merge_sort_Permutation in E. by rewrite Forall_forall in F; apply F.
Qed.

Lemma TelemetrySnapshot_ok s : service_ok s → raw_ok (TelemetrySnapshot s).
Proof.
  intros [C D H T]. unfold TelemetrySnapshot. split; cbn -[float_of]; try done.
  - unfold p95Micros. destruct (times _) eqn:E; [done|]. rewrite <- E in T.
    eapply quotient_finite; [by apply p95_uint64|apply (uint64_mag 1000)|..]; lia.
  - destruct (0 <? u64 _) eqn:E; zbool; [|done].
    match type of E with 0 < u64 ?n => pose proof (u64_range n) end.
    apply (percent_finite _ 100); [exact H|lia|lia].
Qed.
End Service.

(** A snapshot the sampler hands on: built from the telemetry of a service, less than
    2^64 ns after the one before. *)
Definition sampled {Conn} (snapshot : Snapshot) : Prop :=
  ∃ (s : runtimeState Conn) previous now g h seq,
    service_ok s ∧ (∀ p, previous = Some p → Z.abs (now - SampledAt p) < 2 ^ 64) ∧
    snapshot = cloneSnapshot (build (TelemetrySnapshot s) previous now g h seq).

(** C39. A metrics stream lasts as long as its request.  Every snapshot the sampler
    makes of a service can be written as JSON, for no rate or percentage in it is
    infinite or undefined; so the stream shows the reconnection hint, then every tick
    and every snapshot in the order they come, and its handler returns at the end of
    the request's context and not before. *)
Theorem stream_lasts {Conn} (events : list stream_event) :
  (∀ s, Update s ∈ events → sampled (Conn := Conn) s) →
  stream events =
    (Text ("retry: 2000" +:+ newline +:+ newline) :: concat (map written (served events)), existsb is_done events).
Proof.
  intros S. unfold stream. rewrite stream_loop_served; [done|].
  intros s (rt & previous & now & g & h & seq & K & D & ->)%S. apply build_marshals; [by apply TelemetrySnapshot_ok|done].
Qed.

(** ** Example *)

Definition first_snapshot (s : runtimeState ()) : Snapshot := cloneSnapshot (build (TelemetrySnapshot s) None 5 1 1 1).
Definition sample_events (s : runtimeState ()) : list stream_event :=
  [Update (first_snapshot s); KeepaliveTick; RequestDone; KeepaliveTick].

Lemma stream_lasts_witness :
  match newRuntime (Conn := ()) small_config sample_disk (Ok (repeat x07 8)) 5 with
  | Started s => length (stream (sample_events s)).1 = 3%nat ∧ (stream (sample_events s)).2 = true
  | Failed _ _ => False
  end.
Proof.
  destruct (newRuntime (Conn := ()) small_config sample_disk (Ok (repeat x07 8)) 5) as [s|e l] eqn:E.
  2:{ vm_compute in E. discriminate E. }
  assert (K : service_ok s).
  { vm_compute in E. injection E as <-. split; [vm_compute; split; congruence..|constructor]. }
  rewrite (stream_lasts (Conn := ()) (sample_events s)); [by split|].
  intros s' [[= ->]|[[=]|[[=]|[[=]|[]%not_elem_of_nil]%elem_of_cons]%elem_of_cons]%elem_of_cons]%elem_of_cons.
  exists s, None, 5, 1, 1, 1. by split_and!.
Defined.
