(* ===== verification/DemoLeases.v ===== *)
(** * Retained leases (cmd/minilogbackd/demo.go, runtime.go)

    The interleaving of [RetainLease], [ReleaseLease], [StartTraffic], the traffic
    generators and [Close] over the mutex, and of all of them with the flusher and
    the scanner: every retained lease is released exactly once, and none survives
    [Close]. *)

From stdpp Require Import gmap strings list fin_maps.
From Stdlib Require Import ZArith Lia.
From Stdlib.Strings Require Import Byte.
From S2P Require Import Prelude GoLib GoText Collector FileSink HttpApi Ring Pool PoolInv PoolSafety PoolAudit Flusher FlushInv Appender AppenderSafety AppenderProps Runtime Publishing RuntimeStart.

(** ** Identifiers *)

(** The leases are numbered from 1 in the order they were acquired. *)
Definition numbered (k : skel) : Prop :=
  k_next k = len (k_shapes k) ∧ ∀ h s, k_shapes k !! h = Some s → s_id s = Z.of_nat h + 1.

Lemma numbered_push k b class tracked :
  numbered k → len (k_shapes k) + 1 < 2 ^ 64 → numbered (push b class tracked k).
Proof.
  intros [N I] B. split; cbn; rewrite N, next_id_small by lia.
  - rewrite length_app. cbn. lia.
  - intros h s [Hs|[Hh Hs]]%lookup_app_Some; [by apply I|].
    apply list_lookup_singleton_Some in Hs as [E <-]. cbn. lia.
Qed.

Lemma numbered_give h b class k : numbered k → numbered (give_back h b class k).
Proof.
  intros [N I]. split; cbn; [by rewrite length_alter|]. intros i s.
  destruct (decide (i = h)) as [->|Hne]; [|rewrite list_lookup_alter_ne by done; apply I].
  rewrite list_lookup_alter_eq. destruct (k_shapes k !! h) as [s0|] eqn:E; [|done]. intros [= <-]. cbn. by apply I.
Qed.

Lemma numbered_do op p :
  inv (skeleton p) → len (leases (pool_do op p).1) < 2 ^ 64 → numbered (skeleton p) →
  numbered (skeleton (pool_do op p).1).
Proof.
  intros I B N. destruct (loud op) eqn:L; [|by rewrite skeleton_quiet].
  destruct op as [cap ctx e|handle now| | | | | | | | |]; try done; cbn [pool_do] in *.
  - destruct (Pool.acquire cap ctx e p) as [p' [h|err]] eqn:A; cbn [acquired fst] in *.
    + destruct (acquire_skeleton _ _ _ _ _ _ A) as (_ & b & class & k1 & F & E). rewrite E in *.
      destruct (fetch_kept _ _ _ _ F) as (_ & Ek & _ & _ & _ & En).
      assert (Bk : len (k_shapes k1) + 1 < 2 ^ 64).
      { apply (f_equal k_shapes), (f_equal length) in E. cbn in E. rewrite length_map, length_app in E. cbn in E. lia. }
      apply numbered_push; [|done]. unfold numbered. by rewrite Ek, En.
    + by apply acquire_error in A as [-> _].
  - destruct (Release handle now p) as [p' [err|]] eqn:R; cbn [fst] in *.
    + by apply Release_error in R as [-> _].
    + destruct handle as [h|]; [|done]. destruct (Release_live _ _ _ _ R) as (l & Hl & Hs).
      destruct (lease_block p h l I Hl) as [b Hb]; [by destruct Hs as [-> | ->]|].
      destruct (Release_skeleton _ _ _ _ _ _ Hl Hb R) as [_ ->]. by apply numbered_give.
Qed.

(** What every step does to the pool's leases. *)
Definition grows (p p' : BytePool) : Prop :=
  (length (leases p) <= length (leases p'))%nat ∧
  (inv (skeleton p) → len (leases p') < 2 ^ 64 → numbered (skeleton p) → numbered (skeleton p')).

Lemma grows_skeleton p p' : skeleton p' = skeleton p → grows p p'.
Proof.
  intros E. split; [|by rewrite E]. apply (f_equal k_shapes), (f_equal length) in E. cbn in E.
  rewrite !length_map in E. lia.
Qed.

Lemma grows_runs p p' : pool_runs p p' → grows p p'.
Proof.
  intros [ops ->]. revert p. induction ops as [|op ops IH]; intros p; [by apply grows_skeleton|].
  destruct (IH (pool_do op p).1) as [G1 G2]. pose proof (pool_do_grows op p) as G.
  change (run (op :: ops) p) with (run ops (pool_do op p).1). split; [lia|]. intros I B N.
  apply G2; [by apply inv_do|done|]. apply numbered_do; [done|lia|done].
Qed.

(** ** Handles *)

(** The handle's holder has neither published nor released it. *)
Definition held (a : Appender) (n : nat) : Prop :=
  ∃ l, handles a !! n = Some l ∧ transferred l = false ∧ released l = false.

(** Handles other than [n] are as before. *)
Definition only (n : nat) (a a' : Appender) : Prop := ∀ m, m ≠ n → handles a' !! m = handles a !! m.

Lemma only_refl n a a' : handles a' = handles a → only n a a'.
Proof. by intros E m _; rewrite E. Qed.

Lemma only_trans n a a1 a2 : only n a a1 → only n a1 a2 → only n a a2.
Proof. intros H1 H2 m Hm. rewrite H2, H1 by done. done. Qed.

Lemma held_only n a a' m : only n a a' → m ≠ n → held a' m ↔ held a m.
Proof. intros O Hm. unfold held. by rewrite (O m Hm). Qed.

Lemma Release_only n now a : only n a (Lease_Release (Some n) now a).1.
Proof.
  unfold Lease_Release. destruct (handles a !! n) as [l|]; [|by apply only_refl].
  destruct (negb _); [by apply only_refl|]. destruct (transferred l); [by apply only_refl|].
  destruct (released l); [by apply only_refl|]. rewrite pool_call_eq. intros m Hm. cbn.
  by rewrite list_lookup_alter_ne.
Qed.

Lemma Release_runs n now a : pool_runs (a_pool a) (a_pool (Lease_Release (Some n) now a).1).
Proof.
  unfold Lease_Release. destruct (handles a !! n) as [l|]; [|apply pool_runs_refl].
  destruct (negb _); [apply pool_runs_refl|]. destruct (transferred l); [apply pool_runs_refl|].
  destruct (released l); [apply pool_runs_refl|]. rewrite pool_call_eq. apply pool_runs_call, pool_runs_refl.
Qed.

(** The release of a held handle succeeds. *)
Lemma Release_held_ok n now a :
  appender_ok a → held a n →
  (Lease_Release (Some n) now a).2 = None ∧ ¬ held (Lease_Release (Some n) now a).1 n.
Proof.
  intros A (l & E & T & R). split.
  - pose proof (usable_borrowed a n l A E T R) as B.
    destruct (Release_looks (inner l) now (a_pool a) (or_introl B)) as [X _].
    unfold Lease_Release. rewrite E, T, R. destruct (ao_handles a A n l E) as (z & b & Lk & _).
    unfold inner_ID. rewrite (looks_ID _ _ _ _ _ Lk), Z.eqb_refl. cbn [negb]. rewrite pool_call_eq. exact X.
  - intros (l' & E' & _ & R'). rewrite (Release_usable n l now a A E T R) in E'.
    rewrite list_lookup_insert_eq in E' by (by eapply lookup_lt_Some). injection E' as <-. done.
Qed.

Lemma store_buffer_handles n data a : handles (store_buffer n data a) = handles a.
Proof.
  unfold store_buffer. destruct (handles a !! n); [|done]. destruct (leases (a_pool a) !! _) as [pl|]; [|done].
  by destruct (l_block pl).
Qed.

Lemma store_buffer_runs n data a : pool_runs (a_pool a) (a_pool (store_buffer n data a)).
Proof.
  unfold store_buffer. destruct (handles a !! n); [|apply pool_runs_refl].
  destruct (leases (a_pool a) !! _) as [pl|]; [|apply pool_runs_refl].
  destruct (l_block pl) as [b|]; [|apply pool_runs_refl]. cbn. rewrite pokes_run. by exists (pokes b data).
Qed.

Lemma pool_runs_trans p1 p2 p3 : pool_runs p1 p2 → pool_runs p2 p3 → pool_runs p1 p3.
Proof. intros [o1 ->] [o2 ->]. exists (o1 ++ o2). unfold run. by rewrite foldl_app. Qed.

Lemma Commit_runs lease n a : pool_runs (a_pool a) (a_pool (Lease_Commit lease n a).1).
Proof.
  unfold Lease_Commit. destruct (usable lease a) as [[m l]|]; [|apply pool_runs_refl].
  rewrite pool_call_eq. apply pool_runs_call, pool_runs_refl.
Qed.

Lemma fill_lease_frame level size now n a :
  only n a (fill_lease level size now n a).1 ∧ pool_runs (a_pool a) (a_pool (fill_lease level size now n a).1).
Proof.
  unfold fill_lease. destruct (Lease_Buffer (Some n) a) as [buffer|e]; [|split; [apply Release_only|apply Release_runs]].
  set (data := fillDemoPayload _ _ _). pose proof (Commit_handles (Some n) size (store_buffer n data a)) as E.
  rewrite store_buffer_handles in E. pose proof (Commit_runs (Some n) size (store_buffer n data a)) as C.
  eapply (pool_runs_trans (a_pool a)) in C; [|apply store_buffer_runs].
  destruct (Lease_Commit _ _ _) as [a2 [e|]]; cbn [fst] in *.
  - split; [|eapply pool_runs_trans; [exact C|apply Release_runs]].
    eapply only_trans; [by apply only_refl|apply Release_only].
  - split; [by apply only_refl|done].
Qed.

Lemma acquire_frame capacity level e a :
  (∀ m, m ≠ length (handles a) → handles (acquire capacity level e a).1 !! m = handles a !! m) ∧
  pool_runs (a_pool a) (a_pool (acquire capacity level e a).1).
Proof.
  pose proof (acquire_appends capacity level e a) as X. split.
  - intros m Hm. destruct (acquire capacity level e a) as [a' [n|err]]; cbn [fst].
    + destruct X as (_ & l & -> & _). destruct (decide (m < length (handles a))%nat); [by rewrite lookup_app_l|].
      rewrite !lookup_ge_None_2; [done|lia|rewrite length_app; cbn; lia].
    + by rewrite X.
  - unfold acquire. destruct (a_closed a); [apply pool_runs_refl|].
    pose proof (pool_runs_acquire capacity (mkAuditContext (match level with Some l => Level_String l | None => "" end)
      (Name (a_config a)) 2) e (a_pool a)) as R.
    destruct (Pool.AcquireContext _ _ _ _) as [p [h|err]]; exact R.
Qed.

(** ** The operations on the appender *)

Lemma settled_end a : settled (length (handles a)) a.
Proof. intros n l Hn E. apply lookup_lt_Some in E. lia. Qed.

Lemma settled_not_held k n a : settled k a → (k <= n)%nat → ¬ held a n.
Proof. intros S Hn (l & E & T & R). destruct (S n l Hn E); congruence. Qed.

Lemma holding_held k n a : holding k n a → held a n.
Proof. intros (l & E & T & R)%holding_lookup. by exists l. Qed.

Lemma TryPublishLease_only level n a : appender_ok a → only n a (TryPublishLease level (Some n) a).1.
Proof.
  intros A. destruct (TryPublishLease_published level (Some n) a A) as [m l [= <-] _ _ _ _ _ Eh _|r _ _ Eh _].
  - intros i Hi. by rewrite Eh, list_lookup_insert_ne.
  - by apply only_refl.
Qed.

(** A step that may add one handle at the end. *)
Record adds (a a' : Appender) : Prop := mkAdds {
  ad_ok : appender_ok a';
  ad_grows : grows (a_pool a) (a_pool a');
  ad_only : only (length (handles a)) a a'
}.

Section Service.
Context {Conn : Type}.
Implicit Types s : runtimeState Conn.

Lemma retain_take_spec r now e s s' x :
  appender_ok (rt_appender s) → retain_take r now e s = (s', x) →
  adds (rt_appender s) (rt_appender s') ∧ s' = s <| rt_appender := rt_appender s' |> ∧
  match x with
  | Ok n => n = length (handles (rt_appender s)) ∧ held (rt_appender s') n
  | Err _ => ¬ held (rt_appender s') (length (handles (rt_appender s)))
  end.
Proof.
  intros A. set (a := rt_appender s) in *. set (k := length (handles a)).
  assert (Id : ∀ e, adds a a ∧ s = s <| rt_appender := a |> ∧ match (Err e : result nat) with Ok n => n = k ∧ held a n | Err _ => ¬ held a k end).
  { intros e0. split; [split; [done|by apply grows_skeleton|by apply only_refl]|]. split; [by destruct s|].
    eapply settled_not_held; [apply settled_end|done]. }
  unfold retain_take. destruct (closing s); [intros [= <- <-]; exact (Id service_closing)|]. unfold AcquireFor. fold a.
  destruct (negb (Level_valid _)). { intros [= <- <-]. destruct (Id ErrInvalidLease) as (I1 & _ & I3). exact (conj I1 (conj eq_refl I3)). }
  pose proof (ok_acquire (SizeBytes r) (Some (parseLevel (r_Level r))) e a A) as A1.
  pose proof (acquired_handle k (SizeBytes r) (Some (parseLevel (r_Level r))) e a (le_n _) (settled_end a)) as H1.
  destruct (acquire_frame (SizeBytes r) (Some (parseLevel (r_Level r))) e a) as [F1 R1].
  destruct (acquire _ _ e a) as [a1 [n|err]]; cbn [fst] in *.
  2:{ intros [= <- <-]. split; [split; [done|by apply grows_runs|done]|]. split; [done|].
      eapply (settled_not_held k); [eapply settled_handles; [exact H1|apply settled_end]|done]. }
  destruct H1 as [H1 ->]. destruct (fill_lease_frame (r_Level r) (SizeBytes r) now k a1) as [F2 R2].
  pose proof (fill_lease_keeps k (r_Level r) (SizeBytes r) now k a1 A1 H1) as K.
  fold k. destruct (fill_lease (r_Level r) (SizeBytes r) now k a1) as [a2 [e2|]]; cbn [fst] in *;
    destruct K as [A2 K]; intros [= <- <-]; (split; [split; [done| |]|split; [done|]]).
  1,4: apply grows_runs; by eapply pool_runs_trans.
  1,3: by eapply only_trans.
  - by eapply settled_not_held.
  - split; [done|]. by eapply holding_held.
Qed.

Lemma publish_spec level size now e s :
  appender_ok (rt_appender s) →
  let s' := publish level size now e s in
  adds (rt_appender s) (rt_appender s') ∧ s' = s <| rt_appender := rt_appender s' |> ∧
  ¬ held (rt_appender s') (length (handles (rt_appender s))).
Proof.
  intros A s'. set (a := rt_appender s) in *. set (k := length (handles a)).
  destruct (publish_settles k level size now e s A (le_n _) (settled_end a)) as [A' S].
  assert (F : only k a (rt_appender s') ∧ pool_runs (a_pool a) (a_pool (rt_appender s')) ∧ s' = s <| rt_appender := rt_appender s' |>).
  { unfold s', publish, Acquire. fold a. destruct (acquire_frame size None e a) as [F1 R1].
    pose proof (ok_acquire size None e a A) as A1. pose proof (acquired_handle k size None e a (le_n _) (settled_end a)) as H1.
    destruct (acquire size None e a) as [a1 [n|err]]; cbn [fst] in *; [|done]. destruct H1 as [H1 ->]. fold k.
    destruct (fill_lease_frame level size now k a1) as [F2 R2].
    pose proof (fill_lease_keeps k level size now k a1 A1 H1) as K.
    destruct (fill_lease level size now k a1) as [a2 [e2|]]; cbn [fst] in *; destruct K as [A2 K].
    - split; [by eapply only_trans|]. split; [by eapply pool_runs_trans|done].
    - pose proof (TryPublishLease_only (parseLevel level) k a2 A2) as F3.
      pose proof (TryPublishLease_runs (parseLevel level) (Some k) a2) as R3.
      destruct (TryPublishLease _ _ a2) as [a3 x]; cbn [fst] in *.
      assert (F : only k a a3) by (eapply only_trans; [by eapply only_trans|done]).
      assert (R : pool_runs (a_pool a) (a_pool a3)) by (eapply pool_runs_trans; [by eapply pool_runs_trans|done]).
      destruct (decide (x = Accepted)); cbn; [done|]. split; [eapply only_trans; [exact F|apply Release_only]|].
      split; [|done]. eapply pool_runs_trans; [exact R|apply Release_runs]. }
  destruct F as (F & R & E). split; [split; [exact A'|by apply grows_runs|exact F]|]. split; [exact E|].
  by eapply (settled_not_held k).
Qed.
(** ** Interleaving *)

(** A call between its two steps: [RetainLease] with its lease before the mutex,
    [ReleaseLease] with the lease it took out of the map. *)
Inductive call := Retaining (n : nat) | Releasing (n : nat).
Definition call_handle (c : call) : nat := match c with Retaining n | Releasing n => n end.

(** Where [Close] is: not called, past the compare-and-swap, past the mutex, past the
    rest. *)
Inductive close_phase := Serving | Marked | Cleared | Finished.

Record demo := mkDemo { d_rt : runtimeState Conn; d_calls : gmap nat call; d_phase : close_phase }.

#[export] Instance demo_fields : Fields demo := λ r, mkDemo (d_rt r) (d_calls r) (d_phase r).

Definition d_app (d : demo) : Appender := rt_appender (d_rt d).

(** What the flusher, the scanner and the end of [Appender.Close] do. *)
Inductive other : Appender → Appender → Prop :=
| other_take a : other a (take_next a)
| other_give h now a : in_state (a_pool a) StateInFlight h →
    other a (a <| a_pool ::= λ p, (Release (Some h) now p).1 |>)
| other_scan now a : other a (a <| a_pool ::= λ p, (ScanOverdue now p).1 |>)
| other_close_ring a : other a (a <| a_queue ::= Ring.Close |>)
| other_flusher f a : other a (a <| a_flusher := f |>)
| other_close_end err a : other a (close_end err a).

Inductive demo_step : demo → demo → Prop :=
| demo_take tid r now e d :
    d_calls d !! tid = None →
    demo_step d (let '(s, x) := retain_take r now e (d_rt d) in
                 d <| d_rt := s |> <| d_calls ::= λ m, match x with Ok n => <[tid := Retaining n]> m | Err _ => m end |>)
| demo_store tid n now d :
    d_calls d !! tid = Some (Retaining n) →
    demo_step d (d <| d_rt := (retain_store n now (d_rt d)).1 |> <| d_calls ::= delete tid |>)
| demo_find tid id d :
    d_calls d !! tid = None →
    demo_step d (let '(s, x) := release_take id (d_rt d) in
                 d <| d_rt := s |> <| d_calls ::= λ m, match x with Some n => <[tid := Releasing n]> m | None => m end |>)
| demo_give tid n now d :
    d_calls d !! tid = Some (Releasing n) →
    demo_step d (d <| d_rt := (release_end n now (d_rt d)).1 |> <| d_calls ::= delete tid |>)
| demo_start r d : demo_step d (d <| d_rt := (StartTraffic r (d_rt d)).1 |>)
| demo_publish i level size now e d :
    i ∈ generators (d_rt d) → demo_step d (d <| d_rt ::= publish level size now e |>)
| demo_done i d : demo_step d (d <| d_rt ::= generator_done i |>)
| demo_mark d : d_phase d = Serving → demo_step d (d <| d_rt := (close_mark (d_rt d)).1 |> <| d_phase := Marked |>)
| demo_clear now d : d_phase d = Marked → demo_step d (d <| d_rt ::= close_leases now |> <| d_phase := Cleared |>)
| demo_rest le ae d :
    d_phase d = Cleared → demo_idle (d_rt d) = true →
    demo_step d (d <| d_rt := (close_rest le ae (d_rt d)).1 |> <| d_phase := Finished |>)
| demo_other a d : other (d_app d) a → demo_step d (d <| d_rt ::= λ s, s <| rt_appender := a |> |>)
| demo_collector col d : (* the collector serves; only [Close] cancels it *)
    cancelled col = cancelled (rt_collector (d_rt d)) → demo_step d (d <| d_rt ::= λ s, s <| rt_collector := col |> |>).

(** A service that has just started. *)
Definition demo_init (d : demo) : Prop :=
  (∃ c options, Appender.New c options = Ok (d_app d)) ∧ closing (d_rt d) = false ∧ demoLeases (d_rt d) = ∅ ∧
  d_calls d = ∅ ∧ d_phase d = Serving.

Definition demo_reach : demo → Prop := reach demo_init demo_step.

(** ** The invariant *)

(** Who holds handle [n]: the map, or a call. *)
Definition stored (d : demo) (n : nat) : Prop := ∃ id, demoLeases (d_rt d) !! id = Some n.
Definition calling (d : demo) (n : nat) : Prop := ∃ tid c, d_calls d !! tid = Some c ∧ call_handle c = n.

Record demo_ok (d : demo) : Prop := mkDemoOk {
  do_app : appender_ok (d_app d);
  do_numbered : numbered (skeleton (a_pool (d_app d)));
  do_stored : ∀ id n, demoLeases (d_rt d) !! id = Some n → held (d_app d) n ∧ Lease_ID (Some n) (d_app d) = id;
  do_calling : ∀ n, calling d n → held (d_app d) n ∧ ¬ stored d n;
  do_apart : ∀ t1 t2 c1 c2, d_calls d !! t1 = Some c1 → d_calls d !! t2 = Some c2 →
    call_handle c1 = call_handle c2 → t1 = t2;
  do_owned : ∀ n, held (d_app d) n → stored d n ∨ calling d n;
  do_phase : match d_phase d with
             | Serving => closing (d_rt d) = false
             | Marked => closing (d_rt d) = true
             | _ => closing (d_rt d) = true ∧ demoLeases (d_rt d) = ∅
             end
}.

Implicit Types d : demo.

Lemma held_lt a n : held a n → (n < length (handles a))%nat.
Proof. intros (l & E & _). by eapply lookup_lt_Some. Qed.

Lemma numbered_ID a n l :
  appender_ok a → numbered (skeleton (a_pool a)) → handles a !! n = Some l →
  Lease_ID (Some n) a = Z.of_nat (inner l) + 1.
Proof.
  intros A [_ N] E. destruct (ao_handles a A n l E) as (z & b & Lk & _). apply looks_ID in Lk as Li.
  unfold looks in Lk. destruct (leases (a_pool a) !! inner l) as [pl|] eqn:Hl; [|done]. cbn. rewrite E, <- Li.
  apply shapes_lookup in Hl. by apply N in Hl.
Qed.

Lemma numbered_ID_inj a n1 n2 :
  appender_ok a → numbered (skeleton (a_pool a)) → held a n1 → held a n2 →
  Lease_ID (Some n1) a = Lease_ID (Some n2) a → n1 = n2.
Proof.
  intros A N (l1 & E1 & _) (l2 & E2 & _) E. rewrite (numbered_ID _ _ _ A N E1), (numbered_ID _ _ _ A N E2) in E.
  eapply (ao_inner a A); [done|done|lia].
Qed.

Lemma Lease_ID_handle a a' n : handles a' !! n = handles a !! n → Lease_ID (Some n) a' = Lease_ID (Some n) a.
Proof. intros E. cbn. by rewrite E. Qed.

Lemma stored_calls d tid : stored (d <| d_calls ::= delete tid |>) = stored d.
Proof. done. Qed.

(** A step that leaves the holders alone. *)
Lemma ok_frame d d' :
  demo_ok d → len (leases (a_pool (d_app d'))) < 2 ^ 64 → appender_ok (d_app d') →
  grows (a_pool (d_app d)) (a_pool (d_app d')) →
  (∀ n, held (d_app d) n → handles (d_app d') !! n = handles (d_app d) !! n) →
  (∀ n, held (d_app d') n → held (d_app d) n) →
  demoLeases (d_rt d') = demoLeases (d_rt d) → d_calls d' = d_calls d →
  match d_phase d' with
  | Serving => closing (d_rt d') = false
  | Marked => closing (d_rt d') = true
  | _ => closing (d_rt d') = true ∧ demoLeases (d_rt d') = ∅
  end → demo_ok d'.
Proof.
  intros [A N S C I O _] B A' [_ G] H1 H2 Em Ec P.
  assert (H3 : ∀ n, held (d_app d) n → held (d_app d') n).
  { intros n Hn. destruct Hn as (l & E & X). exists l. rewrite H1; [done|]. by exists l. }
  assert (Es : ∀ n, stored d' n ↔ stored d n) by (intros n; unfold stored; by rewrite Em).
  assert (El : ∀ n, calling d' n ↔ calling d n) by (intros n; unfold calling; by rewrite Ec).
  split; [done|apply G; [apply A|done|done]| | | | |done].
  - rewrite Em. intros id n Hn. destruct (S id n Hn) as [X1 X2]. split; [by apply H3|]. by rewrite (Lease_ID_handle _ _ _ (H1 n X1)).
  - intros n. rewrite Es, El. intros Hn%C. split; [apply H3, Hn|apply Hn].
  - by rewrite Ec.
  - intros n Hn%H2. rewrite Es, El. by apply O.
Qed.

(** Releasing handle [n], which is held by nobody else afterwards. *)
Lemma ok_release d d' n now :
  demo_ok d → held (d_app d) n → d_app d' = (Lease_Release (Some n) now (d_app d)).1 →
  len (leases (a_pool (d_app d'))) < 2 ^ 64 → closing (d_rt d') = closing (d_rt d) → d_phase d' = d_phase d →
  (∀ id m, demoLeases (d_rt d') !! id = Some m ↔ demoLeases (d_rt d) !! id = Some m ∧ m ≠ n) →
  (∀ tid c, d_calls d' !! tid = Some c ↔ d_calls d !! tid = Some c ∧ call_handle c ≠ n) → demo_ok d'.
Proof.
  intros [A N S C I O P] Hn Ea B Ecl Ep Em Ec. pose proof (ok_Lease_Release (Some n) now _ A) as A'.
  destruct (Release_held_ok n now _ A Hn) as [_ Hn']. pose proof (Release_only n now (d_app d)) as On.
  destruct (grows_runs _ _ (Release_runs n now (d_app d))) as [_ G]. rewrite <- Ea in *.
  assert (H : ∀ m, held (d_app d') m ↔ held (d_app d) m ∧ m ≠ n).
  { intros m. destruct (decide (m = n)) as [->|Hm]; [naive_solver|]. rewrite (held_only _ _ _ _ On Hm). naive_solver. }
  assert (Es : ∀ m, stored d' m ↔ stored d m ∧ m ≠ n).
  { intros m. unfold stored. setoid_rewrite Em. naive_solver. }
  assert (El : ∀ m, calling d' m ↔ calling d m ∧ m ≠ n).
  { intros m. unfold calling. setoid_rewrite Ec. naive_solver. }
  split; [done|apply G; [apply A|done|done]| | | | |].
  - intros id m [Hm Hne]%Em. destruct (S id m Hm) as [X1 X2]. split; [by apply H|].
    by rewrite (Lease_ID_handle _ _ _ (On m Hne)).
  - intros m [Hm Hne]%El. destruct (C m Hm) as [X1 X2]. split; [by apply H|]. rewrite Es. naive_solver.
  - intros t1 t2 c1 c2 [H1 _]%Ec [H2 _]%Ec. by eapply I.
  - intros m [Hm Hne]%H. destruct (O m Hm); [left; by apply Es|right; by apply El].
  - rewrite Ep, Ecl. destruct (d_phase d); try done; (split; [by apply P|]); destruct P as [_ P];
      apply map_empty; intros id; destruct (demoLeases (d_rt d') !! id) eqn:X; [|done|..]; try done;
      apply Em in X as [X _]; by rewrite P in X.
Qed.
(** What the other calls hold once the call [tid] is over. *)
Lemma calls_after d tid c :
  demo_ok d → d_calls d !! tid = Some c →
  ∀ t c', delete tid (d_calls d) !! t = Some c' ↔ d_calls d !! t = Some c' ∧ call_handle c' ≠ call_handle c.
Proof.
  intros D E t c'. rewrite lookup_delete_Some. split.
  - intros [Ht E']. split; [done|]. intros Eh. apply Ht. symmetry. by eapply (do_apart _ D).
  - intros [E' Hc]. split; [|done]. intros ->. by simplify_eq.
Qed.

Lemma take_ok d tid r now e s x :
  demo_ok d → d_calls d !! tid = None → retain_take r now e (d_rt d) = (s, x) →
  len (leases (a_pool (rt_appender s))) < 2 ^ 64 →
  demo_ok (d <| d_rt := s |> <| d_calls ::= λ m, match x with Ok n => <[tid := Retaining n]> m | Err _ => m end |>).
Proof.
  intros D Et E B. pose proof (do_app _ D) as A. destruct (retain_take_spec r now e _ s x A E) as ([A' G F] & Es & X).
  change (rt_appender (d_rt d)) with (d_app d) in *. set (k := length (handles (d_app d))) in *.
  assert (K : ∀ n, held (d_app d) n → handles (rt_appender s) !! n = handles (d_app d) !! n).
  { intros n Hn%held_lt. apply F. unfold k. lia. }
  assert (Fields : demoLeases s = demoLeases (d_rt d) ∧ closing s = closing (d_rt d)) by (by rewrite Es).
  destruct Fields as [Em Ec]. destruct x as [n|err].
  2:{ apply (ok_frame d); try done.
    - intros n Hn. destruct (decide (n = k)) as [->|Hk]; [done|]. by apply (held_only _ _ _ _ F Hk).
    - cbn. rewrite Em, Ec. apply (do_phase _ D). }
  destruct X as [-> Hk]. assert (Nk : ¬ held (d_app d) k) by (intros X%held_lt; unfold k in X; lia).
  assert (H : ∀ m, held (rt_appender s) m ↔ held (d_app d) m ∨ m = k).
  { intros m. destruct (decide (m = k)) as [->|Hm]; [naive_solver|]. rewrite (held_only _ _ _ _ F Hm). naive_solver. }
  destruct D as [_ N S C I O P]. set (d' := d <| d_rt := _ |> <| d_calls ::= _ |>).
  assert (Es' : ∀ m, stored d' m ↔ stored d m) by (intros m; unfold stored; cbn; by rewrite Em).
  assert (El : ∀ m, calling d' m ↔ calling d m ∨ m = k).
  { intros m. unfold calling. cbn. split.
    - intros (t & c & [[<- <-]|[_ Ht]]%lookup_insert_Some & Hc); [by right|left; eauto].
    - intros [(t & c & Ht & Hc)| ->]; [exists t, c|exists tid, (Retaining k)]; (split; [|done]).
      + rewrite lookup_insert_ne; [done|]. intros ->. congruence.
      + by rewrite lookup_insert_eq. }
  split; [done|apply (proj2 G); [apply A|done|done]| | | | |].
  - cbn. rewrite Em. intros id m Hm. destruct (S id m Hm) as [X1 X2]. split; [by apply H; left|].
    rewrite <- X2. apply Lease_ID_handle, (K m X1).
  - intros m [Hm| ->]%El; rewrite Es'.
    + destruct (C m Hm). split; [by apply H; left|done].
    + split; [done|]. intros [id Hid]. apply Nk. by eapply S.
  - assert (Ne : ∀ t c, d_calls d !! t = Some c → call_handle c ≠ k).
    { intros t c Ht Hc. apply Nk. rewrite <- Hc. apply C. by exists t, c. }
    cbn. intros t1 t2 c1 c2 [[<- <-]|[_ H1]]%lookup_insert_Some [[<- <-]|[_ H2]]%lookup_insert_Some; cbn; [done|..].
    + intros X. by destruct (Ne t2 c2).
    + intros X. by destruct (Ne t1 c1).
    + by apply I.
  - intros m [Hm| ->]%H; rewrite Es', El; [destruct (O m Hm); auto|auto].
  - cbn. rewrite Em, Ec. exact P.
Qed.

Lemma ok_store d tid n :
  demo_ok d → d_calls d !! tid = Some (Retaining n) → closing (d_rt d) = false →
  demo_ok (d <| d_rt ::= λ s, s <| demoLeases ::= <[Lease_ID (Some n) (rt_appender s) := n]> |> |> <| d_calls ::= delete tid |>).
Proof.
  intros D Et Hc. pose proof (calls_after d tid _ D Et) as Ca. cbn [call_handle] in Ca.
  destruct D as [A N S C I O P]. destruct (C n) as [Hn Ns]; [by exists tid, (Retaining n)|].
  set (id := Lease_ID (Some n) (d_app d)). assert (Fr : demoLeases (d_rt d) !! id = None).
  { destruct (demoLeases (d_rt d) !! id) as [m|] eqn:E; [|done]. destruct (S id m E) as [Hm Hid].
    apply (numbered_ID_inj _ _ _ A N Hm Hn) in Hid. subst m. destruct Ns. by exists id. }
  set (d' := d <| d_rt ::= _ |> <| d_calls ::= _ |>).
  assert (Es : ∀ m, stored d' m ↔ stored d m ∨ m = n).
  { intros m. unfold stored. change (demoLeases (d_rt d')) with (<[id := n]> (demoLeases (d_rt d))). split.
    - intros (i & [[_ ->]|[_ Hi]]%lookup_insert_Some); [by right|left; by exists i].
    - intros [[i Hi]| ->]; [exists i|exists id; by rewrite lookup_insert_eq].
      rewrite lookup_insert_ne; [done|]. intros ->. congruence. }
  assert (El : ∀ m, calling d' m ↔ calling d m ∧ m ≠ n).
  { intros m. unfold calling. cbn. setoid_rewrite Ca. naive_solver. }
  split; [done|done| | | | |].
  - intros i m. change (demoLeases (d_rt d')) with (<[id := n]> (demoLeases (d_rt d))).
    intros [[<- <-]|[_ Hi]]%lookup_insert_Some; [done|by apply S].
  - intros m [Hm Hne]%El. destruct (C m Hm) as [X1 X2]. split; [done|]. rewrite Es. naive_solver.
  - cbn. intros t1 t2 c1 c2 [H1 _]%Ca [H2 _]%Ca. by eapply I.
  - intros m Hm%O. rewrite Es, El. destruct (decide (m = n)); naive_solver.
  - cbn. destruct (d_phase d); [done|congruence|destruct P; congruence|destruct P; congruence].
Qed.

Lemma ok_find d tid id n :
  demo_ok d → d_calls d !! tid = None → demoLeases (d_rt d) !! id = Some n →
  demo_ok (d <| d_rt ::= λ s, s <| demoLeases ::= delete id |> |> <| d_calls ::= <[tid := Releasing n]> |>).
Proof.
  intros [A N S C I O P] Et Hi. destruct (S id n Hi) as [Hn Hid]. set (d' := d <| d_rt ::= _ |> <| d_calls ::= _ |>).
  assert (Nc : ∀ t c, d_calls d !! t = Some c → call_handle c ≠ n).
  { intros t c Ht Hc. destruct (C n) as [_ X]; [by exists t, c|]. apply X. by exists id. }
  assert (Es : ∀ m, stored d' m ↔ stored d m ∧ m ≠ n).
  { intros m. unfold stored. cbn. split.
    - intros (i & [Hne X]%lookup_delete_Some). split; [by exists i|]. intros ->. apply Hne.
      destruct (S i n X) as [_ X']. congruence.
    - intros [[i X] Hne]. exists i. apply lookup_delete_Some. split; [|done]. intros ->. congruence. }
  assert (El : ∀ m, calling d' m ↔ calling d m ∨ m = n).
  { intros m. unfold calling. cbn. split.
    - intros (t & c & [[<- <-]|[_ Ht]]%lookup_insert_Some & Hc); [by right|left; eauto].
    - intros [(t & c & Ht & Hc)| ->]; [exists t, c|exists tid, (Releasing n)]; (split; [|done]).
      + rewrite lookup_insert_ne; [done|]. intros ->. congruence.
      + by rewrite lookup_insert_eq. }
  split; [done|done| | | | |].
  - cbn. intros i m [_ X]%lookup_delete_Some. by apply S.
  - intros m [Hm| ->]%El; rewrite Es; [destruct (C m Hm); split; [done|tauto]|split; [done|tauto]].
  - cbn. intros t1 t2 c1 c2 [[<- <-]|[_ H1]]%lookup_insert_Some [[<- <-]|[_ H2]]%lookup_insert_Some; cbn; [done|..].
    + intros X. by destruct (Nc t2 c2).
    + intros X. by destruct (Nc t1 c1).
    + by apply I.
  - intros m Hm%O. rewrite Es, El. destruct (decide (m = n)); tauto.
  - cbn. destruct (d_phase d); try done; (split; [apply P|]); destruct P as [_ P]; rewrite P in Hi; done.
Qed.
(** *** [Close] *)

Definition release_all (now : Z) (l : list (Z * nat)) (a : Appender) : Appender :=
  foldl (λ a idn, (Lease_Release (Some idn.2) now a).1) a l.

Lemma release_all_runs now l : ∀ a, pool_runs (a_pool a) (a_pool (release_all now l a)).
Proof.
  induction l as [|x l IH]; intros a; [apply pool_runs_refl|]. cbn.
  eapply pool_runs_trans; [apply Release_runs|apply IH].
Qed.

Lemma ok_release_all now l : ∀ d,
  demo_ok d → NoDup l.*1 → demoLeases (d_rt d) = list_to_map l →
  len (leases (a_pool (release_all now l (d_app d)))) < 2 ^ 64 →
  demo_ok (d <| d_rt ::= λ s, s <| rt_appender ::= release_all now l |> <| demoLeases := ∅ |> |>).
Proof.
  induction l as [|[id n] l IH]; intros d D Nd Em B.
  - assert (G0 : grows (a_pool (d_app d)) (a_pool (d_app d))) by by apply grows_skeleton.
    apply (ok_frame d); try done; [apply D|].
    pose proof (do_phase _ D) as P. cbn. by destruct (d_phase d); try done; destruct P.
  - cbn [fmap list_fmap fst] in Nd. apply NoDup_cons in Nd as [N1 N2]. cbn in Em.
    assert (Ei : demoLeases (d_rt d) !! id = Some n) by (by rewrite Em, lookup_insert_eq).
    assert (Nl : (list_to_map l : gmap Z nat) !! id = None) by (by apply not_elem_of_list_to_map).
    set (d1 := d <| d_rt ::= λ s, s <| rt_appender ::= λ a, (Lease_Release (Some n) now a).1 |> <| demoLeases := list_to_map l |> |>).
    change (release_all now ((id, n) :: l) (d_app d)) with (release_all now l (d_app d1)) in B.
    apply (IH d1); [|done|done|exact B]. destruct (grows_runs _ _ (release_all_runs now l (d_app d1))) as [G _].
    apply (ok_release d d1 n now); try done; [by eapply (do_stored _ D)|lia| |].
    + intros i m. change (demoLeases (d_rt d1)) with (list_to_map l : gmap Z nat). rewrite Em, lookup_insert_Some. split.
      * intros X. split; [right; split; [congruence|done]|]. intros ->.
        assert (X' : demoLeases (d_rt d) !! i = Some n) by (rewrite Em, lookup_insert_ne; congruence).
        pose proof (proj2 (do_stored _ D _ _ X')). pose proof (proj2 (do_stored _ D _ _ Ei)). congruence.
      * intros [[[<- <-]|[_ X]] Hm]; done.
    + intros t c. change (d_calls d1) with (d_calls d). split; [|tauto]. intros Ht. split; [done|]. intros Hc.
      destruct (do_calling _ D n) as [_ X]; [by exists t, c|]. apply X. by exists id.
Qed.

Lemma release_end_eq n now (s : runtimeState Conn) :
  release_end n now s = (s <| rt_appender ::= λ a, (Lease_Release (Some n) now a).1 |>, (Lease_Release (Some n) now (rt_appender s)).2).
Proof. unfold release_end. by rewrite (surjective_pairing (Lease_Release _ _ _)). Qed.

Lemma cancel_demo_same (s : runtimeState Conn) :
  rt_appender (cancel_demo s) = rt_appender s ∧ demoLeases (cancel_demo s) = demoLeases s ∧ closing (cancel_demo s) = closing s.
Proof. unfold cancel_demo. by destruct (demoCancel s). Qed.

Lemma close_leases_same now (s : runtimeState Conn) :
  rt_appender (close_leases now s) = release_all now (map_to_list (demoLeases s)) (rt_appender s) ∧
  demoLeases (close_leases now s) = ∅ ∧ closing (close_leases now s) = closing s.
Proof. unfold close_leases, cancel_demo. by destruct (demoCancel s). Qed.

Lemma demo_step_grows d d' : demo_step d d' → appender_ok (d_app d) → grows (a_pool (d_app d)) (a_pool (d_app d')).
Proof.
  intros St A. destruct St as [tid r now e d Et|tid n now d Et|tid id d Et|tid n now d Et|r d|i level size now e d Hi|i d|d Hp
    |now d Hp|le ae d Hp Hi|a d Ho|col d Hcol].
  - destruct (retain_take r now e (d_rt d)) as [s x] eqn:E. by destruct (retain_take_spec r now e _ s x A E) as ([_ G _] & _).
  - unfold retain_store. destruct (closing (d_rt d)); [apply grows_runs, Release_runs|by apply grows_skeleton].
  - unfold release_take. by apply grows_skeleton.
  - rewrite release_end_eq. apply grows_runs, Release_runs.
  - apply grows_skeleton. unfold d_app, StartTraffic. destruct (closing _); [done|]. cbn. by rewrite (proj1 (cancel_demo_same (d_rt d))).
  - by destruct (publish_spec level size now e (d_rt d) A) as ([_ G _] & _).
  - by apply grows_skeleton.
  - unfold close_mark. destruct (closing _); by apply grows_skeleton.
  - apply grows_runs. change (d_app (d <| d_rt ::= close_leases now |> <| d_phase := Cleared |>)) with (rt_appender (close_leases now (d_rt d))).
    rewrite (proj1 (close_leases_same now (d_rt d))). apply release_all_runs.
  - unfold close_rest, close_begin. destruct (Server_Close _ _) as [[? ?] ?], (FileSink_Close _). cbn. unfold d_app. cbn.
    destruct (closeStarted _); by apply grows_skeleton.
  - destruct Ho as [a|h now a G|now a|a|f a|err a]; unfold d_app; cbn.
    + unfold take_next. destruct (Ring.TryConsume _) as [q [h|]]; [|by apply grows_skeleton].
      apply grows_runs. apply (pool_runs_call (DoMarkInFlight h)), pool_runs_refl.
    + apply grows_runs. apply (pool_runs_call (DoRelease (Some h) now)), pool_runs_refl.
    + apply grows_skeleton. apply scan_skeleton.
    + by apply grows_skeleton.
    + by apply grows_skeleton.
    + apply grows_runs. apply (pool_runs_call DoClose), pool_runs_refl.
  - by apply grows_skeleton.
Qed.
(** The steps of the flusher and the scanner do not concern the handles. *)
Lemma other_ok a a' : other a a' → appender_ok a → appender_ok a' ∧ handles a' = handles a.
Proof.
  intros O A.
  assert (St : api_step (F := ()) (λ _, Err (ErrNew "")) a a') by (destruct O; by constructor).
  split; [by eapply ok_step_api|]. destruct O; try done. unfold take_next. by destruct (Ring.TryConsume _) as [q [h|]].
Qed.

Lemma demo_step_ok d d' :
  demo_step d d' → demo_ok d → len (leases (a_pool (d_app d'))) < 2 ^ 64 → demo_ok d'.
Proof.
  intros St D B. pose proof (do_app _ D) as A. pose proof (demo_step_grows d d' St A) as G. pose proof (do_phase _ D) as P.
  destruct St as [tid r now e d Et|tid n now d Et|tid id d Et|tid n now d Et|r d|i level size now e d Hi|i d|d Hp
    |now d Hp|le ae d Hp Hi|a d Ho|col d Hcol].
  - destruct (retain_take r now e (d_rt d)) as [s x] eqn:E. by eapply take_ok.
  - destruct (do_calling _ D n) as [Hn Ns]; [by exists tid, (Retaining n)|]. unfold retain_store in *.
    destruct (closing (d_rt d)) eqn:Ec; [|by apply ok_store]. apply (ok_release d _ n now); try done.
    + intros id m. cbn. split; [|tauto]. intros X. split; [done|]. intros ->. apply Ns. by exists id.
    + exact (calls_after d tid _ D Et).
  - unfold release_take in *. cbn [fst snd] in *. destruct (demoLeases (d_rt d) !! id) as [n|] eqn:E; [by apply ok_find|].
    apply (ok_frame d); try done; cbn; rewrite delete_id by done; [done|exact P].
  - destruct (do_calling _ D n) as [Hn Ns]; [by exists tid, (Releasing n)|]. rewrite release_end_eq in *.
    apply (ok_release d _ n now); try done.
    + intros id m. cbn. split; [|tauto]. intros X. split; [done|]. intros ->. apply Ns. by exists id.
    + exact (calls_after d tid _ D Et).
  - unfold StartTraffic in *. destruct (closing (d_rt d)) eqn:Ec; [by destruct d|].
    destruct (cancel_demo_same (d_rt d)) as (E1 & E2 & E3). apply (ok_frame d); try done.
    all: unfold d_app; cbn; rewrite ?E1, ?E2, ?E3, ?Ec; try done.
  - destruct (publish_spec level size now e (d_rt d) A) as ([A' _ F] & E & N). apply (ok_frame d); try done.
    + intros n Hn%held_lt. apply F. change (rt_appender (d_rt d)) with (d_app d). lia.
    + intros n Hn. destruct (decide (n = length (handles (d_app d)))) as [->|Hk]; [done|]. by apply (held_only _ _ _ _ F Hk).
    + cbn. by rewrite E.
    + cbn. by rewrite E.
  - by apply (ok_frame d).
  - unfold close_mark in *. rewrite Hp in P. rewrite P in *. by apply (ok_frame d).
  - destruct (close_leases_same now (d_rt d)) as (E1 & E2 & E3). rewrite Hp in P.
    pose proof (ok_release_all now (map_to_list (demoLeases (d_rt d))) d D (NoDup_fst_map_to_list _)) as X.
    rewrite list_to_map_to_list in X. set (d1 := d <| d_rt ::= _ |>) in X.
    assert (Ea : d_app (d <| d_rt ::= close_leases now |> <| d_phase := Cleared |>) = d_app d1) by exact E1.
    rewrite Ea in B. specialize (X eq_refl B). apply (ok_frame d1); rewrite ?Ea; try done; [apply X|].
    split; [|done]. by rewrite <- P.
  - rewrite Hp in P. unfold close_rest in *. destruct (Server_Close _ _) as [[? ?] ?], (FileSink_Close _).
    unfold d_app in *. cbn in *. apply (ok_frame d); try done.
    all: unfold d_app; cbn; unfold close_begin; destruct (closeStarted _); try done.
    by apply (ok_calm (rt_appender (d_rt d))); [..|apply pool_runs_refl| | |].
  - destruct (other_ok _ _ Ho A) as [A' Eh]. apply (ok_frame d); try done.
    + intros n _. unfold d_app. cbn. by rewrite Eh.
    + intros n. unfold d_app, held. cbn. by rewrite Eh.
  - by apply (ok_frame d).
Qed.

Lemma ok_fold_release now l : ∀ a, appender_ok a → appender_ok (release_all now l a).
Proof. induction l as [|x l IH]; intros a A; [done|]. apply IH. by apply ok_Lease_Release. Qed.

Lemma demo_step_app d d' : demo_step d d' → appender_ok (d_app d) → appender_ok (d_app d').
Proof.
  intros St A. destruct St as [tid r now e d Et|tid n now d Et|tid id d Et|tid n now d Et|r d|i level size now e d Hi|i d|d Hp
    |now d Hp|le ae d Hp Hi|a d Ho|col d Hcol]; try done.
  - destruct (retain_take r now e (d_rt d)) as [s x] eqn:E. by destruct (retain_take_spec r now e _ s x A E) as ([G _ _] & _).
  - unfold retain_store. destruct (closing (d_rt d)); [by apply (ok_Lease_Release (Some n))|done].
  - rewrite release_end_eq. by apply (ok_Lease_Release (Some n)).
  - unfold d_app, StartTraffic. destruct (closing _); [done|]. cbn. by rewrite (proj1 (cancel_demo_same (d_rt d))).
  - by destruct (publish_spec level size now e (d_rt d) A) as ([G _ _] & _).
  - unfold close_mark. by destruct (closing _).
  - change (appender_ok (rt_appender (close_leases now (d_rt d)))). rewrite (proj1 (close_leases_same now (d_rt d))).
    by apply ok_fold_release.
  - unfold close_rest, close_begin. destruct (Server_Close _ _) as [[? ?] ?], (FileSink_Close _). unfold d_app. cbn.
    destruct (closeStarted _); [done|]. by apply (ok_calm (rt_appender (d_rt d))); [..|apply pool_runs_refl| | |].
  - by apply (other_ok _ _ Ho A).
Qed.

Lemma demo_reach_ok d : demo_reach d → len (leases (a_pool (d_app d))) < 2 ^ 64 → demo_ok d.
Proof.
  enough (H : demo_reach d → appender_ok (d_app d) ∧ (len (leases (a_pool (d_app d))) < 2 ^ 64 → demo_ok d)) by apply H.
  revert d. apply reach_invariant.
  - intros d0 ((c & options & N) & Cl & Em & Ec & Ph). pose proof (ok_New _ _ _ N) as A. split; [done|]. intros _.
    assert (Fresh : handles (d_app d0) = [] ∧ numbered (skeleton (a_pool (d_app d0)))).
    { unfold Appender.New in N.
      apply bind_Ok in N as (c1 & _ & (c2 & _ & (q & _ & (p & Hp & (f & _ & [= <-])%bind_Ok)%bind_Ok)%bind_Ok)%bind_Ok).
      split_and!; try done. cbn. unfold Pool.New in Hp. apply bind_Ok in Hp as (c' & _ & [= <-]). by split. }
    destruct Fresh as (Hh & Nu). assert (Nh : ∀ n, ¬ held (d_app d0) n) by (intros n (l & E & _); by rewrite Hh in E).
    assert (Ncl : ∀ n, ¬ calling d0 n) by (intros n (t & c0 & Ht & _); by rewrite Ec in Ht).
    split; [done|done| |by intros n ?%Ncl| |by intros n ?%Nh|by rewrite Ph].
    + intros id n. by rewrite Em.
    + intros t1 t2 c1 c2. by rewrite Ec.
  - intros d0 d1 _ [A D] St. split; [by eapply demo_step_app|]. intros B.
    destruct (demo_step_grows _ _ St A) as [G _]. eapply demo_step_ok; [exact St|apply D; lia|done].
Qed.
End Service.

(** ** Property *)

Lemma held_borrowed a n l :
  appender_ok a → handles a !! n = Some l → in_state (a_pool a) StateBorrowed (inner l) → held a n.
Proof.
  intros A E B. exists l. split; [done|]. destruct (ao_handles a A n l E) as (z & b & Lk & _ & H2 & H3).
  apply looks_state in Lk. pose proof (in_state_fun _ _ _ _ B Lk) as <-.
  destruct (transferred l), (released l); [by destruct H3|by destruct H3|by specialize (H2 eq_refl)|done].
Qed.

(** C21. Retained leases.  In every interleaving of [RetainLease], [ReleaseLease], demo
    traffic and [Close] with the flusher and the scanner (fewer than 2^64 leases
    acquired): every retained lease is borrowed and stored under its own identifier;
    a release that has taken a lease out of the map succeeds, so no lease is
    returned twice; a lease of the service that is still borrowed is in the map or
    with one call, never both; and once [Close] has been through the mutex and the
    calls in progress are over, no lease of the service is borrowed any more. *)
Theorem retained_leases {Conn} (d : demo (Conn := Conn)) :
  demo_reach d → len (leases (a_pool (d_app d))) < 2 ^ 64 →
  (∀ id n, demoLeases (d_rt d) !! id = Some n →
     Lease_ID (Some n) (d_app d) = id ∧
     ∃ l, handles (d_app d) !! n = Some l ∧ in_state (a_pool (d_app d)) StateBorrowed (inner l)) ∧
  (∀ tid n now, d_calls d !! tid = Some (Releasing n) → (release_end n now (d_rt d)).2 = None) ∧
  (∀ n l, handles (d_app d) !! n = Some l → in_state (a_pool (d_app d)) StateBorrowed (inner l) →
     (stored d n ∧ ¬ calling d n) ∨ (calling d n ∧ ¬ stored d n)) ∧
  (d_phase d = Cleared ∨ d_phase d = Finished → demoLeases (d_rt d) = ∅ ∧
     (d_calls d = ∅ → ∀ n l, handles (d_app d) !! n = Some l → ¬ in_state (a_pool (d_app d)) StateBorrowed (inner l))).
Proof.
  intros R B. pose proof (demo_reach_ok d R B) as [A N S C I O P]. split_and!.
  - intros id n [(l & E & T & Rl) Hid]%S. split; [done|]. exists l. split; [done|]. by eapply usable_borrowed.
  - intros tid n now E. rewrite release_end_eq. apply (Release_held_ok n now (d_app d) A). apply C. by exists tid, (Releasing n).
  - intros n l E Hb. pose proof (held_borrowed _ n l A E Hb) as Hn. destruct (O n Hn) as [Hs|Hc]; [left|right].
    + split; [done|]. intros Hc%C. tauto.
    + split; [done|]. by apply C.
  - intros Ph. assert (Em : demoLeases (d_rt d) = ∅) by (destruct Ph as [E|E]; rewrite E in P; apply P).
    split; [done|]. intros Ec n l E Hb. destruct (O n (held_borrowed _ n l A E Hb)) as [[id X]|(t & c & X & _)].
    + by rewrite Em in X.
    + by rewrite Ec in X.
Qed.

(** ** Example *)

(** A service that has just started. *)
Definition fresh_demo (s : runtimeState ()) : demo := mkDemo s ∅ Serving.
Definition sample_lease : DemoLeaseRequest := mkLeaseRequest 40 "warn".

Definition take_lease (tid : nat) (d : demo (Conn := ())) : demo :=
  let '(s, x) := retain_take sample_lease 7 (example_env None 5) (d_rt d) in
  d <| d_rt := s |> <| d_calls ::= λ m, match x with Ok n => <[tid := Retaining n]> m | Err _ => m end |>.

Definition store_lease (tid n : nat) (d : demo (Conn := ())) : demo :=
  d <| d_rt := (retain_store n 9 (d_rt d)).1 |> <| d_calls ::= delete tid |>.

Definition marked (d : demo (Conn := ())) : demo := d <| d_rt := (close_mark (d_rt d)).1 |> <| d_phase := Marked |>.
Definition close_through (d : demo (Conn := ())) : demo :=
  (marked d) <| d_rt ::= close_leases 8 |> <| d_phase := Cleared |>.

(** Two leases are asked for; one is stored, [Close] goes through the mutex, the
    other comes too late. *)
Definition after_close (d : demo (Conn := ())) : demo :=
  store_lease 2 1 (close_through (store_lease 1 0 (take_lease 2 (take_lease 1 d)))).

Lemma retained_leases_witness :
  match newRuntime (Conn := ()) small_config sample_disk (Ok (repeat x07 8)) 5 with
  | Started s =>
      let d := after_close (fresh_demo s) in
      length (handles (d_app d)) = 2%nat ∧
      ∀ n l, handles (d_app d) !! n = Some l → ¬ in_state (a_pool (d_app d)) StateBorrowed (inner l)
  | Failed _ _ => False
  end.
Proof.
  destruct (newRuntime (Conn := ()) small_config sample_disk (Ok (repeat x07 8)) 5) as [s|e l] eqn:E.
  2:{ vm_compute in E. discriminate E. }
  assert (X : demo_init (fresh_demo s)).
  { split_and!; [|vm_compute in E; injection E as <-; reflexivity..].
    exists (appender_config small_config), []. vm_compute in E. injection E as <-. vm_compute. reflexivity. }
  set (d2 := take_lease 2 (take_lease 1 (fresh_demo s))).
  assert (C : d_calls (take_lease 1 (fresh_demo s)) !! 2%nat = None ∧ d_calls d2 !! 1%nat = Some (Retaining 0) ∧
    d_calls (after_close (fresh_demo s)) = ∅ ∧ delete 1%nat (d_calls d2) !! 2%nat = Some (Retaining 1) ∧
    length (handles (d_app (after_close (fresh_demo s)))) = 2%nat ∧
    length (leases (a_pool (d_app (after_close (fresh_demo s))))) = 2%nat ∧ d_phase d2 = Serving).
  { vm_compute in E. injection E as <-. vm_compute. by split_and!. }
  clear E. destruct C as (C1 & C2 & C3 & C4 & C5 & C6 & C7).
  assert (R : demo_reach (after_close (fresh_demo s))).
  { pose proof (reach_step _ _ _ _ (reach_init _ _ _ X) (demo_take 1 sample_lease 7 (example_env None 5) (fresh_demo s) eq_refl)) as R1.
    pose proof (reach_step _ _ _ _ R1 (demo_take 2 sample_lease 7 (example_env None 5) _ C1)) as R2.
    pose proof (reach_step _ _ _ _ R2 (demo_store 1 0 9 d2 C2)) as R3.
    pose proof (reach_step _ _ _ _ R3 (demo_mark (store_lease 1 0 d2) C7)) as R4.
    pose proof (reach_step _ _ _ _ R4 (demo_clear 8 (marked (store_lease 1 0 d2)) eq_refl)) as R5.
    exact (reach_step _ _ _ _ R5 (demo_store 2 1 9 (close_through (store_lease 1 0 d2)) C4)). }
  split; [exact C5|]. destruct (retained_leases _ R) as (_ & _ & _ & H); [rewrite C6; lia|].
  apply H; [by left|exact C3].
Defined.
