(* ===== verification/Daemon.v ===== *)
(** * The process (cmd/minilogbackd/main.go)

    [run]: the start with what is closed when a step fails, the wait for a signal or
    for a server's error, and the shutdown, interleaved with the HTTP requests, the
    demo calls of [DemoLeases], the collector's accept loop and the clock.  Each of the
    two listeners is open until somebody closes it, and its goroutine may not have
    got to [Serve] when the shutdown comes.  Of [http.Server] only what its
    documentation says of [Serve] and [Shutdown] is used. *)

From stdpp Require Import gmap strings list fin_maps.
From Stdlib Require Import ZArith Lia.
From Stdlib.Strings Require Import Byte.
From S2P Require Import Prelude GoLib GoText Config Collector FileSink HttpApi Telemetry Ring Pool PoolInv Flusher FlushInv Appender AppenderSafety Runtime Publishing RuntimeStart DemoLeases.

(** [http.ErrServerClosed], [net.ErrClosed], [context.DeadlineExceeded] *)
Definition ErrServerClosed : error := ErrNew "http: Server closed".
Definition net_ErrClosed : error := ErrNew "use of closed network connection".
Definition DeadlineExceeded : error := ErrNew "context deadline exceeded".

Definition normalizeServeError (err : option error) : option error :=
  match err with
  | Some e => if errors_Is e "http: Server closed" || errors_Is e "use of closed network connection" then None else Some e
  | None => None
  end.

(** ** The start *)

(** What a refused start closes, in order. *)
Inductive close_action := CloseHttpListener | CloseRuntime.

Section Process.
Context {Conn : Type}.

Inductive start_result :=
| Ready (rt : runtimeState Conn) (sampler : Sampler)
| Refused (e : error) (closes : list close_action).

(** [run] up to the ready message.  [load] is the answer of [config.Load], the last
    two arguments those of [net.Listen]. *)
Definition start (load : result Config.Config) (d : disk) (random : result (list byte)) (now goroutines heap : Z)
  (listenHTTP listenIngest : option error) : start_result :=
  match load with
  | Err e => Refused (ErrWrap "load config: %w" e) []
  | Ok cfg =>
      match newRuntime cfg d random now with
      | Failed e _ => Refused (ErrWrap "initialize runtime: %w" e) []
      | Started rt =>
          match NewSampler false (Config.TelemetryInterval cfg) (Config.SSEMaxClients cfg) (TelemetrySnapshot rt) now goroutines heap with
          | Err e => Refused e [CloseRuntime]
          | Ok sampler =>
              match New_check true true true true with
              | Err e => Refused e [CloseRuntime]
              | Ok () =>
                  match listenHTTP with
                  | Some e => Refused (ErrWrap "listen HTTP: %w" e) [CloseRuntime]
                  | None =>
                      match listenIngest with
                      | Some e => Refused (ErrWrap "listen collector: %w" e) [CloseHttpListener; CloseRuntime]
                      | None => Ready rt sampler
                      end
                  end
              end
          end
      end
  end.

(** ** Serving and shutting down *)

(** A request in progress; a metrics stream lasts until its client has gone. *)
Inductive request := Short | Streaming.

(** Where [run] is: in the [select], in [Shutdown], in [runtime.Close], returned. *)
Inductive main_pc := MSelect | MShutdown | MClose | MReturn (err : option error).

(** A serving goroutine: before its [Serve], in the accept loop, past it. *)
Inductive serving := ServeStarting | ServeAccepting | ServeReturned.

(** [m_http], [m_ingest]: the listener is open; [m_errors]: the channel of the two
    serving goroutines; [m_deadline]: the shutdown context's; [m_unserved] records that
    [Close] ran while the collector had no listener yet. *)
Record daemon := mkDaemon {
  m_pc : main_pc; m_demo : demo (Conn := Conn); m_signal : bool; m_sampling : bool;
  m_http : bool; m_httpServe : serving; m_ingest : bool; m_ingestServe : serving;
  m_errors : list (option error); m_requests : gmap nat request;
  m_now : Z; m_deadline : Z; m_serveErr : option error; m_httpErr : option error; m_unserved : bool
}.

#[export] Instance daemon_fields : Fields daemon := λ r,
  mkDaemon (m_pc r) (m_demo r) (m_signal r) (m_sampling r) (m_http r) (m_httpServe r) (m_ingest r) (m_ingestServe r)
    (m_errors r) (m_requests r) (m_now r) (m_deadline r) (m_serveErr r) (m_httpErr r) (m_unserved r).

Definition m_collector (m : daemon) : Server := rt_collector (d_rt (m_demo m)).
Definition set_collector (col : Server) (m : daemon) : daemon :=
  m <| m_demo ::= λ d, d <| d_rt ::= λ s, s <| rt_collector := col |> |> |>.

Definition m_config (m : daemon) : Config.Config := rt_config (d_rt (m_demo m)).

(** A goroutine's answer to [errorsChannel]. *)
Definition report (e : option error) (m : daemon) : daemon := m <| m_errors ::= λ l, l ++ [e] |>.

(** [httpServer.Serve] is entered: after [Shutdown] it closes the listener and returns
    [ErrServerClosed]. *)
Definition http_enters (m : daemon) : daemon :=
  match m_pc m with
  | MSelect => m <| m_httpServe := ServeAccepting |>
  | _ => report (normalizeServeError (Some ErrServerClosed)) (m <| m_http := false |> <| m_httpServe := ServeReturned |>)
  end.

(** [httpServer.Serve] returns from its loop; it closes its listener. *)
Definition http_returns (e : error) (m : daemon) : daemon :=
  report (normalizeServeError (Some e)) (m <| m_http := false |> <| m_httpServe := ServeReturned |>).

(** [collector.Serve] is entered: it keeps its listener, unless it has one. *)
Definition ingest_enters (m : daemon) : daemon :=
  match Serve_start (m_collector m) with
  | (Some e, col) => report (Some e) ((set_collector col m) <| m_ingestServe := ServeReturned |>)
  | (None, col) => (set_collector col m) <| m_ingestServe := ServeAccepting |>
  end.

(** After the [select]: [serviceCancel], the shutdown context, and [Shutdown], which
    first closes the listener that is being served. *)
Definition begin_shutdown (serveErr : option error) (m : daemon) : daemon :=
  m <| m_pc := MShutdown |> <| m_sampling := false |> <| m_deadline := m_now m + Config.ShutdownTimeout (m_config m) |>
    <| m_http ::= λ open, match m_httpServe m with ServeStarting => open | _ => false end |> <| m_serveErr := serveErr |>.

(** The error of [Appender.Close]. *)
Definition close_error (r : close_result) : option error :=
  match r with
  | CloseDone err => err
  | CloseTimeout e => Some (ErrWrap "flusher close timed out: queued=%d in_flight=%d: %v" (Cause e))
  end.

(** The end of [runtime.Close] and of [run]: [collector.Close] closes the ingest
    listener when [Serve] has stored it. *)
Definition finish (le : option error) (r : close_result) (m : daemon) : daemon :=
  let '(rt, runtimeErr) := close_rest le (close_error r) (d_rt (m_demo m)) in
  m <| m_demo := (m_demo m) <| d_rt := rt |> <| d_phase := Finished |> |>
    <| m_ingest ::= λ open, if listening (m_collector m) then false else open |>
    <| m_unserved := negb (listening (m_collector m)) |>
    <| m_pc := MReturn (errors_Join (errors_Join (m_serveErr m) (m_httpErr m)) runtimeErr) |>.

(** A step of the demo calls or of the flusher, which leaves the collector alone. *)
Definition demo_moves (m : daemon) (d : demo) : Prop :=
  demo_step (m_demo m) d ∧ rt_collector (d_rt d) = m_collector m.

Inductive daemon_step : daemon → daemon → Prop :=
| m_tick dt m : 0 <= dt → daemon_step m (m <| m_now ::= Z.add dt |>)
| m_signalled m : daemon_step m (m <| m_signal := true |>)
| m_request id r m : m_http m = true → m_httpServe m = ServeAccepting → m_requests m !! id = None →
    daemon_step m (m <| m_requests ::= <[id := r]> |>)
| m_answered id m : m_requests m !! id = Some Short → daemon_step m (m <| m_requests ::= delete id |>)
| m_client_gone id m : m_requests m !! id = Some Streaming → daemon_step m (m <| m_requests ::= delete id |>)
| m_http_enters m : m_httpServe m = ServeStarting → daemon_step m (http_enters m)
| m_http_returns e m : m_httpServe m = ServeAccepting → (m_http m = false → e = ErrServerClosed) →
    daemon_step m (http_returns e m)
| m_ingest_enters m : m_ingestServe m = ServeStarting → daemon_step m (ingest_enters m)
| m_ingest_accepts a col o m : m_ingestServe m = ServeAccepting → (∀ id, a = Collector.Accepted id → m_ingest m = true) →
    serve_accept a (m_collector m) = (col, o) → (∀ err, o ≠ Stop err) → daemon_step m (set_collector col m)
| m_ingest_returns e t col err m : m_ingestServe m = ServeAccepting → (m_ingest m = false → e = net_ErrClosed) →
    serve_accept (AcceptErr e t) (m_collector m) = (col, Stop err) →
    daemon_step m (report err ((set_collector col m) <| m_ingestServe := ServeReturned |>))
| m_connection col m : (* a connection's goroutine *)
    turn_frame (m_collector m) col ∨ (∃ id, col = finish_connection id (m_collector m)) → daemon_step m (set_collector col m)
| m_demo_step d m : demo_moves m d → d_phase d = d_phase (m_demo m) → daemon_step m (m <| m_demo := d |>)
| m_select_signal m : m_pc m = MSelect → m_signal m = true → daemon_step m (begin_shutdown None m)
| m_select_error e l m : m_pc m = MSelect → m_errors m = e :: l →
    daemon_step m (begin_shutdown e (m <| m_errors := l |>))
| m_idle le m : m_pc m = MShutdown → m_requests m = ∅ → daemon_step m (m <| m_httpErr := le |> <| m_pc := MClose |>)
| m_expired m : m_pc m = MShutdown → m_deadline m <= m_now m →
    daemon_step m (m <| m_httpErr := Some DeadlineExceeded |> <| m_pc := MClose |>)
| m_close d m : m_pc m = MClose → demo_moves m d → d_phase d ≠ Finished → daemon_step m (m <| m_demo := d |>)
| m_finish le r m : m_pc m = MClose → d_phase (m_demo m) = Cleared → demo_idle (d_rt (m_demo m)) = true →
    (∀ e, r = CloseTimeout e → m_deadline m <= m_now m) → daemon_step m (finish le r m).

(** A process that has just become ready. *)
Definition daemon_init (m : daemon) : Prop :=
  m_pc m = MSelect ∧ demo_init (m_demo m) ∧ listening (m_collector m) = false ∧
  m_http m = true ∧ m_httpServe m = ServeStarting ∧ m_ingest m = true ∧ m_ingestServe m = ServeStarting ∧
  m_errors m = [] ∧ m_requests m = ∅ ∧ m_sampling m = true.

Definition daemon_reach : daemon → Prop := reach daemon_init daemon_step.

(** ** What the runtime keeps *)

Lemma retain_take_fields r now e (s : runtimeState Conn) :
  (retain_take r now e s).1 = s <| rt_appender := rt_appender (retain_take r now e s).1 |>.
Proof.
  unfold retain_take. destruct (closing s); [by destruct s|]. destruct (AcquireFor _ _ _ _) as [a [n|err]]; [|done].
  by destruct (fill_lease _ _ _ _ _) as [a2 [e2|]].
Qed.

Lemma publish_fields level size now e (s : runtimeState Conn) :
  publish level size now e s = s <| rt_appender := rt_appender (publish level size now e s) |>.
Proof.
  unfold publish. destruct (Acquire _ _ _) as [a [n|err]]; [|done].
  destruct (fill_lease _ _ _ _ _) as [a2 [e2|]]; [done|]. by destruct (TryPublishLease _ _ _) as [a3 x].
Qed.

(** Once the service is closing no generator starts, and a cancelled collector stays
    cancelled. *)
Lemma demo_step_closing (d d' : demo (Conn := Conn)) :
  demo_step d d' → closing (d_rt d) = true →
  closing (d_rt d') = true ∧ generators (d_rt d') ⊆ generators (d_rt d) ∧
  (cancelled (rt_collector (d_rt d)) = true → cancelled (rt_collector (d_rt d')) = true).
Proof.
  intros St C. destruct St as [tid r now e d Et|tid n now d Et|tid id d Et|tid n now d Et|r d|i level size now e d Hi|i d|d Hp
    |now d Hp|le ae d Hp Hi|a d Ho|col d Hcol].
  - pose proof (retain_take_fields r now e (d_rt d)) as E. destruct (retain_take r now e (d_rt d)) as [s x]. cbn [fst] in E.
    cbn. by rewrite E.
  - unfold retain_store. rewrite C. done.
  - done.
  - by rewrite release_end_eq.
  - unfold StartTraffic. by rewrite C.
  - cbn. by rewrite publish_fields.
  - cbn. split_and!; [done|set_solver|done].
  - unfold close_mark. by rewrite C.
  - unfold close_leases, cancel_demo. cbn. by destruct (demoCancel (d_rt d)).
  - unfold close_rest, Server_Close. by destruct (FileSink_Close _).
  - done.
  - cbn. split_and!; [done|done|congruence].
Qed.

(** ** The invariant *)

Definition closing_phase (p : close_phase) : bool := match p with Serving => false | _ => true end.

(** A goroutine that has still to answer. *)
Definition busy (s : serving) : nat := match s with ServeReturned => 0 | _ => 1 end.

Record daemon_ok (m : daemon) : Prop := mkDaemonOk {
  dk_demo : demo_reach (m_demo m);
  dk_senders : (length (m_errors m) + busy (m_httpServe m) + busy (m_ingestServe m) <= 2)%nat;
  dk_open : m_pc m = MSelect ∨ ((m_http m = true → m_httpServe m = ServeStarting) ∧ m_sampling m = false);
  dk_ingest : ∀ err, m_pc m = MReturn err → m_ingest m = true → m_unserved m = true;
  dk_before : (m_pc m = MSelect ∨ m_pc m = MShutdown) → d_phase (m_demo m) = Serving;
  dk_waited : m_pc m = MSelect ∨ m_pc m = MShutdown ∨ m_requests m = ∅ ∨
    (m_httpErr m = Some DeadlineExceeded ∧ m_deadline m <= m_now m);
  dk_finished : d_phase (m_demo m) = Finished →
    generators (d_rt (m_demo m)) = ∅ ∧ cancelled (rt_collector (d_rt (m_demo m))) = true;
  dk_return : ∀ err, m_pc m = MReturn err → d_phase (m_demo m) = Finished ∧
    (err = None → m_serveErr m = None ∧ m_httpErr m = None)
}.

Lemma demo_reach_closing (d : demo (Conn := Conn)) :
  demo_reach d → closing_phase (d_phase d) = true → closing (d_rt d) = true.
Proof.
  revert d. apply (reach_invariant _ _ (λ d, closing_phase (d_phase d) = true → closing (d_rt d) = true)).
  - intros d (_ & _ & _ & _ & ->). done.
  - intros d d' _ IH St Ph. destruct (closing (d_rt d)) eqn:C; [by apply (demo_step_closing d d')|].
    assert (N : closing_phase (d_phase d) = false) by (destruct (closing_phase _); [discriminate (IH eq_refl)|done]). clear IH.
    destruct St as [tid r now e d Et|tid n now d Et|tid id d Et|tid n now d Et|r d|i level size now e d Hi|i d|d Hp
      |now d Hp|le ae d Hp Hi|a d Ho|col d Hcol]; try (cbn in Ph; congruence).
    + destruct (retain_take _ _ _ _). cbn in Ph. congruence.
    + unfold close_mark. by rewrite C.
    + by rewrite Hp in N.
    + by rewrite Hp in N.
Qed.

Lemma finish_demo le r m :
  m_demo (finish le r m) =
  (m_demo m) <| d_rt := (close_rest le (close_error r) (d_rt (m_demo m))).1 |> <| d_phase := Finished |>.
Proof. unfold finish. by destruct (close_rest _ _ _). Qed.

Lemma finish_return le r m :
  ∃ runtimeErr, m_pc (finish le r m) = MReturn (errors_Join (errors_Join (m_serveErr m) (m_httpErr m)) runtimeErr) ∧
  finish le r m =
    m <| m_demo := m_demo (finish le r m) |>
      <| m_ingest ::= λ open, if listening (m_collector m) then false else open |>
      <| m_unserved := negb (listening (m_collector m)) |> <| m_pc := m_pc (finish le r m) |>.
Proof. unfold finish. destruct (close_rest _ _ _) as [rt e]. by exists e. Qed.

Lemma errors_Join_None a b : errors_Join a b = None → a = None ∧ b = None.
Proof. by destruct a, b. Qed.

Lemma dk_demo_step m d :
  daemon_ok m → demo_step (m_demo m) d → (d_phase d = d_phase (m_demo m) ∨ (m_pc m = MClose ∧ d_phase d ≠ Finished)) →
  daemon_ok (m <| m_demo := d |>).
Proof.
  intros [R S O I B W F E] St P. assert (R' : demo_reach d) by (by eapply reach_step).
  split; try done; cbn.
  - intros Hpc. destruct P as [->|[X _]]; [by apply B|]. rewrite X in Hpc. by destruct Hpc.
  - intros Hf. destruct P as [P|[_ P]]; [|done]. rewrite P in Hf. destruct (F Hf) as [G C].
    destruct (demo_step_closing _ _ St) as (_ & G' & C'); [by apply demo_reach_closing; [|rewrite Hf]|].
    split; [set_solver|auto].
  - intros err Hr. destruct (E err Hr) as [X Y]. split; [|done]. destruct P as [->|[P _]]; [done|congruence].
Qed.

(** The collector's own moves, while it is not cancelled. *)
Lemma dk_collector col m :
  daemon_ok m → cancelled col = cancelled (m_collector m) → daemon_ok (set_collector col m).
Proof.
  intros D C. apply (dk_demo_step m _ D); [by apply demo_collector|by left].
Qed.

(** A serving goroutine ends: the HTTP server's with its listener closed. *)
Lemma dk_http_ends e m :
  daemon_ok m → m_httpServe m ≠ ServeReturned →
  daemon_ok (report e (m <| m_http := false |> <| m_httpServe := ServeReturned |>)).
Proof.
  intros [R S O I B W F E] Hs. split; try done; cbn.
  - rewrite length_app. cbn. assert (busy (m_httpServe m) = 1%nat) by (by destruct (m_httpServe m)). lia.
  - destruct O as [?|[_ ?]]; [by left|by right].
Qed.

Lemma dk_ingest_ends e m :
  daemon_ok m → m_ingestServe m ≠ ServeReturned → daemon_ok (report e (m <| m_ingestServe := ServeReturned |>)).
Proof.
  intros [R S O I B W F E] Hs. split; try done; cbn.
  rewrite length_app. cbn. assert (busy (m_ingestServe m) = 1%nat) by (by destruct (m_ingestServe m)). lia.
Qed.

Lemma Serve_start_cancelled s : cancelled (Serve_start s).2 = cancelled s.
Proof. unfold Serve_start. by destruct (listening s). Qed.

Lemma serve_accept_cancelled a s col o : serve_accept a s = (col, o) → cancelled col = cancelled s.
Proof. unfold serve_accept. destruct a as [id|e t]; destruct_ifs; by intros [= <- <-]. Qed.

Lemma finish_ok le r m :
  m_pc m = MClose → d_phase (m_demo m) = Cleared → demo_idle (d_rt (m_demo m)) = true →
  daemon_ok m → daemon_ok (finish le r m).
Proof.
  intros Hpc Hp Hi [R S O I B W F E]. destruct (finish_return le r m) as (re & Epc & Em).
  pose proof (finish_demo le r m) as Ed.
  assert (R' : demo_reach (m_demo (finish le r m))).
  { rewrite Ed. eapply reach_step; [exact R|]. by apply demo_rest. }
  rewrite Em. split; cbn; rewrite ?Epc; try done.
  - right. destruct O as [X|?]; [congruence|done].
  - intros _ _. by destruct (listening (m_collector m)).
  - by intros [|].
  - destruct W as [X|[X|W]]; [congruence..|]. tauto.
  - rewrite Ed. intros _. cbn. apply bool_decide_eq_true in Hi. unfold close_rest, Server_Close.
    by destruct (FileSink_Close _).
  - intros err [= <-]. rewrite Ed. split; [done|]. by intros [[? ?]%errors_Join_None _]%errors_Join_None.
Qed.

Lemma begin_shutdown_ok e m : m_pc m = MSelect → daemon_ok m → daemon_ok (begin_shutdown e m).
Proof.
  intros Hpc [R S O I B W F E]. split; try done; cbn.
  - right. split; [|done]. by destruct (m_httpServe m).
  - intros _. apply B. by left.
  - by right; left.
Qed.

Lemma daemon_step_ok m m' : daemon_step m m' → daemon_ok m → daemon_ok m'.
Proof.
  intros St D. destruct St as [dt m Hdt|m|id r m Hh Hs Hid|id m Hid|id m Hid|m Hs|e m Hs He|m Hs|a col o m Hs Ha Ho Hn
    |e t col err m Hs He Ho|col m Hc|d m [St _] Hp|m Hpc Hsig|e l m Hpc Hl|le m Hpc Hr|m Hpc Hd|d m Hpc [St _] Hp|le r m Hpc Hp Hi Hr].
  1-5: destruct D as [R S O I B W F E]; split; try done; cbn.
  - destruct W as [?|[?|[?|[? ?]]]]; auto. do 3 right. split; [done|lia].
  - destruct W as [?|[?|[?|?]]]; auto. destruct O as [?|[X _]]; [auto|]. specialize (X Hh). congruence.
  - destruct W as [?|[?|[X|?]]]; auto. by rewrite X in Hid.
  - destruct W as [?|[?|[X|?]]]; auto. by rewrite X in Hid.
  - unfold http_enters. destruct (m_pc m) eqn:Hpc; [|by apply dk_http_ends; [|rewrite Hs]..].
    destruct D as [R S O I B W F E]. rewrite Hs in S. split; try done; cbn. by left.
  - apply dk_http_ends; [done|by rewrite Hs].
  - pose proof (Serve_start_cancelled (m_collector m)) as C. unfold ingest_enters.
    destruct (Serve_start (m_collector m)) as [[e|] col]; cbn in C.
    + apply dk_ingest_ends; [by apply dk_collector|cbn; by rewrite Hs].
    + pose proof (dk_collector col m D C) as [R S O I B W F E]. cbn in S. rewrite Hs in S. by split.
  - apply dk_collector; [done|by eapply serve_accept_cancelled].
  - apply dk_ingest_ends; [|cbn; by rewrite Hs]. apply dk_collector; [done|by eapply serve_accept_cancelled].
  - apply dk_collector; [done|]. by destruct Hc as [(_ & _ & _ & _ & _ & _ & ?)|[id ->]].
  - by apply dk_demo_step; [..|left].
  - by apply begin_shutdown_ok.
  - apply begin_shutdown_ok; [done|]. destruct D as [R S O I B W F E]. rewrite Hl in S. split; try done; cbn in *; lia.
  - destruct D as [R S O I B W F E]. split; try done; cbn; [right; destruct O as [X|]; [congruence|done]|by intros [|]|by do 2 right; left].
  - destruct D as [R S O I B W F E]. split; try done; cbn; [right; destruct O as [X|]; [congruence|done]|by intros [|]|by do 3 right].
  - by apply dk_demo_step; [..|right].
  - by apply finish_ok.
Qed.

Lemma daemon_reach_ok m : daemon_reach m → daemon_ok m.
Proof.
  revert m. apply reach_invariant.
  - intros m (E1 & Hd & _ & E2 & E3 & E4 & E5 & E6 & E7 & E8). pose proof (reach_init _ demo_step _ Hd) as R.
    destruct Hd as (_ & _ & _ & _ & P). split; rewrite ?E1, ?E3, ?E5, ?E6, ?E7, ?P; try done; auto.
  - intros m m' _ D St. by eapply daemon_step_ok.
Qed.
End Process.

(** C24. The end of the process.  When [run] has returned, on a signal or because a
    server failed: the HTTP listener is closed, unless its goroutine has not got to
    [Serve] yet, which then closes it; the ingest listener is closed, unless
    [collector.Close] ran before [Serve] had stored it, and then nobody closes it
    ([ingest_left_open] is such a run).  The sampler is stopped, the service closing,
    its collector cancelled, no demo traffic runs and no lease is retained, and when
    the calls in progress are over no lease of the service is borrowed; the channel
    never held more than its two errors, so no serving goroutine is stuck.  A request
    may still be in progress only if the shutdown timeout has run out and [run]
    reports it; without an error no request was cut off.  (A metrics stream whose
    client stays is such a request: [Shutdown] does not end it.) *)
Theorem run_shutdown {Conn} (m : daemon (Conn := Conn)) err :
  daemon_reach m → len (leases (a_pool (d_app (m_demo m)))) < 2 ^ 64 → m_pc m = MReturn err →
  let rt := d_rt (m_demo m) in
  (m_http m = true → m_httpServe m = ServeStarting) ∧ (m_ingest m = true → m_unserved m = true) ∧
  m_sampling m = false ∧ (length (m_errors m) <= 2)%nat ∧
  closing rt = true ∧ cancelled (rt_collector rt) = true ∧ generators rt = ∅ ∧ demoLeases rt = ∅ ∧
  (d_calls (m_demo m) = ∅ → ∀ n, ¬ held (rt_appender rt) n) ∧
  (m_requests m ≠ ∅ → m_httpErr m = Some DeadlineExceeded ∧ m_deadline m <= m_now m ∧ err ≠ None) ∧
  (err = None → m_requests m = ∅ ∧ m_serveErr m = None).
Proof.
  intros R B Hpc rt. pose proof (daemon_reach_ok m R) as [Rd S O I _ W F E]. destruct (E err Hpc) as [Ph He].
  destruct (F Ph) as [G C]. pose proof (demo_reach_ok _ Rd B) as [_ _ _ _ _ Ow P]. rewrite Ph in P. destruct P as [P1 P2].
  assert (Hr : m_requests m = ∅ ∨ (m_httpErr m = Some DeadlineExceeded ∧ m_deadline m <= m_now m)).
  { rewrite Hpc in W. by destruct W as [?|[?|?]]. }
  rewrite Hpc in O. destruct O as [?|[O1 O2]]; [done|].
  split_and!; try done; [by apply (I err)|lia|..].
  - intros Ec n Hn. destruct (Ow n Hn) as [[id X]|(t & c & X & _)]; [unfold rt in *; by rewrite P2 in X|by rewrite Ec in X].
  - intros Hne. destruct Hr as [|[H1 H2]]; [done|]. split_and!; try done. intros ->. destruct (He eq_refl). congruence.
  - intros ->. destruct (He eq_refl) as [E1 E2]. split; [|done]. destruct Hr as [|[H1 H2]]; [done|congruence].
Qed.

(** ** Examples *)

Definition idle_daemon (s : runtimeState ()) : daemon (Conn := ()) :=
  mkDaemon MSelect (fresh_demo s) false true true ServeStarting true ServeStarting [] ∅ 0 0 None None false.
Definition streaming (m : daemon (Conn := ())) : daemon := m <| m_requests ::= <[1%nat := Streaming]> |>.
Definition signalled (m : daemon (Conn := ())) : daemon := m <| m_signal := true |>.
Definition later (m : daemon (Conn := ())) : daemon := m <| m_now ::= Z.add 5000000000 |>.
Definition timed_out (m : daemon (Conn := ())) : daemon := m <| m_httpErr := Some DeadlineExceeded |> <| m_pc := MClose |>.
Definition drained (m : daemon (Conn := ())) : daemon := m <| m_httpErr := None |> <| m_pc := MClose |>.
Definition cleared (d : demo (Conn := ())) : demo := d <| d_rt ::= close_leases 8 |> <| d_phase := Cleared |>.
Definition on_demo (f : demo → demo) (m : daemon (Conn := ())) : daemon := m <| m_demo := f (m_demo m) |>.
Definition closing_down (m : daemon (Conn := ())) : daemon := on_demo cleared (on_demo marked m).
Definition late : close_result := CloseTimeout (mkCloseTimeout 0 0 DeadlineExceeded).

(** Both servers run and a metrics stream is open when the signal comes; its client
    stays; the five seconds of the default shutdown timeout pass, and the appender is
    given an expired context. *)
Definition served (s : runtimeState ()) : daemon := ingest_enters (http_enters (idle_daemon s)).
Definition cut_off (s : runtimeState ()) : daemon :=
  finish None late (closing_down (timed_out (later (begin_shutdown None (signalled (streaming (served s))))))).

(** The signal comes before the collector's goroutine has got to [Serve]. *)
Definition overtaken (s : runtimeState ()) : daemon :=
  finish None (CloseDone None) (closing_down (drained (begin_shutdown None (signalled (http_enters (idle_daemon s)))))).

(** [runtime.Close] to its end, with the demo calls done. *)
Lemma close_down_reach (m : daemon (Conn := ())) le r :
  daemon_reach m → m_pc m = MClose → d_phase (m_demo m) = Serving →
  demo_idle (d_rt (cleared (marked (m_demo m)))) = true → (∀ e, r = CloseTimeout e → m_deadline m <= m_now m) →
  daemon_reach (finish le r (closing_down m)).
Proof.
  intros R Hpc Hp Hi Hr.
  assert (M : demo_moves m (marked (m_demo m))).
  { split; [by apply demo_mark|]. unfold marked, m_collector, close_mark. by destruct (closing _). }
  assert (C : demo_moves (on_demo marked m) (cleared (marked (m_demo m)))).
  { split; [by apply demo_clear|]. unfold cleared, m_collector, close_leases, cancel_demo. cbn. by destruct (demoCancel _). }
  pose proof (reach_step _ _ _ _ R (m_close _ m Hpc M ltac:(done))) as R1.
  pose proof (reach_step _ _ _ _ R1 (m_close _ (on_demo marked m) Hpc C ltac:(done))) as R2.
  exact (reach_step _ _ _ _ R2 (m_finish le r (closing_down m) Hpc eq_refl Hi Hr)).
Qed.

(** The runtime of a small configuration, and what the runs below need of it. *)
Definition small_runtime (s : runtimeState ()) : Prop :=
  newRuntime (Conn := ()) small_config sample_disk (Ok (repeat x07 8)) 5 = Started s.

Lemma small_runtime_ok s :
  small_runtime s →
  demo_init (fresh_demo s) ∧ listening (rt_collector s) = false ∧
  m_deadline (later (begin_shutdown None (signalled (streaming (served s))))) <=
    m_now (later (begin_shutdown None (signalled (streaming (served s))))) ∧
  demo_idle (d_rt (cleared (marked (m_demo (served s))))) = true ∧
  demo_idle (d_rt (cleared (marked (fresh_demo s)))) = true ∧
  (length (leases (a_pool (d_app (m_demo (cut_off s))))) = 0%nat ∧ m_ingest (cut_off s) = false) ∧
  m_pc (overtaken s) = MReturn None ∧ m_ingest (ingest_enters (overtaken s)) = true ∧
  (serve_accept (Collector.Accepted 1) (m_collector (ingest_enters (overtaken s)))).2 = Handle 1 ∧
  m_ingestServe (overtaken s) = ServeStarting.
Proof.
  intros E. split; [split_and!|].
  - exists (appender_config small_config), []. vm_compute in E. injection E as <-. vm_compute. reflexivity.
  - vm_compute in E. injection E as <-. reflexivity.
  - vm_compute in E. injection E as <-. reflexivity.
  - reflexivity.
  - reflexivity.
  - vm_compute in E. injection E as <-. vm_compute. split_and!; congruence.
Qed.

Lemma small_runtime_exists : ∃ s, small_runtime s.
Proof.
  unfold small_runtime. destruct (newRuntime _ _ _ _) as [s|e l] eqn:E; [by exists s|]. vm_compute in E. discriminate E.
Qed.

Lemma served_reach s : small_runtime s → daemon_reach (idle_daemon s) ∧ daemon_reach (served s).
Proof.
  intros (Hi & Hl & _)%small_runtime_ok.
  assert (R0 : daemon_reach (idle_daemon s)) by (apply reach_init; by split_and!).
  pose proof (reach_step _ _ _ _ R0 (m_http_enters (idle_daemon s) eq_refl)) as R1.
  split; [done|]. exact (reach_step _ _ _ _ R1 (m_ingest_enters (http_enters (idle_daemon s)) eq_refl)).
Qed.

Lemma served_shape s :
  small_runtime s → served s = (set_collector (Serve_start (rt_collector s)).2 (idle_daemon s))
    <| m_httpServe := ServeAccepting |> <| m_ingestServe := ServeAccepting |>.
Proof.
  intros (_ & Hl & _)%small_runtime_ok. unfold served, ingest_enters, http_enters, Serve_start, m_collector. cbn. by rewrite Hl.
Qed.

Lemma ingest_enters_pc {Conn} (m : daemon (Conn := Conn)) : m_pc (ingest_enters m) = m_pc m.
Proof. unfold ingest_enters. by destruct (Serve_start _) as [[e|] col]. Qed.

Lemma overtaken_reach s : small_runtime s → daemon_reach (overtaken s).
Proof.
  intros E. destruct (served_reach s E) as [R0 _]. destruct (small_runtime_ok s E) as (_ & _ & _ & _ & Hid & _).
  pose proof (reach_step _ _ _ _ R0 (m_http_enters (idle_daemon s) eq_refl)) as R1.
  pose proof (reach_step _ _ _ _ R1 (m_signalled (http_enters (idle_daemon s)))) as R2.
  pose proof (reach_step _ _ _ _ R2 (m_select_signal (signalled (http_enters (idle_daemon s))) eq_refl eq_refl)) as R3.
  pose proof (reach_step _ _ _ _ R3 (m_idle None (begin_shutdown None (signalled (http_enters (idle_daemon s)))) eq_refl eq_refl)) as R4.
  unfold overtaken. apply close_down_reach; [exact R4|reflexivity|reflexivity|exact Hid|done].
Qed.

(** [Close] overtakes [Serve]: [run] returns nil with the ingest listener open, and the
    collector's goroutine then serves it and takes a connection. *)
Lemma ingest_left_open s :
  small_runtime s →
  daemon_reach (ingest_enters (overtaken s)) ∧ m_pc (ingest_enters (overtaken s)) = MReturn None ∧
  m_ingest (ingest_enters (overtaken s)) = true ∧
  (serve_accept (Collector.Accepted 1) (m_collector (ingest_enters (overtaken s)))).2 = Handle 1.
Proof.
  intros E. pose proof (overtaken_reach s E) as R.
  destruct (small_runtime_ok s E) as (_ & _ & _ & _ & _ & _ & Hpc & Hopen & Hacc & Hs).
  rewrite ingest_enters_pc. split_and!; [|exact Hpc|exact Hopen|exact Hacc].
  revert R Hs. generalize (overtaken s). intros o R Hs. eapply reach_step; [exact R|by apply m_ingest_enters].
Qed.

(** The run of [cut_off] from any serving process. *)
Lemma expired_reach (m : daemon (Conn := ())) :
  daemon_reach m → m_http m = true → m_httpServe m = ServeAccepting → m_pc m = MSelect → m_requests m = ∅ →
  d_phase (m_demo m) = Serving → demo_idle (d_rt (cleared (marked (m_demo m)))) = true →
  m_deadline (later (begin_shutdown None (signalled (streaming m)))) <=
    m_now (later (begin_shutdown None (signalled (streaming m)))) →
  daemon_reach (finish None late (closing_down (timed_out (later (begin_shutdown None (signalled (streaming m))))))).
Proof.
  intros R0 F1 F2 F3 F4 F5 Hid Hd.
  assert (R1 : daemon_reach (streaming m)).
  { eapply reach_step; [exact R0|]. apply (m_request 1 Streaming m F1 F2). by rewrite F4. }
  pose proof (reach_step _ _ _ _ R1 (m_signalled (streaming m))) as R2.
  pose proof (reach_step _ _ _ _ R2 (m_select_signal (signalled (streaming m)) F3 eq_refl)) as R3.
  pose proof (reach_step _ _ _ _ R3 (m_tick 5000000000 (begin_shutdown None (signalled (streaming m))) ltac:(lia))) as R4.
  pose proof (reach_step _ _ _ _ R4 (m_expired (later (begin_shutdown None (signalled (streaming m)))) eq_refl Hd)) as R5.
  apply close_down_reach; [exact R5|reflexivity|exact F5|exact Hid|intros e _; exact Hd].
Qed.

Lemma cut_off_reach s : small_runtime s → daemon_reach (cut_off s).
Proof.
  intros E. destruct (served_reach s E) as [_ R0]. destruct (small_runtime_ok s E) as (_ & _ & Hd & Hid & _).
  unfold cut_off. apply expired_reach; [exact R0| | | | | |exact Hid|exact Hd]; by rewrite (served_shape s E).
Qed.

Lemma cut_off_return s :
  small_runtime s →
  ∃ re, m_pc (cut_off s) = MReturn (errors_Join (Some DeadlineExceeded) re) ∧
    m_requests (cut_off s) !! 1%nat = Some Streaming.
Proof.
  intros E. unfold cut_off.
  destruct (finish_return None late (closing_down (timed_out (later (begin_shutdown None (signalled (streaming (served s)))))))) as (re & Epc & Em).
  exists re. split; [exact Epc|]. rewrite Em. cbn. apply lookup_insert_eq.
Qed.

Lemma run_shutdown_witness :
  ∃ s err, m_pc (cut_off s) = MReturn err ∧ m_requests (cut_off s) !! 1%nat = Some Streaming ∧
    m_httpErr (cut_off s) = Some DeadlineExceeded ∧ err ≠ None ∧
    (m_http (cut_off s) = true → m_httpServe (cut_off s) = ServeStarting) ∧ m_ingest (cut_off s) = false ∧
    cancelled (rt_collector (d_rt (m_demo (cut_off s)))) = true.
Proof.
  destruct small_runtime_exists as [s E].
  destruct (small_runtime_ok s E) as (_ & _ & _ & _ & _ & [Hl Hin] & _).
  destruct (cut_off_return s E) as (re & Epc & Hq).
  exists s. eexists. split; [exact Epc|].
  destruct (run_shutdown (cut_off s) _ (cut_off_reach s E) ltac:(rewrite Hl; lia) Epc)
    as (H1 & _ & _ & _ & _ & H5 & _ & _ & _ & H6 & _).
  destruct H6 as (H6 & _ & H7); [intros Hn; by rewrite Hn in Hq|]. by split_and!.
Defined.
