(* ===== verification/Callers.v ===== *)
(** * Call sites (internal/pool/audit.go, pkg/minilogback/appender.go)

    What the audit and the events say of where a call came from: the frames of a
    stack, the goroutine's number, and the file, relative to the project's root when
    it lies below it and by its last element when it does not.  What the Go runtime
    answers is an argument. *)

From stdpp Require Import gmap strings list fin_maps.
From Stdlib Require Import ZArith Lia.
From S2P Require Import Prelude GoLib GoText Pool Appender.

(** ** [filepath.Rel] on Unix *)

(** The parts of a clean path; the empty path has none. *)
Definition path_parts (l : list Z) : list (list Z) :=
  if bool_decide (l = []) then [] else if bool_decide (l = [47]) then [[]] else split_slash l.

(** Without the parts both begin with. *)
Fixpoint strip (bs ts : list (list Z)) : list (list Z) * list (list Z) :=
  match bs, ts with
  | b :: bs', t :: ts' => if bool_decide (b = t) then strip bs' ts' else (bs, ts)
  | _, _ => (bs, ts)
  end.

(** [None]: the error. *)
Definition Rel (basepath targpath : list Z) : option (list Z) :=
  let base := clean basepath in
  let targ := clean targpath in
  if bool_decide (targ = base) then Some [46]
  else
    let base := if bool_decide (base = [46]) then [] else base in
    if negb (eqb (rooted base) (rooted targ)) then None
    else
      let '(br, tr) := strip (path_parts base) (path_parts targ) in
      if bool_decide (head br = Some [46; 46]) then None
      else Some (join_slash (replicate (length br) [46; 46] ++ tr)).

(** ** The code *)

(** The relative path is used unless it climbs. *)
Definition climbs (relative : list Z) : bool :=
  bool_decide (relative = [46; 46]) || bool_decide (take 3 relative = [46; 46; 47]).

Definition below_root (root path : list Z) : option (list Z) :=
  match Rel root path with
  | Some relative => if climbs relative then None else Some relative
  | None => None
  end.

Definition sanitizePath (path root : string) : string :=
  if bool_decide (path = "") then ""
  else if bool_decide (root = "") then Base path
  else match below_root (chars root) (chars path) with
       | Some relative => text relative
       | None => Base path
       end.

(** The root a registry keeps. *)
Definition registry_root (projectRoot : string) : string :=
  if bool_decide (projectRoot = "") then "" else Clean projectRoot.

(** The frames [runtime.CallersFrames] iterates over; over none it yields one empty
    frame. *)
Definition captureFrames (frames : list Frame) (root : string) : list Frame :=
  map (λ f, mkFrame (Function f) (sanitizePath (File f) root) (Line f))
    (match frames with [] => [mkFrame "" "" 0] | _ => frames end).

(** [strings.Fields] of ASCII text. *)
Definition is_space (c : Z) : bool := (c =? 32) || ((9 <=? c) && (c <=? 13)).

Fixpoint fields_from (word : list Z) (l : list Z) : list (list Z) :=
  let word_done := match word with [] => [] | _ => [rev word] end in
  match l with
  | [] => word_done
  | c :: l => if is_space c then word_done ++ fields_from [] l else fields_from (c :: word) l
  end.
Definition Fields (l : list Z) : list (list Z) := fields_from [] l.

(** The number in the first line of the stack, of which 64 bytes are read. *)
Definition currentGoroutineID (stack : string) : Z :=
  match Fields (take 64 (chars stack)) with
  | word :: number :: _ => if bool_decide (word = chars "goroutine") then (parse_uint number).1 else 0
  | _ => 0
  end.

(** [Appender.caller]: [site] is the answer of [runtime.Caller], a function's name
    ([None] without a function), a file and a line. *)
Definition caller (projectRoot : string) (site : option (option string * string * Z)) : option callerRecord :=
  match site with
  | None => None
  | Some (function, file, line) =>
      let file :=
        if bool_decide (projectRoot ≠ "")
        then match below_root (chars projectRoot) (chars file) with
             | Some relative => text relative
             | None => Base file
             end
        else Base file in
      Some (mkCaller (default "" function) file line)
  end.

(** ** What is shown *)

(** Whether a path climbs shows in its first part. *)
Lemma climbs_join ps : Forall no_slash ps → climbs (join_slash ps) = bool_decide (head ps = Some [46; 46]).
Proof.
  unfold climbs. intros H. destruct ps as [|p [|q ps]]; [done|..]; apply Forall_cons in H as [Hp _]; cbn [join_slash head].
  - rewrite (bool_decide_eq_false_2 (take 3 p = _)).
    + rewrite orb_false_r. apply bool_decide_ext. naive_solver.
    + intros E. apply Hp. apply (subseteq_take 3). rewrite E. set_solver.
  - rewrite (bool_decide_eq_false_2 (p ++ _ = _)).
    + cbn [orb]. apply bool_decide_ext. unfold no_slash in Hp. split; [|by intros [= ->]].
      destruct p as [|a [|b [|c p]]]; cbn; [done|intros [=]..|]; [by simplify_eq|].
      intros [= -> -> ->]. set_solver.
    + intros E. assert (47 ∈ [46; 46]) by (rewrite <- E; set_solver). set_solver.
Qed.

Lemma kept_rooted ps kept :
  Forall no_slash ps → Forall plain_part kept → Forall plain_part (foldl (clean_part true) kept ps).
Proof.
  intros H. revert kept. induction H as [|p ps Hp _ IH]; intros kept Hk; [done|]. cbn. apply IH. unfold clean_part.
  destruct (bool_decide (p = []) || bool_decide (p = [46])) eqn:E; [done|].
  apply orb_false_iff in E as [E1 E2]. apply bool_decide_eq_false in E1, E2. case_bool_decide as E3.
  - destruct kept as [|q kept]; [done|]. apply Forall_cons in Hk as [(_ & _ & Hq) Hk]. by rewrite bool_decide_eq_false_2.
  - constructor; [by split_and!|done].
Qed.

Lemma join_nil ps : Forall plain_part ps → join_slash ps = [] → ps = [].
Proof. destruct ps as [|p [|q ps]]; [done|..]; intros [(_ & Hp & _) _]%Forall_cons; cbn; [done|]. by destruct p. Qed.

Lemma plain_no_slash ps : Forall plain_part ps → Forall no_slash ps.
Proof. intros H. eapply Forall_impl; [exact H|by intros ? []]. Qed.

(** The parts of a clean path: the root and plain parts; steps up and plain parts;
    or one dot. *)
Lemma clean_parts l :
  (rooted l = true ∧ rooted (clean l) = true ∧ ∃ ps, Forall plain_part ps ∧ clean l = 47 :: join_slash ps ∧ path_parts (clean l) = [] :: ps) ∨
  (rooted l = false ∧ ∃ n ps, Forall plain_part ps ∧ path_parts (clean l) = replicate n [46; 46] ++ ps ∧
     clean l = join_slash (replicate n [46; 46] ++ ps) ∧ replicate n [46; 46] ++ ps ≠ []) ∨
  (rooted l = false ∧ clean l = [46]).
Proof.
  unfold clean at 1 2 3 4 5. destruct (rooted l) eqn:R; cbn [app].
  - left. split; [done|]. split; [done|]. set (ps := rev _). assert (Hp : Forall plain_part ps).
    { apply List.Forall_rev, kept_rooted; [apply split_parts|constructor]. }
    exists ps. split; [done|]. split; [done|]. unfold path_parts. rewrite bool_decide_eq_false_2 by done.
    case_bool_decide as E.
    + injection E as E. by rewrite (join_nil ps).
    + cbn [split_slash]. rewrite Z.eqb_refl. f_equal. apply split_join; [by apply plain_no_slash|]. by intros ->.
  - right. destruct (kept_relative (split_slash l) []) as (a & n & E & Ha); [apply split_parts|by exists [], 0%nat|].
    assert (Er : rev (foldl (clean_part false) [] (split_slash l)) = replicate n [46; 46] ++ rev a).
    { rewrite E, rev_app_distr. f_equal. rewrite rev_alt. exact (reverse_replicate n [46; 46]). }
    apply List.Forall_rev in Ha. set (q := replicate n [46; 46] ++ rev a) in *.
    assert (Hq : Forall (λ p, no_slash p ∧ p ≠ []) q).
    { apply Forall_app. split; [|eapply Forall_impl; [exact Ha|by intros ? (? & ? & ?)]].
      apply Forall_forall. intros x [-> _]%elem_of_replicate. split; [|done]. unfold no_slash. set_solver. }
    rewrite Er. destruct (join_slash q) as [|c r] eqn:Ej.
    { right. split; [done|]. unfold clean. by rewrite R, Er, Ej. }
    left. split; [done|]. exists n, (rev a). fold q. rewrite <- Ej. split; [done|].
    assert (Nq : q ≠ []) by (intros X; by rewrite X in Ej). split; [|done]. unfold path_parts.
    rewrite !bool_decide_eq_false_2; [|destruct q as [|x [|y q0]]; [done|..]|congruence].
    + apply split_join; [|done]. eapply Forall_impl; [exact Hq|by intros ? []].
    + apply Forall_cons in Hq as [[H1 _] _]. cbn. intros ->. apply H1. left.
    + apply Forall_cons in Hq as [[H1 H2] _]. cbn. destruct x as [|z x]; [done|]. intros [= _ X]. by destruct x.
Qed.

(** ** The relative path *)

Lemma strip_spec bs : ∀ ts, ∃ pre, bs = pre ++ (strip bs ts).1 ∧ ts = pre ++ (strip bs ts).2.
Proof.
  induction bs as [|b bs IH]; intros [|t ts]; cbn; try by exists []. case_bool_decide as E; [|by exists []].
  subst t. destruct (IH ts) as (pre & E1 & E2). exists (b :: pre). cbn. by rewrite <- E1, <- E2.
Qed.

Lemma strip_prefix pre ts : strip pre (pre ++ ts) = ([], ts).
Proof. induction pre as [|p pre IH]; cbn; [by destruct ts|]. by rewrite bool_decide_eq_true_2. Qed.

(** What is used as a relative path does not climb, and has no step up inside. *)
Definition downward (l : list Z) : Prop := rooted l = false ∧ [46; 46] ∉ split_slash l.

Lemma join_downward ps : Forall plain_part ps → downward (join_slash ps).
Proof.
  intros H. destruct ps as [|p ps].
  { split; [done|]. cbn. set_solver. }
  unfold downward. rewrite split_join by (done || by apply plain_no_slash). split.
  - pose proof H as [(P1 & P2 & _) _]%Forall_cons. destruct p as [|x p]; [done|].
    apply bool_decide_eq_false_2. destruct ps; cbn; intros [= ->]; apply P1; left.
  - intros Hin. rewrite Forall_forall in H. by destruct (H _ Hin) as (_ & _ & ?).
Qed.

Lemma suffix_plain pre tr n ps :
  pre ++ tr = replicate n [46; 46] ++ ps → Forall plain_part ps → head tr ≠ Some [46; 46] → Forall plain_part tr.
Proof.
  revert pre. induction n as [|n IH]; intros pre E H Hh.
  - cbn in E. subst ps. by apply Forall_app in H as [_ H].
  - destruct pre as [|x pre]; [cbn in E; by subst tr|]. injection E as _ E. by eapply IH.
Qed.

Lemma path_parts_no_slash l : Forall no_slash (path_parts l).
Proof.
  unfold path_parts. case_bool_decide; [constructor|]. case_bool_decide; [|apply split_parts].
  repeat constructor. unfold no_slash. set_solver.
Qed.

Lemma rooted_parts l : rooted l = true → path_parts l ≠ [].
Proof.
  intros H. unfold path_parts. rewrite bool_decide_eq_false_2 by (by intros ->). case_bool_decide; [done|].
  destruct l as [|c l]; [done|]. cbn. case_match; [done|]. by destruct (split_slash l).
Qed.

(** What is left of a clean path after what it shares with a base. *)
Lemma rest_downward base path pre tr :
  path_parts base = pre → path_parts (clean path) = pre ++ tr → rooted base = rooted (clean path) →
  head tr ≠ Some [46; 46] → join_slash tr = [46] ∨ downward (join_slash tr).
Proof.
  intros E1 E2 Er Hh. destruct (clean_parts path) as [(_ & R & ps & Hp & _ & Ep)|[(_ & n & ps & Hp & Ep & _)|[_ Ep]]].
  - right. apply join_downward. rewrite Ep in E2. rewrite R in Er. destruct pre as [|x pre].
    + by apply rooted_parts in Er.
    + injection E2 as _ ->. by apply Forall_app in Hp as [_ Hp].
  - right. apply join_downward. rewrite Ep in E2. by eapply suffix_plain.
  - rewrite Ep in E2. change (path_parts [46]) with [[46]] in E2. destruct pre as [|x pre]; [cbn in E2; subst tr; by left|].
    right. injection E2 as _ E2. symmetry in E2. apply app_nil in E2 as [_ ->]. by apply (join_downward []).
Qed.

Lemma below_root_downward root path relative :
  below_root root path = Some relative → relative = [46] ∨ downward relative.
Proof.
  unfold below_root, Rel. case_bool_decide as E0; [intros [= <-]; by left|].
  set (base := if bool_decide _ then _ else _). destruct (negb _) eqn:Eb; [done|].
  destruct (strip_spec (path_parts base) (path_parts (clean path))) as (pre & E1 & E2).
  destruct (strip _ _) as [br tr]. cbn [fst snd] in *. case_bool_decide as Eh; [done|].
  destruct (climbs _) eqn:Ec; [done|]. intros [= <-].
  assert (Ht : Forall no_slash tr).
  { pose proof (path_parts_no_slash (clean path)) as H. rewrite E2 in H. by apply Forall_app in H as [_ H]. }
  rewrite climbs_join in Ec.
  - apply bool_decide_eq_false in Ec. destruct br as [|b br]; [|by destruct Ec]. rewrite app_nil_r in E1.
    apply negb_false_iff, eqb_prop in Eb. exact (rest_downward base path pre tr E1 E2 Eb Ec).
  - apply Forall_app. split; [|done]. apply Forall_forall. intros x [-> _]%elem_of_replicate. unfold no_slash. set_solver.
Qed.

(** The whole of what may be shown: the relative path, or the last element. *)
Definition shown (root path : list Z) : list Z := default (base path) (below_root root path).

Lemma below_root_codes root path relative :
  Forall is_code path → below_root root path = Some relative → Forall is_code relative.
Proof.
  intros H. unfold below_root. destruct (Rel root path) as [r|] eqn:E; [|done]. destruct (climbs r); [done|]. intros [= <-].
  revert E. unfold Rel. case_bool_decide; [intros [= <-]; by repeat constructor|].
  destruct (negb _); [done|]. destruct (strip_spec (path_parts (if bool_decide (clean root = [46]) then [] else clean root)) (path_parts (clean path)))
    as (pre & _ & E2). destruct (strip _ _) as [br tr]. case_bool_decide; [done|]. intros [= <-]. cbn [snd] in E2.
  apply join_codes, Forall_app. split.
  { apply Forall_forall. intros x [-> _]%elem_of_replicate. by repeat constructor. }
  apply (Forall_app _ pre). rewrite <- E2. unfold path_parts.
  case_bool_decide; [constructor|]. case_bool_decide; [by repeat constructor|]. by apply split_codes, clean_codes.
Qed.

Lemma base_shape l : base l = [47] ∨ base l = [46; 46] ∨ downward (base l).
Proof.
  destruct (base_no_slash l) as [|N]; [by left|right]. destruct (decide (base l = [46; 46])); [by left|right]. split.
  - apply bool_decide_eq_false_2. intros E. apply N. destruct (base l); simplify_eq/=. left.
  - rewrite split_no_slash by done. intros [|?%elem_of_nil]%elem_of_cons; done.
Qed.

Lemma sanitize_chars path root :
  chars (sanitizePath path root) =
  if bool_decide (path = "") then [] else if bool_decide (root = "") then base (chars path) else shown (chars root) (chars path).
Proof.
  unfold sanitizePath, shown, Base. case_bool_decide; [done|].
  case_bool_decide; [by rewrite chars_text by apply base_codes, chars_codes|].
  destruct (below_root _ _) as [r|] eqn:E; cbn; rewrite chars_text; auto using base_codes, chars_codes.
  eapply below_root_codes; [|exact E]. apply chars_codes.
Qed.

Lemma split_joint l r : split_slash (l ++ 47 :: r) = split_slash l ++ split_slash r.
Proof.
  induction l as [|c l IH]; [done|]. cbn. rewrite IH. destruct (c =? 47); [done|].
  destruct (split_parts l) as [_ N]. by destruct (split_slash l).
Qed.

Lemma clean_nonempty l : clean l ≠ [].
Proof.
  destruct (clean_parts l) as [(_ & R & _)|[(_ & n & ps & _ & Ep & E & N)|[_ E]]]; [by intros X; rewrite X in R| |by rewrite E].
  intros X. rewrite X in Ep. by rewrite <- Ep in N.
Qed.

(** A file below the root is shown by the path that leads to it from the root. *)
Lemma below_root_inside root path rel :
  clean root ≠ [47] → clean root ≠ [46] → rel ≠ [] → Forall plain_part rel →
  clean path = clean root ++ 47 :: join_slash rel → below_root root path = Some (join_slash rel).
Proof.
  intros N1 N2 Nr Hr E. pose proof (clean_nonempty root) as N0. unfold below_root, Rel. rewrite E.
  set (b := clean root) in *. rewrite bool_decide_eq_false_2.
  2:{ intros X. apply (f_equal length) in X. rewrite length_app in X. cbn in X. lia. }
  rewrite (bool_decide_eq_false_2 (b = [46])) by done.
  assert (rooted (b ++ 47 :: join_slash rel) = rooted b) as -> by (by destruct b).
  rewrite eqb_reflx. cbn [negb]. assert (path_parts (b ++ 47 :: join_slash rel) = path_parts b ++ rel) as ->.
  { unfold path_parts. rewrite !bool_decide_eq_false_2 by (by destruct b as [|? []]).
    by rewrite split_joint, split_join by (done || by apply plain_no_slash). }
  rewrite strip_prefix. cbn [length replicate app]. rewrite bool_decide_eq_false_2 by done.
  rewrite climbs_join by (by apply plain_no_slash). rewrite bool_decide_eq_false_2; [done|].
  destruct rel as [|p rel]; [done|]. apply Forall_cons in Hr as [(_ & _ & Hp) _]. by intros [= ->].
Qed.

(** Recorded paths.  Whatever file the runtime names, the path an audit record or
    an event keeps is relative and goes up no directory (but for a file that is only
    slashes or only [..]); and a file below the project's root is kept as exactly the
    path that leads to it from the root. *)
Theorem call_site_path path root :
  (let out := chars (sanitizePath path root) in out = [47] ∨ out = [46; 46] ∨ downward out) ∧
  (∀ rel, clean (chars root) ≠ [47] → clean (chars root) ≠ [46] → root ≠ "" → path ≠ "" → rel ≠ [] →
     Forall plain_part rel → clean (chars path) = clean (chars root) ++ 47 :: join_slash rel →
     sanitizePath path root = text (join_slash rel) ∧
     ∀ function line, caller root (Some (function, path, line)) =
       Some (mkCaller (default "" function) (text (join_slash rel)) line)).
Proof.
  split.
  - cbn zeta. rewrite sanitize_chars. case_bool_decide; [right; right; by apply (join_downward [])|].
    case_bool_decide; [apply base_shape|]. unfold shown. destruct (below_root _ _) as [r|] eqn:E; [|apply base_shape].
    right; right. destruct (below_root_downward _ _ _ E) as [->|]; [|done]. split; [done|]. cbn. set_solver.
  - intros rel N1 N2 Nr Np Nl Hr E. pose proof (below_root_inside _ _ _ N1 N2 Nl Hr E) as B.
    unfold sanitizePath, caller. rewrite B, !bool_decide_eq_false_2 by done. split; [done|]. intros function line.
    by rewrite bool_decide_eq_true_2.
Qed.

Lemma call_site_path_witness :
  sanitizePath "/srv/app/cmd/main.go" "/srv/app/" = "cmd/main.go" ∧
  sanitizePath "/usr/lib/go/proc.go" "/srv/app" = "proc.go" ∧ sanitizePath "/srv/application/x.go" "/srv/app" = "x.go" ∧
  currentGoroutineID "goroutine 18 [running]:" = 18 ∧ currentGoroutineID "goroutin 18" = 0 ∧
  caller "/srv/app/" (Some (Some "main.main", "/srv/app/cmd/main.go", 7)) = Some (mkCaller "main.main" "cmd/main.go" 7).
Proof.
  assert (P : Forall plain_part [chars "cmd"; chars "main.go"]).
  { assert (∀ s, 47 ∉ chars s → chars s ≠ [] → chars s ≠ [46; 46] → plain_part (chars s)) as C by done.
    apply Forall_cons. split; [apply C|apply Forall_cons; split; [apply C|apply Forall_nil; exact I]];
      done || (eapply bool_decide_eq_false; vm_compute; reflexivity). }
  destruct (proj2 (call_site_path "/srv/app/cmd/main.go" "/srv/app/") [chars "cmd"; chars "main.go"]) as [H1 H2];
    [by vm_compute..|done|done|done|exact P|vm_compute; reflexivity|].
  split; [exact H1|]. do 4 (split; [vm_compute; reflexivity|]). exact (H2 (Some "main.main") 7).
Defined.
