(* ===== verification/Entry.v ===== *)
(** * The library's entrances (pkg/minilogback: logger.go, types.go, sinks.go, appender.go)

    The named loggers and the level methods, the fields of an event, the public
    constructors of the sinks, the forwarded queries; and the address check of the
    collector (internal/collector/server.go).  [fmt.Sprintf], the text of an error and
    values of other types than the constructors' are arguments. *)

From stdpp Require Import gmap strings list fin_maps.
From Stdlib Require Import ZArith Lia.
From Stdlib.Strings Require Import Byte.
From S2P Require Import Prelude GoLib GoText GoNet Sink FileSink Protocol Client Collector Pool Appender.

(** ** Fields (types.go) *)

Section Fields.
Context {A : Type} (Error : error → string).

Inductive value := VString (s : string) | VInt (z : Z) | VUint64 (z : Z) | VBool (b : bool) | VNil | VAny (a : A).
Record Field := mkField { Key : string; Value : value }.

Definition Field_String (key value : string) : Field := mkField key (VString value).
Definition Field_Int (key : string) (value : Z) : Field := mkField key (VInt value).
Definition Field_Int64 (key : string) (value : Z) : Field := mkField key (VInt value).
Definition Field_Uint64 (key : string) (value : Z) : Field := mkField key (VUint64 value).
Definition Field_Bool (key : string) (value : bool) : Field := mkField key (VBool value).
Definition Field_Any (key : string) (value : A) : Field := mkField key (VAny value).
Definition Field_Err (err : option error) : Field :=
  match err with None => mkField "error" VNil | Some e => mkField "error" (VString (Error e)) end.

(** ** Loggers (logger.go, appender.go) *)

Context {Arg : Type} (Sprintf : string → list Arg → string) (marshal : eventRecord (F := Field) → result (list byte)).

Record Logger := mkLogger { name : string }.

Definition Appender_Named (n : string) (a : Appender) : Logger := mkLogger (Named n a).

Definition Logger_Debug (l : Logger) := log marshal (name l) DebugLevel.
Definition Logger_Info (l : Logger) := log marshal (name l) InfoLevel.
Definition Logger_Warn (l : Logger) := log marshal (name l) WarnLevel.
Definition Logger_Error (l : Logger) := log marshal (name l) ErrorLevel.
Definition Logger_Debugf (l : Logger) (format : string) (args : list Arg) := log marshal (name l) DebugLevel (Sprintf format args) [].
Definition Logger_Infof (l : Logger) (format : string) (args : list Arg) := log marshal (name l) InfoLevel (Sprintf format args) [].
Definition Logger_Warnf (l : Logger) (format : string) (args : list Arg) := log marshal (name l) WarnLevel (Sprintf format args) [].
Definition Logger_Errorf (l : Logger) (format : string) (args : list Arg) := log marshal (name l) ErrorLevel (Sprintf format args) [].

Definition Appender_Debugf (format : string) (args : list Arg) := Appender_Log marshal DebugLevel (Sprintf format args) [].
Definition Appender_Infof (format : string) (args : list Arg) := Appender_Log marshal InfoLevel (Sprintf format args) [].
Definition Appender_Warnf (format : string) (args : list Arg) := Appender_Log marshal WarnLevel (Sprintf format args) [].
Definition Appender_Errorf (format : string) (args : list Arg) := Appender_Log marshal ErrorLevel (Sprintf format args) [].

(** [Writer]: the level of the standard logger's lines. *)
Record LogWriter := mkLogWriter { lw_level : Z }.
Definition Appender_Writer (level : Z) : LogWriter := mkLogWriter level.
Definition Writer_Write (w : LogWriter) := LogWriter_Write marshal (lw_level w).
End Fields.
Arguments value : clear implicits.
Arguments Field : clear implicits.

(** ** Queries (appender.go, lease.go) *)

Definition Appender_SnapshotLeases (state : string) (limit now : Z) (a : Appender) : list LeaseSnapshot :=
  SnapshotLeases state limit now (a_pool a).
Definition Appender_SnapshotLeasesBefore (state : string) (beforeID limit now : Z) (a : Appender) : list LeaseSnapshot :=
  SnapshotLeasesBefore state beforeID limit now (a_pool a).
Definition Appender_LeaseByID (id now : Z) (a : Appender) : option LeaseSnapshot := LeaseByID id now (a_pool a).

(** [Lease.Capacity] and [Lease.ClassSize]. *)
Definition handle_number (f : BytePool → Pool.Lease → Z) (lease : option nat) (a : Appender) : Z :=
  match lease with
  | None => 0
  | Some n =>
      match handles a !! n with
      | None => 0
      | Some l => match leases (a_pool a) !! inner l with Some x => f (a_pool a) x | None => 0 end
      end
  end.
Definition Handle_Capacity : option nat → Appender → Z := handle_number Pool.Lease_Capacity.
Definition Handle_ClassSize : option nat → Appender → Z := handle_number Pool.Lease_ClassSize.

(** ** Sinks (sinks.go) *)

Definition FileSyncManual : string := "MANUAL".
Definition FileSyncEveryBatch : string := "EVERY_BATCH".

Record FileSinkConfig := mkFileSinkConfig {
  fsc_Path : string; fsc_MaxBytes : Z; fsc_SyncPolicy : string; fsc_FilePermission : Z; fsc_DirPermission : Z
}.

(** [internalsink.SyncPolicy(config.SyncPolicy)] *)
Definition sync_policy (text : string) : SyncPolicy :=
  if bool_decide (text = "") then SyncUnset
  else if bool_decide (text = FileSyncManual) then SyncManual
  else if bool_decide (text = FileSyncEveryBatch) then SyncEveryBatch
  else UnknownPolicy text.

Definition NewFileSink (config : FileSinkConfig) (d : disk) : result FileSink :=
  NewFile (mkFileConfig (fsc_Path config) (fsc_MaxBytes config) (sync_policy (fsc_SyncPolicy config))
             (fsc_FilePermission config) (fsc_DirPermission config)) d.

Definition NewWriterSink (w : option writer) : WriterSink := NewWriter w.

Record NetworkSinkConfig := mkNetworkSinkConfig {
  ns_Address : string; ns_ClientID : Z; ns_DialTimeout : Z; ns_IOTimeout : Z; ns_RetryInitial : Z; ns_RetryMaximum : Z;
  ns_MaxAttempts : Z; ns_MaxRecords : Z; ns_MaxPayload : Z; ns_MaxEventBytes : Z
}.

Definition network_limits (c : NetworkSinkConfig) : Limits :=
  let limits := mkLimits (ns_MaxRecords c) (ns_MaxPayload c) (ns_MaxEventBytes c) in
  if bool_decide (limits = mkLimits 0 0 0) then DefaultLimits else limits.

(** The transport of the adapter it returns. *)
Definition NewNetworkSink {Conn} (random : result (list byte)) (c : NetworkSinkConfig) : result (Client Conn) :=
  NewClient random (mkClientConfig (ns_Address c) (ns_ClientID c) (ns_DialTimeout c) (ns_IOTimeout c)
                      (ns_RetryInitial c) (ns_RetryMaximum c) (ns_MaxAttempts c) (network_limits c)).

(** ** The collector's address (server.go) *)

Definition isLoopback (address : string) : bool :=
  match SplitHostPort address with
  | Err _ => false
  | Ok (host, _) => match ParseIP (chars (stringsTrimBrackets host)) with Some ip => IsLoopback ip | None => false end
  end.

(** [ListenAndServe] up to the accept loop: [listening] is the answer of [net.Listen],
    the address it listens on.  The flag: [Serve] warns of plaintext. *)
Definition ListenAndServe (listening : result string) (s : Server) : option error * Server * bool :=
  match listening with
  | Err e => (Some (ErrWrap "listen collector: %w" e), s, false)
  | Ok address =>
      match Serve_start s with
      | (Some e, s) => (Some e, s, false)
      | (None, s) => (None, s, negb (isLoopback address))
      end
  end.

(** ** Properties *)

Lemma network_limits_set c : network_limits c ≠ mkLimits 0 0 0.
Proof. unfold network_limits. by case_bool_decide. Qed.

(** Unset limits are the protocol's; a limit set alone leaves the others at zero. *)
Lemma NewNetworkSink_limits {Conn} random c (k : Client Conn) :
  0 <= ns_ClientID c < 2 ^ 64 → (∀ raw, random = Ok raw → length raw = 8%nat) → NewNetworkSink random c = Ok k →
  client_wf k ∧ pending k = None ∧ Client.closed k = false ∧ cc_Limits (Client.config k) = network_limits c.
Proof.
  intros Hi Hr H. pose proof (λ X, NewClient_wf _ _ _ Hr X H) as X. destruct (X Hi) as (W & P & Cl). clear X. split_and!; try done.
  revert H. unfold NewNetworkSink, NewClient. case_bool_decide; [done|]. rewrite bind_Ok. intros (cfg & Hc & Hn).
  assert (E : cc_Limits cfg = network_limits c).
  { revert Hc. cbn. destruct (_ =? 0); [rewrite bind_Ok; intros (id & _ & [= <-])|intros [= <-]]; done. }
  revert Hn. destruct (_ <? _); [done|]. rewrite bind_Ok. intros ([] & _ & [= <-]). cbn. rewrite E.
  by rewrite bool_decide_eq_false_2 by apply network_limits_set.
Qed.

Lemma NewFileSink_refuses c d : fsc_Path c = "" ∨ fsc_MaxBytes c < 0 ∨
  fsc_SyncPolicy c ∉ [""; FileSyncManual; FileSyncEveryBatch] → ∃ e, NewFileSink c d = Err e.
Proof.
  intros H. unfold NewFileSink, NewFile. cbn -[sync_policy]. case_bool_decide; [by eexists|].
  destruct (_ <? 0) eqn:E; [by eexists|]. zbool. destruct H as [?|[?|H]]; [done|lia|].
  rewrite !not_elem_of_cons in H. destruct H as (H1 & H2 & H3 & _). unfold sync_policy.
  rewrite !(bool_decide_eq_false_2 (fsc_SyncPolicy c = _)) by done. cbn. by eexists.
Qed.

Lemma isLoopback_examples :
  map isLoopback ["127.0.0.1:28641"; "[::1]:80"; "0.0.0.0:28641"; "10.0.0.7:1"; "localhost"] = [true; true; false; false; false].
Proof. vm_compute. reflexivity. Qed.
