(* ===== verification/SharedLog.v ===== *)
(** * The shared log file, interleaved (cmd/minilogbackd/runtime.go)

    With the file sink the flusher and the collector's connections write to one
    [FileSink], whose mutex makes their calls take turns.  Here the flusher, with its
    publishers and borrowers, runs as in Flusher.v while others call [WriteBatch] and
    [Close] on the same sink: [others] are the calls that come before each call of the
    flusher.  Nothing but these calls touches the sink, so every interleaving is of
    this form, with the last of the others' calls after it. *)

From stdpp Require Import gmap strings list fin_maps.
From Stdlib Require Import ZArith Lia.
From Stdlib.Strings Require Import Byte.
From S2P Require Import Prelude GoLib Sink FileSink Ring RingConc Pool PoolInv PoolSafety Flusher FlushInv FlushSafety FlushControl FlushProps Observer Pipeline PipelineSinks.

(** ** The sink with all its callers *)

Inductive caller := ByFlusher | ByCollector.

#[export] Instance caller_eq_dec : EqDecision caller.
Proof. solve_decision. Defined.

(** A call of somebody else: the batch of a connection with its context and the
    duration of the call, or a [Close]. *)
Inductive other_call := OtherBatch (b : list (list byte)) (ctx : contexts) (elapsed : Z) | OtherClose.

(** [acknowledged]: the batches whose [WriteBatch] answered nil, with the caller, in order. *)
Record shared_port := mkSharedPort {
  sh_file : file_port; others : list (list other_call); acknowledged : list (caller * list (list byte))
}.

Definition sh_sink (p : shared_port) : FileSink := fp_sink (sh_file p).

Section Shared.
Context `{WriteFnLaws} (N : nat).

(** An answer of [WriteBatch]; [N] bounds the calls the operating system interrupts. *)
Definition share (who : caller) (b : list (list byte)) (ctx : contexts) (elapsed : Z) (p : shared_port)
  : shared_port * option error :=
  match FileSink_WriteBatch (N + length (concat b)) ctx elapsed b (sh_sink p) with
  | Some (s, err) =>
      (mkSharedPort (mkFilePort s (fp_calls (sh_file p))) (others p)
         (match err with None => acknowledged p ++ [(who, b)] | Some _ => acknowledged p end), err)
  | None => (p, Some io_ErrNoProgress)
  end.

Definition other_run (p : shared_port) (c : other_call) : shared_port :=
  match c with
  | OtherBatch b ctx elapsed => (share ByCollector b ctx elapsed p).1
  | OtherClose =>
      mkSharedPort (mkFilePort (FileSink_Close (sh_sink p)).1 (fp_calls (sh_file p))) (others p) (acknowledged p)
  end.

Definition others_run (l : list other_call) (p : shared_port) : shared_port := foldl other_run p l.

(** The others' next calls. *)
Definition after_others (p : shared_port) : shared_port :=
  others_run (nth 0 (others p) []) (mkSharedPort (sh_file p) (drop 1 (others p)) (acknowledged p)).

#[export] Instance shared_port_ops : BatchSink shared_port := {
  sink_write cancelled b p :=
    let p := after_others p in
    let '(ctx, elapsed, rest) := next_call cancelled (sh_file p) in
    share ByFlusher b ctx elapsed (mkSharedPort (mkFilePort (sh_sink p) rest) (others p) (acknowledged p));
  sink_flush p :=
    let p := after_others p in
    let '(s, err) := FileSink_Flush None (sh_sink p) in
    (mkSharedPort (mkFilePort s (fp_calls (sh_file p))) (others p) (acknowledged p), err);
  sink_close p :=
    let p := after_others p in
    let '(s, err) := FileSink_Close (sh_sink p) in
    (mkSharedPort (mkFilePort s (fp_calls (sh_file p))) (others p) (acknowledged p), err)
}.

(** ** Whole batches *)

Definition bytes_of (l : list (caller * list (list byte))) : list byte := concat (map (λ x, concat x.2) l).
Definition of_flusher (l : list (caller * list (list byte))) : list byte :=
  bytes_of (filter (λ x, x.1 = ByFlusher) l).

Lemma bytes_snoc l who b : bytes_of (l ++ [(who, b)]) = bytes_of l ++ concat b.
Proof. unfold bytes_of. rewrite map_app, concat_app. cbn. by rewrite app_nil_r. Qed.

Lemma of_flusher_snoc l who b :
  of_flusher (l ++ [(who, b)]) = of_flusher l ++ match who with ByFlusher => concat b | ByCollector => [] end.
Proof.
  unfold of_flusher. rewrite filter_app. unfold bytes_of. rewrite map_app, concat_app. f_equal.
  destruct who; [rewrite filter_cons_True by done|rewrite filter_cons_False by done]; cbn; by rewrite ?app_nil_r.
Qed.

(** The log is [base] and the part of the batch under way; the sink is open, or it
    has been closed. *)
Definition stands (base : list byte) (s : FileSink) : Prop :=
  log s = base ++ Sink.committed (fs_pending s) ∧ eintr_until N (d_file (fs_disk s)) ∧
  (Sink.Closed (fs_counters s) = true ∨ fs_ready s ∨
   Sink.active (fs_pending s) = true ∧ ∃ b rot0 f0 config, fs_progress base b rot0 f0 config s).

(** What a batch meets in an open sink: its own progress, or another batch. *)
Lemma stands_begin base s b :
  stands base s → Sink.Closed (fs_counters s) = false →
  (∃ rot0 f0 config, fs_progress base b rot0 f0 config s) ∨
  ∃ e, ∀ fuel ctx el, FileSink_WriteBatch fuel ctx el b s = Some (fs_error s, Some e).
Proof.
  intros (L & _ & [C|[R|(A & b0 & rot0 & f0 & config & P)]]) Ho; [congruence| |].
  - left. eexists _, _, _. replace base with (log s); [by apply fs_ready_progress|].
    rewrite L, (rd_pending s R). apply app_nil_r.
  - destruct P as (I & St & In). destruct In as [[E _]|(_ & Hr & Hok & Ho')]; [by rewrite E in A|].
    destruct (decide (b = b0)) as [->|Ne].
    + left. eexists _, _, _. split; [exact I|]. split; [exact St|]. right. by split_and!.
    + right. exists ErrBatchChanged. intros fuel ctx el. unfold FileSink_WriteBatch.
      rewrite bool_decide_eq_false_2, Ho by apply I. cbn [orb]. unfold begin. rewrite A, Hr.
      assert (Hf : s <| fs_pending := fs_pending s |> = s) by (by destruct s).
      destruct (negb _); [by rewrite Hf|]. rewrite bool_decide_eq_false_2 by congruence. cbn [negb]. by rewrite Hf.
Qed.

Lemma progress_stands base s b rot0 f0 config :
  fs_progress base b rot0 f0 config s → eintr_until N (d_file (fs_disk s)) → stands base s.
Proof.
  intros P E. pose proof P as (I & St & [[Ep Lg]|(A & Hr & Hok & Lg)]).
  - split; [by rewrite Lg, Ep; cbn; rewrite app_nil_r|]. split; [done|]. right; left. by eapply fs_done_ready.
  - split; [exact Lg|]. split; [done|]. right; right. split; [done|]. by exists b, rot0, f0, config.
Qed.

(** Only the disk, the cursor and whether the sink is open matter. *)
Lemma stands_ext base s s' :
  stands base s → d_file (fs_disk s') = d_file (fs_disk s) → d_rotated (fs_disk s') = d_rotated (fs_disk s) →
  fs_config s' = fs_config s → fs_pending s' = fs_pending s →
  Sink.Closed (fs_counters s') = Sink.Closed (fs_counters s) → fs_size s' = fs_size s → file s' = file s → stands base s'.
Proof.
  intros (L & E & C) E1 E2 E3 E4 E5 E6 E7. assert (El : log s' = log s) by (unfold log, content; by rewrite E1, E2).
  unfold stands. rewrite El, E1, E4, E5. split; [exact L|]. split; [exact E|].
  destruct C as [C|[[R1 R2 R3 R4 R5]|(A & b & rot0 & f0 & config & I & St & In)]]; [by left|right; left|right; right].
  - split; unfold content; rewrite ?E1, ?E4, ?E5, ?E6, ?E7; done.
  - split; [exact A|]. exists b, rot0, f0, config. split; [by apply (sink_inv_ext _ _ _ _ s)|].
    by rewrite E4, El.
Qed.

Lemma fs_error_stands base s : stands base s → stands base (fs_error s).
Proof. intros S. by apply (stands_ext base s). Qed.

(** One batch of anybody: it is put out whole and answered with nil, or it is not
    counted. *)
Lemma stands_write base b ctx el s :
  stands base s → ∃ s' err, FileSink_WriteBatch (N + length (concat b)) ctx el b s = Some (s', err) ∧
    stands (match err with None => base ++ concat b | Some _ => base end) s'.
Proof.
  intros S. destruct (Sink.Closed (fs_counters s)) eqn:C.
  { exists s, (Some (ErrNew "file sink is closed")). split; [|done]. unfold FileSink_WriteBatch. by rewrite C, orb_true_r. }
  pose proof S as (_ & E & _).
  destruct (stands_begin base s b S C) as [(rot0 & f0 & config & P)|[e He]].
  2:{ exists (fs_error s), (Some e). split; [apply He|by apply fs_error_stands]. }
  destruct (FileSink_step base b rot0 f0 config _ ctx el N s P E (le_n _)) as (s' & err & HW & Hr & Hi & Hst).
  assert (E' : eintr_until N (d_file (fs_disk s'))) by (intros i x e; rewrite Hr; apply E).
  exists s', err. split; [exact HW|]. destruct err as [e|].
  - destruct Hst as [P' _]. by eapply progress_stands.
  - destruct Hst as [Lg Pe]. split; [by rewrite Lg, Pe, app_nil_r|]. split; [done|]. right; left. by eapply fs_done_ready.
Qed.

Lemma stands_flush base s : stands base s → stands base (FileSink_Flush None s).1.
Proof.
  intros S. unfold FileSink_Flush. case_bool_decide; [done|].
  pose proof (syncFn_frame s) as [(F1 & F2 & F3 & F4 & F5 & F6) F7]. destruct (syncFn s) as [[e|] s1]; cbn in *.
  - apply fs_error_stands, (stands_ext base s); congruence.
  - apply (stands_ext base s); cbn; congruence.
Qed.

Lemma stands_close base s : stands base s → stands base (FileSink_Close s).1.
Proof.
  intros S. pose proof (Close_log s) as Lg. pose proof S as (L & E & _). unfold FileSink_Close in *.
  destruct (fs_closed_once s); [done|].
  set (s0 := s <| fs_closed_once := true |> <| fs_counters ::= λ c, c <| Sink.Closed := true |> |>) in *.
  case_bool_decide; [by split; [|split; [|left]]|].
  pose proof (syncFn_frame s0) as [(F1 & _ & _ & F4 & F5 & _) _]. destruct (syncFn s0) as [e1 s1].
  pose proof (file_Close_frame s1) as [(G1 & _ & _ & G4 & G5 & _) _]. destruct (file_Close s1) as [e2 s2]. cbn in *.
  assert (X : ∀ s3, log s3 = log s → fs_pending s3 = fs_pending s2 → fs_disk s3 = fs_disk s2 →
    Sink.Closed (fs_counters s3) = Sink.Closed (fs_counters s2) → stands base s3).
  { intros s3 X1 X2 X3 X4. unfold stands. rewrite X1, X2, X3, X4, G4, F4, G1, F1. split; [exact L|]. split; [exact E|].
    left. by rewrite G5, F5. }
  destruct e1, e2; apply X; cbn in *; done.
Qed.

(** What is acknowledged: a batch that was answered with nil, whatever the sink's
    state. *)
Lemma share_acknowledged who b ctx el p :
  let r := share who b ctx el p in
  acknowledged r.1 = acknowledged p ++ match r.2 with None => [(who, b)] | Some _ => [] end.
Proof.
  unfold share. destruct (FileSink_WriteBatch _ _ _ _ _) as [[s [e|]]|]; cbn [fst snd acknowledged]; by rewrite ?app_nil_r.
Qed.

Lemma share_stands base who b ctx el p :
  stands (base ++ bytes_of (acknowledged p)) (sh_sink p) →
  let r := share who b ctx el p in stands (base ++ bytes_of (acknowledged r.1)) (sh_sink r.1).
Proof.
  intros S. unfold share. destruct (stands_write _ b ctx el _ S) as (s' & err & -> & S').
  cbn [fst snd acknowledged sh_sink sh_file fp_sink]. destruct err as [e|]; [done|]. by rewrite bytes_snoc, app_assoc.
Qed.

Lemma others_flusher l : ∀ p, of_flusher (acknowledged (others_run l p)) = of_flusher (acknowledged p).
Proof.
  induction l as [|c l IH]; intros p; [done|].
  change (others_run (c :: l) p) with (others_run l (other_run p c)). rewrite IH. destruct c as [b ctx el|]; [|done]. cbn -[share].
  rewrite share_acknowledged. destruct (share ByCollector b ctx el p).2; [by rewrite app_nil_r|].
  by rewrite of_flusher_snoc, app_nil_r.
Qed.

Lemma others_stand base l : ∀ p,
  stands (base ++ bytes_of (acknowledged p)) (sh_sink p) →
  stands (base ++ bytes_of (acknowledged (others_run l p))) (sh_sink (others_run l p)).
Proof.
  induction l as [|c l IH]; intros p S; [done|]. apply (IH (other_run p c)).
  destruct c as [b ctx el|]; cbn -[share]; [by apply share_stands|by apply stands_close].
Qed.

(** ** The contract of the flusher's sink *)

Section Contract.
Context (base : list byte).

Definition sound (p : shared_port) : Prop := stands (base ++ bytes_of (acknowledged p)) (sh_sink p).

Lemma after_flusher p : of_flusher (acknowledged (after_others p)) = of_flusher (acknowledged p).
Proof. apply (others_flusher (nth 0 (others p) []) (mkSharedPort (sh_file p) (drop 1 (others p)) (acknowledged p))). Qed.

Lemma after_sound p : sound p → sound (after_others p).
Proof. apply (others_stand base (nth 0 (others p) []) (mkSharedPort (sh_file p) (drop 1 (others p)) (acknowledged p))). Qed.

Lemma write_sound c b p : sound p → sound (sink_write c b p).1.
Proof.
  intros S%after_sound. cbn -[next_call share after_others]. destruct (next_call c _) as [[ctx el] rest].
  by apply share_stands.
Qed.

Lemma write_flusher c b p :
  let r := sink_write c b p in
  of_flusher (acknowledged r.1) = of_flusher (acknowledged p) ++ match r.2 with None => concat b | Some _ => [] end.
Proof.
  cbn -[next_call share after_others]. rewrite <- (after_flusher p). destruct (next_call c _) as [[ctx el] rest].
  rewrite share_acknowledged. cbn [acknowledged].
  destruct (share ByFlusher b ctx el _).2; [by rewrite !app_nil_r|by rewrite of_flusher_snoc].
Qed.

Lemma flush_sound p : sound p → sound (sink_flush p).1.
Proof.
  intros S%after_sound%stands_flush. cbn -[FileSink_Flush after_others].
  by destruct (FileSink_Flush None (sh_sink (after_others p))).
Qed.

Lemma close_sound p : sound p → sound (sink_close p).1.
Proof.
  intros S%after_sound%stands_close. cbn -[FileSink_Close after_others].
  by destruct (FileSink_Close (sh_sink (after_others p))).
Qed.

(** The flusher sees a sink of its own: what it stored are its batches. *)
#[export] Program Instance shared_resuming : ResumingSink shared_port := {
  store p := of_flusher (acknowledged p);
  free p := True;
  progress own b p := of_flusher (acknowledged p) = own;
  within _ := True
}.
Next Obligation. done. Qed.
Next Obligation. intros own b p <-. exists 0%nat. by rewrite app_nil_r. Qed.
Next Obligation.
  intros c own b p _ <-. pose proof (write_flusher c b p) as X. destruct (sink_write c b p) as [p' [e|]]; cbn in *.
  - by rewrite X, app_nil_r.
  - done.
Qed.
Next Obligation. done. Qed.
Next Obligation.
  intros p. split; [|done]. rewrite <- (after_flusher p). cbn -[FileSink_Flush after_others].
  by destruct (FileSink_Flush None _).
Qed.
Next Obligation.
  intros p. split; [|done]. rewrite <- (after_flusher p). cbn -[FileSink_Close after_others].
  by destruct (FileSink_Close _).
Qed.
End Contract.
End Shared.

(** ** The world over it *)

(** A step of the world does to the sink what one of its three operations does, or
    nothing. *)
Lemma sink_moves {S} `{BatchSink S} (R : S → S → Prop) (w w' : world S) :
  (∀ s, R s s) → (∀ c b s, R s (sink_write c b s).1) → (∀ s, R s (sink_flush s).1) →
  (∀ s, R s (sink_close s).1) → sys_step w w' → R (w_sink w) (w_sink w').
Proof.
  intros Hr Hw Hf Hc St. destruct (sys_other _ _ St) as [[i ->]|(_ & _ & -> & _)]; [|done].
  unfold run_step, write_batch, fill_mark, count_batch, finish, consumed_lease.
  destruct (w_pc w) as [|[]| | | | | | | | | | | | |[]| | | | | | | | |]; rewrite ?release_eq; try done; cbn;
    repeat match goal with
    | |- context [sink_write ?c ?b ?s] => pose proof (Hw c b s); destruct (sink_write c b s) as [? ?]; cbn in *
    | |- context [sink_flush ?s] => pose proof (Hf s); destruct (sink_flush s) as [? ?]; cbn in *
    | |- context [sink_close ?s] => pose proof (Hc s); destruct (sink_close s) as [? ?]; cbn in *
    | |- context [let '(_, _) := ?x in _] => destruct x as [? []]
    | |- context [match ?x with _ => _ end] => destruct x
    end; cbn; done.
Qed.

Lemma sink_always {S} `{BatchSink S} (I : S → Prop) s k base (w : world S) :
  (∀ c b s, I s → I (sink_write c b s).1) → (∀ s, I s → I (sink_flush s).1) → (∀ s, I s → I (sink_close s).1) →
  I s → from_reach s k base w → I (w_sink w).
Proof.
  intros Hw Hf Hc Is R. induction R as [w [_ ->]|w w' R IH St]; [done|]. revert IH.
  by apply (sink_moves (λ s s', I s → I s')).
Qed.

Lemma committed_prefix c : Sink.committed c `prefix_of` concat (Sink.records c).
Proof.
  unfold Sink.committed, Sink.current. rewrite nth_lookup.
  destruct (Sink.records c !! Sink.record c) as [r|] eqn:E; cbn.
  - exists (drop (Sink.offset c) r ++ concat (drop (S (Sink.record c)) (Sink.records c))).
    rewrite <- (take_drop_middle _ _ _ E) at 1. rewrite concat_app. cbn.
    by rewrite <- !app_assoc, (app_assoc (take _ r)), take_drop.
  - rewrite take_nil, app_nil_r, take_ge by (by apply lookup_ge_None). done.
Qed.

(** One log file for flusher and collector.  In every interleaving of the
    publishers, the flusher, borrowers and [Close] with the batches of the
    collector's connections and other calls of [Close], and whatever fails in the
    file sink: the log holds what it held, followed by exactly the batches whose
    write answered nil, each whole, once, in the order of the answers, and by a part
    of at most one more batch, the one under way, so no batch is torn by another;
    and the flusher's among them are the stream of admitted events, from the first
    on, in order, with at least every delivered event; after a clean close nobody
    raced, all of it. *)
Theorem shared_log_file `{WriteFnLaws} N fs calls other t ts k base (w : world (observed shared_port)) later :
  let S0 := mkObservedPort (mkSharedPort (mkFilePort fs calls) other []) t ts in
  0 <= base < 2 ^ 64 → 1 <= k <= 30 → fs_idle fs → eintr_until N (d_file (fs_disk fs)) →
  from_reach (H := observed_ops (H := shared_port_ops N)) S0 k base w → bounded (w_ring w) →
  let p := others_run N later (ob_inner (w_sink w)) in
  log (sh_sink p) = log fs ++ bytes_of (acknowledged p) ++ Sink.committed (fs_pending (sh_sink p)) ∧
  Sink.committed (fs_pending (sh_sink p)) `prefix_of` concat (Sink.records (fs_pending (sh_sink p))) ∧
  NoDup (reserved (w_ring w)) ∧
  ∃ n, of_flusher (acknowledged p) = take n (stream w) ∧
    (length (concat (published_bytes (w_ghost w) (concat (delivered (w_ghost w))))) <= n)%nat ∧
    (∀ m, w_pc w = RDone → aborting (w_loop w) = false → left_at (w_ghost w) = Some (m, false) →
       of_flusher (acknowledged p) = stream w).
Proof.
  intros S0 Hb Hk [I1 I2 I3 I4 I5] HN R B p.
  assert (S : sound N (log fs) (ob_inner (w_sink w))).
  { apply (sink_always (H := observed_ops (H := shared_port_ops N)) (λ s, sound N (log fs) (ob_inner s)) S0 k base); [..|exact R].
    - intros c b s X. apply (write_sound N (log fs) c b) in X. cbn -[shared_port_ops] in *. unfold observed_WriteBatch.
      by destruct (sink_write c b (ob_inner s)).
    - intros s X. apply (flush_sound N (log fs)) in X. cbn -[shared_port_ops] in *. by destruct (sink_flush (ob_inner s)).
    - intros s X. apply (close_sound N (log fs)) in X. cbn -[shared_port_ops] in *. by destruct (sink_close (ob_inner s)).
    - unfold sound, stands. cbn. rewrite I5, !app_nil_r. split; [done|]. split; [done|]. right; left.
      split; try done. by rewrite I2. }
  apply (others_stand N (log fs) later) in S. destruct S as [L _]. fold p in L. rewrite <- app_assoc in L.
  split; [exact L|]. split; [apply committed_prefix|]. split.
  - apply (fl_nodup _ _ _ _ _ _ (wo_flow _ (reach_World k base w Hb Hk (from_sys _ _ _ _ R) B))).
  - unfold p. rewrite others_flusher.
    apply (pipeline_stream (H0 := observed_resuming (H0 := shared_resuming N)) S0 k base w); done.
Qed.

(** ** A run *)

(** The collector writes a batch; the sync of the flusher's batch fails; another
    batch of the collector is refused; the flusher's retry succeeds; the collector
    writes again. *)
Definition from_collector (b : list (list byte)) : other_call := OtherBatch b no_cancel 1.
Definition shared_start : observed shared_port :=
  mkObservedPort
    (mkSharedPort (mkFilePort (sample_sink (mkWriter [] 0 sink_all) [None; Some (ErrNew "input/output error")]) [])
       [[from_collector [[x61]; [x62]]]; [from_collector [[x63]]]; [from_collector [[x64]]]] [])
    (newObservedSink fileBatchMode) [].

#[local] Instance sample_shared : BatchSink (observed shared_port) :=
  observed_ops (H := shared_port_ops (H := vectored_write) 0).

Definition shared_world : world (observed shared_port) :=
  mkWorld test_ring ∅ example_pool test_flusher (new_loop test_config) RSelect shared_start
    (mkGhost [] [] [] [] ∅ None).
Definition shared_end : world (observed shared_port) :=
  Eval vm_compute in default shared_world (do_events file_events shared_world).
Definition shared_final : shared_port := others_run (H := vectored_write) 0 [OtherClose] (ob_inner (w_sink shared_end)).

Lemma shared_reach : from_reach shared_start 2 (2 ^ 64 - 2) shared_end.
Proof.
  apply (do_events_from _ _ _ file_events shared_world); [|vm_compute; reflexivity].
  apply reach_init. split; [|done]. split_and!; try done.
  - apply start_state_start. vm_compute. reflexivity.
  - exists example_config. apply example_New.
  - by exists test_config.
Qed.

Lemma shared_log_file_witness :
  w_pc shared_end = RDone ∧
  acknowledged shared_final = [(ByCollector, [[x61]; [x62]]); (ByFlusher, [[x01; x02]; [x03]]); (ByCollector, [[x64]])] ∧
  log (sh_sink shared_final) = [x61; x62; x01; x02; x03; x64] ∧ of_flusher (acknowledged shared_final) = stream shared_end.
Proof.
  split; [reflexivity|]. split; [vm_compute; reflexivity|].
  destruct (shared_log_file (H := vectored_write) 0 (fp_sink (sh_file (ob_inner shared_start))) []
    (others (ob_inner shared_start)) (newObservedSink fileBatchMode) [] 2 (2 ^ 64 - 2) shared_end [OtherClose])
    as (L & _ & _ & n & _ & _ & X).
  - lia.
  - lia.
  - split; try reflexivity. intros i b. cbn. lia.
  - intros i b e Hi. discriminate.
  - exact shared_reach.
  - vm_compute. reflexivity.
  - split; [|exact (X 2%nat eq_refl eq_refl eq_refl)]. etrans; [exact L|]. vm_compute. reflexivity.
Defined.
