(* ===== verification/ServiceLog.v ===== *)
(** * The service's log file (cmd/minilogbackd/runtime.go, internal/collector/server.go)

    In a service whose log file is shared, the flusher's world (publishers, flusher,
    borrowers, [Close]) and the collector's connections run side by side in one
    process and meet in the file sink.  Here both systems, that of Flusher.v and that
    of Connections.v, are interleaved step by step over one sink, and the log is read
    off against what was admitted on one side and acknowledged to the peers on the
    other. *)

From stdpp Require Import gmap strings list fin_maps.
From Stdlib Require Import ZArith Lia.
From Stdlib.Strings Require Import Byte.
From S2P Require Import Prelude GoLib Protocol Client Dedupe Collector Connections Sink FileSink Ring RingConc Pool PoolInv PoolSafety Flusher FlushInv FlushSafety FlushControl FlushProps Observer Pipeline PipelineSinks SharedLog.

Section Service.
Context `{WriteFnLaws} (N : nat).

#[local] Instance service_ops : BatchSink (observed shared_port) := observed_ops (H := shared_port_ops N).
#[local] Instance service_resuming : ResumingSink (observed shared_port) := observed_resuming (H0 := shared_resuming N).

Abbreviation machine := (world (observed shared_port)).

(** The sink in the flusher's world. *)
Definition port (w : machine) : shared_port := ob_inner (w_sink w).
Definition with_port (p : shared_port) (w : machine) : machine :=
  w <| w_sink ::= λ o, mkObservedPort p (ob_times o) (ob_next o) |>.

(** A connection's sink call: the collector holds the file sink itself, not the
    flusher's observer around it. *)
Definition collector_write (e : contexts * Z) (b : list (list byte)) (w : machine) : machine * option error :=
  let '(p, err) := share N ByCollector b e.1 e.2 (port w) in (with_port p w, err).

(** What else moves the sink: the flusher's world, and a [Close] of the sink. *)
Inductive other_moves : machine → machine → Prop :=
| flusher_moves w w' : sys_step w w' → other_moves w w'
| sink_closed w : other_moves w (with_port (other_run N (port w) OtherClose) w).

Definition service : Type := csys (K := machine).
Definition service_step : service → service → Prop := csys_step collector_write other_moves.

Definition service_init (cfg : Collector.Config) (S0 : observed shared_port) (k base : Z) (s : service) : Prop :=
  csys_init cfg s ∧ sys_from S0 k base (cs_sink s).

Definition service_reach cfg S0 k base : service → Prop := reach (service_init cfg S0 k base) service_step.

Lemma service_csys cfg S0 k base s :
  service_reach cfg S0 k base s → csys_reach collector_write other_moves cfg s.
Proof. induction 1 as [s [Hi _]|]; [by apply reach_init|by eapply reach_step]. Qed.

(** ** What the collector wrote *)

Definition of_collector (l : list (caller * list (list byte))) : list (list (list byte)) :=
  (filter (λ x, x.1 = ByCollector) l).*2.

(** The batches whose sink call answered nil, in the order of the answers. *)
Definition accepted_runs (l : list (nat * Protocol.Batch * option error)) : list (list (list byte)) :=
  (λ r, Batch_Records r.1.2) <$> filter (λ r, r.2 = None) l.

Lemma of_collector_snoc l who b :
  of_collector (l ++ [(who, b)]) = of_collector l ++ match who with ByFlusher => [] | ByCollector => [b] end.
Proof.
  unfold of_collector. rewrite filter_app, fmap_app. f_equal.
  destruct who; [by rewrite filter_cons_False|by rewrite filter_cons_True].
Qed.

Lemma accepted_runs_snoc l id b err :
  accepted_runs (l ++ [(id, b, err)]) =
  accepted_runs l ++ match err with None => [Batch_Records b] | Some _ => [] end.
Proof.
  unfold accepted_runs. rewrite filter_app, fmap_app. f_equal.
  destruct err; [by rewrite filter_cons_False|by rewrite filter_cons_True].
Qed.

(** The flusher's calls, no other user's calls coming before them. *)
Definition keeps_collector (o o' : observed shared_port) : Prop :=
  others (ob_inner o) = [] → others (ob_inner o') = [] ∧
  of_collector (acknowledged (ob_inner o')) = of_collector (acknowledged (ob_inner o)).

Lemma after_nobody p : others p = [] → after_others N p = p.
Proof. destruct p as [f o a]. cbn. by intros ->. Qed.

Lemma share_others who b ctx el p : others (share N who b ctx el p).1 = others p.
Proof. unfold share. by destruct (FileSink_WriteBatch _ _ _ _ _) as [[s [e|]]|]. Qed.

Lemma flusher_write_keeps c b o : keeps_collector o (sink_write c b o).1.
Proof.
  intros Ho. assert (X : others (@sink_write _ (shared_port_ops N) c b (ob_inner o)).1 = [] ∧
    of_collector (acknowledged (@sink_write _ (shared_port_ops N) c b (ob_inner o)).1) =
    of_collector (acknowledged (ob_inner o))).
  { cbn -[next_call share after_others]. rewrite (after_nobody _ Ho). destruct (next_call c _) as [[ctx el] rest].
    rewrite share_others, share_acknowledged. split; [done|]. cbn [acknowledged].
    destruct (share N ByFlusher b ctx el _).2; [by rewrite app_nil_r|by rewrite of_collector_snoc, app_nil_r]. }
  cbn -[shared_port_ops] in *. unfold observed_WriteBatch.
  by destruct (@sink_write _ (shared_port_ops N) c b (ob_inner o)).
Qed.

Lemma flusher_step_keeps (w w' : machine) : sys_step w w' → keeps_collector (w_sink w) (w_sink w').
Proof.
  apply sink_moves.
  - by intros o Ho.
  - apply flusher_write_keeps.
  - intros o Ho. cbn -[FileSink_Flush after_others]. rewrite (after_nobody _ Ho). by destruct (FileSink_Flush None _).
  - intros o Ho. cbn -[FileSink_Close after_others]. rewrite (after_nobody _ Ho). by destruct (FileSink_Close _).
Qed.

Lemma flusher_step_sound base (w w' : machine) :
  sys_step w w' → sound N base (port w) → sound N base (port w').
Proof.
  apply (sink_moves (λ o o', sound N base (ob_inner o) → sound N base (ob_inner o'))).
  - done.
  - intros c b o X. apply (write_sound N base c b) in X. cbn -[shared_port_ops] in *. unfold observed_WriteBatch.
    by destruct (@sink_write _ (shared_port_ops N) c b (ob_inner o)).
  - intros o X. apply (flush_sound N base) in X. cbn -[shared_port_ops] in *.
    by destruct (@sink_flush _ (shared_port_ops N) (ob_inner o)).
  - intros o X. apply (close_sound N base) in X. cbn -[shared_port_ops] in *.
    by destruct (@sink_close _ (shared_port_ops N) (ob_inner o)).
Qed.

(** ** The flusher does not notice *)

Lemma World_port p w : World w → World (with_port p w).
Proof. intros [L F Sg Ba [X1 X2 X3 X4]]. by split. Qed.

(** What the others put into the log is not in the flusher's store. *)
Lemma Stored_port before p w :
  of_flusher (acknowledged p) = of_flusher (acknowledged (port w)) → Stored before w → Stored before (with_port p w).
Proof.
  intros E [K T]. split.
  - unfold sink_ok in *. cbn -[with_port] in K |- *. change (w_pc (with_port p w)) with (w_pc w).
    change (w_loop (with_port p w)) with (w_loop w). change (w_ghost (with_port p w)) with (w_ghost w).
    unfold with_port. cbn. rewrite E. exact K.
  - destruct T as (n & l & Es & P). exists n, l. split; [|exact P]. cbn in Es |- *. by rewrite E.
Qed.

(** ** The invariant *)

Record service_inv (log0 : list byte) (k base : Z) (s : service) : Prop := mkServiceInv {
  sv_ring : ring_reachable k base (w_ring (cs_sink s));
  sv_flusher : bounded (w_ring (cs_sink s)) → World (cs_sink s) ∧ Stored [] (cs_sink s);
  sv_sound : sound N log0 (port (cs_sink s));
  sv_alone : others (port (cs_sink s)) = [];
  sv_runs : of_collector (acknowledged (port (cs_sink s))) = accepted_runs (cs_runs s)
}.

(** A step that leaves the sink to the others. *)
Lemma service_inv_same log0 k base s s' :
  service_inv log0 k base s → cs_sink s' = cs_sink s → cs_runs s' = cs_runs s → service_inv log0 k base s'.
Proof. intros [H1 H2 H3 H4 H5] E1 E2. by split; rewrite ?E1, ?E2. Qed.

(** Somebody else's call on the sink. *)
Lemma service_inv_call log0 k base s s' p l :
  service_inv log0 k base s → cs_sink s' = with_port p (cs_sink s) → cs_runs s' = cs_runs s ++ l →
  sound N log0 p → others p = [] → of_flusher (acknowledged p) = of_flusher (acknowledged (port (cs_sink s))) →
  of_collector (acknowledged p) = of_collector (acknowledged (port (cs_sink s))) ++ accepted_runs l →
  service_inv log0 k base s'.
Proof.
  intros [H1 H2 H3 H4 H5] E1 E2 Hs Ho Hf Hc. split; rewrite ?E1, ?E2; try done.
  - intros B. destruct (H2 B) as [Wo St]. split; [by apply World_port|by apply Stored_port].
  - change (port (with_port p (cs_sink s))) with p. rewrite Hc, H5. unfold accepted_runs.
    by rewrite filter_app, fmap_app.
Qed.

Lemma service_inv_flusher log0 k base s w :
  0 <= base < 2 ^ 64 → 1 <= k <= 30 → service_inv log0 k base s → sys_step (cs_sink s) w →
  service_inv log0 k base (s <| cs_sink := w |>).
Proof.
  intros Hb Hk [H1 H2 H3 H4 H5] St. destruct (flusher_step_keeps _ _ St H4) as [Ho Hc]. split; cbn.
  - eapply later_reachable; [exact H1|by apply sys_step_later].
  - intros B. pose proof (sys_bounded _ _ St B) as B'. destruct (H2 B') as [Wo Sd]. split.
    + eapply World_step; [|exact St|exact Wo]. by apply reachable_inv.
    + by apply (stored_step [] _ w St).
  - by apply (flusher_step_sound log0 _ _ St).
  - exact Ho.
  - etrans; [exact Hc|exact H5].
Qed.

Lemma service_inv_step log0 k base s s' :
  0 <= base < 2 ^ 64 → 1 <= k <= 30 → service_inv log0 k base s → service_step s s' → service_inv log0 k base s'.
Proof.
  intros Hb Hk I Hs. destruct Hs as [| | | | | | |id c b call e s m err _ _ Hw| | | | | |m s Ho].
  all: try (by eapply service_inv_same).
  - unfold collector_write in Hw. pose proof (share_acknowledged N ByCollector (Batch_Records b) e.1 e.2 (port (cs_sink s))) as Ha.
    pose proof (share_stands N log0 ByCollector (Batch_Records b) e.1 e.2 _ (sv_sound _ _ _ _ I)) as Hst.
    pose proof (share_others ByCollector (Batch_Records b) e.1 e.2 (port (cs_sink s))) as Hot.
    destruct (share N ByCollector (Batch_Records b) e.1 e.2 (port (cs_sink s))) as [p err']. injection Hw as <- <-.
    cbn [fst snd] in *. apply (service_inv_call log0 k base s _ p [(id, b, err')] I); try done.
    + rewrite Hot. apply I.
    + rewrite Ha. destruct err' as [e'|]; [by rewrite app_nil_r|by rewrite of_flusher_snoc, app_nil_r].
    + pose proof (accepted_runs_snoc [] id b err') as E. cbn [app] in E. change (accepted_runs []) with (@nil (list (list byte))) in E.
      rewrite Ha, E. destruct err' as [e'|]; cbn [app]; [by rewrite !app_nil_r|by rewrite of_collector_snoc].
  - remember (cs_sink s) as w0 eqn:E0. destruct Ho as [w w' St|w]; subst w; [by apply service_inv_flusher|].
    apply (service_inv_call log0 k base s _ (other_run N (port (cs_sink s)) OtherClose) [] I); try done.
    + cbn. by rewrite app_nil_r.
    + by apply (others_stand N log0 [OtherClose]), I.
    + apply I.
    + cbn. by rewrite app_nil_r.
Qed.

Lemma service_inv_init cfg fs calls t ts k base s :
  let S0 := mkObservedPort (mkSharedPort (mkFilePort fs calls) [] []) t ts in
  fs_idle fs → eintr_until N (d_file (fs_disk fs)) → service_init cfg S0 k base s → service_inv (log fs) k base s.
Proof.
  intros S0 [I1 I2 I3 I4 I5] HN [(_ & _ & Hr & _) [Hi Hs]]. unfold port. split.
  - apply reach_init, Hi.
  - intros _. split; [by eapply World_init|]. destruct Hi as (_ & _ & _ & _ & Lo & P & G).
    unfold Stored, sink_ok, tail_ok, committed_bytes. rewrite P, Lo, G, Hs. cbn. split; [done|].
    exists 0%nat, []. split; [done|apply prefix_nil].
  - unfold port. rewrite Hs. unfold sound, stands. cbn. rewrite I5, !app_nil_r. split; [done|]. split; [done|]. right; left.
    split; try done. by rewrite I2.
  - unfold port. by rewrite Hs.
  - unfold port. by rewrite Hs, Hr.
Qed.

Lemma service_inv_reach cfg fs calls t ts k base s :
  let S0 := mkObservedPort (mkSharedPort (mkFilePort fs calls) [] []) t ts in
  0 <= base < 2 ^ 64 → 1 <= k <= 30 → fs_idle fs → eintr_until N (d_file (fs_disk fs)) →
  service_reach cfg S0 k base s → service_inv (log fs) k base s.
Proof.
  intros S0 Hb Hk Hf HN Hr. induction Hr as [s Hi|s s' _ IH Hs]; [by eapply service_inv_init|].
  by eapply service_inv_step.
Qed.

(** A batch among those that were put out is in their bytes, in one piece. *)
Lemma bytes_whole l who b : (who, b) ∈ l → ∃ l1 l2, bytes_of l = l1 ++ concat b ++ l2.
Proof.
  intros (m1 & m2 & ->)%list_elem_of_split. exists (bytes_of m1), (bytes_of m2).
  unfold bytes_of. by rewrite map_app, concat_app.
Qed.

Lemma accepted_whole l l' id b :
  of_collector l = accepted_runs l' → (id, b, None) ∈ l' → (ByCollector, Batch_Records b) ∈ l.
Proof.
  intros E Hin. assert (Hb : Batch_Records b ∈ of_collector l).
  { rewrite E. apply list_elem_of_fmap. exists (id, b, None). split; [done|]. by apply list_elem_of_filter. }
  apply list_elem_of_fmap in Hb as ([who b'] & Eb & [Hw Hl]%list_elem_of_filter). cbn in *. by subst.
Qed.

(** C1. One service, one log file.  However its publishers, its flusher, borrowers of
    leases, [Close], the accept loop and the connections of the collector with
    whatever their peers send interleave, and whatever the disk answers: the log holds
    what it held, then exactly the batches whose sink call answered nil, each whole
    and once, in the order of the answers, then part of at most one batch under way.
    The collector's among them are the batches of its successful sink calls, in order;
    every batch a peer was sent [Accepted] for is in the log in one piece.  The
    flusher's are the stream of admitted events, from the first on, without gap, with
    every delivered event; after a clean close nobody raced, all of it. *)
Theorem service_log cfg fs calls t ts k base s :
  let S0 := mkObservedPort (mkSharedPort (mkFilePort fs calls) [] []) t ts in
  0 <= base < 2 ^ 64 → 1 <= k <= 30 → fs_idle fs → eintr_until N (d_file (fs_disk fs)) →
  service_reach cfg S0 k base s → bounded (w_ring (cs_sink s)) →
  let w := cs_sink s in let p := port w in
  log (sh_sink p) = log fs ++ bytes_of (acknowledged p) ++ Sink.committed (fs_pending (sh_sink p)) ∧
  Sink.committed (fs_pending (sh_sink p)) `prefix_of` concat (Sink.records (fs_pending (sh_sink p))) ∧
  of_collector (acknowledged p) = accepted_runs (cs_runs s) ∧
  (∀ id c b, cs_conns s !! id = Some c → (b, StatusAccepted) ∈ acks c →
     ∃ l1 l2, log (sh_sink p) = l1 ++ concat (Batch_Records b) ++ l2) ∧
  ∃ n, of_flusher (acknowledged p) = take n (stream w) ∧
    (length (concat (published_bytes (w_ghost w) (concat (delivered (w_ghost w))))) <= n)%nat ∧
    (∀ m, w_pc w = RDone → aborting (w_loop w) = false → left_at (w_ghost w) = Some (m, false) →
       of_flusher (acknowledged p) = stream w).
Proof.
  intros S0 Hb Hk Hf HN Hr B w p.
  destruct (service_inv_reach cfg fs calls t ts k base s Hb Hk Hf HN Hr) as [_ Hfl [L _] _ Hrun].
  fold w p in Hfl, L, Hrun. rewrite <- app_assoc in L. destruct (Hfl B) as [Wo St].
  split; [exact L|]. split; [apply committed_prefix|]. split; [exact Hrun|]. split.
  - intros id c b Hc Ha. destruct (conns_reach_inv _ _ _ _ (service_csys _ _ _ _ _ Hr)) as [_ Hi].
    destruct (ci_acks _ _ _ (Hi id c Hc) _ Ha) as [[_ Hin]|[[? _]|[? _]]]; [|done|done].
    destruct (bytes_whole _ _ _ (accepted_whole _ _ _ _ Hrun Hin)) as (l1 & l2 & E).
    exists (log fs ++ l1), (l2 ++ Sink.committed (fs_pending (sh_sink p))).
    rewrite L, E. by rewrite <- !app_assoc.
  - destruct (stored_stream [] w Wo St) as (n & E & Hn & Hall). exists n. split; [exact E|]. by split.
Qed.
End Service.

(** ** A run *)

(** A peer's frame is written; then two events are published and flushed, the disk
    failing once on the way. *)
#[local] Instance run_ops : BatchSink (observed shared_port) := observed_ops (H := shared_port_ops (H := vectored_write) 0).

Definition log_start : observed shared_port :=
  mkObservedPort (mkSharedPort (mkFilePort (sample_sink (mkWriter [] 0 sink_all) [None; None; None; None; None; None; Some (ErrNew "input/output error")]) []) [] [])
    (newObservedSink fileBatchMode) [].
Definition log_world : world (observed shared_port) :=
  mkWorld test_ring ∅ example_pool test_flusher (new_loop test_config) RSelect log_start (mkGhost [] [] [] [] ∅ None).
Definition log_service : service := mkCsys sample_server ∅ log_world [] [].
Definition log_open : service :=
  log_service <| cs_server := sample_accepted |> <| cs_conns ::= <[4%nat := mkConn sample_connection CRead [] []]> |>.

Definition sample_write := collector_write (H := vectored_write) 0.
Definition sample_others := other_moves (H := vectored_write) 0.
Definition sample_init := service_init sample_cfg log_start 2 (2 ^ 64 - 2).

Definition log_turn := handle_batch (sample_write (no_cancel, 1)) sample_accepted log_world sample_connection.
Definition log_middle : world (observed shared_port) :=
  Eval vm_compute in match log_turn with Some (_, k, _, _) => k | None => log_world end.
Definition log_end : world (observed shared_port) := Eval vm_compute in default log_middle (do_events file_events log_middle).

Lemma log_turn_goes_on : ∃ v io, log_turn = Some (v, log_middle, io, true).
Proof. eexists _, _. vm_compute. reflexivity. Qed.

Lemma log_service_init : sample_init log_service.
Proof.
  split; [split; [vm_compute; reflexivity|done]|]. split; [|done]. split_and!; try done.
  - apply start_state_start. vm_compute. reflexivity.
  - exists example_config. apply example_New.
  - by exists test_config.
Qed.

(** The flusher's world moves inside the service. *)
Lemma service_events l : ∀ s w,
  reach sample_init (csys_step sample_write sample_others) s → do_events l (cs_sink s) = Some w →
  reach sample_init (csys_step sample_write sample_others) (s <| cs_sink := w |>).
Proof.
  induction l as [|e l IH]; cbn [do_events]; intros s w R E.
  - injection E as <-. by destruct s.
  - destruct (do_event e (cs_sink s)) as [w1|] eqn:E1; [|done]. cbn in E.
    assert (R1 : reach sample_init (csys_step sample_write sample_others) (s <| cs_sink := w1 |>)).
    { eapply reach_step; [exact R|]. apply cs_other. apply flusher_moves. by eapply do_event_step. }
    exact (IH (s <| cs_sink := w1 |>) w R1 E).
Qed.

Lemma log_reach : ∃ s, service_reach (H := vectored_write) 0 sample_cfg log_start 2 (2 ^ 64 - 2) s ∧ cs_sink s = log_end.
Proof.
  assert (H1 : reach sample_init (csys_step sample_write sample_others) log_open).
  { eapply reach_step; [apply reach_init, log_service_init|].
    apply (cs_accept sample_write sample_others 4 sample_connection log_service sample_accepted);
      [cbn; set_solver|done|done|apply sink_all_ok|reflexivity]. }
  destruct log_turn_goes_on as (v & io & E).
  destruct (turned_reach sample_write sample_others sample_init log_open 4 v log_middle io true H1) as (s1 & c1 & H2 & _ & Hk & _).
  { by eapply (turn_steps sample_write sample_others log_open 4 _ (no_cancel, 1)); [apply lookup_insert_eq|done|exact E]. }
  exists (s1 <| cs_sink := log_end |>). split; [|done]. apply (service_events file_events); [exact H2|].
  rewrite Hk. vm_compute. reflexivity.
Qed.

Lemma service_log_witness :
  ∃ s, service_reach (H := vectored_write) 0 sample_cfg log_start 2 (2 ^ 64 - 2) s ∧
    log (sh_sink (port (cs_sink s))) = concat sample_records ++ [x01; x02; x03] ∧
    accepted_runs (cs_runs s) = [sample_records] ∧
    of_flusher (acknowledged (port (cs_sink s))) = stream (cs_sink s).
Proof.
  destruct log_reach as (s & Hr & Hs). exists s.
  destruct (service_log (H := vectored_write) 0 sample_cfg (fp_sink (sh_file (ob_inner log_start))) []
    (newObservedSink fileBatchMode) [] 2 (2 ^ 64 - 2) s) as (L & _ & Hc & _ & n & _ & _ & X).
  - lia.
  - lia.
  - split; try reflexivity. intros i b. cbn. lia.
  - intros i b e Hi. discriminate.
  - exact Hr.
  - rewrite Hs. vm_compute. reflexivity.
  - rewrite Hs in L, Hc, X |- *. split; [exact Hr|]. split; [etrans; [exact L|]; vm_compute; reflexivity|].
    split; [rewrite <- Hc; vm_compute; reflexivity|]. exact (X 2%nat eq_refl eq_refl eq_refl).
Defined.
